(* ===== verification/_CoqProject ===== *)
-Q . S2P
Prelude.v
Codec.v
Endpoint.v
Framed.v
Message.v
Bloom.v
RoutingTable.v
RoutingTableSpec.v
RoutingTableQueries.v
Version.v
Session.v
Handshake.v
Config.v
KadMessages.v
Lookup.v
LookupSpec.v
LookupExchange.v
Refresh.v
RefreshSpec.v
RefreshLoop.v
Kademlia.v
KademliaSpec.v
KeyPair.v
TlsConfig.v
Backoff.v
Connector.v
Listener.v
Queue.v
QueueSpec.v
CondWait.v
TaskGroup.v
Lifecycle.v
Connection.v
ConnectionSpec.v
PeerShutdown.v
QuicStreams.v
Ping.v
Pool.v
PoolSpec.v
PoolTurn.v
Swarm.v
SwarmSpec.v
EventEmitter.v
EventEmitterSpec.v
Monitor.v
Node.v
NodeSystem.v
NodeRun.v
Utf8.v
IpText.v
EndpointText.v
Timed.v
Transports.v
QuicTransport.v
Stun.v
StunSpec.v
StunService.v
StunServer.v
Json.v
Ws.v
JsonRpcServer.v
JsonRpcServerSpec.v
JsonRpcClient.v
JsonRpcClientSpec.v
JsonRpcExchange.v
JsonRpcMacros.v
JsonRpcErrors.v
JsonRpcQuic.v
JsonRpcQuicSpec.v
JsonRpcHttp.v
JsonRpcH3.v
JsonRpcServerSystem.v
JsonRpcSetup.v
JsonRpcSetupSpec.v
JsonRpcApi.v
Socks5.v
