(* ===== verification/Prelude.v ===== *)
(** * Verification of the karyon networking crates

    karyon is a set of Rust crates for peer-to-peer networking: [core] (async
    utilities), [net] (endpoints, codecs, framed connections, transports),
    [p2p] (peers, handshake, Kademlia discovery), [stun] (finding the public
    address), [jsonrpc] (remote procedure calls with subscriptions),
    [utils/eventemitter] and [swarm].  This development is a shallow embedding
    of the parts of these crates that compute and decide, with the theorems
    that make them correct.

    ** How code is modelled

    Pure functions are functions.  Fallible ones return a [result], a monad
    whose bind is [?].  Machine integers are [Z] with their width in [is_u] and
    wrap-around where the code can reach it; bytes are [list Z].  Maps and sets
    are [gmap] and [gset]; where the order of a hash map matters, the order of
    its iteration is an argument.  An [async fn] is one of three things,
    whichever its theorems need: a function of what its awaits give
    ([session] and [task] of Session.v, event lists elsewhere), where [Pending]
    is an await that never returns and a script that runs out; a function on
    shared state between awaits, with what the node's other tasks do in between
    as an argument constrained by a rely condition ([kad_step] of LookupSpec.v);
    or a set of steps of a transition system in which tasks interleave and may
    be cancelled.  Random numbers, clocks, results of I/O and orders of
    completion are arguments.  Text produced by [format!] in errors is
    represented by its constant part.  Logging and the monitor's notifications
    are left out where they do not affect the state.

    Code that is not part of the repository is a parameter with its documented
    laws: bincode ([Bincode], [BincodeU32]), SipHash (Bloom.v), semver
    ([Semver]), ed25519 ([Dalek]), certificates ([X509], [CertGen]), the JSON
    text syntax of serde_json ([JsonText]), the URL parser ([UrlCrate]), hyper
    ([Http]), the sockets and the resolver of the system ([Os]), rustls ([Rustls]),
    quinn ([Quinn]), the WebSocket library ([Tungstenite]), the bytes of streams
    (scripts of events), the services of a JSON-RPC server.  Futures that wait are
    what they give and when ([timed] of Timed.v).

    ** The files

    - Prelude.v: results, automation, machine integers, lists, strings.
    - Codec.v: [net/src/buffer.rs], [net/src/codec], [p2p/src/codec.rs] and the
      error types of [core] and [net].  [Framing] is what a codec promises to a
      framed connection; LengthCodec, BytesCodec and MsgCodec discharge it.
    - Endpoint.v, IpText.v, EndpointText.v: [net/src/endpoint.rs], with the texts
      of addresses.  Endpoints print to a text that parses to the same endpoint,
      those with IPv6 addresses and Unix paths apart.
    - Timed.v: [select], [timeout] and [sleep] of [core].
    - Transports.v, QuicTransport.v, Ws.v: the transports and layers of [net].
      Streams report the endpoints they were made with; a QUIC server has the
      limits it was configured with and bounds its handshakes; a WebSocket
      connection is a reliable ordered channel.
    - Framed.v: [net/src/framed.rs], [net/src/message.rs].  A framed connection
      over a [Framing] codec is a reliable ordered channel, whatever the stream
      does to the bytes and whichever calls are abandoned.
    - Message.v, Version.v, Session.v, Handshake.v, Config.v: the data plane
      messages, versions and handshake of [p2p], and its configuration.  The
      handshake is sound against any peer, and two honest nodes agree.
    - Bloom.v, RoutingTable.v, RoutingTableSpec.v, RoutingTableQueries.v: the
      Kademlia filter and table of [p2p/src/discovery/kademlia].  Every
      operation keeps the table's invariant and does what its specification
      says on every branch; queries return exactly what they should.
    - KadMessages.v, Lookup.v, LookupSpec.v, LookupExchange.v, Refresh.v,
      RefreshSpec.v, RefreshLoop.v, Kademlia.v, KademliaSpec.v: the discovery
      services.  They are safe against any remote node and under interference of
      each other: [discovery_step] of Kademlia.v is the connect loop, seeding, lookups,
      inbound lookup connections and the refresh loop on one table, and what they
      accept is all the table ever holds.  A lookup and a ping between honest nodes
      succeed, the refresh loop evicts an entry exactly when it has failed too often
      (while no other task changes the table), and the node hands every peer out once.
    - KeyPair.v, TlsConfig.v: [core/src/crypto] and [p2p/src/tls_config.rs].  The
      certificates of two nodes verify on the other side; a peer that passes
      verification and handshake has the key that is its identity.
    - Backoff.v, Connector.v, Listener.v: the backoff of [core] at its machine
      width, dialing with retries, and the accept loop with its slots and reports: no
      slot is lost, whatever interleaves.
    - Queue.v, QueueSpec.v: [CondVar] and [AsyncQueue] of [core], with locks,
      wakers and cancellation as steps.  The queue refines an atomic bounded
      first-in first-out queue ([atomic_step]), which is what its clients below
      are modelled with; with calls dropped at any of their awaits it keeps no more
      values from waiting receivers than receivers were dropped.
    - CondWait.v, TaskGroup.v: the wait condition and the task group of [core].
      No signal is lost, resets included; a cancelled group has run every callback
      once.
    - Lifecycle.v: components made of task groups, by the groups their tasks are
      spawned into, the calls that spawn them and the order in which a shutdown cancels
      them ([layout]): which tasks can outlive a shutdown, and that it can always
      return.
    - Connection.v, ConnectionSpec.v, PeerShutdown.v, QuicStreams.v: a peer of
      [p2p/src/peer], its protocols, writer, reader and shutdown as interleaved
      tasks, and two of them over a stream: every protocol has a reliable ordered
      channel.  Over QUIC the two sides agree on one stream per protocol.
    - Ping.v: the ping protocol: which pings are answered, when a peer is given up.
    - Pool.v, PoolSpec.v, PoolTurn.v: [p2p/src/conn_queue.rs] and
      [p2p/src/peer_pool.rs]: no connection is lost, and a peer has one; what the run
      loop emits for a connection.
    - Swarm.v, SwarmSpec.v: [swarm]: the members of a swarm are the connected
      peers that speak its protocol, as long as peers do not change the protocols they
      speak.
    - Node.v, NodeSystem.v: [p2p/src/node.rs] over the interface [Discovery], which
      Kademlia.v implements.  A discovered peer is followed through dial, handshake
      and pool back to its entry of the routing table; a whole node is a run of
      each of its parts, within the slots of its configuration.
    - NodeRun.v: construction, [run] and [shutdown] of a node: when [run] returns,
      which tasks a shutdown can leave, over Lifecycle.v, that the peers of the pool are
      shut down, and when it returns.
    - EventEmitter.v, EventEmitterSpec.v: [utils/eventemitter]: every live
      listener gets every event once.
    - Monitor.v: [p2p/src/monitor] over the event emitter: a listener gets the
      events of its type.
    - Utf8.v, Stun.v, StunSpec.v, StunService.v, StunServer.v: the STUN messages,
      codec, client and server.  Messages round trip, decoding is safe on any bytes, a
      query returns the address the server saw, over datagrams and over streams,
      believes only its server and comes to an end; the server never serves more
      connections than its limit, and a shutdown of it can leave no more than a
      connection it has just accepted.
    - Json.v, JsonRpcServer.v, JsonRpcServerSpec.v, JsonRpcClient.v,
      JsonRpcClientSpec.v, JsonRpcExchange.v: the JSON-RPC messages, the server's
      dispatch and connections, the multiplexed client.  A call gives what the
      method returned; every request is answered at most once; every caller
      gets its own response, if it comes within its timeout.
    - JsonRpcErrors.v, JsonRpcMacros.v: which requests fail and how, and the
      services written with the macros of [jsonrpc/impl].
    - JsonRpcQuic.v, JsonRpcQuicSpec.v: JSON-RPC with a QUIC stream per call and
      per subscription, both sides of all streams interleaved.  A subscriber gets
      the results its service sent in order and without gaps.
    - JsonRpcHttp.v: calls over HTTP/1.1, HTTP/2 and HTTP/3 with any codec that
      keeps [BodyCodec].  A call gives what the method returned, however the
      data is cut, and bodies are bounded.
    - JsonRpcH3.v: subscriptions over HTTP/3, byte by byte.  They refine those over
      QUIC.
    - JsonRpcServerSystem.v: a server with all its connections over every backend:
      each connection, stream and request makes a run of its own; and what outlives
      [Server::shutdown] and [Client::stop], instances of Lifecycle.v.
    - JsonRpcSetup.v, JsonRpcSetupSpec.v, JsonRpcApi.v: the builders, backends,
      acceptors and accept loops of [jsonrpc], and the methods of a client.  A client
      built from the endpoint of a server speaks its protocol, each side with the codec
      it was built with; the accept loops never
      stop and lose no connection; the configuration decides what a client's methods
      do.
    - Socks5.v: [net/src/layers/proxy/socks5.rs].  The handshake asks for its
      target and takes exactly the reply off the stream.

    ** Bounds and fuel

    The decoding loop of STUN attributes, the lossy UTF-8 decoder, the chunks of
    a refresh round and the receive loop of a lookup recurse on fuel; each has a
    lemma that the fuel given (the length of the input) is enough, and their
    theorems are about the functions with that fuel.  Identifiers of waiters in
    the condition variable are unbounded.  Capacities of channels and queues
    are the source's constants or parameters.

    ** Not modelled

    The libraries named above and the executors, whose behaviour is an argument.
    The wrappers of [core/src/async_runtime] and the [AsyncRead] and [AsyncWrite]
    implementations of [net], which only forward.  What the HTTP libraries do in the
    tasks that drive their connections.  Methods that pass one call on to a part that
    is modelled, and accessors.  The shutdown of a peer whose [run] the pool spawned
    while it was being cancelled itself.  The code the derive macro of [utils/eventemitter]
    expands to, its event identifier apart.  Logging, re-exports and example
    programs.  PROJECT.json lists every component with its status. *)

From Stdlib Require Export ZArith Lia.
From stdpp Require Export base countable gmap strings list.

#[export] Set Default Goal Selector "!".

(** ** Results

    [std::result::Result] with the error type first, so that [result E] is a
    monad and the [?] operator of the source is stdpp's [x ← c; k]. *)

Inductive result (E A : Type) : Type :=
| Ok (a : A)
| Err (e : E).
Arguments Ok {E A} _.
Arguments Err {E A} _.

#[export] Instance result_ret {E} : MRet (result E) := λ A a, Ok a.
#[export] Instance result_bind {E} : MBind (result E) := λ A B f c,
  match c with
  | Ok a => f a
  | Err e => Err e
  end.
#[export] Instance result_fmap {E} : FMap (result E) := λ A B f c,
  match c with
  | Ok a => Ok (f a)
  | Err e => Err e
  end.

(** [Result::map_err]. *)
Definition map_err {E F A} (f : E → F) (c : result E A) : result F A :=
  match c with
  | Ok a => Ok a
  | Err e => Err (f e)
  end.

(** [Option::ok_or]. *)
Definition ok_or {E A} (o : option A) (e : E) : result E A :=
  match o with
  | Some a => Ok a
  | None => Err e
  end.

Definition is_ok {E A} (c : result E A) : bool :=
  match c with Ok _ => true | Err _ => false end.

Lemma result_bind_Ok {E A B} (c : result E A) (f : A → result E B) b :
  c ≫= f = Ok b ↔ ∃ a, c = Ok a ∧ f a = Ok b.
Proof.
  destruct c; simpl; split; intros H; try done.
  - by eauto.
  - by destruct H as (? & [= ->] & ?).
  - by destruct H as (? & [=] & ?).
Qed.

Lemma map_err_Ok {E F A} (f : E → F) (c : result E A) a :
  map_err f c = Ok a ↔ c = Ok a.
Proof. destruct c; simpl; naive_solver. Qed.

(** ** Automation *)

Create HintDb karyon discriminated.

(** [inv_ok] inverts equations between results; [split_match] splits every
    [match] and [if] of the goal and the hypotheses. *)
Ltac inv_ok :=
  repeat match goal with
  | H : Ok _ = Ok _ |- _ => injection H as H; subst
  | H : Err _ = Err _ |- _ => injection H as H; subst
  | H : Ok _ = Err _ |- _ => discriminate H
  | H : Err _ = Ok _ |- _ => discriminate H
  | H : Some _ = None |- _ => discriminate H
  | H : None = Some _ |- _ => discriminate H
  | H : (_ ≫= _) = Ok _ |- _ => apply result_bind_Ok in H as (? & ? & H)
  end.

Ltac split_match :=
  repeat (case_match; simplify_eq/=).

(** ** Machine integers

    A [w]-bit unsigned integer is a [Z]; [is_u w] is its type invariant. *)

Definition is_u (w : Z) (z : Z) : Prop := (0 ≤ z < 2 ^ w)%Z.

Abbreviation is_u8 := (is_u 8).
Abbreviation is_u16 := (is_u 16).
Abbreviation is_u32 := (is_u 32).
Abbreviation is_u64 := (is_u 64).

(** A byte string is a list of [u8]. *)
Abbreviation bytes := (list Z) (only parsing).

Definition is_bytes (bs : list Z) : Prop := Forall is_u8 bs.

Lemma is_u_bound w z : is_u w z ↔ (0 ≤ z < 2 ^ w)%Z.
Proof. done. Qed.

Lemma is_u8_bound z : is_u8 z ↔ (0 ≤ z < 256)%Z.
Proof. done. Qed.

Lemma is_u16_bound z : is_u16 z ↔ (0 ≤ z < 65536)%Z.
Proof. done. Qed.

Lemma is_u32_bound z : is_u32 z ↔ (0 ≤ z < 4294967296)%Z.
Proof. done. Qed.

(** Turns every [is_u] hypothesis of a literal width into its bounds. *)
Ltac unfold_u :=
  rewrite ?is_u8_bound, ?is_u16_bound, ?is_u32_bound in *.

(** [lia] over goals with division and modulo by constants. *)
Ltac div_lia := Z.to_euclidean_division_equations; lia.

#[export] Instance is_u_dec w z : Decision (is_u w z).
Proof. unfold is_u. apply _. Defined.

(** [u16::to_be_bytes] / [u16::from_be_bytes] and their [u32] versions. *)
Definition u16_to_be (z : Z) : list Z := [z / 256; z mod 256]%Z.
Definition u16_from_be (a b : Z) : Z := (a * 256 + b)%Z.

Definition u32_to_be (z : Z) : list Z :=
  [z / 16777216; (z / 65536) mod 256; (z / 256) mod 256; z mod 256]%Z.
Definition u32_from_be (a b c d : Z) : Z :=
  (a * 16777216 + b * 65536 + c * 256 + d)%Z.

Lemma u16_be_roundtrip z : u16_from_be (z / 256) (z mod 256) = z.
Proof. unfold u16_from_be. div_lia. Qed.

Lemma u16_to_be_bytes z : is_u16 z → is_bytes (u16_to_be z).
Proof. intros Hz. unfold u16_to_be. repeat constructor; unfold_u; div_lia. Qed.

Lemma u16_from_be_u16 a b : is_u8 a → is_u8 b → is_u16 (u16_from_be a b).
Proof. unfold u16_from_be. unfold_u. lia. Qed.

#[export] Hint Resolve u16_to_be_bytes u16_from_be_u16 : karyon.

(** Bitwise operations stay inside their width. *)

Lemma testbit_above w z i : is_u w z → (w ≤ i)%Z → Z.testbit z i = false.
Proof.
  intros [Hlo Hhi] Hi. destruct (decide (z = 0)%Z) as [->|Hz].
  { apply Z.testbit_0_l. }
  apply Z.bits_above_log2; [done|].
  apply Z.log2_lt_pow2 in Hhi; lia.
Qed.

Lemma is_u_of_bits w z :
  (0 ≤ w)%Z → (0 ≤ z)%Z → (∀ i, (w ≤ i)%Z → Z.testbit z i = false) → is_u w z.
Proof.
  intros Hw Hz Hbits. split; [done|].
  destruct (decide (z = 0)%Z) as [->|Hne]; [by apply Z.pow_pos_nonneg|].
  apply Z.log2_lt_pow2; [lia|].
  destruct (Z_lt_le_dec (Z.log2 z) w) as [|Hge]; [done|].
  pose proof (Z.bit_log2 z ltac:(lia)) as Hb.
  rewrite (Hbits _ Hge) in Hb. done.
Qed.

Lemma lxor_is_u w a b : (0 ≤ w)%Z → is_u w a → is_u w b → is_u w (Z.lxor a b).
Proof.
  intros Hw Ha Hb. apply is_u_of_bits; [done| |].
  - apply Z.lxor_nonneg. destruct Ha, Hb; lia.
  - intros i Hi. by rewrite Z.lxor_spec, !(testbit_above w).
Qed.

Lemma lor_is_u w a b : (0 ≤ w)%Z → is_u w a → is_u w b → is_u w (Z.lor a b).
Proof.
  intros Hw Ha Hb. apply is_u_of_bits; [done| |].
  - apply Z.lor_nonneg. destruct Ha, Hb; lia.
  - intros i Hi. by rewrite Z.lor_spec, !(testbit_above w).
Qed.

Lemma lxor_involutive a k : Z.lxor (Z.lxor a k) k = a.
Proof. by rewrite Z.lxor_assoc, Z.lxor_nilpotent, Z.lxor_0_r. Qed.

(** ** Lists *)

Lemma length_app_le {A} (l k : list A) : length l ≤ length (l ++ k).
Proof. rewrite length_app. lia. Qed.

(** The first element satisfying a test, as [Iterator::find]. *)
Fixpoint find_first {A} (f : A → bool) (l : list A) : option A :=
  match l with
  | [] => None
  | x :: l => if f x then Some x else find_first f l
  end.

Lemma find_first_Some {A} (f : A → bool) l x :
  find_first f l = Some x → x ∈ l ∧ f x = true.
Proof.
  induction l as [|y l IH]; simpl; [done|].
  destruct (f y) eqn:Hf; intros Heq; simplify_eq; set_solver.
Qed.

Lemma find_first_None {A} (f : A → bool) l :
  find_first f l = None ↔ ∀ x, x ∈ l → f x = false.
Proof.
  induction l as [|y l IH]; simpl.
  - split; [set_solver|done].
  - destruct (f y) eqn:Hf.
    + split; [done|]. intros H. specialize (H y). rewrite Hf in H. set_solver.
    + rewrite IH. set_solver.
Qed.

(** The number of elements satisfying a test. *)
Fixpoint countb {A} (f : A → bool) (l : list A) : nat :=
  match l with
  | [] => 0
  | x :: l => (if f x then 1 else 0) + countb f l
  end.

Lemma countb_app {A} (f : A → bool) l k :
  countb f (l ++ k) = countb f l + countb f k.
Proof. induction l; simpl; lia. Qed.

Lemma countb_le_impl {A} (f g : A → bool) l :
  (∀ x, x ∈ l → f x = true → g x = true) → countb f l ≤ countb g l.
Proof.
  induction l as [|x l IH]; simpl; intros H; [done|].
  assert (countb f l ≤ countb g l) by (apply IH; set_solver).
  specialize (H x ltac:(set_solver)).
  destruct (f x), (g x); naive_solver lia.
Qed.

Lemma countb_zero {A} (f : A → bool) l :
  countb f l = 0 ↔ ∀ x, x ∈ l → f x = false.
Proof.
  induction l as [|x l IH]; simpl; [set_solver|].
  destruct (f x) eqn:Hf; simpl.
  - split; [lia|]. intros H. specialize (H x). rewrite Hf in H. set_solver.
  - rewrite IH. set_solver.
Qed.

Lemma countb_ext {A} (f g : A → bool) l : (∀ x, x ∈ l → f x = g x) → countb f l = countb g l.
Proof.
  intros Hfg. apply Nat.le_antisymm; apply countb_le_impl; intros x Hx; by rewrite (Hfg x Hx).
Qed.

Lemma countb_length {A} (f : A → bool) l : countb f l ≤ length l.
Proof. induction l as [|x l IH]; simpl; [done|]. destruct (f x); lia. Qed.

Lemma countb_insert {B} (f : B → bool) l i x y :
  l !! i = Some x →
  countb f (<[i := y]> l) + (if f x then 1 else 0) = countb f l + (if f y then 1 else 0).
Proof.
  revert i. induction l as [|z l IH]; intros [|i] Hi; simplify_eq/=; [lia|].
  specialize (IH i Hi). lia.
Qed.

Lemma countb_replace {B} (f : B → bool) l i x y :
  l !! i = Some x → f x = f y → countb f (<[i := y]> l) = countb f l.
Proof. intros Hi Hf. pose proof (countb_insert f l i x y Hi) as Hc. rewrite Hf in Hc. lia. Qed.

Lemma countb_perm {A} (f : A → bool) l k : l ≡ₚ k → countb f l = countb f k.
Proof. induction 1; simpl; lia. Qed.

Lemma countb_sublist {A} (f : A → bool) (l k : list A) :
  sublist l k → countb f l ≤ countb f k.
Proof. induction 1; simpl; [done| |]; destruct (f x); lia. Qed.

Lemma Forall_sublist {A} (P : A → Prop) (l k : list A) :
  sublist l k → Forall P k → Forall P l.
Proof. induction 1; rewrite ?Forall_cons; naive_solver. Qed.

(** An element of a filtered list splits the list it comes from. *)
Lemma filter_app_cons {A} (P : A → Prop) `{∀ x, Decision (P x)} l k1 k2 a :
  filter P l = k1 ++ a :: k2 →
  ∃ l1 l2, l = l1 ++ a :: l2 ∧ filter P l1 = k1 ∧ P a ∧ filter P l2 = k2.
Proof.
  revert k1. induction l as [|b l IH]; intros k1; [by destruct k1|].
  rewrite filter_cons. case_decide as Hb.
  - destruct k1 as [|c k1]; intros [= -> Hk].
    + by exists [], l.
    + destruct (IH k1 Hk) as (l1 & l2 & -> & <- & ? & ?).
      exists (c :: l1), l2. by rewrite filter_cons, decide_True.
  - intros Hk. destruct (IH k1 Hk) as (l1 & l2 & -> & <- & ? & ?).
    exists (b :: l1), l2. by rewrite filter_cons, decide_False.
Qed.

(** ** Strings *)

(** [str::split(c)]. *)
Fixpoint split_char (c : Ascii.ascii) (s : string) : list string :=
  match s with
  | EmptyString => [EmptyString]
  | String a s =>
      if decide (a = c) then EmptyString :: split_char c s
      else
        match split_char c s with
        | w :: ws => String a w :: ws
        | [] => []
        end
  end.
