(* ===== verification/Codec.v ===== *)
(** * Byte buffers and message codecs

    Models [net/src/buffer.rs], [net/src/codec/*.rs], [net/src/error.rs] and
    the two bincode codecs of the p2p crate ([p2p/src/codec.rs] and the codec
    of [p2p/src/discovery/kademlia/messages.rs]).

    [Codec] is the trait of the source.  [Framing] is what a codec promises to
    a framed connection: the encoding of a message is a non-empty frame, a
    buffer that starts with a whole frame decodes to its message, and a strict
    prefix of a frame asks for more data.  The file proves that the
    length-prefixed codec and the codecs built on it keep that promise. *)

From S2P Require Import Prelude.

Local Open Scope Z_scope.

(** ** Errors of the core and net crates *)

Inductive io_kind := ConnectionAborted | UnexpectedEof | InvalidData | InvalidInput | AddrNotAvailable
| OtherIo.

(** Formatted texts are kept as their constant part; an error of a third-party
    crate has no content. *)
Inductive core_error :=
| CoreIO (k : io_kind)
| TryInto (s : string)
| CoreTimeout
| Ed25519
| TokioJoinError
| TokioAcquireError.

Inductive net_error :=
| IO (k : io_kind)
| TryFromEndpoint
| UnsupportedEndpoint (s : string)
| ParseEndpoint (s : string)
| BufferFull (s : string)
| MissingConfig (s : string)
| Socks5 (s : string)
| TlsConfig (s : string)
| QuicConfigError (s : string)
| ConnectionClosed
| WsError
| InvalidDnsNameError
| QuicConnection
| QuicConnect
| BincodeDecode
| BincodeEncode
| KaryonCore (e : core_error).

(** ** Buffers *)

(** [usize] length of a byte slice. *)
Definition len (bs : list Z) : Z := Z.of_nat (length bs).

Lemma len_nonneg bs : 0 ≤ len bs.
Proof. unfold len. lia. Qed.

Lemma len_app bs cs : len (bs ++ cs) = len bs + len cs.
Proof. unfold len. rewrite length_app. lia. Qed.

Lemma len_cons b bs : len (b :: bs) = 1 + len bs.
Proof. unfold len. simpl length. lia. Qed.

Lemma len_zero bs : len bs = 0 ↔ bs = [].
Proof. unfold len. destruct bs; simpl; split; (done || lia). Qed.

(** [&bs[a..b]]; the ranges of the source are in bounds where it is used. *)
Definition slice (bs : list Z) (a b : Z) : list Z :=
  take (Z.to_nat (b - a)) (drop (Z.to_nat a) bs).

Lemma slice_app bs cs ds a b :
  a = len bs → b = len bs + len cs → slice (bs ++ cs ++ ds) a b = cs.
Proof.
  intros -> ->. unfold slice, len.
  rewrite Nat2Z.id, drop_app_length.
  replace (Z.to_nat _) with (length cs) by lia. apply take_app_length.
Qed.

Lemma slice_prefix bs cs a : a = len bs → slice (bs ++ cs) 0 a = bs.
Proof. intros ->. apply (slice_app [] bs cs); done. Qed.

Lemma len_slice bs a b :
  0 ≤ a → a ≤ b → b ≤ len bs → len (slice bs a b) = b - a.
Proof.
  unfold slice, len. intros. rewrite length_take, length_drop. lia.
Qed.

Lemma app_prefix_long (a b p q : list Z) :
  a ++ b = p ++ q → len a ≤ len p → ∃ l, p = a ++ l ∧ b = l ++ q.
Proof.
  unfold len. intros Heq Hlen. exists (drop (length a) p).
  rewrite <-(take_drop (length a) p) in Heq at 1. rewrite <-app_assoc in Heq.
  apply app_inj_1 in Heq as [Ha Hb]; [|rewrite length_take; lia].
  split; [|done]. rewrite Ha at 1. by rewrite take_drop.
Qed.

(** [bytes::BytesMut] is represented by its contents. *)
Record Buffer := mkBuffer { inner : list Z }.

Module Buffer.

Definition new : Buffer := mkBuffer [].

Definition len (b : Buffer) : Z := Codec.len (inner b).

Definition is_empty (b : Buffer) : bool :=
  match inner b with [] => true | _ => false end.

Definition extend_from_slice (b : Buffer) (bs : list Z) : Buffer :=
  mkBuffer (inner b ++ bs).

Definition from_slice (bs : list Z) : Buffer := extend_from_slice new bs.

Definition extend (b other : Buffer) : Buffer :=
  extend_from_slice b (inner other).

(** Truncates, or grows with zero bytes. *)
Definition resize (b : Buffer) (new_size : Z) : Buffer :=
  mkBuffer (list.resize (Z.to_nat new_size) 0 (inner b)).

(** [None] is the panic of [BytesMut::advance] past the end. *)
Definition advance (b : Buffer) (cnt : Z) : option Buffer :=
  if cnt <=? len b then Some (mkBuffer (drop (Z.to_nat cnt) (inner b)))
  else None.

Definition freeze (b : Buffer) : list Z := inner b.

Lemma advance_app bs cs n :
  n = Codec.len bs → advance (mkBuffer (bs ++ cs)) n = Some (mkBuffer cs).
Proof.
  intros ->. unfold advance, len. simpl. rewrite len_app.
  replace (_ <=? _) with true by (symmetry; apply Z.leb_le; pose proof (len_nonneg cs); lia).
  unfold Codec.len. by rewrite Nat2Z.id, drop_app_length.
Qed.

Lemma is_empty_true b : is_empty b = true ↔ inner b = [].
Proof. unfold is_empty. destruct (inner b); naive_solver. Qed.

End Buffer.

(** ** The codec trait *)

(** [encode] returns its result and the destination buffer it leaves. *)
Class Codec (C M E : Type) := {
  encode : C → M → Buffer → result E Z * Buffer;
  decode : C → Buffer → result E (option (Z * M));
}.

(** What a codec promises to a framed connection, for the messages of [valid]. *)
Class Framing {C M E} `{Codec C M E} (c : C) (valid : M → Prop)
    (frame : M → list Z) : Prop := {
  framing_encode m dst : valid m →
    ∃ n, encode c m dst = (Ok n, mkBuffer (inner dst ++ frame m));
  framing_nonempty m : valid m → frame m ≠ [];
  framing_decode m rest : valid m →
    decode c (mkBuffer (frame m ++ rest)) = Ok (Some (len (frame m), m));
  framing_partial m p q : valid m → frame m = p ++ q → q ≠ [] →
    decode c (mkBuffer p) = Ok None;
}.

(** ** Raw bytes codec *)

Definition MAX_BUFFER_SIZE : Z := 4 * 1024 * 1024.

Module BytesCodec.

Record t := { max_size : Z }.

Definition default : t := {| max_size := MAX_BUFFER_SIZE |}.
Definition new (max_size : Z) : t := {| max_size := max_size |}.

Definition encode (c : t) (src : list Z) (dst : Buffer) : result net_error Z * Buffer :=
  if len src >? max_size c then (Err (BufferFull "Buffer size exceeds maximum"), dst)
  else (Ok (len src), Buffer.extend_from_slice dst src).

Definition decode (c : t) (src : Buffer) : result net_error (option (Z * list Z)) :=
  if Buffer.len src >? max_size c then Err (BufferFull "Buffer size exceeds maximum")
  else if Buffer.is_empty src then Ok None
  else Ok (Some (Buffer.len src, inner src)).

#[global] Instance codec : Codec t (list Z) net_error :=
  {| Codec.encode := encode; Codec.decode := decode |}.

End BytesCodec.

(** ** Length-prefixed codec *)

(** [bincode] with fixed-width integers, at [u32]: a third-party crate.  Its
    functions are parameters; [BincodeU32Laws] states its documented layout,
    four bytes that decode to the encoded value. *)
Class BincodeU32 := {
  encode_u32_into_slice : Z → list Z → option (list Z);
  decode_u32_from_slice : list Z → option (Z * Z);
}.

Class BincodeU32Laws `{BincodeU32} : Prop := {
  bincode_u32_roundtrip z buf : is_u32 z → len buf = 4 →
    ∃ bs, encode_u32_into_slice z buf = Some bs ∧ len bs = 4 ∧
          decode_u32_from_slice bs = Some (z, 4);
  bincode_u32_type bs z n : decode_u32_from_slice bs = Some (z, n) → is_u32 z;
}.

(** [bincode] at a message type, used by [p2p/src/util.rs]. *)
Class Bincode (T : Type) := {
  encode_to_vec : T → option (list Z);
  decode_from_slice : list Z → option (T * Z);
}.

Class BincodeLaws (T : Type) `{Bincode T} (wf : T → Prop) : Prop :=
  bincode_roundtrip x : wf x →
    ∃ bs, encode_to_vec x = Some bs ∧ decode_from_slice bs = Some (x, len bs).

Definition MSG_LENGTH_SIZE : Z := 4.

Module LengthCodec.
Section defs.
Context `{BincodeU32}.

Record t := { max_size : Z }.

Definition new (max_size : Z) : t := {| max_size := max_size |}.
Definition default : t := {| max_size := MAX_BUFFER_SIZE |}.

(** [src.len() as u32] truncates to 32 bits. *)
Definition encode (c : t) (src : list Z) (dst : Buffer) : result net_error Z * Buffer :=
  if len src >? max_size c then (Err (BufferFull "Buffer size exceeds maximum"), dst)
  else
    match encode_u32_into_slice (len src mod 2 ^ 32) [0; 0; 0; 0] with
    | None => (Err BincodeEncode, dst)
    | Some length_buf =>
        let dst := Buffer.extend_from_slice dst length_buf in
        let dst := Buffer.extend_from_slice dst src in
        (Ok (Buffer.len dst), dst)
    end.

Definition decode (c : t) (src : Buffer) : result net_error (option (Z * list Z)) :=
  if Buffer.len src <? MSG_LENGTH_SIZE then Ok None
  else
    match decode_u32_from_slice (slice (inner src) 0 MSG_LENGTH_SIZE) with
    | None => Err BincodeDecode
    | Some (length, _) =>
        if length >? max_size c then Err (BufferFull "Frame length exceeds maximum")
        else if Buffer.len src - MSG_LENGTH_SIZE >=? length then
          Ok (Some (length + MSG_LENGTH_SIZE,
                    slice (inner src) MSG_LENGTH_SIZE (length + MSG_LENGTH_SIZE)))
        else Ok None
    end.

#[global] Instance codec : Codec t (list Z) net_error :=
  {| Codec.encode := encode; Codec.decode := decode |}.

(** The frame of a payload: its length prefix, then the payload. *)
Definition frame (m : list Z) : list Z :=
  from_option id [] (encode_u32_into_slice (len m mod 2 ^ 32) [0; 0; 0; 0]) ++ m.

(** Payloads the codec accepts.  A limit above [u32::MAX] would let a longer
    payload through with a truncated prefix. *)
Definition valid (c : t) (m : list Z) : Prop := len m ≤ max_size c ∧ len m < 2 ^ 32.

End defs.
End LengthCodec.

(** ** Bincode messages in length-prefixed frames

    [PeerNetMsgCodec] of [p2p/src/codec.rs]; [KadNetMsgCodec] is the same code
    at another message type. *)

Module MsgCodec.
Section defs.
Context `{BincodeU32} {M : Type} `{Bincode M}.

Record t := { inner_codec : LengthCodec.t }.

Definition new : t := {| inner_codec := LengthCodec.default |}.

Definition encode (c : t) (src : M) (dst : Buffer) : result net_error Z * Buffer :=
  match encode_to_vec src with
  | None => (Err (IO OtherIo), dst)
  | Some src => LengthCodec.encode (inner_codec c) src dst
  end.

Definition decode (c : t) (src : Buffer) : result net_error (option (Z * M)) :=
  d ← LengthCodec.decode (inner_codec c) src;
  match d with
  | Some (n, s) =>
      '(m, _) ← ok_or (decode_from_slice s) (IO OtherIo);
      Ok (Some (n, m))
  | None => Ok None
  end.

#[global] Instance codec : Codec t M net_error :=
  {| Codec.encode := encode; Codec.decode := decode |}.

Definition payload (m : M) : list Z := from_option id [] (encode_to_vec m).

Definition frame (m : M) : list Z := LengthCodec.frame (payload m).

Definition valid (wf : M → Prop) (c : t) (m : M) : Prop :=
  wf m ∧ LengthCodec.valid (inner_codec c) (payload m).

End defs.
End MsgCodec.

(** ** Theorems *)

Section length_codec.
Context `{BincodeU32} `{!BincodeU32Laws}.

Lemma length_prefix m :
  len m < 2 ^ 32 →
  ∃ pre, encode_u32_into_slice (len m mod 2 ^ 32) [0; 0; 0; 0] = Some pre ∧
    LengthCodec.frame m = pre ++ m ∧ len pre = 4 ∧
    decode_u32_from_slice pre = Some (len m, 4).
Proof.
  intros Hm. pose proof (len_nonneg m).
  destruct (bincode_u32_roundtrip (len m mod 2 ^ 32) [0; 0; 0; 0])
    as (pre & He & Hl & Hd); [unfold is_u; div_lia|done|].
  exists pre. unfold LengthCodec.frame. rewrite He, Hd.
  by rewrite Z.mod_small by lia.
Qed.

(** Decoding a buffer that starts with a length prefix. *)
Lemma length_decode_prefix c pre body z :
  len pre = 4 → decode_u32_from_slice pre = Some (z, 4) → z ≤ LengthCodec.max_size c →
  LengthCodec.decode c (mkBuffer (pre ++ body)) =
    if len body >=? z then Ok (Some (z + 4, slice (pre ++ body) 4 (z + 4))) else Ok None.
Proof.
  intros Hpre Hd Hz. unfold LengthCodec.decode, Buffer.len, MSG_LENGTH_SIZE. simpl.
  rewrite len_app, Hpre, slice_prefix, Hd by done.
  pose proof (len_nonneg body).
  rewrite (proj2 (Z.ltb_ge _ _)) by lia.
  replace (z >? _) with false by (symmetry; rewrite Z.gtb_ltb; apply Z.ltb_ge; lia).
  by replace (4 + len body - 4) with (len body) by lia.
Qed.

#[export] Instance length_codec_framing c :
  Framing c (LengthCodec.valid c) LengthCodec.frame.
Proof.
  split; unfold LengthCodec.valid.
  - intros m dst [Hmax Hm]. destruct (length_prefix m Hm) as (pre & He & Hf & _).
    simpl. unfold LengthCodec.encode. rewrite Z.gtb_ltb, (proj2 (Z.ltb_ge _ _)) by done.
    rewrite He, Hf. eexists. unfold Buffer.extend_from_slice. simpl. by rewrite <-app_assoc.
  - intros m [_ Hm] Hnil. destruct (length_prefix m Hm) as (pre & _ & Hf & Hl & _).
    rewrite Hf in Hnil. apply app_eq_nil in Hnil as [-> _]. done.
  - intros m rest [Hmax Hm]. destruct (length_prefix m Hm) as (pre & _ & -> & Hl & Hd).
    simpl. rewrite <-app_assoc, (length_decode_prefix _ pre _ (len m)) by done.
    pose proof (len_nonneg rest).
    rewrite !len_app, Z.geb_leb, (proj2 (Z.leb_le _ _)) by lia.
    rewrite (slice_app pre m rest) by lia. do 3 f_equal. lia.
  - intros m p q [Hmax Hm] Hpq Hq. destruct (length_prefix m Hm) as (pre & _ & Hf & Hl & Hd).
    rewrite Hf in Hpq. simpl.
    destruct (Z.ltb_spec (len p) 4) as [Hp|Hp].
    + unfold LengthCodec.decode, Buffer.len, MSG_LENGTH_SIZE. simpl.
      by rewrite (proj2 (Z.ltb_lt _ _)).
    + destruct (app_prefix_long pre m p q Hpq) as (l & -> & ->); [lia|].
      rewrite len_app in Hmax, Hd, Hm. rewrite (length_decode_prefix _ pre _ (len l + len q)) by done.
      assert (len q ≠ 0) by (by rewrite len_zero). pose proof (len_nonneg q).
      by rewrite Z.geb_leb, (proj2 (Z.leb_gt _ _)) by lia.
Qed.

(** Whatever bytes arrive, a decoded frame lies inside the buffer, is the
    payload behind the prefix, and is no longer than the limit. *)
Lemma length_decode_inv c b n m :
  LengthCodec.decode c b = Ok (Some (n, m)) →
  ∃ pre rest, inner b = pre ++ m ++ rest ∧ len pre = 4 ∧ n = 4 + len m ∧
    len m ≤ LengthCodec.max_size c ∧
    ∃ k, decode_u32_from_slice pre = Some (len m, k).
Proof.
  unfold LengthCodec.decode, Buffer.len, MSG_LENGTH_SIZE.
  destruct (Z.ltb_spec (len (inner b)) 4) as [|Hb]; [done|].
  destruct (decode_u32_from_slice _) as [[z k]|] eqn:Hd; [|done].
  pose proof (bincode_u32_type _ _ _ Hd) as Hz. unfold_u.
  rewrite Z.gtb_ltb, Z.geb_leb.
  destruct (Z.ltb_spec (LengthCodec.max_size c) z); [done|].
  destruct (Z.leb_spec z (len (inner b) - 4)); [|done].
  intros [= <- <-].
  assert (len (slice (inner b) 4 (z + 4)) = z) as Hlen by (rewrite len_slice; lia).
  exists (slice (inner b) 0 4), (drop (Z.to_nat z) (drop 4 (inner b))).
  rewrite Hlen. split_and!; [|by rewrite len_slice by lia|lia|done|by eauto].
  unfold slice. replace (z + 4 - 4) with z by lia.
  by rewrite take_drop, drop_0, take_drop.
Qed.

#[export] Instance msg_codec_framing `{Bincode M, !BincodeLaws M wf} c :
  Framing c (MsgCodec.valid wf c) (MsgCodec.frame (M := M)).
Proof.
  assert (∀ m : M, MsgCodec.valid wf c m →
    encode_to_vec m = Some (MsgCodec.payload m) ∧
    decode_from_slice (MsgCodec.payload m) = Some (m, len (MsgCodec.payload m)) ∧
    LengthCodec.valid (MsgCodec.inner_codec c) (MsgCodec.payload m)) as Hv.
  { intros m [Hwf Hval]. destruct (bincode_roundtrip m Hwf) as (bs & He & Hd).
    revert Hval. unfold MsgCodec.payload. by rewrite He. }
  destruct (length_codec_framing (MsgCodec.inner_codec c)) as [Fe Fn Fd Fp].
  unfold MsgCodec.frame. split.
  - intros m dst (He & Hd & Hval)%Hv. simpl. unfold MsgCodec.encode. rewrite He. by apply Fe.
  - intros m (He & Hd & Hval)%Hv. by apply Fn.
  - intros m rest (He & Hd & Hval)%Hv. simpl in *. unfold MsgCodec.decode.
    rewrite Fd by done. simpl. by rewrite Hd.
  - intros m p q (He & Hd & Hval)%Hv Hpq Hq. simpl in *. unfold MsgCodec.decode.
    by rewrite (Fp _ p q Hval Hpq Hq).
Qed.

End length_codec.

(** ** Concrete serializers

    They show that the laws can hold, and run the witnesses. *)

(** Little-endian [u32], the layout bincode documents for fixed-width integers. *)
Definition le32_encode (z : Z) : list Z :=
  [z mod 256; (z / 256) mod 256; (z / 65536) mod 256; z / 16777216].

Definition le32_bincode : BincodeU32 := {|
  encode_u32_into_slice z buf :=
    if len buf <? 4 then None else Some (le32_encode z ++ drop 4 buf);
  decode_u32_from_slice bs :=
    match bs with
    | a :: b :: c :: d :: _ =>
        let z := a + 256 * b + 65536 * c + 16777216 * d in
        if decide (is_u32 z) then Some (z, 4) else None
    | _ => None
    end;
|}.

Lemma le32_laws : @BincodeU32Laws le32_bincode.
Proof.
  split.
  - intros z buf Hz Hbuf. simpl. rewrite Hbuf. simpl. eexists. split; [done|].
    assert (drop 4 buf = []) as ->.
    { unfold len in Hbuf. apply nil_length_inv. rewrite length_drop. lia. }
    split; [done|]. simpl.
    replace (_ + _) with z by (unfold_u; div_lia). by rewrite decide_True.
  - intros bs z n. simpl. destruct bs as [|a [|b [|c [|d bs]]]]; try done.
    destruct (decide _); intros; by simplify_eq.
Qed.

(** A self-contained serializer of any countable type, one bit to a byte. *)
Fixpoint bits_of_pos (p : positive) : list Z :=
  match p with
  | xH => []
  | xO p => 0 :: bits_of_pos p
  | xI p => 1 :: bits_of_pos p
  end.

Fixpoint pos_of_bits (l : list Z) : positive :=
  match l with
  | [] => xH
  | b :: l => if b =? 0 then xO (pos_of_bits l) else xI (pos_of_bits l)
  end.

Definition countable_bincode (T : Type) `{Countable T} : Bincode T := {|
  encode_to_vec x := Some (bits_of_pos (countable.encode x));
  decode_from_slice bs := x ← countable.decode (pos_of_bits bs); Some (x, len bs);
|}.

Lemma pos_of_bits_of_pos p : pos_of_bits (bits_of_pos p) = p.
Proof. induction p; simpl; by f_equal. Qed.

Lemma countable_bincode_laws T `{Countable T} wf :
  @BincodeLaws T (countable_bincode T) wf.
Proof.
  intros x _. eexists. split; [done|]. simpl.
  by rewrite pos_of_bits_of_pos, countable.decode_encode.
Qed.
