(* ===== verification/Endpoint.v ===== *)
(** * Network endpoints and addresses

    Models [net/src/endpoint.rs]: the endpoint and address types, their
    accessors and the resolution of an endpoint to a socket address.  The
    textual forms ([Display], [FromStr]) are in [EndpointText].

    [url::Url] is a third-party type; a [Url] is represented by what its
    accessors return.  DNS answers are arguments. *)

From S2P Require Import Prelude Codec.

Local Open Scope Z_scope.

(** ** Addresses *)

(** [std::net::IpAddr] by its octets: four for [V4], sixteen for [V6]. *)
Inductive IpAddr :=
| V4 (octets : list Z)
| V6 (octets : list Z).

Definition octets (ip : IpAddr) : list Z :=
  match ip with V4 o | V6 o => o end.

(** The type invariant of an address. *)
Definition ip_wf (ip : IpAddr) : Prop :=
  match ip with
  | V4 o => length o = 4%nat ∧ is_bytes o
  | V6 o => length o = 16%nat ∧ is_bytes o
  end.

(** [IpAddr::is_loopback]: [127.0.0.0/8] and [::1]. *)
Definition is_loopback (ip : IpAddr) : bool :=
  match ip with
  | V4 o => match o with a :: _ => a =? 127 | [] => false end
  | V6 o => bool_decide (o = replicate 15 0 ++ [1])
  end.

Record SocketAddr := mkSocketAddr { ip : IpAddr; sport : Z }.

Inductive Addr :=
| Ip (a : IpAddr)
| Domain (d : string).

#[global] Instance IpAddr_eq_dec : EqDecision IpAddr.
Proof. solve_decision. Defined.
#[global] Instance SocketAddr_eq_dec : EqDecision SocketAddr.
Proof. solve_decision. Defined.
#[global] Instance Addr_eq_dec : EqDecision Addr.
Proof. solve_decision. Defined.

#[global] Instance IpAddr_countable : Countable IpAddr.
Proof.
  refine (inj_countable' (λ a, match a with V4 o => inl o | V6 o => inr o end)
    (λ x, match x with inl o => V4 o | inr o => V6 o end) _).
  by intros [].
Defined.
#[global] Instance Addr_countable : Countable Addr.
Proof.
  refine (inj_countable' (λ a, match a with Ip i => inl i | Domain d => inr d end)
    (λ x, match x with inl i => Ip i | inr d => Domain d end) _).
  by intros [].
Defined.
#[global] Instance SocketAddr_countable : Countable SocketAddr.
Proof.
  refine (inj_countable' (λ a, (ip a, sport a)) (λ x, mkSocketAddr x.1 x.2) _).
  by intros [].
Defined.

(** ** Endpoints *)

Record Url := mkUrl {
  scheme : string;
  host_str : option string;
  url_port : option Z;
  path : string;
  as_str : string;
}.

#[global] Instance Url_eq_dec : EqDecision Url.
Proof. solve_decision. Defined.

(** [Url::port_or_known_default], as the url crate documents it. *)
Definition port_or_known_default (u : Url) : option Z :=
  match url_port u with
  | Some p => Some p
  | None =>
      if decide (scheme u = "http") then Some 80
      else if decide (scheme u = "ws") then Some 80
      else if decide (scheme u = "https") then Some 443
      else if decide (scheme u = "wss") then Some 443
      else if decide (scheme u = "ftp") then Some 21
      else None
  end.

Inductive Endpoint :=
| Udp (a : Addr) (p : Z)
| Tcp (a : Addr) (p : Z)
| Tls (a : Addr) (p : Z)
| Quic (a : Addr) (p : Z)
| Http (u : Url)
| Https (u : Url)
| Ws (u : Url)
| Wss (u : Url)
| Unix (p : string).

#[global] Instance Endpoint_eq_dec : EqDecision Endpoint.
Proof. solve_decision. Defined.

Module Endpoint.

Definition new_tcp_addr (a : SocketAddr) : Endpoint := Tcp (Ip (ip a)) (sport a).
Definition new_udp_addr (a : SocketAddr) : Endpoint := Udp (Ip (ip a)) (sport a).
Definition new_tls_addr (a : SocketAddr) : Endpoint := Tls (Ip (ip a)) (sport a).
Definition new_quic_addr (a : SocketAddr) : Endpoint := Quic (Ip (ip a)) (sport a).

Definition is_tcp (e : Endpoint) : bool := match e with Tcp _ _ => true | _ => false end.
Definition is_tls (e : Endpoint) : bool := match e with Tls _ _ => true | _ => false end.
Definition is_quic (e : Endpoint) : bool := match e with Quic _ _ => true | _ => false end.
Definition is_udp (e : Endpoint) : bool := match e with Udp _ _ => true | _ => false end.

Section accessors.
(** [str::parse::<IpAddr>] and the system resolver. *)
Context (parse_ip : string → option IpAddr).
Context (lookup_host : string → Z → result io_kind (list SocketAddr)).

Definition url_to_addr (u : Url) : result net_error Addr :=
  host ← ok_or (host_str u) (ParseEndpoint "host missing");
  match parse_ip host with
  | Some i => Ok (Ip i)
  | None => Ok (Domain host)
  end.

Definition port (e : Endpoint) : result net_error Z :=
  match e with
  | Tcp _ p | Udp _ p | Tls _ p | Quic _ p => Ok p
  | Http u | Https u | Ws u | Wss u =>
      ok_or (port_or_known_default u) (ParseEndpoint "port missing")
  | Unix _ => Err TryFromEndpoint
  end.

Definition addr (e : Endpoint) : result net_error Addr :=
  match e with
  | Tcp a _ | Udp a _ | Tls a _ | Quic a _ => Ok a
  | Http u | Https u | Ws u | Wss u => url_to_addr u
  | Unix _ => Err TryFromEndpoint
  end.

Definition resolve (a : Addr) (p : Z) : result net_error SocketAddr :=
  match a with
  | Ip i => Ok (mkSocketAddr i p)
  | Domain d =>
      addrs ← map_err IO (lookup_host d p);
      ok_or (head addrs) (ParseEndpoint "could not resolve")
  end.

(** [SocketAddr::try_from(endpoint)]. *)
Definition to_socket_addr (e : Endpoint) : result net_error SocketAddr :=
  match e with
  | Udp a p | Tcp a p | Tls a p | Quic a p => resolve a p
  | Http u | Https u | Ws u | Wss u =>
      a ← url_to_addr u; p ← port e; resolve a p
  | Unix _ => Err TryFromEndpoint
  end.

(** [resolve_endpoint]; [dns] is the answer of [timeout(lookup_host)], whose
    outer error is the timeout. *)
Definition resolve_endpoint
    (dns : string → Z → result net_error (list SocketAddr)) (e : Endpoint) :
    result net_error SocketAddr :=
  p ← port e;
  a ← addr e;
  match a with
  | Ip i => Ok (mkSocketAddr i p)
  | Domain d =>
      addrs ← dns d p;
      ok_or (head addrs) (ParseEndpoint "could not resolve")
  end.

(** [Endpoint::try_from(url)]. *)
Definition from_url (u : Url) : result net_error Endpoint :=
  if decide (scheme u = "http") then Ok (Http u)
  else if decide (scheme u = "https") then Ok (Https u)
  else if decide (scheme u = "ws") then Ok (Ws u)
  else if decide (scheme u = "wss") then Ok (Wss u)
  else if bool_decide (scheme u ∈ ["tcp"; "udp"; "tls"; "quic"]) then
    a ← url_to_addr u;
    p ← ok_or (url_port u) (ParseEndpoint "port missing");
    Ok (if decide (scheme u = "tcp") then Tcp a p
        else if decide (scheme u = "udp") then Udp a p
        else if decide (scheme u = "tls") then Tls a p
        else Quic a p)
  else if decide (scheme u = "unix") then
    if decide (path u = EmptyString) then Err (UnsupportedEndpoint (as_str u))
    else Ok (Unix (path u))
  else Err (UnsupportedEndpoint (as_str u)).

(** The blocking and the asynchronous resolution give the same answer when the
    resolver does. *)
Lemma resolve_endpoint_agrees dns e a :
  (∀ d p, dns d p = map_err IO (lookup_host d p)) →
  to_socket_addr e = Ok a ↔ resolve_endpoint dns e = Ok a.
Proof.
  intros Hdns. unfold resolve_endpoint, to_socket_addr.
  destruct e as [[]|[]|[]|[]|u|u|u|u|]; simpl; rewrite ?Hdns; try done.
  all: destruct (url_to_addr u) as [[]|]; simpl;
    destruct (port_or_known_default u); simpl; by rewrite ?Hdns.
Qed.

End accessors.
End Endpoint.
