(* ===== verification/Framed.v ===== *)
(** * Framed connections

    Models [net/src/framed.rs] and the message traits of [net/src/message.rs].
    The byte stream under a connection is a third-party runtime object: what
    its [read], [write] and [flush] calls give is an argument, a script of
    events.  A script that runs out leaves the operation pending, with the
    state an abandoned future leaves behind.

    The theorems say that a framed connection over a codec that keeps
    [Framing] is a reliable, ordered message channel, whatever way the stream
    splits and merges bytes, and that abandoning or failing a call in the
    middle never corrupts the stream. *)

From S2P Require Import Prelude Codec Endpoint.

Local Open Scope Z_scope.

(** ** Outcomes and events *)

Inductive poll (A : Type) :=
| Pending
| Ready (a : A)
| Panicked.
Arguments Pending {A}.
Arguments Ready {A} _.
Arguments Panicked {A}.

(** One [read]: the bytes it gives (none at the end of the stream) or an error. *)
Inductive read_ev :=
| RData (bs : list Z)
| RErr (k : io_kind).

(** One [write]: it takes as many of the offered bytes as it has room for. *)
Inductive write_ev :=
| WRoom (n : nat)
| WErr (k : io_kind).

(** ** The message traits *)

Class MessageRx (R M : Type) := {
  recv_msg : R → list read_ev → poll (result net_error M) * R * list read_ev;
  rx_peer_endpoint : R → option Endpoint;
}.

Class MessageTx (W M : Type) := {
  send_msg : W → M → list write_ev → result io_kind () →
    poll (result net_error ()) * W * list Z * list write_ev;
  tx_peer_endpoint : W → option Endpoint;
}.

Definition DEFAULT_READ_CHUNK_SIZE : Z := 64 * 1024.

Module FramedReader.
Section defs.
Context {C M : Type} `{Codec C M net_error}.

Record t := mk {
  decoder : C;
  buffer : Buffer;
  read_chunk_size : Z;
  peer_endpoint : option Endpoint;
  local_endpoint : option Endpoint;
}.

Definition set_buffer (r : t) (b : Buffer) : t :=
  mk (decoder r) b (read_chunk_size r) (peer_endpoint r) (local_endpoint r).

(** The tail shared by the two decode attempts of [recv_msg]: a decoded
    message leaves the buffer behind it, an error is returned, and [None]
    continues. *)
Definition try_decode (r : t) (reads : list read_ev)
    (next : poll (result net_error M) * t * list read_ev) :
    poll (result net_error M) * t * list read_ev :=
  match decode (decoder r) (buffer r) with
  | Err e => (Ready (Err e), r, reads)
  | Ok (Some (n, item)) =>
      match Buffer.advance (buffer r) n with
      | Some b => (Ready (Ok item), set_buffer r b, reads)
      | None => (Panicked, r, reads)
      end
  | Ok None => next
  end.

Fixpoint recv_loop (r : t) (reads : list read_ev) :
    poll (result net_error M) * t * list read_ev :=
  match reads with
  | [] => (Pending, r, [])
  | RErr k :: reads => (Ready (Err (IO k)), r, reads)
  | RData [] :: reads =>
      if Buffer.is_empty (buffer r)
      then (Ready (Err (IO ConnectionAborted)), r, reads)
      else (Ready (Err (IO UnexpectedEof)), r, reads)
  | RData bs :: reads =>
      let r := set_buffer r (Buffer.extend_from_slice (buffer r) bs) in
      try_decode r reads (recv_loop r reads)
  end.

Definition recv_msg (r : t) (reads : list read_ev) :
    poll (result net_error M) * t * list read_ev :=
  try_decode r reads (recv_loop r reads).

(** [n] calls one after the other. *)
Fixpoint recv_many (n : nat) (r : t) (reads : list read_ev) :
    list (poll (result net_error M)) * t * list read_ev :=
  match n with
  | O => ([], r, reads)
  | S n =>
      let '(o, r, reads) := recv_msg r reads in
      let '(os, r, reads) := recv_many n r reads in
      (o :: os, r, reads)
  end.

#[global] Instance message_rx : MessageRx t M :=
  {| Framed.recv_msg := recv_msg; rx_peer_endpoint := peer_endpoint |}.

End defs.
Arguments t : clear implicits.
End FramedReader.

Module FramedWriter.
Section defs.
Context {C M : Type} `{Codec C M net_error}.

Record t := mk {
  encoder : C;
  buffer : Buffer;
  peer_endpoint : option Endpoint;
  local_endpoint : option Endpoint;
}.

Definition set_buffer (w : t) (b : Buffer) : t :=
  mk (encoder w) b (peer_endpoint w) (local_endpoint w).

(** The write loop; its third result is what the stream took. *)
Fixpoint write_loop (w : t) (writes : list write_ev) (flush : result io_kind ()) :
    poll (result net_error ()) * t * list Z * list write_ev :=
  if Buffer.is_empty (buffer w) then (Ready (map_err IO flush), w, [], writes)
  else
    match writes with
    | [] => (Pending, w, [], [])
    | WErr k :: writes => (Ready (Err (IO k)), w, [], writes)
    | WRoom room :: writes =>
        let n := Z.min (Z.of_nat room) (Buffer.len (buffer w)) in
        if n =? 0 then (Ready (Err (IO UnexpectedEof)), w, [], writes)
        else
          match Buffer.advance (buffer w) n with
          | None => (Panicked, w, [], writes)
          | Some b =>
              let '(o, w', out, rest) := write_loop (set_buffer w b) writes flush in
              (o, w', slice (inner (buffer w)) 0 n ++ out, rest)
          end
    end.

Definition send_msg (w : t) (msg : M) (writes : list write_ev) (flush : result io_kind ()) :
    poll (result net_error ()) * t * list Z * list write_ev :=
  let '(res, b) := encode (encoder w) msg (buffer w) in
  let w := set_buffer w b in
  match res with
  | Err e => (Ready (Err e), w, [], writes)
  | Ok _ => write_loop w writes flush
  end.

(** Calls one after the other, each with the stream events it meets. *)
Fixpoint send_many (w : t) (calls : list (M * list write_ev * result io_kind ())) :
    list (poll (result net_error ())) * t * list Z :=
  match calls with
  | [] => ([], w, [])
  | (m, writes, flush) :: calls =>
      let '(o, w, out, _) := send_msg w m writes flush in
      let '(os, w, outs) := send_many w calls in
      (o :: os, w, out ++ outs)
  end.

#[global] Instance message_tx : MessageTx t M :=
  {| Framed.send_msg := send_msg; tx_peer_endpoint := peer_endpoint |}.

End defs.
Arguments t : clear implicits.
End FramedWriter.

Record FramedConn (C : Type) := mkFramedConn {
  reader : FramedReader.t C;
  writer : FramedWriter.t C;
}.
Arguments mkFramedConn {C} _ _.
Arguments reader {C} _.
Arguments writer {C} _.

Definition framed {C : Type} (peer local : option Endpoint) (codec : C) : FramedConn C :=
  mkFramedConn
    (FramedReader.mk codec Buffer.new DEFAULT_READ_CHUNK_SIZE peer local)
    (FramedWriter.mk codec Buffer.new peer local).

(** ** Theorems *)

Lemma app_align (p q a b : list Z) :
  p ++ q = a ++ b →
  (∃ l, p = a ++ l ∧ b = l ++ q) ∨ (∃ l, l ≠ [] ∧ a = p ++ l ∧ q = l ++ b).
Proof.
  intros [(l & -> & ->)|(l & -> & ->)]%app_eq_inv.
  - left. by exists l.
  - destruct l as [|x l]; [left; exists []; by rewrite !app_nil_r|right].
    by exists (x :: l).
Qed.

Section channel.
Context {C M : Type} `{Codec C M net_error} (c : C).
Context (valid : M → Prop) (frame : M → list Z) `{!Framing c valid frame}.

Abbreviation stream ms := (concat (map frame ms)).

Section reader.
Implicit Types r : FramedReader.t C.
Import FramedReader.

Lemma try_decode_whole r reads next m l :
  decoder r = c → valid m → inner (buffer r) = frame m ++ l →
  try_decode r reads next = (Ready (Ok m), set_buffer r (mkBuffer l), reads).
Proof.
  intros Hc Hm Hb. unfold try_decode. destruct (buffer r) as [bs] eqn:Hr. simpl in Hb.
  rewrite Hc, Hb, (framing_decode m l Hm). by rewrite Buffer.advance_app.
Qed.

Lemma try_decode_partial r reads next m q :
  decoder r = c → valid m → frame m = inner (buffer r) ++ q → q ≠ [] →
  try_decode r reads next = next.
Proof.
  intros Hc Hm Hb Hq. unfold try_decode. destruct (buffer r) as [bs] eqn:Hr. simpl in Hb.
  by rewrite Hc, (framing_partial m bs q Hm Hb Hq).
Qed.

(** The loop finishes a message whose first bytes are buffered. *)
Lemma recv_loop_step chunks : ∀ r m q rest evs,
  decoder r = c → valid m → Forall (λ bs, bs ≠ []) chunks →
  frame m = inner (buffer r) ++ q → q ≠ [] → concat chunks = q ++ rest →
  ∃ b chunks', recv_loop r (map RData chunks ++ evs) =
      (Ready (Ok m), set_buffer r b, map RData chunks' ++ evs) ∧
    Forall (λ bs, bs ≠ []) chunks' ∧ inner b ++ concat chunks' = rest.
Proof.
  induction chunks as [|bs chunks IH]; intros r m q rest evs Hc Hm Hne Hf Hq Hcat; simpl in *.
  { by destruct q. }
  apply Forall_cons in Hne as [Hbs Hne]. destruct bs as [|x bs]; [done|].
  set (r' := set_buffer r _).
  destruct (app_align _ _ _ _ Hcat) as [(l & Hp & Hr)|(l & Hl & Hq' & Hr)].
  - rewrite (try_decode_whole r' _ _ m l); [|done|done|].
    + by exists (mkBuffer l), chunks.
    + unfold r'. simpl. rewrite Hp, Hf. by rewrite app_assoc.
  - assert (frame m = inner (buffer r') ++ l) as Hf'.
    { unfold r'. simpl. rewrite Hf, Hq'. by rewrite <-app_assoc. }
    rewrite (try_decode_partial r' _ _ m l) by done.
    destruct (IH r' m l rest evs) as (b & chunks' & -> & ? & ?); [done..|].
    by exists b, chunks'.
Qed.

Lemma recv_msg_step r m rest chunks evs :
  decoder r = c → valid m → Forall (λ bs, bs ≠ []) chunks →
  inner (buffer r) ++ concat chunks = frame m ++ rest →
  ∃ b chunks', recv_msg r (map RData chunks ++ evs) =
      (Ready (Ok m), set_buffer r b, map RData chunks' ++ evs) ∧
    Forall (λ bs, bs ≠ []) chunks' ∧ inner b ++ concat chunks' = rest.
Proof.
  intros Hc Hm Hne Hcat. unfold recv_msg.
  destruct (app_align _ _ _ _ Hcat) as [(l & Hp & Hr)|(l & Hl & Hf & Hr)].
  - rewrite (try_decode_whole r _ _ m l) by done. by exists (mkBuffer l), chunks.
  - rewrite (try_decode_partial r _ _ m l) by done. by eapply recv_loop_step.
Qed.

(** At the end of the stream, inside a frame or between two. *)
Lemma recv_loop_eof chunks : ∀ r m p q,
  decoder r = c → valid m → Forall (λ bs, bs ≠ []) chunks →
  frame m = p ++ q → q ≠ [] → inner (buffer r) ++ concat chunks = p →
  recv_loop r (map RData chunks ++ [RData []]) =
    (Ready (Err (IO (if decide (p = []) then ConnectionAborted else UnexpectedEof))),
     set_buffer r (mkBuffer p), []).
Proof.
  induction chunks as [|bs chunks IH]; intros r m p q Hc Hm Hne Hf Hq Hp; simpl in *.
  - rewrite app_nil_r in Hp. subst p. unfold Buffer.is_empty.
    destruct r as [d [b] s pe le]; simpl in *; subst. destruct b; by simpl.
  - apply Forall_cons in Hne as [Hbs Hne]. destruct bs as [|x bs]; [done|].
    set (r' := set_buffer r _).
    assert (inner (buffer r') ++ concat chunks = p) as Hp'.
    { unfold r'. simpl. rewrite <-Hp. by rewrite <-app_assoc. }
    rewrite (try_decode_partial r' _ _ m (concat chunks ++ q)); [|done|done| |].
    + by rewrite (IH r' m p q).
    + by rewrite app_assoc, Hp'.
    + destruct q; [done|]. by destruct (concat chunks).
Qed.

Lemma recv_msg_eof chunks r m p q :
  decoder r = c → valid m → Forall (λ bs, bs ≠ []) chunks →
  frame m = p ++ q → q ≠ [] → inner (buffer r) ++ concat chunks = p →
  recv_msg r (map RData chunks ++ [RData []]) =
    (Ready (Err (IO (if decide (p = []) then ConnectionAborted else UnexpectedEof))),
     set_buffer r (mkBuffer p), []).
Proof.
  intros Hc Hm Hne Hf Hq Hp. unfold recv_msg.
  rewrite (try_decode_partial r _ _ m (concat chunks ++ q)); [|done|done| |].
  - by eapply recv_loop_eof.
  - by rewrite app_assoc, Hp.
  - destruct q; [done|]. by destruct (concat chunks).
Qed.

Lemma recv_many_stream ms : ∀ r m p q chunks,
  decoder r = c → Forall valid ms → Forall (λ bs, bs ≠ []) chunks →
  valid m → frame m = p ++ q → q ≠ [] →
  inner (buffer r) ++ concat chunks = stream ms ++ p →
  recv_many (S (length ms)) r (map RData chunks ++ [RData []]) =
    (map (λ m, Ready (Ok m)) ms ++
       [Ready (Err (IO (if decide (p = []) then ConnectionAborted else UnexpectedEof)))],
     set_buffer r (mkBuffer p), []).
Proof.
  induction ms as [|m' ms IH]; intros r m p q chunks Hc Hms Hne Hm Hf Hq Hcat.
  - simpl. by rewrite (recv_msg_eof _ r m p q).
  - apply Forall_cons in Hms as [Hm' Hms]. simpl in Hcat. rewrite <-app_assoc in Hcat.
    destruct (recv_msg_step r m' (stream ms ++ p) chunks [RData []])
      as (b & chunks' & Hstep & Hne' & Hcat'); [done..|].
    cbn [length recv_many]. rewrite Hstep.
    pose proof (IH (set_buffer r b) m p q chunks') as HIH. cbn [recv_many] in HIH.
    by rewrite HIH.
Qed.

End reader.

Section writer.
Implicit Types w : FramedWriter.t C.
Import FramedWriter.

(** Whatever the stream does, the bytes taken and the bytes still buffered are
    the bytes there were. *)
Lemma write_loop_bytes writes : ∀ w flush o w' out rest,
  write_loop w writes flush = (o, w', out, rest) →
  encoder w' = encoder w ∧ out ++ inner (buffer w') = inner (buffer w) ∧
  o ≠ Panicked ∧ (o = Ready (Ok ()) → inner (buffer w') = []).
Proof.
  induction writes as [|[room|k] writes IH]; intros w flush o w' out rest; simpl;
    (destruct (Buffer.is_empty (buffer w)) eqn:He;
     [apply Buffer.is_empty_true in He; intros; simplify_eq/=; by destruct flush|]);
    try (intros; by simplify_eq/=).
  case_match eqn:Hn; [intros; by simplify_eq/=|].
  assert (Z.min (Z.of_nat room) (Buffer.len (buffer w)) ≤ Buffer.len (buffer w)) as Hle by lia.
  unfold Buffer.advance. rewrite (proj2 (Z.leb_le _ _) Hle).
  destruct (write_loop (set_buffer w _) writes flush) as [[[o1 w1] out1] rest1] eqn:Hw.
  apply IH in Hw as (Henc & Hout & Hp & Hok). intros ?; simplify_eq. split_and!; [done| |done|done].
  rewrite <-app_assoc, Hout. simpl. unfold slice. rewrite Z.sub_0_r, drop_0. apply take_drop.
Qed.

(** The loop ends: each write that takes something leaves less to write. *)
Lemma write_loop_completes writes : ∀ w,
  Forall (λ e, ∃ n, e = WRoom (S n)) writes →
  (length (inner (buffer w)) ≤ length writes)%nat →
  ∃ w' out rest, write_loop w writes (Ok ()) = (Ready (Ok ()), w', out, rest).
Proof.
  induction writes as [|e writes IH]; intros w Hws Hlen; simpl in *.
  { destruct (inner (buffer w)) eqn:Hb; [|simpl in Hlen; lia].
    rewrite (proj2 (Buffer.is_empty_true _) Hb). by eauto. }
  destruct (Buffer.is_empty (buffer w)) eqn:He; [by eauto|].
  assert (inner (buffer w) ≠ []) as Hb by (rewrite <-Buffer.is_empty_true; congruence).
  apply Forall_cons in Hws as [[n ->] Hws].
  assert (0 < Buffer.len (buffer w)).
  { unfold Buffer.len. pose proof (len_nonneg (inner (buffer w))).
    rewrite <-len_zero in Hb. lia. }
  rewrite (proj2 (Z.eqb_neq _ _)) by lia. unfold Buffer.advance.
  rewrite (proj2 (Z.leb_le _ _)) by lia.
  destruct (IH (set_buffer w (mkBuffer (drop
    (Z.to_nat (Z.min (Z.of_nat (S n)) (Buffer.len (buffer w)))) (inner (buffer w))))))
    as (w' & out & rest & ->); [done| |by eauto].
  simpl. rewrite length_drop. lia.
Qed.

Lemma send_msg_bytes w m writes flush o w' out rest :
  encoder w = c → valid m → send_msg w m writes flush = (o, w', out, rest) →
  encoder w' = c ∧ out ++ inner (buffer w') = inner (buffer w) ++ frame m ∧
  o ≠ Panicked ∧ (o = Ready (Ok ()) → inner (buffer w') = []).
Proof.
  intros Hc Hm. unfold send_msg. rewrite Hc.
  destruct (framing_encode m (buffer w) Hm) as [n ->].
  intros (Henc & Hout & Hp & Hok)%write_loop_bytes. by rewrite Henc, Hout.
Qed.

Lemma send_many_bytes calls : ∀ w os w' out,
  encoder w = c → Forall (λ x, valid x.1.1) calls →
  send_many w calls = (os, w', out) →
  out ++ inner (buffer w') = inner (buffer w) ++ stream (map (λ x, x.1.1) calls) ∧
  Forall (λ o, o ≠ Panicked) os ∧
  (last os = Some (Ready (Ok ())) → inner (buffer w') = []).
Proof.
  induction calls as [|[[m writes] flush] calls IH]; intros w os w' out Hc Hv; simpl.
  { intros [= <- <- <-]. simpl. by rewrite app_nil_r. }
  apply Forall_cons in Hv as [Hm Hv].
  destruct (send_msg w m writes flush) as [[[o w1] out1] rest] eqn:Hsend.
  destruct (send_many w1 calls) as [[os1 w2] out2] eqn:Hmany. intros [= <- <- <-].
  apply send_msg_bytes in Hsend as (Henc & Hout & Hp & Hok); [|done..].
  pose proof Hmany as Hm2.
  apply IH in Hm2 as (Hout2 & Hos & Hlast); [|done..]. simpl in *.
  split_and!; [|by constructor|].
  - by rewrite <-app_assoc, Hout2, app_assoc, Hout, <-app_assoc.
  - destruct os1 as [|o1 os1]; [|done]. intros [= ->]. destruct calls as [|[[]] calls].
    + simpl in Hmany. simplify_eq. by apply Hok.
    + simpl in Hmany. by repeat case_match.
Qed.

End writer.

(** C1: A framed connection is a reliable ordered channel.  Messages are sent
    one after the other over any stream behaviour (partial writes, failed and
    abandoned calls included), the last call succeeding; whatever way the bytes
    taken by the stream are cut into reads on the other side, the receiver gets
    exactly the messages in order, and then the end of the connection. *)
Theorem framed_channel calls os w out chunks peer local :
  Forall (λ x, valid x.1.1) calls →
  FramedWriter.send_many (writer (framed peer local c)) calls = (os, w, out) →
  last os = Some (Ready (Ok ())) →
  Forall (λ bs, bs ≠ []) chunks → concat chunks = out →
  (FramedReader.recv_many (S (length calls)) (reader (framed peer local c))
    (map RData chunks ++ [RData []])).1.1 =
  map (λ x, Ready (Ok x.1.1)) calls ++ [Ready (Err (IO ConnectionAborted))].
Proof.
  intros Hv Hsend Hlast Hne Hcat.
  destruct calls as [|[[m writes] flush] calls]; [by simplify_eq/=|].
  apply send_many_bytes in Hsend as (Hout & _ & Hempty); [|done..].
  rewrite (Hempty Hlast), app_nil_r in Hout. simpl in Hout.
  assert (valid m) as Hm by by apply Forall_cons in Hv as [? _].
  set (ms := map (λ x, x.1.1) ((m, writes, flush) :: calls)) in *.
  replace (S (length _)) with (S (length ms)) by (unfold ms; by rewrite length_map).
  rewrite (recv_many_stream ms _ m [] (frame m)); [|done| |done|done|done| |].
  - simpl. unfold ms. by rewrite map_map.
  - unfold ms. by apply Forall_map.
  - by apply framing_nonempty.
  - simpl. by rewrite app_nil_r, Hcat.
Qed.

(** The stream may end anywhere.  However the bytes of some messages and of
    the beginning [p] of one more are cut into reads, the receiver delivers
    exactly the complete messages and then an error: the connection was closed
    between two messages when nothing is left over, or inside a message. *)
Theorem framed_stream_end ms m p q chunks peer local :
  Forall valid ms → valid m → frame m = p ++ q → q ≠ [] →
  Forall (λ bs, bs ≠ []) chunks → concat chunks = stream ms ++ p →
  FramedReader.recv_many (S (length ms)) (reader (framed peer local c))
    (map RData chunks ++ [RData []]) =
  (map (λ m, Ready (Ok m)) ms ++
     [Ready (Err (IO (if decide (p = []) then ConnectionAborted else UnexpectedEof)))],
   FramedReader.set_buffer (reader (framed peer local c)) (mkBuffer p), []).
Proof. intros. by apply (recv_many_stream ms _ m p q). Qed.

(** Sending ends.  A stream that takes at least one byte at each write, for
    as many writes as the frame and the backlog have bytes, and whose flush
    succeeds, completes the call with nothing left in the buffer: the stream
    took the backlog and the whole frame. *)
Theorem send_completes w m writes :
  FramedWriter.encoder w = c → valid m →
  Forall (λ e, ∃ n, e = WRoom (S n)) writes →
  (length (inner (FramedWriter.buffer w) ++ frame m) ≤ length writes)%nat →
  ∃ w' rest, FramedWriter.send_msg w m writes (Ok ()) =
    (Ready (Ok ()), w', inner (FramedWriter.buffer w) ++ frame m, rest) ∧
    inner (FramedWriter.buffer w') = [].
Proof.
  intros Hc Hm Hws Hlen.
  assert (∃ w' out rest, FramedWriter.send_msg w m writes (Ok ()) =
    (Ready (Ok ()), w', out, rest)) as (w' & out & rest & Hsend).
  { unfold FramedWriter.send_msg. rewrite Hc.
    destruct (framing_encode m (FramedWriter.buffer w) Hm) as [n ->].
    by apply write_loop_completes. }
  destruct (send_msg_bytes _ _ _ _ _ _ _ _ Hc Hm Hsend) as (_ & Hout & _ & Hok).
  rewrite (Hok eq_refl), app_nil_r in Hout. rewrite Hsend, Hout. by eauto.
Qed.

End channel.

(** ** Abandoned receives *)

Section cancel.
Context {C M : Type} `{Codec C M net_error}.
Import FramedReader.

Lemma recv_loop_pending evs1 : ∀ (r r' : t C) (rest : list read_ev),
  decode (decoder r) (buffer r) = Ok None →
  recv_loop (M := M) r evs1 = (Pending, r', rest) →
  rest = [] ∧ decode (decoder r') (buffer r') = Ok None ∧
  ∀ evs2, recv_loop r (evs1 ++ evs2) = recv_loop r' evs2.
Proof.
  induction evs1 as [|[[|x bs]|k] evs1 IH]; intros r r' rest Hnone; simpl.
  - by intros [= <- <-].
  - by destruct (Buffer.is_empty _).
  - unfold try_decode. set (r1 := set_buffer r _).
    destruct (decode (decoder r1) (buffer r1)) as [[[n item]|]|e] eqn:Hd; [| |done].
    + by destruct (Buffer.advance _ _).
    + by apply IH.
  - done.
Qed.

(** Receiving is safe to abandon.  A call that met the events [evs1] and is
    dropped while pending has lost nothing: the next call behaves on the later
    events as one call would have on all of them. *)
Theorem recv_msg_cancel_safe (r r' : t C) evs1 rest :
  FramedReader.recv_msg (M := M) r evs1 = (Pending, r', rest) →
  rest = [] ∧ ∀ evs2, FramedReader.recv_msg r (evs1 ++ evs2) = FramedReader.recv_msg r' evs2.
Proof.
  unfold FramedReader.recv_msg, try_decode.
  destruct (decode (decoder r) (buffer r)) as [[[n item]|]|e] eqn:Hd; [| |done].
  { by destruct (Buffer.advance _ _). }
  intros (-> & Hd' & Happ)%recv_loop_pending; [|done].
  split; [done|]. intros evs2. by rewrite Hd'.
Qed.

End cancel.

(** ** Witnesses: length-prefixed frames with little-endian lengths *)

Section witnesses.
#[local] Existing Instance le32_bincode.
#[local] Existing Instance le32_laws.

Abbreviation lc := (LengthCodec.new 16).

Lemma framed_channel_witness :
  (FramedReader.recv_many 3 (reader (framed None None lc))
    (map RData [[2; 0]; [0; 0; 7]; [8; 0; 0; 0; 0]] ++ [RData []])).1.1 =
  [Ready (Ok [7; 8]); Ready (Ok []); Ready (Err (IO ConnectionAborted))].
Proof.
  apply (framed_channel lc (LengthCodec.valid lc) LengthCodec.frame
    [([7; 8], [WRoom 3; WErr OtherIo], Ok ()); ([], [WRoom 1; WRoom 9], Ok ())]
    [Ready (Err (IO OtherIo)); Ready (Ok ())]
    (FramedWriter.mk lc Buffer.new None None) [2; 0; 0; 0; 7; 8; 0; 0; 0; 0]).
  - repeat constructor; vm_compute; done.
  - vm_compute. reflexivity.
  - reflexivity.
  - repeat constructor; done.
  - reflexivity.
Defined.

Lemma framed_stream_end_witness :
  (FramedReader.recv_many 2 (reader (framed None None lc))
    (map RData [[1; 0]; [0; 0; 9; 2; 0; 0; 0; 7]] ++ [RData []])).1.1 =
  [Ready (Ok [9]); Ready (Err (IO UnexpectedEof))].
Proof.
  rewrite (framed_stream_end lc (LengthCodec.valid lc) LengthCodec.frame
    [[9]] [7; 8] [2; 0; 0; 0; 7] [8]).
  - reflexivity.
  - repeat constructor; vm_compute; done.
  - vm_compute; done.
  - vm_compute; reflexivity.
  - done.
  - repeat constructor; done.
  - vm_compute; reflexivity.
Defined.

Lemma send_completes_witness :
  ∃ w' rest, FramedWriter.send_msg (writer (framed None None lc)) [7]
    (repeat (WRoom 1) 5) (Ok ()) = (Ready (Ok ()), w', [1; 0; 0; 0; 7], rest) ∧
    inner (FramedWriter.buffer w') = [].
Proof.
  replace [1; 0; 0; 0; 7] with
    (inner (FramedWriter.buffer (writer (framed None None lc))) ++ LengthCodec.frame [7])
    by (vm_compute; reflexivity).
  apply (send_completes lc (LengthCodec.valid lc) LengthCodec.frame
    (writer (framed None None lc)) [7] (repeat (WRoom 1) 5)).
  - reflexivity.
  - vm_compute; done.
  - repeat constructor; by exists 0%nat.
  - vm_compute. lia.
Defined.

Lemma recv_msg_cancel_safe_witness :
  ∃ r', FramedReader.recv_msg (M := list Z) (reader (framed None None lc)) [RData [1; 0; 0]] =
    (Pending, r', []) ∧
  ∀ evs, FramedReader.recv_msg (reader (framed None None lc)) ([RData [1; 0; 0]] ++ evs) =
         FramedReader.recv_msg (M := list Z) r' evs.
Proof.
  eexists. split; [reflexivity|].
  apply (recv_msg_cancel_safe (M := list Z) (reader (framed None None lc)) _ [RData [1; 0; 0]] []).
  reflexivity.
Defined.

End witnesses.
