(* ===== verification/Message.v ===== *)
(** * Peer identifiers, addresses and wire messages of the p2p crate

    Models [p2p/src/message.rs], [p2p/src/peer/peer_id.rs],
    [p2p/src/error.rs], the protocol flags of [p2p/src/protocol/mod.rs] and
    the [encode]/[decode] helpers of [p2p/src/util.rs]. *)

From S2P Require Import Prelude Codec Endpoint.

Local Open Scope Z_scope.

(** ** Errors *)

(** Formatted texts are kept as their constant part; an error of a third-party
    crate has no content. *)
Inductive p2p_error :=
| P2pIO (k : io_kind)
| UnsupportedProtocol (s : string)
| P2pUnsupportedEndpoint (s : string)
| InvalidEndpoint (s : string)
| PeerIDTryFromPublicKey
| PeerIDTryFromString
| InvalidMsg (s : string)
| IncompatiblePeer
| IncompatibleVersion (s : string)
| Timeout
| ParseError (s : string)
| Config (s : string)
| PeerShutdown
| InvalidPongMsg
| PeerAlreadyConnected
| AccessDenied
| PeerNotFound (s : string)
| Discovery (s : string)
| Lookup (s : string)
| ChannelSend
| ChannelRecv
| ParseIntError
| Base64Decode
| P2pBincodeDecode
| P2pBincodeEncode
| ParseFloatError
| SemverError
| Yasna
| Rand
| X509Parser
| Rcgen
| Rustls
| P2pInvalidDnsNameError
| P2pKaryonCore (e : core_error)
| KaryonNet (e : net_error)
| KaryonEventEmitter.

(** ** Serialization helpers *)

Definition encode {T} `{Bincode T} (src : T) : result p2p_error (list Z) :=
  ok_or (encode_to_vec src) P2pBincodeEncode.

Definition decode {T} `{Bincode T} (src : list Z) : result p2p_error (T * Z) :=
  ok_or (decode_from_slice src) P2pBincodeDecode.

Lemma encode_decode {T} `{Bincode T, !BincodeLaws T wf} x :
  wf x → ∃ bs, encode x = Ok bs ∧ decode bs = Ok (x, len bs).
Proof.
  intros (bs & He & Hd)%bincode_roundtrip. exists bs.
  unfold encode, decode. by rewrite He, Hd.
Qed.

(** ** Peer identifiers *)

Record PeerID := mkPeerID { id_bytes : list Z }.

Definition id_wf (p : PeerID) : Prop := length (id_bytes p) = 32%nat ∧ is_bytes (id_bytes p).

#[global] Instance PeerID_eq_dec : EqDecision PeerID.
Proof. solve_decision. Defined.
#[global] Instance PeerID_countable : Countable PeerID.
Proof. refine (inj_countable' id_bytes mkPeerID _). by intros []. Defined.

Module PeerID.
Section defs.
(** SHA-256, the system random source and standard base64: third-party code. *)
Context (sha256 : list Z → list Z).
Context (base64_encode : list Z → string) (base64_decode : string → option (list Z)).

Definition new (src : list Z) : PeerID := mkPeerID (sha256 src).

(** [rnd] is what the random source fills the buffer with. *)
Definition random (rnd : option (list Z)) : result p2p_error PeerID :=
  id ← ok_or rnd Rand; Ok (mkPeerID id).

Definition to_string (p : PeerID) : string := base64_encode (id_bytes p).

(** [try_into] a 32-byte array. *)
Definition to_array {E} (bs : list Z) (e : E) : result E (list Z) :=
  if decide (length bs = 32%nat) then Ok bs else Err e.

Definition try_from_string (s : string) : result p2p_error PeerID :=
  bs ← ok_or (base64_decode s) Base64Decode;
  result ← to_array bs PeerIDTryFromString;
  Ok (mkPeerID result).

Definition try_from_public_key (pk : list Z) : result p2p_error PeerID :=
  pk ← to_array pk PeerIDTryFromPublicKey;
  Ok (mkPeerID pk).

End defs.
End PeerID.

(** ** Protocol flags *)

(** [ProtocolFlags(u32)]. *)
Record ProtocolFlags := mkFlags { bits : Z }.

#[global] Instance ProtocolFlags_eq_dec : EqDecision ProtocolFlags.
Proof. solve_decision. Defined.

Module ProtocolFlags.

Definition REQUIRED : ProtocolFlags := mkFlags (Z.shiftl 1 0).
Definition PREFERRED : ProtocolFlags := mkFlags (Z.shiftl 1 1).
Definition USER : ProtocolFlags := mkFlags (Z.shiftl 1 16).
Definition empty : ProtocolFlags := mkFlags 0.

Definition contains (f other : ProtocolFlags) : bool :=
  Z.land (bits f) (bits other) =? bits other.

Definition bitor (f g : ProtocolFlags) : ProtocolFlags := mkFlags (Z.lor (bits f) (bits g)).

(** Joining flags adds exactly the rights of both. *)
Lemma contains_bitor f g h :
  contains (bitor f g) f = true ∧ (contains f h = true → contains (bitor f g) h = true).
Proof.
  unfold contains, bitor. simpl. rewrite !Z.eqb_eq. split.
  - apply Z.bits_inj'. intros n _. rewrite Z.land_spec, Z.lor_spec.
    by destruct (Z.testbit (bits f) n), (Z.testbit (bits g) n).
  - intros Hh. apply Z.bits_inj'. intros n _.
    apply (f_equal (λ z, Z.testbit z n)) in Hh. rewrite Z.land_spec in *. rewrite Z.lor_spec.
    revert Hh. by destruct (Z.testbit (bits f) n), (Z.testbit (bits g) n), (Z.testbit (bits h) n).
Qed.

End ProtocolFlags.

(** ** Peer addresses *)

(** The transport of a peer address; [Protocol] of the source. *)
Inductive Protocol := PTcp | PTls | PUdp | PQuic.

#[global] Instance Protocol_eq_dec : EqDecision Protocol.
Proof. solve_decision. Defined.

Record PeerAddr := mkPeerAddr {
  addr : Addr;
  port : Z;
  protocol : Protocol;
  priority : Z;
}.

#[global] Instance PeerAddr_eq_dec : EqDecision PeerAddr.
Proof. solve_decision. Defined.

Definition to_endpoint (a : PeerAddr) : Endpoint :=
  match protocol a with
  | PTcp => Tcp (addr a) (port a)
  | PTls => Tls (addr a) (port a)
  | PUdp => Udp (addr a) (port a)
  | PQuic => Quic (addr a) (port a)
  end.

Definition from_endpoint (e : Endpoint) (prio : Z) : option PeerAddr :=
  match e with
  | Tcp a p => Some (mkPeerAddr a p PTcp prio)
  | Tls a p => Some (mkPeerAddr a p PTls prio)
  | Udp a p => Some (mkPeerAddr a p PUdp prio)
  | Quic a p => Some (mkPeerAddr a p PQuic prio)
  | _ => None
  end.

(** [Iterator::min_by_key]: the first of the minimal elements. *)
Fixpoint min_by_key {A} (key : A → Z) (l : list A) : option A :=
  match l with
  | [] => None
  | x :: l =>
      match min_by_key key l with
      | None => Some x
      | Some y => if key x <=? key y then Some x else Some y
      end
  end.

Definition pick_endpoint (addrs : list PeerAddr) (supported : list Protocol) : option Endpoint :=
  to_endpoint <$>
    min_by_key priority (filter (λ a, protocol a ∈ supported) addrs).

Lemma min_by_key_None {A} (key : A → Z) l : min_by_key key l = None ↔ l = [].
Proof. destruct l as [|x l]; simpl; [done|]. by repeat case_match. Qed.

Lemma min_by_key_Some {A} (key : A → Z) l x :
  min_by_key key l = Some x →
  ∃ l1 l2, l = l1 ++ x :: l2 ∧ Forall (λ y, key x < key y) l1 ∧ Forall (λ y, key x ≤ key y) l2.
Proof.
  revert x. induction l as [|z l IH]; intros x; simpl; [done|].
  destruct (min_by_key key l) as [y|] eqn:Hm.
  - destruct (IH y eq_refl) as (l1 & l2 & -> & H1 & H2).
    destruct (Z.leb_spec (key z) (key y)) as [Hle|Hlt]; intros [= ->].
    + exists [], (l1 ++ y :: l2). split_and!; [done..|]. apply Forall_app. split.
      * eapply Forall_impl; [exact H1|]. simpl. lia.
      * constructor; [done|]. eapply Forall_impl; [exact H2|]. simpl. lia.
    + exists (z :: l1), l2. split_and!; [done| |done]. by constructor.
  - apply min_by_key_None in Hm as ->. intros [= ->]. by exists [], [].
Qed.

(** ** The data-plane wire *)

Inductive PeerNetCmd := CmdVersion | CmdVerack | CmdProtocol | CmdShutdown.

Record PeerNetMsgHeader := mkHeader { command : PeerNetCmd }.

Record PeerNetMsg := mkPeerNetMsg {
  header : PeerNetMsgHeader;
  payload : list Z;
}.

Definition PeerNetMsg_new {T} `{Bincode T} (cmd : PeerNetCmd) (t : T) :
    result p2p_error PeerNetMsg :=
  p ← encode t; Ok (mkPeerNetMsg (mkHeader cmd) p).

Definition ProtocolID := string.

Record ProtocolMsg := mkProtocolMsg {
  protocol_id : ProtocolID;
  msg_payload : list Z;
}.

Record ShutdownMsg := mkShutdownMsg { shutdown_code : Z }.

(** ** Theorems *)

(** An endpoint that has a peer address is recovered from it. *)
Lemma peer_addr_roundtrip a : from_endpoint (to_endpoint a) (priority a) = Some a.
Proof. by destruct a as [? ? [] ?]. Qed.

(** [pick_endpoint] returns the endpoint of the first address of lowest
    priority number among those with a supported transport, and nothing exactly
    when no address has one. *)
Theorem pick_endpoint_best addrs supported :
  match pick_endpoint addrs supported with
  | None => ∀ a, a ∈ addrs → protocol a ∉ supported
  | Some e =>
      ∃ a l1 l2, addrs = l1 ++ a :: l2 ∧ e = to_endpoint a ∧ protocol a ∈ supported ∧
        (∀ b, b ∈ l1 → protocol b ∈ supported → priority a < priority b) ∧
        (∀ b, b ∈ l2 → protocol b ∈ supported → priority a ≤ priority b)
  end.
Proof.
  unfold pick_endpoint. destruct (min_by_key _ _) as [a|] eqn:Hmin; simpl.
  - apply min_by_key_Some in Hmin as (k1 & k2 & Hf & H1 & H2).
    apply filter_app_cons in Hf as (l1 & l2 & -> & <- & Ha & <-).
    exists a, l1, l2. rewrite Forall_forall in H1, H2.
    split_and!; [done..| |]; intros b Hb Hs; (apply H1 || apply H2); by apply list_elem_of_filter.
  - apply min_by_key_None in Hmin. intros a Ha Hs.
    assert (a ∈ filter (λ a, protocol a ∈ supported) addrs) as Hin by by apply list_elem_of_filter.
    by rewrite Hmin in Hin; apply not_elem_of_nil in Hin.
Qed.
