(* ===== verification/Bloom.v ===== *)
(** * Bloom filters of advertised items

    Models [p2p/src/discovery/kademlia/bloom.rs].  SipHash-1-3 is a
    third-party crate: the hash of an item is a parameter, and the theorems
    hold for every hash function. *)

From S2P Require Import Prelude Message.

Local Open Scope Z_scope.

(** [SipHasher13] with zero keys: the 64-bit hash of some bytes. *)
Class SipHash := siphash13 : list Z → Z.

(** [Bloom(u128)]. *)
Record Bloom := mkBloom { bloom : Z }.

#[global] Instance Bloom_eq_dec : EqDecision Bloom.
Proof. solve_decision. Defined.

Record LocalBloom := mkLocalBloom {
  advertised : Bloom;
  required : Bloom;
  preferred : Bloom;
}.

Section item_mask.
Context `{SipHash}.

Definition item_mask (bs : list Z) : Z :=
  let h := siphash13 bs in
  let a := (h mod 2 ^ 32) mod 128 in
  let b := (Z.shiftr h 32 mod 2 ^ 32) mod 128 in
  Z.lor (Z.shiftl 1 a) (Z.shiftl 1 b).

End item_mask.

Module Bloom.
Section defs.
Context `{SipHash}.

Definition default : Bloom := mkBloom 0.

Definition add (f : Bloom) (item : list Z) : Bloom :=
  mkBloom (Z.lor (bloom f) (item_mask item)).

Definition may_contain (f : Bloom) (item : list Z) : bool :=
  let mask := item_mask item in
  Z.land (bloom f) mask =? mask.

Definition covers (f other : Bloom) : bool :=
  Z.land (bloom f) (bloom other) =? bloom other.

Definition intersects (f other : Bloom) : bool :=
  negb (Z.land (bloom f) (bloom other) =? 0).

Definition is_empty (f : Bloom) : bool := bloom f =? 0.

End defs.
End Bloom.

Module LocalBloom.

Definition default : LocalBloom := mkLocalBloom Bloom.default Bloom.default Bloom.default.

Definition matches (l : LocalBloom) (peer : Bloom) : bool :=
  if negb (Bloom.covers peer (required l)) then false
  else if Bloom.is_empty (preferred l) then true
  else Bloom.intersects peer (preferred l).

End LocalBloom.

(** The shared handle: [add] under the lock, [snapshot] copies the state. *)
Module BloomRef.
Section defs.
Context `{SipHash}.

Definition new : LocalBloom := LocalBloom.default.

Definition add (l : LocalBloom) (item : list Z) (flags : ProtocolFlags) : LocalBloom :=
  if decide (flags = ProtocolFlags.empty) then l
  else
    mkLocalBloom
      (Bloom.add (advertised l) item)
      (if ProtocolFlags.contains flags ProtocolFlags.REQUIRED
       then Bloom.add (required l) item else required l)
      (if ProtocolFlags.contains flags ProtocolFlags.PREFERRED
       then Bloom.add (preferred l) item else preferred l).

Definition snapshot (l : LocalBloom) : LocalBloom := l.

(** A node's handle after it attached the given items. *)
Definition of_items (items : list (list Z * ProtocolFlags)) : LocalBloom :=
  foldl (λ l x, add l x.1 x.2) new items.

End defs.
End BloomRef.

(** ** Theorems *)

Section theorems.
Context `{SipHash}.

(** A filter is determined by its bits; inclusion of bits is [covers]. *)
Lemma covers_bits f g :
  Bloom.covers f g = true ↔ ∀ i, Z.testbit (bloom g) i = true → Z.testbit (bloom f) i = true.
Proof.
  unfold Bloom.covers. rewrite Z.eqb_eq. split.
  - intros Heq i Hi. rewrite <-Heq, Z.land_spec in Hi. by apply andb_true_iff in Hi as [? _].
  - intros Hsub. apply Z.bits_inj'. intros i _. rewrite Z.land_spec.
    specialize (Hsub i). destruct (Z.testbit (bloom g) i); [|by rewrite andb_false_r].
    by rewrite Hsub.
Qed.

Lemma may_contain_covers f item :
  Bloom.may_contain f item = Bloom.covers f (mkBloom (item_mask item)).
Proof. done. Qed.

Lemma add_bits f item i :
  Z.testbit (bloom (Bloom.add f item)) i =
    Z.testbit (bloom f) i || Z.testbit (item_mask item) i.
Proof. apply Z.lor_spec. Qed.

Lemma covers_refl f : Bloom.covers f f = true.
Proof. by apply covers_bits. Qed.

Lemma covers_trans f g h :
  Bloom.covers f g = true → Bloom.covers g h = true → Bloom.covers f h = true.
Proof. rewrite !covers_bits. auto. Qed.

Lemma covers_default f : Bloom.covers f Bloom.default = true.
Proof. apply covers_bits. intros i. simpl. by rewrite Z.testbit_0_l. Qed.

Lemma covers_add f g item :
  Bloom.covers f (Bloom.add g item) = true ↔
  Bloom.covers f g = true ∧ Bloom.may_contain f item = true.
Proof.
  rewrite may_contain_covers, !covers_bits. setoid_rewrite add_bits.
  setoid_rewrite orb_true_iff. simpl. naive_solver.
Qed.

Lemma add_covers f item : Bloom.covers (Bloom.add f item) f = true.
Proof. apply covers_bits. intros i Hi. by rewrite add_bits, Hi. Qed.

Lemma add_may_contain f item : Bloom.may_contain (Bloom.add f item) item = true.
Proof. rewrite may_contain_covers, covers_bits. intros i Hi. simpl in Hi. by rewrite add_bits, Hi, orb_true_r. Qed.

#[local] Hint Resolve covers_refl covers_default add_covers add_may_contain covers_trans : karyon.

Lemma may_contain_mono f g item :
  Bloom.covers f g = true → Bloom.may_contain g item = true → Bloom.may_contain f item = true.
Proof. rewrite !may_contain_covers. apply covers_trans. Qed.

(** An item has at least one bit. *)
Lemma item_mask_bit item : ∃ i, 0 ≤ i < 128 ∧ Z.testbit (item_mask item) i = true.
Proof.
  exists ((siphash13 item mod 2 ^ 32) mod 128). split; [div_lia|].
  unfold item_mask. rewrite Z.lor_spec, Z.shiftl_spec by div_lia.
  rewrite Z.sub_diag. done.
Qed.

(** The two bits of an item are inside the 128-bit word. *)
Lemma item_mask_is_u128 item : is_u 128 (item_mask item).
Proof.
  assert (∀ k, 0 ≤ k < 128 → is_u 128 (Z.shiftl 1 k)) as Hs.
  { intros k Hk. rewrite Z.shiftl_1_l. split; [apply Z.pow_nonneg; lia|].
    apply Z.pow_lt_mono_r; lia. }
  unfold item_mask. apply lor_is_u; [done| |]; apply Hs; div_lia.
Qed.

Lemma may_contain_intersects f g item :
  Bloom.may_contain f item = true → Bloom.may_contain g item = true →
  Bloom.intersects f g = true.
Proof.
  intros Hf Hg. rewrite may_contain_covers, covers_bits in Hf, Hg.
  destruct (item_mask_bit item) as (i & Hi & Hbit).
  unfold Bloom.intersects. apply negb_true_iff, Z.eqb_neq. intros Hz.
  apply (f_equal (λ z, Z.testbit z i)) in Hz.
  rewrite Z.land_spec, Hf, Hg, Z.testbit_0_l in Hz by done. done.
Qed.

Definition is_required (x : list Z * ProtocolFlags) : Prop :=
  ProtocolFlags.contains x.2 ProtocolFlags.REQUIRED = true.
Definition is_preferred (x : list Z * ProtocolFlags) : Prop :=
  ProtocolFlags.contains x.2 ProtocolFlags.PREFERRED = true.

Lemma of_items_snoc items x :
  BloomRef.of_items (items ++ [x]) = BloomRef.add (BloomRef.of_items items) x.1 x.2.
Proof. unfold BloomRef.of_items. by rewrite foldl_app. Qed.

(** What a filter must have to pass the [required] part. *)
Lemma of_items_required items peer :
  Bloom.covers peer (required (BloomRef.of_items items)) = true ↔
  ∀ x, x ∈ items → is_required x → Bloom.may_contain peer x.1 = true.
Proof.
  unfold is_required. induction items as [|[it fl] items IH] using rev_ind.
  { split; [set_solver|]. intros _. apply covers_default. }
  rewrite of_items_snoc. setoid_rewrite elem_of_app. setoid_rewrite list_elem_of_singleton.
  unfold BloomRef.add. simpl. case_decide as Hfl; simpl; [subst fl|].
  - rewrite IH. split; [|by auto]. intros Hall x [Hx| ->]; [by auto|done].
  - destruct (ProtocolFlags.contains fl _) eqn:Hc; [rewrite covers_add|]; rewrite IH; split.
    + intros [Hall Hit] x [Hx| ->]; [by auto|done].
    + intros Hall. split; [by auto|]. apply (Hall (it, fl)); auto.
    + intros Hall x [Hx| ->] Hr; [by auto|]. simpl in Hr. congruence.
    + by auto.
Qed.

(** Every advertised item is found, and a preferred one sets the filter. *)
Lemma of_items_advertised items x :
  x ∈ items → x.2 ≠ ProtocolFlags.empty →
  Bloom.may_contain (advertised (BloomRef.of_items items)) x.1 = true.
Proof.
  induction items as [|[it fl] items IH] using rev_ind; [set_solver|].
  rewrite of_items_snoc. intros Hx Hne.
  unfold BloomRef.add. simpl. apply elem_of_app in Hx as [Hx| ->%list_elem_of_singleton].
  - specialize (IH Hx Hne). case_decide; simpl; [done|]. eapply may_contain_mono; eauto with karyon.
  - simpl in *. rewrite decide_False by done. simpl. apply add_may_contain.
Qed.

Lemma of_items_preferred items x :
  x ∈ items → is_preferred x →
  Bloom.may_contain (preferred (BloomRef.of_items items)) x.1 = true.
Proof.
  unfold is_preferred. induction items as [|[it fl] items IH] using rev_ind; [set_solver|].
  rewrite of_items_snoc. intros Hx Hne.
  unfold BloomRef.add. simpl. apply elem_of_app in Hx as [Hx| ->%list_elem_of_singleton].
  - specialize (IH Hx Hne). case_decide; simpl; [done|].
    destruct (ProtocolFlags.contains fl _); [|done]. eapply may_contain_mono; eauto with karyon.
  - simpl in *. rewrite decide_False by (by intros ->). simpl. rewrite Hne. apply add_may_contain.
Qed.

Lemma of_items_no_preferred items :
  (∀ x, x ∈ items → ¬ is_preferred x) →
  Bloom.is_empty (preferred (BloomRef.of_items items)) = true.
Proof.
  unfold is_preferred. induction items as [|[it fl] items IH] using rev_ind; [done|].
  rewrite of_items_snoc. intros Hall. specialize (IH ltac:(set_solver)).
  unfold BloomRef.add. simpl. case_decide; [done|]. simpl.
  destruct (ProtocolFlags.contains fl _) eqn:Hc; [|done].
  destruct (Hall (it, fl)); [set_solver|done].
Qed.

(** The peer advertises the item, under any flag. *)
Definition advertises (theirs : list (list Z * ProtocolFlags)) (item : list Z) : Prop :=
  ∃ fl, (item, fl) ∈ theirs ∧ fl ≠ ProtocolFlags.empty.

(** The discovery filter has no false negatives.  A peer that advertises
    every item the node requires, and one of those it prefers if it prefers
    any, matches the node's filter, whatever the hash function is. *)
Theorem matches_compatible mine theirs :
  (∀ x, x ∈ mine → is_required x → advertises theirs x.1) →
  ((∀ x, x ∈ mine → ¬ is_preferred x) ∨
   ∃ x, x ∈ mine ∧ is_preferred x ∧ advertises theirs x.1) →
  LocalBloom.matches (BloomRef.snapshot (BloomRef.of_items mine))
    (advertised (BloomRef.snapshot (BloomRef.of_items theirs))) = true.
Proof.
  intros Hreq Hpref. unfold LocalBloom.matches, BloomRef.snapshot.
  assert (∀ item, advertises theirs item →
    Bloom.may_contain (advertised (BloomRef.of_items theirs)) item = true) as Hadv.
  { intros item (fl & Hin & Hfl). by apply (of_items_advertised theirs (item, fl)). }
  rewrite (proj2 (of_items_required mine _)); [simpl|by auto].
  destruct Hpref as [Hnone|(x & Hx & Hp & Ha)]; [by rewrite of_items_no_preferred|].
  case_match; [done|]. eapply may_contain_intersects; [by apply Hadv|by apply of_items_preferred].
Qed.

End theorems.

#[export] Hint Resolve covers_refl covers_default add_covers add_may_contain covers_trans : karyon.

Section witnesses.

(** A hash that is easy to compute: the length and the first byte. *)
#[local] Instance toy_hash : SipHash := λ bs, hd 0 bs + 2 ^ 32 * Z.of_nat (length bs).

Lemma matches_compatible_witness :
  LocalBloom.matches
    (BloomRef.snapshot (BloomRef.of_items [([1], ProtocolFlags.REQUIRED); ([2; 3], ProtocolFlags.PREFERRED)]))
    (advertised (BloomRef.snapshot
      (BloomRef.of_items [([2; 3], ProtocolFlags.USER); ([1], ProtocolFlags.PREFERRED)]))) = true.
Proof.
  apply matches_compatible.
  - intros x [->|[->|[]%not_elem_of_nil]%elem_of_cons]%elem_of_cons Hr; [|done].
    exists ProtocolFlags.PREFERRED. split; [set_solver|done].
  - right. exists ([2; 3], ProtocolFlags.PREFERRED). split; [set_solver|]. split; [done|].
    exists ProtocolFlags.USER. split; [set_solver|done].
Defined.

End witnesses.
