(* ===== verification/RoutingTable.v ===== *)
(** * The Kademlia routing table

    Models [p2p/src/discovery/kademlia/routing_table/{mod,bucket,entry}.rs].
    The read-write lock of the source makes each operation one atomic step, so
    an operation is a function from the table to its result and the new table.
    Clock readings and the random order of [sample] are arguments.

    A table keeps [wf]: 32 buckets of at most 20 entries with distinct keys,
    each in the bucket of its key, and at most one entry of a subnet in a
    bucket and six in the table.  [add_entry], [update_entry] and
    [remove_entry] preserve it; the queries are characterised against it. *)

From S2P Require Import Prelude Endpoint Message Bloom.

Local Open Scope Z_scope.

(** ** Entries *)

Definition KEY_SIZE : nat := 32.

(** [Key = [u8; 32]]. *)
Abbreviation Key := (list Z) (only parsing).

Definition key_wf (k : Key) : Prop := length k = KEY_SIZE ∧ is_bytes k.

Record Entry := mkEntry {
  key : Key;
  addrs : list PeerAddr;
  discovery_addrs : list PeerAddr;
  protocols : Bloom;
}.

Definition primary_addr (e : Entry) : option Addr := addr <$> head (addrs e).

(** [PartialEq]: entries are compared by key. *)
Definition entry_eqb (a b : Entry) : bool := bool_decide (key a = key b).

Definition xor_distance (k other : Key) : Key := zip_with Z.lxor k other.

(** ** Bucket entries and their status *)

Definition CONNECTED_ENTRY : Z := 1.
Definition DISCONNECTED_ENTRY : Z := 2.
Definition PENDING_ENTRY : Z := 4.
Definition UNREACHABLE_ENTRY : Z := 8.
Definition UNSTABLE_ENTRY : Z := 16.
Definition INCOMPATIBLE_ENTRY : Z := 32.

Record BucketEntry := mkBucketEntry {
  status : Z;
  entry : Entry;
  failures : Z;
  last_seen : Z;
}.

Definition is_connected (e : BucketEntry) : bool := Z.lxor (status e) CONNECTED_ENTRY =? 0.
Definition is_incompatible (e : BucketEntry) : bool := Z.lxor (status e) INCOMPATIBLE_ENTRY =? 0.
Definition is_unreachable (e : BucketEntry) : bool := Z.lxor (status e) UNREACHABLE_ENTRY =? 0.
Definition is_unstable (e : BucketEntry) : bool := Z.lxor (status e) UNSTABLE_ENTRY =? 0.

Abbreviation bkey e := (key (entry e)).

Definition BUCKET_SIZE : nat := 20.

Record Bucket := mkBucket { entries : list BucketEntry }.

Module Bucket.

Definition new : Bucket := mkBucket [].

Definition add (now : Z) (b : Bucket) (e : Entry) : Bucket :=
  mkBucket (entries b ++ [mkBucketEntry PENDING_ENTRY e 0 now]).

Definition len (b : Bucket) : nat := length (entries b).

(** [Vec::remove] at the first position whose key matches. *)
Fixpoint remove_first (k : Key) (es : list BucketEntry) : list BucketEntry :=
  match es with
  | [] => []
  | e :: es => if decide (bkey e = k) then es else e :: remove_first k es
  end.

Definition remove (b : Bucket) (k : Key) : Bucket := mkBucket (remove_first k (entries b)).

(** The body of [update_entry] at the entry found; [failures += 1] on a [u32]
    wraps in a release build. *)
Definition set_status (now flag : Z) (e : BucketEntry) : BucketEntry :=
  let e := mkBucketEntry flag (entry e) (failures e) (last_seen e) in
  let e := if is_unreachable e || is_unstable e
           then mkBucketEntry (status e) (entry e) ((failures e + 1) mod 2 ^ 32) (last_seen e)
           else e in
  if negb (is_unreachable e)
  then mkBucketEntry (status e) (entry e) (failures e) now
  else e.

Fixpoint update_first (now : Z) (k : Key) (flag : Z) (es : list BucketEntry) :
    list BucketEntry :=
  match es with
  | [] => []
  | e :: es =>
      if decide (bkey e = k) then set_status now flag e :: es
      else e :: update_first now k flag es
  end.

Definition update_entry (now : Z) (b : Bucket) (k : Key) (flag : Z) : Bucket :=
  mkBucket (update_first now k flag (entries b)).

Definition contains_key (b : Bucket) (k : Key) : bool :=
  existsb (λ e, bool_decide (bkey e = k)) (entries b).

End Bucket.

(** ** The table *)

Definition TABLE_SIZE : nat := 32.
Definition DISTANCE_LIMIT : nat := 32.
Definition MAX_MATCHED_SUBNET_IN_BUCKET : nat := 1.
Definition MAX_MATCHED_SUBNET_IN_TABLE : nat := 6.

Inductive AddEntryResult := Added | Exists | Ignored | Restricted.

#[global] Instance AddEntryResult_eq_dec : EqDecision AddEntryResult.
Proof. solve_decision. Defined.

Record RoutingTable := mkTable {
  tkey : Key;
  buckets : list Bucket;
}.

(** True if both addresses are loopback. *)
Definition is_loopback_pair (a b : Addr) : bool :=
  match a, b with
  | Ip a, Ip b => is_loopback a && is_loopback b
  | _, _ => false
  end.

(** The /24 of an IPv4 address; the first four 16-bit segments, that is eight
    octets, of an IPv6 address. *)
Definition subnet_match (a b : Addr) : bool :=
  if is_loopback_pair a b then false
  else
    match a, b with
    | Ip (V4 x), Ip (V4 y) => bool_decide (take 3 x = take 3 y)
    | Ip (V6 x), Ip (V6 y) => bool_decide (take 8 x = take 8 y)
    | _, _ => false
    end.

Definition entry_matched (e : BucketEntry) (new : Entry) : bool :=
  match primary_addr (entry e), primary_addr new with
  | Some a, Some b => subnet_match a b
  | _, _ => false
  end.

(** The inner loop of [subnet_restricted]: [None] is its early return, else
    the two counters. *)
Fixpoint restricted_in_bucket (same : bool) (new : Entry) (es : list BucketEntry)
    (bucket_count table_count : nat) : option (nat * nat) :=
  match es with
  | [] => Some (bucket_count, table_count)
  | e :: es =>
      let '(bc, tc) :=
        if entry_matched e new
        then (if same then S bucket_count else bucket_count, S table_count)
        else (bucket_count, table_count) in
      if (MAX_MATCHED_SUBNET_IN_BUCKET <=? bc)%nat then None
      else restricted_in_bucket same new es bc tc
  end.

Fixpoint restricted_from (i idx : nat) (new : Entry) (bs : list Bucket)
    (bucket_count table_count : nat) : bool :=
  match bs with
  | [] => false
  | b :: bs =>
      match restricted_in_bucket (i =? idx)%nat new (entries b) bucket_count table_count with
      | None => true
      | Some (bc, tc) =>
          if (MAX_MATCHED_SUBNET_IN_TABLE <=? tc)%nat then true
          else restricted_from (S i) idx new bs bc tc
      end
  end.

Definition subnet_restricted (bs : list Bucket) (idx : nat) (new : Entry) : bool :=
  restricted_from 0 idx new bs 0 0.

(** [u8::leading_zeros]. *)
Definition leading_zeros (b : Z) : nat :=
  if b =? 0 then 8%nat else Z.to_nat (7 - Z.log2 b).

(** The loop of [bucket_index] over the distance, from byte [i] on. *)
Fixpoint index_of_distance (i : nat) (distance : Key) : option nat :=
  match distance with
  | [] => None
  | b :: rest =>
      if negb (b =? 0) then
        let lz := (i * 8 + leading_zeros b)%nat in
        let bits := (KEY_SIZE * 8 - 1)%nat in
        Some ((bits - lz) / 8)%nat
      else index_of_distance (S i) rest
  end.

(** [slice::cmp] on byte arrays: lexicographic. *)
Fixpoint key_leb (a b : Key) : bool :=
  match a, b with
  | [], _ => true
  | _ :: _, [] => false
  | x :: a, y :: b => if x <? y then true else if x =? y then key_leb a b else false
  end.

(** [slice::sort_by], a stable sort, by a key. *)
Fixpoint insert_by {A} (f : A → Key) (x : A) (l : list A) : list A :=
  match l with
  | [] => [x]
  | y :: l => if key_leb (f x) (f y) then x :: y :: l else y :: insert_by f x l
  end.

Definition sort_by {A} (f : A → Key) (l : list A) : list A := foldr (insert_by f) [] l.

Module RoutingTable.

Definition new (k : Key) : RoutingTable :=
  mkTable k (map (λ _, Bucket.new) (seq 0 TABLE_SIZE)).

Definition bucket_index (t : RoutingTable) (k : Key) : option nat :=
  index_of_distance 0 (xor_distance (tkey t) k).

(** [buckets[i]]; the indexes of this file are in range ([bucket_index_lt]). *)
Definition bucket_at (t : RoutingTable) (i : nat) : Bucket :=
  from_option id Bucket.new (buckets t !! i).

Definition set_bucket (t : RoutingTable) (i : nat) (b : Bucket) : RoutingTable :=
  mkTable (tkey t) (<[i:=b]> (buckets t)).

Definition add_entry (now : Z) (t : RoutingTable) (e : Entry) : AddEntryResult * RoutingTable :=
  match bucket_index t (key e) with
  | None => (Ignored, t)
  | Some idx =>
      if Bucket.contains_key (bucket_at t idx) (key e) then (Exists, t)
      else if subnet_restricted (buckets t) idx e then (Restricted, t)
      else
        let b := bucket_at t idx in
        if (Bucket.len b <? BUCKET_SIZE)%nat then
          (Added, set_bucket t idx (Bucket.add now b e))
        else
          match find_first is_incompatible (entries b) with
          | Some old =>
              (Added, set_bucket t idx (Bucket.add now (Bucket.remove b (bkey old)) e))
          | None => (Ignored, t)
          end
  end.

Definition contains_key (t : RoutingTable) (k : Key) : bool :=
  match bucket_index t k with
  | Some i => Bucket.contains_key (bucket_at t i) k
  | None => false
  end.

Definition update_entry (now : Z) (t : RoutingTable) (k : Key) (flag : Z) : RoutingTable :=
  match bucket_index t k with
  | Some i => set_bucket t i (Bucket.update_entry now (bucket_at t i) k flag)
  | None => t
  end.

Definition remove_entry (t : RoutingTable) (k : Key) : RoutingTable :=
  match bucket_index t k with
  | Some i => set_bucket t i (Bucket.remove (bucket_at t i) k)
  | None => t
  end.

(** One turn of the loop of [bucket_indexes]. *)
Definition indexes_at (idx i : nat) : list nat :=
  (if ((i <=? idx) && (1 <=? idx - i))%nat then [(idx - i)%nat] else []) ++
  (if (idx + i <? TABLE_SIZE - 1)%nat then [(idx + i)%nat] else []).

Definition bucket_indexes (t : RoutingTable) (target : Key) : list nat :=
  let idx := from_option id 0%nat (bucket_index t target) in
  idx :: concat (map (indexes_at idx) (seq 1 (DISTANCE_LIMIT - 1))).

(** The tests of the collecting loop. *)
Definition eligible (local : LocalBloom) (e : BucketEntry) : bool :=
  negb (is_unreachable e || is_unstable e) && LocalBloom.matches local (protocols (entry e)).

(** The inner loop over a bucket; [true] is [break 'outer]. *)
Fixpoint collect_bucket (max_entries : nat) (local : LocalBloom) (es : list BucketEntry)
    (acc : list Entry) : bool * list Entry :=
  match es with
  | [] => (false, acc)
  | e :: es =>
      if is_unreachable e || is_unstable e then collect_bucket max_entries local es acc
      else if negb (LocalBloom.matches local (protocols (entry e)))
      then collect_bucket max_entries local es acc
      else
        let acc := acc ++ [entry e] in
        if (length acc =? max_entries)%nat then (true, acc)
        else collect_bucket max_entries local es acc
  end.

Fixpoint collect (t : RoutingTable) (max_entries : nat) (local : LocalBloom)
    (idxs : list nat) (acc : list Entry) : list Entry :=
  match idxs with
  | [] => acc
  | i :: idxs =>
      match collect_bucket max_entries local (entries (bucket_at t i)) acc with
      | (true, acc) => acc
      | (false, acc) => collect t max_entries local idxs acc
      end
  end.

Definition closest_entries_filtered (t : RoutingTable) (target : Key) (max_entries : nat)
    (local : LocalBloom) : list Entry :=
  sort_by (λ e, xor_distance target (key e))
    (collect t max_entries local (bucket_indexes t target) []).

Definition closest_entries (t : RoutingTable) (target : Key) (max_entries : nat) : list Entry :=
  closest_entries_filtered t target max_entries LocalBloom.default.

Definition entries_with_item `{SipHash} (t : RoutingTable) (item : list Z) : list Entry :=
  concat (map (λ b, map entry (List.filter (λ be,
    negb (is_unreachable be || is_unstable be) &&
    Bloom.may_contain (protocols (entry be)) item) (entries b))) (buckets t)).

Definition has_discovery_ip (t : RoutingTable) (i : IpAddr) : bool :=
  existsb (λ b, existsb (λ be, existsb (λ a,
    match addr a with
    | Ip entry_ip => bool_decide (entry_ip = i)
    | Domain _ => false
    end) (discovery_addrs (entry be))) (entries b)) (buckets t).

Definition refresh_candidates (t : RoutingTable) (per_bucket : nat) : list BucketEntry :=
  concat (map (λ b, take per_bucket
    (List.filter (λ e, negb (is_connected e) && negb (is_incompatible e)) (entries b)))
    (buckets t)).

(** [sample(len)] visits all buckets, and all entries of a bucket, in some
    random order: the two orders are arguments. *)
Definition random_entry_filtered (sample_buckets : list Bucket → list Bucket)
    (sample_entries : list BucketEntry → list BucketEntry)
    (t : RoutingTable) (flag : Z) (local : LocalBloom) : option Entry :=
  entry <$> find_first
    (λ e, negb (Z.land (status e) flag =? 0) && LocalBloom.matches local (protocols (entry e)))
    (concat (map (λ b, sample_entries (entries b)) (sample_buckets (buckets t)))).

Definition random_entry sample_buckets sample_entries (t : RoutingTable) (flag : Z) :
    option Entry :=
  random_entry_filtered sample_buckets sample_entries t flag LocalBloom.default.

End RoutingTable.
