(* ===== verification/RoutingTableSpec.v ===== *)
(** * Correctness of the routing table

    Where a key belongs, the invariant of the table and its preservation, and
    what the queries of [RoutingTable] return. *)

From S2P Require Import Prelude Endpoint Message Bloom RoutingTable.
Import RoutingTable.RoutingTable.

Local Open Scope Z_scope.

(** ** Where a key belongs *)

Lemma leading_zeros_lt b : is_u8 b → b ≠ 0 → (leading_zeros b < 8)%nat.
Proof.
  intros Hb Hne. unfold leading_zeros. rewrite (proj2 (Z.eqb_neq _ _)) by done.
  pose proof (Z.log2_nonneg b). lia.
Qed.

Lemma index_of_distance_None d : ∀ i,
  index_of_distance i d = None ↔ Forall (λ b, b = 0) d.
Proof.
  induction d as [|b d IH]; intros i; simpl; [done|].
  rewrite Forall_cons. destruct (Z.eqb_spec b 0) as [->|Hb]; simpl.
  - rewrite IH. naive_solver.
  - split; [done|]. by intros [? _].
Qed.

(** The index is the number of bytes below the first one that differs. *)
Lemma index_of_distance_Some d : ∀ i idx,
  is_bytes d → (i + length d)%nat = KEY_SIZE →
  index_of_distance i d = Some idx →
  ∃ zs b rest, d = zs ++ b :: rest ∧ Forall (λ b, b = 0) zs ∧ b ≠ 0 ∧ idx = length rest.
Proof.
  induction d as [|b d IH]; intros i idx Hbytes Hlen; simpl in *; [done|].
  apply Forall_cons in Hbytes as [Hb Hbytes].
  destruct (Z.eqb_spec b 0) as [->|Hne]; simpl.
  - intros (zs & c & rest & -> & Hzs & Hc & ->)%IH; [|done|lia].
    exists (0 :: zs), c, rest. split_and!; [done| |done|done]. by constructor.
  - intros [= <-]. exists [], b, d. split_and!; [done..|].
    pose proof (leading_zeros_lt b Hb Hne). unfold KEY_SIZE in *.
    symmetry. apply (Nat.div_unique _ 8 _ (7 - leading_zeros b)%nat); lia.
Qed.

Lemma xor_distance_length a b : length a = length b → length (xor_distance a b) = length a.
Proof. intros. unfold xor_distance. rewrite length_zip_with. lia. Qed.

Lemma xor_distance_bytes a b : is_bytes a → is_bytes b → is_bytes (xor_distance a b).
Proof.
  intros Ha. revert b. induction Ha as [|x a Hx Ha IH]; intros [|y b] Hb; try constructor.
  - apply Forall_cons in Hb as [? _]. by apply lxor_is_u.
  - apply Forall_cons in Hb as [_ ?]. by apply IH.
Qed.

Lemma xor_distance_zero a b :
  length a = length b → Forall (λ x, x = 0) (xor_distance a b) ↔ a = b.
Proof.
  revert b. induction a as [|x a IH]; intros [|y b] Hlen; simplify_eq/=; [done|].
  rewrite Forall_cons, IH by done. rewrite Z.lxor_eq_0_iff. naive_solver.
Qed.

(** The distance is a metric in the sense Kademlia needs: it determines the
    other key. *)
Lemma xor_distance_inj a b c :
  length a = length b → length a = length c →
  xor_distance a b = xor_distance a c → b = c.
Proof.
  revert b c. induction a as [|x a IH]; intros [|y b] [|z c] Hb Hc; simplify_eq/=; [done|].
  intros [= Hx Heq]. f_equal; [|by apply IH].
  apply (f_equal (Z.lxor x)) in Hx.
  by rewrite <-!Z.lxor_assoc, Z.lxor_nilpotent, !Z.lxor_0_l in Hx.
Qed.

#[global] Hint Resolve xor_distance_bytes : karyon.

Lemma bucket_index_None t k :
  key_wf (tkey t) → key_wf k → bucket_index t k = None ↔ k = tkey t.
Proof.
  intros [Hl _] [Hl' _]. unfold bucket_index.
  rewrite index_of_distance_None, xor_distance_zero by congruence. done.
Qed.

(** The key shares exactly the first [31 - idx] bytes with the table's key. *)
Lemma bucket_index_Some t k idx :
  key_wf (tkey t) → key_wf k →
  bucket_index t k = Some idx → 
  ∃ pre x y rest rest', tkey t = pre ++ x :: rest ∧ k = pre ++ y :: rest' ∧ x ≠ y ∧
    idx = length rest ∧ length rest' = length rest.
Proof.
  intros [Hl Hb] [Hl' Hb']. unfold bucket_index. intros Hidx.
  apply index_of_distance_Some in Hidx as (zs & b & rest & Heq & Hzs & Hne & ->);
    [|by auto with karyon|rewrite xor_distance_length; [done|congruence]].
  clear Hb Hb'. assert (length (tkey t) = length k) as Hlen by congruence. clear Hl Hl'.
  revert k zs Heq Hzs Hlen. generalize (tkey t) as a. induction a as [|x a IH];
    intros [|y k] zs Heq Hzs Hlen; simplify_eq/=; try by destruct zs.
  destruct zs as [|z zs]; simplify_eq/=.
  - exists [], x, y, a, k. split_and!; [done..| | |done].
    + intros ->. by rewrite Z.lxor_nilpotent in Hne.
    + by apply xor_distance_length.
  - apply Forall_cons in Hzs as [Hz Hzs]. apply Z.lxor_eq in Hz as ->.
    destruct (IH k zs) as (pre & x & y' & r & r' & -> & -> & ? & ? & ?); [done..|].
    by exists (y :: pre), x, y', r, r'.
Qed.

Lemma bucket_index_lt t k idx :
  key_wf (tkey t) → key_wf k → bucket_index t k = Some idx → (idx < TABLE_SIZE)%nat.
Proof.
  intros Hk Hk' (pre & x & y & rest & rest' & Ht & _ & _ & -> & _)%bucket_index_Some; [|done..].
  destruct Hk as [Hl _]. rewrite Ht, length_app in Hl. simpl in Hl.
  unfold KEY_SIZE, TABLE_SIZE in *. lia.
Qed.

(** ** Subnets *)

Definition addr_loopback (a : Addr) : bool :=
  match a with Ip i => is_loopback i | Domain _ => false end.

(** An entry whose primary address is a non-loopback address of the subnet of [a]. *)
Definition in_subnet (a : Addr) (e : Entry) : bool :=
  match primary_addr e with
  | Some b => negb (addr_loopback b) && subnet_match b a
  | None => false
  end.

Definition matched (new e : Entry) : bool :=
  match primary_addr e, primary_addr new with
  | Some a, Some b => subnet_match a b
  | _, _ => false
  end.

Lemma in_subnet_matched a new e :
  addr_loopback a = false →
  in_subnet a new = true → in_subnet a e = true → matched new e = true.
Proof.
  unfold in_subnet, matched, subnet_match, is_loopback_pair. intros Ha Hnew He.
  destruct (primary_addr new) as [[[x|x]|]|], (primary_addr e) as [[[y|y]|]|],
    a as [[z|z]|]; simpl in *; rewrite ?Ha, ?andb_false_r in *; try discriminate.
  all: apply andb_true_iff in Hnew as [->%negb_true_iff Hx%bool_decide_eq_true].
  all: apply andb_true_iff in He as [->%negb_true_iff Hy%bool_decide_eq_true].
  all: apply bool_decide_eq_true; congruence.
Qed.

Definition bentries (b : Bucket) : list Entry := map entry (entries b).
Definition all_entries (t : RoutingTable) : list Entry := concat (map bentries (buckets t)).

Lemma restricted_in_bucket_spec same new es : ∀ bc tc,
  (bc < MAX_MATCHED_SUBNET_IN_BUCKET)%nat →
  restricted_in_bucket same new es bc tc =
    let n := countb (matched new) (map entry es) in
    if same && (0 <? n)%nat then None else Some (bc, (tc + n)%nat).
Proof.
  unfold MAX_MATCHED_SUBNET_IN_BUCKET.
  induction es as [|e es IH]; intros bc tc Hbc; simpl.
  - rewrite andb_false_r. by rewrite Nat.add_0_r.
  - assert (bc = 0%nat) as -> by lia.
    change (entry_matched e new) with (matched new (entry e)).
    destruct (matched new (entry e)); [destruct same; simpl; [done|]|simpl].
    + rewrite IH by lia. simpl. do 2 f_equal. lia.
    + rewrite IH by lia. done.
Qed.

Lemma restricted_from_spec new idx bs : ∀ i tc,
  (tc < MAX_MATCHED_SUBNET_IN_TABLE)%nat →
  restricted_from i idx new bs 0 tc = false ↔
  (∀ j b, bs !! j = Some b → (i + j)%nat = idx → countb (matched new) (bentries b) = 0%nat) ∧
  (tc + countb (matched new) (concat (map bentries bs)) < MAX_MATCHED_SUBNET_IN_TABLE)%nat.
Proof.
  induction bs as [|b bs IH]; intros i tc Htc; cbn [restricted_from map concat].
  { split; [|done]. intros _. split; [set_solver|]. simpl. lia. }
  rewrite restricted_in_bucket_spec by (unfold MAX_MATCHED_SUBNET_IN_BUCKET; lia). cbv zeta.
  rewrite countb_app. fold (bentries b).
  destruct (_ && _) eqn:Hhere.
  - apply andb_true_iff in Hhere as [Hi%Nat.eqb_eq Hn%Nat.ltb_lt]. split; [done|].
    intros [Hall _]. specialize (Hall 0%nat b eq_refl). lia.
  - assert (i = idx → countb (matched new) (bentries b) = 0%nat) as Hb.
    { intros ->. rewrite Nat.eqb_refl in Hhere. simpl in Hhere. apply Nat.ltb_ge in Hhere. lia. }
    destruct (Nat.leb_spec MAX_MATCHED_SUBNET_IN_TABLE (tc + countb (matched new) (bentries b))).
    + split; [done|]. intros [_ ?]. lia.
    + rewrite IH by done. split.
      * intros [Hall Hlt]. split; [|lia]. intros [|j] c; simpl.
        -- intros [= ->] Hidx. apply Hb. lia.
        -- intros Hc Hidx. apply (Hall j c Hc). lia.
      * intros [Hall Hlt]. split; [|lia]. intros j c Hc Hidx. apply (Hall (S j) c Hc). lia.
Qed.

(** [subnet_restricted] is exactly: some entry of the bucket is in the subnet,
    or six of the table are. *)
Lemma subnet_restricted_spec t idx new b :
  buckets t !! idx = Some b →
  subnet_restricted (buckets t) idx new = false ↔
  countb (matched new) (bentries b) = 0%nat ∧
  (countb (matched new) (all_entries t) < MAX_MATCHED_SUBNET_IN_TABLE)%nat.
Proof.
  intros Hb. unfold subnet_restricted. rewrite restricted_from_spec by (unfold MAX_MATCHED_SUBNET_IN_TABLE; lia).
  unfold all_entries. simpl. split; intros [Hall ?]; (split; [|done]).
  - by apply (Hall idx b).
  - intros j c Hc ->. by simplify_eq.
Qed.

(** ** The invariant *)

Record bucket_wf (t : RoutingTable) (i : nat) (b : Bucket) : Prop := {
  bucket_wf_len : (length (bentries b) ≤ BUCKET_SIZE)%nat;
  bucket_wf_nodup : NoDup (map key (bentries b));
  bucket_wf_key : Forall (λ e, key_wf (key e) ∧ bucket_index t (key e) = Some i) (bentries b);
  bucket_wf_subnet a : addr_loopback a = false → (countb (in_subnet a) (bentries b) ≤ 1)%nat;
}.

Record wf (t : RoutingTable) : Prop := {
  wf_key : key_wf (tkey t);
  wf_len : length (buckets t) = TABLE_SIZE;
  wf_buckets i b : buckets t !! i = Some b → bucket_wf t i b;
  wf_subnet a : addr_loopback a = false →
    (countb (in_subnet a) (all_entries t) ≤ MAX_MATCHED_SUBNET_IN_TABLE)%nat;
}.

Lemma wf_new k : key_wf k → wf (new k).
Proof.
  intros Hk. split; [done|done| |].
  - intros i b Hb. unfold new in Hb. cbn [buckets] in Hb. rewrite list_lookup_fmap in Hb.
    apply fmap_Some in Hb as (j & _ & ->). split; simpl; [lia|constructor|constructor|lia].
  - intros a _. vm_compute. lia.
Qed.

Lemma bucket_at_lookup t i : wf t → (i < TABLE_SIZE)%nat → buckets t !! i = Some (bucket_at t i).
Proof.
  intros Hwf Hi. rewrite <-(wf_len t Hwf) in Hi. apply lookup_lt_is_Some in Hi as [b Hb].
  unfold bucket_at. by rewrite Hb.
Qed.

Lemma bucket_at_index t k i :
  wf t → key_wf k → bucket_index t k = Some i → buckets t !! i = Some (bucket_at t i).
Proof. intros Hwf Hk Hi. apply bucket_at_lookup; [done|]. eauto using bucket_index_lt, wf_key. Qed.

(** Replacing a bucket exchanges its entries in the table's. *)
Lemma countb_set_bucket f t i b b' :
  buckets t !! i = Some b →
  (countb f (all_entries (set_bucket t i b')) + countb f (bentries b) =
   countb f (all_entries t) + countb f (bentries b'))%nat.
Proof.
  unfold all_entries, set_bucket. simpl. revert i. generalize (buckets t) as bs.
  induction bs as [|c bs IH]; intros [|i] Hb; simplify_eq/=; rewrite !countb_app.
  - lia.
  - specialize (IH i Hb). lia.
Qed.

Lemma bucket_wf_sublist t t' i b b' :
  tkey t' = tkey t → sublist (bentries b') (bentries b) → bucket_wf t i b → bucket_wf t' i b'.
Proof.
  intros Hk Hsub [Hlen Hnd Hkey Hsn]. split.
  - etrans; [by apply sublist_length|done].
  - eapply sublist_NoDup; [exact Hnd|]. by apply fmap_sublist.
  - unfold bucket_index in *. rewrite Hk. by eapply Forall_sublist.
  - intros a Ha. etrans; [by apply countb_sublist|by apply Hsn].
Qed.

(** Dropping entries of a bucket, or changing only their status. *)
Lemma wf_shrink t i b' :
  wf t → (i < TABLE_SIZE)%nat → sublist (bentries b') (bentries (bucket_at t i)) →
  wf (set_bucket t i b').
Proof.
  intros Hwf Hi Hsub. pose proof (bucket_at_lookup t i Hwf Hi) as Hb.
  destruct Hwf as [Hk Hlen Hbs Hsn]. split; simpl; [done|by rewrite length_insert| |].
  - intros j c Hc. apply list_lookup_insert_Some in Hc as [(-> & -> & _)|[_ Hc]].
    + by eapply bucket_wf_sublist; [|exact Hsub|apply Hbs].
    + by eapply bucket_wf_sublist; [| |apply Hbs].
  - intros a Ha. specialize (Hsn a Ha).
    pose proof (countb_set_bucket (in_subnet a) t i _ b' Hb).
    pose proof (countb_sublist (in_subnet a) _ _ Hsub). lia.
Qed.

(** Adding an entry that passes the checks of [add_entry]. *)
Lemma wf_push now t i e :
  wf t → key_wf (key e) → bucket_index t (key e) = Some i →
  (length (bentries (bucket_at t i)) < BUCKET_SIZE)%nat →
  key e ∉ map key (bentries (bucket_at t i)) →
  countb (matched e) (bentries (bucket_at t i)) = 0%nat →
  (countb (matched e) (all_entries t) < MAX_MATCHED_SUBNET_IN_TABLE)%nat →
  wf (set_bucket t i (Bucket.add now (bucket_at t i) e)).
Proof.
  intros Hwf Hk Hi Hlen Hnew Hm Htm. pose proof (bucket_at_index t _ i Hwf Hk Hi) as Hb.
  set (b := bucket_at t i) in *. clearbody b.
  assert (bentries (Bucket.add now b e) = bentries b ++ [e]) as Hadd
    by (unfold bentries; simpl; by rewrite map_app).
  assert (∀ a l, addr_loopback a = false → in_subnet a e = true →
    (countb (in_subnet a) l ≤ countb (matched e) l)%nat) as Hsub
    by (intros a l Ha He; apply countb_le_impl; eauto using in_subnet_matched).
  destruct Hwf as [Htk Htl Hbs Hsn]. split; simpl; [done|by rewrite length_insert| |].
  - intros j c Hc. apply list_lookup_insert_Some in Hc as [(-> & <- & _)|[_ Hc]].
    + destruct (Hbs j b Hb) as [Hbl Hnd Hbk Hbsn]. split; rewrite ?Hadd.
      * rewrite length_app. simpl. lia.
      * rewrite map_app. apply NoDup_app. split_and!; [done| |apply NoDup_singleton].
        intros k Hk' ->%list_elem_of_singleton. done.
      * apply Forall_app. split; [done|]. by constructor.
      * intros a Ha. rewrite countb_app. simpl. specialize (Hbsn a Ha).
        destruct (in_subnet a e) eqn:He; [|lia].
        specialize (Hsub a (bentries b) Ha He). lia.
    + by eapply bucket_wf_sublist; [| |apply Hbs].
  - intros a Ha. specialize (Hsn a Ha).
    pose proof (countb_set_bucket (in_subnet a) t i b (Bucket.add now b e) Hb) as Hc.
    rewrite Hadd, countb_app in Hc. simpl in Hc.
    destruct (in_subnet a e) eqn:He; [|lia].
    specialize (Hsub a (all_entries t) Ha He). lia.
Qed.

(** ** Buckets *)

Lemma bkeys_bentries b : map (λ e, bkey e) (entries b) = map key (bentries b).
Proof. unfold bentries. by rewrite map_map. Qed.

Lemma Bucket_contains_key_spec b k :
  Bucket.contains_key b k = true ↔ k ∈ map key (bentries b).
Proof.
  unfold Bucket.contains_key. rewrite <-bkeys_bentries, existsb_exists.
  setoid_rewrite bool_decide_eq_true. rewrite list_elem_of_fmap.
  setoid_rewrite list_elem_of_In. naive_solver.
Qed.

Lemma remove_first_sublist k es : sublist (Bucket.remove_first k es) es.
Proof.
  induction es as [|e es IH]; simpl; [constructor|].
  case_decide; [by apply sublist_cons|by apply sublist_skip].
Qed.

Lemma remove_first_perm es old :
  NoDup (map (λ e, bkey e) es) → old ∈ es → es ≡ₚ old :: Bucket.remove_first (bkey old) es.
Proof.
  induction es as [|e es IH]; simpl; [set_solver|].
  intros [Hnin Hnd]%NoDup_cons [->|Hin]%elem_of_cons; [by rewrite decide_True|].
  rewrite decide_False.
  - rewrite IH at 1 by done. apply Permutation_swap.
  - intros Heq. apply Hnin. rewrite Heq. by apply (list_elem_of_fmap_2 (λ e, bkey e)).
Qed.

Lemma remove_first_absent k es :
  NoDup (map (λ e, bkey e) es) → k ∉ map (λ e, bkey e) (Bucket.remove_first k es).
Proof.
  induction es as [|e es IH]; simpl; [set_solver|].
  intros [Hnin Hnd]%NoDup_cons. case_decide as Hk; [by subst|]. simpl.
  intros [?|?]%elem_of_cons; [by subst|by apply IH].
Qed.

Lemma update_first_entries now k flag es :
  map entry (Bucket.update_first now k flag es) = map entry es.
Proof.
  induction es as [|e es IH]; simpl; [done|]. case_decide; simpl; [|by rewrite IH].
  f_equal. unfold Bucket.set_status. by repeat case_match.
Qed.

Lemma bentries_update now b k flag : bentries (Bucket.update_entry now b k flag) = bentries b.
Proof. apply update_first_entries. Qed.

Lemma bentries_remove b k : sublist (bentries (Bucket.remove b k)) (bentries b).
Proof. unfold bentries. simpl. apply fmap_sublist, remove_first_sublist. Qed.

Lemma bentries_add now b e : bentries (Bucket.add now b e) = bentries b ++ [e].
Proof. unfold bentries. simpl. by rewrite map_app. Qed.

Lemma bentries_remove_perm b old :
  NoDup (map key (bentries b)) → old ∈ entries b →
  bentries b ≡ₚ entry old :: bentries (Bucket.remove b (bkey old)).
Proof.
  rewrite <-bkeys_bentries. intros Hnd Hin. unfold bentries. simpl.
  change (entry old :: map entry ?l) with (map entry (old :: l)).
  by apply Permutation_map, remove_first_perm.
Qed.

Lemma remove_bentries b k :
  NoDup (map key (bentries b)) →
  ∀ e, e ∈ bentries (Bucket.remove b k) ↔ e ∈ bentries b ∧ key e ≠ k.
Proof.
  rewrite <-bkeys_bentries. unfold bentries. simpl. intros Hnd e.
  rewrite !list_elem_of_fmap. revert Hnd. induction (entries b) as [|x es IH]; simpl; [set_solver|].
  intros [Hnin Hnd]%NoDup_cons. specialize (IH Hnd). case_decide as Hx.
  - split.
    + intros (y & -> & Hy). split; [exists y; set_solver|]. intros Hk. apply Hnin.
      rewrite Hx, <-Hk. by apply (list_elem_of_fmap_2 (λ e, bkey e)).
    + intros [(y & -> & [->|Hy]%elem_of_cons) Hne]; [done|by eauto].
  - split.
    + intros (y & -> & [->|Hy]%elem_of_cons); [split; [exists x; set_solver|done]|].
      destruct (proj1 IH) as [(z & ? & ?) ?]; [by eauto|]. split; [exists z; set_solver|done].
    + intros [(y & -> & [->|Hy]%elem_of_cons) Hne]; [exists x; set_solver|].
      destruct (proj2 IH) as (z & ? & ?); [by eauto|]. exists z. set_solver.
Qed.

Lemma all_entries_set_bucket t i b b' :
  buckets t !! i = Some b →
  all_entries (set_bucket t i b') ++ bentries b ≡ₚ all_entries t ++ bentries b'.
Proof.
  unfold all_entries, set_bucket. simpl. revert i. generalize (buckets t) as bs.
  induction bs as [|c bs IH]; intros [|i] Hb; simplify_eq/=.
  - rewrite Permutation_app_comm, <-!app_assoc. f_equiv. apply Permutation_app_comm.
  - by rewrite <-!app_assoc, IH.
Qed.

Lemma all_entries_elem t e : e ∈ all_entries t ↔ ∃ i b, buckets t !! i = Some b ∧ e ∈ bentries b.
Proof.
  unfold all_entries. rewrite list_elem_of_In, in_concat. split.
  - intros (l & Hl & He). apply list_elem_of_In, list_elem_of_fmap in Hl as (b & -> & Hb).
    apply list_elem_of_lookup in Hb as [i Hi]. exists i, b. by rewrite list_elem_of_In.
  - intros (i & b & Hi & He). exists (bentries b). rewrite <-!list_elem_of_In. split; [|done].
    apply list_elem_of_fmap. eexists. split; [done|]. by eapply list_elem_of_lookup_2.
Qed.

Lemma wf_place t i b e :
  wf t → buckets t !! i = Some b → e ∈ bentries b →
  key_wf (key e) ∧ bucket_index t (key e) = Some i.
Proof.
  intros Hwf Hb He. destruct (wf_buckets t Hwf i b Hb) as [_ _ Hkey _].
  rewrite Forall_forall in Hkey. by apply Hkey.
Qed.

(** Membership is decided in the bucket of the key. *)
Lemma contains_key_spec t k :
  wf t → key_wf k → contains_key t k = true ↔ k ∈ map key (all_entries t).
Proof.
  intros Hwf Hk. unfold contains_key.
  rewrite list_elem_of_fmap. setoid_rewrite all_entries_elem.
  destruct (bucket_index t k) as [i|] eqn:Hi.
  - pose proof (bucket_at_index t k i Hwf Hk Hi) as Hb.
    rewrite Bucket_contains_key_spec, list_elem_of_fmap. split.
    + intros (e & -> & He). eauto 10.
    + intros (e & -> & j & b & Hj & He). exists e. split; [done|].
      destruct (wf_place t j b e) as [_ Hplace]; [done..|]. rewrite Hplace in Hi. by simplify_eq.
  - split; [done|]. intros (e & -> & j & b & Hj & He).
    destruct (wf_place t j b e) as [_ Hplace]; [done..|]. congruence.
Qed.

(** No key is in two buckets. *)
Lemma all_entries_nodup t : wf t → NoDup (map key (all_entries t)).
Proof.
  intros [_ _ Hbs _]. unfold all_entries.
  assert (∀ j bs, (∀ i b, bs !! i = Some b → NoDup (map key (bentries b)) ∧
      ∀ e, e ∈ bentries b → bucket_index t (key e) = Some (j + i)%nat) →
    NoDup (map key (concat (map bentries bs)))) as Hgen.
  { intros j bs. revert j. induction bs as [|b bs IH]; intros j Hb; simpl; [constructor|].
    rewrite map_app. apply NoDup_app. split_and!.
    - by apply (Hb 0%nat).
    - intros x (e & -> & He)%list_elem_of_fmap (e' & Heq & He')%list_elem_of_fmap.
      apply list_elem_of_In, in_concat in He' as (l & Hl & He').
      apply list_elem_of_In, list_elem_of_fmap in Hl as (c & -> & Hc).
      apply list_elem_of_lookup in Hc as [i Hi]. apply list_elem_of_In in He'.
      destruct (Hb 0%nat b eq_refl) as [_ H0]. specialize (H0 e He).
      destruct (Hb (S i) c Hi) as [_ H1]. specialize (H1 e' He'). rewrite Heq, H1 in H0.
      injection H0. lia.
    - apply (IH (S j)). intros i c Hc. destruct (Hb (S i) c Hc) as [? HH]. split; [done|].
      intros e He. rewrite (HH e He). f_equal. lia. }
  apply (Hgen 0%nat). intros i b Hb. destruct (Hbs i b Hb) as [_ Hnd Hkey _]. split; [done|].
  rewrite Forall_forall in Hkey. intros e He. by apply Hkey.
Qed.

(** ** Operations *)

Lemma wf_update now t k flag : wf t → key_wf k → wf (update_entry now t k flag).
Proof.
  intros Hwf Hk. unfold update_entry. destruct (bucket_index t k) as [i|] eqn:Hi; [|done].
  apply wf_shrink; [done|eauto using bucket_index_lt, wf_key|]. by rewrite bentries_update.
Qed.

Lemma wf_remove t k : wf t → key_wf k → wf (remove_entry t k).
Proof.
  intros Hwf Hk. unfold remove_entry. destruct (bucket_index t k) as [i|] eqn:Hi; [|done].
  apply wf_shrink; [done|eauto using bucket_index_lt, wf_key|apply bentries_remove].
Qed.

Lemma set_bucket_twice t i b b' : set_bucket (set_bucket t i b) i b' = set_bucket t i b'.
Proof. unfold set_bucket. simpl. by rewrite list_insert_insert_eq. Qed.

Lemma bucket_at_set_bucket t i b :
  (i < length (buckets t))%nat → bucket_at (set_bucket t i b) i = b.
Proof. intros Hi. unfold bucket_at, set_bucket. simpl. by rewrite list_lookup_insert_eq. Qed.

(** The checks of [add_entry], as facts about the table. *)
Lemma add_entry_checks t e i :
  wf t → key_wf (key e) → bucket_index t (key e) = Some i →
  Bucket.contains_key (bucket_at t i) (key e) = false →
  subnet_restricted (buckets t) i e = false →
  buckets t !! i = Some (bucket_at t i) ∧
  key e ∉ map key (bentries (bucket_at t i)) ∧
  countb (matched e) (bentries (bucket_at t i)) = 0%nat ∧
  (countb (matched e) (all_entries t) < MAX_MATCHED_SUBNET_IN_TABLE)%nat.
Proof.
  intros Hwf Hk Hi Hc Hr. pose proof (bucket_at_index t _ i Hwf Hk Hi) as Hb.
  split; [done|]. split.
  - rewrite <-Bucket_contains_key_spec. congruence.
  - by apply (subnet_restricted_spec t i e).
Qed.

(** Adding after dropping an entry of a full bucket. *)
Lemma wf_evict now t i e old :
  wf t → key_wf (key e) → bucket_index t (key e) = Some i →
  key e ∉ map key (bentries (bucket_at t i)) →
  countb (matched e) (bentries (bucket_at t i)) = 0%nat →
  (countb (matched e) (all_entries t) < MAX_MATCHED_SUBNET_IN_TABLE)%nat →
  old ∈ entries (bucket_at t i) →
  wf (set_bucket t i (Bucket.add now (Bucket.remove (bucket_at t i) (bkey old)) e)).
Proof.
  intros Hwf Hk Hi Hnew Hm Htm Hold.
  pose proof (bucket_at_index t _ i Hwf Hk Hi) as Hb.
  set (b := bucket_at t i) in *. set (b1 := Bucket.remove b (bkey old)).
  assert (i < TABLE_SIZE)%nat as Hlt by eauto using bucket_index_lt, wf_key.
  pose proof (bentries_remove b (bkey old)) as Hsub. fold b1 in Hsub.
  pose proof (wf_shrink t i b1 Hwf Hlt Hsub) as Hwf1.
  assert (bucket_at (set_bucket t i b1) i = b1) as Hb1.
  { apply bucket_at_set_bucket. by rewrite (wf_len t Hwf). }
  rewrite <-(set_bucket_twice t i b1). rewrite <-Hb1 at 2.
  destruct (wf_buckets t Hwf i b Hb) as [Hlen Hnd _ _].
  pose proof (Permutation_length (bentries_remove_perm b old Hnd Hold)) as Hlen'.
  pose proof (countb_set_bucket (matched e) t i b b1 Hb).
  pose proof (countb_sublist (matched e) _ _ Hsub).
  simpl in Hlen'. fold b1 in Hlen'.
  apply wf_push; rewrite ?Hb1; [done..|lia| |lia|lia].
  intros Hin. apply Hnew. eapply sublist_subseteq; [|exact Hin]. by apply fmap_sublist.
Qed.

Lemma wf_add now t e : wf t → key_wf (key e) → wf (add_entry now t e).2.
Proof.
  intros Hwf Hk. unfold add_entry. destruct (bucket_index t (key e)) as [i|] eqn:Hi; [|done].
  destruct (Bucket.contains_key _ _) eqn:Hc; [done|].
  destruct (subnet_restricted _ _ _) eqn:Hr; [done|].
  destruct (add_entry_checks t e i Hwf Hk Hi Hc Hr) as (Hb & Hnew & Hm & Htm).
  destruct (Nat.ltb_spec (Bucket.len (bucket_at t i)) BUCKET_SIZE).
  - apply wf_push; try done. unfold bentries. by rewrite length_map.
  - destruct (find_first _ _) as [old|] eqn:Hf; [|done].
    apply find_first_Some in Hf as [Hin _]. by apply wf_evict.
Qed.

(** The table's operations as one step of its life. *)
Inductive step : RoutingTable → RoutingTable → Prop :=
| step_add now t e : key_wf (key e) → step t (add_entry now t e).2
| step_update now t k flag : key_wf k → step t (update_entry now t k flag)
| step_remove t k : key_wf k → step t (remove_entry t k).

Inductive reachable (k : Key) : RoutingTable → Prop :=
| reachable_new : reachable k (new k)
| reachable_step t t' : reachable k t → step t t' → reachable k t'.

Lemma reachable_wf k t : key_wf k → reachable k t → wf t.
Proof.
  intros Hk. induction 1 as [|t t' _ IH Hstep]; [by apply wf_new|].
  destruct Hstep; eauto using wf_add, wf_update, wf_remove.
Qed.

Lemma reachable_key k t : reachable k t → tkey t = k.
Proof.
  induction 1 as [|t t' _ IH Hstep]; [done|]. rewrite <-IH. destruct Hstep as [now t e|now t x flag|t x].
  - unfold add_entry. by repeat case_match.
  - unfold update_entry. by case_match.
  - unfold remove_entry. by case_match.
Qed.

(** C3: The invariant of the routing table.  Whatever sequence of additions,
    status updates and removals a node performs, its table has 32 buckets of at
    most 20 entries, no key twice, every entry in the bucket of its key and
    never the node's own key, at most one entry of a (non-loopback) subnet in a
    bucket and at most six in the table. *)
Theorem routing_table_invariant k t :
  key_wf k → reachable k t →
  length (buckets t) = TABLE_SIZE ∧
  NoDup (map key (all_entries t)) ∧
  k ∉ map key (all_entries t) ∧
  (∀ i b, buckets t !! i = Some b →
    (Bucket.len b ≤ BUCKET_SIZE)%nat ∧
    ∀ e, e ∈ bentries b → bucket_index t (key e) = Some i) ∧
  (∀ a, addr_loopback a = false →
    (∀ i b, buckets t !! i = Some b → (countb (in_subnet a) (bentries b) ≤ 1)%nat) ∧
    (countb (in_subnet a) (all_entries t) ≤ 6)%nat).
Proof.
  intros Hk Hr. pose proof (reachable_wf k t Hk Hr) as Hwf.
  pose proof (reachable_key k t Hr) as Htk.
  split_and!; [apply (wf_len t Hwf)| | | |].
  - apply all_entries_nodup. done.
  - intros (e & -> & (i & b & Hb & He)%all_entries_elem)%list_elem_of_fmap.
    destruct (wf_place t i b e Hwf Hb He) as [Hke Hi].
    rewrite (proj2 (bucket_index_None t (key e) (wf_key t Hwf) Hke)) in Hi; [done|congruence].
  - intros i b Hb. split; [|intros e He; by destruct (wf_place t i b e Hwf Hb He)].
    destruct (wf_buckets t Hwf i b Hb) as [Hlen _ _ _]. unfold bentries in Hlen.
    by rewrite length_map in Hlen.
  - intros a Ha. split; [|by apply wf_subnet].
    intros i b Hb. by apply (wf_buckets t Hwf i b Hb).
Qed.

(** What adding an entry does, on every branch.  An added entry was not in
    the table, and the table gains exactly it, at the price of one incompatible
    entry of its bucket when that bucket was full.  A known key, a restricted
    subnet, the node's own key and a full bucket leave the table as it was, and
    each answer is given only for its reason. *)
Theorem add_entry_spec now t e :
  wf t → key_wf (key e) →
  let '(res, t') := add_entry now t e in
  match res with
  | Added =>
      key e ∉ map key (all_entries t) ∧
      (all_entries t' ≡ₚ e :: all_entries t ∨
       ∃ i old, bucket_index t (key e) = Some i ∧
         Bucket.len (bucket_at t i) = BUCKET_SIZE ∧
         old ∈ entries (bucket_at t i) ∧ is_incompatible old = true ∧
         entry old :: all_entries t' ≡ₚ e :: all_entries t)
  | Exists => t' = t ∧ key e ∈ map key (all_entries t)
  | Restricted =>
      t' = t ∧ key e ∉ map key (all_entries t) ∧
      ∃ i, bucket_index t (key e) = Some i ∧
        (countb (matched e) (bentries (bucket_at t i)) ≠ 0 ∨
         MAX_MATCHED_SUBNET_IN_TABLE ≤ countb (matched e) (all_entries t))%nat
  | Ignored =>
      t' = t ∧
      (key e = tkey t ∨
       key e ∉ map key (all_entries t) ∧
       ∃ i, bucket_index t (key e) = Some i ∧ Bucket.len (bucket_at t i) = BUCKET_SIZE ∧
         ∀ x, x ∈ entries (bucket_at t i) → is_incompatible x = false)
  end.
Proof.
  intros Hwf Hk. pose proof (contains_key_spec t (key e) Hwf Hk) as Hcontains.
  unfold contains_key in Hcontains. unfold add_entry.
  destruct (bucket_index t (key e)) as [i|] eqn:Hi;
    [|split; [done|left; by apply bucket_index_None in Hi; [|apply wf_key|]]].
  pose proof (bucket_at_index t _ i Hwf Hk Hi) as Hb.
  destruct (Bucket.contains_key _ _) eqn:Hc; [by rewrite <-Hcontains|].
  assert (key e ∉ map key (all_entries t)) as Hnin by (by rewrite <-Hcontains).
  destruct (subnet_restricted _ _ _) eqn:Hr.
  { split_and!; [done..|]. exists i. split; [done|].
    destruct (decide (countb (matched e) (bentries (bucket_at t i)) = 0%nat)) as [Hz|]; [|by left].
    right. apply Nat.le_ngt. intros Hlt.
    rewrite (proj2 (subnet_restricted_spec t i e _ Hb) (conj Hz Hlt)) in Hr. done. }
  destruct (Nat.ltb_spec (Bucket.len (bucket_at t i)) BUCKET_SIZE) as [Hlt|Hge].
  - split; [done|]. left.
    pose proof (all_entries_set_bucket t i _ (Bucket.add now (bucket_at t i) e) Hb) as Hp.
    rewrite bentries_add, app_assoc, (Permutation_app_comm (_ ++ _) [e]) in Hp. simpl in Hp.
    by apply (Permutation_app_inv_r (bentries (bucket_at t i))).
  - destruct (wf_buckets t Hwf i _ Hb) as [Hlen Hnd _ _]. unfold bentries in Hlen.
    rewrite length_map in Hlen. fold (Bucket.len (bucket_at t i)) in Hlen.
    assert (Bucket.len (bucket_at t i) = BUCKET_SIZE) as Hfull by lia.
    destruct (find_first _ _) as [old|] eqn:Hf.
    + apply find_first_Some in Hf as [Hin Hinc]. split; [done|]. right.
      exists i, old. split_and!; [done..|].
      set (b1 := Bucket.remove (bucket_at t i) (bkey old)).
      pose proof (all_entries_set_bucket t i _ (Bucket.add now b1 e) Hb) as Hp.
      rewrite (bentries_remove_perm _ old Hnd Hin), bentries_add in Hp. fold b1 in Hp.
      rewrite app_assoc, (Permutation_app_comm (_ ++ _) [e]) in Hp. simpl in Hp.
      rewrite <-Permutation_middle in Hp. simpl in Hp.
      by apply (Permutation_app_inv_r (bentries b1)).
    + split; [done|]. right. split; [done|]. exists i. split_and!; [done..|].
      by apply find_first_None.
Qed.

(** Removing a key removes its entry and nothing else. *)
Theorem remove_entry_spec t k e :
  wf t → key_wf k →
  e ∈ all_entries (remove_entry t k) ↔ e ∈ all_entries t ∧ key e ≠ k.
Proof.
  intros Hwf Hk. unfold remove_entry. destruct (bucket_index t k) as [i|] eqn:Hi.
  - pose proof (bucket_at_index t _ i Hwf Hk Hi) as Hb.
    destruct (wf_buckets t Hwf i _ Hb) as [_ Hnd _ _].
    pose proof (remove_bentries (bucket_at t i) k Hnd) as Hrem.
    rewrite !all_entries_elem. split.
    + intros (j & b & Hj & He). simpl in Hj.
      apply list_lookup_insert_Some in Hj as [(-> & <- & _)|[Hne Hj]].
      * apply Hrem in He as [He Hne]. eauto 10.
      * split; [eauto|]. intros <-.
        destruct (wf_place t j b e Hwf Hj He) as [_ Hplace]. congruence.
    + intros ((j & b & Hj & He) & Hne). destruct (decide (j = i)) as [->|Hji].
      * exists i, (Bucket.remove (bucket_at t i) k). simpl.
        rewrite list_lookup_insert_eq by (by eapply lookup_lt_Some).
        split; [done|]. apply Hrem. by simplify_eq.
      * exists j, b. simpl. by rewrite list_lookup_insert_ne.
  - apply bucket_index_None in Hi as ->; [|by apply wf_key|done]. split; [|by intros []].
    intros He. split; [done|]. intros Heq.
    apply all_entries_elem in He as (i & b & Hb & He).
    destruct (wf_place t i b e Hwf Hb He) as [Hke Hi].
    by rewrite (proj2 (bucket_index_None t (key e) (wf_key t Hwf) Hke) Heq) in Hi.
Qed.

(** ** Status updates *)

Definition table_entries (t : RoutingTable) : list BucketEntry := concat (map entries (buckets t)).

Definition counts_failure (flag : Z) : bool :=
  (flag =? UNREACHABLE_ENTRY) || (flag =? UNSTABLE_ENTRY).

Lemma lxor_eqb a b : (Z.lxor a b =? 0) = (a =? b).
Proof.
  destruct (Z.eqb_spec a b) as [->|Hne]; [by rewrite Z.lxor_nilpotent|].
  apply Z.eqb_neq. rewrite Z.lxor_eq_0_iff. done.
Qed.

Lemma set_status_spec now flag e :
  Bucket.set_status now flag e =
    mkBucketEntry flag (entry e)
      (if counts_failure flag then (failures e + 1) mod 2 ^ 32 else failures e)
      (if flag =? UNREACHABLE_ENTRY then last_seen e else now).
Proof.
  unfold Bucket.set_status, is_unreachable, is_unstable, counts_failure. simpl.
  rewrite !lxor_eqb. destruct (flag =? UNREACHABLE_ENTRY) eqn:H1, (flag =? UNSTABLE_ENTRY) eqn:H2;
    simpl; rewrite ?lxor_eqb, ?H1; done.
Qed.

Lemma update_first_map now k flag es :
  NoDup (map (λ e, bkey e) es) →
  Bucket.update_first now k flag es =
    map (λ e, if decide (bkey e = k) then Bucket.set_status now flag e else e) es.
Proof.
  induction es as [|e es IH]; simpl; [done|]. intros [Hnin Hnd]%NoDup_cons.
  case_decide as Hk; [|by rewrite IH]. f_equal. rewrite <-(map_id es) at 1.
  apply map_ext_in. intros x Hx%list_elem_of_In. rewrite decide_False; [done|].
  intros Hxk. apply Hnin. rewrite Hk, <-Hxk. by apply (list_elem_of_fmap_2 (λ e, bkey e)).
Qed.

Lemma update_entry_map now t k flag :
  wf t → key_wf k →
  map entries (buckets (update_entry now t k flag)) =
  map (map (λ e, if decide (bkey e = k) then Bucket.set_status now flag e else e))
    (map entries (buckets t)).
Proof.
  intros Hwf Hk. rewrite map_map.
  assert (∀ i b, buckets t !! i = Some b → bucket_index t k ≠ Some i →
    map (λ e, if decide (bkey e = k) then Bucket.set_status now flag e else e) (entries b) =
    entries b) as Hother.
  { intros i b Hb Hi. rewrite <-(map_id (entries b)) at 2. apply map_ext_in.
    intros e He%list_elem_of_In. rewrite decide_False; [done|]. intros <-. apply Hi.
    eapply wf_place; [done..|]. by apply (list_elem_of_fmap_2 entry). }
  apply list_eq. intros j. rewrite !list_lookup_fmap.
  destruct (decide (bucket_index t k = Some j)) as [Hi|Hi].
  - pose proof (bucket_at_index t k j Hwf Hk Hi) as Hb. unfold update_entry. rewrite Hi. simpl.
    rewrite list_lookup_insert_eq by (by eapply lookup_lt_Some). rewrite Hb. simpl. f_equal.
    apply update_first_map. rewrite bkeys_bentries. by apply (wf_buckets t Hwf j).
  - assert (buckets (update_entry now t k flag) !! j = buckets t !! j) as ->.
    { unfold update_entry. destruct (bucket_index t k) as [i|]; [|done]. simpl.
      rewrite list_lookup_insert_ne; congruence. }
    destruct (buckets t !! j) as [b|] eqn:Hb; [|done]. simpl. f_equal. symmetry. by eapply Hother.
Qed.

(** A status update reaches the one entry of its key, wherever it is: the
    entry takes the new status, its failure counter goes up exactly when the
    status is unreachable or unstable, and it counts as seen now unless it is
    unreachable.  Every other entry of the table is as before, in its place. *)
Theorem update_entry_spec now t k flag :
  wf t → key_wf k →
  map entries (buckets (update_entry now t k flag)) =
  map (map (λ e, if decide (bkey e = k) then
      mkBucketEntry flag (entry e)
        (if counts_failure flag then (failures e + 1) mod 2 ^ 32 else failures e)
        (if flag =? UNREACHABLE_ENTRY then last_seen e else now)
    else e)) (map entries (buckets t)).
Proof.
  intros Hwf Hk. rewrite update_entry_map by done. apply map_ext. intros es. apply map_ext.
  intros e. by rewrite set_status_spec.
Qed.
