(* ===== verification/RoutingTableQueries.v ===== *)
(** * The queries of the routing table

    [closest_entries], [random_entry], [refresh_candidates],
    [entries_with_item] and [has_discovery_ip] of [RoutingTable] against the
    contents of the table. *)

From S2P Require Import Prelude Endpoint Message Bloom RoutingTable RoutingTableSpec.
From Stdlib Require Import Sorting.Sorted.
Import RoutingTable.RoutingTable.

Local Open Scope Z_scope.

(** ** The order of distances *)

Lemma key_leb_refl a : key_leb a a = true.
Proof. induction a as [|x a IH]; simpl; [done|]. by rewrite Z.ltb_irrefl, Z.eqb_refl. Qed.

Lemma key_leb_total a b : key_leb a b = false → key_leb b a = true.
Proof.
  revert b. induction a as [|x a IH]; intros [|y b]; simpl; try done.
  destruct (Z.ltb_spec x y), (Z.ltb_spec y x), (Z.eqb_spec x y), (Z.eqb_spec y x);
    try done; try lia; auto.
Qed.

Lemma key_leb_trans a b c : key_leb a b = true → key_leb b c = true → key_leb a c = true.
Proof.
  revert b c. induction a as [|x a IH]; intros [|y b] [|z c]; simpl; try done.
  destruct (Z.ltb_spec x y), (Z.eqb_spec x y), (Z.ltb_spec y z), (Z.eqb_spec y z),
    (Z.ltb_spec x z), (Z.eqb_spec x z); try done; try lia; subst; eauto.
Qed.

Section sorting.
Context {A : Type} (f : A → Key).

Definition key_le (a b : A) : Prop := key_leb (f a) (f b) = true.

Lemma insert_by_perm x l : insert_by f x l ≡ₚ x :: l.
Proof.
  induction l as [|y l IH]; simpl; [done|]. case_match; [done|].
  rewrite IH. apply Permutation_swap.
Qed.

Lemma sort_by_perm l : sort_by f l ≡ₚ l.
Proof.
  unfold sort_by. induction l as [|x l IH]; simpl; [done|]. by rewrite insert_by_perm, IH.
Qed.

Lemma insert_by_sorted x l :
  StronglySorted key_le l → StronglySorted key_le (insert_by f x l).
Proof.
  induction 1 as [|y l Hl IH Hy]; simpl; [by repeat constructor|].
  destruct (key_leb (f x) (f y)) eqn:Hxy.
  - constructor; [by constructor|]. constructor; [done|].
    eapply Forall_impl; [exact Hy|]. unfold key_le. eauto using key_leb_trans.
  - constructor; [done|]. rewrite insert_by_perm. constructor; [by apply key_leb_total|done].
Qed.

Lemma sort_by_sorted l : StronglySorted key_le (sort_by f l).
Proof. induction l; [constructor|by apply insert_by_sorted]. Qed.

End sorting.

(** ** The buckets a search visits *)

Lemma indexes_at_elem p d i :
  i ∈ indexes_at p d ↔
  (d ≤ p ∧ 1 ≤ p - d ∧ i = p - d ∨ p + d < TABLE_SIZE - 1 ∧ i = p + d)%nat.
Proof.
  unfold indexes_at. rewrite elem_of_app.
  destruct (Nat.leb_spec d p), (Nat.leb_spec 1 (p - d)), (Nat.ltb_spec (p + d) (TABLE_SIZE - 1));
    simpl; rewrite ?list_elem_of_singleton; set_solver by lia.
Qed.

(** A primary bucket is any of the 32. *)
Lemma indexes_nodup p :
  (p < TABLE_SIZE)%nat → NoDup (p :: concat (map (indexes_at p) (seq 1 (DISTANCE_LIMIT - 1)))).
Proof.
  intros Hp.
  assert (forallb (λ q, bool_decide (NoDup (q :: concat (map (indexes_at q)
    (seq 1 (DISTANCE_LIMIT - 1)))))) (seq 0 TABLE_SIZE) = true) as Hall by (vm_compute; done).
  rewrite forallb_forall in Hall. eapply bool_decide_eq_true_1, Hall, in_seq. lia.
Qed.

Definition primary_index (t : RoutingTable) (target : Key) : nat :=
  from_option id 0%nat (bucket_index t target).

Lemma primary_index_lt t target :
  wf t → key_wf target → (primary_index t target < TABLE_SIZE)%nat.
Proof.
  intros Hwf Hk. unfold primary_index.
  destruct (bucket_index t target) as [i|] eqn:Hi; simpl; [|unfold TABLE_SIZE; lia].
  by eapply bucket_index_lt in Hi; [|apply wf_key|].
Qed.

Lemma bucket_indexes_elem t target i :
  wf t → key_wf target →
  i ∈ bucket_indexes t target ↔ i = primary_index t target ∨ (1 ≤ i ≤ 30)%nat.
Proof.
  intros Hwf Hk. pose proof (primary_index_lt t target Hwf Hk) as Hp.
  unfold bucket_indexes. fold (primary_index t target). set (p := primary_index t target) in *.
  rewrite elem_of_cons, list_elem_of_In, in_concat. unfold TABLE_SIZE, DISTANCE_LIMIT in *. split.
  - intros [?|(l & Hl & Hi)]; [by left|right].
    apply in_map_iff in Hl as (d & <- & Hd%in_seq). apply list_elem_of_In, indexes_at_elem in Hi.
    unfold TABLE_SIZE in Hi. lia.
  - intros [?|Hi]; [by left|]. destruct (decide (i = p)) as [|Hne]; [by left|right].
    set (d := if decide (i < p)%nat then (p - i)%nat else (i - p)%nat).
    exists (indexes_at p d). split.
    + apply in_map. apply in_seq. unfold d. case_decide; lia.
    + apply list_elem_of_In, indexes_at_elem. unfold TABLE_SIZE, d. case_decide; lia.
Qed.

Lemma bucket_indexes_nodup t target :
  wf t → key_wf target → NoDup (bucket_indexes t target).
Proof. intros. by apply indexes_nodup, primary_index_lt. Qed.

(** ** Closest entries *)

(** The entries a search may return, in the order it meets them. *)
Definition candidates (t : RoutingTable) (target : Key) (local : LocalBloom) : list Entry :=
  concat (map (λ i, map entry (List.filter (eligible local) (entries (bucket_at t i))))
    (bucket_indexes t target)).

Definition limit {A} (max : nat) (l : list A) : list A :=
  if decide (max = 0%nat) then l else take max l.

Lemma collect_bucket_spec max local es : ∀ acc,
  (max = 0 ∨ length acc < max)%nat →
  let all := acc ++ map entry (List.filter (eligible local) es) in
  collect_bucket max local es acc =
    (negb (max =? 0)%nat && (max <=? length all)%nat, limit max all).
Proof.
  unfold limit. induction es as [|e es IH]; intros acc Hacc; simpl.
  - rewrite app_nil_r. destruct (Nat.eqb_spec max 0) as [->|Hne]; simpl; [done|].
    rewrite decide_False by done. rewrite (proj2 (Nat.leb_gt _ _)) by lia.
    by rewrite take_ge by lia.
  - assert (eligible local e = negb (is_unreachable e || is_unstable e) &&
      LocalBloom.matches local (protocols (entry e))) as -> by done.
    destruct (is_unreachable e || is_unstable e); simpl; [by apply IH|].
    destruct (LocalBloom.matches local (protocols (entry e))); simpl; [|by apply IH].
    rewrite length_app. simpl. destruct (Nat.eqb_spec (length acc + 1) max) as [<-|Hne].
    + rewrite (proj2 (Nat.eqb_neq _ _)) by lia. rewrite decide_False by lia. simpl.
      rewrite length_app. simpl. rewrite (proj2 (Nat.leb_le _ _)) by lia.
      f_equal. symmetry. etrans; [apply (f_equal (take _)), (app_assoc acc [entry e])|].
      apply take_app_length'. rewrite length_app. simpl. lia.
    + rewrite IH by (rewrite length_app; simpl; lia). by rewrite <-app_assoc.
Qed.

Lemma collect_spec t max local idxs : ∀ acc,
  (max = 0 ∨ length acc < max)%nat →
  collect t max local idxs acc = limit max (acc ++
    concat (map (λ i, map entry (List.filter (eligible local) (entries (bucket_at t i)))) idxs)).
Proof.
  induction idxs as [|i idxs IH]; intros acc Hacc; simpl.
  - rewrite app_nil_r. unfold limit. case_decide; [done|]. by rewrite take_ge by lia.
  - rewrite collect_bucket_spec by done. set (es := map entry _).
    destruct (Nat.eqb_spec max 0) as [->|Hne]; simpl.
    + rewrite IH by (by left). unfold limit. rewrite !decide_True by done. by rewrite app_assoc.
    + destruct (Nat.leb_spec max (length (acc ++ es))) as [Hle|Hgt]; unfold limit.
      * rewrite !decide_False by done. rewrite app_assoc, (take_app_le (acc ++ es)) by done. done.
      * rewrite (decide_False (P := max = 0%nat)) by done. rewrite take_ge by lia.
        rewrite IH by lia. unfold limit. rewrite !decide_False by done. by rewrite <-app_assoc.
Qed.

(** The entries of the searched buckets, seen from the table. *)
Lemma candidates_elem t target local e :
  wf t → key_wf target →
  e ∈ candidates t target local ↔
  ∃ i be, (i = primary_index t target ∨ (1 ≤ i ≤ 30)%nat) ∧
    be ∈ entries (bucket_at t i) ∧ e = entry be ∧ eligible local be = true.
Proof.
  intros Hwf Hk. unfold candidates. rewrite list_elem_of_In, in_concat.
  setoid_rewrite in_map_iff. split.
  - intros (l & (i & <- & Hi) & He). apply in_map_iff in He as (be & <- & [Hin Hel]%filter_In).
    exists i, be. rewrite <-bucket_indexes_elem by done. by rewrite !list_elem_of_In.
  - intros (i & be & Hi & Hbe & -> & Hel). eexists. split.
    + exists i. split; [done|]. apply list_elem_of_In. by rewrite bucket_indexes_elem.
    + apply in_map, filter_In. by rewrite <-list_elem_of_In.
Qed.

Definition distance_sorted (target : Key) : list Entry → Prop :=
  StronglySorted (key_le (λ e, xor_distance target (key e))).

(** A search returns the candidates it met, at most [max] of them (all of
    them for a limit of zero), sorted by distance to the target.  Candidates
    are exactly the entries of the target's bucket and of buckets 1 to 30 that
    are neither unreachable nor unstable and match the filter. *)
Theorem closest_entries_spec t target max local :
  wf t → key_wf target →
  let r := closest_entries_filtered t target max local in
  r ≡ₚ limit max (candidates t target local) ∧
  distance_sorted target r ∧
  (∀ e, e ∈ candidates t target local ↔
    ∃ i be, (i = primary_index t target ∨ (1 ≤ i ≤ 30)%nat) ∧
      be ∈ entries (bucket_at t i) ∧ e = entry be ∧ eligible local be = true).
Proof.
  intros Hwf Hk. unfold closest_entries_filtered. cbv zeta. split_and!.
  - rewrite sort_by_perm, collect_spec; [done|]. simpl. lia.
  - apply sort_by_sorted.
  - intros e. by apply candidates_elem.
Qed.

(** ** Random and exhaustive queries *)

(** A random entry is any entry whose status has one of the asked flags and
    that matches the filter; the search fails only when the table has none,
    whatever order the random source picks. *)
Theorem random_entry_complete sample_buckets sample_entries t flag local :
  (∀ l, sample_buckets l ≡ₚ l) → (∀ l, sample_entries l ≡ₚ l) →
  let good be := Z.land (status be) flag ≠ 0 ∧
    LocalBloom.matches local (protocols (entry be)) = true in
  match random_entry_filtered sample_buckets sample_entries t flag local with
  | Some e => ∃ be, be ∈ table_entries t ∧ entry be = e ∧ good be
  | None => ∀ be, be ∈ table_entries t → ¬ good be
  end.
Proof.
  intros Hb He good. unfold random_entry_filtered.
  set (l := concat _).
  assert (l ≡ₚ table_entries t) as Hl.
  { unfold l, table_entries. rewrite (Hb (buckets t)).
    induction (buckets t) as [|b bs IH]; simpl; [done|]. by rewrite He, IH. }
  destruct (find_first _ l) as [be|] eqn:Hf; simpl.
  - apply find_first_Some in Hf as [Hin [Hs%negb_true_iff%Z.eqb_neq Hm]%andb_true_iff].
    exists be. by rewrite <-Hl.
  - intros be Hin [Hs Hm]. rewrite <-Hl in Hin.
    pose proof (proj1 (find_first_None _ _) Hf be Hin) as Hno. simpl in Hno.
    rewrite Hm, andb_true_r in Hno. by apply negb_false_iff, Z.eqb_eq in Hno.
Qed.

Lemma table_entries_elem t be :
  be ∈ table_entries t ↔ ∃ b, b ∈ buckets t ∧ be ∈ entries b.
Proof.
  unfold table_entries. rewrite list_elem_of_In, in_concat. setoid_rewrite in_map_iff.
  setoid_rewrite list_elem_of_In. naive_solver.
Qed.

Lemma has_discovery_ip_spec t i :
  has_discovery_ip t i = true ↔
  ∃ be a, be ∈ table_entries t ∧ a ∈ discovery_addrs (entry be) ∧ addr a = Ip i.
Proof.
  unfold has_discovery_ip. rewrite existsb_exists. setoid_rewrite existsb_exists.
  setoid_rewrite existsb_exists. setoid_rewrite table_entries_elem.
  setoid_rewrite list_elem_of_In. split.
  - intros (b & Hb & be & Hbe & a & Ha & Hip). exists be, a.
    destruct (addr a); [|done]. apply bool_decide_eq_true in Hip as ->. naive_solver.
  - intros (be & a & (b & Hb & Hbe) & Ha & Hip). exists b. split; [done|]. exists be.
    split; [done|]. exists a. split; [done|]. rewrite Hip. by apply bool_decide_eq_true.
Qed.

Lemma entries_with_item_spec `{SipHash} t item e :
  e ∈ entries_with_item t item ↔
  ∃ be, be ∈ table_entries t ∧ e = entry be ∧
    is_unreachable be = false ∧ is_unstable be = false ∧
    Bloom.may_contain (protocols e) item = true.
Proof.
  unfold entries_with_item. rewrite list_elem_of_In, in_concat. setoid_rewrite in_map_iff.
  setoid_rewrite table_entries_elem. setoid_rewrite list_elem_of_In. split.
  - intros (l & (b & <- & Hb) & He). apply in_map_iff in He as (be & <- & [Hin Hok]%filter_In).
    apply andb_true_iff in Hok as [[? ?]%negb_true_iff%orb_false_iff ?]. eauto 10.
  - intros (be & (b & Hb & Hin) & -> & Hu & Hs & Hm). eexists. split; [by eauto|].
    apply in_map_iff. exists be. split; [done|]. apply filter_In. by rewrite Hu, Hs, Hm.
Qed.

(** Refreshing takes at most [n] entries of a bucket, none connected. *)
Lemma refresh_candidates_spec t n :
  (length (refresh_candidates t n) ≤ n * length (buckets t))%nat ∧
  ∀ be, be ∈ refresh_candidates t n →
    be ∈ table_entries t ∧ is_connected be = false ∧ is_incompatible be = false.
Proof.
  unfold refresh_candidates. setoid_rewrite table_entries_elem. split.
  - induction (buckets t) as [|b bs IH]; simpl; [lia|].
    rewrite length_app, length_take. lia.
  - intros be (l & Hl & Hbe)%list_elem_of_In%in_concat.
    apply in_map_iff in Hl as (b & <- & Hb). apply list_elem_of_In, elem_of_take in Hbe as (j & Hj & _).
    apply list_elem_of_lookup_2, list_elem_of_In, filter_In in Hj as [Hin Hok].
    apply andb_true_iff in Hok as [?%negb_true_iff ?%negb_true_iff].
    setoid_rewrite list_elem_of_In. eauto.
Qed.

(** ** The scenario of the unit tests, and witnesses *)

Section examples.

Definition zeros : Key := replicate 32 0.

(** A key with some bytes at an offset, and a last byte. *)
Definition key_at (off : nat) (bs : list Z) (last : Z) : Key :=
  replicate off 0 ++ bs ++ replicate (31 - off - length bs) 0 ++ [last].

Definition new_entry (k : Key) (octets : list Z) : Entry :=
  mkEntry k [mkPeerAddr (Ip (V4 octets)) 3000 PTcp 0]
    [mkPeerAddr (Ip (V4 octets)) 3010 PTcp 0; mkPeerAddr (Ip (V4 octets)) 3010 PUdp 1]
    Bloom.default.

Definition test_keys : list Key :=
  [key_at 0 [] 1; key_at 26 [1; 1; 0; 1; 1] 2; key_at 5 [20] 3; key_at 20 [30; 1; 18] 4;
   key_at 0 [223] 5; key_at 20 [50; 1; 18] 6; key_at 19 [10; 50; 1; 18] 7;
   key_at 18 [10; 10; 50; 1; 18] 8; key_at 17 [10; 10; 10; 50; 1; 18] 9].

Definition test_entries : list Entry :=
  imap (λ i k, new_entry k [127; 0; Z.of_nat i; 1]) test_keys.

Definition add_all (now : Z) (t : RoutingTable) (es : list Entry) : list AddEntryResult * RoutingTable :=
  foldl (λ '(rs, t) e, let '(r, t) := add_entry now t e in (rs ++ [r], t)) ([], t) es.

Definition test_table : RoutingTable := (add_all 0 (new zeros) test_entries).2.

(** [test_bucket_index], [test_closest_entries] and [test_add_entries] of the source. *)
Example test_bucket_index :
  (add_all 0 (new zeros) test_entries).1 = replicate 9 Added ∧
  map (bucket_index test_table) (zeros :: test_keys) =
    None :: map Some [0; 5; 26; 11; 31; 11; 12; 13; 14]%nat.
Proof. vm_compute. done. Qed.

Example test_closest_entries :
  map key (closest_entries test_table (key_at 20 [50; 1; 18] 6) 8) =
    omap (λ i, test_keys !! i) [5; 3; 1; 6; 7; 8; 2]%nat ∧
  map key (closest_entries test_table (key_at 0 [223] 5) 2) =
    omap (λ i, test_keys !! i) [4; 2]%nat.
Proof. vm_compute. done. Qed.

Example test_add_entries :
  let e1 := new_entry (key_at 7 [1; 3; 4] 5) [240; 120; 3; 1] in
  let e2 := new_entry (key_at 7 [1; 2; 4] 5) [240; 120; 3; 2] in
  (add_all 0 test_table [e1; e1; e2]).1 = [Added; Exists; Restricted].
Proof. vm_compute. done. Qed.

(** A search near the table's own key visits buckets 0 to 30 only: the entries
    that differ in their first byte, in bucket 31, are never returned. *)
Example closest_to_self_skips_far :
  map key (closest_entries test_table zeros 20) =
    omap (λ i, test_keys !! i) [0; 1; 3; 5; 6; 7; 8; 2]%nat ∧
  contains_key test_table (key_at 0 [223] 5) = true.
Proof. vm_compute. done. Qed.

(** With a limit, the search can return a farther entry than one it leaves
    out: bucket [p + 1] comes before bucket [p - 2]. *)
Example closest_entries_not_closest :
  let far := new_entry (key_at 19 [10] 7) [127; 0; 0; 1] in
  let near := new_entry (key_at 22 [10] 7) [127; 0; 0; 1] in
  let target := key_at 20 [50] 6 in
  let t := (add_all 0 (new zeros) [far; near]).2 in
  map key (closest_entries t target 1) = [key far] ∧
  key_leb (xor_distance target (key near)) (xor_distance target (key far)) = true.
Proof. vm_compute. done. Qed.

Lemma zeros_wf : key_wf zeros.
Proof. split; [done|]. repeat constructor; done. Qed.

Definition far_key : Key := key_at 0 [223] 5.

Lemma far_key_wf : key_wf far_key.
Proof. split; [done|]. repeat constructor; done. Qed.

Definition far_entry : Entry := new_entry far_key [8; 8; 8; 8].

Definition one_table : RoutingTable := (add_entry 7 (new zeros) far_entry).2.

Lemma one_table_wf : wf one_table.
Proof. apply wf_add; [apply wf_new, zeros_wf|apply far_key_wf]. Qed.

Lemma routing_table_invariant_witness :
  NoDup (map key (all_entries one_table)) ∧ zeros ∉ map key (all_entries one_table).
Proof.
  destruct (routing_table_invariant zeros one_table zeros_wf) as (_ & ? & ? & _); [|done].
  eapply reachable_step; [constructor|]. apply step_add, far_key_wf.
Defined.

Lemma add_entry_spec_witness :
  (add_entry 7 (new zeros) far_entry).1 = Added ∧ far_key ∉ map key (all_entries (new zeros)).
Proof.
  pose proof (add_entry_spec 7 (new zeros) far_entry (wf_new zeros zeros_wf) far_key_wf) as H.
  destruct (add_entry 7 (new zeros) far_entry) as [r t'] eqn:He.
  assert (r = Added) as -> by (vm_compute in He; congruence).
  split; [done|]. apply H.
Defined.

Lemma remove_entry_spec_witness :
  far_entry ∈ all_entries (remove_entry one_table zeros) ↔
  far_entry ∈ all_entries one_table ∧ far_key ≠ zeros.
Proof. apply (remove_entry_spec one_table zeros far_entry one_table_wf zeros_wf). Defined.

Lemma update_entry_spec_witness :
  map (λ e, (failures e, status e, last_seen e))
    (concat (map entries (buckets (update_entry 9 one_table far_key UNSTABLE_ENTRY)))) =
  [(1, UNSTABLE_ENTRY, 9)].
Proof.
  rewrite (update_entry_spec 9 one_table far_key UNSTABLE_ENTRY one_table_wf far_key_wf).
  vm_compute. reflexivity.
Defined.

Lemma closest_entries_spec_witness :
  closest_entries_filtered one_table far_key 3 LocalBloom.default ≡ₚ [far_entry].
Proof.
  destruct (closest_entries_spec one_table far_key 3 LocalBloom.default one_table_wf far_key_wf)
    as [Hp _].
  etrans; [exact Hp|]. vm_compute. reflexivity.
Defined.

Lemma random_entry_complete_witness :
  ∃ be, be ∈ table_entries one_table ∧ entry be = far_entry ∧
    Z.land (status be) PENDING_ENTRY ≠ 0 ∧
    LocalBloom.matches LocalBloom.default (protocols (entry be)) = true.
Proof.
  pose proof (random_entry_complete (@rev Bucket) (@rev BucketEntry) one_table PENDING_ENTRY
    LocalBloom.default) as H.
  replace (random_entry_filtered (@rev Bucket) (@rev BucketEntry) one_table PENDING_ENTRY
    LocalBloom.default) with (Some far_entry) in H by (vm_compute; reflexivity).
  apply H; intros l; apply Permutation_sym, Permutation_rev.
Defined.

End examples.
