(* ===== verification/Version.v ===== *)
(** * Versions

    Models [p2p/src/version.rs].  Version requirements come from the semver
    crate: their type, parser, printer and matching are parameters
    ([Semver]). *)

From S2P Require Import Prelude Message.
From Stdlib Require Import Ascii.

Local Open Scope Z_scope.

(** ** Decimal numbers *)

Definition digit (d : Z) : ascii := ascii_of_nat (48 + Z.to_nat d).

(** [char::to_digit(10)]. *)
Definition to_digit (c : ascii) : option Z :=
  let n := Z.of_nat (nat_of_ascii c) in
  if (48 <=? n) && (n <=? 57) then Some (n - 48) else None.

(** The loop of [u64::from_str], with its checked arithmetic. *)
Fixpoint parse_digits (acc : Z) (s : string) : option Z :=
  match s with
  | EmptyString => Some acc
  | String c s =>
      d ← to_digit c;
      if (acc * 10 + d <? 2 ^ 64) then parse_digits (acc * 10 + d) s else None
  end.

(** [str::parse::<u64>]: an optional plus sign, then at least one digit. *)
Definition parse_u64 (s : string) : option Z :=
  match s with
  | EmptyString => None
  | String "+" EmptyString => None
  | String "+" s => parse_digits 0 s
  | _ => parse_digits 0 s
  end.

(** [Display] of an integer; twenty digits are enough for a [u64]. *)
Fixpoint dec_digits (fuel : nat) (z : Z) (acc : string) : string :=
  match fuel with
  | O => acc
  | S fuel =>
      let acc := String (digit (z mod 10)) acc in
      if z / 10 =? 0 then acc else dec_digits fuel (z / 10) acc
  end.

Definition print_u64 (z : Z) : string := dec_digits 20 z EmptyString.

(** ** Splitting *)

(** [str::split(", ")]. *)
Fixpoint split_comma_space (s : string) : list string :=
  match s with
  | EmptyString => [EmptyString]
  | String "," (String " " s) => EmptyString :: split_comma_space s
  | String a s =>
      match split_comma_space s with
      | w :: ws => String a w :: ws
      | [] => []
      end
  end.

(** ** Versions *)

Record VersionInt := mkVersionInt { major : Z; minor : Z; patch : Z }.

#[global] Instance VersionInt_eq_dec : EqDecision VersionInt.
Proof. solve_decision. Defined.
#[global] Instance VersionInt_countable : Countable VersionInt.
Proof.
  refine (inj_countable' (λ v, (major v, minor v, patch v))
    (λ x, mkVersionInt x.1.1 x.1.2 x.2) _). by intros [].
Defined.

Definition version_wf (v : VersionInt) : Prop :=
  is_u64 (major v) ∧ is_u64 (minor v) ∧ is_u64 (patch v).

Module VersionInt.

Definition parse_part (s : string) : result p2p_error Z := ok_or (parse_u64 s) ParseIntError.

Definition from_str (s : string) : result p2p_error VersionInt :=
  match split_char "." s with
  | [a; b] =>
      ma ← parse_part a; mi ← parse_part b; pa ← parse_part "0";
      Ok (mkVersionInt ma mi pa)
  | [a; b; c] =>
      ma ← parse_part a; mi ← parse_part b; pa ← parse_part c;
      Ok (mkVersionInt ma mi pa)
  | _ => Err (ParseError "Invalid version")
  end.

Definition to_string (v : VersionInt) : string :=
  (print_u64 (major v) +:+ "." +:+ print_u64 (minor v) +:+ "." +:+ print_u64 (patch v))%string.

End VersionInt.

(** The semver crate: [VersionReq], [FromStr], [Display] and [matches] at the
    three numbers of a version. *)
Class Semver := {
  VersionReq : Type;
  parse_req : string → option VersionReq;
  print_req : VersionReq → string;
  req_matches : VersionReq → Z → Z → Z → bool;
}.

(** What printing a requirement and parsing it back promises. *)
Class SemverLaws `{Semver} : Prop :=
  semver_print_parse r : ∃ r', parse_req (print_req r) = Some r' ∧
    ∀ a b c, req_matches r' a b c = req_matches r a b c.

Record Version `{Semver} := mkVersion { ver : VersionInt; req : VersionReq }.

Section version.
Context `{Semver}.

Definition Version_from_str (s : string) : result p2p_error Version :=
  let parts := split_comma_space s in
  match parts with
  | [a] =>
      version ← VersionInt.from_str a;
      r ← ok_or (parse_req a) SemverError;
      Ok (mkVersion _ version r)
  | [a; b] =>
      version ← VersionInt.from_str a;
      r ← ok_or (parse_req b) SemverError;
      Ok (mkVersion _ version r)
  | _ => Err (ParseError "Invalid version")
  end.

Definition version_match (r : VersionReq) (x : VersionInt) : bool :=
  req_matches r (major x) (minor x) (patch x).

End version.

(** ** Theorems *)

Lemma to_digit_digit d : 0 ≤ d < 10 → to_digit (digit d) = Some d.
Proof.
  intros Hd. unfold to_digit, digit. rewrite nat_ascii_embedding by lia.
  rewrite (proj2 (Z.leb_le _ _)), (proj2 (Z.leb_le _ _)) by lia. simpl. f_equal. lia.
Qed.

(** Reading back what was printed continues after it. *)
Lemma parse_dec_digits fuel : ∀ z s,
  (0 < fuel)%nat → 0 ≤ z < 10 ^ Z.of_nat fuel → z < 2 ^ 64 →
  parse_digits 0 (dec_digits fuel z s) = parse_digits z s.
Proof.
  induction fuel as [|fuel IH]; intros z s Hf Hz Hw; [lia|]. simpl.
  assert (∀ a, parse_digits a (String (digit (z mod 10)) s) =
    if a * 10 + z mod 10 <? 2 ^ 64 then parse_digits (a * 10 + z mod 10) s else None) as Hd.
  { intros a. cbn [parse_digits]. rewrite to_digit_digit by div_lia. done. }
  destruct (Z.eqb_spec (z / 10) 0) as [Hq|Hq].
  - rewrite Hd. replace (0 * 10 + z mod 10) with z by div_lia.
    by rewrite (proj2 (Z.ltb_lt _ _)).
  - assert (0 < fuel)%nat by (destruct fuel; [exfalso; apply Hq; change (10 ^ Z.of_nat 1) with 10 in Hz; div_lia|lia]).
    rewrite IH; [|done| |div_lia].
    + rewrite Hd. replace (z / 10 * 10 + z mod 10) with z by div_lia.
      by rewrite (proj2 (Z.ltb_lt _ _)).
    + rewrite Nat2Z.inj_succ, Z.pow_succ_r in Hz by lia. div_lia.
Qed.

(** Strings of digits. *)
Fixpoint all_digits (s : string) : Prop :=
  match s with
  | EmptyString => True
  | String c s => is_Some (to_digit c) ∧ all_digits s
  end.

Lemma dec_digits_all fuel : ∀ z s,
  0 ≤ z → all_digits s → all_digits (dec_digits fuel z s).
Proof.
  induction fuel as [|fuel IH]; intros z s Hz Hs; simpl; [done|].
  assert (all_digits (String (digit (z mod 10)) s)).
  { split; [|done]. rewrite to_digit_digit by div_lia. by eauto. }
  case_match; [done|]. apply IH; [div_lia|done].
Qed.

Lemma dec_digits_cons fuel : ∀ z s, (0 < fuel)%nat ∨ s ≠ EmptyString →
  dec_digits fuel z s ≠ EmptyString.
Proof.
  induction fuel as [|fuel IH]; intros z s [?|?]; simpl; try (lia || done);
    (case_match; [done|]); apply IH; by right.
Qed.

Lemma parse_u64_digit c s :
  is_Some (to_digit c) → parse_u64 (String c s) = parse_digits 0 (String c s).
Proof.
  destruct c as [[] [] [] [] [] [] [] []]; try reflexivity.
  intros [x Hx]. vm_compute in Hx. discriminate.
Qed.

Lemma parse_print_u64 z : is_u64 z → parse_u64 (print_u64 z) = Some z.
Proof.
  intros [Hlo Hhi]. unfold print_u64.
  pose proof (dec_digits_all 20 z EmptyString Hlo I) as Hall.
  pose proof (dec_digits_cons 20 z EmptyString (or_introl (Nat.lt_0_succ _))) as Hne.
  pose proof (parse_dec_digits 20 z EmptyString (Nat.lt_0_succ _)) as Hparse.
  destruct (dec_digits 20 z EmptyString) as [|c s]; [done|].
  rewrite parse_u64_digit by apply Hall. rewrite Hparse; [done| |done].
  split; [done|]. etrans; [exact Hhi|]. by vm_compute.
Qed.

Lemma split_char_digits w :
  all_digits w → split_char "." w = [w] ∧
  ∀ rest, split_char "." (w +:+ String "." rest)%string = w :: split_char "." rest.
Proof.
  induction w as [|c w IH]; simpl; intros Hw.
  - done.
  - destruct Hw as [Hc Hw]. destruct (IH Hw) as [IH1 IH2].
    assert (c ≠ "."%char) as Hne by (intros ->; destruct Hc as [x Hx]; by vm_compute in Hx).
    split; [|intros rest]; rewrite decide_False by done; rewrite ?IH1, ?IH2; done.
Qed.

Lemma all_digits_print z : is_u64 z → all_digits (print_u64 z).
Proof. intros [? ?]. by apply dec_digits_all. Qed.

(** Version numbers survive the wire and the configuration text: parsing
    the printed form of a version gives the version back. *)
Theorem version_int_roundtrip x :
  version_wf x → VersionInt.from_str (VersionInt.to_string x) = Ok x.
Proof.
  intros (Ha & Hb & Hc). destruct x as [a b c]. simpl in *.
  unfold VersionInt.from_str, VersionInt.to_string, VersionInt.parse_part.
  cbn [major minor patch]. repeat change ("." +:+ ?t)%string with (String "." t).
  rewrite (proj2 (split_char_digits _ (all_digits_print a Ha))).
  rewrite (proj2 (split_char_digits _ (all_digits_print b Hb))).
  rewrite (proj1 (split_char_digits _ (all_digits_print c Hc))).
  by rewrite !parse_print_u64.
Qed.

Lemma version_int_roundtrip_witness :
  VersionInt.from_str (VersionInt.to_string (mkVersionInt 0 18446744073709551615 7)) =
  Ok (mkVersionInt 0 18446744073709551615 7).
Proof. apply version_int_roundtrip. repeat split; done. Defined.
