(* ===== verification/Session.v ===== *)
(** * Conversations with a peer

    Several parts of the source are an [async fn] that sends messages to a
    peer, waits for its messages and returns early on an error.  A [session]
    is such a function: it runs on a [wire], which holds what the next receives
    will give, whether the next sends succeed, and what was sent so far.  It is
    a state and error monad; [?] is its bind, and a receive (or a send) with
    nothing left on the wire leaves the session pending. *)

From S2P Require Import Prelude Framed.

Section session.
Context {Msg E : Type}.

Record wire := mkWire {
  inbox : list (result E Msg);
  send_results : list (result E ());
  outbox : list Msg;
}.

Definition session (A : Type) : Type := wire → poll (result E A) * wire.

#[global] Instance session_ret : MRet session := λ A a w, (Ready (Ok a), w).

#[global] Instance session_bind : MBind session := λ A B k s w,
  match s w with
  | (Ready (Ok a), w) => k a w
  | (Ready (Err e), w) => (Ready (Err e), w)
  | (Pending, w) => (Pending, w)
  | (Panicked, w) => (Panicked, w)
  end.

(** [?] on a plain result. *)
Definition lift {A} (r : result E A) : session A := λ w, (Ready r, w).

Definition throw {A} (e : E) : session A := lift (Err e).

(** [conn.recv_msg().await?]. *)
Definition recv : session Msg := λ w,
  match inbox w with
  | [] => (Pending, w)
  | r :: rest => (Ready r, mkWire rest (send_results w) (outbox w))
  end.

(** [conn.send_msg(m).await?]: a message that was sent is in the outbox. *)
Definition send (m : Msg) : session () := λ w,
  match send_results w with
  | [] => (Pending, w)
  | Ok tt :: rest => (Ready (Ok ()), mkWire (inbox w) rest (outbox w ++ [m]))
  | Err e :: rest => (Ready (Err e), mkWire (inbox w) rest (outbox w))
  end.

(** The value of a call whose error is not propagated. *)
Definition attempt {A} (s : session A) : session (result E A) := λ w,
  match s w with
  | (Ready r, w) => (Ready (Ok r), w)
  | (Pending, w) => (Pending, w)
  | (Panicked, w) => (Panicked, w)
  end.

(** A wire on which every send succeeds, with the given incoming messages. *)
Definition good_wire (n : nat) (msgs : list Msg) : wire :=
  mkWire (map Ok msgs) (repeat (Ok ()) n) [].

(** Inversion of a bind that returned a value. *)
Lemma session_bind_Ok {A B} (s : session A) (k : A → session B) w b w' :
  (s ≫= k) w = (Ready (Ok b), w') →
  ∃ a w1, s w = (Ready (Ok a), w1) ∧ k a w1 = (Ready (Ok b), w').
Proof.
  unfold mbind, session_bind. destruct (s w) as [[|[a|e]|] w1]; [done| |done|done]. by eauto.
Qed.

Lemma lift_Ok {A} (r : result E A) w a w' :
  lift r w = (Ready (Ok a), w') → r = Ok a ∧ w' = w.
Proof. unfold lift. by intros [= -> ->]. Qed.

Lemma recv_Ok w m w' :
  recv w = (Ready (Ok m), w') →
  ∃ rest, inbox w = Ok m :: rest ∧ w' = mkWire rest (send_results w) (outbox w).
Proof. unfold recv. destruct (inbox w) as [|r rest]; [done|]. intros [= -> <-]. by eauto. Qed.

Lemma send_Ok m w a w' :
  send m w = (Ready (Ok a), w') →
  ∃ rest, send_results w = Ok () :: rest ∧ w' = mkWire (inbox w) rest (outbox w ++ [m]).
Proof.
  unfold send. destruct (send_results w) as [|[[]|e] rest]; [done| |done].
  intros [= <- <-]. by eauto.
Qed.

End session.
Arguments wire : clear implicits.
Arguments session : clear implicits.

(** Unfolds a session that returned a value into the steps it took. *)
Ltac inv_session :=
  repeat match goal with
  | H : (_ ≫= _) _ = (Ready (Ok _), _) |- _ =>
      apply session_bind_Ok in H as (? & ? & ? & H)
  | H : lift _ _ = (Ready (Ok _), _) |- _ => apply lift_Ok in H as [H ?]
  | H : recv _ = (Ready (Ok _), _) |- _ => apply recv_Ok in H as (? & H & ?)
  | H : send _ _ = (Ready (Ok _), _) |- _ => apply send_Ok in H as (? & H & ?)
  end.

(** ** Tasks

    An [async fn] run to its end on given inputs: pending, a value, or an
    error; [?] is the bind. *)

Definition task (E A : Type) : Type := poll (result E A).

#[export] Instance task_ret {E} : MRet (task E) := λ A a, Ready (Ok a).

#[export] Instance task_bind {E} : MBind (task E) := λ A B k s,
  match s with
  | Ready (Ok a) => k a
  | Ready (Err e) => Ready (Err e)
  | Pending => Pending
  | Panicked => Panicked
  end.

Lemma task_bind_Ok {E A B} (s : task E A) (k : A → task E B) b :
  s ≫= k = Ready (Ok b) → ∃ a, s = Ready (Ok a) ∧ k a = Ready (Ok b).
Proof. destruct s as [|[a|e]|]; simpl; [done| |done|done]. by eauto. Qed.
