(* ===== verification/Handshake.v ===== *)
(** * The peer handshake

    Models [p2p/src/handshake.rs].  A handshake is a [session] over decoded
    messages; the timeouts and transport errors of its receives are errors in
    the inbox.  A [HashMap] is a [gmap], and the order in which one is
    iterated is a parameter.

    The theorems: two honest nodes always finish, agree on success, on each
    other's identity and on the negotiated protocols; and whatever the other
    side sends, a handshake succeeds only with a compatible, acknowledged and
    (over TLS) authenticated peer that speaks every required protocol. *)

From S2P Require Import Prelude Codec Framed Message Version Session.

Local Open Scope Z_scope.

Section data.
Context `{Semver}.

Record ProtocolMeta := mkProtocolMeta {
  meta_version : Version;
  meta_flags : ProtocolFlags;
}.

Record WireVersion := mkWireVersion { wv : VersionInt; wreq : string }.

Definition WireVersion_from (x : Version) : WireVersion :=
  mkWireVersion (ver x) (print_req (req x)).

Record VerMsg := mkVerMsg {
  vm_peer_id : PeerID;
  vm_version : WireVersion;
  vm_protocols : gmap ProtocolID WireVersion;
}.

Record VerAckMsg := mkVerAckMsg { va_peer_id : PeerID; va_ack : bool }.

Record HandshakeParams := mkParams {
  own_id : PeerID;
  config_version : Version;
  hp_protocols : gmap ProtocolID ProtocolMeta;
  timeout_secs : Z;
  verified_peer_id : option PeerID;
}.

End data.

Definition NegotiatedProtocols := list ProtocolID.

Section defs.
Context `{Semver} `{Bincode VerMsg} `{Bincode VerAckMsg}.
Context (map_iter : gmap ProtocolID WireVersion → list (ProtocolID * WireVersion)).

Definition mutual_match (ours : Version) (theirs : WireVersion) : bool :=
  match parse_req (wreq theirs) with
  | None => false
  | Some their_req => version_match (req ours) (wv theirs) && version_match their_req (ver ours)
  end.

Definition protocols_intersection (our_protocols : gmap ProtocolID ProtocolMeta)
    (their_protocols : gmap ProtocolID WireVersion) : NegotiatedProtocols :=
  omap (λ '(name, theirs),
    match our_protocols !! name with
    | Some our_meta => if mutual_match (meta_version our_meta) theirs then Some name else None
    | None => None
    end) (map_iter their_protocols).

(** The claimed identity is not the one of the secure transport. *)
Definition id_mismatch (p : HandshakeParams) (claimed : PeerID) : bool :=
  match verified_peer_id p with
  | Some vpid => negb (bool_decide (vpid = claimed))
  | None => false
  end.

Definition validate_version_msg (msg : PeerNetMsg) (p : HandshakeParams) :
    result p2p_error (PeerID * NegotiatedProtocols) :=
  '(vermsg, _) ← decode (T := VerMsg) (payload msg);
  if negb (mutual_match (config_version p) (vm_version vermsg))
  then Err (IncompatibleVersion "system version")
  else if id_mismatch p (vm_peer_id vermsg) then Err IncompatiblePeer
  else
    let shared := protocols_intersection (hp_protocols p) (vm_protocols vermsg) in
    if bool_decide (shared = []) then Err IncompatiblePeer
    else if existsb (λ '(id, meta),
        ProtocolFlags.contains (meta_flags meta) ProtocolFlags.REQUIRED &&
        negb (bool_decide (id ∈ shared))) (map_to_list (hp_protocols p))
    then Err IncompatiblePeer
    else Ok (vm_peer_id vermsg, shared).

Definition validate_verack_msg (msg : PeerNetMsg) (pid : PeerID) : result p2p_error () :=
  '(verack, _) ← decode (T := VerAckMsg) (payload msg);
  if negb (va_ack verack) || negb (bool_decide (va_peer_id verack = pid))
  then Err IncompatiblePeer
  else Ok ().

Definition ver_msg (p : HandshakeParams) : VerMsg :=
  mkVerMsg (own_id p) (WireVersion_from (config_version p))
    ((λ m, WireVersion_from (meta_version m)) <$> hp_protocols p).

Definition send_vermsg (p : HandshakeParams) : session PeerNetMsg p2p_error () :=
  m ← lift (PeerNetMsg_new CmdVersion (ver_msg p)); send m.

Definition send_verack (own : PeerID) (ack : bool) : session PeerNetMsg p2p_error () :=
  m ← lift (PeerNetMsg_new CmdVerack (mkVerAckMsg own ack)); send m.

Definition handshake (p : HandshakeParams) :
    session PeerNetMsg p2p_error (PeerID * NegotiatedProtocols) :=
  send_vermsg p;;
  msg ← recv;
  let result :=
    match command (header msg) with
    | CmdVersion => validate_version_msg msg p
    | _ => Err (InvalidMsg "unexpected msg found")
    end in
  match result with
  | Ok _ => send_verack (own_id p) true
  | Err (IncompatibleVersion _) | Err IncompatiblePeer => send_verack (own_id p) false
  | _ => mret ()
  end;;
  '(pid, shared) ← lift result;
  msg ← recv;
  match command (header msg) with
  | CmdVerack => lift (validate_verack_msg msg pid)
  | _ => throw (InvalidMsg "unexpected msg found")
  end;;
  mret (pid, shared).

End defs.

(** ** Theorems *)

Section theorems.
Context `{Semver} `{!SemverLaws}.
Context `{Bincode VerMsg} `{Bincode VerAckMsg}.
Context (map_iter : gmap ProtocolID WireVersion → list (ProtocolID * WireVersion)).
Context (map_iter_perm : ∀ m, map_iter m ≡ₚ map_to_list m).

Abbreviation handshake := (handshake map_iter).
Abbreviation validate := (validate_version_msg map_iter).
Abbreviation intersection := (protocols_intersection map_iter).

(** Both sides come to the same verdict on a pair of versions. *)
Lemma mutual_match_spec a b :
  mutual_match a (WireVersion_from b) =
    version_match (req a) (ver b) && version_match (req b) (ver a).
Proof.
  unfold mutual_match. simpl. destruct (semver_print_parse (req b)) as (r' & -> & Hr).
  f_equal. apply Hr.
Qed.

Lemma mutual_match_sym a b :
  mutual_match a (WireVersion_from b) = mutual_match b (WireVersion_from a).
Proof. rewrite !mutual_match_spec. apply andb_comm. Qed.

Lemma intersection_elem ours theirs name :
  name ∈ intersection ours theirs ↔
  ∃ m wv, ours !! name = Some m ∧ theirs !! name = Some wv ∧
    mutual_match (meta_version m) wv = true.
Proof.
  unfold protocols_intersection. rewrite list_elem_of_omap. split.
  - intros ([n wv] & Hin & Hm). rewrite map_iter_perm in Hin. apply elem_of_map_to_list in Hin.
    destruct (ours !! n) as [m|] eqn:Ho; [|done].
    destruct (mutual_match _ wv) eqn:Hmm; simplify_eq. by eauto.
  - intros (m & wv & Ho & Ht & Hm). exists (name, wv). rewrite map_iter_perm.
    split; [by apply elem_of_map_to_list|]. by rewrite Ho, Hm.
Qed.

Lemma intersection_nodup ours theirs : NoDup (intersection ours theirs).
Proof.
  unfold protocols_intersection.
  assert (NoDup (map_iter theirs).*1) as Hnd
    by (rewrite map_iter_perm; apply NoDup_fst_map_to_list).
  induction (map_iter theirs) as [|[n wv] l IH]; simpl; [constructor|].
  apply NoDup_cons in Hnd as [Hn Hnd]. specialize (IH Hnd).
  destruct (ours !! n); [|done]. destruct (mutual_match _ wv); [|done].
  constructor; [|done]. intros ([n' wv'] & Hin & Hm)%list_elem_of_omap.
  apply Hn. destruct (ours !! n'); [|done]. destruct (mutual_match _ wv'); simplify_eq.
  by apply (list_elem_of_fmap_2 fst) in Hin.
Qed.

(** The protocols two nodes share, as the one and as the other computes them. *)
Lemma intersection_sym (a b : HandshakeParams) :
  intersection (hp_protocols a) (vm_protocols (ver_msg b)) ≡ₚ
  intersection (hp_protocols b) (vm_protocols (ver_msg a)).
Proof.
  apply NoDup_Permutation; [apply intersection_nodup..|]. intros name.
  rewrite !intersection_elem. simpl. setoid_rewrite lookup_fmap_Some. split.
  - intros (m & wv & Ha & (m' & <- & Hb) & Hm). exists m', (WireVersion_from (meta_version m)).
    rewrite mutual_match_sym. eauto.
  - intros (m & wv & Ha & (m' & <- & Hb) & Hm). exists m', (WireVersion_from (meta_version m)).
    rewrite mutual_match_sym. eauto.
Qed.

(** What a node demands of the other node. *)
Definition compatible (p q : HandshakeParams) : Prop :=
  version_match (req (config_version p)) (ver (config_version q)) = true ∧
  version_match (req (config_version q)) (ver (config_version p)) = true ∧
  (∀ vpid, verified_peer_id p = Some vpid → vpid = own_id q) ∧
  intersection (hp_protocols p) (vm_protocols (ver_msg q)) ≠ [] ∧
  (∀ id m, hp_protocols p !! id = Some m →
    ProtocolFlags.contains (meta_flags m) ProtocolFlags.REQUIRED = true →
    id ∈ intersection (hp_protocols p) (vm_protocols (ver_msg q))).

(** The check of required protocols. *)
Lemma required_check (protos : gmap ProtocolID ProtocolMeta) (shared : NegotiatedProtocols) :
  existsb (λ '(id, meta),
    ProtocolFlags.contains (meta_flags meta) ProtocolFlags.REQUIRED &&
    negb (bool_decide (id ∈ shared))) (map_to_list protos) = false ↔
  ∀ id m, protos !! id = Some m →
    ProtocolFlags.contains (meta_flags m) ProtocolFlags.REQUIRED = true → id ∈ shared.
Proof.
  rewrite <-not_true_iff_false, existsb_exists. split.
  - intros Hno id m Hm Hreq. destruct (decide (id ∈ shared)) as [|Hnin]; [done|].
    destruct Hno. exists (id, m). split; [by apply list_elem_of_In, elem_of_map_to_list|].
    rewrite Hreq. simpl. by apply negb_true_iff, bool_decide_eq_false.
  - intros Hall ([id m] & Hin & [Hreq Hnin]%andb_true_iff).
    apply list_elem_of_In, elem_of_map_to_list in Hin.
    apply negb_true_iff, bool_decide_eq_false in Hnin. eauto.
Qed.

(** A successful check of a version message, for any payload. *)
Lemma validate_Ok msg p pid shared :
  validate msg p = Ok (pid, shared) ↔
  ∃ vm n, decode (T := VerMsg) (payload msg) = Ok (vm, n) ∧
    mutual_match (config_version p) (vm_version vm) = true ∧
    (∀ vpid, verified_peer_id p = Some vpid → vpid = vm_peer_id vm) ∧
    shared = intersection (hp_protocols p) (vm_protocols vm) ∧ shared ≠ [] ∧
    (∀ id m, hp_protocols p !! id = Some m →
      ProtocolFlags.contains (meta_flags m) ProtocolFlags.REQUIRED = true → id ∈ shared) ∧
    pid = vm_peer_id vm.
Proof.
  unfold validate_version_msg. destruct (decode (payload msg)) as [[vm n]|e]; simpl;
    [|split; [done|naive_solver]].
  setoid_rewrite <-required_check.
  assert ((∀ vpid, verified_peer_id p = Some vpid → vpid = vm_peer_id vm) ↔
    id_mismatch p (vm_peer_id vm) = false) as Hvp.
  { unfold id_mismatch. destruct (verified_peer_id p) as [x|]; [|done].
    rewrite negb_false_iff, bool_decide_eq_true. naive_solver. }
  split.
  - destruct (mutual_match _ _) eqn:Hm; simpl; [|done].
    destruct (id_mismatch _ _) eqn:Hv; [done|].
    case_bool_decide as Hs; [done|]. destruct (existsb _ _) eqn:Hr; [done|].
    intros [= <- <-]. exists vm, n. split_and!; try done. by apply Hvp.
  - intros (vm' & n' & [= <- <-] & -> & Hv%Hvp & Hs & Hne & Hr & ->). simpl.
    rewrite Hv. subst shared. rewrite bool_decide_eq_false_2 by done. by rewrite Hr.
Qed.

(** The answers a check can give when the payload decodes. *)
Lemma validate_Err msg p vm n :
  decode (T := VerMsg) (payload msg) = Ok (vm, n) →
  (∃ x, validate msg p = Ok x) ∨
  (∃ s, validate msg p = Err (IncompatibleVersion s)) ∨
  validate msg p = Err IncompatiblePeer.
Proof.
  intros Hd. unfold validate_version_msg. rewrite Hd. simpl. repeat case_match; eauto.
Qed.

Lemma validate_verack_Ok msg pid :
  validate_verack_msg msg pid = Ok () ↔
  ∃ n, decode (T := VerAckMsg) (payload msg) = Ok (mkVerAckMsg pid true, n).
Proof.
  unfold validate_verack_msg. destruct (decode (payload msg)) as [[[id ack] n]|e]; simpl;
    [|split; [done|naive_solver]].
  split.
  - destruct ack; simpl; [|done]. case_bool_decide as Hid; simpl; [|done]. subst. by eauto.
  - intros [? ?]. simplify_eq. simpl. by rewrite bool_decide_eq_true_2.
Qed.

Lemma send_vermsg_inbox p w a w' :
  send_vermsg p w = (Ready (Ok a), w') → inbox w' = inbox w.
Proof. unfold send_vermsg. intros. inv_session. by subst. Qed.

Lemma send_verack_inbox id ack w a w' :
  send_verack id ack w = (Ready (Ok a), w') → inbox w' = inbox w.
Proof. unfold send_verack. intros. inv_session. by subst. Qed.

(** The two messages a successful handshake consumed. *)
Lemma handshake_Ok p w pid shared w' :
  handshake p w = (Ready (Ok (pid, shared)), w') →
  ∃ m1 m2 rest, inbox w = Ok m1 :: Ok m2 :: rest ∧
    command (header m1) = CmdVersion ∧ validate m1 p = Ok (pid, shared) ∧
    command (header m2) = CmdVerack ∧ validate_verack_msg m2 pid = Ok ().
Proof.
  unfold Handshake.handshake. intros H3.
  apply session_bind_Ok in H3 as (u1 & w1 & Hs%send_vermsg_inbox & H3).
  apply session_bind_Ok in H3 as (m1 & w2 & (rest & Hin & ->)%recv_Ok & H3).
  apply session_bind_Ok in H3 as (u2 & w3 & Hack & H3).
  apply session_bind_Ok in H3 as ([pid' sh] & w4 & [Hval ->]%lift_Ok & H3).
  destruct (command (header m1)) eqn:Hc1; try done. rewrite Hval in Hack.
  apply send_verack_inbox in Hack. simpl in Hack.
  apply session_bind_Ok in H3 as (m2 & w4 & (rest' & Hin' & ->)%recv_Ok & H3).
  apply session_bind_Ok in H3 as ([] & w5 & Hv & [= -> -> _]).
  destruct (command (header m2)) eqn:Hc2; try done. apply lift_Ok in Hv as [Hv _].
  exists m1, m2, rest'. split_and!; [congruence|done..].
Qed.

(** C11: A handshake never lets a wrong peer in.  Whatever the other side sends
    and however the connection fails, success means: the first message was a
    version message whose version and the node's accept each other, the identity
    returned is the one claimed there and, over an authenticated transport, the
    authenticated one; the protocols returned are those both sides accept, not
    empty, with all protocols the node requires; and the peer acknowledged. *)
Theorem handshake_sound p w pid shared w' :
  handshake p w = (Ready (Ok (pid, shared)), w') →
  ∃ m1 m2 rest vm n n', inbox w = Ok m1 :: Ok m2 :: rest ∧
    command (header m1) = CmdVersion ∧ decode (payload m1) = Ok (vm, n) ∧
    mutual_match (config_version p) (vm_version vm) = true ∧
    vm_peer_id vm = pid ∧
    (∀ vpid, verified_peer_id p = Some vpid → vpid = pid) ∧
    shared ≠ [] ∧
    (∀ name, name ∈ shared ↔ ∃ m wv, hp_protocols p !! name = Some m ∧
      vm_protocols vm !! name = Some wv ∧ mutual_match (meta_version m) wv = true) ∧
    (∀ id m, hp_protocols p !! id = Some m →
      ProtocolFlags.contains (meta_flags m) ProtocolFlags.REQUIRED = true → id ∈ shared) ∧
    command (header m2) = CmdVerack ∧ decode (payload m2) = Ok (mkVerAckMsg pid true, n').
Proof.
  intros (m1 & m2 & rest & Hin & Hc1 & Hval & Hc2 & Hack)%handshake_Ok.
  apply validate_Ok in Hval as (vm & n & Hd & Hm & Hv & -> & Hne & Hreq & ->).
  apply validate_verack_Ok in Hack as [n' Hd'].
  exists m1, m2, rest, vm, n, n'. split_and!; try done.
  intros name. apply intersection_elem.
Qed.

(** ** Two honest nodes *)

Context (wf_ver : VerMsg → Prop) (wf_ack : VerAckMsg → Prop).
Context `{!BincodeLaws VerMsg wf_ver} `{!BincodeLaws VerAckMsg wf_ack}.

(** A node whose own messages can be serialized. *)
Definition sendable (p : HandshakeParams) : Prop :=
  wf_ver (ver_msg p) ∧ ∀ ack, wf_ack (mkVerAckMsg (own_id p) ack).

Lemma PeerNetMsg_new_Ok {T} `{Bincode T} {wf : T → Prop} `{!BincodeLaws T wf} cmd x :
  wf x → ∃ m n, PeerNetMsg_new cmd x = Ok m ∧ command (header m) = cmd ∧
    decode (payload m) = Ok (x, n).
Proof.
  intros Hx. destruct (encode_decode x Hx) as (bs & He & Hd).
  exists (mkPeerNetMsg (mkHeader cmd) bs), (Codec.len bs).
  unfold PeerNetMsg_new. by rewrite He.
Qed.

(** What a node makes of the version message of another. *)
Lemma validate_honest p q m n :
  command (header m) = CmdVersion → decode (payload m) = Ok (ver_msg q, n) →
  match validate m p with
  | Ok (pid, shared) => compatible p q ∧ pid = own_id q ∧
      shared = intersection (hp_protocols p) (vm_protocols (ver_msg q))
  | Err (IncompatibleVersion _) | Err IncompatiblePeer => ¬ compatible p q
  | Err _ => False
  end.
Proof.
  intros Hc Hd.
  assert (compatible p q ↔ ∃ x, validate m p = Ok x) as Hiff.
  { unfold compatible. rewrite (and_assoc (_ = true)).
    assert (version_match (req (config_version p)) (ver (config_version q)) = true ∧
      version_match (req (config_version q)) (ver (config_version p)) = true ↔
      mutual_match (config_version p) (vm_version (ver_msg q)) = true) as ->
      by (simpl; rewrite mutual_match_spec; by rewrite andb_true_iff).
    split.
    - intros (Hm & Hv & Hne & Hreq). eexists (_, _). apply validate_Ok. eauto 10.
    - intros [[pid sh] (vm & n' & Hd' & Hm & Hv & -> & Hne & Hreq & ->)%validate_Ok].
      rewrite Hd in Hd'. simplify_eq. done. }
  destruct (validate_Err m p _ _ Hd) as [[[pid sh] Hok]|[[s Herr]|Herr]].
  - rewrite Hok. pose proof (proj2 Hiff (ex_intro _ _ Hok)).
    apply validate_Ok in Hok as (vm & n' & Hd' & _ & _ & -> & _ & _ & ->).
    rewrite Hd in Hd'. by simplify_eq.
  - rewrite Herr. rewrite Hiff. intros [? ?]. congruence.
  - rewrite Herr. rewrite Hiff. intros [? ?]. congruence.
Qed.

(** A node finds the other compatible exactly when its check passes. *)
Lemma verdict_compatible p q m n :
  command (header m) = CmdVersion → decode (payload m) = Ok (ver_msg q, n) →
  is_ok (validate m p) = true ↔ compatible p q.
Proof.
  intros Hc Hd. pose proof (validate_honest p q m n Hc Hd) as Hval.
  destruct (validate m p) as [[]|[]]; simpl; naive_solver.
Qed.

(** One side of an honest run, given the messages of the other: it sends its
    version and its verdict, and succeeds when both verdicts are good. *)
Lemma handshake_side p q mvp mvq map_ maq kq n ackq :
  PeerNetMsg_new CmdVersion (ver_msg p) = Ok mvp →
  command (header mvq) = CmdVersion → decode (payload mvq) = Ok (ver_msg q, kq) →
  PeerNetMsg_new CmdVerack (mkVerAckMsg (own_id p) (is_ok (validate mvq p))) = Ok map_ →
  command (header maq) = CmdVerack → decode (payload maq) = Ok (mkVerAckMsg (own_id q) ackq, n) →
  ∃ r w, handshake p (good_wire 2 [mvq; maq]) = (Ready r, w) ∧ outbox w = [mvp; map_] ∧
    is_ok r = is_ok (validate mvq p) && ackq ∧
    (∀ pid shared, r = Ok (pid, shared) → pid = own_id q ∧
      shared = intersection (hp_protocols p) (vm_protocols (ver_msg q))).
Proof.
  intros Hmv Hc1 Hd1 Hma Hc2 Hd2.
  pose proof (validate_honest p q mvq kq Hc1 Hd1) as Hval. revert Hma.
  unfold Handshake.handshake, send_vermsg, send_verack.
  unfold mbind, session_bind, lift, send, recv, good_wire, mret, session_ret. simpl.
  rewrite Hmv. simpl. rewrite Hc1.
  destruct (validate mvq p) as [[pid sh]|e]; simpl; intros Hma.
  - rewrite Hma. simpl. rewrite Hc2. unfold validate_verack_msg. rewrite Hd2. simpl.
    destruct Hval as (Hcomp & -> & ->). rewrite bool_decide_eq_true_2 by done.
    destruct ackq; simpl; do 2 eexists; (split; [reflexivity|]); naive_solver.
  - destruct e; try done; rewrite Hma; simpl; do 2 eexists; (split; [reflexivity|]); naive_solver.
Qed.

(** C4: Two honest nodes always come to the same conclusion.  Over a connection
    that delivers what the other side sends, both handshakes finish; they
    succeed together or fail together, and they succeed exactly when each node
    finds the other compatible; then each learns the other's identity and both
    hold the same negotiated protocols. *)
Theorem handshake_agreement a b :
  sendable a → sendable b →
  ∃ sa sb ra rb wa wb,
    handshake a (good_wire 2 sb) = (Ready ra, wa) ∧ outbox wa = sa ∧
    handshake b (good_wire 2 sa) = (Ready rb, wb) ∧ outbox wb = sb ∧
    is_ok ra = is_ok rb ∧
    (is_ok ra = true ↔ compatible a b ∧ compatible b a) ∧
    (∀ pid shared, ra = Ok (pid, shared) →
      pid = own_id b ∧ ∃ shared', rb = Ok (own_id a, shared') ∧ shared ≡ₚ shared').
Proof.
  intros Ha Hb.
  destruct (PeerNetMsg_new_Ok CmdVersion _ (proj1 Ha)) as (va & ka & Hva & Hcva & Hdva).
  destruct (PeerNetMsg_new_Ok CmdVersion _ (proj1 Hb)) as (vb & kb & Hvb & Hcvb & Hdvb).
  destruct (PeerNetMsg_new_Ok CmdVerack _ (proj2 Ha (is_ok (validate vb a))))
    as (aa & la & Haa & Hcaa & Hdaa).
  destruct (PeerNetMsg_new_Ok CmdVerack _ (proj2 Hb (is_ok (validate va b))))
    as (ab & lb & Hab & Hcab & Hdab).
  destruct (handshake_side a b va vb aa ab kb lb _ Hva Hcvb Hdvb Haa Hcab Hdab)
    as (ra & wa & Hra & Hoa & Hoka & Hresa).
  destruct (handshake_side b a vb va ab aa ka la _ Hvb Hcva Hdva Hab Hcaa Hdaa)
    as (rb & wb & Hrb & Hob & Hokb & Hresb).
  exists [va; aa], [vb; ab], ra, rb, wa, wb.
  assert (is_ok ra = is_ok rb) as Heq by (rewrite Hoka, Hokb; apply andb_comm).
  split_and!; [done..| |].
  - rewrite Hoka, andb_true_iff.
    by rewrite (verdict_compatible a b vb kb), (verdict_compatible b a va ka).
  - intros pid shared ->. destruct (Hresa pid shared eq_refl) as [-> ->]. split; [done|].
    destruct rb as [[pid' shared']|]; [|done].
    destruct (Hresb pid' shared' eq_refl) as [-> ->]. eexists. split; [done|].
    apply intersection_sym.
Qed.

End theorems.

(** ** Witnesses *)

#[global] Instance WireVersion_eq_dec : EqDecision WireVersion.
Proof. solve_decision. Defined.
#[global] Instance WireVersion_countable : Countable WireVersion.
Proof.
  refine (inj_countable' (λ x, (wv x, wreq x)) (λ x, mkWireVersion x.1 x.2) _). by intros [].
Defined.
#[global] Instance VerMsg_eq_dec : EqDecision VerMsg.
Proof. solve_decision. Defined.
#[global] Instance VerMsg_countable : Countable VerMsg.
Proof.
  refine (inj_countable' (λ x, (vm_peer_id x, vm_version x, vm_protocols x))
    (λ x, mkVerMsg x.1.1 x.1.2 x.2) _). by intros [].
Defined.
#[global] Instance VerAckMsg_eq_dec : EqDecision VerAckMsg.
Proof. solve_decision. Defined.
#[global] Instance VerAckMsg_countable : Countable VerAckMsg.
Proof.
  refine (inj_countable' (λ x, (va_peer_id x, va_ack x)) (λ x, mkVerAckMsg x.1 x.2) _).
  by intros [].
Defined.

Section witnesses.

(** The requirement that accepts every version. *)
#[local] Instance any_semver : Semver := {|
  VersionReq := ();
  parse_req s := if decide (s = "*") then Some () else None;
  print_req _ := "*";
  req_matches _ _ _ _ := true;
|}.

#[local] Instance any_semver_laws : SemverLaws.
Proof. intros []. by exists tt. Qed.

#[local] Instance vermsg_bincode : Bincode VerMsg := countable_bincode VerMsg.
#[local] Instance verack_bincode : Bincode VerAckMsg := countable_bincode VerAckMsg.
#[local] Instance vermsg_laws wf : BincodeLaws VerMsg wf := countable_bincode_laws VerMsg wf.
#[local] Instance verack_laws wf : BincodeLaws VerAckMsg wf :=
  countable_bincode_laws VerAckMsg wf.

Definition any_version : Version := mkVersion _ (mkVersionInt 1 0 0) ().

Definition node (id : Z) (vpid : option PeerID) : HandshakeParams :=
  mkParams (mkPeerID [id]) any_version
    {[ "PING" := mkProtocolMeta any_version ProtocolFlags.REQUIRED ]} 2 vpid.

Lemma handshake_agreement_witness :
  ∃ sa sb ra rb wa wb,
    handshake map_to_list (node 1 None) (good_wire 2 sb) = (Ready ra, wa) ∧ outbox wa = sa ∧
    handshake map_to_list (node 2 (Some (mkPeerID [1]))) (good_wire 2 sa) = (Ready rb, wb) ∧
    outbox wb = sb ∧ is_ok ra = is_ok rb.
Proof.
  destruct (handshake_agreement map_to_list (λ _, reflexivity _) (λ _, True) (λ _, True)
    (node 1 None) (node 2 (Some (mkPeerID [1])))) as (sa & sb & ra & rb & wa & wb & ? & ? & ? & ? & ? & _).
  - split; [done|]. by intros ?.
  - split; [done|]. by intros ?.
  - exists sa, sb, ra, rb, wa, wb. split_and!; assumption.
Defined.

Definition good_run : list PeerNetMsg :=
  match PeerNetMsg_new CmdVersion (ver_msg (node 2 None)),
    PeerNetMsg_new CmdVerack (mkVerAckMsg (mkPeerID [2]) true) with
  | Ok m1, Ok m2 => [m1; m2]
  | _, _ => []
  end.

Lemma handshake_sound_witness :
  ∃ pid shared w', handshake map_to_list (node 1 None) (good_wire 2 good_run) =
    (Ready (Ok (pid, shared)), w') ∧ shared ≠ [].
Proof.
  pose (w' := (handshake map_to_list (node 1 None) (good_wire 2 good_run)).2).
  assert (handshake map_to_list (node 1 None) (good_wire 2 good_run) =
    (Ready (Ok (mkPeerID [2], ["PING"])), w')) as Hh by (vm_compute; reflexivity).
  exists (mkPeerID [2]), ["PING"], w'. split; [exact Hh|].
  destruct (handshake_sound map_to_list (λ _, reflexivity _) _ _ _ _ _ Hh)
    as (? & ? & ? & ? & ? & ? & ? & ? & ? & ? & ? & ? & Hne & _).
  exact Hne.
Defined.

End witnesses.
