(* ===== verification/Config.v ===== *)
(** * Node configuration, access policy and monitor events

    Models [p2p/src/config.rs], [p2p/src/access_control.rs],
    [p2p/src/conn_direction.rs], the event types of [p2p/src/monitor/event.rs]
    and the discovery interface of [p2p/src/discovery/mod.rs]. *)

From S2P Require Import Prelude Endpoint Message Version.

Local Open Scope Z_scope.

Inductive ConnDirection := Inbound | Outbound.

#[global] Instance ConnDirection_eq_dec : EqDecision ConnDirection.
Proof. solve_decision. Defined.

(** ** Access control *)

Record PeerCandidate := mkCandidate {
  cand_peer_id : PeerID;
  cand_remote_endpoint : Endpoint;
  cand_negotiated_protocols : list ProtocolID;
}.

Inductive Subject :=
| SubjectEndpoint (e : Endpoint)
| SubjectPeer (c : PeerCandidate).

Inductive Action :=
| ActConnect (d : ConnDirection)
| ActLookup (d : ConnDirection)
| ActProbe (d : ConnDirection).

(** A policy supplied by the application. *)
Definition AccessControl := Subject → Action → bool.

Definition AllowAll : AccessControl := λ _ _, true.

(** ** Configuration *)

Module Config.
Section defs.
Context `{Semver}.

Record t := mk {
  version : Version;
  enable_monitor : bool;
  access_control : AccessControl;
  handshake_timeout : Z;
  ping_interval : Z;
  ping_timeout : Z;
  max_connect_retries : nat;
  bootstrap_peers : list Endpoint;
  listen_endpoints : list Endpoint;
  discovery_endpoints : list Endpoint;
  dial_peers : list Endpoint;
  public_ip : option IpAddr;
  inbound_slots : nat;
  outbound_slots : nat;
  seeding_interval : Z;
  lookup_inbound_slots : nat;
  lookup_outbound_slots : nat;
  lookup_response_timeout : Z;
  lookup_connection_lifespan : Z;
  lookup_connect_retries : nat;
  refresh_interval : Z;
  refresh_response_timeout : Z;
  refresh_connect_retries : nat;
}.

(** The default for a given version. *)
Definition default_with (v : Version) : t := {|
  version := v;
  enable_monitor := false;
  access_control := AllowAll;
  handshake_timeout := 4;
  ping_interval := 20;
  ping_timeout := 2;
  max_connect_retries := 3;
  bootstrap_peers := [];
  listen_endpoints := [];
  discovery_endpoints := [];
  dial_peers := [];
  public_ip := None;
  inbound_slots := 12;
  outbound_slots := 12;
  seeding_interval := 60;
  lookup_inbound_slots := 20;
  lookup_outbound_slots := 20;
  lookup_response_timeout := 1;
  lookup_connection_lifespan := 3;
  lookup_connect_retries := 3;
  refresh_interval := 1800;
  refresh_response_timeout := 1;
  refresh_connect_retries := 3;
|}.

(** [Default]; an [Err] is the panic of its [unwrap]. *)
Definition default : result p2p_error t :=
  v ← Version_from_str "0.2.0"; Ok (default_with v).

End defs.
End Config.

(** ** Monitor events *)

Inductive ConnectionKind :=
| ConnConnected (e : Endpoint)
| ConnConnectRetried (e : Endpoint)
| ConnConnectFailed (e : Endpoint)
| ConnAccepted (e : Endpoint)
| ConnAcceptFailed
| ConnDisconnected (e : Endpoint)
| ConnListening (e : Endpoint)
| ConnListenFailed (e : Endpoint).

Inductive PoolEvent :=
| PoolNewPeer (p : PeerID)
| PoolRemovePeer (p : PeerID)
| PoolHandshakeFailed (p : option PeerID)
| PoolConnectFailed (p : option PeerID) (e : Endpoint)
| PoolPeerAlreadyConnected (p : PeerID).

Inductive DiscoveryKind :=
| DiscLookupStarted (e : Endpoint)
| DiscLookupFailed (e : Endpoint)
| DiscLookupSucceeded (e : Endpoint) (n : nat)
| DiscRefreshStarted
| DiscRefreshSucceeded (n : nat)
| DiscRefreshFailed
| DiscEntryEvicted (p : PeerID).

#[global] Instance PoolEvent_eq_dec : EqDecision PoolEvent.
Proof. solve_decision. Defined.
#[global] Instance DiscoveryKind_eq_dec : EqDecision DiscoveryKind.
Proof. solve_decision. Defined.

(** ** Discovery *)

Record DiscoveredPeer := mkDiscovered {
  dp_peer_id : option PeerID;
  dp_addrs : list PeerAddr;
  dp_discovery_addrs : list PeerAddr;
}.

#[global] Instance DiscoveredPeer_eq_dec : EqDecision DiscoveredPeer.
Proof. solve_decision. Defined.

Inductive PeerConnectionEvent :=
| EvConnected (p : PeerID)
| EvDisconnected (p : PeerID)
| EvConnectFailed (p : option PeerID).
