(* ===== verification/KadMessages.v ===== *)
(** * Messages of the Kademlia planes

    Models [p2p/src/discovery/kademlia/messages.rs] and the conversions between
    routing-table entries and peer messages of
    [p2p/src/discovery/kademlia/routing_table/entry.rs]. *)

From S2P Require Import Prelude Codec Endpoint Framed Message Bloom RoutingTable Version.

Local Open Scope Z_scope.

(** ** The lookup plane *)

Inductive KadNetCmd := KadPing | KadPong | KadFindPeer | KadPeer | KadPeers | KadShutdown.

#[global] Instance KadNetCmd_eq_dec : EqDecision KadNetCmd.
Proof. solve_decision. Defined.

Record KadNetMsgHeader := mkKadHeader { kad_command : KadNetCmd }.

Record KadNetMsg := mkKadNetMsg {
  kad_header : KadNetMsgHeader;
  kad_payload : list Z;
}.

Definition KadNetMsg_new {T} `{Bincode T} (cmd : KadNetCmd) (t : T) :
    result p2p_error KadNetMsg :=
  p ← encode t; Ok (mkKadNetMsg (mkKadHeader cmd) p).

Record PingMsg := mkPingMsg { ping_nonce : list Z; ping_version : VersionInt }.
Record PongMsg := mkPongMsg { pong_nonce : list Z }.
Record FindPeerMsg := mkFindPeerMsg { find_target : PeerID }.

Record PeerMsg := mkPeerMsg {
  pm_peer_id : PeerID;
  pm_addrs : list PeerAddr;
  pm_discovery_addrs : list PeerAddr;
  pm_protocols : Bloom;
}.

#[global] Instance PeerMsg_eq_dec : EqDecision PeerMsg.
Proof. solve_decision. Defined.

Record PeersMsg := mkPeersMsg { peers : list PeerMsg }.

(** ** The refresh plane *)

Inductive RefreshMsg :=
| RefreshPing (nonce : list Z)
| RefreshPong (nonce : list Z).

(** ** Entries and peer messages *)

Definition PeerMsg_from (e : Entry) : PeerMsg :=
  mkPeerMsg (mkPeerID (key e)) (addrs e) (discovery_addrs e) (protocols e).

Definition Entry_from (p : PeerMsg) : Entry :=
  mkEntry (id_bytes (pm_peer_id p)) (pm_addrs p) (pm_discovery_addrs p) (pm_protocols p).

Lemma Entry_from_PeerMsg_from e : Entry_from (PeerMsg_from e) = e.
Proof. by destruct e. Qed.

Lemma PeerMsg_from_Entry_from p : PeerMsg_from (Entry_from p) = p.
Proof. by destruct p as [[] ? ? ?]. Qed.

(** A message whose identifier is a [[u8; 32]]. *)
Definition PeerMsg_wf (p : PeerMsg) : Prop := id_wf (pm_peer_id p).

#[global] Instance PeerMsg_wf_dec p : Decision (PeerMsg_wf p).
Proof. unfold PeerMsg_wf, id_wf, is_bytes. apply _. Defined.

Lemma Entry_from_key_wf p : PeerMsg_wf p → key_wf (key (Entry_from p)).
Proof. done. Qed.

(** bincode decodes into values of the Rust type only: [wf] is the part of the
    type's invariant the model's type leaves out. *)
Class BincodeTyped (T : Type) `{Bincode T} (wf : T → Prop) : Prop :=
  bincode_typed bs x n : decode_from_slice bs = Some (x, n) → wf x.

Lemma decode_typed {T} `{Bincode T, !BincodeTyped T wf} bs x n :
  decode (T := T) bs = Ok (x, n) → wf x.
Proof.
  unfold decode. destruct (decode_from_slice bs) as [[y m]|] eqn:Hd; simpl; [|done].
  intros [= -> ->]. by eapply bincode_typed.
Qed.

(** The payloads of the lookup protocol. *)
Class KadBincode := {
  kad_ping_bincode :: Bincode PingMsg;
  kad_pong_bincode :: Bincode PongMsg;
  kad_find_bincode :: Bincode FindPeerMsg;
  kad_peer_bincode :: Bincode PeerMsg;
  kad_peers_bincode :: Bincode PeersMsg;
  kad_shutdown_bincode :: Bincode ShutdownMsg;
}.

(** ** The codec of the lookup plane *)

Module KadNetMsgCodec.
Section defs.
Context `{BincodeU32} `{Bincode KadNetMsg}.

Record t := { inner_codec : LengthCodec.t }.

Definition new : t := {| inner_codec := LengthCodec.default |}.

Definition encode (c : t) (src : KadNetMsg) (dst : Buffer) : result net_error Z * Buffer :=
  match map_err (λ _, IO OtherIo) (Message.encode src) with
  | Err e => (Err e, dst)
  | Ok src => LengthCodec.encode (inner_codec c) src dst
  end.

Definition decode (c : t) (src : Buffer) : result net_error (option (Z * KadNetMsg)) :=
  d ← LengthCodec.decode (inner_codec c) src;
  match d with
  | Some (n, s) =>
      '(m, _) ← map_err (λ _, IO OtherIo) (Message.decode s);
      Ok (Some (n, m))
  | None => Ok None
  end.

#[global] Instance codec : Codec t KadNetMsg net_error :=
  {| Codec.encode := encode; Codec.decode := decode |}.

Definition as_msg_codec (c : t) : MsgCodec.t := {| MsgCodec.inner_codec := inner_codec c |}.

(** It is the data plane's codec at another message type. *)
Lemma encode_msg_codec c src dst : encode c src dst = MsgCodec.encode (as_msg_codec c) src dst.
Proof.
  unfold encode, MsgCodec.encode, Message.encode. by destruct (encode_to_vec src).
Qed.

Lemma decode_msg_codec c src :
  decode c src = MsgCodec.decode (M := KadNetMsg) (as_msg_codec c) src.
Proof.
  unfold decode, MsgCodec.decode, Message.decode. simpl.
  destruct (LengthCodec.decode _ _) as [[[n s]|]|e]; simpl; [|done..].
  by destruct (decode_from_slice s) as [[m k]|].
Qed.

(** So it is a framing, and the channel theorems of framed connections hold for
    the lookup plane. *)
#[global] Instance kad_codec_framing `{!BincodeU32Laws, !BincodeLaws KadNetMsg wf} c :
  Framing c (MsgCodec.valid wf (as_msg_codec c)) (MsgCodec.frame (M := KadNetMsg)).
Proof.
  destruct (msg_codec_framing (as_msg_codec c)) as [Fe Fn Fd Fp]. split; simpl in *.
  - intros. rewrite encode_msg_codec. by apply Fe.
  - done.
  - intros. rewrite decode_msg_codec. by apply Fd.
  - intros. rewrite decode_msg_codec. by eapply Fp.
Qed.

End defs.
End KadNetMsgCodec.

(** ** Serializers for concrete runs *)

#[global] Instance Protocol_countable : Countable Protocol.
Proof.
  refine (inj_countable' (λ p, match p with PTcp => 0 | PTls => 1 | PUdp => 2 | PQuic => 3 end)
    (λ x, if decide (x = 0) then PTcp else if decide (x = 1) then PTls
          else if decide (x = 2) then PUdp else PQuic) _). by intros [].
Defined.
#[global] Instance Addr_countable : Countable Addr.
Proof.
  refine (inj_countable' (λ a, match a with Ip i => inl i | Domain d => inr d end)
    (λ x, match x with inl i => Ip i | inr d => Domain d end) _). by intros [].
Defined.
#[global] Instance PeerAddr_countable : Countable PeerAddr.
Proof.
  refine (inj_countable' (λ a, (addr a, port a, protocol a, priority a))
    (λ x, mkPeerAddr x.1.1.1 x.1.1.2 x.1.2 x.2) _). by intros [].
Defined.
#[global] Instance Bloom_countable : Countable Bloom.
Proof. refine (inj_countable' bloom mkBloom _). by intros []. Defined.
#[global] Instance PeerMsg_countable : Countable PeerMsg.
Proof.
  refine (inj_countable' (λ p, (pm_peer_id p, pm_addrs p, pm_discovery_addrs p, pm_protocols p))
    (λ x, mkPeerMsg x.1.1.1 x.1.1.2 x.1.2 x.2) _). by intros [].
Defined.
#[global] Instance PeersMsg_eq_dec : EqDecision PeersMsg.
Proof. solve_decision. Defined.
#[global] Instance PeersMsg_countable : Countable PeersMsg.
Proof. refine (inj_countable' peers mkPeersMsg _). by intros []. Defined.
#[global] Instance PingMsg_eq_dec : EqDecision PingMsg.
Proof. solve_decision. Defined.
#[global] Instance PingMsg_countable : Countable PingMsg.
Proof.
  refine (inj_countable' (λ p, (ping_nonce p, ping_version p)) (λ x, mkPingMsg x.1 x.2) _).
  by intros [].
Defined.
#[global] Instance PongMsg_eq_dec : EqDecision PongMsg.
Proof. solve_decision. Defined.
#[global] Instance PongMsg_countable : Countable PongMsg.
Proof. refine (inj_countable' pong_nonce mkPongMsg _). by intros []. Defined.
#[global] Instance FindPeerMsg_eq_dec : EqDecision FindPeerMsg.
Proof. solve_decision. Defined.
#[global] Instance FindPeerMsg_countable : Countable FindPeerMsg.
Proof. refine (inj_countable' find_target mkFindPeerMsg _). by intros []. Defined.
#[global] Instance ShutdownMsg_eq_dec : EqDecision ShutdownMsg.
Proof. solve_decision. Defined.
#[global] Instance ShutdownMsg_countable : Countable ShutdownMsg.
Proof. refine (inj_countable' shutdown_code mkShutdownMsg _). by intros []. Defined.
#[global] Instance RefreshMsg_eq_dec : EqDecision RefreshMsg.
Proof. solve_decision. Defined.
#[global] Instance RefreshMsg_countable : Countable RefreshMsg.
Proof.
  refine (inj_countable' (λ m, match m with RefreshPing n => inl n | RefreshPong n => inr n end)
    (λ x, match x with inl n => RefreshPing n | inr n => RefreshPong n end) _). by intros [].
Defined.

(** A serializer that only decodes values of the type's invariant. *)
Definition typed_bincode (T : Type) `{Countable T} (wf : T → Prop) `{∀ x, Decision (wf x)} :
    Bincode T := {|
  encode_to_vec := @encode_to_vec T (countable_bincode T);
  decode_from_slice bs :=
    match @decode_from_slice T (countable_bincode T) bs with
    | Some (x, n) => if decide (wf x) then Some (x, n) else None
    | None => None
    end;
|}.

Lemma typed_bincode_laws T `{Countable T} (wf : T → Prop) `{∀ x, Decision (wf x)} :
  @BincodeLaws T (typed_bincode T wf) wf ∧ @BincodeTyped T (typed_bincode T wf) wf.
Proof.
  split.
  - intros x Hx. destruct (countable_bincode_laws T wf x Hx) as (bs & He & Hd).
    exists bs. split; [done|]. simpl in *. rewrite Hd. by rewrite decide_True.
  - intros bs x n. simpl. destruct (countable.decode _) as [y|]; simpl; [|done].
    case_decide; naive_solver.
Qed.
