(* ===== verification/Lookup.v ===== *)
(** * The Kademlia lookup service

    Models [p2p/src/discovery/kademlia/lookup.rs].  A lookup connection is a
    [session] over [KadNetMsg]; timeouts and transport errors of a receive are
    errors in its inbox.  The routing table is shared with the other tasks of
    the node: at every point where a call waits, [others] is what they did to
    the table meanwhile.  Dialing, the random source, the order in which peers
    are sampled and the order in which concurrent queries complete are
    arguments.

    What the monitor hears is in [lookup_events] and [connect_events]; the
    events of the dialing itself are those of [Connector]. *)

From S2P Require Import Prelude Codec Endpoint Framed Message Bloom RoutingTable.
From S2P Require Import RoutingTableSpec RoutingTableQueries Version Session Config KadMessages.

Local Open Scope Z_scope.

Definition MAX_PEERS_IN_PEERSMSG : nat := 10.
Definition MAX_ADDRS_PER_PEER : nat := 4.
Definition MAX_DISCOVERY_ADDRS_PER_PEER : nat := 3.

(** With the [quic] feature. *)
Definition SUPPORTED_LOOKUP_PROTOCOLS : list Protocol := [PTcp; PQuic].

Record LookupEndpoints := mkLookupEndpoints {
  listen : list Endpoint;
  lookup_ep : option Endpoint;
  refresh_ep : option Endpoint;
}.

(** The service without the handles it shares: the table and the bloom filter
    are arguments of the calls that use them. *)
Record LookupService `{Semver} := mkLookupService {
  ls_id : PeerID;
  ls_endpoints : LookupEndpoints;
  ls_config : Config.t;
}.

(** [IpAddr::is_ipv4]. *)
Definition is_ipv4 (a : IpAddr) : bool := match a with V4 _ => true | V6 _ => false end.

Definition advertised_addr (ep : Endpoint) (public_ip : option IpAddr) : option PeerAddr :=
  pa ← from_endpoint ep 0;
  match public_ip, addr pa with
  | Some public, Ip a =>
      if Bool.eqb (is_ipv4 public) (is_ipv4 a)
      then Some (mkPeerAddr (Ip public) (port pa) (protocol pa) (priority pa))
      else Some pa
  | _, _ => Some pa
  end.

(** True if the peer advertises at least one address. *)
Definition peer_reachable (p : PeerMsg) : bool :=
  negb (bool_decide (pm_addrs p = [])) || negb (bool_decide (pm_discovery_addrs p = [])).

(** The source updates the message in place; the result is the updated one. *)
Definition validate_peer_msg (p : PeerMsg) : result p2p_error PeerMsg :=
  if (MAX_ADDRS_PER_PEER <? length (pm_addrs p))%nat
  then Err (InvalidMsg "PeerMsg.addrs has too many entries")
  else
    let p := mkPeerMsg (pm_peer_id p) (pm_addrs p)
      (filter (λ a, protocol a ≠ PTls) (pm_discovery_addrs p)) (pm_protocols p) in
    if (MAX_DISCOVERY_ADDRS_PER_PEER <? length (pm_discovery_addrs p))%nat
    then Err (InvalidMsg "PeerMsg.discovery_addrs has too many entries")
    else Ok p.

(** [for p in &mut peers { validate_peer_msg(p)?; }]. *)
Fixpoint validate_peers (ps : list PeerMsg) : result p2p_error (list PeerMsg) :=
  match ps with
  | [] => Ok []
  | p :: ps => p ← validate_peer_msg p; ps ← validate_peers ps; Ok (p :: ps)
  end.

Section defs.
Context `{Semver}.
Context `{Bincode PingMsg} `{Bincode PongMsg} `{Bincode FindPeerMsg} `{Bincode PeerMsg}
  `{Bincode PeersMsg} `{Bincode ShutdownMsg}.
Context (svc : LookupService).

Abbreviation kad_session := (session KadNetMsg p2p_error).

(** ** Messages a service sends *)

Definition send_ping_msg (rnd : option (list Z)) : kad_session PingMsg :=
  nonce ← lift (ok_or rnd Rand);
  let ping_msg := mkPingMsg nonce (ver (Config.version (ls_config svc))) in
  m ← lift (KadNetMsg_new KadPing ping_msg);
  send m;;
  mret ping_msg.

Definition send_pong_msg (nonce : list Z) : kad_session () :=
  m ← lift (KadNetMsg_new KadPong (mkPongMsg nonce)); send m.

Definition send_findpeer_msg (peer_id : PeerID) : kad_session () :=
  m ← lift (KadNetMsg_new KadFindPeer (mkFindPeerMsg peer_id)); send m.

Definition send_peers_msg (t : RoutingTable) (peer_id : PeerID) : kad_session () :=
  let entries := RoutingTable.closest_entries t (id_bytes peer_id) MAX_PEERS_IN_PEERSMSG in
  m ← lift (KadNetMsg_new KadPeers (mkPeersMsg (map PeerMsg_from entries)));
  send m.

(** What the service says about itself. *)
Definition own_peer_msg (local : LocalBloom) : PeerMsg :=
  let public_ip := Config.public_ip (ls_config svc) in
  let eps := ls_endpoints svc in
  mkPeerMsg (ls_id svc)
    (omap (λ ep, advertised_addr ep public_ip) (listen eps))
    (omap (λ ep, advertised_addr ep public_ip)
      (option_list (lookup_ep eps) ++ option_list (refresh_ep eps)))
    (advertised (BloomRef.snapshot local)).

Definition send_peer_msg (local : LocalBloom) : kad_session () :=
  let peer_msg := own_peer_msg local in
  if negb (peer_reachable peer_msg) then mret ()
  else m ← lift (KadNetMsg_new KadPeer peer_msg); send m.

Definition send_shutdown_msg : kad_session () :=
  m ← lift (KadNetMsg_new KadShutdown (mkShutdownMsg 0)); send m.

(** ** Outbound connections *)

(** The receiving loop.  Every turn consumes one message, so a fuel above the
    number of messages is never the reason to stop. *)
Fixpoint outbound_loop (fuel : nat) (nonce : list Z) (target : PeerID) :
    kad_session (list PeerMsg) :=
  match fuel with
  | O => λ w, (Pending, w)
  | S fuel =>
      msg ← recv;
      match kad_command (kad_header msg) with
      | KadPong =>
          '(pong_msg, _) ← lift (decode (T := PongMsg) (kad_payload msg));
          if negb (bool_decide (nonce = pong_nonce pong_msg)) then throw InvalidPongMsg
          else send_findpeer_msg target;; outbound_loop fuel nonce target
      | KadPeers =>
          '(peers_msg, _) ← lift (decode (T := PeersMsg) (kad_payload msg));
          if (MAX_PEERS_IN_PEERSMSG <? length (peers peers_msg))%nat
          then throw (Lookup "Received too many peers in PeersMsg")
          else
            ps ← lift (validate_peers (peers peers_msg));
            mret (List.filter peer_reachable ps)
      | _ => throw (InvalidMsg "Unexpected msg")
      end
  end.

Definition handle_outbound (rnd : option (list Z)) (local : LocalBloom) (target : PeerID) :
    kad_session (list PeerMsg) :=
  ping_msg ← send_ping_msg rnd;
  ps ← (λ w, outbound_loop (S (length (inbox w))) (ping_nonce ping_msg) target w);
  send_peer_msg local;;
  send_shutdown_msg;;
  mret ps.

(** What the outside gives to one outbound connection. *)
Record dialing := mkDialing {
  dialed : result p2p_error (wire KadNetMsg p2p_error);
  dial_rnd : option (list Z);
  dial_local : LocalBloom;
}.

Definition connect (endpoint : Endpoint) (target : PeerID) (d : dialing) :
    task p2p_error (list PeerMsg) :=
  if negb (Config.access_control (ls_config svc) (SubjectEndpoint endpoint) (ActLookup Outbound))
  then Ready (Err AccessDenied)
  else
    w ← (Ready (dialed d) : task _ _);
    (handle_outbound (dial_rnd d) (dial_local d) target w).1.

(** ** Inbound connections *)

(** One message: [None] is the return on Shutdown, else the table it leaves. *)
Definition inbound_msg (now : Z) (t : RoutingTable) (msg : KadNetMsg) :
    kad_session (option RoutingTable) :=
  match kad_command (kad_header msg) with
  | KadShutdown => mret None
  | KadPing =>
      '(ping_msg, _) ← lift (decode (T := PingMsg) (kad_payload msg));
      if negb (version_match (req (Config.version (ls_config svc))) (ping_version ping_msg))
      then throw (IncompatibleVersion "system: {}")
      else send_pong_msg (ping_nonce ping_msg);; mret (Some t)
  | KadFindPeer =>
      '(findpeer_msg, _) ← lift (decode (T := FindPeerMsg) (kad_payload msg));
      send_peers_msg t (find_target findpeer_msg);; mret (Some t)
  | KadPeer =>
      '(peer, _) ← lift (decode (T := PeerMsg) (kad_payload msg));
      peer ← lift (validate_peer_msg peer);
      if negb (peer_reachable peer) then mret (Some t)
      else mret (Some (RoutingTable.add_entry now t (Entry_from peer)).2)
  | _ => throw (InvalidMsg "Unexpected msg")
  end.

(** One receive of an inbound connection: what the node's other tasks did to
    the table before it returned, the clock, and its outcome. *)
Record inbound_event := mkInbound {
  others : RoutingTable → RoutingTable;
  clock : Z;
  received : result p2p_error KadNetMsg;
}.

Fixpoint handle_inbound (evs : list inbound_event) (t : RoutingTable)
    (w : wire KadNetMsg p2p_error) :
    task p2p_error () * RoutingTable * wire KadNetMsg p2p_error :=
  match evs with
  | [] => (Pending, t, w)
  | ev :: evs =>
      let t := others ev t in
      match received ev with
      | Err e => (Ready (Err e), t, w)
      | Ok msg =>
          match inbound_msg (clock ev) t msg w with
          | (Ready (Ok (Some t)), w) => handle_inbound evs t w
          | (Ready (Ok None), w) => (Ready (Ok ()), t, w)
          | (Ready (Err e), w) => (Ready (Err e), t, w)
          | (Pending, w) => (Pending, t, w)
          | (Panicked, w) => (Panicked, t, w)
          end
      end
  end.

(** The callback of [start_listener]: [evs] are the receives within the lifespan of
    the connection, which is cut when it is not over by then. *)
Definition inbound_callback (evs : list inbound_event) (t : RoutingTable)
    (w : wire KadNetMsg p2p_error) :
    task p2p_error () * RoutingTable * wire KadNetMsg p2p_error :=
  match handle_inbound evs t w with
  | (Pending, t, w) => (Ready (Err (P2pKaryonCore CoreTimeout)), t, w)
  | r => r
  end.

(** ** The iterative lookup *)

(** One of the two rounds of the random lookup. *)
Record lookup_round := mkRound {
  round_rnd : option (list Z);
  round_dial : dialing;
  round_others : RoutingTable → RoutingTable;
}.

Definition keep_new (t : RoutingTable) (random_peers : list PeerMsg) (peer : PeerMsg) :
    list PeerMsg :=
  if bool_decide (peer ∈ random_peers) || bool_decide (pm_peer_id peer = ls_id svc)
     || RoutingTable.contains_key t (id_bytes (pm_peer_id peer))
  then random_peers
  else random_peers ++ [peer].

(** The loop over the rounds, with the table as it is after each. *)
Fixpoint random_lookup (endpoint : Endpoint) (rounds : list lookup_round) (t : RoutingTable)
    (random_peers : list PeerMsg) : task p2p_error (list PeerMsg * RoutingTable) :=
  match rounds with
  | [] => mret (random_peers, t)
  | r :: rounds =>
      random_peer_id ← (Ready (PeerID.random (round_rnd r)) : task _ _);
      ps ← connect endpoint random_peer_id (round_dial r);
      let t := round_others r t in
      random_lookup endpoint rounds t (foldl (keep_new t) random_peers ps)
  end.

(** All results of the concurrent queries, in the order of completion; the
    loop ends when every query did. *)
Fixpoint await_all {A} (l : list (task p2p_error A)) : poll (list (result p2p_error A)) :=
  match l with
  | [] => Ready []
  | x :: l =>
      match x, await_all l with
      | Ready r, Ready rs => Ready (r :: rs)
      | Panicked, _ | _, Panicked => Panicked
      | _, _ => Pending
      end
  end.

Definition ok_value {A} (r : result p2p_error (list A)) : list A :=
  match r with Ok l => l | Err _ => [] end.

(** [sampled] is the random order of the peers; [dial] what the outside gives
    to the query of a peer; [completed] the order of completion. *)
Definition self_lookup (sampled : list PeerMsg → list PeerMsg) (dial : PeerMsg → dialing)
    (completed : list (task p2p_error (list PeerMsg)) → list (task p2p_error (list PeerMsg)))
    (random_peers : list PeerMsg) : task p2p_error (list PeerMsg) :=
  let queries := omap (λ peer,
    endpoint ← pick_endpoint (pm_discovery_addrs peer) SUPPORTED_LOOKUP_PROTOCOLS;
    Some (connect endpoint (ls_id svc) (dial peer))) (sampled random_peers) in
  match await_all (completed queries) with
  | Ready rs => Ready (Ok (concat (map ok_value rs)))
  | Pending => Pending
  | Panicked => Panicked
  end.

(** The loop that tops the buffer up from the end of [random_peers]: [rev_random]
    is that vector from its end. *)
Fixpoint top_up (rev_random peer_buffer : list PeerMsg) : list PeerMsg :=
  if (length peer_buffer <? MAX_PEERS_IN_PEERSMSG)%nat then
    match rev_random with
    | p :: rev_random => top_up rev_random (peer_buffer ++ [p])
    | [] => peer_buffer
    end
  else peer_buffer.

Fixpoint add_peers (now : nat → Z) (ps : list PeerMsg) (t : RoutingTable) : RoutingTable :=
  match ps with
  | [] => t
  | p :: ps => add_peers (λ i, now (S i)) ps (RoutingTable.add_entry (now 0%nat) t (Entry_from p)).2
  end.

(** What the outside gives to one lookup. *)
Record lookup_env := mkLookupEnv {
  round1 : lookup_round;
  round2 : lookup_round;
  sampled : list PeerMsg → list PeerMsg;
  self_dial : PeerMsg → dialing;
  completed : list (task p2p_error (list PeerMsg)) → list (task p2p_error (list PeerMsg));
  env_others : RoutingTable → RoutingTable;
  env_now : nat → Z;
}.

(** The first part of [start_lookup]: the peers it will add. *)
Definition lookup_peers (endpoint : Endpoint) (env : lookup_env) (t : RoutingTable) :
    task p2p_error (list PeerMsg * RoutingTable) :=
  '(random_peers, t) ← random_lookup endpoint [round1 env; round2 env] t [];
  peer_buffer ← self_lookup (sampled env) (self_dial env) (completed env) random_peers;
  mret (top_up (rev random_peers) peer_buffer, t).

(** The number of peers found, and the table the lookup leaves. *)
Definition start_lookup (endpoint : Endpoint) (env : lookup_env) (t : RoutingTable) :
    task p2p_error (nat * RoutingTable) :=
  '(peer_buffer, t) ← lookup_peers endpoint env t;
  mret (length peer_buffer, add_peers (env_now env) peer_buffer (env_others env t)).

(** What the monitor hears of a lookup, and of each of its connections. *)
Definition lookup_events (endpoint : Endpoint) (env : lookup_env) (t : RoutingTable) :
    list DiscoveryKind :=
  DiscLookupStarted endpoint ::
  match start_lookup endpoint env t with
  | Ready (Ok (n, _)) => [DiscLookupSucceeded endpoint n]
  | Ready (Err _) => [DiscLookupFailed endpoint]
  | _ => []
  end.

Definition connect_events (endpoint : Endpoint) (target : PeerID) (d : dialing) : list ConnectionKind :=
  if negb (Config.access_control (ls_config svc) (SubjectEndpoint endpoint) (ActLookup Outbound)) then []
  else
    match dialed d with
    | Err _ => []
    | Ok w =>
        match (handle_outbound (dial_rnd d) (dial_local d) target w).1 with
        | Ready _ => [ConnDisconnected endpoint]
        | _ => []
        end
    end.

(** ** Starting *)

Definition lookup_endpoint : option Endpoint := lookup_ep (ls_endpoints svc).

(** The endpoint the listener is started on, if any. *)
Definition start_listener : result p2p_error (option Endpoint) :=
  match lookup_endpoint with
  | None => Ok None
  | Some endpoint =>
      if negb (Endpoint.is_tcp endpoint) then Err (Config "lookup endpoint must be tcp://...")
      else Ok (Some endpoint)
  end.

End defs.
