(* ===== verification/LookupSpec.v ===== *)
(** * Correctness of the lookup service

    [kad_step] is the contract of the tasks that share the table: additions
    of advertisable entries, status updates and removals.  Each side of a
    lookup is proved under the assumption that the other tasks keep to it, and
    keeps to it itself; that the tasks of discovery do is [discovery_step_kad] of
    [KademliaSpec]. *)

From S2P Require Import Prelude Codec Endpoint Framed Message Bloom RoutingTable.
From S2P Require Import RoutingTableSpec RoutingTableQueries Version Session Config KadMessages.
From S2P Require Import Lookup.

Local Open Scope Z_scope.

#[local] Arguments MAX_PEERS_IN_PEERSMSG : simpl never.

(** ** Advertisable entries *)

(** What a node accepts of a peer's description. *)
Record advertisable (e : Entry) : Prop := {
  adv_addrs : (length (addrs e) ≤ MAX_ADDRS_PER_PEER)%nat;
  adv_discovery : (length (discovery_addrs e) ≤ MAX_DISCOVERY_ADDRS_PER_PEER)%nat;
  adv_no_tls : Forall (λ a, protocol a ≠ PTls) (discovery_addrs e);
  adv_some : addrs e ≠ [] ∨ discovery_addrs e ≠ [];
}.

Lemma peer_reachable_spec p :
  peer_reachable p = true ↔ pm_addrs p ≠ [] ∨ pm_discovery_addrs p ≠ [].
Proof.
  unfold peer_reachable. rewrite orb_true_iff, !negb_true_iff, !bool_decide_eq_false. done.
Qed.

Lemma filter_all {A} (P : A → Prop) `{∀ x, Decision (P x)} l : Forall P l → filter P l = l.
Proof. induction 1 as [|x l Hx _ IH]; [done|]. rewrite filter_cons, decide_True by done. by f_equal. Qed.

Lemma validate_peer_msg_Ok p q :
  validate_peer_msg p = Ok q →
  pm_peer_id q = pm_peer_id p ∧ pm_addrs q = pm_addrs p ∧
  pm_discovery_addrs q = filter (λ a, protocol a ≠ PTls) (pm_discovery_addrs p) ∧
  (peer_reachable q = true → advertisable (Entry_from q)).
Proof.
  unfold validate_peer_msg. destruct (Nat.ltb_spec MAX_ADDRS_PER_PEER (length (pm_addrs p))); [done|].
  simpl. case_match eqn:Hd; [done|]. apply Nat.ltb_ge in Hd. intros [= <-]. simpl.
  split_and!; [done..|]. rewrite peer_reachable_spec. intros Hr. split; try done.
  simpl. apply Forall_forall. by intros a [? _]%list_elem_of_filter.
Qed.

(** An advertisable description passes unchanged. *)
Lemma validate_advertisable p :
  advertisable (Entry_from p) → validate_peer_msg p = Ok p ∧ peer_reachable p = true.
Proof.
  intros [Ha Hd Ht Hs]. split; [|by apply peer_reachable_spec].
  unfold validate_peer_msg. rewrite (proj2 (Nat.ltb_ge _ _)) by done. simpl in *.
  rewrite filter_all by done. rewrite (proj2 (Nat.ltb_ge _ _)) by done. by destruct p.
Qed.

Lemma validate_peers_Ok ps : ∀ qs,
  validate_peers ps = Ok qs → Forall2 (λ p q, validate_peer_msg p = Ok q) ps qs.
Proof.
  induction ps as [|p ps IH]; intros qs; simpl.
  - intros [= <-]. constructor.
  - intros H. apply result_bind_Ok in H as (q & Hq & H).
    apply result_bind_Ok in H as (qs' & Hqs & [= <-]). constructor; eauto.
Qed.

Lemma validate_peers_advertisable ps :
  Forall (λ p, advertisable (Entry_from p)) ps →
  validate_peers ps = Ok ps ∧ List.filter peer_reachable ps = ps.
Proof.
  induction 1 as [|p ps Hp _ [IH1 IH2]]; simpl; [done|].
  destruct (validate_advertisable p Hp) as [-> ->]. simpl. rewrite IH1. simpl. by rewrite IH2.
Qed.

(** What is left of a list of descriptions after the checks of a receiver. *)
Lemma accepted_peers ps qs :
  Forall PeerMsg_wf ps → validate_peers ps = Ok qs →
  Forall (λ q, PeerMsg_wf q ∧ advertisable (Entry_from q)) (List.filter peer_reachable qs) ∧
  (length (List.filter peer_reachable qs) ≤ length ps)%nat.
Proof.
  intros Hwf Hv%validate_peers_Ok. induction Hv as [|p q ps qs Hpq _ IH]; simpl; [done|].
  apply Forall_cons in Hwf as [Hp Hwf]. destruct (IH Hwf) as [IH1 IH2].
  destruct (peer_reachable q) eqn:Hr; simpl; [|split; [done|lia]].
  apply validate_peer_msg_Ok in Hpq as (Hid & _ & _ & Hadv). split; [|lia].
  constructor; [|done]. split; [|by apply Hadv]. unfold PeerMsg_wf. by rewrite Hid.
Qed.

(** ** Steps of the shared table *)

Inductive kad_step : RoutingTable → RoutingTable → Prop :=
| kad_add now t e :
    key_wf (key e) → advertisable e → kad_step t (RoutingTable.add_entry now t e).2
| kad_update now t k flag : key_wf k → kad_step t (RoutingTable.update_entry now t k flag)
| kad_remove t k : key_wf k → kad_step t (RoutingTable.remove_entry t k).

Definition table_ok (t : RoutingTable) : Prop := wf t ∧ Forall advertisable (all_entries t).

Lemma set_bucket_entries t i b e :
  e ∈ all_entries (RoutingTable.set_bucket t i b) → e ∈ bentries b ∨ e ∈ all_entries t.
Proof.
  rewrite !all_entries_elem. intros (j & c & Hj & He). simpl in Hj.
  apply list_lookup_insert_Some in Hj as [(<- & <- & _)|[_ Hj]]; [by left|right; by eauto].
Qed.

Lemma bucket_at_entries t i e :
  e ∈ bentries (RoutingTable.bucket_at t i) → e ∈ all_entries t.
Proof.
  unfold RoutingTable.bucket_at. rewrite all_entries_elem.
  destruct (buckets t !! i) as [b|] eqn:Hb; simpl; [by eauto|]. by intros ?%not_elem_of_nil.
Qed.

(** An operation adds no other entry than the given one. *)
Lemma add_entry_entries now t e x :
  x ∈ all_entries (RoutingTable.add_entry now t e).2 → x = e ∨ x ∈ all_entries t.
Proof.
  unfold RoutingTable.add_entry. repeat case_match; simpl; try by right.
  - intros [Hx|Hx]%set_bucket_entries; [|by right]. rewrite bentries_add in Hx.
    apply elem_of_app in Hx as [Hx|Hx%list_elem_of_singleton]; [|by left].
    right. by eapply bucket_at_entries.
  - intros [Hx|Hx]%set_bucket_entries; [|by right]. rewrite bentries_add in Hx.
    apply elem_of_app in Hx as [Hx|Hx%list_elem_of_singleton]; [|by left].
    right. eapply bucket_at_entries, elem_of_sublist; [done|apply bentries_remove].
Qed.

Lemma update_entry_entries now t k flag x :
  x ∈ all_entries (RoutingTable.update_entry now t k flag) → x ∈ all_entries t.
Proof.
  unfold RoutingTable.update_entry. case_match; [|done].
  intros [Hx|Hx]%set_bucket_entries; [|done]. rewrite bentries_update in Hx.
  by eapply bucket_at_entries.
Qed.

Lemma remove_entry_entries t k x :
  x ∈ all_entries (RoutingTable.remove_entry t k) → x ∈ all_entries t.
Proof.
  unfold RoutingTable.remove_entry. case_match; [|done].
  intros [Hx|Hx]%set_bucket_entries; [|done].
  eapply bucket_at_entries, elem_of_sublist; [done|apply bentries_remove].
Qed.

Lemma kad_step_ok t t' : kad_step t t' → table_ok t → table_ok t'.
Proof.
  intros Hstep [Hwf Hadv]. rewrite Forall_forall in Hadv.
  destruct Hstep as [now t e Hk He|now t k flag Hk|t k Hk].
  - split; [by apply wf_add|]. apply Forall_forall. intros x [->|Hx]%add_entry_entries; eauto.
  - split; [by apply wf_update|]. apply Forall_forall.
    intros x Hx%update_entry_entries; eauto.
  - split; [by apply wf_remove|]. apply Forall_forall. intros x Hx%remove_entry_entries; eauto.
Qed.

Lemma kad_steps_ok t t' : rtc kad_step t t' → table_ok t → table_ok t'.
Proof. induction 1; eauto using kad_step_ok. Qed.

Lemma table_ok_new k : key_wf k → table_ok (RoutingTable.new k).
Proof. intros Hk. split; [by apply wf_new|]. apply Forall_nil_2. Qed.

#[export] Hint Resolve kad_steps_ok table_ok_new : karyon.

(** What a node answers to a search is advertisable, and at most ten. *)
Lemma closest_entries_bound t target :
  (length (RoutingTable.closest_entries t target MAX_PEERS_IN_PEERSMSG)
    ≤ MAX_PEERS_IN_PEERSMSG)%nat.
Proof.
  unfold RoutingTable.closest_entries, RoutingTable.closest_entries_filtered.
  rewrite (Permutation_length (sort_by_perm _ _)), collect_spec by (simpl; lia).
  unfold limit. rewrite decide_False by done. rewrite length_take. lia.
Qed.

Lemma closest_entries_elem t target max e :
  e ∈ RoutingTable.closest_entries t target max → e ∈ all_entries t.
Proof.
  unfold RoutingTable.closest_entries, RoutingTable.closest_entries_filtered.
  rewrite sort_by_perm, collect_spec by (simpl; lia). intros Hin.
  assert (e ∈ candidates t target LocalBloom.default) as Hc.
  { unfold limit in Hin. case_decide; [done|]. by eapply elem_of_take in Hin as (? & ? & _);
      eapply list_elem_of_lookup_2. }
  unfold candidates in Hc. apply list_elem_of_In, in_concat in Hc as (l & Hl & He).
  apply in_map_iff in Hl as (i & <- & _). apply in_map_iff in He as (be & <- & [Hbe _]%filter_In).
  apply (bucket_at_entries t i). unfold bentries. apply list_elem_of_In, in_map. done.
Qed.

Lemma closest_peers_ok t target :
  table_ok t →
  let ps := map PeerMsg_from (RoutingTable.closest_entries t target MAX_PEERS_IN_PEERSMSG) in
  (length ps ≤ MAX_PEERS_IN_PEERSMSG)%nat ∧
  Forall (λ p, PeerMsg_wf p ∧ advertisable (Entry_from p)) ps.
Proof.
  intros [Hwf Hadv] ps. unfold ps. rewrite length_map. split; [apply closest_entries_bound|].
  apply Forall_forall. intros p (e & -> & He)%list_elem_of_fmap.
  apply closest_entries_elem in He. rewrite Entry_from_PeerMsg_from. rewrite Forall_forall in Hadv.
  split; [|by apply Hadv]. apply all_entries_elem in He as (i & b & Hb & He).
  by destruct (wf_place t i b e Hwf Hb He).
Qed.

(** ** Sessions *)

Section sessions.
Context `{Semver}.
Context `{Bincode PingMsg} `{Bincode PongMsg} `{Bincode FindPeerMsg} `{Bincode PeerMsg}
  `{Bincode PeersMsg} `{Bincode ShutdownMsg}.
Context `{!BincodeTyped PeerMsg PeerMsg_wf}.
Context `{!BincodeTyped PeersMsg (λ m, Forall PeerMsg_wf (peers m))}.
Context (svc : LookupService).

(** The answers of an inbound connection: echoes of a nonce, and at most ten
    descriptions the receiver accepts as they are. *)
Definition answer_ok (m : KadNetMsg) : Prop :=
  (∃ nonce, KadNetMsg_new KadPong (mkPongMsg nonce) = Ok m) ∨
  (∃ ps, KadNetMsg_new KadPeers (mkPeersMsg ps) = Ok m ∧
    (length ps ≤ MAX_PEERS_IN_PEERSMSG)%nat ∧
    Forall (λ p, PeerMsg_wf p ∧ advertisable (Entry_from p)) ps).

Lemma send_outbox {Msg E} (m : Msg) (w : wire Msg E) r w' :
  send m w = (r, w') → outbox w' = outbox w ∨ outbox w' = outbox w ++ [m].
Proof.
  unfold send. destruct (send_results w) as [|[[]|e] rest]; intros [= <- <-]; auto.
Qed.

(** A call that builds a message and sends it. *)
Lemma send_new_outbox {T} `{Bincode T} cmd (x : T) (w : wire KadNetMsg p2p_error) r w' :
  (m ← lift (KadNetMsg_new cmd x); send m) w = (r, w') →
  outbox w' = outbox w ∨ ∃ m, KadNetMsg_new cmd x = Ok m ∧ outbox w' = outbox w ++ [m].
Proof.
  unfold mbind, session_bind, lift. destruct (KadNetMsg_new cmd x) as [m|e].
  - intros [?|?]%send_outbox; eauto.
  - intros [= <- <-]. by left.
Qed.

(** One message of an inbound connection. *)
Lemma inbound_msg_safe now t msg w r w' :
  table_ok t → inbound_msg svc now t msg w = (r, w') →
  (outbox w' = outbox w ∨ ∃ m, answer_ok m ∧ outbox w' = outbox w ++ [m]) ∧
  (∀ t', r = Ready (Ok (Some t')) → rtc kad_step t t').
Proof.
  intros Ht. unfold inbound_msg. destruct (kad_command (kad_header msg)).
  - unfold mbind at 1, session_bind at 1, lift. destruct (decode (kad_payload msg)) as [[ping n]|e];
      [|intros [= <- <-]; by split; [left|]].
    destruct (version_match _ _); simpl; [|intros [= <- <-]; by split; [left|]].
    unfold mbind, session_bind at 1. destruct (send_pong_msg _ _) as [p w1] eqn:Hs.
    apply send_new_outbox in Hs as Hout.
    assert (outbox w1 = outbox w ∨ ∃ m, answer_ok m ∧ outbox w1 = outbox w ++ [m]) as Hout'.
    { destruct Hout as [?|(m & ? & ?)]; [by left|]. right. exists m. split; [|done]. left. by eauto. }
    destruct p as [|[[]|e]|]; intros [= <- <-]; split; try done. by intros t' [= <-].
  - intros [= <- <-]. by split; [left|].
  - unfold mbind at 1, session_bind at 1, lift. destruct (decode (kad_payload msg)) as [[fp n]|e];
      [|intros [= <- <-]; by split; [left|]].
    unfold mbind, session_bind at 1. destruct (send_peers_msg _ _ _) as [p w1] eqn:Hs.
    apply send_new_outbox in Hs as Hout.
    assert (outbox w1 = outbox w ∨ ∃ m, answer_ok m ∧ outbox w1 = outbox w ++ [m]) as Hout'.
    { destruct Hout as [?|(m & ? & ?)]; [by left|]. right. exists m. split; [|done]. right.
      destruct (closest_peers_ok t (id_bytes (find_target fp)) Ht). by eauto. }
    destruct p as [|[[]|e]|]; intros [= <- <-]; split; try done. by intros t' [= <-].
  - unfold mbind at 1, session_bind at 1, lift.
    destruct (decode (kad_payload msg)) as [[peer n]|e] eqn:Hd; [|intros [= <- <-]; by split; [left|]].
    unfold mbind, session_bind. apply decode_typed in Hd.
    destruct (validate_peer_msg peer) as [q|e] eqn:Hv; [|intros [= <- <-]; by split; [left|]].
    apply validate_peer_msg_Ok in Hv as (Hid & _ & _ & Hadv).
    destruct (peer_reachable q) eqn:Hr; simpl; intros [= <- <-]; (split; [by left|]);
      intros t' [= <-]; [|done].
    apply rtc_once, kad_add; [|by apply Hadv]. apply Entry_from_key_wf. unfold PeerMsg_wf. by rewrite Hid.
  - intros [= <- <-]. by split; [left|].
  - intros [= <- <-]. by split; [left|].
Qed.

(** Serving a lookup is safe.  Whatever a remote node sends, in whatever
    order, and whatever the node's other tasks do meanwhile, the routing table
    keeps its invariant and only ever gains descriptions within the address
    limits; the answers are at most one per message received, each an echoed
    nonce or at most ten descriptions that every other node accepts. *)
Theorem lookup_inbound_safe evs t w r t' w' :
  table_ok t → Forall (λ ev, ∀ t, rtc kad_step t (others ev t)) evs →
  handle_inbound svc evs t w = (r, t', w') →
  rtc kad_step t t' ∧ table_ok t' ∧
  ∃ answers, outbox w' = outbox w ++ answers ∧ (length answers ≤ length evs)%nat ∧
    Forall answer_ok answers.
Proof.
  intros Ht Hevs. revert t w Ht. induction Hevs as [|ev evs Hev _ IH]; intros t w Ht; simpl.
  { intros [= <- <- <-]. split_and!; [done..|]. exists []. by rewrite app_nil_r. }
  pose proof (Hev t) as Hsteps. assert (table_ok (others ev t)) as Hok by eauto with karyon.
  destruct (received ev) as [msg|e].
  2: { intros [= <- <- <-]. split_and!; [done..|]. exists []. rewrite app_nil_r. by split_and!; [|simpl; lia|]. }
  destruct (inbound_msg svc (clock ev) (others ev t) msg w) as [p w1] eqn:Hm.
  destruct (inbound_msg_safe _ _ _ _ _ _ Hok Hm) as [Hout Hnext].
  assert (∃ ans, outbox w1 = outbox w ++ ans ∧ (length ans ≤ 1)%nat ∧ Forall answer_ok ans)
    as (ans & Hw1 & Hlen & Hans).
  { destruct Hout as [Ho|(m & ? & Ho)]; [exists []; rewrite app_nil_r|exists [m]]; by split_and!;
      [|simpl; lia|auto]. }
  destruct p as [|[[t1|]|e]|];
    try (intros [= <- <- <-]; split_and!; [done..|]; exists ans; by split_and!; [|simpl; lia|]).
  intros Hrest. specialize (Hnext t1 eq_refl).
  destruct (IH t1 w1) as (Hst & Hok' & more & Hw' & Hl & Ha); [by eauto with karyon|done|].
  split_and!; [by repeat (etrans; [done|])|done|].
  exists (ans ++ more). rewrite Hw', Hw1, app_assoc, length_app.
  split_and!; [done|lia|by apply Forall_app].
Qed.

(** A session that does not panic. *)
Definition calm {A} (s : session KadNetMsg p2p_error A) : Prop := ∀ w, (s w).1 ≠ Panicked.

Lemma calm_lift {A} (r : result p2p_error A) : calm (lift r).
Proof. done. Qed.

Lemma calm_ret {A} (a : A) : calm (mret a).
Proof. done. Qed.

Lemma calm_send m : calm (send m).
Proof. intros w. unfold send. by destruct (send_results w) as [|[[]|] ?]. Qed.

Lemma calm_bind {A B} (s : session KadNetMsg p2p_error A) (k : A → session KadNetMsg p2p_error B) :
  calm s → (∀ a, calm (k a)) → calm (s ≫= k).
Proof.
  intros Hs Hk w. unfold mbind, session_bind. specialize (Hs w).
  destruct (s w) as [[|[a|e]|] w']; try done. apply Hk.
Qed.

Lemma inbound_msg_calm now t msg : calm (inbound_msg svc now t msg).
Proof.
  unfold inbound_msg, send_pong_msg, send_peers_msg, throw.
  repeat first [apply calm_lift|apply calm_ret|apply calm_send|apply calm_bind; intros|case_match].
Qed.

(** A lookup connection a node serves ends: the lifespan sees to that, whatever the
    remote node does.  Its slot is free again, and the table has taken steps that keep
    its invariant. *)
Theorem lookup_inbound_ends evs t w :
  table_ok t → Forall (λ ev, ∀ t, rtc kad_step t (others ev t)) evs →
  ∃ r t' w', inbound_callback svc evs t w = (Ready r, t', w') ∧ rtc kad_step t t' ∧ table_ok t'.
Proof.
  intros Ht Hevs. destruct (handle_inbound svc evs t w) as [[r t'] w'] eqn:Hr.
  destruct (lookup_inbound_safe evs t w r t' w' Ht Hevs Hr) as (Hst & Hok & _).
  unfold inbound_callback. rewrite Hr.
  assert (r ≠ Panicked) as Hp; [|by destruct r as [|r|]; [eexists _, t', w'|exists r, t', w'|]].
  clear - Hr. revert t w Hr. induction evs as [|ev evs IH]; intros t w; cbn; [by intros [= <- _ _]|].
  destruct (received ev) as [msg|e]; [|by intros [= <- _ _]].
  pose proof (inbound_msg_calm (clock ev) (others ev t) msg w) as Hc.
  destruct (inbound_msg svc (clock ev) (others ev t) msg w) as [[|[[t1|]|e]|] w1]; try (by intros [= <- _ _]).
  apply IH.
Qed.

(** ** The querying side *)

(** The fuel of the receiving loop is never the reason to stop. *)
Lemma outbound_loop_fuel nonce target : ∀ f1 f2 w,
  (length (inbox w) < f1)%nat → (length (inbox w) < f2)%nat →
  outbound_loop f1 nonce target w = outbound_loop f2 nonce target w.
Proof.
  induction f1 as [|f1 IH]; intros [|f2] w Hf1 Hf2; [lia..|]. simpl.
  unfold mbind, session_bind, recv. destruct (inbox w) as [|[msg|e] rest]; [done| |done].
  destruct (kad_command (kad_header msg)); try done.
  unfold lift. destruct (decode (kad_payload msg)) as [[pong n]|e]; [|done].
  destruct (negb _); [done|]. unfold send_findpeer_msg, mbind, session_bind, lift.
  destruct (KadNetMsg_new KadFindPeer _) as [m|e]; [|done]. unfold send. simpl in *.
  destruct (send_results w) as [|[[]|e] srs]; [done| |done]. apply IH; simpl; lia.
Qed.

Definition is_pong (nonce : list Z) (m : KadNetMsg) : Prop :=
  kad_command (kad_header m) = KadPong ∧
  ∃ n, decode (kad_payload m) = Ok (mkPongMsg nonce, n).

(** The messages a successful receiving loop consumed. *)
Lemma outbound_loop_Ok nonce target fuel : ∀ w ps w',
  outbound_loop fuel nonce target w = (Ready (Ok ps), w') →
  ∃ pongs m rest pm n qs, inbox w = map Ok pongs ++ Ok m :: rest ∧
    Forall (is_pong nonce) pongs ∧
    kad_command (kad_header m) = KadPeers ∧ decode (kad_payload m) = Ok (pm, n) ∧
    (length (peers pm) ≤ MAX_PEERS_IN_PEERSMSG)%nat ∧
    validate_peers (peers pm) = Ok qs ∧ ps = List.filter peer_reachable qs.
Proof.
  induction fuel as [|fuel IH]; intros w ps w'; simpl; [done|]. intros Hrun.
  apply session_bind_Ok in Hrun as (m & w1 & (rest & Hin & ->)%recv_Ok & Hrun).
  destruct (kad_command (kad_header m)) eqn:Hc; try done.
  - apply session_bind_Ok in Hrun as ([pong n] & w2 & [Hd ->]%lift_Ok & Hrun).
    case_bool_decide as Hn; [simpl in Hrun|done]. unfold send_findpeer_msg in Hrun. inv_session.
    subst. simpl in *. apply IH in Hrun as (pongs & m' & rest' & pm & k & qs & Hin' & Hp & ?).
    simpl in Hin'. exists (m :: pongs), m', rest', pm, k, qs. rewrite Hin, Hin'.
    split; [done|]. split; [|done]. constructor; [|done].
    destruct pong. split; [done|]. by exists n.
  - apply session_bind_Ok in Hrun as ([pm n] & w2 & [Hd ->]%lift_Ok & Hrun).
    destruct (Nat.ltb_spec MAX_PEERS_IN_PEERSMSG (length (peers pm))); [done|].
    apply session_bind_Ok in Hrun as (qs & w3 & [Hv ->]%lift_Ok & [= <- _]).
    exists [], m, rest, pm, n, qs. by split_and!.
Qed.

Lemma send_ping_msg_Ok rnd w ping w' :
  send_ping_msg svc rnd w = (Ready (Ok ping), w') →
  rnd = Some (ping_nonce ping) ∧ inbox w' = inbox w.
Proof.
  unfold send_ping_msg. intros Hping. inv_session. subst. injection Hping as <- <-.
  by destruct rnd; simplify_eq/=.
Qed.

(** A query that succeeded: the messages it consumed. *)
Lemma handle_outbound_Ok rnd local target w ps w' :
  handle_outbound svc rnd local target w = (Ready (Ok ps), w') →
  ∃ nonce pongs m rest pm n qs, rnd = Some nonce ∧
    inbox w = map Ok pongs ++ Ok m :: rest ∧ Forall (is_pong nonce) pongs ∧
    kad_command (kad_header m) = KadPeers ∧ decode (kad_payload m) = Ok (pm, n) ∧
    (length (peers pm) ≤ MAX_PEERS_IN_PEERSMSG)%nat ∧
    validate_peers (peers pm) = Ok qs ∧ ps = List.filter peer_reachable qs.
Proof.
  unfold handle_outbound. intros Hrun.
  apply session_bind_Ok in Hrun as (ping & w1 & Hping & Hrun).
  apply session_bind_Ok in Hrun as (qs0 & w2 & Hloop & Hrun).
  apply session_bind_Ok in Hrun as (u1 & w3 & _ & Hrun).
  apply session_bind_Ok in Hrun as (u2 & w4 & _ & [= <- _]).
  apply send_ping_msg_Ok in Hping as (Hrnd & Hinbox).
  apply outbound_loop_Ok in Hloop
    as (pongs & m & rest & pm & n & qs & Hin & Hp & Hc & Hd & Hlen & Hv & ->).
  rewrite Hinbox in Hin. eauto 15.
Qed.

(** Asking for peers is safe.  Whatever the remote node answers, a query
    succeeds only on a list of at most ten descriptions, preceded by nothing
    but echoes of the query's nonce; what it returns are the descriptions with
    an address, within the address limits and without TLS discovery
    addresses. *)
Theorem lookup_outbound_sound rnd local target w ps w' :
  handle_outbound svc rnd local target w = (Ready (Ok ps), w') →
  (length ps ≤ MAX_PEERS_IN_PEERSMSG)%nat ∧
  Forall (λ p, PeerMsg_wf p ∧ advertisable (Entry_from p)) ps ∧
  ∃ nonce pongs m rest pm n qs, rnd = Some nonce ∧
    inbox w = map Ok pongs ++ Ok m :: rest ∧ Forall (is_pong nonce) pongs ∧
    kad_command (kad_header m) = KadPeers ∧ decode (kad_payload m) = Ok (pm, n) ∧
    validate_peers (peers pm) = Ok qs ∧ ps = List.filter peer_reachable qs.
Proof.
  intros (nonce & pongs & m & rest & pm & n & qs & ? & ? & ? & ? & Hd & ? & Hv & ->)%handle_outbound_Ok.
  destruct (accepted_peers (peers pm) qs) as [Hacc Hle]; [by apply decode_typed in Hd|done|].
  split_and!; [lia|done|]. eauto 15.
Qed.

(** ** The iterative lookup *)

Lemma connect_sound endpoint target d ps :
  connect svc endpoint target d = Ready (Ok ps) →
  Config.access_control (ls_config svc) (SubjectEndpoint endpoint) (ActLookup Outbound) = true ∧
  (length ps ≤ MAX_PEERS_IN_PEERSMSG)%nat ∧
  Forall (λ p, PeerMsg_wf p ∧ advertisable (Entry_from p)) ps.
Proof.
  unfold connect. destruct (Config.access_control _ _ _); [simpl|done].
  destruct (dialed d) as [w|e]; [|done]. intros Hh. split; [done|].
  destruct (handle_outbound _ _ _ _ _) as [r w'] eqn:Ho. simpl in Hh. subst.
  apply handle_outbound_Ok in Ho as (? & ? & ? & ? & pm & ? & qs & ? & ? & ? & ? & Hd & ? & Hv & ->).
  destruct (accepted_peers (peers pm) qs) as [? ?]; [by apply decode_typed in Hd|done|].
  split; [lia|done].
Qed.

(** The peers a random lookup keeps: acceptable, distinct, not the node
    itself. *)
Definition fresh_peers (random_peers : list PeerMsg) : Prop :=
  NoDup random_peers ∧
  Forall (λ p, PeerMsg_wf p ∧ advertisable (Entry_from p) ∧ pm_peer_id p ≠ ls_id svc) random_peers.

Lemma keep_new_fresh t ps : ∀ acc,
  Forall (λ p, PeerMsg_wf p ∧ advertisable (Entry_from p)) ps → fresh_peers acc →
  fresh_peers (foldl (keep_new svc t) acc ps) ∧
  (length (foldl (keep_new svc t) acc ps) ≤ length acc + length ps)%nat.
Proof.
  induction ps as [|p ps IH]; intros acc Hps Hacc; simpl; [split; [done|lia]|].
  apply Forall_cons in Hps as [[Hp1 Hp2] Hps].
  assert (fresh_peers (keep_new svc t acc p) ∧
    (length (keep_new svc t acc p) ≤ length acc + 1)%nat) as [Hf Hl].
  { unfold keep_new. case_bool_decide as Hin; simpl; [split; [done|lia]|].
    case_bool_decide as Hid; simpl; [split; [done|lia]|].
    destruct (RoutingTable.contains_key _ _); [split; [done|lia]|].
    destruct Hacc as [Hnd Hall]. rewrite length_app. split; [|simpl; lia]. split.
    - apply NoDup_app. split_and!; [done|set_solver|apply NoDup_singleton].
    - apply Forall_app. by rewrite Forall_singleton. }
  destruct (IH _ Hps Hf). split; [done|lia].
Qed.

Lemma random_lookup_sound endpoint rounds : ∀ t acc ps t',
  fresh_peers acc → random_lookup svc endpoint rounds t acc = Ready (Ok (ps, t')) →
  fresh_peers ps ∧ t' = foldl (λ t r, round_others r t) t rounds ∧
  (length ps ≤ length acc + MAX_PEERS_IN_PEERSMSG * length rounds)%nat.
Proof.
  induction rounds as [|r rounds IH]; intros t acc ps t' Hacc; simpl.
  { intros [= <- <-]. split_and!; [done..|lia]. }
  destruct (PeerID.random _) as [pid|e]; [|done].
  intros (found & Hc & Hrun)%task_bind_Ok. apply connect_sound in Hc as (_ & Hlen & Hok).
  destruct (keep_new_fresh (round_others r t) found acc Hok Hacc) as [Hf Hl].
  apply IH in Hrun as (Hps & Ht & Hlen'); [|done..].
  split_and!; [done|done|]. unfold MAX_PEERS_IN_PEERSMSG in *. lia.
Qed.

(** The results a self lookup collects. *)
Lemma await_all_Ready {A} (l : list (task p2p_error A)) rs :
  await_all l = Ready rs → l = map Ready rs.
Proof.
  revert rs. induction l as [|x l IH]; intros rs; simpl; [by intros [= <-]|].
  destruct x as [|r|]; destruct (await_all l); try done. intros [= <-]. simpl. f_equal. by apply IH.
Qed.

Lemma omap_length {A B} (f : A → option B) l : (length (omap f l) ≤ length l)%nat.
Proof. induction l as [|x l IH]; csimpl; [done|]. case_match; csimpl; lia. Qed.

Lemma self_lookup_sound sampled dial completed random_peers buf :
  (∀ l, completed l ≡ₚ l) → (∀ l, sampled l ≡ₚ l) →
  self_lookup svc sampled dial completed random_peers = Ready (Ok buf) →
  (length buf ≤ MAX_PEERS_IN_PEERSMSG * length random_peers)%nat ∧
  Forall (λ p, PeerMsg_wf p ∧ advertisable (Entry_from p)) buf.
Proof.
  intros Hcomp Hsamp. unfold self_lookup. set (queries := omap _ _).
  destruct (await_all _) as [|rs|] eqn:Ha; [done| |done]. intros [= <-].
  apply await_all_Ready in Ha.
  assert (Forall (λ r, (length (ok_value r) ≤ MAX_PEERS_IN_PEERSMSG)%nat ∧
    Forall (λ p, PeerMsg_wf p ∧ advertisable (Entry_from p)) (ok_value r)) rs) as Hrs.
  { apply Forall_forall. intros r Hr.
    assert (Ready r ∈ queries) as Hq.
    { rewrite <-(Hcomp queries), Ha. by apply list_elem_of_fmap_2. }
    apply list_elem_of_omap in Hq as (p & _ & Hq).
    destruct (pick_endpoint _ _) as [ep|]; simplify_eq/=.
    destruct r as [ps|e]; simpl; [|split; [lia|constructor]].
    by apply connect_sound in Hq as (_ & ? & ?). }
  assert (length rs ≤ length random_peers)%nat as Hlen.
  { rewrite <-(length_map (@Ready _) rs), <-Ha, (Permutation_length (Hcomp _)).
    unfold queries. etrans; [apply omap_length|]. by rewrite (Permutation_length (Hsamp _)). }
  assert (length (concat (map ok_value rs)) ≤ MAX_PEERS_IN_PEERSMSG * length rs)%nat as Hb.
  { clear Hlen Ha. induction Hrs as [|r rs [Hr _] _ IH]; simpl; [lia|]. rewrite length_app.
    unfold MAX_PEERS_IN_PEERSMSG in *. lia. }
  split; [unfold MAX_PEERS_IN_PEERSMSG in *; nia|].
  apply Forall_concat, Forall_fmap. eapply Forall_impl; [done|]. by intros r [_ ?].
Qed.

Lemma top_up_ok P rr : ∀ buf,
  Forall P rr → Forall P buf → Forall P (top_up rr buf) ∧
  (length (top_up rr buf) ≤ Nat.max MAX_PEERS_IN_PEERSMSG (length buf))%nat ∧
  (Nat.min MAX_PEERS_IN_PEERSMSG (length buf + length rr) ≤ length (top_up rr buf))%nat ∧
  ∃ more, top_up rr buf = buf ++ more.
Proof.
  induction rr as [|p rr IH]; intros buf Hrr Hbuf; cbn [top_up length];
    destruct (Nat.ltb_spec (length buf) MAX_PEERS_IN_PEERSMSG).
  1,2,4: split_and!; [done|lia|lia|exists []; by rewrite app_nil_r].
  apply Forall_cons in Hrr as [Hp Hrr].
  destruct (IH (buf ++ [p]) Hrr) as (Hall & Hmax & Hmin & more & Heq); [by apply Forall_app; auto|].
  rewrite length_app in Hmax, Hmin. change (length [p]) with 1%nat in *. split_and!; [done|lia|lia|].
  exists (p :: more). by rewrite Heq, <-app_assoc.
Qed.

Lemma add_peers_steps ps : ∀ now t,
  Forall (λ p, PeerMsg_wf p ∧ advertisable (Entry_from p)) ps →
  rtc kad_step t (add_peers now ps t) ∧
  ∀ e, e ∈ all_entries (add_peers now ps t) → e ∈ map Entry_from ps ∨ e ∈ all_entries t.
Proof.
  induction ps as [|p ps IH]; intros now t Hps; simpl; [by split; [|auto]|].
  apply Forall_cons in Hps as [[Hp1 Hp2] Hps].
  destruct (IH (λ i, now (S i)) (RoutingTable.add_entry (now 0%nat) t (Entry_from p)).2 Hps)
    as [Hs Hin].
  split; [eapply rtc_l, Hs; by apply kad_add|].
  intros e [He|[->|He]%add_entry_entries]%Hin; set_solver.
Qed.

(** What the outside may do during a lookup. *)
Record lookup_env_ok (env : lookup_env) : Prop := {
  env_rounds r t : r ∈ [round1 env; round2 env] → rtc kad_step t (round_others r t);
  env_others_steps t : rtc kad_step t (env_others env t);
  env_completed l : completed env l ≡ₚ l;
  env_sampled l : sampled env l ≡ₚ l;
}.

(** The peers a lookup found, whatever the others do to the table. *)
Lemma lookup_peers_sound endpoint env t found t' :
  (∀ l, completed env l ≡ₚ l) → (∀ l, sampled env l ≡ₚ l) →
  lookup_peers svc endpoint env t = Ready (Ok (found, t')) →
  Config.access_control (ls_config svc) (SubjectEndpoint endpoint) (ActLookup Outbound) = true ∧
  (length found ≤ 200)%nat ∧ t' = round_others (round2 env) (round_others (round1 env) t) ∧
  Forall (λ p, PeerMsg_wf p ∧ advertisable (Entry_from p)) found.
Proof.
  intros Hcomp Hsamp. unfold lookup_peers.
  intros ([random t1] & Hrand & Hrun)%task_bind_Ok.
  apply task_bind_Ok in Hrun as (buf & Hself & [= <- <-]).
  assert (Config.access_control (ls_config svc) (SubjectEndpoint endpoint) (ActLookup Outbound)
    = true) as Hac.
  { pose proof Hrand as Hr. simpl in Hr. destruct (PeerID.random _) as [pid|e]; [|done].
    apply task_bind_Ok in Hr as (found & Hc & _). by apply connect_sound in Hc as [? _]. }
  apply random_lookup_sound in Hrand as ([Hnd Hfresh] & Ht & Hlen); [|by split; constructor].
  apply self_lookup_sound in Hself as [Hlbuf Hbuf]; [|done..].
  destruct (top_up_ok (λ p, PeerMsg_wf p ∧ advertisable (Entry_from p)) (rev random) buf)
    as (Hall & Hmax & _ & _); [|done|].
  { apply Forall_rev. eapply Forall_impl; [done|]. naive_solver. }
  unfold MAX_PEERS_IN_PEERSMSG in *. simpl in Hlen. split_and!; [done|lia|done..].
Qed.

(** A lookup that succeeded: what it found, added to the table. *)
Lemma start_lookup_Ok endpoint env t n t' :
  lookup_env_ok env → start_lookup svc endpoint env t = Ready (Ok (n, t')) →
  Config.access_control (ls_config svc) (SubjectEndpoint endpoint) (ActLookup Outbound) = true ∧
  (n ≤ 200)%nat ∧
  ∃ t0 found, rtc kad_step t t0 ∧ t' = add_peers (env_now env) found t0 ∧ length found = n ∧
    Forall (λ p, PeerMsg_wf p ∧ advertisable (Entry_from p)) found.
Proof.
  intros [Hrounds Hoth Hcomp Hsamp]. unfold start_lookup.
  intros ([found t1] & Hf & [= <- <-])%task_bind_Ok.
  apply lookup_peers_sound in Hf as (Hac & Hlen & -> & Hall); [|done..].
  split_and!; [done..|]. do 2 eexists. split_and!; [|done..].
  etrans; [apply (Hrounds (round1 env)); set_solver|].
  etrans; [apply (Hrounds (round2 env)); set_solver|]. apply Hoth.
Qed.

(** A lookup only adds what it may.  Whatever the queried nodes answer and
    the node's other tasks do meanwhile, a lookup that succeeds was allowed by
    the access policy, has found at most 200 descriptions, each within the
    address limits, and has left the table in its invariant, with no entry that
    was neither there before nor found. *)
Theorem start_lookup_sound endpoint env t n t' :
  table_ok t → lookup_env_ok env → start_lookup svc endpoint env t = Ready (Ok (n, t')) →
  Config.access_control (ls_config svc) (SubjectEndpoint endpoint) (ActLookup Outbound) = true ∧
  (n ≤ 200)%nat ∧ table_ok t' ∧
  ∃ t0 found, rtc kad_step t t0 ∧ rtc kad_step t0 t' ∧ length found = n ∧
    Forall (λ p, PeerMsg_wf p ∧ advertisable (Entry_from p)) found ∧
    ∀ e, e ∈ all_entries t' → e ∈ map Entry_from found ∨ e ∈ all_entries t0.
Proof.
  intros Ht Henv (Hac & Hn & t0 & found & Hst & -> & Hlen & Hall)%start_lookup_Ok; [|done].
  destruct (add_peers_steps found (env_now env) t0 Hall) as [Hst' Hent].
  split_and!; [done..| |]; eauto 10 with karyon.
Qed.

End sessions.
