(* ===== verification/LookupExchange.v ===== *)
(** * A lookup between two honest nodes

    The querying side of [lookup.rs] run against its serving side. *)

From S2P Require Import Prelude Codec Endpoint Framed Message Bloom RoutingTable.
From S2P Require Import RoutingTableSpec RoutingTableQueries Version Session Config KadMessages.
From S2P Require Import Lookup LookupSpec.

Local Open Scope Z_scope.

Section exchange.
Context `{Semver}.
Context `{Bincode PingMsg} `{Bincode PongMsg} `{Bincode FindPeerMsg} `{Bincode PeerMsg}
  `{Bincode PeersMsg} `{Bincode ShutdownMsg}.
Context (wf_ping : PingMsg → Prop) (wf_pong : PongMsg → Prop) (wf_find : FindPeerMsg → Prop)
  (wf_peer : PeerMsg → Prop) (wf_peers : PeersMsg → Prop) (wf_shutdown : ShutdownMsg → Prop).
Context `{!BincodeLaws PingMsg wf_ping} `{!BincodeLaws PongMsg wf_pong}
  `{!BincodeLaws FindPeerMsg wf_find} `{!BincodeLaws PeerMsg wf_peer}
  `{!BincodeLaws PeersMsg wf_peers} `{!BincodeLaws ShutdownMsg wf_shutdown}.
Context (client server : LookupService).

Definition answer (t : RoutingTable) (target : PeerID) : list PeerMsg :=
  map PeerMsg_from (RoutingTable.closest_entries t (id_bytes target) MAX_PEERS_IN_PEERSMSG).

(** The messages of the exchange can be serialized. *)
Record exchangeable (nonce : list Z) (target : PeerID) (local : LocalBloom) (t : RoutingTable) :
    Prop := {
  ex_ping : wf_ping (mkPingMsg nonce (ver (Config.version (ls_config client))));
  ex_pong : wf_pong (mkPongMsg nonce);
  ex_find : wf_find (mkFindPeerMsg target);
  ex_peers : wf_peers (mkPeersMsg (answer t target));
  ex_peer : wf_peer (own_peer_msg client local);
  ex_shutdown : wf_shutdown (mkShutdownMsg 0);
}.

Lemma KadNetMsg_new_Ok {T} `{Bincode T} {wf : T → Prop} `{!BincodeLaws T wf} cmd x :
  wf x → ∃ m n, KadNetMsg_new cmd x = Ok m ∧ kad_command (kad_header m) = cmd ∧
    decode (kad_payload m) = Ok (x, n).
Proof.
  intros Hx. destruct (encode_decode x Hx) as (bs & He & Hd).
  exists (mkKadNetMsg (mkKadHeader cmd) bs), (Codec.len bs).
  unfold KadNetMsg_new. by rewrite He.
Qed.

(** A node's own description is accepted by every other node, if it listens on
    at most four endpoints and its discovery endpoints are not TLS. *)
Definition honest_endpoints (eps : LookupEndpoints) : Prop :=
  (length (listen eps) ≤ MAX_ADDRS_PER_PEER)%nat ∧
  ∀ a p, lookup_ep eps ≠ Some (Tls a p) ∧ refresh_ep eps ≠ Some (Tls a p).

Lemma advertised_addr_tls ep ip pa :
  advertised_addr ep ip = Some pa → protocol pa = PTls → ∃ a p, ep = Tls a p.
Proof.
  unfold advertised_addr. destruct ep; simpl; try done;
    intros Hpa; repeat case_match; simplify_eq/=; try done; by eauto.
Qed.

Lemma own_peer_msg_ok local :
  honest_endpoints (ls_endpoints client) →
  peer_reachable (own_peer_msg client local) = true →
  advertisable (Entry_from (own_peer_msg client local)).
Proof.
  intros [Hlen Htls] Hr. split; simpl.
  - etrans; [apply omap_length|done].
  - etrans; [apply omap_length|]. rewrite length_app.
    destruct (lookup_ep _), (refresh_ep _); simpl; unfold MAX_DISCOVERY_ADDRS_PER_PEER; lia.
  - apply Forall_forall. intros pa (ep & Hep & Hpa)%list_elem_of_omap Hp.
    destruct (advertised_addr_tls _ _ _ Hpa Hp) as (a & p & ->).
    destruct (Htls a p) as [Hl Hr']. apply elem_of_app in Hep.
    destruct (lookup_ep _), (refresh_ep _); simpl in Hep; set_solver.
  - by apply (peer_reachable_spec (own_peer_msg client local)).
Qed.

(** Undisturbed receives of the given messages. *)
Definition receives (now : Z) (ms : list KadNetMsg) : list inbound_event :=
  map (λ m, mkInbound id now (Ok m)) ms.

(** The messages of the exchange, as the two nodes build them. *)
Record transcript (nonce : list Z) (target : PeerID) (local : LocalBloom) (t : RoutingTable)
    (ping pong find peers peer shutdown : KadNetMsg) : Prop := {
  tr_ping : KadNetMsg_new KadPing (mkPingMsg nonce (ver (Config.version (ls_config client)))) = Ok ping;
  tr_pong : KadNetMsg_new KadPong (mkPongMsg nonce) = Ok pong;
  tr_find : KadNetMsg_new KadFindPeer (mkFindPeerMsg target) = Ok find;
  tr_peers : KadNetMsg_new KadPeers (mkPeersMsg (answer t target)) = Ok peers;
  tr_peer : KadNetMsg_new KadPeer (own_peer_msg client local) = Ok peer;
  tr_shutdown : KadNetMsg_new KadShutdown (mkShutdownMsg 0) = Ok shutdown;
}.

Lemma transcript_exists nonce target local t :
  exchangeable nonce target local t →
  ∃ ping pong find peers peer shutdown,
    transcript nonce target local t ping pong find peers peer shutdown.
Proof.
  intros [Hping Hpong Hfind Hpeers Hpeer Hshut].
  destruct (KadNetMsg_new_Ok KadPing _ Hping) as (m1 & _ & ? & _).
  destruct (KadNetMsg_new_Ok KadPong _ Hpong) as (m2 & _ & ? & _).
  destruct (KadNetMsg_new_Ok KadFindPeer _ Hfind) as (m3 & _ & ? & _).
  destruct (KadNetMsg_new_Ok KadPeers _ Hpeers) as (m4 & _ & ? & _).
  destruct (KadNetMsg_new_Ok KadPeer _ Hpeer) as (m5 & _ & ? & _).
  destruct (KadNetMsg_new_Ok KadShutdown _ Hshut) as (m6 & _ & ? & _).
  by exists m1, m2, m3, m4, m5, m6.
Qed.

(** A message built from a serializable value decodes to it. *)
Lemma KadNetMsg_decodes {T} `{Bincode T} {wf : T → Prop} `{!BincodeLaws T wf} cmd x m :
  wf x → KadNetMsg_new cmd x = Ok m →
  kad_command (kad_header m) = cmd ∧ ∃ n, decode (kad_payload m) = Ok (x, n).
Proof.
  intros Hx Hm. destruct (KadNetMsg_new_Ok cmd x Hx) as (m' & n & Hm' & Hc & Hd).
  rewrite Hm in Hm'. simplify_eq. by eauto.
Qed.

(** What the client sends after its ping, its search request excepted. *)
Definition farewell (local : LocalBloom) (peer shutdown : KadNetMsg) : list KadNetMsg :=
  if peer_reachable (own_peer_msg client local) then [peer; shutdown] else [shutdown].

Ltac run_session :=
  unfold mbind, session_bind, lift, recv, send, mret, session_ret; cbn [inbox send_results outbox].

Section sides.
Context (nonce : list Z) (target : PeerID) (local : LocalBloom) (now : Z) (t : RoutingTable).
Context (ping pong find peers_ peer shutdown : KadNetMsg).
Context (Hex : exchangeable nonce target local t)
  (Htr : transcript nonce target local t ping pong find peers_ peer shutdown).

Lemma client_side :
  table_ok t →
  ∃ wc, handle_outbound client (Some nonce) local target (good_wire 4 [pong; peers_])
      = (Ready (Ok (answer t target)), wc) ∧
    outbox wc = ping :: find :: farewell local peer shutdown.
Proof using All.
  intros Ht. destruct Htr as [Tping Tpong Tfind Tpeers Tpeer Tshut].
  destruct (KadNetMsg_decodes _ _ _ (ex_pong _ _ _ _ Hex) Tpong) as [Hc2 [n2 Hd2]].
  destruct (KadNetMsg_decodes _ _ _ (ex_peers _ _ _ _ Hex) Tpeers) as [Hc4 [n4 Hd4]].
  destruct (closest_peers_ok t (id_bytes target) Ht) as [Hlen Hadv].
  destruct (validate_peers_advertisable (answer t target)) as [Hval Hfil].
  { eapply Forall_impl; [exact Hadv|]. by intros p [_ ?]. }
  unfold handle_outbound, send_ping_msg, send_peer_msg, send_shutdown_msg, farewell, good_wire.
  run_session. cbn [ok_or map repeat]. rewrite Tping. cbn [inbox length outbound_loop].
  run_session. rewrite Hc2. rewrite Hd2. cbn [pong_nonce ping_nonce].
  rewrite bool_decide_eq_true_2 by done. cbn [negb].
  unfold send_findpeer_msg. run_session. rewrite Tfind. cbn [outbound_loop]. run_session.
  rewrite Hc4. rewrite Hd4. cbn [peers].
  fold (answer t target) in Hlen. rewrite (proj2 (Nat.ltb_ge _ _) Hlen). rewrite Hval, Hfil.
  destruct (peer_reachable _); cbn [negb]; rewrite ?Tpeer, Tshut; by eexists.
Qed.

Lemma server_side :
  table_ok t → honest_endpoints (ls_endpoints client) →
  version_match (req (Config.version (ls_config server)))
    (ver (Config.version (ls_config client))) = true →
  ∃ ws, handle_inbound server (receives now (ping :: find :: farewell local peer shutdown)) t
      (good_wire 2 [])
    = (Ready (Ok ()),
       if peer_reachable (own_peer_msg client local)
       then (RoutingTable.add_entry now t (Entry_from (own_peer_msg client local))).2 else t, ws) ∧
    outbox ws = [pong; peers_].
Proof using All.
  intros Ht Hhon Hver. destruct Htr as [Tping Tpong Tfind Tpeers Tpeer Tshut].
  destruct (KadNetMsg_decodes _ _ _ (ex_ping _ _ _ _ Hex) Tping) as [Hc1 [n1 Hd1]].
  destruct (KadNetMsg_decodes _ _ _ (ex_find _ _ _ _ Hex) Tfind) as [Hc3 [n3 Hd3]].
  destruct (KadNetMsg_decodes _ _ _ (ex_peer _ _ _ _ Hex) Tpeer) as [Hc5 [n5 Hd5]].
  destruct (KadNetMsg_decodes _ _ _ (ex_shutdown _ _ _ _ Hex) Tshut) as [Hc6 _].
  unfold farewell, good_wire, receives. cbn [map repeat handle_inbound others received clock id].
  unfold inbound_msg at 1. rewrite Hc1. run_session. rewrite Hd1. cbn [ping_version].
  rewrite Hver. cbn [negb]. unfold send_pong_msg. run_session. cbn [ping_nonce]. rewrite Tpong.
  unfold inbound_msg at 1. rewrite Hc3. run_session. rewrite Hd3. cbn [find_target].
  unfold send_peers_msg. run_session. fold (answer t target). rewrite Tpeers.
  destruct (peer_reachable (own_peer_msg client local)) eqn:Hr; cbn [map handle_inbound others received clock id].
  - destruct (validate_advertisable (own_peer_msg client local)) as [Hval _];
      [by apply own_peer_msg_ok|].
    unfold inbound_msg at 1. rewrite Hc5. run_session. rewrite Hd5, Hval, Hr. cbn [negb].
    unfold inbound_msg. rewrite Hc6. by eexists.
  - unfold inbound_msg. rewrite Hc6. by eexists.
Qed.

End sides.

(** C7: A lookup between two honest nodes does its work.  Over a connection that
    delivers what each side sends, both sides finish without an error: the
    client gets exactly the entries the server's table answers for its target,
    and the server's table gains the client's description, unless the client
    advertises no address. *)
Theorem lookup_exchange nonce target local now t :
  table_ok t → honest_endpoints (ls_endpoints client) →
  version_match (req (Config.version (ls_config server)))
    (ver (Config.version (ls_config client))) = true →
  exchangeable nonce target local t →
  ∃ cs ss wc ws,
    handle_outbound client (Some nonce) local target (good_wire 4 ss)
      = (Ready (Ok (answer t target)), wc) ∧ outbox wc = cs ∧
    handle_inbound server (receives now cs) t (good_wire 2 [])
      = (Ready (Ok ()),
         if peer_reachable (own_peer_msg client local)
         then (RoutingTable.add_entry now t (Entry_from (own_peer_msg client local))).2 else t,
         ws) ∧ outbox ws = ss.
Proof.
  intros Ht Hhon Hver Hex.
  destruct (transcript_exists _ _ _ _ Hex) as (ping & pong & find & prs & peer & shutdown & Htr).
  destruct (client_side _ _ _ now _ _ _ _ _ _ _ Hex Htr Ht) as (wc & Hc & Hco).
  destruct (server_side _ _ _ now _ _ _ _ _ _ _ Hex Htr Ht Hhon Hver) as (ws & Hs & Hso).
  exists (ping :: find :: farewell local peer shutdown), [pong; prs], wc, ws. done.
Qed.

End exchange.

(** ** Witnesses *)

Section witnesses.

#[local] Instance any_semver : Semver := {|
  VersionReq := ();
  parse_req s := if decide (s = "*") then Some () else None;
  print_req _ := "*";
  req_matches _ _ _ _ := true;
|}.

#[local] Instance ping_bincode : Bincode PingMsg := countable_bincode PingMsg.
#[local] Instance pong_bincode : Bincode PongMsg := countable_bincode PongMsg.
#[local] Instance find_bincode : Bincode FindPeerMsg := countable_bincode FindPeerMsg.
#[local] Instance peer_bincode : Bincode PeerMsg := typed_bincode PeerMsg PeerMsg_wf.
#[local] Instance peers_bincode : Bincode PeersMsg :=
  typed_bincode PeersMsg (λ m, Forall PeerMsg_wf (peers m)).
#[local] Instance shutdown_bincode : Bincode ShutdownMsg := countable_bincode ShutdownMsg.

#[local] Instance ping_laws wf : BincodeLaws PingMsg wf := countable_bincode_laws PingMsg wf.
#[local] Instance pong_laws wf : BincodeLaws PongMsg wf := countable_bincode_laws PongMsg wf.
#[local] Instance find_laws wf : BincodeLaws FindPeerMsg wf := countable_bincode_laws FindPeerMsg wf.
#[local] Instance shutdown_laws wf : BincodeLaws ShutdownMsg wf :=
  countable_bincode_laws ShutdownMsg wf.
#[local] Instance peer_laws : BincodeLaws PeerMsg PeerMsg_wf := proj1 (typed_bincode_laws _ _).
#[local] Instance peers_laws : BincodeLaws PeersMsg (λ m, Forall PeerMsg_wf (peers m)) :=
  proj1 (typed_bincode_laws _ _).
#[local] Instance peer_typed : BincodeTyped PeerMsg PeerMsg_wf := proj2 (typed_bincode_laws _ _).
#[local] Instance peers_typed : BincodeTyped PeersMsg (λ m, Forall PeerMsg_wf (peers m)) :=
  proj2 (typed_bincode_laws _ _).

Definition lookup_node (k : Key) (eps : list Endpoint) : LookupService :=
  mkLookupService _ (mkPeerID k) (mkLookupEndpoints eps None None)
    (Config.default_with (mkVersion _ (mkVersionInt 0 2 0) ())).

Definition client_node : LookupService :=
  lookup_node far_key [Tcp (Ip (V4 [9; 9; 9; 9])) 8000].

Definition server_node : LookupService := lookup_node zeros [].

Definition known_key : Key := key_at 30 [7] 1.

Definition known_entry : Entry := new_entry known_key [1; 2; 3; 4].

(** A server that knows one node. *)
Definition server_table : RoutingTable := (RoutingTable.add_entry 0 (RoutingTable.new zeros) known_entry).2.

Lemma known_entry_ok : key_wf (key known_entry) ∧ advertisable known_entry.
Proof.
  split; [by apply (bool_decide_unpack (id_wf (mkPeerID known_key))); vm_compute|].
  split; vm_compute; [lia|lia|repeat constructor; discriminate|left; discriminate].
Qed.

Lemma server_table_ok : table_ok server_table.
Proof.
  destruct known_entry_ok as [Hk Ha]. eapply kad_step_ok; [by apply kad_add|].
  apply table_ok_new, zeros_wf.
Qed.

Definition quiet_dial (w : wire KadNetMsg p2p_error) : dialing :=
  mkDialing (Ok w) (Some zeros) LocalBloom.default.

Lemma lookup_exchange_witness :
  ∃ cs ss wc ws,
    handle_outbound client_node (Some zeros) LocalBloom.default (mkPeerID known_key)
      (good_wire 4 ss) = (Ready (Ok (answer server_table (mkPeerID known_key))), wc) ∧
    outbox wc = cs ∧ (∃ t', handle_inbound server_node (receives 5 cs) server_table (good_wire 2 [])
      = (Ready (Ok ()), t', ws)) ∧ outbox ws = ss.
Proof.
  destruct (lookup_exchange (λ _, True) (λ _, True) (λ _, True) PeerMsg_wf
    (λ m, Forall PeerMsg_wf (peers m)) (λ _, True) client_node server_node zeros
    (mkPeerID known_key) LocalBloom.default 5 server_table) as (cs & ss & wc & ws & Hc & Hco & Hs & Hso).
  - exact server_table_ok.
  - split; [vm_compute; lia|]. intros a p. split; discriminate.
  - reflexivity.
  - split; try exact I.
    + destruct (closest_peers_ok server_table known_key server_table_ok) as [_ Hall].
      eapply Forall_impl; [exact Hall|]. by intros p [? _].
    + exact far_key_wf.
  - exists cs, ss, wc, ws. split; [exact Hc|]. split; [exact Hco|]. split; [|exact Hso].
    eexists. exact Hs.
Defined.

(** The remote node of the following runs answers with the known entry. *)
Definition scripted : list KadNetMsg :=
  match KadNetMsg_new KadPong (mkPongMsg zeros),
    KadNetMsg_new KadPeers (mkPeersMsg [PeerMsg_from known_entry]) with
  | Ok m1, Ok m2 => [m1; m2]
  | _, _ => []
  end.

Definition scripted_run :=
  handle_outbound client_node (Some zeros) LocalBloom.default (mkPeerID known_key)
    (good_wire 4 scripted).

Lemma lookup_outbound_sound_witness :
  ∃ ps w', scripted_run = (Ready (Ok ps), w') ∧ (length ps ≤ MAX_PEERS_IN_PEERSMSG)%nat.
Proof.
  pose (w' := scripted_run.2).
  assert (scripted_run = (Ready (Ok [PeerMsg_from known_entry]), w')) as Hrun
    by (vm_compute; reflexivity).
  exists [PeerMsg_from known_entry], w'. split; [exact Hrun|].
  exact (proj1 (lookup_outbound_sound client_node _ _ _ _ _ _ Hrun)).
Defined.

Definition inbound_script : list inbound_event :=
  receives 1 match KadNetMsg_new KadPeer (PeerMsg_from known_entry),
    KadNetMsg_new KadFindPeer (mkFindPeerMsg (mkPeerID known_key)) with
  | Ok m1, Ok m2 => [m1; m2]
  | _, _ => []
  end.

Lemma lookup_inbound_safe_witness :
  ∃ r t' w', handle_inbound server_node inbound_script (RoutingTable.new zeros) (good_wire 1 [])
    = (r, t', w') ∧ table_ok t' ∧ length (outbox w') = 1%nat.
Proof.
  destruct (handle_inbound server_node inbound_script (RoutingTable.new zeros) (good_wire 1 []))
    as [[r t'] w'] eqn:Hrun.
  exists r, t', w'. split; [reflexivity|]. split.
  - refine (proj1 (proj2 (lookup_inbound_safe server_node inbound_script (RoutingTable.new zeros)
      (good_wire 1 []) r t' w' _ _ Hrun))).
    + apply table_ok_new, zeros_wf.
    + repeat constructor; intros; apply rtc_refl.
  - apply (f_equal (λ x, length (outbox x.2))) in Hrun.
    etransitivity; [symmetry; exact Hrun|]. vm_compute. reflexivity.
Defined.

Definition quiet_round : lookup_round :=
  mkRound (Some far_key) (quiet_dial (good_wire 4 scripted)) id.

Definition quiet_env : lookup_env :=
  mkLookupEnv quiet_round quiet_round id (λ _, quiet_dial (good_wire 4 scripted)) id id
    (λ _, 3).

Lemma start_lookup_sound_witness :
  ∃ n t', start_lookup client_node (Tcp (Ip (V4 [1; 2; 3; 4])) 7000) quiet_env
    (RoutingTable.new far_key) = Ready (Ok (n, t')) ∧ n = 2%nat ∧ table_ok t'.
Proof.
  pose (t' := (RoutingTable.add_entry 3 (RoutingTable.new far_key) known_entry).2).
  assert (start_lookup client_node (Tcp (Ip (V4 [1; 2; 3; 4])) 7000) quiet_env
    (RoutingTable.new far_key) = Ready (Ok (2%nat, t'))) as Hrun by (vm_compute; reflexivity).
  exists 2%nat, t'. split; [exact Hrun|]. split; [reflexivity|].
  refine (proj1 (proj2 (proj2 (start_lookup_sound client_node _ quiet_env _ _ _ _ _ Hrun)))).
  - apply table_ok_new, far_key_wf.
  - split; [|intros; apply rtc_refl|reflexivity|reflexivity].
    intros r t Hr. apply elem_of_cons in Hr as [->|Hr]; [apply rtc_refl|].
    apply list_elem_of_singleton in Hr as ->. apply rtc_refl.
Defined.

End witnesses.
