(* ===== verification/Refresh.v ===== *)
(** * The Kademlia refresh service

    Models [p2p/src/discovery/kademlia/refresh.rs].  The answers of the sockets,
    the random source, clock readings (in nanoseconds) and the order in which
    concurrent pings complete are arguments.  The table is shared:
    [other_steps] is what other tasks do to it before an entry is handled. *)

From S2P Require Import Prelude Codec Endpoint Framed Message Bloom RoutingTable.
From S2P Require Import Version Session Config KadMessages.
From Stdlib Require SpecFloat.

Local Open Scope Z_scope.

Definition MAX_FAILURES : Z := 3.
Definition MAX_UDP_BUF : nat := 1024.
Definition REFRESH_PER_BUCKET : nat := 8.

(** ** Double-precision numbers *)

Abbreviation f64 := SpecFloat.spec_float.

Definition f64_of_Z (z : Z) : f64 := SpecFloat.binary_normalize 53 1024 z 0 false.
Definition f64_add : f64 → f64 → f64 := SpecFloat.SFadd 53 1024.
Definition f64_sub : f64 → f64 → f64 := SpecFloat.SFsub 53 1024.
Definition f64_mul : f64 → f64 → f64 := SpecFloat.SFmul 53 1024.
Definition f64_div : f64 → f64 → f64 := SpecFloat.SFdiv 53 1024.
Definition f64_leb : f64 → f64 → bool := SpecFloat.SFleb.

(** [f64::min]: the other argument if one is not a number. *)
Definition f64_min (a b : f64) : f64 :=
  if SpecFloat.SFltb b a then b
  else match a with SpecFloat.S754_nan => b | _ => a end.

(** [Duration::as_secs_f64] of a number of nanoseconds. *)
Definition as_secs_f64 (nanos : Z) : f64 :=
  f64_add (f64_of_Z (nanos / 1000000000))
    (f64_div (f64_of_Z (nanos mod 1000000000)) (f64_of_Z 1000000000)).

(** ** Rate limiting *)

Definition RL_CAPACITY : Z := 5.
Definition RL_REFILL_PER_SEC : f64 := f64_div (f64_of_Z 1) (f64_of_Z 2).

Record RateBucket := mkRateBucket { tokens : f64; last_refill : Z }.

Module RateBucket.

Definition new (now : Z) : RateBucket := mkRateBucket (f64_of_Z RL_CAPACITY) now.

Definition allow (now : Z) (b : RateBucket) : bool * RateBucket :=
  let elapsed := as_secs_f64 (Z.max 0 (now - last_refill b)) in
  let tk := f64_min (f64_add (tokens b) (f64_mul elapsed RL_REFILL_PER_SEC))
    (f64_of_Z RL_CAPACITY) in
  if f64_leb (f64_of_Z 1) tk then (true, mkRateBucket (f64_sub tk (f64_of_Z 1)) now)
  else (false, mkRateBucket tk now).

(** A burst of five passes, the sixth does not; one token is back after two
    seconds. *)
Example allow_burst :
  let step := λ '(oks, b) now, let '(ok, b) := allow now b in (oks ++ [ok], b) in
  (foldl step ([], new 0) [0; 0; 0; 0; 0; 0; 1999999999; 4000000000]).1 =
    [true; true; true; true; true; false; false; true].
Proof. vm_compute. reflexivity. Qed.

End RateBucket.

Section service.
Context `{Semver} `{Bincode RefreshMsg}.
Context (config : Config.t).

(** ** Pinging *)

(** What one ping meets: random bytes, the outcome of the send, and the outcome
    of [timeout(t, conn.recv_from(..)).await], whose outer error is an error of
    the core crate. *)
Record ping_attempt := mkAttempt {
  at_rnd : option (list Z);
  at_send : result net_error ();
  at_recv : result core_error (result net_error (list Z));
}.

Definition send_ping_msg (a : ping_attempt) : result p2p_error () :=
  nonce ← ok_or (at_rnd a) Rand;
  encoded ← encode (RefreshPing nonce);
  map_err KaryonNet (at_send a);;
  recvd ← map_err P2pKaryonCore (at_recv a);
  datagram ← map_err KaryonNet recvd;
  '(msg, _) ← decode (T := RefreshMsg) (take MAX_UDP_BUF datagram);
  match msg with
  | RefreshPong n => if negb (bool_decide (n = nonce)) then Err InvalidPongMsg else Ok ()
  | _ => Err (InvalidMsg "Unexpected ping msg")
  end.

(** The loop [while retry < retries], from the attempt [i] on. *)
Fixpoint ping_attempts (retries i : nat) (attempts : nat → ping_attempt) : result p2p_error () :=
  match retries with
  | O => Err Timeout
  | S retries =>
      match send_ping_msg (attempts i) with
      | Ok () => Ok ()
      | Err Timeout => ping_attempts retries (S i) attempts
      | Err err => Err err
      end
  end.

(** [dialed] is the outcome of opening the socket, [socket_addr] of resolving
    the endpoint. *)
Definition connect (dialed : Endpoint → result net_error ())
    (socket_addr : Endpoint → result net_error SocketAddr)
    (attempts : nat → ping_attempt) (entry : Entry) : result p2p_error () :=
  endpoint ← ok_or (pick_endpoint (discovery_addrs entry) [PUdp])
    (Lookup "No UDP discovery address available");
  if negb (Config.access_control config (SubjectEndpoint endpoint) (ActProbe Outbound))
  then Err AccessDenied
  else
    map_err KaryonNet (dialed endpoint);;
    map_err KaryonNet (socket_addr endpoint);;
    ping_attempts (Config.refresh_connect_retries config) 0 attempts.

(** ** Refreshing entries *)

Record refresh_env := mkRefreshEnv {
  outcome : Entry → result p2p_error ();
  now_at : BucketEntry → Z;
  finished : list BucketEntry → list BucketEntry;
  other_steps : BucketEntry → RoutingTable → RoutingTable;
}.

Definition refresh_entry (env : refresh_env) (be : BucketEntry) (t : RoutingTable) :
    bool * RoutingTable * list DiscoveryKind :=
  let t := other_steps env be t in
  match outcome env (entry be) with
  | Ok _ => (true, RoutingTable.update_entry (now_at env be) t (bkey be) PENDING_ENTRY, [])
  | Err _ =>
      if MAX_FAILURES <=? failures be
      then (false, RoutingTable.remove_entry t (bkey be), [DiscEntryEvicted (mkPeerID (bkey be))])
      else (false, RoutingTable.update_entry (now_at env be) t (bkey be) UNREACHABLE_ENTRY, [])
  end.

(** The first loop over a chunk: evictions, and the tasks it starts. *)
Fixpoint start_chunk (env : refresh_env) (chunk : list BucketEntry)
    (t : RoutingTable) (tasks : list BucketEntry) (evs : list DiscoveryKind) :
    RoutingTable * list BucketEntry * list DiscoveryKind :=
  match chunk with
  | [] => (t, tasks, evs)
  | be :: chunk =>
      if MAX_FAILURES <=? failures be then
        start_chunk env chunk (RoutingTable.remove_entry (other_steps env be t) (bkey be)) tasks
          (evs ++ [DiscEntryEvicted (mkPeerID (bkey be))])
      else start_chunk env chunk t (tasks ++ [be]) evs
  end.

(** The second loop: the tasks in the order they complete. *)
Fixpoint finish_chunk (env : refresh_env) (tasks : list BucketEntry) (succeeded : nat)
    (t : RoutingTable) (evs : list DiscoveryKind) : nat * RoutingTable * list DiscoveryKind :=
  match tasks with
  | [] => (succeeded, t, evs)
  | be :: tasks =>
      let '(ok, t, evs') := refresh_entry env be t in
      finish_chunk env tasks (if ok then S succeeded else succeeded) t (evs ++ evs')
  end.

(** [slice::chunks]; the length of the list is enough fuel. *)
Fixpoint chunks_fuel {A} (fuel n : nat) (l : list A) : list (list A) :=
  match fuel, l with
  | S fuel, _ :: _ => take n l :: chunks_fuel fuel n (drop n l)
  | _, _ => []
  end.

Definition chunks {A} (n : nat) (l : list A) : list (list A) := chunks_fuel (length l) n l.

Fixpoint refresh_chunks (env : refresh_env) (cs : list (list BucketEntry)) (succeeded : nat)
    (t : RoutingTable) (evs : list DiscoveryKind) : nat * RoutingTable * list DiscoveryKind :=
  match cs with
  | [] => (succeeded, t, evs)
  | chunk :: cs =>
      let '(t, tasks, evs) := start_chunk env chunk t [] evs in
      let '(succeeded, t, evs) := finish_chunk env (finished env tasks) succeeded t evs in
      refresh_chunks env cs succeeded t evs
  end.

Definition do_refresh (env : refresh_env) (entries : list BucketEntry) (t : RoutingTable) :
    nat * RoutingTable * list DiscoveryKind :=
  refresh_chunks env (chunks 16 entries) 0 t [].

(** One turn of [refresh_loop]. *)
Definition refresh_round (env : refresh_env) (t : RoutingTable) :
    RoutingTable * list DiscoveryKind :=
  let entries := RoutingTable.refresh_candidates t REFRESH_PER_BUCKET in
  let '(succeeded, t, evs) := do_refresh env entries t in
  let verdict :=
    if negb (bool_decide (entries = [])) && (succeeded =? 0)%nat then DiscRefreshFailed
    else DiscRefreshSucceeded succeeded in
  (t, DiscRefreshStarted :: evs ++ [verdict]).

(** ** Listening *)

(** Outcome, limiter, datagrams sent and monitor events of one call.  [now] and
    [now'] are the two clock readings, [sent] the outcome of the send. *)
Definition listen_to_ping_msg (t : RoutingTable)
    (recvd : result net_error (list Z * SocketAddr)) (now now' : Z) (sent : result net_error ())
    (rate_limiter : gmap IpAddr RateBucket) :
    result p2p_error () * gmap IpAddr RateBucket * list (list Z * SocketAddr)
    * list ConnectionKind :=
  match recvd with
  | Err e => (Err (KaryonNet e), rate_limiter, [], [])
  | Ok (datagram, sender) =>
      if negb (RoutingTable.has_discovery_ip t (ip sender)) then (Ok (), rate_limiter, [], [])
      else
        let '(allowed, b) :=
          RateBucket.allow now'
            (from_option id (RateBucket.new now) (rate_limiter !! ip sender)) in
        let rate_limiter := <[ip sender := b]> rate_limiter in
        if negb allowed then (Ok (), rate_limiter, [], [])
        else
          let sender_ep := Endpoint.new_udp_addr sender in
          if negb (Config.access_control config (SubjectEndpoint sender_ep) (ActProbe Inbound))
          then (Ok (), rate_limiter, [], [])
          else
            let evs := [ConnAccepted sender_ep] in
            match decode (T := RefreshMsg) (take MAX_UDP_BUF datagram) with
            | Err e => (Err e, rate_limiter, [], evs)
            | Ok (RefreshPing m, _) =>
                match encode (RefreshPong m) with
                | Err e => (Err e, rate_limiter, [], evs)
                | Ok encoded =>
                    match sent with
                    | Err e => (Err (KaryonNet e), rate_limiter, [], evs)
                    | Ok () =>
                        (Ok (), rate_limiter, [(encoded, sender)], evs ++ [ConnDisconnected sender_ep])
                    end
                end
            | Ok (RefreshPong _, _) =>
                (Err (InvalidMsg "Unexpected pong msg"), rate_limiter, [], evs)
            end
  end.

End service.
