(* ===== verification/RefreshSpec.v ===== *)
(** * Correctness of the refresh service

    What a refresh round does to the routing table, whatever the order in which
    its pings complete; the ping protocol between two nodes; and how often a
    ping is tried. *)

From S2P Require Import Prelude Codec Endpoint Framed Message Bloom RoutingTable.
From S2P Require Import RoutingTableSpec RoutingTableQueries Version Session Config KadMessages.
From S2P Require Import Lookup LookupSpec Refresh.

Local Open Scope Z_scope.

#[global] Instance Entry_eq_dec : EqDecision Entry.
Proof. solve_decision. Defined.
#[global] Instance BucketEntry_eq_dec : EqDecision BucketEntry.
Proof. solve_decision. Defined.

(** ** Removals on the whole table *)

Lemma remove_first_filter k es :
  NoDup (map (λ e, bkey e) es) →
  Bucket.remove_first k es = filter (λ e, bkey e ≠ k) es.
Proof.
  induction es as [|e es IH]; simpl; [done|]. intros [Hnin Hnd]%NoDup_cons.
  rewrite filter_cons. case_decide as Hk.
  - rewrite decide_False by tauto. symmetry. apply filter_all, Forall_forall.
    intros x Hx Hxk. apply Hnin. rewrite Hk, <-Hxk. by apply (list_elem_of_fmap_2 (λ e, bkey e)).
  - rewrite decide_True by done. by rewrite IH.
Qed.

(** The entry of a key, changed by [g] or dropped; all others as they are. *)
Definition at_key (k : Key) (g : BucketEntry → option BucketEntry) (e : BucketEntry) :
    option BucketEntry :=
  if decide (bkey e = k) then g e else Some e.

Lemma omap_ext_in {A B} (f g : A → option B) (l : list A) :
  (∀ x, x ∈ l → f x = g x) → omap f l = omap g l.
Proof.
  induction l as [|x l IH]; intros Hfg; csimpl; [done|].
  rewrite (Hfg x) by set_solver. rewrite IH by set_solver. done.
Qed.

Lemma omap_Some {A} (l : list A) : omap Some l = l.
Proof. induction l as [|x l IH]; csimpl; [done|]. by rewrite IH. Qed.

Lemma omap_omap {A B C} (f : A → option B) (g : B → option C) (l : list A) :
  omap g (omap f l) = omap (λ x, f x ≫= g) l.
Proof.
  induction l as [|x l IH]; csimpl; [done|]. destruct (f x) as [y|]; csimpl; [|done].
  by destruct (g y); rewrite IH.
Qed.

Lemma omap_concat {A B} (f : A → option B) (ls : list (list A)) : omap f (concat ls) = concat (map (omap f) ls).
Proof. induction ls as [|l ls IH]; simpl; [done|]. by rewrite omap_app, IH. Qed.

Lemma map_omap {A B} (f : A → B) (l : list A) : map f l = omap (λ x, Some (f x)) l.
Proof. induction l as [|x l IH]; csimpl; [done|]. by rewrite <-IH. Qed.

Lemma filter_omap {A} (P : A → Prop) `{∀ x, Decision (P x)} (l : list A) :
  filter P l = omap (λ x, if decide (P x) then Some x else None) l.
Proof.
  induction l as [|x l IH]; csimpl; [done|]. rewrite filter_cons. by case_decide; rewrite IH.
Qed.

(** A change of one bucket, seen on the whole table. *)
Lemma set_bucket_at_key t k i (g : BucketEntry → option BucketEntry) :
  wf t → key_wf k → RoutingTable.bucket_index t k = Some i →
  table_entries (RoutingTable.set_bucket t i
    (mkBucket (omap (at_key k g) (entries (RoutingTable.bucket_at t i))))) =
  omap (at_key k g) (table_entries t).
Proof.
  intros Hwf Hk Hi. pose proof (bucket_at_index t k i Hwf Hk Hi) as Hb.
  unfold table_entries. rewrite omap_concat, map_map. f_equal. apply list_eq. intros j.
  rewrite !list_lookup_fmap. simpl. destruct (decide (i = j)) as [<-|Hne].
  - rewrite list_lookup_insert_eq by (by eapply lookup_lt_Some). by rewrite Hb.
  - rewrite list_lookup_insert_ne by done. destruct (buckets t !! j) as [b|] eqn:Hj; [|done].
    simpl. f_equal. rewrite <-(omap_Some (entries b)) at 1. apply omap_ext_in. intros e He.
    unfold at_key. rewrite decide_False; [done|]. intros <-.
    destruct (wf_place t j b (entry e) Hwf Hj) as [_ Hp]; [by apply (list_elem_of_fmap_2 entry)|].
    congruence.
Qed.

(** A key with no bucket has no entry. *)
Lemma no_bucket_no_entry t k e :
  wf t → RoutingTable.bucket_index t k = None → e ∈ table_entries t → bkey e ≠ k.
Proof.
  intros Hwf Hk He <-. apply table_entries_elem in He as (b & [j Hj]%list_elem_of_lookup & He).
  destruct (wf_place t j b (entry e) Hwf Hj) as [_ Hp]; [by apply (list_elem_of_fmap_2 entry)|].
  congruence.
Qed.

Lemma remove_entry_omap t k :
  wf t → key_wf k →
  table_entries (RoutingTable.remove_entry t k) = omap (at_key k (λ _, None)) (table_entries t).
Proof.
  intros Hwf Hk. unfold RoutingTable.remove_entry.
  destruct (RoutingTable.bucket_index t k) as [i|] eqn:Hi.
  - rewrite <-(set_bucket_at_key t k i (λ _, None)) by done. do 2 f_equal. unfold Bucket.remove. f_equal.
    rewrite remove_first_filter, filter_omap.
    + apply omap_ext_in. intros e _. unfold at_key.
      destruct (decide (bkey e = k)); [rewrite decide_False by tauto|rewrite decide_True by done]; done.
    + rewrite bkeys_bentries. eapply (wf_buckets t Hwf i). by eapply bucket_at_index.
  - rewrite <-(omap_Some (table_entries t)) at 1. apply omap_ext_in. intros e He.
    unfold at_key. rewrite decide_False; [done|]. by eapply no_bucket_no_entry.
Qed.

Lemma update_entry_omap now t k flag :
  wf t → key_wf k →
  table_entries (RoutingTable.update_entry now t k flag) =
  omap (at_key k (λ e, Some (Bucket.set_status now flag e))) (table_entries t).
Proof.
  intros Hwf Hk. unfold table_entries. rewrite update_entry_map by done.
  rewrite <-concat_map, map_omap. apply omap_ext_in. intros e _. unfold at_key. by case_decide.
Qed.

Lemma table_entries_keys t : map (λ e, bkey e) (table_entries t) = map key (all_entries t).
Proof.
  unfold table_entries, all_entries. rewrite !concat_map, !map_map. f_equal.
  apply map_ext. intros b. apply bkeys_bentries.
Qed.

Lemma table_entries_key_wf t e : wf t → e ∈ table_entries t → key_wf (bkey e).
Proof.
  intros Hwf (b & [j Hj]%list_elem_of_lookup & He)%table_entries_elem.
  by destruct (wf_place t j b (entry e) Hwf Hj) as [? _];
    [apply (list_elem_of_fmap_2 entry)|].
Qed.

(** ** A refresh round *)

Lemma chunks_fuel_concat {A} (n : nat) : (0 < n)%nat → ∀ fuel (l : list A),
  (length l ≤ fuel)%nat → concat (chunks_fuel fuel n l) = l.
Proof.
  intros Hn. induction fuel as [|fuel IH]; intros [|x l] Hl; simpl in *; [done|lia|done|].
  rewrite IH by (rewrite length_drop; simpl; lia). apply (take_drop n (x :: l)).
Qed.

(** What becomes of an entry that is refreshed. *)
Definition refreshed (env : refresh_env) (be : BucketEntry) : option BucketEntry :=
  if MAX_FAILURES <=? failures be then None
  else
    match outcome env (entry be) with
    | Ok _ => Some (Bucket.set_status (now_at env be) PENDING_ENTRY be)
    | Err _ => Some (Bucket.set_status (now_at env be) UNREACHABLE_ENTRY be)
    end.

(** The entries in the order a round handles them: in every chunk first the
    evictions, then the pings as they complete. *)
Definition handled_chunk (env : refresh_env) (chunk : list BucketEntry) : list BucketEntry :=
  List.filter (λ be, MAX_FAILURES <=? failures be) chunk ++
  finished env (List.filter (λ be, negb (MAX_FAILURES <=? failures be)) chunk).

Definition handle (env : refresh_env) (t : RoutingTable) (be : BucketEntry) : RoutingTable :=
  if MAX_FAILURES <=? failures be
  then RoutingTable.remove_entry (other_steps env be t) (bkey be)
  else (refresh_entry env be t).1.2.

Definition answered (env : refresh_env) (be : BucketEntry) : bool :=
  negb (MAX_FAILURES <=? failures be) && is_ok (outcome env (entry be)).

Lemma start_chunk_spec env chunk : ∀ t tasks evs,
  start_chunk env chunk t tasks evs =
  (foldl (handle env) t (List.filter (λ be, MAX_FAILURES <=? failures be) chunk),
   tasks ++ List.filter (λ be, negb (MAX_FAILURES <=? failures be)) chunk,
   evs ++ map (λ be, DiscEntryEvicted (mkPeerID (bkey be)))
     (List.filter (λ be, MAX_FAILURES <=? failures be) chunk)).
Proof.
  induction chunk as [|be chunk IH]; intros t tasks evs; simpl; [by rewrite !app_nil_r|].
  destruct (MAX_FAILURES <=? failures be) eqn:Hf; rewrite IH; simpl.
  - assert (handle env t be = RoutingTable.remove_entry (other_steps env be t) (bkey be)) as ->
      by (unfold handle; by rewrite Hf).
    by rewrite <-app_assoc.
  - by rewrite <-app_assoc.
Qed.

Lemma finish_chunk_spec env tasks : ∀ n t evs,
  Forall (λ be, (MAX_FAILURES <=? failures be) = false) tasks →
  finish_chunk env tasks n t evs =
  ((n + countb (answered env) tasks)%nat, foldl (handle env) t tasks, evs).
Proof.
  induction tasks as [|be tasks IH]; intros n t evs Hall; simpl; [by rewrite Nat.add_0_r|].
  apply Forall_cons in Hall as [Hbe Hall].
  assert (refresh_entry env be t = (answered env be, handle env t be, [])) as ->.
  { unfold handle, answered, refresh_entry. rewrite Hbe. by destruct (outcome env (entry be)). }
  rewrite IH by done. rewrite app_nil_r. by destruct (answered env be); simpl;
    rewrite ?Nat.add_succ_r.
Qed.

Section round.
Context (env : refresh_env).

Lemma filter_split {A} (f : A → bool) (l : list A) :
  List.filter f l ++ List.filter (λ x, negb (f x)) l ≡ₚ l.
Proof.
  induction l as [|x l IH]; simpl; [done|]. destruct (f x); simpl; [by rewrite IH|].
  by rewrite <-Permutation_middle, IH.
Qed.

(** Each step of a round is a step of the shared table. *)
Lemma handle_steps t be :
  (∀ t, rtc kad_step t (other_steps env be t)) → key_wf (bkey be) →
  rtc kad_step t (handle env t be).
Proof.
  intros Hoth Hk. unfold handle, refresh_entry.
  destruct (MAX_FAILURES <=? failures be); [|destruct (outcome env (entry be))];
    (eapply rtc_r; [apply Hoth|by constructor]).
Qed.

(** Without interference, handling an entry is one change at its key. *)
Lemma handle_omap t be :
  (∀ t, other_steps env be t = t) → wf t → key_wf (bkey be) →
  table_entries (handle env t be) =
  omap (at_key (bkey be) (λ e,
    if MAX_FAILURES <=? failures be then None
    else match outcome env (entry be) with
         | Ok _ => Some (Bucket.set_status (now_at env be) PENDING_ENTRY e)
         | Err _ => Some (Bucket.set_status (now_at env be) UNREACHABLE_ENTRY e)
         end)) (table_entries t).
Proof.
  intros Hoth Hwf Hk. unfold handle, refresh_entry. rewrite Hoth.
  destruct (MAX_FAILURES <=? failures be) eqn:Hf; [by apply remove_entry_omap|].
  destruct (outcome env (entry be)); simpl; by apply update_entry_omap.
Qed.

Lemma handle_wf t be :
  (∀ t, other_steps env be t = t) → wf t → key_wf (bkey be) → wf (handle env t be).
Proof.
  intros Hoth Hwf Hk. unfold handle, refresh_entry. rewrite Hoth.
  destruct (MAX_FAILURES <=? failures be); [by apply wf_remove|].
  destruct (outcome env (entry be)); simpl; by apply wf_update.
Qed.

(** A list of entries with distinct keys, handled one after the other. *)
Lemma handle_all l : ∀ t,
  (∀ be t, other_steps env be t = t) → wf t → NoDup (map (λ e, bkey e) l) →
  Forall (λ be, key_wf (bkey be)) l →
  wf (foldl (handle env) t l) ∧
  ((∀ be e, be ∈ l → e ∈ table_entries t → bkey e = bkey be → e = be) →
   table_entries (foldl (handle env) t l) =
   omap (λ e, if decide (e ∈ l) then refreshed env e else Some e) (table_entries t)).
Proof.
  intros t Hoth. revert t. induction l as [|be l IH]; intros t Hwf Hnd Hk; cbn [foldl].
  { split; [done|]. intros _. rewrite <-(omap_Some (table_entries t)) at 1.
    apply omap_ext_in. intros e _. by rewrite decide_False by apply not_elem_of_nil. }
  simpl in Hnd. apply NoDup_cons in Hnd as [Hnin Hnd]. apply Forall_cons in Hk as [Hkb Hk].
  destruct (IH (handle env t be)) as [Hwf' Heq]; [by apply handle_wf|done..|].
  split; [done|]. intros Huniq.
  assert (∀ x, x ∈ l → bkey x ≠ bkey be) as Hlne.
  { intros x Hx Hxe. apply Hnin. rewrite <-Hxe. by apply (list_elem_of_fmap_2 (λ e, bkey e)). }
  rewrite Heq; clear Heq.
  - rewrite handle_omap by done. rewrite omap_omap. apply omap_ext_in. intros e He.
    unfold at_key. destruct (decide (bkey e = bkey be)) as [Hke|Hke].
    + rewrite (Huniq be e) by set_solver. rewrite (decide_True (P := be ∈ be :: l)) by set_solver.
      unfold refreshed. destruct (MAX_FAILURES <=? failures be) eqn:Hf; [done|].
      destruct (outcome env (entry be)); simpl; rewrite decide_False; try done;
        intros Hin%Hlne; by rewrite set_status_spec in Hin.
    + simpl. destruct (decide (e ∈ l)) as [Hin|Hin].
      * by rewrite decide_True by set_solver.
      * rewrite decide_False; [done|]. intros [->|?]%elem_of_cons; done.
  - intros x e Hx He Hke. rewrite handle_omap in He by done.
    apply list_elem_of_omap in He as (e' & He' & Hat). unfold at_key in Hat.
    case_decide as Hk'.
    + exfalso. apply (Hlne x Hx). rewrite <-Hke, <-Hk'.
      repeat case_match; simplify_eq; by rewrite set_status_spec.
    + simplify_eq. by apply Huniq; [set_solver| |].
Qed.

(** Pings complete in some order. *)
Context (Hfin : ∀ l, finished env l ≡ₚ l).

Lemma handled_chunk_perm chunk : handled_chunk env chunk ≡ₚ chunk.
Proof. unfold handled_chunk. rewrite Hfin. apply filter_split. Qed.

Lemma refresh_chunks_spec cs : ∀ n t evs, ∃ evs',
  refresh_chunks env cs n t evs =
  ((n + countb (answered env) (concat cs))%nat,
   foldl (handle env) t (concat (map (handled_chunk env) cs)), evs').
Proof.
  induction cs as [|chunk cs IH]; intros n t evs; simpl; [by exists evs; rewrite Nat.add_0_r|].
  rewrite start_chunk_spec. simpl. set (dropped := List.filter (λ be, MAX_FAILURES <=? failures be) chunk).
  set (tasks := List.filter (λ be, negb (MAX_FAILURES <=? failures be)) chunk). set (evs1 := evs ++ _).
  assert (Forall (λ be, (MAX_FAILURES <=? failures be) = false) (finished env tasks)) as Hok.
  { apply Forall_forall. intros be. rewrite Hfin. intros [_ Hf]%list_elem_of_In%filter_In.
    by apply negb_true_iff in Hf. }
  rewrite finish_chunk_spec by done.
  assert (foldl (handle env) (foldl (handle env) t dropped) (finished env tasks) =
    foldl (handle env) t (handled_chunk env chunk)) as ->
    by (unfold handled_chunk; by rewrite foldl_app).
  destruct (IH (n + countb (answered env) (finished env tasks))%nat
    (foldl (handle env) t (handled_chunk env chunk)) evs1) as [evs' IH'].
  exists evs'. rewrite foldl_app, IH'.
  assert (countb (answered env) chunk = countb (answered env) (finished env tasks)) as Hc.
  { rewrite (countb_perm _ _ _ (Hfin _)), <-(countb_perm _ _ _
      (filter_split (λ be, MAX_FAILURES <=? failures be) chunk)), countb_app.
    rewrite (proj2 (countb_zero _ _)); [done|].
    intros be [_ Hf]%list_elem_of_In%filter_In. unfold answered. by rewrite Hf. }
  by rewrite countb_app, Hc, Nat.add_assoc.
Qed.

(** The entries in the order the whole round handles them. *)
Definition handled (l : list BucketEntry) : list BucketEntry :=
  concat (map (handled_chunk env) (chunks 16 l)).

Lemma handled_perm l : handled l ≡ₚ l.
Proof.
  unfold handled. trans (concat (chunks 16 l)); [|unfold chunks; by rewrite chunks_fuel_concat by lia].
  induction (chunks 16 l) as [|c cs IH]; simpl; [done|]. by rewrite handled_chunk_perm, IH.
Qed.

Lemma do_refresh_spec l t : ∃ evs,
  do_refresh env l t = (countb (answered env) l, foldl (handle env) t (handled l), evs).
Proof.
  unfold do_refresh. destruct (refresh_chunks_spec (chunks 16 l) 0 t []) as [evs ->].
  exists evs. do 2 f_equal. unfold chunks. by rewrite chunks_fuel_concat by lia.
Qed.

End round.

(** A refresh round does to the table exactly what it should, in whatever
    order its pings complete.  Of the entries it picked (at most eight of a
    bucket, none connected), those with three failures are gone, those that
    answered are pending and seen, those that did not are unreachable with one
    more failure; every other entry is as before, in its place.  The reported
    number is the number of entries that answered. *)
Theorem refresh_round_spec env t :
  wf t → (∀ l, finished env l ≡ₚ l) → (∀ be t, other_steps env be t = t) →
  let picked := RoutingTable.refresh_candidates t REFRESH_PER_BUCKET in
  let '(t', evs) := refresh_round env t in
  wf t' ∧
  table_entries t' =
    omap (λ e, if decide (e ∈ picked) then refreshed env e else Some e) (table_entries t) ∧
  last evs = Some (if negb (bool_decide (picked = [])) && (countb (answered env) picked =? 0)%nat
    then DiscRefreshFailed else DiscRefreshSucceeded (countb (answered env) picked)).
Proof.
  intros Hwf Hfin Hoth picked. unfold refresh_round. cbv zeta. fold picked.
  destruct (do_refresh_spec env Hfin picked t) as [evs ->].
  assert (sublist picked (table_entries t)) as Hsub.
  { unfold picked, RoutingTable.refresh_candidates, table_entries.
    induction (buckets t) as [|b bs IH]; simpl; [done|]. apply sublist_app; [|done].
    etrans; [apply sublist_take|]. clear. induction (entries b) as [|e es IH]; simpl; [done|].
    destruct (negb _ && _); by constructor. }
  assert (∀ e, e ∈ picked → e ∈ table_entries t) as Hin
    by (intros e He; by eapply elem_of_sublist).
  assert (NoDup (map (λ e, bkey e) (table_entries t))) as Hnd.
  { rewrite table_entries_keys. by apply all_entries_nodup. }
  destruct (handle_all env (handled env picked) t) as [Hwf' Heq]; [done|done| | |].
  - rewrite handled_perm by done. eapply sublist_NoDup; [done|]. by apply (fmap_sublist (λ e, bkey e)).
  - apply Forall_forall. intros e. rewrite handled_perm by done.
    intros He%Hin. by eapply table_entries_key_wf.
  - split; [done|]. split; [|by rewrite app_comm_cons, last_snoc].
    rewrite Heq.
    + apply omap_ext_in. intros e He. apply decide_ext. by rewrite handled_perm.
    + intros be e Hbe He Hk. rewrite handled_perm in Hbe by done. apply Hin in Hbe.
      apply list_elem_of_lookup in He as [i Hi]. apply list_elem_of_lookup in Hbe as [j Hj].
      assert (i = j) as ->; [|congruence].
      eapply (NoDup_lookup _ i j (bkey e) Hnd); rewrite list_lookup_fmap;
        [by rewrite Hi|rewrite Hj; simpl; by f_equal].
Qed.

(** Under interference, a round still only takes steps of the shared table. *)
Lemma do_refresh_steps env l t :
  (∀ l, finished env l ≡ₚ l) → (∀ be t, rtc kad_step t (other_steps env be t)) →
  Forall (λ be, key_wf (bkey be)) l → rtc kad_step t (do_refresh env l t).1.2.
Proof.
  intros Hfin Hoth Hk. destruct (do_refresh_spec env Hfin l t) as [evs ->]. simpl.
  rewrite <-(handled_perm env Hfin l) in Hk. revert t.
  induction Hk as [|be l' Hbe _ IH]; intros t; simpl; [done|].
  etrans; [by apply handle_steps|apply IH].
Qed.

(** ** Pings *)

#[local] Arguments take : simpl never.

Section pings.
Context `{Semver} `{Bincode RefreshMsg}.
Context (config : Config.t).

(** A ping is never retried.  The retry arm of [connect] waits for
    [Error::Timeout], but the timeout of a ping arrives as an error of the core
    crate: whatever the number of retries configured, only the first ping is
    sent, and its outcome is the outcome of [connect]. *)
Theorem refresh_pings_once retries i attempts :
  ping_attempts (S retries) i attempts = send_ping_msg (attempts i).
Proof.
  simpl. assert (send_ping_msg (attempts i) ≠ Err Timeout) as Hne.
  { unfold send_ping_msg, encode, decode.
    destruct (attempts i) as [[nonce|] snd rcv]; simpl; [|done].
    destruct (encode_to_vec _); simpl; [|done]. destruct snd as [[]|]; simpl; [|done].
    destruct rcv as [[dg|]|]; simpl; [|done..].
    destruct (decode_from_slice _) as [[[] ?]|]; simpl; [done| |done]. by case_bool_decide. }
  by destruct (send_ping_msg (attempts i)) as [[]|[]].
Qed.

(** The ping listener answers nobody it should not.  It sends at most one
    datagram per datagram received, back to its source, and only if the source
    is a known discovery address, has a token left and is allowed by the
    policy; the datagram was a ping and the answer echoes its nonce. *)
Theorem refresh_listen_safe t recvd now now' sent limiter r limiter' out evs :
  listen_to_ping_msg config t recvd now now' sent limiter = (r, limiter', out, evs) →
  out = [] ∨
  ∃ datagram sender m n bs, out = [(bs, sender)] ∧ recvd = Ok (datagram, sender) ∧
    (∃ be a, be ∈ table_entries t ∧ a ∈ discovery_addrs (entry be) ∧ addr a = Ip (ip sender)) ∧
    (RateBucket.allow now'
      (from_option id (RateBucket.new now) (limiter !! ip sender))).1 = true ∧
    Config.access_control config (SubjectEndpoint (Endpoint.new_udp_addr sender))
      (ActProbe Inbound) = true ∧
    decode (take MAX_UDP_BUF datagram) = Ok (RefreshPing m, n) ∧ encode (RefreshPong m) = Ok bs.
Proof.
  unfold listen_to_ping_msg. destruct recvd as [[datagram sender]|e]; [|intros [= <- <- <- <-]; by left].
  destruct (RoutingTable.has_discovery_ip t (ip sender)) eqn:Hknown;
    [simpl|intros [= <- <- <- <-]; by left].
  apply has_discovery_ip_spec in Hknown.
  destruct (RateBucket.allow _ _) as [[] b] eqn:Hallow; [simpl|intros [= <- <- <- <-]; by left].
  destruct (Config.access_control _ _ _) eqn:Hac; [simpl|intros [= <- <- <- <-]; by left].
  destruct (decode _) as [[[m|m] n]|e] eqn:Hd; [|intros [= <- <- <- <-]; by left..].
  destruct (encode (RefreshPong m)) as [bs|e] eqn:He; [|intros [= <- <- <- <-]; by left].
  destruct sent as [[]|e]; intros [= <- <- <- <-]; [right|by left].
  exists datagram, sender, m, n, bs. by rewrite Hallow.
Qed.

Context (wf_msg : RefreshMsg → Prop) `{!BincodeLaws RefreshMsg wf_msg}.

Definition small (m : RefreshMsg) : Prop :=
  ∀ bs, encode m = Ok bs → (length bs ≤ MAX_UDP_BUF)%nat.

(** The ping protocol works between honest nodes: a node whose address is
    known to the listener, allowed and within its rate gets its nonce back in
    one datagram, and accepts it. *)
Theorem refresh_ping_pong t nonce sender now now' limiter :
  wf_msg (RefreshPing nonce) → wf_msg (RefreshPong nonce) →
  small (RefreshPing nonce) → small (RefreshPong nonce) →
  RoutingTable.has_discovery_ip t (ip sender) = true →
  (RateBucket.allow now' (from_option id (RateBucket.new now) (limiter !! ip sender))).1 = true →
  Config.access_control config (SubjectEndpoint (Endpoint.new_udp_addr sender))
    (ActProbe Inbound) = true →
  ∃ ping pong limiter' evs, encode (RefreshPing nonce) = Ok ping ∧
    listen_to_ping_msg config t (Ok (ping, sender)) now now' (Ok ()) limiter =
      (Ok (), limiter', [(pong, sender)], evs) ∧
    send_ping_msg (mkAttempt (Some nonce) (Ok ()) (Ok (Ok pong))) = Ok ().
Proof.
  intros Hw1 Hw2 Hs1 Hs2 Hknown Hallow Hac.
  destruct (encode_decode _ Hw1) as (ping & He1 & Hd1).
  destruct (encode_decode _ Hw2) as (pong & He2 & Hd2).
  unfold listen_to_ping_msg. rewrite Hknown. simpl.
  destruct (RateBucket.allow _ _) as [ok b]. simpl in Hallow. subst ok. simpl. rewrite Hac. simpl.
  exists ping, pong. rewrite take_ge by (by apply Hs1). rewrite Hd1, He2.
  do 2 eexists. split; [done|]. split; [reflexivity|].
  unfold send_ping_msg. simpl. rewrite He1. simpl. rewrite take_ge by (by apply Hs2).
  rewrite Hd2. simpl. by rewrite bool_decide_eq_true_2.
Qed.

End pings.

(** ** Witnesses *)

Section witnesses.

(** An entry's table where it answers, and one where it has failed. *)
Definition answering_env : refresh_env := mkRefreshEnv (λ _, Ok ()) (λ _, 9) (@rev _) (λ _ t, t).

Lemma refresh_round_spec_witness :
  ∃ t' evs, refresh_round answering_env one_table = (t', evs) ∧
    wf t' ∧ last evs = Some (DiscRefreshSucceeded 1).
Proof.
  pose proof (refresh_round_spec answering_env one_table) as Hspec.
  destruct (refresh_round answering_env one_table) as [t' evs] eqn:Hr.
  exists t', evs. split; [reflexivity|].
  destruct Hspec as (Hwf & _ & Hlast).
  - exact one_table_wf.
  - intros l. symmetry. apply Permutation_rev.
  - intros be t. reflexivity.
  - split; [exact Hwf|]. exact Hlast.
Defined.

#[local] Instance any_semver : Semver := {|
  VersionReq := ();
  parse_req s := if decide (s = "*") then Some () else None;
  print_req _ := "*";
  req_matches _ _ _ _ := true;
|}.

#[local] Instance refresh_bincode : Bincode RefreshMsg := {|
  encode_to_vec m := match m with RefreshPing n => Some (0 :: n) | RefreshPong n => Some (1 :: n) end;
  decode_from_slice bs :=
    match bs with
    | 0 :: n => Some (RefreshPing n, len bs)
    | 1 :: n => Some (RefreshPong n, len bs)
    | _ => None
    end;
|}.

#[local] Instance refresh_laws wf : BincodeLaws RefreshMsg wf.
Proof. intros [n|n] _; eexists; by split. Qed.

Definition open_config : Config.t :=
  Config.default_with (mkVersion _ (mkVersionInt 0 2 0) ()).

Definition known_addr : SocketAddr := mkSocketAddr (V4 [8; 8; 8; 8]) 5000.

Lemma refresh_ping_pong_witness :
  ∃ ping pong limiter' evs, encode (RefreshPing zeros) = Ok ping ∧
    listen_to_ping_msg open_config one_table (Ok (ping, known_addr)) 0 0 (Ok ()) ∅ =
      (Ok (), limiter', [(pong, known_addr)], evs) ∧
    send_ping_msg (mkAttempt (Some zeros) (Ok ()) (Ok (Ok pong))) = Ok ().
Proof.
  apply (refresh_ping_pong open_config (λ _, True) one_table zeros known_addr 0 0 ∅).
  - exact I.
  - exact I.
  - intros bs [= <-]. vm_compute. lia.
  - intros bs [= <-]. vm_compute. lia.
  - vm_compute. reflexivity.
  - vm_compute. reflexivity.
  - reflexivity.
Defined.

Lemma refresh_listen_safe_witness :
  ∃ r limiter' out evs,
    listen_to_ping_msg open_config one_table (Ok (0 :: zeros, known_addr)) 0 0 (Ok ()) ∅ =
      (r, limiter', out, evs) ∧ out ≠ [] ∧
    (out = [] ∨ ∃ bs, out = [(bs, known_addr)]).
Proof.
  destruct (listen_to_ping_msg open_config one_table (Ok (0 :: zeros, known_addr)) 0 0 (Ok ()) ∅)
    as [[[r limiter'] out] evs] eqn:Hrun.
  exists r, limiter', out, evs. split; [reflexivity|]. split.
  - intros ->. apply (f_equal (λ x, x.1.2)) in Hrun. vm_compute in Hrun. discriminate.
  - destruct (refresh_listen_safe open_config _ _ _ _ _ _ _ _ _ _ Hrun)
      as [Hnil|(dg & sender & m & n & bs & Hout & Hrecv & _)]; [left; exact Hnil|].
    right. exists bs. injection Hrecv as _ <-. exact Hout.
Defined.

End witnesses.
