(* ===== verification/RefreshLoop.v ===== *)
(** * The loops of the refresh service

    Models the two endless loops of [p2p/src/discovery/kademlia/refresh.rs]:
    [refresh_loop], round after round, and [listen_loop] with the limiter it keeps
    from ping to ping.

    The theorems follow an entry of the routing table through all the rounds in
    which the refresh service alone changes the table: when it is evicted, and when
    it is never pinged. *)

From S2P Require Import Prelude Codec Endpoint Framed Message Bloom RoutingTable.
From S2P Require Import RoutingTableSpec RoutingTableQueries Version Session Config KadMessages.
From S2P Require Import Lookup LookupSpec Refresh RefreshSpec.

Local Open Scope Z_scope.

(** ** The loops *)

(** What a task does to be seen from outside. *)
Inductive refresh_act := Slept (secs : Z) | NotifyDiscovery (ev : DiscoveryKind).

Section loops.
Context `{Semver} (config : Config.t).

(** The first [n] turns of [refresh_loop]; [envs] is what each of them meets. *)
Fixpoint refresh_loop (envs : nat → refresh_env) (n : nat) (t : RoutingTable) :
    RoutingTable * list refresh_act :=
  match n with
  | O => (t, [])
  | S n =>
      let '(t, acts) := refresh_loop envs n t in
      let '(t, evs) := refresh_round (envs n) t in
      (t, acts ++ Slept (Config.refresh_interval config) :: map NotifyDiscovery evs)
  end.

(** What one turn of [listen_loop] meets: the table, the datagram, the two clock
    readings and the outcome of the answer. *)
Record ping_input := mkPingInput {
  pi_table : RoutingTable;
  pi_recvd : result net_error (list Z * SocketAddr);
  pi_now : Z;
  pi_now' : Z;
  pi_sent : result net_error ();
}.

Context `{Bincode RefreshMsg}.

(** The loop over the inputs so far: the limiter, what was sent, the events. *)
Fixpoint listen_turns (ins : list ping_input) (rate_limiter : gmap IpAddr RateBucket) :
    gmap IpAddr RateBucket * list (list Z * SocketAddr) * list ConnectionKind :=
  match ins with
  | [] => (rate_limiter, [], [])
  | i :: ins =>
      let '(res, rate_limiter, out, evs) :=
        listen_to_ping_msg config (pi_table i) (pi_recvd i) (pi_now i) (pi_now' i) (pi_sent i) rate_limiter in
      let evs := match res with Ok _ => evs | Err _ => evs ++ [ConnAcceptFailed] end in
      let '(rate_limiter, out', evs') := listen_turns ins rate_limiter in
      (rate_limiter, out ++ out', evs ++ evs')
  end.

(** [Pending] is the loop, which waits for the next datagram. *)
Definition listen_loop (endpoint : Endpoint) (listened : result net_error ()) (ins : list ping_input) :
    poll (result p2p_error ()) * list (list Z * SocketAddr) * list ConnectionKind :=
  match listened with
  | Err err => (Ready (Err (KaryonNet err)), [], [ConnListenFailed endpoint])
  | Ok _ =>
      let '(_, out, evs) := listen_turns ins ∅ in
      (Pending, out, ConnListening endpoint :: evs)
  end.

End loops.

(** ** A round, bucket by bucket *)

(** The entries of a bucket that a round picks. *)
Definition pickable_entry (e : BucketEntry) : bool := negb (is_connected e) && negb (is_incompatible e).
Definition picks (es : list BucketEntry) : list BucketEntry :=
  take REFRESH_PER_BUCKET (List.filter pickable_entry es).

Definition refresh_bucket (env : refresh_env) (es : list BucketEntry) : list BucketEntry :=
  omap (λ e, if decide (e ∈ picks es) then refreshed env e else Some e) es.

Lemma filter_none {A} (P : A → Prop) `{∀ x, Decision (P x)} l : Forall (λ x, ¬ P x) l → filter P l = [].
Proof. induction 1; [done|]. by rewrite filter_cons_False. Qed.

(** A class of the elements of a list of lists, when it says which list they are in. *)
Lemma filter_concat {A} (idx : A → option nat) (ls : list (list A)) : ∀ off,
  (∀ j l x, ls !! j = Some l → x ∈ l → idx x = Some (off + j)%nat) →
  ∀ i l, ls !! i = Some l → filter (λ x, idx x = Some (off + i)%nat) (concat ls) = l.
Proof.
  induction ls as [|l0 ls IH]; intros off Hidx i l Hi; [done|]. cbn. rewrite filter_app.
  destruct i as [|i]; cbn in Hi.
  - simplify_eq. rewrite Nat.add_0_r. rewrite (filter_all _ l), (filter_none _ (concat ls)), app_nil_r; [done| |].
    + apply Forall_forall. intros x (l' & Hl' & Hx)%list_elem_of_In%in_concat.
      apply list_elem_of_In, list_elem_of_lookup in Hl' as [j Hj].
      rewrite (Hidx (S j) l' x Hj) by by apply list_elem_of_In. intros [=]. lia.
    + apply Forall_forall. intros x Hx. rewrite (Hidx 0%nat l x eq_refl Hx). f_equal. lia.
  - rewrite (filter_none _ l0); [cbn|].
    + rewrite <-(IH (S off)) with (i := i) (l := l); [|intros j l' x Hj Hx|done].
      * apply list_filter_iff. intros x. by rewrite Nat.add_succ_r.
      * rewrite (Hidx (S j) l' x Hj Hx). f_equal. lia.
    + apply Forall_forall. intros x Hx. rewrite (Hidx 0%nat l0 x eq_refl Hx). intros [=]. lia.
Qed.

Lemma bucket_entries t i b :
  wf t → buckets t !! i = Some b →
  entries b = filter (λ e, RoutingTable.bucket_index t (bkey e) = Some i) (table_entries t).
Proof.
  intros Hwf Hi. symmetry. unfold table_entries.
  apply (filter_concat (λ e, RoutingTable.bucket_index t (bkey e)) (map entries (buckets t)) 0).
  - intros j l e Hj He. rewrite list_lookup_fmap in Hj. destruct (buckets t !! j) as [b'|] eqn:Hb; [|done].
    simplify_eq/=. destruct (wf_place t j b' (entry e) Hwf Hb) as [_ ?]; [by apply (list_elem_of_fmap_2 entry)|done].
  - by rewrite list_lookup_fmap, Hi.
Qed.

Lemma bucket_index_tkey t t' k : tkey t' = tkey t → RoutingTable.bucket_index t' k = RoutingTable.bucket_index t k.
Proof. unfold RoutingTable.bucket_index. by intros ->. Qed.

Lemma filter_omap_comm {A} (P : A → Prop) `{∀ x, Decision (P x)} (f : A → option A) (l : list A) :
  (∀ x y, f x = Some y → P y ↔ P x) → filter P (omap f l) = omap f (filter P l).
Proof.
  intros Hf. induction l as [|x l IH]; [done|]. csimpl. rewrite filter_cons.
  destruct (f x) as [y|] eqn:Hx.
  - rewrite filter_cons. destruct (decide (P y)) as [Hy|Hy].
    + rewrite decide_True by by apply (Hf x y). csimpl. by rewrite Hx, IH.
    + rewrite decide_False; [done|]. by rewrite <-(Hf x y).
  - destruct (decide (P x)); csimpl; [by rewrite Hx|done].
Qed.

Section rounds.
Context (env : refresh_env).
Context (Hfin : ∀ l, finished env l ≡ₚ l) (Hoth : ∀ be t, other_steps env be t = t).

Lemma refreshed_key e e' : refreshed env e = Some e' → entry e' = entry e.
Proof.
  unfold refreshed. destruct (_ <=? _); [done|]. destruct (outcome _ _); intros [= <-]; by rewrite set_status_spec.
Qed.

Lemma round_tkey t : tkey (refresh_round env t).1 = tkey t.
Proof.
  unfold refresh_round. cbv zeta. set (l := RoutingTable.refresh_candidates _ _).
  destruct (do_refresh_spec env Hfin l t) as [evs ->]. cbn. generalize (handled env l). clear l evs.
  intros l. revert t. induction l as [|be l IH]; intros t; cbn; [done|]. rewrite IH.
  unfold handle, refresh_entry. rewrite Hoth. unfold RoutingTable.remove_entry, RoutingTable.update_entry.
  by destruct (MAX_FAILURES <=? failures be); [|destruct (outcome _ _); cbn];
    destruct (RoutingTable.bucket_index t _).
Qed.

Lemma candidates_bucket t i b e :
  wf t → buckets t !! i = Some b → e ∈ entries b →
  e ∈ RoutingTable.refresh_candidates t REFRESH_PER_BUCKET ↔ e ∈ picks (entries b).
Proof.
  intros Hwf Hi He. unfold RoutingTable.refresh_candidates.
  rewrite list_elem_of_In, in_concat. split.
  - intros (l & Hl & Hin). apply in_map_iff in Hl as (b' & <- & Hb').
    apply list_elem_of_In, list_elem_of_lookup in Hb' as [j Hj]. apply list_elem_of_In in Hin.
    assert (e ∈ entries b') as He'.
    { apply elem_of_take in Hin as (k & Hk & _). apply list_elem_of_lookup_2, list_elem_of_In, filter_In in Hk.
      by apply list_elem_of_In, Hk. }
    destruct (wf_place t i b (entry e) Hwf Hi) as [_ Hp]; [by apply (list_elem_of_fmap_2 entry)|].
    destruct (wf_place t j b' (entry e) Hwf Hj) as [_ Hp']; [by apply (list_elem_of_fmap_2 entry)|].
    assert (i = j) as -> by congruence. by simplify_eq.
  - intros Hin. exists (picks (entries b)). split; [|by apply list_elem_of_In].
    apply in_map_iff. exists b. split; [done|]. apply list_elem_of_In. by eapply list_elem_of_lookup_2.
Qed.

(** A round is a round of every bucket. *)
Lemma round_buckets t i b :
  wf t → buckets t !! i = Some b →
  wf (refresh_round env t).1 ∧
  ∃ b', buckets (refresh_round env t).1 !! i = Some b' ∧ entries b' = refresh_bucket env (entries b).
Proof.
  intros Hwf Hi. pose proof (refresh_round_spec env t Hwf Hfin Hoth) as Hspec. pose proof (round_tkey t) as Hkey.
  cbv zeta in Hspec. destruct (refresh_round env t) as [t' evs]. cbn in *.
  destruct Hspec as (Hwf' & Hent & _). split; [done|].
  destruct (lookup_lt_is_Some_2 (buckets t') i) as [b' Hb'].
  { rewrite (wf_len t' Hwf'), <-(wf_len t Hwf). by eapply lookup_lt_Some. }
  exists b'. split; [done|]. rewrite (bucket_entries t' i b' Hwf' Hb'), Hent.
  rewrite filter_omap_comm.
  - rewrite (list_filter_iff _ (λ e, RoutingTable.bucket_index t (bkey e) = Some i))
      by (intros e; by rewrite (bucket_index_tkey _ _ _ Hkey)).
    rewrite <-(bucket_entries t i b Hwf Hi). apply omap_ext_in. intros e He.
    apply decide_ext. by apply candidates_bucket with (i := i).
  - intros e e'. case_decide; [|by intros [= ->]]. intros He%refreshed_key. unfold bkey. by rewrite He.
Qed.

End rounds.

(** ** An entry through all the rounds *)

(** An entry is picked by its place: fewer than eight before it could be. *)
Lemma elem_of_take_filter {A} (f : A → bool) n (l : list A) x :
  x ∈ take n (List.filter f l) ↔
  ∃ l1 l2, l = l1 ++ x :: l2 ∧ f x = true ∧ (length (List.filter f l1) < n)%nat.
Proof.
  revert n. induction l as [|y l IH]; intros n; cbn.
  { rewrite take_nil. split; [by intros ?%not_elem_of_nil|]. by intros ([] & ? & ? & _). }
  split.
  - destruct (f y) eqn:Hy.
    + destruct n as [|n]; [by intros ?%not_elem_of_nil|]. cbn.
      intros [->|(l1 & l2 & -> & ? & ?)%IH]%elem_of_cons.
      * exists [], l. cbn. split_and!; [done..|lia].
      * exists (y :: l1), l2. cbn. rewrite Hy. cbn. split_and!; [done..|lia].
    + intros (l1 & l2 & -> & ? & ?)%IH. exists (y :: l1), l2. cbn. by rewrite Hy.
  - intros (l1 & l2 & Heq & Hx & Hlen). destruct l1 as [|z l1]; simplify_eq/=.
    + rewrite Hx. destruct n; [lia|]. cbn. by left.
    + destruct (f z); cbn in Hlen.
      * destruct n; [lia|]. cbn. right. apply IH. exists l1, l2. split_and!; [done..|lia].
      * apply IH. by exists l1, l2.
Qed.

Lemma filter_omap_le {A} (f : A → bool) (g : A → option A) (l : list A) :
  (∀ x y, x ∈ l → g x = Some y → f y = true → f x = true) →
  (length (List.filter f (omap g l)) ≤ length (List.filter f l))%nat.
Proof.
  induction l as [|x l IH]; intros Hg; csimpl; [done|].
  pose proof (IH ltac:(intros; eapply Hg; [by right|done..])) as Hl.
  destruct (g x) as [y|] eqn:Hx; csimpl.
  - destruct (f y) eqn:Hy; [rewrite (Hg x y ltac:(by left) Hx Hy); cbn; lia|]. destruct (f x); cbn; lia.
  - destruct (f x); cbn; lia.
Qed.

Lemma refreshed_pickable env e e' : refreshed env e = Some e' → pickable_entry e' = true.
Proof.
  unfold refreshed. destruct (_ <=? _); [done|].
  destruct (outcome _ _); intros [= <-]; unfold pickable_entry, is_connected, is_incompatible;
    by rewrite set_status_spec.
Qed.

(** A picked entry that is not evicted is picked again. *)
Lemma picks_again env es be be' :
  be ∈ picks es → refreshed env be = Some be' → be' ∈ picks (refresh_bucket env es).
Proof.
  intros Hin Hbe. pose proof Hin as (l1 & l2 & Hes & Hb & Hlen)%elem_of_take_filter.
  apply elem_of_take_filter. unfold refresh_bucket.
  set (g := λ e, if decide (e ∈ picks es) then refreshed env e else Some e).
  exists (omap g l1), (omap g l2). split_and!.
  - rewrite Hes at 1. rewrite omap_app. csimpl. unfold g at 2. by rewrite decide_True, Hbe.
  - by eapply refreshed_pickable.
  - eapply Nat.le_lt_trans; [|exact Hlen]. apply filter_omap_le. intros x y _ Hx Hy.
    unfold g in Hx. case_decide as Hp; [|by simplify_eq].
    by apply elem_of_take_filter in Hp as (_ & _ & _ & ? & _).
Qed.

Section loop.
Context `{Semver} (config : Config.t) (envs : nat → refresh_env).
(** Every ping completes, in some order, and no other task (the connect loop, a lookup,
    the back end) changes the table during the rounds. *)
Context (Hfin : ∀ n l, finished (envs n) l ≡ₚ l) (Hoth : ∀ n be t, other_steps (envs n) be t = t).

Abbreviation after n t := (refresh_loop config envs n t).1.

Lemma after_S n t : after (S n) t = (refresh_round (envs n) (after n t)).1.
Proof. cbn. destruct (refresh_loop config envs n t) as [t' acts]. cbn. by destruct (refresh_round (envs n) t'). Qed.

Fixpoint bucket_loop (n : nat) (es : list BucketEntry) : list BucketEntry :=
  match n with O => es | S n => refresh_bucket (envs n) (bucket_loop n es) end.

Lemma loop_buckets t i b n :
  wf t → buckets t !! i = Some b →
  wf (after n t) ∧ tkey (after n t) = tkey t ∧
  ∃ b', buckets (after n t) !! i = Some b' ∧ entries b' = bucket_loop n (entries b).
Proof.
  intros Hwf Hi. induction n as [|n (Hwf' & Hkey & b' & Hb' & He')]; [by split_and!; [..|exists b]|].
  rewrite !after_S. destruct (round_buckets (envs n) (Hfin n) (Hoth n) _ i b' Hwf' Hb') as (Hwf2 & b2 & Hb2 & He2).
  split_and!; [done|by rewrite round_tkey|]. exists b2. split; [done|]. cbn. by rewrite He2, He'.
Qed.

(** What becomes of a picked entry. *)
Fixpoint fate (n : nat) (be : BucketEntry) : option BucketEntry :=
  match n with O => Some be | S n => e ← fate n be; refreshed (envs n) e end.

(** The pings of the first [n] rounds that were not answered. *)
Definition failed_pings (e : Entry) (n : nat) : nat :=
  countb (λ i, negb (is_ok (outcome (envs i) e))) (seq 0 n).

Lemma fate_picked es be n e : be ∈ picks es → fate n be = Some e → e ∈ picks (bucket_loop n es).
Proof.
  intros Hbe. revert e. induction n as [|n IH]; cbn; [by intros e [= <-]|].
  intros e (e0 & He0 & He)%bind_Some. eapply picks_again; [by apply IH|done].
Qed.

Lemma picks_elem es e : e ∈ picks es → e ∈ es.
Proof. intros (l1 & l2 & -> & _)%elem_of_take_filter. set_solver. Qed.

Lemma fate_only es be n e :
  be ∈ picks es → NoDup (map (λ e, bkey e) es) → e ∈ bucket_loop n es → bkey e = bkey be → fate n be = Some e.
Proof.
  intros Hbe Hnd. revert e. induction n as [|n IH]; cbn; intros e He Hk.
  - f_equal. apply picks_elem in Hbe. apply list_elem_of_lookup in He as [i Hi], Hbe as [j Hj].
    assert (i = j) as ->; [|congruence].
    eapply (NoDup_lookup _ i j (bkey e) Hnd); rewrite list_lookup_fmap; [by rewrite Hi|by rewrite Hj, Hk].
  - apply list_elem_of_omap in He as (e0 & He0 & Hg). case_decide as Hp.
    + rewrite (IH e0); [done..|]. unfold bkey. by rewrite <-(refreshed_key _ _ _ Hg).
    + simplify_eq. exfalso. apply Hp. by eapply fate_picked, IH.
Qed.

Lemma failed_pings_S e n :
  failed_pings e (S n) = (failed_pings e n + if is_ok (outcome (envs n) e) then 0 else 1)%nat.
Proof.
  unfold failed_pings. rewrite seq_S, countb_app. cbn. by destruct (is_ok _); cbn.
Qed.

Lemma fate_failures be n e :
  0 ≤ failures be → fate n be = Some e →
  entry e = entry be ∧ failures e = failures be + Z.of_nat (failed_pings (entry be) n).
Proof.
  intros Hpos. revert e. induction n as [|n IH]; intros e.
  { cbn. intros [= <-]. split; [done|]. lia. }
  cbn [fate]. intros (e0 & He0 & He)%bind_Some. destruct (IH e0 He0) as [Hent Hf].
  rewrite failed_pings_S. unfold refreshed in He. rewrite Hent in He.
  destruct (Z.leb_spec MAX_FAILURES (failures e0)) as [|Hlt]; [done|]. unfold MAX_FAILURES in Hlt.
  destruct (outcome (envs n) (entry be)); simplify_eq; rewrite set_status_spec; cbn; (split; [done|]); [lia|].
  rewrite Z.mod_small; lia.
Qed.

(** It is evicted in the round after its third failure, whatever it answered since. *)
Lemma fate_evicted be n :
  0 ≤ failures be →
  fate (S n) be = None ↔ MAX_FAILURES ≤ failures be + Z.of_nat (failed_pings (entry be) n).
Proof.
  intros Hpos. cbn [fate]. induction n as [|n IH].
  - cbn. unfold refreshed. destruct (Z.leb_spec MAX_FAILURES (failures be)); [split; [lia|done]|].
    split; [by destruct (outcome _ _)|lia].
  - rewrite failed_pings_S. destruct (fate (S n) be) as [e|] eqn:He.
    + destruct (fate_failures be (S n) e Hpos He) as [Hent Hf]. cbn. unfold refreshed.
      rewrite <-failed_pings_S, <-Hf.
      destruct (Z.leb_spec MAX_FAILURES (failures e)); [done|]. split; [by destruct (outcome _ _)|lia].
    + cbn. split; [|done]. intros _. apply proj1 in IH. specialize (IH He). lia.
Qed.

(** The entries behind the first eight of a bucket, when all entries answer. *)
Lemma passed_over es be n :
  NoDup (map (λ e, bkey e) es) → Forall (λ e, failures e < MAX_FAILURES) es →
  (∀ n e, is_ok (outcome (envs n) e) = true) → be ∈ es → be ∉ picks es →
  be ∈ bucket_loop n es ∧ be ∉ picks (bucket_loop n es).
Proof.
  intros Hnd Hf Hok Hin Hnp.
  assert (NoDup (map (λ e, bkey e) (bucket_loop n es)) ∧ Forall (λ e, failures e < MAX_FAILURES) (bucket_loop n es) ∧
    be ∈ bucket_loop n es ∧ be ∉ picks (bucket_loop n es)) as (_ & _ & ? & ?); [|done].
  clear - Hnd Hf Hok Hin Hnp. induction n as [|n IH]; [done|]. cbn [bucket_loop].
  destruct IH as (Hnd' & Hf' & Hin' & Hnp'). set (l := bucket_loop n es) in *. clearbody l. clear - Hok Hnd' Hf' Hin' Hnp'.
  set (g := λ e, if decide (e ∈ picks l) then Bucket.set_status (now_at (envs n) e) PENDING_ENTRY e else e).
  assert (refresh_bucket (envs n) l = map g l) as ->.
  { unfold refresh_bucket. rewrite map_omap. apply omap_ext_in. intros e He. unfold g. case_decide; [|done].
    unfold refreshed. rewrite Forall_forall in Hf'. specialize (Hf' e He). rewrite (proj2 (Z.leb_gt _ _)) by done.
    specialize (Hok n (entry e)). by destruct (outcome _ _). }
  assert (∀ e, bkey (g e) = bkey e ∧ failures (g e) = failures e) as Hg.
  { intros e. unfold g. case_decide; [|done]. by rewrite set_status_spec. }
  assert (∀ e, pickable_entry (g e) = pickable_entry e) as Hpg.
  { intros e. unfold g. case_decide as Hp; [|done].
    apply elem_of_take_filter in Hp as (_ & _ & _ & -> & _).
    unfold pickable_entry, is_connected, is_incompatible. by rewrite set_status_spec. }
  assert (g be = be) as Hgbe by (unfold g; by rewrite decide_False).
  assert (NoDup (map (λ e, bkey e) (map g l))) as Hnd2.
  { rewrite map_map. erewrite map_ext; [exact Hnd'|]. intros e. apply Hg. }
  split_and!; [done| | |].
  - apply Forall_map. eapply Forall_impl; [exact Hf'|]. intros e He. cbn. by rewrite (proj2 (Hg e)).
  - rewrite <-Hgbe. by apply list_elem_of_fmap_2.
  - apply list_elem_of_split in Hin' as (l1 & l2 & Hl). intros Hp.
    assert (pickable_entry be = true) as Hb by by apply elem_of_take_filter in Hp as (_ & _ & _ & ? & _).
    apply Hnp', elem_of_take_filter. exists l1, l2. split_and!; [done..|]. apply Nat.nle_gt. intros Hle.
    assert (length (List.filter pickable_entry (map g l1)) = length (List.filter pickable_entry l1)) as Hlen.
    { clear - Hpg. induction l1 as [|e l1 IH]; cbn; [done|]. rewrite Hpg. destruct (pickable_entry e); cbn; by rewrite IH. }
    rewrite Hl, map_app in Hp, Hnd2. cbn in Hp, Hnd2. rewrite map_app in Hnd2. cbn in Hnd2.
    unfold picks in Hp. rewrite List.filter_app, take_app_le in Hp by (rewrite Hlen; exact Hle).
    apply elem_of_take in Hp as (k & Hk%list_elem_of_lookup_2%list_elem_of_In & _).
    apply filter_In in Hk as [Hk%list_elem_of_In _]. apply NoDup_app in Hnd2 as (_ & Hdisj & _).
    apply (Hdisj (bkey be)); [by apply (list_elem_of_fmap_2 (λ e, bkey e))|]. rewrite Hgbe. by left.
Qed.

Lemma entry_bucket t be :
  wf t → be ∈ table_entries t →
  ∃ i b, buckets t !! i = Some b ∧ be ∈ entries b ∧ RoutingTable.bucket_index t (bkey be) = Some i ∧
    NoDup (map (λ e, bkey e) (entries b)).
Proof.
  intros Hwf (b & [i Hi]%list_elem_of_lookup & Hin)%table_entries_elem. exists i, b.
  destruct (wf_place t i b (entry be) Hwf Hi) as [_ Hp]; [by apply (list_elem_of_fmap_2 entry)|].
  split_and!; [done..|]. rewrite bkeys_bentries. by apply (wf_buckets t Hwf i).
Qed.

(** C35: the fate of the entries that the refresh loop picks, and of those it does
    not, over any number of rounds during which no other task changes the routing
    table, in whatever order pings complete.  An entry that
    the first round picks is picked in every round until it is evicted; after every
    round it is in the table, with its failures counted, exactly as long as it had
    not failed three times by the round before: no answer resets the counter.  But
    a round picks the first eight of a bucket that are not connected, in the order
    of the bucket: while those answer and nobody else changes their status, the
    entries behind them are not pinged in any round, and stay in the table as they
    are, alive or not. *)
Theorem refresh_loop_spec t :
  wf t →
  (∀ be n, be ∈ RoutingTable.refresh_candidates t REFRESH_PER_BUCKET → 0 ≤ failures be →
    (∀ e, e ∈ table_entries (after (S n) t) ∧ bkey e = bkey be ↔ fate (S n) be = Some e) ∧
    (fate (S n) be = None ↔ MAX_FAILURES ≤ failures be + Z.of_nat (failed_pings (entry be) n))) ∧
  (∀ be n, be ∈ table_entries t → be ∉ RoutingTable.refresh_candidates t REFRESH_PER_BUCKET →
    Forall (λ e, failures e < MAX_FAILURES) (table_entries t) →
    (∀ n e, is_ok (outcome (envs n) e) = true) →
    be ∈ table_entries (after n t) ∧
    be ∉ RoutingTable.refresh_candidates (after n t) REFRESH_PER_BUCKET).
Proof.
  intros Hwf. split.
  - intros be n Hc Hpos. split; [|by apply fate_evicted]. intros e.
    destruct (proj2 (refresh_candidates_spec t REFRESH_PER_BUCKET) be Hc) as (Hin & _ & _).
    destruct (entry_bucket t be Hwf Hin) as (i & b & Hi & Hb & Hidx & Hnd).
    rewrite (candidates_bucket t i b be Hwf Hi Hb) in Hc.
    destruct (loop_buckets t i b (S n) Hwf Hi) as (Hwf' & Hkey & b' & Hb' & He'). split.
    + intros [He Hk]. destruct (entry_bucket _ e Hwf' He) as (j & b2 & Hj & Hb2 & Hidx' & _).
      rewrite (bucket_index_tkey t), Hk in Hidx' by done. assert (j = i) as -> by congruence.
      simplify_eq. eapply fate_only; [exact Hc|done| |done]. by rewrite <-He'.
    + intros Hf. split.
      * apply table_entries_elem. exists b'. split; [by eapply list_elem_of_lookup_2|]. rewrite He'.
        by eapply picks_elem, fate_picked.
      * unfold bkey. by rewrite (proj1 (fate_failures be (S n) e Hpos Hf)).
  - intros be n Hin Hnc Hf Hok. destruct (entry_bucket t be Hwf Hin) as (i & b & Hi & Hb & _ & Hnd).
    rewrite (candidates_bucket t i b be Hwf Hi Hb) in Hnc.
    destruct (loop_buckets t i b n Hwf Hi) as (Hwf' & _ & b' & Hb' & He').
    destruct (passed_over (entries b) be n) as [Hin' Hnp]; [done| |done..|].
    { rewrite Forall_forall in Hf |- *. intros e He. apply Hf, table_entries_elem. exists b.
      split; [by eapply list_elem_of_lookup_2|done]. }
    rewrite <-He' in Hin', Hnp. split.
    + apply table_entries_elem. exists b'. split; [by eapply list_elem_of_lookup_2|done].
    + by rewrite (candidates_bucket _ i b' be).
Qed.

End loop.

(** ** The ping listener *)

Section listening.
Context `{Semver} `{Bincode RefreshMsg} (config : Config.t).

(** A call touches the bucket of a known sender only, and answers it only with a
    token. *)
Lemma listen_limit t recvd now now' sent limiter res limiter' out evs :
  listen_to_ping_msg config t recvd now now' sent limiter = (res, limiter', out, evs) →
  limiter' = limiter ∧ out = [] ∨
  ∃ datagram sender, recvd = Ok (datagram, sender) ∧ RoutingTable.has_discovery_ip t (ip sender) = true ∧
    let '(ok, b) := RateBucket.allow now' (from_option id (RateBucket.new now) (limiter !! ip sender)) in
    limiter' = <[ip sender := b]> limiter ∧ (out = [] ∨ ok = true ∧ ∃ bs, out = [(bs, sender)]).
Proof.
  unfold listen_to_ping_msg. destruct recvd as [[datagram sender]|e]; [|intros [= <- <- <- <-]; by left].
  destruct (RoutingTable.has_discovery_ip t (ip sender)) eqn:Hknown; cbn; [|intros [= <- <- <- <-]; by left].
  destruct (RateBucket.allow _ _) as [ok b] eqn:Hallow. intros Hr. right. exists datagram, sender.
  split_and!; [done..|]. rewrite Hallow. clear Hallow Hknown. destruct ok; cbn in Hr; [|simplify_eq; by auto].
  destruct (Config.access_control _ _ _); cbn in Hr; [|simplify_eq; by auto].
  destruct (decode _) as [[[m|m] n]|e]; [|simplify_eq; by auto..].
  destruct (encode _) as [bs|e]; [|simplify_eq; by auto].
  destruct sent as [[]|e]; simplify_eq; [|by auto]. split; [done|]. right. split; [done|]. by exists bs.
Qed.

(** Whole tokens, at one instant. *)
Lemma allow_at_once k t0 :
  0 ≤ k ≤ RL_CAPACITY →
  RateBucket.allow t0 (mkRateBucket (f64_of_Z k) t0) =
    (1 <=? k, mkRateBucket (f64_of_Z (Z.max 0 (k - 1))) t0).
Proof.
  intros Hk. unfold RateBucket.allow, RL_CAPACITY in *. cbn [last_refill tokens]. rewrite Z.sub_diag.
  assert (k = 0 ∨ k = 1 ∨ k = 2 ∨ k = 3 ∨ k = 4 ∨ k = 5) as Hcases by lia.
  by destruct Hcases as [->|[->|[->|[->|[->| ->]]]]]; vm_compute.
Qed.

Definition to_ip (a : IpAddr) (o : list Z * SocketAddr) : bool := bool_decide (ip o.2 = a).

Lemma burst_tokens a t0 ins : ∀ limiter k limiter' out evs,
  Forall (λ i, pi_now i = t0 ∧ pi_now' i = t0) ins → 0 ≤ k ≤ RL_CAPACITY →
  from_option id (RateBucket.new t0) (limiter !! a) = mkRateBucket (f64_of_Z k) t0 →
  listen_turns config ins limiter = (limiter', out, evs) →
  Z.of_nat (countb (to_ip a) out) ≤ k.
Proof.
  induction ins as [|i ins IH]; intros limiter k limiter' out evs Hnow Hk Hlim; cbn.
  { intros [= <- <- <-]. cbn. lia. }
  apply Forall_cons in Hnow as [[Hn Hn'] Hnow]. rewrite Hn, Hn'.
  destruct (listen_to_ping_msg _ _ _ _ _ _ _) as [[[res lim1] out1] evs1] eqn:Hl.
  destruct (listen_turns config ins lim1) as [[lim2 out2] evs2] eqn:Ht. intros [= <- <- <-].
  rewrite countb_app. apply listen_limit in Hl as [[-> ->]|(dg & sender & _ & _ & Hl)].
  { cbn. by eapply IH. }
  destruct (RateBucket.allow _ _) as [ok b] eqn:Hallow. destruct Hl as [-> Hout].
  destruct (decide (ip sender = a)) as [Ha|Ha].
  - rewrite Ha, Hlim, allow_at_once in Hallow by done. injection Hallow as <- <-.
    assert (Z.of_nat (countb (to_ip a) out2) ≤ Z.max 0 (k - 1)) as Hle.
    { eapply IH; [done| | |exact Ht]; [lia|]. by rewrite Ha, lookup_insert_eq. }
    destruct Hout as [->|[Hok [bs ->]]]; cbn; [lia|].
    destruct (to_ip a (bs, sender)); lia.
  - assert (Z.of_nat (countb (to_ip a) out2) ≤ k) as Hle.
    { eapply IH; [done|done| |exact Ht]. by rewrite lookup_insert_ne. }
    destruct Hout as [->|[_ [bs ->]]]; cbn; [lia|].
    unfold to_ip at 1. cbn. rewrite bool_decide_false by done. lia.
Qed.

(** The ping listener as a whole.  Once its socket is bound it never ends, whatever it
    receives.  It sends at most one datagram for each that arrives, and only to
    addresses that the routing table knew when it did; and a burst, in which the
    clock does not move, gets at most five answers per address. *)
Theorem listen_loop_safe endpoint ins r out evs :
  listen_loop config endpoint (Ok ()) ins = (r, out, evs) →
  r = Pending ∧ (length out ≤ length ins)%nat ∧
  (∀ bs a, (bs, a) ∈ out → ∃ i datagram, i ∈ ins ∧ pi_recvd i = Ok (datagram, a) ∧
    RoutingTable.has_discovery_ip (pi_table i) (ip a) = true) ∧
  (∀ t0 a, Forall (λ i, pi_now i = t0 ∧ pi_now' i = t0) ins →
    Z.of_nat (countb (to_ip a) out) ≤ RL_CAPACITY).
Proof.
  unfold listen_loop. destruct (listen_turns config ins ∅) as [[lim out'] evs'] eqn:Ht. intros [= <- <- _].
  split; [done|]. split_and!.
  - revert lim out' evs' Ht. generalize (∅ : gmap IpAddr RateBucket).
    induction ins as [|i ins IH]; cbn; intros lim0 lim out' evs'; [by intros [= <- <- <-]|].
    destruct (listen_to_ping_msg _ _ _ _ _ _ _) as [[[res lim1] out1] evs1] eqn:Hl.
    destruct (listen_turns config ins lim1) as [[lim2 out2] evs2] eqn:Ht. intros [= <- <- <-].
    apply IH in Ht. rewrite length_app.
    apply listen_limit in Hl as [[_ ->]|(? & ? & _ & _ & Hl)]; [cbn; lia|].
    destruct (RateBucket.allow _ _). destruct Hl as [_ [->|[_ [bs ->]]]]; cbn; lia.
  - revert lim out' evs' Ht. generalize (∅ : gmap IpAddr RateBucket).
    induction ins as [|i ins IH]; cbn; intros lim0 lim out' evs'; [by intros [= <- <- <-] ? ? ?%not_elem_of_nil|].
    destruct (listen_to_ping_msg _ _ _ _ _ _ _) as [[[res lim1] out1] evs1] eqn:Hl.
    destruct (listen_turns config ins lim1) as [[lim2 out2] evs2] eqn:Ht. intros [= <- <- <-].
    intros bs a [Hin|Hin]%elem_of_app.
    + exists i. apply listen_limit in Hl as [[_ ->]|(dg & sender & Hr & Hk & Hl)]; [by apply not_elem_of_nil in Hin|].
      destruct (RateBucket.allow _ _). destruct Hl as [_ [->|[_ [bs' ->]]]]; [by apply not_elem_of_nil in Hin|].
      apply list_elem_of_singleton in Hin. simplify_eq. exists dg. split; [by left|done].
    + destruct (IH _ _ _ _ Ht bs a Hin) as (i' & dg & ? & ?). exists i', dg. split; [by right|done].
  - intros t0 a Hnow. eapply burst_tokens; [done| | |exact Ht]; [unfold RL_CAPACITY; lia|done].
Qed.

End listening.

(** ** Witnesses *)

Section witnesses.
#[local] Existing Instance RefreshSpec.any_semver.
#[local] Existing Instance RefreshSpec.refresh_bincode.

(** Nobody answers: the entry of a table of one is gone after four rounds. *)
Definition silent_env : refresh_env := mkRefreshEnv (λ _, Err Timeout) (λ _, 9) (λ l, l) (λ _ t, t).

Lemma refresh_loop_spec_witness :
  ∃ be, be ∈ table_entries one_table ∧
    ∀ e, e ∈ table_entries (refresh_loop open_config (λ _, silent_env) 4 one_table).1 → bkey e ≠ bkey be.
Proof.
  destruct (RoutingTable.refresh_candidates one_table REFRESH_PER_BUCKET) as [|be l] eqn:Hc;
    [vm_compute in Hc; discriminate|].
  exists be.
  destruct (refresh_loop_spec open_config (λ _, silent_env) (λ _ l, reflexivity l) (λ _ _ _, eq_refl)
    one_table one_table_wf) as [Hpicked _].
  destruct (Hpicked be 3%nat) as [Hiff [_ Hgone]].
  - rewrite Hc. left.
  - vm_compute in Hc. injection Hc as <- _. vm_compute. discriminate.
  - split.
    + apply (proj2 (refresh_candidates_spec one_table REFRESH_PER_BUCKET)). rewrite Hc. left.
    + intros e He Hk. assert (fate (λ _, silent_env) 4 be = Some e) as Hf by (apply Hiff; split; [exact He|exact Hk]).
      rewrite Hgone in Hf; [discriminate|]. vm_compute in Hc. injection Hc as <- _. vm_compute. discriminate.
Defined.

Lemma listen_loop_safe_witness :
  ∃ out evs, listen_loop open_config (Udp (Ip (V4 [1; 2; 3; 4])) 7000) (Ok ())
      (replicate 7 (mkPingInput one_table (Ok (0 :: zeros, known_addr)) 4 4 (Ok ()))) = (Pending, out, evs) ∧
    out ≠ [] ∧ Z.of_nat (countb (to_ip (ip known_addr)) out) ≤ RL_CAPACITY.
Proof.
  destruct (listen_loop open_config (Udp (Ip (V4 [1; 2; 3; 4])) 7000) (Ok ())
    (replicate 7 (mkPingInput one_table (Ok (0 :: zeros, known_addr)) 4 4 (Ok ())))) as [[r out] evs] eqn:Hl.
  destruct (listen_loop_safe open_config _ _ _ _ _ Hl) as (-> & _ & _ & Hburst).
  exists out, evs. split; [reflexivity|]. split.
  - apply (f_equal (λ x, x.1.2)) in Hl. vm_compute in Hl. rewrite <-Hl. discriminate.
  - apply (Hburst 4). repeat constructor.
Defined.

End witnesses.
