(* ===== verification/Kademlia.v ===== *)
(** * Kademlia discovery

    Models [p2p/src/discovery/kademlia/mod.rs]: the connect loop, seeding, the
    events of the node and the queue of discovered peers, on top of the lookup
    and refresh services.  The order of random samples is an argument.

    [discovery_step] has the tasks that share the table: the connect loop with its
    seeding and lookups, inbound lookup connections, the refresh loop, and the node. *)

From S2P Require Import Prelude Codec Endpoint Framed Message Bloom RoutingTable.
From S2P Require Import RoutingTableSpec RoutingTableQueries Version Session Config KadMessages.
From S2P Require Import Lookup LookupSpec Refresh RefreshSpec.

Local Open Scope Z_scope.

Definition DISCOVERED_PEER_QUEUE_SIZE : nat := 128.

(** With the [quic] feature. *)
Definition is_lookup_proto (e : Endpoint) : bool := Endpoint.is_tcp e || Endpoint.is_quic e.

Section defs.
Context `{Semver} `{SipHash}.
Context `{Bincode PingMsg} `{Bincode PongMsg} `{Bincode FindPeerMsg} `{Bincode PeerMsg}
  `{Bincode PeersMsg} `{Bincode ShutdownMsg}.

(** The endpoints [new] gives to its lookup and refresh services. *)
Definition new_endpoints (config : Config.t) : LookupEndpoints :=
  mkLookupEndpoints (Config.listen_endpoints config)
    (find_first is_lookup_proto (Config.discovery_endpoints config))
    (find_first Endpoint.is_udp (Config.discovery_endpoints config)).

Definition new_lookup_service (peer_id : PeerID) (config : Config.t) : LookupService :=
  mkLookupService _ peer_id (new_endpoints config) config.

(** What [random_iter] of a table and of its buckets yields. *)
Record sampling := mkSampling {
  sample_buckets : list Bucket → list Bucket;
  sample_entries : list BucketEntry → list BucketEntry;
}.

Definition discovered (e : Entry) : DiscoveredPeer :=
  mkDiscovered (Some (mkPeerID (key e))) (addrs e) (discovery_addrs e).

(** One turn of [connect_loop] up to the push: the peer to push, or [None] when
    the turn seeds instead. *)
Definition connect_turn (s : sampling) (now : Z) (bloom : LocalBloom) (t : RoutingTable) :
    option DiscoveredPeer * RoutingTable :=
  let local := BloomRef.snapshot bloom in
  match RoutingTable.random_entry_filtered (sample_buckets s) (sample_entries s) t
          PENDING_ENTRY local with
  | Some entry =>
      (Some (discovered entry), RoutingTable.update_entry now t (key entry) CONNECTED_ENTRY)
  | None => (None, t)
  end.

(** What one lookup of the seeding meets; [failed] is what the other tasks did
    to the table by the time it failed. *)
Record seeding := mkSeeding {
  seed_env : lookup_env;
  seed_failed : RoutingTable → RoutingTable;
  seed_now : Z;
}.

(** [start_lookup], and the table after it. *)
Definition seed_lookup (svc : LookupService) (endpoint : Endpoint) (s : seeding)
    (t : RoutingTable) : poll (bool * RoutingTable) :=
  match start_lookup svc endpoint (seed_env s) t with
  | Ready (Ok (_, t)) => Ready (true, t)
  | Ready (Err _) => Ready (false, seed_failed s t)
  | Pending => Pending
  | Panicked => Panicked
  end.

Fixpoint seed_all (svc : LookupService) (eps : list (Endpoint * seeding)) (t : RoutingTable) :
    poll RoutingTable :=
  match eps with
  | [] => Ready t
  | (ep, s) :: eps =>
      match seed_lookup svc ep s t with
      | Ready (_, t) => seed_all svc eps t
      | Pending => Pending
      | Panicked => Panicked
      end
  end.

(** [shuffled] is the random order of the bootstrap peers with what their
    lookups meet. *)
Definition start_seeding (svc : LookupService) (smp : sampling) (s : seeding)
    (shuffled : list Endpoint → list (Endpoint * seeding)) (t : RoutingTable) :
    poll RoutingTable :=
  match RoutingTable.random_entry (sample_buckets smp) (sample_entries smp) t
          (Z.lor PENDING_ENTRY CONNECTED_ENTRY) with
  | Some entry =>
      match pick_endpoint (discovery_addrs entry) SUPPORTED_LOOKUP_PROTOCOLS with
      | None => Ready t
      | Some endpoint =>
          match seed_lookup svc endpoint s t with
          | Ready (true, t) => Ready t
          | Ready (false, t) =>
              Ready (RoutingTable.update_entry (seed_now s) t (key entry) UNSTABLE_ENTRY)
          | Pending => Pending
          | Panicked => Panicked
          end
      end
  | None => seed_all svc (shuffled (Config.bootstrap_peers (ls_config svc))) t
  end.

Definition on_event (now : Z) (t : RoutingTable) (ev : PeerConnectionEvent) : RoutingTable :=
  match ev with
  | EvConnected pid => RoutingTable.update_entry now t (id_bytes pid) CONNECTED_ENTRY
  | EvDisconnected pid => RoutingTable.update_entry now t (id_bytes pid) DISCONNECTED_ENTRY
  | EvConnectFailed (Some pid) => RoutingTable.update_entry now t (id_bytes pid) UNREACHABLE_ENTRY
  | EvConnectFailed None => t
  end.

Definition advertise (bloom : LocalBloom) (item : list Z) (flags : ProtocolFlags) : LocalBloom :=
  BloomRef.add bloom item flags.

Definition find_peers_with (t : RoutingTable) (item : list Z) : list DiscoveredPeer :=
  map discovered (RoutingTable.entries_with_item t item).

(** The manual peers [start] pushes. *)
Definition manual_peers (config : Config.t) : list DiscoveredPeer :=
  omap (λ endpoint,
    addr ← from_endpoint endpoint 0; Some (mkDiscovered None [addr] [])) (Config.dial_peers config).

End defs.

(** ** The discovery as a system of tasks *)

(** Where the connect loop is: at the start of a turn, waiting to push a peer it has
    marked, waiting before it seeds, in the lookups of the seeding, of an entry or of
    a bootstrap peer, or adding what a lookup has found. *)
Inductive connect_at :=
| AtTurn
| Pushing (x : DiscoveredPeer)
| AtSeeding
| Lookups (todo : list (option Key * Endpoint))
| Adding (found : list PeerMsg) (todo : list (option Key * Endpoint)).

(** A round of the refresh loop: what it has yet to start of its chunk, the entries
    whose pings are on their way, and the chunks after it. *)
Record refreshing := mkRefreshing {
  rf_chunk : list BucketEntry;
  rf_tasks : list BucketEntry;
  rf_rest : list (list BucketEntry);
}.

Record kad_loops := mkLoops { l_connect : connect_at; l_refresh : refreshing }.

Definition idle_loops : kad_loops := mkLoops AtTurn (mkRefreshing [] [] []).

Record discovery := mkDiscovery {
  d_table : RoutingTable;
  d_bloom : LocalBloom;
  d_queue : list DiscoveredPeer;
  d_manual : list DiscoveredPeer;
  d_loops : kad_loops;
}.

Definition discovery_new `{Semver} (peer_id : PeerID) (config : Config.t) : discovery :=
  mkDiscovery (RoutingTable.new (id_bytes peer_id)) BloomRef.new [] (manual_peers config) idle_loops.

(** What [start_seeding] looks up; [shuffled] are the bootstrap peers in some order. *)
Definition seed_lookups (smp : sampling) (shuffled : list Endpoint) (t : RoutingTable) :
    list (option Key * Endpoint) :=
  match RoutingTable.random_entry (sample_buckets smp) (sample_entries smp) t
          (Z.lor PENDING_ENTRY CONNECTED_ENTRY) with
  | Some entry =>
      match pick_endpoint (discovery_addrs entry) SUPPORTED_LOOKUP_PROTOCOLS with
      | None => []
      | Some endpoint => [(Some (key entry), endpoint)]
      end
  | None => (λ endpoint, (None, endpoint)) <$> shuffled
  end.

(** A lookup that failed. *)
Definition mark_unstable (now : Z) (k : option Key) (t : RoutingTable) : RoutingTable :=
  match k with Some k => RoutingTable.update_entry now t k UNSTABLE_ENTRY | None => t end.

Section system.
Context `{Semver} `{SipHash} `{KadBincode} (svc : LookupService).

(** The tasks that share the table.  What remote nodes send, the clocks and random
    orders are arbitrary; so are the tables a lookup saw on its way. *)
Inductive discovery_step : discovery → discovery → Prop :=
(** [start] pushes the manual peers, then the connect loop runs. *)
| step_manual t b q x m l :
    (length q < DISCOVERED_PEER_QUEUE_SIZE)%nat →
    discovery_step (mkDiscovery t b q (x :: m) l) (mkDiscovery t b (q ++ [x]) m l)
| step_pick t b q s now x t' r :
    connect_turn s now b t = (Some x, t') →
    (∀ l, sample_buckets s l ≡ₚ l) → (∀ l, sample_entries s l ≡ₚ l) →
    discovery_step (mkDiscovery t b q [] (mkLoops AtTurn r)) (mkDiscovery t' b q [] (mkLoops (Pushing x) r))
| step_push t b q x r :
    (length q < DISCOVERED_PEER_QUEUE_SIZE)%nat →
    discovery_step (mkDiscovery t b q [] (mkLoops (Pushing x) r)) (mkDiscovery t b (q ++ [x]) [] (mkLoops AtTurn r))
| step_none t b q s now t' r :
    connect_turn s now b t = (None, t') →
    (∀ l, sample_buckets s l ≡ₚ l) → (∀ l, sample_entries s l ≡ₚ l) →
    discovery_step (mkDiscovery t b q [] (mkLoops AtTurn r)) (mkDiscovery t' b q [] (mkLoops AtSeeding r))
(** [start_seeding] and [start_lookup]. *)
| step_seed t b q s shuffled r :
    (∀ l, sample_buckets s l ≡ₚ l) → (∀ l, sample_entries s l ≡ₚ l) →
    shuffled ≡ₚ Config.bootstrap_peers (ls_config svc) →
    discovery_step (mkDiscovery t b q [] (mkLoops AtSeeding r))
      (mkDiscovery t b q [] (mkLoops (Lookups (seed_lookups s shuffled t)) r))
| step_found t b q k endpoint todo env t0 t1 found r :
    (∀ l, completed env l ≡ₚ l) → (∀ l, sampled env l ≡ₚ l) →
    lookup_peers svc endpoint env t0 = Ready (Ok (found, t1)) →
    discovery_step (mkDiscovery t b q [] (mkLoops (Lookups ((k, endpoint) :: todo)) r))
      (mkDiscovery t b q [] (mkLoops (Adding found todo) r))
| step_add t b q now p found todo r :
    discovery_step (mkDiscovery t b q [] (mkLoops (Adding (p :: found) todo) r))
      (mkDiscovery (RoutingTable.add_entry now t (Entry_from p)).2 b q [] (mkLoops (Adding found todo) r))
| step_added t b q todo r :
    discovery_step (mkDiscovery t b q [] (mkLoops (Adding [] todo) r))
      (mkDiscovery t b q [] (mkLoops (Lookups todo) r))
| step_not_found t b q k endpoint todo env t0 err now r :
    (∀ l, completed env l ≡ₚ l) → (∀ l, sampled env l ≡ₚ l) →
    lookup_peers svc endpoint env t0 = Ready (Err err) →
    discovery_step (mkDiscovery t b q [] (mkLoops (Lookups ((k, endpoint) :: todo)) r))
      (mkDiscovery (mark_unstable now k t) b q [] (mkLoops (Lookups todo) r))
| step_seeded t b q r :
    discovery_step (mkDiscovery t b q [] (mkLoops (Lookups []) r)) (mkDiscovery t b q [] (mkLoops AtTurn r))
(** An inbound lookup connection receives a message. *)
| step_inbound t b q m l now msg w t' w' :
    inbound_msg svc now t msg w = (Ready (Ok (Some t')), w') →
    discovery_step (mkDiscovery t b q m l) (mkDiscovery t' b q m l)
(** The refresh loop. *)
| step_refresh t b q m c :
    discovery_step (mkDiscovery t b q m (mkLoops c (mkRefreshing [] [] [])))
      (mkDiscovery t b q m (mkLoops c
        (mkRefreshing [] [] (chunks 16 (RoutingTable.refresh_candidates t REFRESH_PER_BUCKET)))))
| step_chunk t b q m c chunk rest :
    discovery_step (mkDiscovery t b q m (mkLoops c (mkRefreshing [] [] (chunk :: rest))))
      (mkDiscovery t b q m (mkLoops c (mkRefreshing chunk [] rest)))
| step_evict t b q m c be chunk tasks rest :
    (MAX_FAILURES <=? failures be) = true →
    discovery_step (mkDiscovery t b q m (mkLoops c (mkRefreshing (be :: chunk) tasks rest)))
      (mkDiscovery (RoutingTable.remove_entry t (bkey be)) b q m (mkLoops c (mkRefreshing chunk tasks rest)))
| step_ping t b q m c be chunk tasks rest :
    (MAX_FAILURES <=? failures be) = false →
    discovery_step (mkDiscovery t b q m (mkLoops c (mkRefreshing (be :: chunk) tasks rest)))
      (mkDiscovery t b q m (mkLoops c (mkRefreshing chunk (tasks ++ [be]) rest)))
| step_pinged t b q m c tasks k be rest env ok t' evs :
    tasks !! k = Some be → other_steps env be t = t → refresh_entry env be t = (ok, t', evs) →
    discovery_step (mkDiscovery t b q m (mkLoops c (mkRefreshing [] tasks rest)))
      (mkDiscovery t' b q m (mkLoops c (mkRefreshing [] (delete k tasks) rest)))
(** The node receives, reports events and advertises protocols. *)
| step_recv t b x q m l :
    discovery_step (mkDiscovery t b (x :: q) m l) (mkDiscovery t b q m l)
| step_event t b q m l now ev :
    (∀ pid, ev ∈ [EvConnected pid; EvDisconnected pid; EvConnectFailed (Some pid)] → id_wf pid) →
    discovery_step (mkDiscovery t b q m l) (mkDiscovery (on_event now t ev) b q m l)
| step_advertise t b q m l item flags :
    discovery_step (mkDiscovery t b q m l) (mkDiscovery t (advertise b item flags) q m l).

End system.
