(* ===== verification/KademliaSpec.v ===== *)
(** * Correctness of Kademlia discovery

    The connect loop hands every peer out once; seeding and every step of
    [discovery_step] keep to the contract of the table, so that it holds only what
    passed validation. *)

From S2P Require Import Prelude Codec Endpoint Framed Message Bloom RoutingTable.
From S2P Require Import RoutingTableSpec RoutingTableQueries Version Session Config KadMessages.
From S2P Require Import Lookup LookupSpec LookupExchange Refresh RefreshSpec Kademlia.

Local Open Scope Z_scope.

Section spec.
Context `{Semver} `{SipHash}.

(** An entry the connect loop may pick. *)
Definition pickable (bloom : LocalBloom) (be : BucketEntry) : Prop :=
  Z.land (status be) PENDING_ENTRY ≠ 0 ∧
  LocalBloom.matches bloom (protocols (entry be)) = true.

Definition sampling_ok (s : sampling) : Prop :=
  (∀ l, sample_buckets s l ≡ₚ l) ∧ (∀ l, sample_entries s l ≡ₚ l).

Lemma sampled_entries s t :
  sampling_ok s →
  concat (map (λ b, sample_entries s (entries b)) (sample_buckets s (buckets t)))
    ≡ₚ table_entries t.
Proof.
  intros [Hb He]. unfold table_entries. rewrite (Hb (buckets t)).
  induction (buckets t) as [|b bs IH]; simpl; [done|]. by rewrite He, IH.
Qed.

Lemma connect_turn_cases s now bloom t :
  sampling_ok s →
  (∃ be, be ∈ table_entries t ∧ pickable bloom be ∧
    connect_turn s now bloom t =
      (Some (discovered (entry be)),
       RoutingTable.update_entry now t (bkey be) CONNECTED_ENTRY)) ∨
  (connect_turn s now bloom t = (None, t) ∧ ∀ be, be ∈ table_entries t → ¬ pickable bloom be).
Proof.
  intros Hs. unfold connect_turn, RoutingTable.random_entry_filtered, BloomRef.snapshot.
  pose proof (sampled_entries s t Hs) as Hl. set (l := concat _) in *.
  destruct (find_first _ l) as [be|] eqn:Hf; simpl.
  - left. apply find_first_Some in Hf as [Hin [Hp%negb_true_iff%Z.eqb_neq Hm]%andb_true_iff].
    exists be. by rewrite <-Hl.
  - right. split; [done|]. intros be Hin [Hp Hm]. rewrite <-Hl in Hin.
    pose proof (proj1 (find_first_None _ _) Hf be Hin) as Hno. simpl in Hno.
    rewrite Hm, andb_true_r in Hno. by apply negb_false_iff, Z.eqb_eq in Hno.
Qed.

Lemma connect_turn_Some s now bloom t x t' :
  sampling_ok s → connect_turn s now bloom t = (Some x, t') →
  ∃ be, be ∈ table_entries t ∧ x = discovered (entry be) ∧
    t' = RoutingTable.update_entry now t (bkey be) CONNECTED_ENTRY.
Proof.
  intros Hs Hturn. destruct (connect_turn_cases s now bloom t Hs) as [(be & ? & _ & Heq)|[Heq _]];
    rewrite Hturn in Heq; simplify_eq. by eauto.
Qed.

(** The connect loop hands every peer out once.  A turn picks a pending
    entry that matches the node's filter, whatever the random order, and seeds
    only when there is none; the entry it picked is marked, so that no later
    turn picks it again before its status changes. *)
Theorem connect_turn_once s now bloom t :
  wf t → sampling_ok s →
  match connect_turn s now bloom t with
  | (Some p, t') =>
      (∃ be, be ∈ table_entries t ∧ pickable bloom be ∧ p = discovered (entry be)) ∧ wf t' ∧
      (∀ s' now' bloom' p' t'', sampling_ok s' →
        connect_turn s' now' bloom' t' = (Some p', t'') → dp_peer_id p' ≠ dp_peer_id p)
  | (None, t') => t' = t ∧ ∀ be, be ∈ table_entries t → ¬ pickable bloom be
  end.
Proof.
  intros Hwf Hs. destruct (connect_turn_cases s now bloom t Hs) as [(be & Hin & Hp & ->)|[-> Hnone]];
    [|done].
  assert (key_wf (bkey be)) as Hk by (by eapply table_entries_key_wf).
  split_and!; [by eauto|by apply wf_update|]. intros s' now' bloom' p' t'' Hs' Hturn Hid.
  destruct (connect_turn_cases s' now' bloom'
    (RoutingTable.update_entry now t (bkey be) CONNECTED_ENTRY) Hs') as [(be' & Hin' & [Hp' _] & Heq)|[Heq _]];
    rewrite Hturn in Heq; [|done]. injection Heq as -> _.
  injection Hid as Hid. rewrite update_entry_omap in Hin' by done.
  apply list_elem_of_omap in Hin' as (e & _ & Hat). unfold at_key in Hat. case_decide as Hke.
  - injection Hat as <-. rewrite set_status_spec in Hp'. simpl in Hp'. done.
  - simplify_eq.
Qed.

(** ** Seeding *)

Section seeding.
Context `{Bincode PingMsg} `{Bincode PongMsg} `{Bincode FindPeerMsg} `{Bincode PeerMsg}
  `{Bincode PeersMsg} `{Bincode ShutdownMsg}.
Context `{!BincodeTyped PeerMsg PeerMsg_wf}.
Context `{!BincodeTyped PeersMsg (λ m, Forall PeerMsg_wf (peers m))}.

Definition seeding_ok (s : seeding) : Prop :=
  lookup_env_ok (seed_env s) ∧ ∀ t, rtc kad_step t (seed_failed s t).

Lemma seed_lookup_steps svc ep s t ok t' :
  seeding_ok s → seed_lookup svc ep s t = Ready (ok, t') → rtc kad_step t t'.
Proof.
  intros [Henv Hfail]. unfold seed_lookup.
  destruct (start_lookup _ _ _ _) as [|[[n t1]|e]|] eqn:Hl; try done.
  - intros [= <- <-]. apply start_lookup_Ok in Hl as (_ & _ & t0 & found & Hst & -> & _ & Hall); [|done].
    etrans; [done|]. by apply add_peers_steps.
  - intros [= <- <-]. apply Hfail.
Qed.

Lemma seed_all_steps svc eps : ∀ t t',
  (∀ ep s, (ep, s) ∈ eps → seeding_ok s) → seed_all svc eps t = Ready t' → rtc kad_step t t'.
Proof.
  induction eps as [|[ep s] eps IH]; intros t t' Hok; simpl; [by intros [= <-]|].
  destruct (seed_lookup svc ep s t) as [|[ok t1]|] eqn:Hlk; try done. intros Hrest.
  etrans; [eapply seed_lookup_steps; [apply (Hok ep); by left|done]|].
  apply IH; [|done]. intros ep' s' Hin. eapply Hok. by right.
Qed.

(** Seeding only takes steps of the shared table. *)
Lemma start_seeding_steps svc smp s shuffled t t' :
  table_ok t → sampling_ok smp → seeding_ok s →
  (∀ l ep s', (ep, s') ∈ shuffled l → seeding_ok s') →
  start_seeding svc smp s shuffled t = Ready t' → rtc kad_step t t'.
Proof.
  intros [Hwf _] Hsmp Hs Hsh. unfold start_seeding, RoutingTable.random_entry,
    RoutingTable.random_entry_filtered.
  pose proof (sampled_entries smp t Hsmp) as Hl. set (l := concat _) in *.
  destruct (find_first _ l) as [be|] eqn:Hf; simpl.
  - apply find_first_Some in Hf as [Hin _]. rewrite Hl in Hin.
    destruct (pick_endpoint _ _) as [ep|]; [|by intros [= <-]].
    destruct (seed_lookup svc ep s t) as [|[[] t1]|] eqn:Hlk; try done; intros [= <-].
    + by eapply seed_lookup_steps.
    + eapply rtc_r; [by eapply seed_lookup_steps|]. constructor. by eapply table_entries_key_wf.
  - by apply seed_all_steps, Hsh.
Qed.

End seeding.

(** ** The invariant of discovery *)

(** A peer the node can be told to dial. *)
Definition dialable (p : DiscoveredPeer) : Prop :=
  (length (dp_addrs p) ≤ MAX_ADDRS_PER_PEER)%nat ∧
  (length (dp_discovery_addrs p) ≤ MAX_DISCOVERY_ADDRS_PER_PEER)%nat ∧
  (dp_addrs p ≠ [] ∨ dp_discovery_addrs p ≠ []).

(** The peer a connect loop is pushing, and what its seeding has at hand. *)
Definition pushing (l : kad_loops) : option DiscoveredPeer :=
  match l_connect l with Pushing x => Some x | _ => None end.
Definition found (l : kad_loops) : list PeerMsg :=
  match l_connect l with Adding ps _ => ps | _ => [] end.
Definition seeding_keys (l : kad_loops) : list Key :=
  match l_connect l with Lookups todo | Adding _ todo => omap fst todo | _ => [] end.
Definition refreshed_entries (l : kad_loops) : list BucketEntry :=
  rf_chunk (l_refresh l) ++ rf_tasks (l_refresh l) ++ concat (rf_rest (l_refresh l)).

Record discovery_ok (d : discovery) : Prop := {
  ok_table : table_ok (d_table d);
  ok_queue : (length (d_queue d) ≤ DISCOVERED_PEER_QUEUE_SIZE)%nat;
  ok_peers : Forall dialable (d_queue d ++ d_manual d ++ option_list (pushing (d_loops d)));
  ok_found : Forall (λ p, PeerMsg_wf p ∧ advertisable (Entry_from p)) (found (d_loops d));
  ok_seeding : Forall key_wf (seeding_keys (d_loops d));
  ok_refresh : Forall (λ be, key_wf (bkey be)) (refreshed_entries (d_loops d));
}.

Lemma discovered_dialable t be :
  table_ok t → be ∈ table_entries t → dialable (discovered (entry be)).
Proof.
  intros [_ Hadv] (b & [i Hi]%list_elem_of_lookup & Hbe)%table_entries_elem.
  rewrite Forall_forall in Hadv. destruct (Hadv (entry be)) as [? ? _ ?]; [|done].
  apply all_entries_elem. exists i, b. split; [done|]. by apply (list_elem_of_fmap_2 entry).
Qed.

Lemma manual_dialable config : Forall dialable (manual_peers config).
Proof.
  apply Forall_forall. intros p (ep & _ & Hp)%list_elem_of_omap.
  destruct (from_endpoint ep 0); simplify_eq/=. split_and!; [simpl; unfold MAX_ADDRS_PER_PEER; lia|
    simpl; unfold MAX_DISCOVERY_ADDRS_PER_PEER; lia|by left].
Qed.

Lemma on_event_steps now t ev :
  (∀ pid, ev ∈ [EvConnected pid; EvDisconnected pid; EvConnectFailed (Some pid)] → id_wf pid) →
  rtc kad_step t (on_event now t ev).
Proof.
  intros Hwf. destruct ev as [pid|pid|[pid|]]; simpl; [..|done];
    apply rtc_once; constructor; apply (Hwf pid); set_solver.
Qed.

Lemma seed_lookups_keys smp shuffled t :
  table_ok t → sampling_ok smp → Forall key_wf (omap fst (seed_lookups smp shuffled t)).
Proof.
  intros [Hwf _] Hs. unfold seed_lookups, RoutingTable.random_entry, RoutingTable.random_entry_filtered.
  pose proof (sampled_entries smp t Hs) as Hl. set (l := concat _) in *.
  destruct (find_first _ l) as [be|] eqn:Hf; simpl.
  - apply find_first_Some in Hf as [Hin _]. rewrite Hl in Hin.
    destruct (pick_endpoint _ _); simpl; [|done]. rewrite Forall_singleton. by eapply table_entries_key_wf.
  - clear. by induction shuffled.
Qed.

Lemma chunks_concat {A} n (l : list A) : concat (chunks (S n) l) = l.
Proof.
  unfold chunks. assert (∀ fuel (l : list A), (length l ≤ fuel)%nat → concat (chunks_fuel fuel (S n) l) = l) as Hc; [|by apply Hc].
  clear l. induction fuel as [|fuel IH]; intros [|x l] Hl; cbn [chunks_fuel concat]; try done; [cbn in Hl; lia|].
  rewrite IH; [apply take_drop|]. rewrite length_drop. cbn in *. lia.
Qed.

Lemma candidates_keys t :
  table_ok t → Forall (λ be, key_wf (bkey be)) (RoutingTable.refresh_candidates t REFRESH_PER_BUCKET).
Proof.
  intros [Hwf _]. apply Forall_forall. intros be Hbe. eapply table_entries_key_wf; [done|].
  by apply (proj2 (refresh_candidates_spec t REFRESH_PER_BUCKET)) in Hbe as [? _].
Qed.

Section loops.
Context `{KadBincode} (svc : LookupService).
Context `{!BincodeTyped PeerMsg PeerMsg_wf}.
Context `{!BincodeTyped PeersMsg (λ m, Forall PeerMsg_wf (peers m))}.

(** Every step keeps to the contract of the table. *)
Lemma discovery_step_kad d d' :
  discovery_step svc d d' → discovery_ok d → rtc kad_step (d_table d) (d_table d').
Proof.
  intros Hstep [Ht Hq Hp Hf Hk Hr]. destruct Hstep as [|t b q s now x t' r Hturn ? ?| |t b q s now t' r Hturn ? ?| |
    |t b q now p fs todo r| |t b q k ep todo env t0 err now r| |t b q m l now msg w t' w' Hin| | |
    t b q m c be chunk tasks rest| |t b q m c tasks k be rest env ok t' evs Hbe Hoth Hre| |
    t b q m l now ev Hev|]; simpl in *; try apply rtc_refl.
  - destruct (connect_turn_Some s now b t x t') as (be & Hin & -> & ->); [done..|].
    apply rtc_once. constructor. eapply table_entries_key_wf; [by destruct Ht|done].
  - destruct (connect_turn_cases s now b t) as [(? & _ & _ & Heq)|[Heq _]]; [done| |];
      rewrite Hturn in Heq; simplify_eq; apply rtc_refl.
  - apply Forall_cons in Hf as [[Hw Ha] _]. by apply rtc_once, kad_add.
  - destruct k as [k|]; simpl; [|apply rtc_refl]. apply Forall_cons in Hk as [Hk _]. by apply rtc_once, kad_update.
  - by eapply inbound_msg_safe.
  - apply Forall_cons in Hr as [Hr _]. by apply rtc_once, kad_remove.
  - assert (key_wf (bkey be)) as Hkb.
    { cbn in Hr. apply Forall_app in Hr as [Hr _]. by eapply (Forall_lookup_1 _ _ _ _ Hr Hbe). }
    unfold refresh_entry in Hre. rewrite Hoth in Hre.
    destruct (outcome env (entry be)), (MAX_FAILURES <=? failures be); injection Hre as <- <- <-; apply rtc_once; by apply kad_update || by apply kad_remove.
  - by apply on_event_steps.
Qed.

Lemma discovery_step_ok d d' : discovery_step svc d d' → discovery_ok d → discovery_ok d'.
Proof.
  intros Hstep Hd. pose proof (discovery_step_kad d d' Hstep Hd) as Hkad. destruct Hd as [Ht Hq Hp Hf Hk Hr].
  assert (table_ok (d_table d')) as Ht' by eauto with karyon.
  destruct Hstep as [|t b q s now x t' r Hturn ? ?| | |t b q s shuffled r ? ? ?|t b q k ep todo env t0 t1 fs r ? ? Hfs
    | | |t b q k ep todo env t0 err now r| | | | | |t b q m c be chunk tasks rest|t b q m c tasks k be rest env ok t' evs Hbe Hoth Hre
    | | |]; split; simpl in *; try done; rewrite ?length_app in *; simpl in *; try lia.
  - by rewrite <-app_assoc.
  - destruct (connect_turn_Some s now b t x t') as (be & Hin & -> & _); [done..|].
    apply Forall_app in Hp as [Hp _]. apply Forall_app.
    split; [done|]. rewrite Forall_singleton. by apply (discovered_dialable t).
  - by rewrite app_nil_r.
  - by apply seed_lookups_keys.
  - by apply lookup_peers_sound in Hfs as (_ & _ & _ & Hfs).
  - by destruct k; [apply Forall_cons in Hk as [_ Hk]|].
  - by apply Forall_cons in Hf as [_ Hf].
  - by destruct k; [apply Forall_cons in Hk as [_ Hk]|].
  - unfold refreshed_entries. cbn. rewrite chunks_concat. by apply candidates_keys.
  - by apply Forall_cons in Hr as [_ Hr].
  - unfold refreshed_entries in *. cbn in *. rewrite Forall_cons, !Forall_app in Hr.
    rewrite !Forall_app, Forall_singleton. tauto.
  - unfold refreshed_entries in *. cbn in *. apply Forall_app in Hr as [Hr1 Hr2]. apply Forall_app; split; [|done].
    by apply Forall_delete.
  - by apply Forall_cons in Hp as [_ Hp].
Qed.

(** C8: The invariant of discovery.  Whatever remote nodes send to its lookup service,
    and whatever the lookups, the refresh loop, the node and the connect loop do, in
    whatever order, the routing table keeps its invariant and holds only descriptions
    that passed validation: with at least one and at most four plus three addresses
    and no TLS discovery address; the queue of discovered peers never exceeds its
    bound, and every peer on its way to the node has an address. *)
Theorem discovery_invariant peer_id config d :
  id_wf peer_id → rtc (discovery_step svc) (discovery_new peer_id config) d →
  wf (d_table d) ∧ Forall advertisable (all_entries (d_table d)) ∧
  (length (d_queue d) ≤ DISCOVERED_PEER_QUEUE_SIZE)%nat ∧
  Forall dialable (d_queue d ++ option_list (pushing (d_loops d))).
Proof.
  intros Hid Hrtc.
  assert (discovery_ok d) as [[Hwf Hadv] Hq Hp _ _ _].
  { assert (discovery_ok (discovery_new peer_id config)) as Hnew.
    { split; simpl; [by apply table_ok_new|lia| |done..]. rewrite app_nil_r. apply manual_dialable. }
    revert Hnew. induction Hrtc; eauto using discovery_step_ok. }
  split_and!; [done..|]. rewrite !Forall_app in *. tauto.
Qed.

End loops.

End spec.

(** ** Witnesses *)

Section witnesses.

#[local] Instance some_siphash : SipHash := λ bs, foldr Z.add 0 bs.

#[local] Instance any_semver : Semver := {|
  VersionReq := ();
  parse_req s := if decide (s = "*") then Some () else None;
  print_req _ := "*";
  req_matches _ _ _ _ := true;
|}.

Definition plain_sampling : sampling := mkSampling id id.

Lemma connect_turn_once_witness :
  ∃ p t', connect_turn plain_sampling 3 LocalBloom.default one_table = (Some p, t') ∧ wf t' ∧
    dp_peer_id p = Some (mkPeerID far_key).
Proof.
  pose proof (connect_turn_once plain_sampling 3 LocalBloom.default one_table) as Hspec.
  destruct (connect_turn plain_sampling 3 LocalBloom.default one_table) as [[p|] t'] eqn:Hturn.
  - exists p, t'. split; [reflexivity|]. split.
    + apply Hspec; [exact one_table_wf|split; reflexivity].
    + apply (f_equal (λ x, dp_peer_id <$> x.1)) in Hturn.
      enough (Some (dp_peer_id p) = Some (Some (mkPeerID far_key))) as Heq by (injection Heq as ->; reflexivity).
      etransitivity; [symmetry; exact Hturn|]. vm_compute. reflexivity.
  - exfalso. apply (f_equal fst) in Hturn. vm_compute in Hturn. discriminate.
Defined.

Definition seeded_config : Config.t :=
  let c := Config.default_with (mkVersion _ (mkVersionInt 0 2 0) ()) in
  {| Config.version := Config.version c; Config.enable_monitor := false;
     Config.access_control := AllowAll; Config.handshake_timeout := 4; Config.ping_interval := 20;
     Config.ping_timeout := 2; Config.max_connect_retries := 3; Config.bootstrap_peers := [];
     Config.listen_endpoints := []; Config.discovery_endpoints := [];
     Config.dial_peers := [Tcp (Ip (V4 [10; 0; 0; 1])) 8000]; Config.public_ip := None;
     Config.inbound_slots := 12; Config.outbound_slots := 12; Config.seeding_interval := 60;
     Config.lookup_inbound_slots := 20; Config.lookup_outbound_slots := 20;
     Config.lookup_response_timeout := 1; Config.lookup_connection_lifespan := 3;
     Config.lookup_connect_retries := 3; Config.refresh_interval := 1800;
     Config.refresh_response_timeout := 1; Config.refresh_connect_retries := 3 |}.

#[local] Instance kad_bincode : KadBincode := {|
  kad_ping_bincode := countable_bincode PingMsg;
  kad_pong_bincode := countable_bincode PongMsg;
  kad_find_bincode := countable_bincode FindPeerMsg;
  kad_peer_bincode := typed_bincode PeerMsg PeerMsg_wf;
  kad_peers_bincode := typed_bincode PeersMsg (λ m, Forall PeerMsg_wf (peers m));
  kad_shutdown_bincode := countable_bincode ShutdownMsg;
|}.
#[local] Instance kad_peer_typed : BincodeTyped PeerMsg PeerMsg_wf := proj2 (typed_bincode_laws _ _).
#[local] Instance kad_peers_typed : BincodeTyped PeersMsg (λ m, Forall PeerMsg_wf (peers m)) :=
  proj2 (typed_bincode_laws _ _).

Definition seeded_service : LookupService := new_lookup_service (mkPeerID zeros) seeded_config.

(** A remote node describes itself. *)
Definition described : KadNetMsg :=
  match KadNetMsg_new KadPeer (PeerMsg_from known_entry) with
  | Ok m => m
  | Err _ => mkKadNetMsg (mkKadHeader KadPeer) []
  end.

Definition described_table : RoutingTable :=
  (RoutingTable.add_entry 2 (RoutingTable.new zeros) known_entry).2.

Lemma described_added :
  ∃ w', inbound_msg seeded_service 2 (RoutingTable.new zeros) described (good_wire 1 []) =
    (Ready (Ok (Some described_table)), w').
Proof. eexists. vm_compute. reflexivity. Qed.

(** The node pushes its manual peer and learns of a peer that connects to its lookup
    service. *)
Lemma discovery_invariant_witness :
  ∃ d, rtc (discovery_step seeded_service) (discovery_new (mkPeerID zeros) seeded_config) d ∧
    length (d_queue d) = 1%nat ∧ all_entries (d_table d) = [known_entry] ∧ wf (d_table d).
Proof.
  set (d0 := discovery_new (mkPeerID zeros) seeded_config).
  set (d := mkDiscovery described_table (d_bloom d0) (d_manual d0) [] idle_loops).
  assert (rtc (discovery_step seeded_service) d0 d) as Hrtc.
  { eapply rtc_l; [apply (step_manual seeded_service (d_table d0) (d_bloom d0) [] _ [] idle_loops); vm_compute; lia|].
    destruct described_added as [w' Hin]. eapply rtc_once, step_inbound, Hin. }
  exists d. split; [exact Hrtc|]. split; [reflexivity|]. split; [vm_compute; reflexivity|].
  exact (proj1 (discovery_invariant seeded_service (mkPeerID zeros) seeded_config d zeros_wf Hrtc)).
Defined.

End witnesses.
