(* ===== verification/KeyPair.v ===== *)
(** * Key pairs: core/src/crypto/key_pair.rs

    The curve itself is ed25519_dalek's, the class [Dalek]; its documented
    behaviour is [DalekLaws].  The file models what karyon adds: the fixed widths
    of keys and signatures and the rejection of weak keys. *)

From Stdlib Require Import String ZArith.
From stdpp Require Import prelude.
From S2P Require Import Prelude Codec.
#[local] Open Scope Z_scope.
#[local] Open Scope string_scope.

(** ** ed25519_dalek *)

Class Dalek := {
  SigningKey : Type;
  VerifyingKey : Type;
  dalek_sign : SigningKey → list Z → list Z;
  dalek_verifying_key : SigningKey → VerifyingKey;
  dalek_secret_bytes : SigningKey → list Z;
  dalek_as_bytes : VerifyingKey → list Z;
  dalek_from_bytes : list Z → option VerifyingKey;
  dalek_is_weak : VerifyingKey → bool;
  dalek_verify_strict : VerifyingKey → list Z → list Z → bool;
}.

Class DalekLaws `{Dalek} := {
  dalek_sign_length sk m : length (dalek_sign sk m) = 64%nat;
  dalek_bytes_length vk : length (dalek_as_bytes vk) = 32%nat;
  dalek_from_as_bytes vk : dalek_from_bytes (dalek_as_bytes vk) = Some vk;
  (** A key keeps the bytes it was made from. *)
  dalek_as_from_bytes bs vk : dalek_from_bytes bs = Some vk → dalek_as_bytes vk = bs;
  (** The public key of a signing key is a multiple of the base point. *)
  dalek_not_weak sk : dalek_is_weak (dalek_verifying_key sk) = false;
  dalek_sign_verify sk m :
    dalek_verify_strict (dalek_verifying_key sk) m (dalek_sign sk m) = true;
}.

Section defs.
Context `{Dalek}.

Inductive KeyPairType := KTEd25519.

Inductive KeyPair := KPEd25519 (k : SigningKey).

Inductive PublicKey := PKEd25519 (k : VerifyingKey).

(** ** Key pairs *)

(** [rnd] is the key the random source leads to. *)
Definition key_generate (t : KeyPairType) (rnd : SigningKey) : KeyPair :=
  match t with KTEd25519 => KPEd25519 rnd end.

Definition sign (kp : KeyPair) (msg : list Z) : list Z :=
  match kp with KPEd25519 k => dalek_sign k msg end.

Definition public (kp : KeyPair) : PublicKey :=
  match kp with KPEd25519 k => PKEd25519 (dalek_verifying_key k) end.

Definition secret (kp : KeyPair) : list Z :=
  match kp with KPEd25519 k => dalek_secret_bytes k end.

(** ** Public keys *)

(** [try_into] an array of [n] bytes. *)
Definition to_bytes_array (n : nat) (bs : list Z) (what : string) : result core_error (list Z) :=
  if decide (length bs = n) then Ok bs else Err (TryInto what).

Definition ed25519_from_bytes (pk : list Z) : result core_error VerifyingKey :=
  pk_bytes ← to_bytes_array 32 pk "Failed to convert slice to [u8; 32]";
  pk ← ok_or (dalek_from_bytes pk_bytes) Ed25519;
  if dalek_is_weak pk then Err Ed25519 else Ok pk.

Definition ed25519_verify (pk : VerifyingKey) (msg signature : list Z) : result core_error () :=
  sig_bytes ← to_bytes_array 64 signature "Failed to convert slice to [u8; 64]";
  if dalek_verify_strict pk msg sig_bytes then Ok () else Err Ed25519.

Definition from_bytes (t : KeyPairType) (pk : list Z) : result core_error PublicKey :=
  match t with KTEd25519 => PKEd25519 <$> ed25519_from_bytes pk end.

Definition as_bytes (pk : PublicKey) : list Z :=
  match pk with PKEd25519 k => dalek_as_bytes k end.

Definition verify (pk : PublicKey) (msg signature : list Z) : result core_error () :=
  match pk with PKEd25519 k => ed25519_verify k msg signature end.

End defs.

Arguments KeyPair {_}.
Arguments PublicKey {_}.
Arguments from_bytes : simpl never.
Arguments verify : simpl never.

(** ** Theorems *)

Section theorems.
Context `{Dalek} `{!DalekLaws}.

(** What it takes for bytes to be accepted as a key. *)
Lemma from_bytes_Ok t bs pk :
  from_bytes t bs = Ok pk ↔
  ∃ vk, pk = PKEd25519 vk ∧ dalek_as_bytes vk = bs ∧ dalek_is_weak vk = false.
Proof.
  destruct t. unfold from_bytes, ed25519_from_bytes, to_bytes_array. split.
  - case_decide; [|done]. destruct (dalek_from_bytes bs) as [vk|] eqn:Hb; cbn; rewrite Hb; cbn; [|done].
    destruct (dalek_is_weak vk) eqn:Hw; [done|]. intros [= <-].
    apply dalek_as_from_bytes in Hb. by exists vk.
  - intros (vk & -> & <- & Hw). rewrite decide_True by apply dalek_bytes_length.
    cbn. rewrite dalek_from_as_bytes. cbn. by rewrite Hw.
Qed.

Lemma verify_Ok vk msg sig :
  verify (PKEd25519 vk) msg sig = Ok () ↔
  length sig = 64%nat ∧ dalek_verify_strict vk msg sig = true.
Proof.
  unfold verify, ed25519_verify, to_bytes_array. case_decide; cbn; [|naive_solver].
  destruct (dalek_verify_strict vk msg sig); naive_solver.
Qed.

(** Bytes of a public key are a key again, and it verifies what the pair signed. *)
Lemma key_roundtrip kp msg :
  from_bytes KTEd25519 (as_bytes (public kp)) = Ok (public kp) ∧
  verify (public kp) msg (sign kp msg) = Ok ().
Proof.
  destruct kp as [k]. split.
  - apply from_bytes_Ok. exists (dalek_verifying_key k). split_and!; [reflexivity..|apply dalek_not_weak].
  - apply verify_Ok. split; [apply dalek_sign_length|apply dalek_sign_verify].
Qed.

End theorems.
