(* ===== verification/TlsConfig.v ===== *)
(** * Peer certificates: p2p/src/tls_config.rs

    A node proves its identity by a self-signed certificate whose key it signs
    with its own, in an extension of the certificate.  The file models the
    certificate a node makes, the checks of the two verifiers and the identity
    the connector and the listener derive from the chain; rcgen, x509-parser,
    yasna and rustls are parameters.

    Validity depends on the clock, so every check takes the time [now] at which
    it runs. *)

From Stdlib Require Import String ZArith.
From stdpp Require Import prelude gmap.
From S2P Require Import Prelude Codec Framed Message Version Session Handshake KeyPair.
#[local] Open Scope Z_scope.

(** ** The libraries *)

(** x509-parser's certificates, yasna's encoding of a pair of byte strings. *)
Class X509 := {
  X509Certificate : Type;
  Oid : Type;
  oid_eq_dec :: EqDecision Oid;
  oid_from : list Z → option Oid;
  parse_x509_certificate : list Z → option X509Certificate;
  validity_is_valid : X509Certificate → Z → bool;
  cert_extensions : X509Certificate → list (Oid * list Z);
  (** [public_key().raw], the whole SubjectPublicKeyInfo. *)
  spki_raw : X509Certificate → list Z;
  (** Its key alone, [subject_pki.subject_public_key]. *)
  subject_public_key : X509Certificate → list Z;
  tbs_certificate : X509Certificate → list Z;
  signature_value : X509Certificate → list Z;
  yasna_encode : list Z * list Z → list Z;
  yasna_decode : list Z → option (list Z * list Z);
}.

Record CustomExtension := mkCustomExtension {
  ext_oid : list Z;
  ext_content : list Z;
  ext_critical : bool;
}.

(** rcgen's certificates and keys, rustls's builders. *)
Class CertGen := {
  CertKey : Type;
  cert_key_der : CertKey → list Z;
  cert_key_spki : CertKey → list Z;
  CertificateParams : Type;
  params_new : list string → option CertificateParams;
  params_push : CertificateParams → CustomExtension → CertificateParams;
  self_signed : CertificateParams → CertKey → option (list Z);
  CipherSuite : Type;
  TLS13_CHACHA20_POLY1305_SHA256 : CipherSuite;
  TLS13_AES_128_GCM_SHA256 : CipherSuite;
  (** [with_protocol_versions] with TLS 1.3 and X25519. *)
  with_protocol_versions : list CipherSuite → bool;
  (** [with_client_auth_cert] and [with_single_cert]. *)
  with_cert : list (list Z) → list Z → bool;
}.

Inductive tls_error := BadSignature | BadEncoding | NotValidYet | ApplicationVerificationFailure.

Section defs.
Context `{Dalek} `{X509} `{CertGen}.

Definition PEER_ID_EXT_OID : list Z := [0; 0; 0; 0].

Definition CIPHER_SUITES : list CipherSuite := [TLS13_CHACHA20_POLY1305_SHA256].
Definition QUIC_CIPHER_SUITES : list CipherSuite :=
  [TLS13_CHACHA20_POLY1305_SHA256; TLS13_AES_128_GCM_SHA256].

(** ** The certificate of a node *)

(** [rnd] is the key rcgen generates. *)
Definition generate_cert (key_pair : KeyPair) (rnd : option CertKey) :
    result p2p_error (list Z * list Z) :=
  cert_key_pair ← ok_or rnd Rcgen;
  let private_key := cert_key_der cert_key_pair in
  let signature := sign key_pair (cert_key_spki cert_key_pair) in
  let content := yasna_encode (as_bytes (public key_pair), signature) in
  let ext := mkCustomExtension PEER_ID_EXT_OID content false in
  params ← ok_or (params_new []) Rcgen;
  let params := params_push params ext in
  cert ← ok_or (self_signed params cert_key_pair) Rcgen;
  Ok (cert, private_key).

(** ** Checking a certificate *)

Definition parse_cert (now : Z) (end_entity : list Z) : result tls_error X509Certificate :=
  cert ← ok_or (parse_x509_certificate end_entity) BadEncoding;
  if negb (validity_is_valid cert now) then Err NotValidYet else Ok cert.

Definition verify_cert_signature (cert : X509Certificate) (message signature : list Z) :
    result tls_error () :=
  public_key ← map_err (λ _, BadEncoding) (from_bytes KTEd25519 (subject_public_key cert));
  map_err (λ _, BadSignature) (verify public_key message signature).

Definition verify_cert (now : Z) (end_entity : list Z) : result tls_error PeerID :=
  cert ← parse_cert now end_entity;
  want_oid ← ok_or (oid_from PEER_ID_EXT_OID) BadEncoding;
  ext ← ok_or (snd <$> list_find (λ e, e.1 = want_oid) (cert_extensions cert)) BadEncoding;
  '(public_key, signature) ← ok_or (yasna_decode ext.2) BadEncoding;
  public_key ← map_err (λ _, BadEncoding) (from_bytes KTEd25519 public_key);
  map_err (λ _, BadSignature) (verify public_key (spki_raw cert) signature);;
  verify_cert_signature cert (tbs_certificate cert) (signature_value cert);;
  map_err (λ _, BadEncoding) (PeerID.try_from_public_key (as_bytes public_key)).

Definition peer_id_from_certs (now : Z) (certs : list (list Z)) : option PeerID :=
  match certs with
  | [] => None
  | end_entity :: _ => match verify_cert now end_entity with Ok pid => Some pid | Err _ => None end
  end.

(** ** The verifiers *)

Record SrvrCertVerifier := mkSrvrCertVerifier { expected_peer_id : option PeerID }.

Definition verify_server_cert (v : SrvrCertVerifier) (now : Z) (end_entity : list Z) :
    result tls_error () :=
  peer_id ← verify_cert now end_entity;
  match expected_peer_id v with
  | Some pid =>
      if negb (bool_decide (pid = peer_id)) then Err ApplicationVerificationFailure else Ok ()
  | None => Ok ()
  end.

Definition verify_client_cert (now : Z) (end_entity : list Z) : result tls_error () :=
  verify_cert now end_entity;; Ok ().

(** The same for both verifiers. *)
Definition verify_tls13_signature (now : Z) (message cert signature : list Z) :
    result tls_error () :=
  cert ← parse_cert now cert;
  verify_cert_signature cert message signature.

(** ** Configurations *)

Record ClientConfig := mkClientConfig {
  client_suites : list CipherSuite;
  client_verifier : SrvrCertVerifier;
  client_chain : list (list Z);
  client_key : list Z;
}.

Record ServerConfig := mkServerConfig {
  server_suites : list CipherSuite;
  server_chain : list (list Z);
  server_key : list Z;
}.

Definition client_config (key_pair : KeyPair) (peer_id : option PeerID)
    (cipher_suites : list CipherSuite) (rnd : option CertKey) : result p2p_error ClientConfig :=
  '(cert, private_key) ← generate_cert key_pair rnd;
  let server_verifier := mkSrvrCertVerifier peer_id in
  if negb (with_protocol_versions cipher_suites) then Err Rustls
  else if negb (with_cert [cert] private_key) then Err Rustls
  else Ok (mkClientConfig cipher_suites server_verifier [cert] private_key).

Definition server_config (key_pair : KeyPair) (cipher_suites : list CipherSuite)
    (rnd : option CertKey) : result p2p_error ServerConfig :=
  '(cert, private_key) ← generate_cert key_pair rnd;
  if negb (with_protocol_versions cipher_suites) then Err Rustls
  else if negb (with_cert [cert] private_key) then Err Rustls
  else Ok (mkServerConfig cipher_suites [cert] private_key).

Definition tls_client_config (key_pair : KeyPair) (peer_id : option PeerID) :=
  client_config key_pair peer_id CIPHER_SUITES.
Definition quic_client_config (key_pair : KeyPair) (peer_id : option PeerID) :=
  client_config key_pair peer_id QUIC_CIPHER_SUITES.
Definition tls_server_config (key_pair : KeyPair) := server_config key_pair CIPHER_SUITES.
Definition quic_server_config (key_pair : KeyPair) := server_config key_pair QUIC_CIPHER_SUITES.

End defs.

(** ** What the libraries promise *)

(** A certificate rcgen makes, as x509-parser reads it: it is signed by the key
    it carries, has the custom extension, and no other one under an identifier
    that a standard reserves. *)
Record made_from `{Dalek} `{X509} `{CertGen} (certified : CertKey → SigningKey)
    (valid_from valid_to : Z) (ck : CertKey) (ext : CustomExtension) (c : X509Certificate) : Prop := {
  made_valid now : valid_from ≤ now ≤ valid_to → validity_is_valid c now = true;
  made_extension oid : oid_from (ext_oid ext) = Some oid →
    ∃ i, list_find (λ e, e.1 = oid) (cert_extensions c) = Some (i, (oid, ext_content ext));
  made_spki : spki_raw c = cert_key_spki ck;
  made_key : subject_public_key c = dalek_as_bytes (dalek_verifying_key (certified ck));
  made_signature : ∃ sig, signature_value c = sig ∧ length sig = 64%nat ∧
    dalek_verify_strict (dalek_verifying_key (certified ck)) (tbs_certificate c) sig = true;
}.

Class CertLaws `{Dalek} `{X509} `{CertGen} := {
  (** The Ed25519 key of an rcgen key pair. *)
  certified : CertKey → SigningKey;
  (** rcgen's default validity. *)
  valid_from : Z;
  valid_to : Z;
  yasna_roundtrip p : yasna_decode (yasna_encode p) = Some p;
  oid_from_small : is_Some (oid_from PEER_ID_EXT_OID);
  self_signed_parses params ps ext ck der :
    params_new params = Some ps → ext_oid ext = PEER_ID_EXT_OID →
    self_signed (params_push ps ext) ck = Some der →
    ∃ c, parse_x509_certificate der = Some c ∧ made_from certified valid_from valid_to ck ext c;
}.

(** ** Theorems *)

Section theorems.
Context `{Dalek} `{X509} `{CertGen} `{!DalekLaws}.

(** The key of a certificate has signed a message. *)
Definition cert_signed (signed : VerifyingKey → list Z → Prop) (c : X509Certificate)
    (message : list Z) : Prop :=
  ∃ cvk, dalek_as_bytes cvk = subject_public_key c ∧ signed cvk message.

Lemma parse_cert_Ok now der c :
  parse_cert now der = Ok c ↔
  parse_x509_certificate der = Some c ∧ validity_is_valid c now = true.
Proof.
  unfold parse_cert. destruct (parse_x509_certificate der) as [c'|]; cbn; [|by split; [|intros [??]]].
  destruct (validity_is_valid c' now) eqn:Hv; cbn; split.
  - by intros [= <-].
  - by intros [[= ->] _].
  - done.
  - intros [[= ->] ?]. congruence.
Qed.

Lemma verify_cert_signature_Ok c message sig :
  verify_cert_signature c message sig = Ok () ↔
  ∃ cvk, dalek_as_bytes cvk = subject_public_key c ∧ dalek_is_weak cvk = false ∧
    length sig = 64%nat ∧ dalek_verify_strict cvk message sig = true.
Proof.
  unfold verify_cert_signature. split.
  - intros (pk & (cvk & -> & Hb & Hw)%map_err_Ok%from_bytes_Ok & [??]%map_err_Ok%verify_Ok)%result_bind_Ok.
    by exists cvk.
  - intros (cvk & Hb & Hw & Hl & Hv). apply result_bind_Ok. exists (PKEd25519 cvk). split.
    + apply map_err_Ok, from_bytes_Ok. by exists cvk.
    + by apply map_err_Ok, verify_Ok.
Qed.

(** What a certificate that passes all checks looks like. *)
Lemma verify_cert_Ok now der pid :
  verify_cert now der = Ok pid ↔
  ∃ c oid i ext sig vk, parse_x509_certificate der = Some c ∧ validity_is_valid c now = true ∧
    oid_from PEER_ID_EXT_OID = Some oid ∧
    list_find (λ e, e.1 = oid) (cert_extensions c) = Some (i, ext) ∧
    yasna_decode ext.2 = Some (id_bytes pid, sig) ∧ id_bytes pid = dalek_as_bytes vk ∧
    dalek_is_weak vk = false ∧ length sig = 64%nat ∧
    dalek_verify_strict vk (spki_raw c) sig = true ∧
    verify_cert_signature c (tbs_certificate c) (signature_value c) = Ok ().
Proof.
  unfold verify_cert. rewrite result_bind_Ok. setoid_rewrite parse_cert_Ok. split.
  - intros (c & [Hp Hv] & Hr). destruct (oid_from _) as [oid|]; [|done].
    cbn in Hr. destruct (list_find _ _) as [[i ext]|] eqn:Hf; [|done].
    cbn in Hr. destruct (yasna_decode ext.2) as [[kb sig]|] eqn:Hy; [|done].
    cbn in Hr. apply result_bind_Ok in Hr as (pk & (vk & -> & <- & Hw)%map_err_Ok%from_bytes_Ok & Hr).
    apply result_bind_Ok in Hr as ([] & [Hl Hs]%map_err_Ok%verify_Ok & Hr).
    apply result_bind_Ok in Hr as ([] & Hc & Hr%map_err_Ok).
    unfold PeerID.try_from_public_key, PeerID.to_array in Hr. case_decide; [|done].
    injection Hr as <-. by exists c, oid, i, ext, sig, vk.
  - intros (c & oid & i & ext & sig & vk & Hp & Hv & Ho & Hf & Hy & Hid & Hw & Hl & Hs & Hc).
    exists c. split; [done|]. rewrite Ho. cbn. rewrite Hf. cbn. rewrite Hy. cbn.
    rewrite Hid, (proj2 (from_bytes_Ok KTEd25519 _ (PKEd25519 vk))) by (by exists vk).
    cbn [map_err mbind result_bind]. rewrite (proj2 (verify_Ok _ _ _)) by done.
    cbn [map_err mbind result_bind]. rewrite Hc. cbn [map_err mbind result_bind as_bytes].
    unfold PeerID.try_from_public_key, PeerID.to_array.
    rewrite decide_True by apply dalek_bytes_length. cbn. rewrite <-Hid. by destruct pid.
Qed.

Lemma peer_id_from_certs_Some now certs pid :
  peer_id_from_certs now certs = Some pid ↔
  ∃ der chain, certs = der :: chain ∧ verify_cert now der = Ok pid.
Proof.
  destruct certs as [|der chain]; cbn; split; intros Hs; [done|by destruct Hs as (?&?&?&?)|..].
  - destruct (verify_cert now der) eqn:Hv; [|done]. injection Hs as <-. by exists der, chain.
  - destruct Hs as (? & ? & [= <- <-] & ->). done.
Qed.

(** The time of a check decides only whether the certificate is valid. *)
Lemma verify_cert_time now now' der pid c :
  verify_cert now der = Ok pid → parse_x509_certificate der = Some c →
  validity_is_valid c now' = true → verify_cert now' der = Ok pid.
Proof.
  rewrite !verify_cert_Ok. intros (c' & oid & i & ext & sig & vk & Hp & Hv & Hr) Hc Hv'.
  assert (c' = c) as -> by congruence. by exists c, oid, i, ext, sig, vk.
Qed.

Lemma verify_cert_expired now der c :
  parse_x509_certificate der = Some c → validity_is_valid c now = false →
  verify_cert now der = Err NotValidYet.
Proof. intros Hp Hv. unfold verify_cert, parse_cert. rewrite Hp. cbn. by rewrite Hv. Qed.

(** C5: The identity of a peer over TLS is one whose key made this very session.
    Let a node accept a certificate and the signature of the TLS transcript, with
    the verifier of either side, and let the handshake that follows return a peer
    with the identity the chain gives as the verified one.  Assuming that only
    the owner of a key that is not weak makes signatures that verify, the key
    that is the peer's identity signed the key of the certificate, and the key of
    the certificate signed the transcript; when the node dialed a particular
    peer, it is that one.  The certificate has to be still valid when the
    identity is derived. *)
Theorem tls_peer_authenticated `{Semver} `{Bincode VerMsg} `{Bincode VerAckMsg}
    (map_iter : gmap ProtocolID WireVersion → list (ProtocolID * WireVersion))
    (signed : VerifyingKey → list Z → Prop)
    (unforgeable : ∀ vk m s, dalek_is_weak vk = false →
      dalek_verify_strict vk m s = true → signed vk m)
    v t1 t2 t3 der chain c transcript sig p w pid shared w' :
  verify_server_cert v t1 der = Ok () →
  verify_tls13_signature t2 transcript der sig = Ok () →
  parse_x509_certificate der = Some c → validity_is_valid c t3 = true →
  verified_peer_id p = peer_id_from_certs t3 (der :: chain) →
  handshake map_iter p w = (Ready (Ok (pid, shared)), w') →
  (∃ vk, dalek_as_bytes vk = id_bytes pid ∧ signed vk (spki_raw c)) ∧
  cert_signed signed c transcript ∧
  (∀ expected, expected_peer_id v = Some expected → pid = expected).
Proof.
  intros (pid' & Hcert & Hexp)%result_bind_Ok (c2 & [Hp2 _]%parse_cert_Ok & Hsig)%result_bind_Ok
    Hp Hv Hvp (m1 & m2 & rest & _ & _ & Hval & _)%(handshake_Ok map_iter).
  apply (validate_Ok map_iter) in Hval as (vm & n & _ & _ & Hid & _ & _ & _ & ->).
  assert (verified_peer_id p = Some pid') as <-%Hid.
  { rewrite Hvp. apply peer_id_from_certs_Some. exists der, chain. split; [done|].
    by eapply verify_cert_time. }
  assert (c2 = c) as -> by congruence. split_and!.
  - apply verify_cert_Ok in Hcert
      as (c' & ? & ? & ? & ? & vk & Hp' & _ & _ & _ & _ & Hb & Hw & _ & Hs & _).
    assert (c' = c) as -> by congruence. exists vk. split; [done|]. by eapply unforgeable.
  - apply verify_cert_signature_Ok in Hsig as (cvk & Hb & Hw & _ & Hs).
    exists cvk. split; [done|]. by eapply unforgeable.
  - intros expected He. rewrite He in Hexp. case_bool_decide; by simplify_eq.
Qed.

(** A certificate a node makes, checked within its validity. *)
Lemma generate_cert_verifies `{!CertLaws} kp ck der key pid now :
  generate_cert kp (Some ck) = Ok (der, key) →
  PeerID.try_from_public_key (as_bytes (public kp)) = Ok pid → valid_from ≤ now ≤ valid_to →
  verify_cert now der = Ok pid ∧
  ∀ transcript,
    verify_tls13_signature now transcript der (dalek_sign (certified ck) transcript) = Ok ().
Proof.
  intros Hg Hid Hnow. unfold generate_cert in Hg. cbn in Hg.
  destruct (params_new []) as [ps|] eqn:Hps; [|done]. cbn in Hg.
  destruct (self_signed _ _) as [der'|] eqn:Hss; [|done]. injection Hg as <- _.
  eapply self_signed_parses in Hss as (c & Hp & [Hv Hx Hk Hpk Hsig]); [|done..].
  destruct oid_from_small as [oid Ho]. destruct (Hx oid Ho) as [i Hf].
  destruct Hsig as (sig & Hsv & Hl & Hs). destruct kp as [sk].
  unfold PeerID.try_from_public_key, PeerID.to_array in Hid. case_decide; [|done].
  injection Hid as <-. cbn in Hf. split.
  - apply verify_cert_Ok.
    exists c, oid, i, (oid, yasna_encode (dalek_as_bytes (dalek_verifying_key sk), dalek_sign sk (cert_key_spki ck))).
    exists (dalek_sign sk (cert_key_spki ck)), (dalek_verifying_key sk). cbn.
    split_and!; [done|by apply Hv|done|done|apply yasna_roundtrip|done|apply dalek_not_weak|
      apply dalek_sign_length|..].
    + rewrite Hk. apply dalek_sign_verify.
    + apply verify_cert_signature_Ok. exists (dalek_verifying_key (certified ck)).
      rewrite Hsv. auto using dalek_not_weak.
  - intros transcript. apply result_bind_Ok. exists c. split; [apply parse_cert_Ok; auto|].
    apply verify_cert_signature_Ok. exists (dalek_verifying_key (certified ck)).
    auto using dalek_not_weak, dalek_sign_length, dalek_sign_verify.
Qed.

Lemma server_config_Ok kp suites rnd sc :
  server_config kp suites rnd = Ok sc →
  ∃ der, server_chain sc = [der] ∧ generate_cert kp rnd = Ok (der, server_key sc).
Proof.
  intros ([der key] & Hg & Hr)%result_bind_Ok. exists der.
  do 2 (case_match; [done|]). by injection Hr as <-.
Qed.

Lemma client_config_Ok kp expected suites rnd cc :
  client_config kp expected suites rnd = Ok cc →
  client_verifier cc = mkSrvrCertVerifier expected ∧
  ∃ der, client_chain cc = [der] ∧ generate_cert kp rnd = Ok (der, client_key cc).
Proof.
  intros ([der key] & Hg & Hr)%result_bind_Ok.
  do 2 (case_match; [done|]). injection Hr as <-. split; [done|]. by exists der.
Qed.

(** Two nodes that make their certificates as karyon does accept each other.
    Within the validity rcgen gives, each derives from the other's chain the
    identity of the other's key pair, a transcript signed by the key of the
    certificate verifies, the dialing node that expects the listener's identity
    goes on, and one that expects another identity stops there. *)
Theorem tls_honest_nodes `{!CertLaws} kp_s kp_c id_s id_c expected ck_s ck_c sc cc now :
  tls_server_config kp_s (Some ck_s) = Ok sc → tls_client_config kp_c expected (Some ck_c) = Ok cc →
  PeerID.try_from_public_key (as_bytes (public kp_s)) = Ok id_s →
  PeerID.try_from_public_key (as_bytes (public kp_c)) = Ok id_c →
  valid_from ≤ now ≤ valid_to →
  peer_id_from_certs now (server_chain sc) = Some id_s ∧
  peer_id_from_certs now (client_chain cc) = Some id_c ∧
  ∃ der_s der_c, server_chain sc = [der_s] ∧ client_chain cc = [der_c] ∧
    verify_server_cert (client_verifier cc) now der_s =
      (if bool_decide (expected = None ∨ expected = Some id_s) then Ok ()
       else Err ApplicationVerificationFailure) ∧
    verify_client_cert now der_c = Ok () ∧
    ∀ transcript,
      verify_tls13_signature now transcript der_s (dalek_sign (certified ck_s) transcript) = Ok () ∧
      verify_tls13_signature now transcript der_c (dalek_sign (certified ck_c) transcript) = Ok ().
Proof.
  intros (der_s & Hs & Hgs)%server_config_Ok (Hv & der_c & Hc & Hgc)%client_config_Ok Hids Hidc Hnow.
  destruct (generate_cert_verifies _ _ _ _ _ _ Hgs Hids Hnow) as [Hvs Hts].
  destruct (generate_cert_verifies _ _ _ _ _ _ Hgc Hidc Hnow) as [Hvc Htc].
  rewrite Hs, Hc, Hv. cbn. rewrite Hvs, Hvc. split_and!; [done..|].
  exists der_s, der_c. split_and!; [done..| | |auto].
  - unfold verify_server_cert. rewrite Hvs. cbn. destruct expected as [e|].
    + repeat case_bool_decide; naive_solver.
    + rewrite bool_decide_true; auto.
  - unfold verify_client_cert. by rewrite Hvc.
Qed.

(** An expired certificate turns the identity check off.  The verifiers and
    the derivation of the verified identity look at the clock at different times.
    A certificate that is valid when the verifier checks it and no longer valid
    when the identity is derived, whose validity its owner chose, yields no
    verified identity instead of an error: the handshake then takes any identity
    the peer claims, where with the first clock it takes only the proven one. *)
Theorem tls_expiry_fails_open `{Semver} t1 t2 der chain c own version protocols timeout :
  verify_client_cert t1 der = Ok () →
  parse_x509_certificate der = Some c → validity_is_valid c t2 = false →
  let params t := mkParams own version protocols timeout (peer_id_from_certs t (der :: chain)) in
  (∃ pid, ∀ claimed, id_mismatch (params t1) claimed = negb (bool_decide (pid = claimed))) ∧
  (∀ claimed, id_mismatch (params t2) claimed = false).
Proof.
  intros (pid & Hv1 & _)%result_bind_Ok Hp Hv2 params. unfold params, id_mismatch. cbn.
  rewrite Hv1, (verify_cert_expired t2 der c) by done. split; [by exists pid|done].
Qed.

End theorems.

(** ** Witnesses *)

Section witnesses.

(** A toy curve: a key is one byte, repeated; the key made of zeros is weak. *)
#[local] Instance toy_dalek : Dalek := {|
  SigningKey := positive;
  VerifyingKey := Z;
  dalek_sign k _ := replicate 64 (Zpos k);
  dalek_verifying_key := Zpos;
  dalek_secret_bytes k := [Zpos k];
  dalek_as_bytes z := replicate 32 z;
  dalek_from_bytes bs :=
    match bs with
    | z :: _ => if decide (bs = replicate 32 z) then Some z else None
    | [] => None
    end;
  dalek_is_weak z := z =? 0;
  dalek_verify_strict z _ s := bool_decide (s = replicate 64 z);
|}.

#[local] Instance toy_dalek_laws : DalekLaws.
Proof.
  split; cbn [dalek_sign dalek_as_bytes dalek_from_bytes dalek_is_weak dalek_verifying_key
    dalek_verify_strict toy_dalek]; intros.
  - apply length_replicate.
  - apply length_replicate.
  - by apply decide_True.
  - destruct bs; [done|]. by case_decide; simplify_eq.
  - done.
  - by apply bool_decide_true.
Qed.

(** A certificate is its key, followed by the content of the extension; it is
    valid from time 0 to the time 10. *)
#[local] Instance toy_x509 : X509 := {|
  X509Certificate := list Z;
  Oid := list Z;
  oid_from l := Some l;
  parse_x509_certificate der := match der with _ :: _ => Some der | [] => None end;
  validity_is_valid _ now := (0 <=? now) && (now <=? 10);
  cert_extensions c := [([2; 5; 29; 17], []); (PEER_ID_EXT_OID, tail c)];
  spki_raw c := take 1 c;
  subject_public_key c := replicate 32 (hd 0 c);
  tbs_certificate c := c;
  signature_value c := replicate 64 (hd 0 c);
  yasna_encode p := (Z.of_nat (length p.1) :: p.1) ++ p.2;
  yasna_decode l :=
    match l with
    | n :: l => Some (take (Z.to_nat n) l, drop (Z.to_nat n) l)
    | [] => None
    end;
|}.

#[local] Instance toy_certgen : CertGen := {|
  CertKey := positive;
  cert_key_der k := [Zpos k];
  cert_key_spki k := [Zpos k];
  CertificateParams := list CustomExtension;
  params_new names := match names with [] => Some [] | _ => None end;
  params_push ps e := ps ++ [e];
  self_signed ps k :=
    match ps with [e] => Some (Zpos k :: ext_content e) | _ => None end;
  CipherSuite := bool;
  TLS13_CHACHA20_POLY1305_SHA256 := true;
  TLS13_AES_128_GCM_SHA256 := false;
  with_protocol_versions suites := negb (bool_decide (suites = []));
  with_cert chain key := negb (bool_decide (chain = []));
|}.

#[local] Instance toy_cert_laws : CertLaws.
Proof.
  refine {| certified k := k; valid_from := 0; valid_to := 10 |}.
  - intros [a b]. cbn. rewrite Nat2Z.id, take_app_length, drop_app_length. done.
  - by eexists.
  - intros params ps ext ck der Hps Hoid Hss.
    destruct params; [|done]. injection Hps as <-. injection Hss as <-.
    eexists. split; [done|]. split; cbn.
    + intros now Hnow. apply andb_true_iff. cbn in Hnow. lia.
    + intros oid [= <-]. rewrite Hoid. by exists 1%nat.
    + done.
    + done.
    + eexists. split_and!; [done|done|]. by apply bool_decide_true.
Defined.

Definition toy_pair (k : positive) : KeyPair := KPEd25519 (k : SigningKey).
Definition toy_key (k : positive) : option CertKey := Some (k : CertKey).
Definition toy_id (k : Z) : PeerID := mkPeerID (replicate 32 k).

Definition toy_cert (id_key cert_key : positive) : list Z :=
  match generate_cert (toy_pair id_key) (toy_key cert_key) with Ok (der, _) => der | Err _ => [] end.

Lemma tls_honest_nodes_witness :
  ∃ sc cc, tls_server_config (toy_pair 7) (toy_key 5) = Ok sc ∧
    tls_client_config (toy_pair 8) (Some (toy_id 7)) (toy_key 6) = Ok cc ∧
    peer_id_from_certs 3 (client_chain cc) = Some (toy_id 8).
Proof.
  destruct (tls_server_config (toy_pair 7) (toy_key 5)) as [sc|] eqn:Hs;
    [|vm_compute in Hs; discriminate].
  destruct (tls_client_config (toy_pair 8) (Some (toy_id 7)) (toy_key 6)) as [cc|] eqn:Hc;
    [|vm_compute in Hc; discriminate].
  exists sc, cc. split_and!; [done..|].
  refine (proj1 (proj2 (tls_honest_nodes (toy_pair 7) (toy_pair 8)
    (toy_id 7) (toy_id 8) _ _ _ sc cc 3 Hs Hc _ _ _)));
    [by vm_compute|by vm_compute|by cbn].
Defined.

#[local] Existing Instance any_semver.
#[local] Existing Instance vermsg_bincode.
#[local] Existing Instance verack_bincode.

Lemma tls_expiry_fails_open_witness :
  verify_client_cert 10 (toy_cert 7 5) = Ok () ∧
  ∀ claimed, id_mismatch (mkParams (mkPeerID [1]) any_version ∅ 2
    (peer_id_from_certs 11 [toy_cert 7 5])) claimed = false.
Proof.
  split; [by vm_compute|].
  refine (proj2 (tls_expiry_fails_open 10 11 (toy_cert 7 5) [] (toy_cert 7 5)
    (mkPeerID [1]) any_version ∅ 2 _ _ _)); by vm_compute.
Defined.

(** Node 1 meets the node with the key 7, which has the certificate. *)
Definition tls_node : HandshakeParams :=
  mkParams (mkPeerID [1]) any_version (hp_protocols (node 1 None)) 2
    (peer_id_from_certs 3 [toy_cert 7 5]).

Definition tls_wire : wire PeerNetMsg p2p_error :=
  good_wire 2
    match PeerNetMsg_new CmdVersion (mkVerMsg (toy_id 7) (WireVersion_from any_version)
            ((λ m, WireVersion_from (meta_version m)) <$> hp_protocols (node 1 None))),
      PeerNetMsg_new CmdVerack (mkVerAckMsg (toy_id 7) true) with
    | Ok m1, Ok m2 => [m1; m2]
    | _, _ => []
    end.

Lemma tls_peer_authenticated_witness :
  ∃ shared w', handshake map_to_list tls_node tls_wire = (Ready (Ok (toy_id 7, shared)), w') ∧
    cert_signed (λ z _, z ≠ 0) (toy_cert 7 5) [1; 2; 3].
Proof.
  pose (w' := (handshake map_to_list tls_node tls_wire).2).
  assert (handshake map_to_list tls_node tls_wire = (Ready (Ok (toy_id 7, ["PING"%string])), w'))
    as Hh by (vm_compute; reflexivity).
    clearbody w'. exists ["PING"%string], w'. split; [exact Hh|].
  refine (proj1 (proj2 (tls_peer_authenticated map_to_list (λ z _, z ≠ 0) _
    (mkSrvrCertVerifier (Some (toy_id 7))) 1 2 3 (toy_cert 7 5) [] (toy_cert 7 5)
    [1; 2; 3] (replicate 64 5) tls_node tls_wire (toy_id 7) ["PING"%string] w' _ _ _ _ _ Hh))).
  - intros z m s Hw _. apply Z.eqb_neq. exact Hw.
  - vm_compute. reflexivity.
  - vm_compute. reflexivity.
  - vm_compute. reflexivity.
  - vm_compute. reflexivity.
  - reflexivity.
Defined.

End witnesses.
