(* ===== verification/Backoff.v ===== *)
(** * Exponential backoff

    Models [core/src/async_util/backoff.rs].  Rust checks integer overflow in
    one build profile and wraps in the other; [checks] says which, and [None] is
    the panic of a checked build.  The atomics are used by one task at a time
    everywhere in the source.

    For a positive base and a maximum of at most [2 ^ 63] the arithmetic never
    overflows in either profile, and the delays are exactly those of an
    exponential backoff with a ceiling. *)

From S2P Require Import Prelude.

Local Open Scope Z_scope.

Record Backoff := mkBackoff {
  base_delay : Z;
  max_delay : Z;
  retries : Z;
  stop : bool;
}.

Module Backoff.
Section defs.
Context (checks : bool).

(** The result of an operation of the given width. *)
Definition arith (w : Z) (z : Z) : option Z :=
  if z <? 2 ^ w then Some z else if checks then None else Some (z mod 2 ^ w).

Definition new (base_delay max_delay : Z) : Backoff := mkBackoff base_delay max_delay 0 false.

(** The delay slept, and returned. *)
Definition sleep (b : Backoff) : option (Z * Backoff) :=
  if stop b then Some (max_delay b, b)
  else
    pow ← arith 64 (2 ^ retries b);
    delay ← arith 64 (base_delay b * pow);
    let delay := Z.min delay (max_delay b) in
    let stop := bool_decide (delay = max_delay b) in
    retries' ← arith 32 (retries b + 1);
    Some (delay, mkBackoff (base_delay b) (max_delay b) retries' stop).

Definition reset (b : Backoff) : Backoff := mkBackoff (base_delay b) (max_delay b) 0 false.

(** [n] sleeps one after the other: their delays. *)
Fixpoint sleeps (n : nat) (b : Backoff) : option (list Z * Backoff) :=
  match n with
  | O => Some ([], b)
  | S n =>
      '(d, b) ← sleep b;
      '(ds, b) ← sleeps n b;
      Some (d :: ds, b)
  end.

End defs.
End Backoff.

(** ** Delays *)

(** The delay of the [i]-th attempt. *)
Definition delay_of (base max : Z) (i : nat) : Z := Z.min (base * 2 ^ Z.of_nat i) max.

Section delays.
Context (checks : bool) (base max : Z).
Hypothesis base_range : 0 < base < 2 ^ 64.
Hypothesis max_range : 0 ≤ max ≤ 2 ^ 63.

(** After [i] sleeps: still counting, with every delay so far below the
    maximum, or stopped at the maximum. *)
Definition after (i : nat) (b : Backoff) : Prop :=
  base_delay b = base ∧ max_delay b = max ∧
  if stop b then (0 < i)%nat ∧ max ≤ base * 2 ^ Z.of_nat (i - 1)
  else retries b = Z.of_nat i ∧ ((0 < i)%nat → base * 2 ^ Z.of_nat (i - 1) < max).

Lemma after_new : after 0 (Backoff.new base max).
Proof. unfold after; cbn. split_and!; [done..|lia]. Qed.

Lemma pow2_mono a b : 0 ≤ a ≤ b → 2 ^ a ≤ 2 ^ b.
Proof. intros ?. apply Z.pow_le_mono_r; lia. Qed.

Lemma pow2_pos (i : nat) : 1 ≤ 2 ^ Z.of_nat i.
Proof. apply (pow2_mono 0 (Z.of_nat i)). lia. Qed.

Lemma pow2_pred (i : nat) : (0 < i)%nat → 2 ^ Z.of_nat i = 2 * 2 ^ Z.of_nat (i - 1).
Proof.
  destruct i as [|i]; [lia|]. intros _.
  rewrite Nat2Z.inj_succ, Z.pow_succ_r by lia. by replace (S i - 1)%nat with i by lia.
Qed.

(** While it counts, neither the power nor the product overflows, and the
    counter is far from its width. *)
Lemma counting_bound i :
  ((0 < i)%nat → base * 2 ^ Z.of_nat (i - 1) < max) →
  2 ^ Z.of_nat i < 2 ^ 64 ∧ base * 2 ^ Z.of_nat i < 2 ^ 64 ∧ Z.of_nat i < 64.
Proof.
  intros Hi. assert (base * 2 ^ Z.of_nat i < 2 ^ 64) as Hprod.
  { destruct (decide (i = 0%nat)) as [->|]; [lia|].
    rewrite pow2_pred by lia. specialize (Hi ltac:(lia)). lia. }
  pose proof (pow2_pos i). assert (2 ^ Z.of_nat i < 2 ^ 64) by nia.
  split_and!; [done..|]. by apply Z.pow_lt_mono_r_iff in H0; [|lia..].
Qed.

Lemma arith_fits w z : z < 2 ^ w → Backoff.arith checks w z = Some z.
Proof. intros Hz. unfold Backoff.arith. by rewrite (proj2 (Z.ltb_lt _ _) Hz). Qed.

Lemma sleep_after i b :
  after i b →
  ∃ b', Backoff.sleep checks b = Some (delay_of base max i, b') ∧ after (S i) b'.
Proof.
  intros (Hb & Hm & Hs). unfold Backoff.sleep, delay_of. destruct (stop b) eqn:Hstop.
  - destruct Hs as [Hi Hs]. pose proof (pow2_pos (i - 1)). exists b. split.
    + rewrite pow2_pred, Hm by done. do 2 f_equal. nia.
    + split_and!; [done..|]. rewrite Hstop, Nat.sub_succ, Nat.sub_0_r. split; [lia|].
      rewrite pow2_pred by done. nia.
  - destruct Hs as [-> Hs]. destruct (counting_bound i Hs) as (? & ? & ?). rewrite Hb, Hm.
    rewrite (arith_fits 64 (2 ^ Z.of_nat i)) by done; cbn [mbind option_bind].
    rewrite (arith_fits 64 (base * _)) by done; cbn [mbind option_bind].
    rewrite arith_fits by lia; cbn [mbind option_bind]. eexists. split; [done|].
    split_and!; [done..|]. cbn [stop retries]. rewrite Nat.sub_succ, Nat.sub_0_r.
    case_bool_decide; split; lia.
Qed.

Lemma sleeps_after n : ∀ i b,
  after i b →
  ∃ b', Backoff.sleeps checks n b = Some (map (delay_of base max) (seq i n), b').
Proof.
  induction n as [|n IH]; intros i b Hb; [by eexists|].
  destruct (sleep_after i b Hb) as (b1 & Hs & Hb1).
  destruct (IH (S i) b1 Hb1) as (b2 & Hss). exists b2. cbn. by rewrite Hs; cbn; rewrite Hss.
Qed.

(** A backoff with a positive base and a maximum of at most [2 ^ 63]
    milliseconds never overflows, in a checked or an unchecked build: however
    long it is used after it is created or reset, its [i]-th sleep lasts
    [min (base * 2 ^ i) max] milliseconds. *)
Theorem backoff_delays (b : Backoff) (n : nat) :
  b = Backoff.new base max ∨ (∃ b0, base_delay b0 = base ∧ max_delay b0 = max ∧ b = Backoff.reset b0) →
  fst <$> Backoff.sleeps checks n b = Some (map (delay_of base max) (seq 0 n)).
Proof.
  intros Hb. destruct (sleeps_after n 0 b) as (b' & ->); [|done].
  destruct Hb as [->|(b0 & Hbase & Hmax & ->)]; [apply after_new|].
  unfold Backoff.reset. rewrite Hbase, Hmax. apply after_new.
Qed.

End delays.

(** With a base of zero no delay reaches the maximum, so the counter never
    stops and the 65th sleep of a checked build panics. *)
Theorem backoff_zero_base_overflows max n :
  0 < max → (64 < n)%nat → Backoff.sleeps true n (Backoff.new 0 max) = None.
Proof.
  intros Hmax Hn. unfold Backoff.new.
  assert (∀ k m, (m < k)%nat → (m ≤ 64)%nat →
    Backoff.sleeps true k (mkBackoff 0 max (64 - Z.of_nat m) false) = None) as Hk.
  2: { exact (Hk n 64%nat Hn ltac:(lia)). }
  induction k as [|k IH]; intros m Hm Hle; [lia|]. cbn [Backoff.sleeps].
  unfold Backoff.sleep; cbn [stop retries base_delay max_delay].
  destruct m as [|m]; [done|].
  assert (0 ≤ 64 - Z.of_nat (S m) < 64) as Hr by lia.
  assert (2 ^ (64 - Z.of_nat (S m)) < 2 ^ 64) by (apply Z.pow_lt_mono_r; lia).
  rewrite (arith_fits true 64 (2 ^ _)) by done; cbn [mbind option_bind].
  rewrite (arith_fits true 64 (0 * _)) by lia; cbn [mbind option_bind].
  rewrite (arith_fits true 32) by lia; cbn [mbind option_bind].
  rewrite Z.mul_0_l, Z.min_l, bool_decide_false by lia.
  replace (64 - Z.of_nat (S m) + 1) with (64 - Z.of_nat m) by lia.
  by rewrite IH by lia.
Qed.

(** The backoff of the connector, over five attempts. *)
Lemma backoff_delays_witness :
  fst <$> Backoff.sleeps true 5 (Backoff.new 500 2000) = Some [500; 1000; 2000; 2000; 2000].
Proof.
  refine (backoff_delays true 500 2000 _ _ (Backoff.new 500 2000) 5 (or_introl eq_refl)); lia.
Defined.
