(* ===== verification/Connector.v ===== *)
(** * Dialing: p2p/src/connector.rs

    The three transports of [Connector::dial], the retries of
    [connect_internal] with their monitor events and delays, and the two ways a
    connection is handed on.  What the network, the clock and the random source
    answer to an attempt is its [attempt]; the semaphore's answer is an argument
    too, the slots themselves are in [Listener] and [Pool]. *)

From S2P Require Import Prelude Codec Endpoint Message Version Config KeyPair TlsConfig Backoff.
#[local] Open Scope Z_scope.

(** A framed connection over a stream of type [St], a QUIC connection [Qc]. *)
Inductive DialResult (St Qc : Type) :=
| Channel (conn : St) (vpid : option PeerID)
| QuicChannel (conn : St) (quic_conn : Qc) (vpid : option PeerID).
Arguments Channel {St Qc} _ _.
Arguments QuicChannel {St Qc} _ _ _.

(** What one attempt to dial meets. *)
Record attempt `{CertGen} (St Qc : Type) := mkAttempt {
  tcp_connect : result net_error St;
  tls_handshake : ClientConfig → St → result net_error St;
  stream_certificates : St → option (list (list Z));
  quic_dial : ClientConfig → result net_error Qc;
  quic_certificates : Qc → option (list (list Z));
  open_stream : Qc → result net_error St;
  cert_key : option CertKey;
  dialed_at : Z;
}.
Arguments tcp_connect {_ St Qc} _.
Arguments tls_handshake {_ St Qc} _ _ _.
Arguments stream_certificates {_ St Qc} _ _.
Arguments quic_dial {_ St Qc} _ _.
Arguments quic_certificates {_ St Qc} _ _.
Arguments open_stream {_ St Qc} _ _.
Arguments cert_key {_ St Qc} _.
Arguments dialed_at {_ St Qc} _.

Inductive act := Notify (e : ConnectionKind) | Sleep (ms : Z).

(** Where a dialed connection goes: the slot comes with it. *)
Inductive queued (St Qc : Type) :=
| HandleChannel (conn : St) (d : ConnDirection) (vpid : option PeerID)
| HandleQuic (conn : St) (quic_conn : Qc) (d : ConnDirection) (vpid : option PeerID).
Arguments HandleChannel {St Qc} _ _ _.
Arguments HandleQuic {St Qc} _ _ _ _.

Section defs.
Context `{Dalek} `{X509} `{CertGen} {St Qc : Type}.
Context (endpoint_to_string : Endpoint → string).

Definition dial (key_pair : KeyPair) (endpoint : Endpoint) (peer_id : option PeerID)
    (a : attempt St Qc) : result p2p_error (DialResult St Qc) :=
  match endpoint with
  | Tcp _ _ =>
      stream ← map_err KaryonNet (tcp_connect a);
      Ok (Channel stream None)
  | Tls _ _ =>
      tls_config ← tls_client_config key_pair peer_id (cert_key a);
      stream ← map_err KaryonNet (tcp_connect a);
      tls_stream ← map_err KaryonNet (tls_handshake a tls_config stream);
      let vpid := stream_certificates a tls_stream ≫= peer_id_from_certs (dialed_at a) in
      Ok (Channel tls_stream vpid)
  | Quic _ _ =>
      rustls_config ← quic_client_config key_pair peer_id (cert_key a);
      quic_conn ← map_err KaryonNet (quic_dial a rustls_config);
      let vpid := quic_certificates a quic_conn ≫= peer_id_from_certs (dialed_at a) in
      stream ← map_err KaryonNet (open_stream a quic_conn);
      Ok (QuicChannel stream quic_conn vpid)
  | _ => Err (P2pUnsupportedEndpoint (endpoint_to_string endpoint))
  end.

(** The loop of [connect_internal], [rounds] rounds before [max_retries]; [dials]
    gives the outcome of each round. *)
Fixpoint dial_rounds (checks : bool) {R} (endpoint : Endpoint) (dials : nat → result p2p_error R)
    (retry rounds : nat) (backoff : Backoff) : option (result p2p_error R * list act) :=
  match rounds with
  | O => Some (Err Timeout, [Notify (ConnConnectFailed endpoint)])
  | S rounds =>
      match dials retry with
      | Ok r => Some (Ok r, [Notify (ConnConnected endpoint)])
      | Err _ =>
          '(d, backoff) ← Backoff.sleep checks backoff;
          '(r, acts) ← dial_rounds checks endpoint dials (S retry) rounds backoff;
          Some (r, Notify (ConnConnectRetried endpoint) :: Sleep d :: acts)
      end
  end.

(** [None] is a panic, with overflow checks on. *)
Definition connect_internal (checks : bool) (key_pair : KeyPair) (max_retries : nat)
    (endpoint : Endpoint) (peer_id : option PeerID) (slot : result core_error ())
    (attempts : nat → attempt St Qc) : option (result p2p_error (DialResult St Qc) * list act) :=
  match slot with
  | Err e => Some (Err (P2pKaryonCore e), [])
  | Ok _ =>
      dial_rounds checks endpoint (λ i, dial key_pair endpoint peer_id (attempts i)) 0 max_retries
        (Backoff.new 500 2000)
  end.

Definition dialed_conn (d : DialResult St Qc) : St :=
  match d with Channel conn _ => conn | QuicChannel conn _ _ => conn end.

Definition connect (checks : bool) (key_pair : KeyPair) (max_retries : nat)
    (endpoint : Endpoint) (peer_id : option PeerID) (slot : result core_error ())
    (attempts : nat → attempt St Qc) : option (result p2p_error St * list act) :=
  match connect_internal checks key_pair max_retries endpoint peer_id slot attempts with
  | Some (r, acts) => Some (dialed_conn <$> r, acts)
  | None => None
  end.

(** What [connect_and_queue] spawns; [has_queue] says that the connector was made
    with a queue. *)
Definition connect_and_queue (checks : bool) (key_pair : KeyPair) (max_retries : nat)
    (has_queue : bool) (endpoint : Endpoint) (peer_id : option PeerID)
    (slot : result core_error ()) (attempts : nat → attempt St Qc) :
    option (result p2p_error (queued St Qc) * list act) :=
  match connect_internal checks key_pair max_retries endpoint peer_id slot attempts with
  | Some (r, acts) =>
      Some (d ← r;
        if has_queue then
          Ok match d with
             | Channel conn vpid => HandleChannel conn Outbound vpid
             | QuicChannel conn quic_conn vpid => HandleQuic conn quic_conn Outbound vpid
             end
        else Err (Config "connect_and_queue called on Connector built without ConnQueue"), acts)
  | None => None
  end.

End defs.

(** ** Theorems *)

(** The rounds that failed: each reports and sleeps. *)
Definition retried (endpoint : Endpoint) (i : nat) : list act :=
  [Notify (ConnConnectRetried endpoint); Sleep (delay_of 500 2000 i)].

Section rounds.
Context {R : Type} (checks : bool) (endpoint : Endpoint) (dials : nat → result p2p_error R).

Lemma dial_round_fails rounds retry b r acts :
  after 500 2000 retry b → is_ok (dials retry) = false →
  (∀ b', after 500 2000 (S retry) b' →
    dial_rounds checks endpoint dials (S retry) rounds b' = Some (r, acts)) →
  dial_rounds checks endpoint dials retry (S rounds) b = Some (r, retried endpoint retry ++ acts).
Proof.
  intros Hb Hd Hrest. cbn. destruct (dials retry); [done|].
  destruct (sleep_after checks 500 2000 ltac:(lia) ltac:(lia) retry b Hb) as (b' & Hs & Hb').
  rewrite Hs. cbn. by rewrite (Hrest b' Hb').
Qed.

Lemma dial_rounds_hit k r : ∀ rounds retry b,
  after 500 2000 retry b → (k < rounds)%nat →
  (∀ j, (j < k)%nat → is_ok (dials (retry + j)) = false) → dials (retry + k) = Ok r →
  dial_rounds checks endpoint dials retry rounds b =
    Some (Ok r, (seq retry k ≫= retried endpoint) ++ [Notify (ConnConnected endpoint)]).
Proof.
  induction k as [|k IH]; intros [|rounds] retry b Hb Hk Hj Hr; try lia.
  - rewrite Nat.add_0_r in Hr. cbn. by rewrite Hr.
  - cbn [seq mbind list_bind]. rewrite <-app_assoc. apply dial_round_fails; [done| |].
    { specialize (Hj 0%nat ltac:(lia)). by rewrite Nat.add_0_r in Hj. }
    intros b' Hb'. apply IH; [done|lia| |by rewrite <-Hr; f_equal; lia].
    intros j Hlt. rewrite <-(Hj (S j)) by lia. do 2 f_equal. lia.
Qed.

Lemma dial_rounds_miss rounds : ∀ retry b,
  after 500 2000 retry b → (∀ j, (j < rounds)%nat → is_ok (dials (retry + j)) = false) →
  dial_rounds checks endpoint dials retry rounds b =
    Some (Err Timeout, (seq retry rounds ≫= retried endpoint) ++ [Notify (ConnConnectFailed endpoint)]).
Proof.
  induction rounds as [|rounds IH]; intros retry b Hb Hj; [done|].
  cbn [seq mbind list_bind]. rewrite <-app_assoc. apply dial_round_fails; [done| |].
  { specialize (Hj 0%nat ltac:(lia)). by rewrite Nat.add_0_r in Hj. }
  intros b' Hb'. apply IH; [done|].
  intros j Hlt. rewrite <-(Hj (S j)) by lia. do 2 f_equal. lia.
Qed.

End rounds.

(** A result comes from one of the attempts. *)
Lemma dial_rounds_Ok {R} checks endpoint (dials : nat → result p2p_error R) r acts :
  ∀ rounds retry b, dial_rounds checks endpoint dials retry rounds b = Some (Ok r, acts) →
  ∃ i, dials i = Ok r.
Proof.
  revert acts. intros acts rounds. revert acts.
  induction rounds as [|rounds IH]; intros acts retry b; [done|].
  cbn. destruct (dials retry) eqn:Hd; [intros [= <- _]; by exists retry|].
  destruct (Backoff.sleep checks b) as [[d b']|]; [|done]. cbn.
  destruct (dial_rounds _ _ _ _ _ _) as [[r' acts']|] eqn:Hr; [|done].
  cbn. intros [= -> _]. by eapply IH.
Qed.

Section theorems.
Context `{Dalek} `{X509} `{CertGen} {St Qc : Type} (endpoint_to_string : Endpoint → string).
Abbreviation dial := (dial (St := St) (Qc := Qc) endpoint_to_string).
Abbreviation connect_internal := (connect_internal (St := St) (Qc := Qc) endpoint_to_string).
Abbreviation connect_and_queue := (connect_and_queue (St := St) (Qc := Qc) endpoint_to_string).

(** Dialing with retries always comes to an end and says what happened.  The
    connector takes the first attempt that succeeds among the first
    [max_retries], and otherwise gives up with a timeout; it reports every
    attempt that failed as retried, sleeps 500, 1000 and then 2000 milliseconds
    after them, reports the outcome last, and no arithmetic of it overflows. *)
Theorem connect_retries checks kp max_retries endpoint pid attempts k :
  (∀ j, (j < k)%nat → is_ok (dial kp endpoint pid (attempts j)) = false) →
  (k ≤ max_retries)%nat →
  (k = max_retries →
   connect_internal checks kp max_retries endpoint pid (Ok ()) attempts =
     Some (Err Timeout, (seq 0 k ≫= retried endpoint) ++ [Notify (ConnConnectFailed endpoint)])) ∧
  (∀ r, (k < max_retries)%nat → dial kp endpoint pid (attempts k) = Ok r →
   connect_internal checks kp max_retries endpoint pid (Ok ()) attempts =
     Some (Ok r, (seq 0 k ≫= retried endpoint) ++ [Notify (ConnConnected endpoint)])).
Proof.
  intros Hj Hk. unfold Connector.connect_internal. split.
  - intros ->. apply dial_rounds_miss; [apply after_new|done].
  - intros r Hlt Hr. by apply dial_rounds_hit; [apply after_new|..].
Qed.

(** What rustls promises of a client's handshake: the certificates it shows
    afterwards are those its verifier accepted. *)
Record rustls_verifies (a : attempt St Qc) : Prop := {
  tls_verified cfg s s' : tls_handshake a cfg s = Ok s' →
    ∃ t der chain, stream_certificates a s' = Some (der :: chain) ∧
      verify_server_cert (client_verifier cfg) t der = Ok ();
  quic_verified cfg q : quic_dial a cfg = Ok q →
    ∃ t der chain, quic_certificates a q = Some (der :: chain) ∧
      verify_server_cert (client_verifier cfg) t der = Ok ();
}.

Context `{!DalekLaws}.

(** A certificate that was valid when it was verified and no longer is. *)
Definition lapsed (t now : Z) (der : list Z) : Prop :=
  ∃ c, parse_x509_certificate der = Some c ∧ validity_is_valid c t = true ∧ validity_is_valid c now = false.

Lemma verified_chain v t now der chain expected :
  expected_peer_id v = Some expected → verify_server_cert v t der = Ok () →
  peer_id_from_certs now (der :: chain) = Some expected ∨
  peer_id_from_certs now (der :: chain) = None ∧ lapsed t now der.
Proof.
  intros He (pid & Hv & Hp)%result_bind_Ok. rewrite He in Hp.
  case_bool_decide; [|done]. subst pid.
  pose proof Hv as (c & ? & ? & ? & ? & ? & Hc & Ht & _)%verify_cert_Ok.
  destruct (validity_is_valid c now) eqn:Hn.
  - left. apply peer_id_from_certs_Some. exists der, chain. split; [done|]. by eapply verify_cert_time.
  - right. split; [cbn; by rewrite (verify_cert_expired now der c)|by exists c].
Qed.

(** The identity a dialed connection carries into the handshake. *)
Definition dialed_vpid (d : DialResult St Qc) : option PeerID :=
  match d with Channel _ vpid => vpid | QuicChannel _ _ vpid => vpid end.

Lemma dial_expected kp endpoint expected a d :
  rustls_verifies a → dial kp endpoint (Some expected) a = Ok d →
  if Endpoint.is_tcp endpoint then dialed_vpid d = None
  else dialed_vpid d = Some expected ∨ dialed_vpid d = None ∧ ∃ t der, lapsed t (dialed_at a) der.
Proof.
  intros Ha. destruct endpoint; try done; cbn [Connector.dial Endpoint.is_tcp]; intros Hd.
  - apply result_bind_Ok in Hd as (? & _ & [= <-]). done.
  - apply result_bind_Ok in Hd as (cfg & (Hv & _)%client_config_Ok & Hd).
    apply result_bind_Ok in Hd as (s & _ & Hd).
    apply result_bind_Ok in Hd as (s' & Hs%map_err_Ok & [= <-]). cbn.
    apply (tls_verified a Ha) in Hs as (t & der & chain & Hc & Ht). rewrite Hc. cbn [mbind option_bind].
    rewrite Hv in Ht.
    destruct (verified_chain (mkSrvrCertVerifier (Some expected)) t (dialed_at a) der chain expected eq_refl Ht); naive_solver.
  - apply result_bind_Ok in Hd as (cfg & (Hv & _)%client_config_Ok & Hd).
    apply result_bind_Ok in Hd as (q & Hq%map_err_Ok & Hd).
    apply result_bind_Ok in Hd as (s' & _ & [= <-]). cbn.
    apply (quic_verified a Ha) in Hq as (t & der & chain & Hc & Ht). rewrite Hc. cbn [mbind option_bind].
    rewrite Hv in Ht.
    destruct (verified_chain (mkSrvrCertVerifier (Some expected)) t (dialed_at a) der chain expected eq_refl Ht); naive_solver.
Qed.

Definition queued_vpid (q : queued St Qc) : option PeerID :=
  match q with HandleChannel _ _ vpid => vpid | HandleQuic _ _ _ vpid => vpid end.

(** A connection dialed for a particular peer goes to the pool as a
    connection of that peer.  Over TLS and QUIC, when rustls keeps its word about
    certificates, whatever [connect_and_queue] hands on carries the expected
    identity as the verified one, which the handshake then insists on, or none, if
    the certificate was verified and is no longer valid when the identity is taken
    from it; over TCP it carries none. *)
Lemma dialed_peer_expected checks kp max_retries has_queue endpoint expected slot attempts q acts :
  (∀ i, rustls_verifies (attempts i)) →
  connect_and_queue checks kp max_retries has_queue endpoint (Some expected) slot attempts =
    Some (Ok q, acts) →
  if Endpoint.is_tcp endpoint then queued_vpid q = None
  else queued_vpid q = Some expected ∨
    queued_vpid q = None ∧ ∃ i t der, lapsed t (dialed_at (attempts i)) der.
Proof.
  intros Ha. unfold Connector.connect_and_queue, Connector.connect_internal.
  destruct slot; [|done].
  destruct (dial_rounds _ _ _ _ _ _) as [[r acts']|] eqn:Hr; [|done]. cbn.
  intros [= Hq _]. apply result_bind_Ok in Hq as (d & -> & Hq).
  apply dial_rounds_Ok in Hr as [i Hd%dial_expected]; [|done].
  assert (queued_vpid q = dialed_vpid d) as -> by (destruct has_queue; [|done]; injection Hq as <-; by destruct d).
  destruct (Endpoint.is_tcp endpoint); [done|]. destruct Hd as [?|(? & ? & ?)]; eauto.
Qed.

End theorems.

(** ** Witnesses *)

Section witnesses.
#[local] Existing Instance toy_dalek.
#[local] Existing Instance toy_dalek_laws.
#[local] Existing Instance toy_x509.
#[local] Existing Instance toy_certgen.

(** A listener with the key 7, reached at once or not at all.  A stream and a
    QUIC connection are the chain the listener shows. *)
Definition toy_attempt (up : bool) : attempt (list (list Z)) (list (list Z)) :=
  let shake (cfg : ClientConfig) :=
    match verify_server_cert (client_verifier cfg) 2 (toy_cert 7 5) with
    | Ok _ => Ok [toy_cert 7 5]
    | Err _ => Err (IO OtherIo)
    end in
  {| tcp_connect := if up then Ok [] else Err (IO OtherIo);
     tls_handshake cfg _ := shake cfg;
     stream_certificates s := Some s;
     quic_dial := shake;
     quic_certificates q := Some q;
     open_stream _ := Ok [];
     cert_key := toy_key 6;
     dialed_at := 3 |}.

Definition toy_endpoint : Endpoint := Tls (Domain "karyon") 30.

Definition second_up (i : nat) := toy_attempt (bool_decide (i = 1%nat)).

Lemma toy_verifies i : rustls_verifies (second_up i).
Proof.
  split; cbn -[toy_cert].
  - intros cfg _ s'. destruct (verify_server_cert _ _ _) as [[]|] eqn:Hv; [|done].
    intros [= <-]. by eexists 2, _, [].
  - intros cfg s'. destruct (verify_server_cert _ _ _) as [[]|] eqn:Hv; [|done].
    intros [= <-]. by eexists 2, _, [].
Qed.

Lemma connect_retries_witness :
  ∃ r, connect_internal (λ _, EmptyString) true (toy_pair 8) 3 toy_endpoint (Some (toy_id 7)) (Ok ())
    second_up =
  Some (Ok r, retried toy_endpoint 0 ++ [Notify (ConnConnected toy_endpoint)]).
Proof.
  eexists. refine (proj2 (connect_retries (λ _, EmptyString) true (toy_pair 8) 3 toy_endpoint
    (Some (toy_id 7)) second_up 1 _ _) _ _ _); [|lia|lia|by vm_compute].
  intros j Hj. replace j with 0%nat by lia. by vm_compute.
Defined.

Lemma dialed_peer_expected_witness :
  ∃ q acts, connect_and_queue (λ _, EmptyString) true (toy_pair 8) 3 true toy_endpoint
    (Some (toy_id 7)) (Ok ()) second_up = Some (Ok q, acts) ∧ queued_vpid q = Some (toy_id 7).
Proof.
  destruct (connect_and_queue (λ _, EmptyString) true (toy_pair 8) 3 true toy_endpoint
    (Some (toy_id 7)) (Ok ()) second_up) as [[[q|] acts]|] eqn:Hq;
    [|vm_compute in Hq; discriminate..].
  exists q, acts. split; [done|].
  destruct (dialed_peer_expected (λ _, EmptyString) _ _ _ _ _ _ _ _ _ _ toy_verifies Hq) as [Hv|[Hv _]]; [exact Hv|].
  apply (f_equal (λ x, match x with Some (Ok q, _) => queued_vpid q | _ => None end)) in Hq.
  cbn beta iota in Hq. rewrite Hv in Hq. vm_compute in Hq. discriminate.
Defined.

End witnesses.
