(* ===== verification/Listener.v ===== *)
(** * Listening: p2p/src/listener.rs

    First the operations: binding, the upgrade of an accepted stream, the three
    bodies that serve a connection, and one turn of the accept loops, whose code
    is the same in the three modes but for the action asked of the access policy.

    Then the loops with the connections they serve, as a system of interleaved
    tasks: the semaphore of connection slots, one loop per endpoint that was
    started, one task per connection with its callback, and [shutdown], which
    cancels the tasks of the group one after the other.  A loop is cancelled at any
    of its awaits, its reports to the monitor included.  [TaskGroup] says that a
    cancelled task still runs its callback. *)

From S2P Require Import Prelude Codec Endpoint Message Version Config KeyPair TlsConfig.
#[local] Open Scope nat_scope.

Inductive StreamListener `{CertGen} :=
| ListenTcp
| ListenTls (cfg : ServerConfig).

(** Waiting at most [handshake_timeout]: [None] is the timeout. *)
Definition timeout {A} (o : option (result net_error A)) : result p2p_error A :=
  match o with
  | None => Err (P2pKaryonCore CoreTimeout)
  | Some r => map_err KaryonNet r
  end.

Section operations.
Context `{Dalek} `{X509} `{CertGen}.
Context (parse_ip : string → option IpAddr) (endpoint_to_string : Endpoint → string).

(** ** Binding *)

(** [bind] is the answer of the operating system, [rnd] the key of the
    certificate. *)
Definition listen (key_pair : KeyPair) (endpoint : Endpoint) (rnd : option CertKey)
    (bind : result net_error ()) : result p2p_error StreamListener :=
  match endpoint with
  | Tcp _ _ => map_err KaryonNet bind;; Ok ListenTcp
  | Tls _ _ =>
      server_config ← tls_server_config key_pair rnd;
      map_err KaryonNet bind;; Ok (ListenTls server_config)
  | _ => Err (P2pUnsupportedEndpoint (endpoint_to_string endpoint))
  end.

(** [tcp] is what the bound listener says of itself. *)
Definition local_endpoint (l : StreamListener) (tcp : result net_error Endpoint) :
    result p2p_error Endpoint :=
  match l with
  | ListenTcp => map_err KaryonNet tcp
  | ListenTls _ =>
      ep ← map_err KaryonNet tcp;
      a ← map_err KaryonNet (Endpoint.addr parse_ip ep);
      p ← map_err KaryonNet (Endpoint.port ep);
      Ok (Tls a p)
  end.

(** The result of [start_with_callback], the loop it spawns and its events. *)
Definition start_with_callback (key_pair : KeyPair) (endpoint : Endpoint) (rnd : option CertKey)
    (bind : result net_error ()) (tcp : result net_error Endpoint) :
    result p2p_error (Endpoint * StreamListener) * list ConnectionKind :=
  match listen key_pair endpoint rnd bind with
  | Ok l => (resolved ← local_endpoint l tcp; Ok (resolved, l), [ConnListening endpoint])
  | Err err => (Err err, [ConnListenFailed endpoint])
  end.

(** [bind] and [local] are those of the QUIC endpoint. *)
Definition start_quic (key_pair : KeyPair) (endpoint : Endpoint) (rnd : option CertKey)
    (bind : result net_error ()) (local : result net_error Endpoint) :
    result p2p_error Endpoint * list ConnectionKind :=
  match quic_server_config key_pair rnd with
  | Err err => (Err err, [])
  | Ok _ =>
      match bind with
      | Ok _ => (map_err KaryonNet local, [ConnListening endpoint])
      | Err err => (Err (KaryonNet err), [ConnListenFailed endpoint])
      end
  end.

Definition start (key_pair : KeyPair) (endpoint : Endpoint) (rnd : option CertKey)
    (bind : result net_error ()) (local : result net_error Endpoint) :
    result p2p_error Endpoint * list ConnectionKind :=
  if Endpoint.is_quic endpoint then start_quic key_pair endpoint rnd bind local
  else
    match start_with_callback key_pair endpoint rnd bind local with
    | (r, evs) => (fst <$> r, evs)
    end.

(** ** Serving a connection *)

Context {St Qc : Type} (peer_certificates : St → option (list (list Z)))
  (quic_certificates : Qc → option (list (list Z))).

Definition stream_handshake (l : StreamListener) (stream : St)
    (layer : ServerConfig → St → option (result net_error St)) : result p2p_error St :=
  match l with
  | ListenTcp => Ok stream
  | ListenTls cfg => timeout (layer cfg stream)
  end.

Definition upgrade (now : Z) (l : StreamListener) (stream : St)
    (layer : ServerConfig → St → option (result net_error St)) :
    result p2p_error (St * option PeerID) :=
  stream ← stream_handshake l stream layer;
  let vpid := peer_certificates stream ≫= peer_id_from_certs now in
  Ok (stream, vpid).

(** The task of a connection in callback mode, in queue mode and over QUIC;
    [handle] waits in the queue until the connection is over. *)
Definition serve_callback (now : Z) (l : StreamListener) (stream : St) layer
    (callback : St → result p2p_error ()) : result p2p_error () :=
  '(conn, _) ← upgrade now l stream layer;
  callback conn.

Definition serve (now : Z) (l : StreamListener) (stream : St) layer
    (handle : St → ConnDirection → option PeerID → result p2p_error ()) : result p2p_error () :=
  '(conn, vpid) ← upgrade now l stream layer;
  handle conn Inbound vpid;;
  Ok ().

Definition serve_quic (now : Z) (incoming : option (result net_error Qc))
    (accept_stream : Qc → option (result net_error St))
    (handle_quic : St → Qc → ConnDirection → option PeerID → result p2p_error ()) :
    result p2p_error () :=
  quic_conn ← timeout incoming;
  let vpid := quic_certificates quic_conn ≫= peer_id_from_certs now in
  stream ← timeout (accept_stream quic_conn);
  handle_quic stream quic_conn Inbound vpid;;
  Ok ().

End operations.

(** ** The accept loops *)

(** What [accept] and [peer_endpoint] give. *)
Inductive accepted := AcceptErr | NoEndpoint | AcceptFrom (e : Endpoint).

(** Where a connection's task is: in its body, before and after the event of its
    callback, over. *)
Inductive serving := Serving | Notifying | Dropping | Gone.

#[global] Instance serving_eq_dec : EqDecision serving.
Proof. solve_decision. Defined.

Record inbound := mkInbound { from : Endpoint; at_serving : serving }.

(** A loop waits for a slot, for a connection, or in [monitor.notify] before and after
    the event is out, with the connection it will serve; or it has ended. *)
Inductive loop_pc :=
| LoopAcquire
| LoopAccept
| LoopNotify (evs : list ConnectionKind) (next : option Endpoint)
| LoopNotified (next : option Endpoint)
| LoopExit.

(** The loops that have a slot in their hands; of these, those that wait for a
    connection. *)
Definition holding (p : loop_pc) : bool := match p with LoopAcquire | LoopExit => false | _ => true end.
Definition accepting (p : loop_pc) : bool := match p with LoopAccept => true | _ => false end.

Inductive handler := LoopHandler (k : nat) | ConnHandler (i : nat).

Inductive shut_pc := NotShut | Cancelling (todo : list handler).

Record listener := mkListener {
  permits : nat;
  loops : list loop_pc;
  conns : list inbound;
  log : list ConnectionKind;
  shut : shut_pc;
}.

(** ** Lists changed at one place *)

Lemma omap_take_perm {A B} (f : A → option B) l k x :
  l !! k = Some x → omap f l ≡ₚ option_list (f x) ++ omap f (delete k l).
Proof.
  intros Hk. rewrite (omap_Permutation f _ _ (delete_Permutation l k x Hk)). cbn. by destruct (f x).
Qed.

Lemma omap_insert_perm {A B} (f : A → option B) l k x y :
  l !! k = Some x → omap f (<[k := y]> l) ≡ₚ option_list (f y) ++ omap f (delete k l).
Proof.
  intros Hk. rewrite (omap_take_perm f (<[k := y]> l) k y) by (apply list_lookup_insert_eq; by eapply lookup_lt_Some).
  by rewrite !delete_take_drop, take_insert_ge, drop_insert_lt by lia.
Qed.

Lemma moved_perm {A} (C D L E p q new lost : list A) :
  E ++ p ≡ₚ new ++ q ++ lost → (C ++ (p ++ D) ++ L) ++ E ≡ₚ (C ++ new) ++ (q ++ D) ++ lost ++ L.
Proof.
  intros He. trans ((E ++ p) ++ C ++ D ++ L); [solve_Permutation|]. rewrite He. solve_Permutation.
Qed.

Lemma countb_all {A} (f : A → bool) l : (∀ x, x ∈ l → f x = true) → countb f l = length l.
Proof.
  induction l as [|x l IH]; intros Hf; cbn; [done|]. rewrite (Hf x) by left.
  rewrite IH; [done|]. intros y Hy. apply Hf. by right.
Qed.

Section loop.
Context (access_control : AccessControl) (action : Action).

(** The events of one turn, and the connection to serve; without one the slot is
    dropped by [continue]. *)
Definition accept_turn (o : accepted) : list ConnectionKind * option Endpoint :=
  match o with
  | AcceptErr => ([ConnAcceptFailed], None)
  | NoEndpoint => ([ConnAcceptFailed], None)
  | AcceptFrom endpoint =>
      if negb (access_control (SubjectEndpoint endpoint) action) then ([], None)
      else ([ConnAccepted endpoint], Some endpoint)
  end.

Definition listener_new (slots : nat) : listener := mkListener slots [] [] [] NotShut.

Definition set_loop (s : listener) (k : nat) (p : loop_pc) : list loop_pc := <[k := p]> (loops s).

Definition set_serving (s : listener) (i : nat) (e : Endpoint) (x : serving) : list inbound :=
  <[i := mkInbound e x]> (conns s).

(** The tasks of the group. *)
Definition handlers (s : listener) : list handler :=
  omap (λ k, p ← loops s !! k; match p with LoopExit => None | _ => Some (LoopHandler k) end)
    (seq 0 (length (loops s))) ++
  omap (λ i, c ← conns s !! i; if decide (at_serving c = Gone) then None else Some (ConnHandler i))
    (seq 0 (length (conns s))).

Inductive step : listener → listener → Prop :=
| start_loop s :
    step s (mkListener (permits s) (loops s ++ [LoopAcquire]) (conns s) (log s) (shut s))
| acquire_slot s k n :
    loops s !! k = Some LoopAcquire → permits s = S n →
    step s (mkListener n (set_loop s k LoopAccept) (conns s) (log s) (shut s))
| acquire_fails s k :
    loops s !! k = Some LoopAcquire →
    step s (mkListener (permits s) (set_loop s k LoopExit) (conns s) (log s) (shut s))
(** What was accepted is refused, or the event is reported first. *)
| accept_continues s k o :
    loops s !! k = Some LoopAccept → accept_turn o = ([], None) →
    step s (mkListener (S (permits s)) (set_loop s k LoopAcquire) (conns s) (log s) (shut s))
| accept_notifies s k o evs next :
    loops s !! k = Some LoopAccept → accept_turn o = (evs, next) → evs ≠ [] →
    step s (mkListener (permits s) (set_loop s k (LoopNotify evs next)) (conns s) (log s) (shut s))
| loop_notifies s k evs next :
    loops s !! k = Some (LoopNotify evs next) →
    step s (mkListener (permits s) (set_loop s k (LoopNotified next)) (conns s) (log s ++ evs) (shut s))
| loop_continues s k :
    loops s !! k = Some (LoopNotified None) →
    step s (mkListener (S (permits s)) (set_loop s k LoopAcquire) (conns s) (log s) (shut s))
| loop_serves s k endpoint :
    loops s !! k = Some (LoopNotified (Some endpoint)) →
    step s (mkListener (permits s) (set_loop s k LoopAcquire)
      (conns s ++ [mkInbound endpoint Serving]) (log s) (shut s))
| body_ends s i e :
    conns s !! i = Some (mkInbound e Serving) →
    step s (mkListener (permits s) (loops s) (set_serving s i e Notifying) (log s) (shut s))
| callback_notifies s i e :
    conns s !! i = Some (mkInbound e Notifying) →
    step s (mkListener (permits s) (loops s) (set_serving s i e Dropping)
      (log s ++ [ConnDisconnected e]) (shut s))
| callback_drops s i e :
    conns s !! i = Some (mkInbound e Dropping) →
    step s (mkListener (S (permits s)) (loops s) (set_serving s i e Gone) (log s) (shut s))
| shutdown_drains s todo :
    shut s = NotShut → todo ≡ₚ handlers s →
    step s (mkListener (permits s) (loops s) (conns s) (log s) (Cancelling todo))
| cancel_loop s k p todo :
    shut s = Cancelling (LoopHandler k :: todo) → loops s !! k = Some p →
    step s (mkListener (permits s + if holding p then 1 else 0) (set_loop s k LoopExit)
      (conns s) (log s) (Cancelling todo))
| cancel_stops s i e todo :
    shut s = Cancelling (ConnHandler i :: todo) → conns s !! i = Some (mkInbound e Serving) →
    step s (mkListener (permits s) (loops s) (set_serving s i e Notifying) (log s) (shut s))
| cancel_waited s i e todo :
    shut s = Cancelling (ConnHandler i :: todo) → conns s !! i = Some (mkInbound e Gone) →
    step s (mkListener (permits s) (loops s) (conns s) (log s) (Cancelling todo)).

(** ** Theorems *)

Definition busy (c : inbound) : bool := match at_serving c with Gone => false | _ => true end.
Definition exited (p : loop_pc) : bool := match p with LoopExit => true | _ => false end.
Definition allowed (e : Endpoint) : Prop := access_control (SubjectEndpoint e) action = true.

(** The endpoints reported as accepted and as disconnected, those of connections not
    yet reported as over, and those reported and not yet served. *)
Definition accepted_of (e : ConnectionKind) : option Endpoint :=
  match e with ConnAccepted x => Some x | _ => None end.
Definition disconnected_of (e : ConnectionKind) : option Endpoint :=
  match e with ConnDisconnected x => Some x | _ => None end.
Definition unreported (c : inbound) : option Endpoint :=
  match at_serving c with Serving | Notifying => Some (from c) | _ => None end.
Definition announced (p : loop_pc) : option Endpoint :=
  match p with LoopNotified next => next | _ => None end.

(** What a loop reports and serves was allowed. *)
Definition loop_ok (p : loop_pc) : Prop :=
  match p with
  | LoopNotify evs next =>
      omap accepted_of evs = option_list next ∧ omap disconnected_of evs = [] ∧ from_option allowed True next
  | LoopNotified next => from_option allowed True next
  | _ => True
  end.

(** The slots are the free permits, those in the hands of the loops and those of
    the connections; every connection was accepted, allowed and reported so, and
    reported as over before it gives its slot back.  A loop that is cancelled in its
    report leaves one without a connection. *)
Record listener_inv (slots : nat) (s : listener) : Prop := {
  inv_slots : permits s + countb holding (loops s) + countb busy (conns s) = slots;
  inv_accepted : ∃ lost,
    omap accepted_of (log s) ≡ₚ (from <$> conns s) ++ omap announced (loops s) ++ lost ∧
    length lost ≤ countb exited (loops s) ∧ (shut s = NotShut → lost = []);
  inv_reported : omap disconnected_of (log s) ++ omap unreported (conns s) ≡ₚ from <$> conns s;
  inv_allowed : Forall (λ c, allowed (from c)) (conns s);
  inv_loops : Forall loop_ok (loops s);
}.

Lemma set_serving_inv slots s i e x x' n evs sh :
  listener_inv slots s → conns s !! i = Some (mkInbound e x) →
  omap accepted_of evs = [] →
  n + (if busy (mkInbound e x') then 1 else 0) = permits s + (if busy (mkInbound e x) then 1 else 0) →
  omap disconnected_of evs ++ option_list (unreported (mkInbound e x')) =
    option_list (unreported (mkInbound e x)) →
  (sh = NotShut → shut s = NotShut) →
  listener_inv slots (mkListener n (loops s) (set_serving s i e x') (log s ++ evs) sh).
Proof.
  intros [H1 (lost & H2 & Hlen & Hlost) H3 H4 H5] Hi Hev Hn Hr Hsh. unfold set_serving.
  assert (from <$> <[i := mkInbound e x']> (conns s) = from <$> conns s) as Hfrom.
  { rewrite list_fmap_insert. apply list_insert_id. by rewrite list_lookup_fmap, Hi. }
  split; cbn; [..|done].
  - pose proof (countb_insert busy _ _ _ (mkInbound e x') Hi) as Hc. lia.
  - exists lost. rewrite omap_app, Hev, app_nil_r, Hfrom. auto.
  - rewrite Hfrom, omap_app, <-H3.
    rewrite (omap_insert_perm unreported _ _ _ (mkInbound e x') Hi), (omap_take_perm unreported _ _ _ Hi), <-Hr.
    by rewrite <-!app_assoc.
  - apply Forall_insert; [done|]. by eapply (Forall_lookup_1 _ _ _ _ H4 Hi).
Qed.

(** A loop moves on, with new events and perhaps a connection to serve; what it has
    announced and not served is [lost]. *)
Lemma set_loop_inv slots s k p p' n new lost evs sh :
  listener_inv slots s → loops s !! k = Some p → loop_ok p' →
  n + (if holding p' then 1 else 0) + length new = permits s + (if holding p then 1 else 0) →
  omap accepted_of evs ++ option_list (announced p) ≡ₚ new ++ option_list (announced p') ++ lost →
  length lost + (if exited p then 1 else 0) ≤ (if exited p' then 1 else 0) →
  (sh = NotShut → shut s = NotShut ∧ lost = []) →
  omap disconnected_of evs = [] → Forall allowed new →
  listener_inv slots (mkListener n (set_loop s k p')
    (conns s ++ ((λ e, mkInbound e Serving) <$> new)) (log s ++ evs) sh).
Proof.
  intros [H1 (lost0 & H2 & Hlen & Hlost) H3 H4 H5] Hk Hok Hn Hev Hl Hsh Hd Hnew. unfold set_loop.
  pose proof (countb_insert holding _ _ _ p' Hk) as Hc. pose proof (countb_insert exited _ _ _ p' Hk) as He.
  assert (∀ l : list Endpoint, from <$> ((λ e, mkInbound e Serving) <$> l) = l) as Hfrom.
  { intros l. rewrite <-list_fmap_compose. apply list_fmap_id. }
  split; cbn; rewrite ?countb_app, ?omap_app, ?fmap_app, ?Hfrom.
  - rewrite (countb_all busy ((λ e, mkInbound e Serving) <$> new)), length_fmap; [lia|].
    by intros ? (? & -> & _)%list_elem_of_fmap.
  - exists (lost ++ lost0). split_and!; [|rewrite length_app; lia|intros [? ->]%Hsh; by rewrite Hlost].
    rewrite H2, (omap_take_perm announced _ _ _ Hk), (omap_insert_perm announced _ _ _ p' Hk).
    by apply (moved_perm _ _ _ _ _ _ _ _ Hev).
  - rewrite Hd, app_nil_r, app_assoc, H3. f_equiv. clear. by induction new as [|e new IH]; cbn; [|f_equiv].
  - apply Forall_app_2; [done|]. by apply Forall_fmap.
  - by apply Forall_insert.
Qed.

Lemma accept_turn_spec o evs next :
  accept_turn o = (evs, next) →
  omap accepted_of evs = option_list next ∧ omap disconnected_of evs = [] ∧ from_option allowed True next.
Proof.
  destruct o as [| |e]; cbn; [by intros [= <- <-]..|].
  destruct (access_control _ _) eqn:Ha; by intros [= <- <-].
Qed.

Lemma loop_inv slots s k p p' n evs sh :
  listener_inv slots s → loops s !! k = Some p → loop_ok p' → exited p' = exited p →
  n + (if holding p' then 1 else 0) = permits s + (if holding p then 1 else 0) →
  omap accepted_of evs ++ option_list (announced p) = option_list (announced p') →
  omap disconnected_of evs = [] → (sh = NotShut → shut s = NotShut) →
  listener_inv slots (mkListener n (set_loop s k p') (conns s) (log s ++ evs) sh).
Proof.
  intros Hinv Hk Hok He Hn Ha Hd Hsh. rewrite <-(app_nil_r (conns s)).
  apply (set_loop_inv slots s k p p' n [] [] evs); try done; cbn; [lia| |rewrite He; lia|auto].
  by rewrite Ha, app_nil_r.
Qed.

Lemma loop_lookup_ok slots s k p : listener_inv slots s → loops s !! k = Some p → loop_ok p.
Proof. intros [_ _ _ _ H5] Hk. by eapply (Forall_lookup_1 _ _ _ _ H5 Hk). Qed.

Lemma step_inv slots s s' : listener_inv slots s → step s s' → listener_inv slots s'.
Proof.
  intros Hinv Hs. pose proof (loop_lookup_ok slots s) as Hok.
  destruct Hs as [s|s k n Hk Hn|s k Hk|s k o Hk Ho|s k o evs next Hk Ho _|s k evs next Hk|s k Hk|s k e Hk|
    s i e Hi|s i e Hi|s i e Hi|s todo _ _|s k p todo _ Hk|s i e todo _ Hi|s i e todo _ _].
  - destruct Hinv as [H1 (lost & H2 & Hlen & ?) H3 H4 H5]. split; cbn; try done.
    + rewrite countb_app. cbn. lia.
    + exists lost. rewrite omap_app, app_nil_r, countb_app. split_and!; [done|lia|done].
    + apply Forall_app_2; [done|]. by repeat constructor.
  - rewrite <-(app_nil_r (log s)). apply (loop_inv slots s k LoopAcquire); cbn; done || lia.
  - rewrite <-(app_nil_r (log s)), <-(app_nil_r (conns s)).
    apply (set_loop_inv slots s k LoopAcquire LoopExit (permits s) [] []); cbn; done || lia.
  - rewrite <-(app_nil_r (log s)). apply (loop_inv slots s k LoopAccept); cbn; done || lia.
  - apply accept_turn_spec in Ho. rewrite <-(app_nil_r (log s)).
    apply (loop_inv slots s k LoopAccept); cbn; done || lia.
  - destruct (Hok k _ Hinv Hk) as (Ha & ? & ?).
    apply (loop_inv slots s k (LoopNotify evs next)); cbn; try done. by rewrite app_nil_r.
  - rewrite <-(app_nil_r (log s)). apply (loop_inv slots s k (LoopNotified None)); cbn; done || lia.
  - pose proof (Hok k _ Hinv Hk) as Ha. cbn in Ha. rewrite <-(app_nil_r (log s)).
    apply (set_loop_inv slots s k (LoopNotified (Some e)) LoopAcquire (permits s) [e] []); cbn; try done || lia.
    by constructor.
  - rewrite <-(app_nil_r (log s)). by apply (set_serving_inv slots s i e Serving).
  - by apply (set_serving_inv slots s i e Notifying).
  - rewrite <-(app_nil_r (log s)). apply (set_serving_inv slots s i e Dropping); cbn; done || lia.
  - destruct Hinv as [H1 (lost & H2 & ? & _) H3 H4 H5]. split; cbn; try done. by exists lost.
  - rewrite <-(app_nil_r (log s)), <-(app_nil_r (conns s)).
    apply (set_loop_inv slots s k p LoopExit _ [] (option_list (announced p))); cbn; try done || lia.
    destruct p as [| | |[]|]; cbn; lia.
  - rewrite <-(app_nil_r (log s)). by apply (set_serving_inv slots s i e Serving).
  - destruct Hinv as [H1 (lost & H2 & ? & ?) H3 H4 H5]. split; cbn; try done. by exists lost.
Qed.

Lemma reachable_inv slots s : rtc step (listener_new slots) s → listener_inv slots s.
Proof.
  intros Hr. assert (listener_inv slots (listener_new slots)) as Hinv.
  { split; cbn; [lia|by exists []|done|by constructor..]. }
  revert Hinv. induction Hr; eauto using step_inv.
Qed.

(** A connection that is over in any way gives its slot back. *)
Definition can_end (s : listener) (i : nat) (e : Endpoint) : Prop :=
  ∃ s', rtc step s s' ∧ conns s' = <[i := mkInbound e Gone]> (conns s) ∧
    loops s' = loops s ∧ shut s' = shut s.

Lemma can_end_step s s' i e x y :
  conns s !! i = Some (mkInbound e x) → step s s' →
  conns s' = <[i := mkInbound e y]> (conns s) → loops s' = loops s → shut s' = shut s →
  (conns s' !! i = Some (mkInbound e y) → can_end s' i e) → can_end s i e.
Proof.
  intros Hi Hs Hc Hl Hsh Hend. destruct Hend as (s2 & Hr & Hc2 & Hl2 & Hsh2).
  { rewrite Hc. apply list_lookup_insert_eq. by eapply lookup_lt_Some. }
  exists s2. split; [by eapply rtc_l|]. rewrite Hc2, Hc, list_insert_insert_eq.
  split_and!; congruence.
Qed.

Lemma conn_ends s i e x : conns s !! i = Some (mkInbound e x) → can_end s i e.
Proof.
  assert (∀ t, conns t !! i = Some (mkInbound e Dropping) → can_end t i e) as Hdrop.
  { intros t Ht. eexists. split; [by eapply rtc_once, callback_drops|done]. }
  assert (∀ t, conns t !! i = Some (mkInbound e Notifying) → can_end t i e) as Hnotify.
  { intros t Ht. eapply can_end_step; [done|by eapply callback_notifies|done..|apply Hdrop]. }
  intros Hi. destruct x; [|by apply Hnotify|by apply Hdrop|].
  - eapply can_end_step; [done|by eapply body_ends|done..|apply Hnotify].
  - exists s. rewrite list_insert_id; [|done]. by split; [apply rtc_refl|].
Qed.

Lemma conns_end s :
  ∃ s', rtc step s s' ∧ countb busy (conns s') = 0 ∧ loops s' = loops s ∧ shut s' = shut s.
Proof.
  remember (countb busy (conns s)) as n eqn:Hn. revert s Hn.
  induction n as [|n IH]; intros s Hn; [exists s; by split; [apply rtc_refl|]|].
  destruct (decide (Exists (λ c, busy c = true) (conns s))) as [[c [[i Hi]%list_elem_of_lookup Hb]]%Exists_exists|Hno].
  - destruct c as [e x]. destruct (conn_ends s i e x Hi) as (s1 & Hr1 & Hc1 & Hl1 & Hs1).
    pose proof (countb_insert busy _ _ _ (mkInbound e Gone) Hi) as Hcount. rewrite Hb in Hcount.
    destruct (IH s1) as (s2 & Hr2 & ? & ? & ?); [rewrite Hc1; cbn in Hcount; lia|].
    exists s2. split; [by etrans|]. split_and!; congruence.
  - assert (countb busy (conns s) = 0); [|lia]. apply countb_zero. intros c Hc.
    destruct (busy c) eqn:Hb; [|done]. destruct Hno. apply Exists_exists. by exists c.
Qed.

(** A loop that reports comes to the end of its turn. *)
Definition reporting (p : loop_pc) : bool := holding p && negb (accepting p).

Lemma report_ends s k p :
  loops s !! k = Some p → reporting p = true →
  ∃ s', rtc step s s' ∧ loops s' = <[k := LoopAcquire]> (loops s).
Proof.
  assert (∀ t next, loops t !! k = Some (LoopNotified next) →
    ∃ s', rtc step t s' ∧ loops s' = <[k := LoopAcquire]> (loops t)) as Hnotified.
  { intros t [e|] Ht; eexists.
    - split; [by eapply rtc_once, loop_serves|done].
    - split; [by eapply rtc_once, loop_continues|done]. }
  intros Hk. destruct p as [| |evs next|next|]; cbn; try done; intros _; [|by eapply Hnotified].
  destruct (Hnotified (mkListener (permits s) (set_loop s k (LoopNotified next)) (conns s) (log s ++ evs) (shut s)) next)
    as (s' & Hr & Hl).
  { apply list_lookup_insert_eq. by eapply lookup_lt_Some. }
  exists s'. split; [eapply rtc_l; [by apply loop_notifies|done]|].
  rewrite Hl. cbn. unfold set_loop. by rewrite list_insert_insert_eq.
Qed.

Lemma reports_end s k :
  loops s !! k = Some LoopAcquire →
  ∃ s', rtc step s s' ∧ countb holding (loops s') = countb accepting (loops s) ∧
    loops s' !! k = Some LoopAcquire.
Proof.
  remember (countb reporting (loops s)) as n eqn:Hn. revert s Hn. induction n as [|n IH]; intros s Hn Hk.
  { exists s. split_and!; [apply rtc_refl| |done]. apply countb_ext. intros p Hp.
    apply (proj1 (countb_zero reporting (loops s)) (eq_sym Hn)) in Hp. by destruct p. }
  destruct (decide (Exists (λ p, reporting p = true) (loops s)))
    as [[p [[j Hj]%list_elem_of_lookup Hp]]%Exists_exists|Hno].
  - destruct (report_ends s j p Hj Hp) as (s1 & Hr1 & Hl1).
    pose proof (countb_insert reporting _ _ _ LoopAcquire Hj) as Hc. rewrite Hp in Hc.
    pose proof (countb_insert accepting _ _ _ LoopAcquire Hj) as Ha.
    assert (accepting p = false) as Hpa by (by destruct p). rewrite Hpa in Ha. cbn in Hc, Ha.
    destruct (IH s1) as (s2 & Hr2 & Hh & Hk2); [rewrite Hl1; lia| |].
    { rewrite Hl1. destruct (decide (j = k)) as [->|]; [|by rewrite list_lookup_insert_ne].
      apply list_lookup_insert_eq. by eapply lookup_lt_Some. }
    exists s2. split_and!; [by etrans| |done]. rewrite Hh, Hl1. lia.
  - assert (countb reporting (loops s) = 0); [|lia]. apply countb_zero. intros p Hp.
    destruct (reporting p) eqn:Hr; [|done]. destruct Hno. apply Exists_exists. by exists p.
Qed.

(** C26: The accept loops and their connections share the slots without losing one.
    However accepting on any number of endpoints, reporting, serving, callbacks and a
    shutdown interleave, the free permits, those in the hands of the loops and the
    connections that are not over add up to the slots, so that never more than [slots]
    connections are served; each connection was let in by the access policy, its
    endpoint is reported as accepted once, and as disconnected once before its slot is
    free again.  The other reports of accepted connections are those of loops about to
    serve them, and once a shutdown has begun at most one of each loop that has ended:
    a loop cancelled in its report serves nobody.  A loop that waits for a slot can
    always get one while fewer loops than slots wait for a connection: all reports and
    connections can come to an end, and then their permits are back. *)
Theorem listener_slots slots s :
  rtc step (listener_new slots) s →
  permits s + countb holding (loops s) + countb busy (conns s) = slots ∧
  Forall (λ c, allowed (from c)) (conns s) ∧
  (∃ lost, omap accepted_of (log s) ≡ₚ (from <$> conns s) ++ omap announced (loops s) ++ lost ∧
    length lost ≤ countb exited (loops s) ∧ (shut s = NotShut → lost = [])) ∧
  omap disconnected_of (log s) ++ omap unreported (conns s) ≡ₚ from <$> conns s ∧
  (∀ k, loops s !! k = Some LoopAcquire → countb accepting (loops s) < slots →
    ∃ s' s'', rtc step s s' ∧ step s' s'' ∧ loops s' !! k = Some LoopAcquire ∧
      loops s'' = <[k := LoopAccept]> (loops s')).
Proof.
  intros Hr. destruct (reachable_inv slots s Hr) as [H1 H2 H3 H4 _]. split_and!; [done..|].
  intros k Hk Hlt. destruct (reports_end s k Hk) as (s1 & Hr1 & Hh & Hk1).
  destruct (conns_end s1) as (s' & Hr' & Hb & Hl' & _). exists s'.
  assert (rtc step s s') as Hrs by by etrans.
  assert (rtc step (listener_new slots) s') as [H1' _ _ _ _]%reachable_inv by by etrans.
  rewrite Hl', Hb in H1'. destruct (permits s') as [|n] eqn:Hn; [lia|].
  rewrite <-Hl' in Hk1. eexists. split_and!; [done|by apply (acquire_slot s' k n)|done|done].
Qed.

(** One step of a concrete run. *)
Tactic Notation "run_step" uconstr(lem) :=
  eapply rtc_l; [by eapply lem|];
  unfold set_loop, set_serving;
  cbn [permits loops conns log shut app insert list_insert holding Nat.add listener_new].

(** A connection can be reported as accepted and never be served nor reported as
    disconnected, when the shutdown cancels its loop in the report. *)
Theorem listener_accepted_lost slots e :
  1 ≤ slots → allowed e →
  ∃ s, rtc step (listener_new slots) s ∧ log s = [ConnAccepted e] ∧ conns s = [] ∧ loops s = [LoopExit] ∧
    shut s = Cancelling [].
Proof.
  intros Hslots Ha. destruct slots as [|n]; [lia|].
  assert (accept_turn (AcceptFrom e) = ([ConnAccepted e], Some e)) as Ht
    by (cbn; unfold allowed in Ha; by rewrite Ha).
  eexists. split.
  { run_step start_loop. run_step (acquire_slot _ 0 n). run_step (accept_notifies _ 0).
    run_step (loop_notifies _ 0).
    eapply rtc_l; [by apply (shutdown_drains _ [LoopHandler 0])|]. run_step (cancel_loop _ 0). apply rtc_refl. }
  done.
Qed.

Lemma loops_wait slots n : n ≤ slots →
  rtc step (listener_new slots)
    (mkListener (slots - n) (replicate n LoopAccept) [] [] NotShut).
Proof.
  induction n as [|n IH]; intros Hn; [rewrite Nat.sub_0_r; apply rtc_refl|].
  etrans; [apply IH; lia|]. eapply rtc_l; [apply start_loop|].
  apply rtc_once. cbn [permits loops conns log shut].
  assert (replicate (S n) LoopAccept = <[n := LoopAccept]> (replicate n LoopAccept ++ [LoopAcquire])) as ->.
  { rewrite replicate_S_end, insert_app_r_alt by (by rewrite length_replicate).
    by rewrite length_replicate, Nat.sub_diag. }
  apply (acquire_slot (mkListener (slots - n) (replicate n LoopAccept ++ [LoopAcquire]) [] [] NotShut)
    n (slots - S n)); cbn; [|lia].
  rewrite lookup_app_r by (by rewrite length_replicate). by rewrite length_replicate, Nat.sub_diag.
Qed.

(** A loop holds its slot while it waits for a connection.  With as many silent
    endpoints as slots, another endpoint cannot accept although no connection is
    served. *)
Theorem listener_starves slots :
  ∃ s, rtc step (listener_new slots) s ∧ conns s = [] ∧ loops s !! slots = Some LoopAcquire ∧
    ∀ s', step s s' → loops s' !! slots ≠ Some LoopAccept.
Proof.
  exists (mkListener 0 (replicate slots LoopAccept ++ [LoopAcquire]) [] [] NotShut).
  set (s := mkListener 0 _ _ _ _).
  assert (loops s !! slots = Some LoopAcquire) as Hk.
  { cbn. rewrite lookup_app_r by (by rewrite length_replicate). by rewrite length_replicate, Nat.sub_diag. }
  assert (∀ k p, p ≠ LoopAccept → set_loop s k p !! slots ≠ Some LoopAccept) as Hset.
  { intros k p Hp. unfold set_loop. destruct (decide (k = slots)) as [->|Hne].
    - rewrite list_lookup_insert_eq by (by eapply lookup_lt_Some). congruence.
    - rewrite list_lookup_insert_ne by done. congruence. }
  split_and!; [|done|done|].
  - eapply rtc_r; [apply (loops_wait slots slots); lia|]. rewrite Nat.sub_diag. apply start_loop.
  - intros s' Hs. inversion Hs; subst; cbn [permits shut conns] in *; try discriminate;
      cbn [loops]; try (by apply Hset); try congruence.
    rewrite lookup_app_l by (by eapply lookup_lt_Some). congruence.
Qed.

(** A listener can still serve a connection after its shutdown.  [shutdown]
    cancels the tasks the group held when it was called, one after the other;
    the accept loop is one of them, so it can accept a connection while an
    earlier one is being cancelled, and nothing cancels that one. *)
Theorem listener_shutdown_leak slots e :
  2 ≤ slots → allowed e →
  ∃ s, rtc step (listener_new slots) s ∧ shut s = Cancelling [] ∧ loops s = [LoopExit] ∧
    mkInbound e Serving ∈ conns s.
Proof.
  intros Hslots Ha. destruct slots as [|[|n]]; [lia..|].
  assert (accept_turn (AcceptFrom e) = ([ConnAccepted e], Some e)) as Ht
    by (cbn; unfold allowed in Ha; by rewrite Ha).
  eexists. split.
  { run_step start_loop. run_step (acquire_slot _ 0 (S n)). run_step (accept_notifies _ 0).
    run_step (loop_notifies _ 0). run_step (loop_serves _ 0). run_step (acquire_slot _ 0 n).
    eapply rtc_l; [by apply (shutdown_drains _ [ConnHandler 0; LoopHandler 0]), Permutation_swap|].
    run_step (accept_notifies _ 0). run_step (loop_notifies _ 0). run_step (loop_serves _ 0). run_step cancel_stops. run_step (callback_notifies _ 0).
    run_step (callback_drops _ 0). run_step cancel_waited. run_step (cancel_loop _ 0). apply rtc_refl. }
  cbn. split_and!; [done..|]. set_solver.
Qed.

End loop.

(** ** Witnesses *)

Section witnesses.

Definition peer_ep : Endpoint := Tcp (Domain "peer") 30.

(** One of two endpoints serves a connection with the first of two slots; the other
    waits with the second. *)
Lemma listener_slots_witness :
  let s := mkListener 0 [LoopAcquire; LoopAccept] [mkInbound peer_ep Serving] [ConnAccepted peer_ep] NotShut in
  rtc (step AllowAll (ActConnect Inbound)) (listener_new 2) s ∧
  permits s + countb holding (loops s) + countb busy (conns s) = 2 ∧
  ∃ s' s'', rtc (step AllowAll (ActConnect Inbound)) s s' ∧
    step AllowAll (ActConnect Inbound) s' s'' ∧ loops s'' = <[0 := LoopAccept]> (loops s').
Proof.
  intros s.
  assert (rtc (step AllowAll (ActConnect Inbound)) (listener_new 2) s) as Hr.
  { eapply rtc_l; [apply start_loop|]. eapply rtc_l; [apply start_loop|].
    eapply rtc_l; [apply (acquire_slot _ _ _ 0 1); reflexivity|].
    eapply rtc_l; [apply (acquire_slot _ _ _ 1 0); reflexivity|].
    eapply rtc_l; [apply (accept_notifies _ _ _ 0 (AcceptFrom peer_ep) [ConnAccepted peer_ep] (Some peer_ep));
      [reflexivity|reflexivity|discriminate]|].
    eapply rtc_l; [apply (loop_notifies _ _ _ 0 [ConnAccepted peer_ep] (Some peer_ep)); reflexivity|].
    apply rtc_once. apply (loop_serves AllowAll (ActConnect Inbound)
      (mkListener 0 [LoopNotified (Some peer_ep); LoopAccept] [] [ConnAccepted peer_ep] NotShut) 0 peer_ep); reflexivity. }
  destruct (listener_slots AllowAll (ActConnect Inbound) 2 s Hr) as (Hsum & _ & _ & _ & Hget).
  split_and!; [exact Hr|exact Hsum|].
  destruct (Hget 0) as (s' & s2 & H1 & H2 & _ & H4); [reflexivity|cbn; lia|]. exists s', s2. auto.
Defined.

Lemma listener_shutdown_leak_witness :
  ∃ s, rtc (step AllowAll (ActConnect Inbound)) (listener_new 2) s ∧ shut s = Cancelling [] ∧
    loops s = [LoopExit] ∧ mkInbound peer_ep Serving ∈ conns s.
Proof. apply listener_shutdown_leak; [lia|reflexivity]. Defined.

End witnesses.
