(* ===== verification/Queue.v ===== *)
(** * Condition variables and the bounded queue

    Models [core/src/async_util/condvar.rs] and
    [core/src/async_util/async_queue.rs] as a system of tasks that interleave
    at every await.  The async mutex is free or held by one task, and any task
    waiting for it may be the next to get it.  A dropped future leaves the
    system by the [cancel] steps.  Waiter ids are unbounded: a [u64] counter
    does not overflow in practice, as the source notes. *)

From S2P Require Import Prelude.

(** ** Condition variables *)

(** [Option<Waker>] of a waiter: [true] while it waits, [false] once it was
    signalled. *)
Record Wakers := mkWakers { wakers : gmap nat bool; next_id : nat }.

Module Wakers.
Section defs.
(** The order in which the hash map is iterated. *)
Context (values : gmap nat bool → list nat).

Definition new : Wakers := mkWakers ∅ 0.

Definition put (w : Wakers) : nat * Wakers :=
  let id := next_id w in (id, mkWakers (<[id := true]> (wakers w)) (S id)).

Definition delete (w : Wakers) (id : nat) : Wakers :=
  mkWakers (base.delete id (wakers w)) (next_id w).

Fixpoint wake_loop (signal : bool) (ids : list nat) (ws : gmap nat bool) : gmap nat bool :=
  match ids with
  | [] => ws
  | id :: ids =>
      match ws !! id with
      | Some true =>
          let ws := <[id := false]> ws in
          if signal then ws else wake_loop signal ids ws
      | _ => wake_loop signal ids ws
      end
  end.

Definition wake (signal : bool) (w : Wakers) : Wakers :=
  mkWakers (wake_loop signal (values (wakers w)) (wakers w)) (next_id w).

(** [CondVar::signal] and [CondVar::broadcast]. *)
Definition signal : Wakers → Wakers := wake true.
Definition broadcast : Wakers → Wakers := wake false.

(** A later poll of [CondVarAwait]: [None] is pending. *)
Definition poll (w : Wakers) (id : nat) : option Wakers :=
  match wakers w !! id with
  | None => Some w
  | Some true => None
  | Some false => Some (delete w id)
  end.

(** [Drop] of a [CondVarAwait] that has registered. *)
Definition drop (w : Wakers) (id : nat) : Wakers :=
  let w' := delete w id in
  match wakers w !! id with
  | Some false => wake true w'
  | _ => w'
  end.

End defs.
End Wakers.

(** ** The queue *)

Section queue.
Context {A : Type}.
Context (values : gmap nat bool → list nat).
Context (capacity : nat).

(** Where a task of the queue is.  After a wait it competes for the lock as at
    its start, but it was [woken]; a call that is dropped then is remembered as
    such. *)
Inductive pc :=
| PushLock (x : A) (woken : bool)
| PushHold (x : A) (woken : bool)
| PushWait (x : A) (id : nat)
| PushDropped
| RecvLock (woken : bool)
| RecvHold (woken : bool)
| RecvWait (id : nat)
| RecvDropped
| Finished.

(** The queue, its lock and condition variables, the tasks that use it, and the
    items pushed and received so far. *)
Record queue := mkQueue {
  items : list A;
  lock : option nat;
  not_empty : Wakers;
  not_full : Wakers;
  tasks : list pc;
  pushed : list A;
  received : list A;
}.

(** [AsyncQueue::new]; a capacity of zero panics. *)
Definition queue_new : option queue :=
  if (0 <? capacity)%nat then Some (mkQueue [] None Wakers.new Wakers.new [] [] []) else None.

(** The steps of [push] and [recv]: one per await and per critical section. *)
Inductive step : queue → queue → Prop :=
| spawn_push q x :
    step q (mkQueue (items q) (lock q) (not_empty q) (not_full q) (tasks q ++ [PushLock x false])
      (pushed q) (received q))
| spawn_recv q :
    step q (mkQueue (items q) (lock q) (not_empty q) (not_full q) (tasks q ++ [RecvLock false])
      (pushed q) (received q))
| push_acquire q i x w :
    lock q = None → tasks q !! i = Some (PushLock x w) →
    step q (mkQueue (items q) (Some i) (not_empty q) (not_full q) (<[i := PushHold x w]> (tasks q))
      (pushed q) (received q))
| push_full q i x w id nf :
    tasks q !! i = Some (PushHold x w) → capacity ≤ length (items q) →
    Wakers.put (not_full q) = (id, nf) →
    step q (mkQueue (items q) None (not_empty q) nf (<[i := PushWait x id]> (tasks q))
      (pushed q) (received q))
| push_item q i x w :
    tasks q !! i = Some (PushHold x w) → length (items q) < capacity →
    step q (mkQueue (items q ++ [x]) None (Wakers.signal values (not_empty q)) (not_full q)
      (<[i := Finished]> (tasks q)) (pushed q ++ [x]) (received q))
| push_woken q i x id nf :
    tasks q !! i = Some (PushWait x id) → Wakers.poll (not_full q) id = Some nf →
    step q (mkQueue (items q) (lock q) (not_empty q) nf (<[i := PushLock x true]> (tasks q))
      (pushed q) (received q))
| recv_acquire q i w :
    lock q = None → tasks q !! i = Some (RecvLock w) →
    step q (mkQueue (items q) (Some i) (not_empty q) (not_full q) (<[i := RecvHold w]> (tasks q))
      (pushed q) (received q))
| recv_empty q i w id ne :
    tasks q !! i = Some (RecvHold w) → items q = [] → Wakers.put (not_empty q) = (id, ne) →
    step q (mkQueue (items q) None ne (not_full q) (<[i := RecvWait id]> (tasks q))
      (pushed q) (received q))
| recv_item q i w x rest :
    tasks q !! i = Some (RecvHold w) → items q = x :: rest →
    step q (mkQueue rest None (not_empty q) (Wakers.signal values (not_full q))
      (<[i := Finished]> (tasks q)) (pushed q) (received q ++ [x]))
| recv_woken q i id ne :
    tasks q !! i = Some (RecvWait id) → Wakers.poll (not_empty q) id = Some ne →
    step q (mkQueue (items q) (lock q) ne (not_full q) (<[i := RecvLock true]> (tasks q))
      (pushed q) (received q))
(** A future dropped while it waits on a condition variable. *)
| push_cancel_wait q i x id :
    tasks q !! i = Some (PushWait x id) →
    step q (mkQueue (items q) (lock q) (not_empty q) (Wakers.drop values (not_full q) id)
      (<[i := Finished]> (tasks q)) (pushed q) (received q))
| recv_cancel_wait q i id :
    tasks q !! i = Some (RecvWait id) →
    step q (mkQueue (items q) (lock q) (Wakers.drop values (not_empty q) id) (not_full q)
      (<[i := Finished]> (tasks q)) (pushed q) (received q)).

(** A future dropped while it waits for the lock. *)
Inductive cancel_lock : queue → queue → Prop :=
| cancel_push_lock q i x w :
    tasks q !! i = Some (PushLock x w) →
    cancel_lock q (mkQueue (items q) (lock q) (not_empty q) (not_full q)
      (<[i := if w then PushDropped else Finished]> (tasks q)) (pushed q) (received q))
| cancel_recv_lock q i w :
    tasks q !! i = Some (RecvLock w) →
    cancel_lock q (mkQueue (items q) (lock q) (not_empty q) (not_full q)
      (<[i := if w then RecvDropped else Finished]> (tasks q)) (pushed q) (received q)).

End queue.
Arguments pc : clear implicits.
Arguments queue : clear implicits.

(** ** The specification: an atomic bounded queue *)

Inductive queue_op (A : Type) :=
| OpPush (x : A)
| OpRecv (x : A).
Arguments OpPush {A} _.
Arguments OpRecv {A} _.

Inductive atomic_step {A} (capacity : nat) : list A → queue_op A → list A → Prop :=
| atomic_push l x : length l < capacity → atomic_step capacity l (OpPush x) (l ++ [x])
| atomic_recv x l : atomic_step capacity (x :: l) (OpRecv x) l.

Inductive atomic_run {A} (capacity : nat) : list A → list (queue_op A) → list A → Prop :=
| atomic_nil l : atomic_run capacity l [] l
| atomic_snoc l ops l' op l'' :
    atomic_run capacity l ops l' → atomic_step capacity l' op l'' →
    atomic_run capacity l (ops ++ [op]) l''.

(** What the operations of a run put in and took out. *)
Definition pushes {A} (ops : list (queue_op A)) : list A :=
  omap (λ op, match op with OpPush x => Some x | OpRecv _ => None end) ops.
Definition receives {A} (ops : list (queue_op A)) : list A :=
  omap (λ op, match op with OpRecv x => Some x | OpPush _ => None end) ops.

Lemma atomic_run_fifo {A} capacity (l : list A) ops l' :
  atomic_run capacity l ops l' → l ++ pushes ops = receives ops ++ l'.
Proof.
  unfold pushes, receives. induction 1 as [|l ops l1 op l2 _ IH Hop]; [by rewrite app_nil_r|].
  rewrite !omap_app, app_assoc, IH.
  destruct Hop; simpl; by rewrite ?app_nil_r, <-?app_assoc.
Qed.

Lemma atomic_run_bound {A} capacity (l : list A) ops l' :
  atomic_run capacity l ops l' → length l ≤ capacity → length l' ≤ capacity.
Proof.
  induction 1 as [|l ops l1 op l2 _ IH Hop]; [done|]. intros Hl%IH.
  destruct Hop; simpl in *; rewrite ?length_app in *; simpl; lia.
Qed.

(** ** Counting waiters *)

Definition nwait (ws : gmap nat bool) : nat := size (filter (λ kv, kv.2 = true) ws).
Definition nsig (ws : gmap nat bool) : nat := size (filter (λ kv, kv.2 = false) ws).

Lemma filter_insert_ne (c b : bool) (ws : gmap nat bool) id :
  b ≠ c → filter (λ kv, kv.2 = c) (<[id := b]> ws) = delete id (filter (λ kv, kv.2 = c) ws).
Proof.
  intros Hne. rewrite map_filter_insert_False by done. by rewrite map_filter_delete.
Qed.

Lemma size_insert_fresh (c : bool) (ws : gmap nat bool) id :
  ws !! id = None →
  size (filter (λ kv, kv.2 = c) (<[id := c]> ws)) = S (size (filter (λ kv, kv.2 = c) ws)).
Proof.
  intros Hid. rewrite map_filter_insert_True by done. apply map_size_insert_None.
  apply map_lookup_filter_None. by left.
Qed.

Lemma size_delete (c b : bool) (ws : gmap nat bool) id :
  ws !! id = Some b →
  size (filter (λ kv, kv.2 = c) ws) =
    (if decide (b = c) then 1 else 0) + size (filter (λ kv, kv.2 = c) (delete id ws)).
Proof.
  intros Hid. rewrite map_filter_delete. case_decide as Hb.
  - rewrite map_size_delete_Some; [|eexists; apply map_lookup_filter_Some; by split].
    assert (size (filter (λ kv, kv.2 = c) ws) ≠ 0); [|lia].
    intros H0%map_size_empty_inv. apply (f_equal (.!! id)) in H0.
    rewrite lookup_empty, map_lookup_filter, Hid in H0. simpl in H0.
    by case_guard.
  - rewrite delete_id; [done|]. apply map_lookup_filter_None. right. intros x Hx. by simplify_eq.
Qed.
