(* ===== verification/QueueSpec.v ===== *)
(** * Correctness of the bounded queue

    Items leave in the order they came, the queue never exceeds its capacity,
    and no task sleeps while it could proceed but for the calls that are dropped
    between their wakeup and the lock: each of them can lose a signal. *)

From S2P Require Import Prelude Queue.

Section wakers.
Context (values : gmap nat bool → list nat).
(** Iterating a map visits its keys. *)
Context (Hvalues : ∀ ws id, id ∈ values ws ↔ is_Some (ws !! id)).

Lemma wake_loop_find ids ws :
  Wakers.wake_loop true ids ws =
  match find_first (λ id, bool_decide (ws !! id = Some true)) ids with
  | Some id => <[id := false]> ws
  | None => ws
  end.
Proof.
  induction ids as [|id ids IH]; simpl; [done|].
  destruct (ws !! id) as [[]|] eqn:Hid; simpl; [done|..]; by rewrite IH.
Qed.

(** A signal reaches a waiter unless there is none. *)
Lemma signal_cases w :
  (nwait (wakers w) = 0 ∧ Wakers.signal values w = w) ∨
  (∃ id, wakers w !! id = Some true ∧
    Wakers.signal values w = mkWakers (<[id := false]> (wakers w)) (next_id w)).
Proof.
  unfold Wakers.signal, Wakers.wake. rewrite wake_loop_find.
  destruct (find_first _ _) as [id|] eqn:Hf.
  - right. exists id. by apply find_first_Some in Hf as [_ ?%bool_decide_eq_true].
  - left. split; [|by destruct w]. apply map_size_empty_iff, map_empty_filter_2.
    intros id b Hid. simpl. intros ->.
    assert (id ∈ values (wakers w)) as Hin by (apply Hvalues; by eauto).
    pose proof (proj1 (find_first_None _ _) Hf id Hin) as Hb.
    by apply bool_decide_eq_false in Hb.
Qed.

Lemma flip_counts ws id :
  ws !! id = Some true →
  nwait ws = S (nwait (<[id := false]> ws)) ∧ nsig (<[id := false]> ws) = S (nsig ws).
Proof.
  intros Hid. unfold nwait, nsig. rewrite filter_insert_ne by done.
  rewrite (size_delete true true ws id Hid), (size_delete false true ws id Hid).
  rewrite decide_True, decide_False by done. rewrite <-map_filter_delete. split; [done|].
  rewrite <-insert_delete_eq, size_insert_fresh; [done|]. apply lookup_delete_eq.
Qed.

Lemma put_counts w :
  wakers w !! next_id w = None →
  nwait (wakers (Wakers.put w).2) = S (nwait (wakers w)) ∧
  nsig (wakers (Wakers.put w).2) = nsig (wakers w).
Proof.
  intros Hfresh. unfold nwait, nsig. simpl. rewrite size_insert_fresh by done.
  rewrite filter_insert_ne by done. rewrite <-map_filter_delete, delete_id by done. done.
Qed.

Lemma delete_counts w id (b : bool) :
  wakers w !! id = Some b →
  nwait (wakers w) = (if b then 1 else 0) + nwait (wakers (Wakers.delete w id)) ∧
  nsig (wakers w) = (if b then 0 else 1) + nsig (wakers (Wakers.delete w id)).
Proof.
  intros Hid. unfold nwait, nsig. simpl.
  rewrite (size_delete true b _ id Hid), (size_delete false b _ id Hid). by destruct b.
Qed.

(** The demand of the other side: with [need] units available, either nobody
    sleeps or enough tasks are awake. *)
Definition served (w : Wakers) (need awake : nat) : Prop :=
  nwait (wakers w) = 0 ∨ need ≤ nsig (wakers w) + awake.

Lemma served_signal w need awake :
  served w need awake → served (Wakers.signal values w) (S need) awake.
Proof.
  unfold served. destruct (signal_cases w) as [[H0 ->]|(id & Hid & ->)]; [by left|]. simpl.
  destruct (flip_counts _ _ Hid). lia.
Qed.

Lemma served_poll w id w' need awake :
  Wakers.poll w id = Some w' → served w need awake → served w' need (S awake).
Proof.
  unfold Wakers.poll, served. destruct (wakers w !! id) as [[]|] eqn:Hid; intros [= <-]; [|lia].
  destruct (delete_counts w id false Hid). lia.
Qed.

Lemma served_drop w id need awake :
  served w need awake → served (Wakers.drop values w id) need awake.
Proof.
  unfold Wakers.drop. destruct (wakers w !! id) as [[]|] eqn:Hid; unfold served.
  - destruct (delete_counts w id true Hid). lia.
  - destruct (delete_counts w id false Hid). intros Hs.
    change (Wakers.wake values true (Wakers.delete w id))
      with (Wakers.signal values (Wakers.delete w id)).
    destruct (signal_cases (Wakers.delete w id)) as [[H0' ->]|(id' & Hid' & ->)]; [by left|].
    destruct (flip_counts _ _ Hid'). simpl in *. lia.
  - simpl. rewrite delete_id by done. done.
Qed.

Lemma served_put w need awake :
  wakers w !! next_id w = None → need = 0 → served (Wakers.put w).2 need awake.
Proof. intros Hf ->. right. lia. Qed.

End wakers.

(** ** The invariant *)

Section queue.
Context {A : Type}.
Context (values : gmap nat bool → list nat).
Context (Hvalues : ∀ ws id, id ∈ values ws ↔ is_Some (ws !! id)).
Context (capacity : nat).

Abbreviation step := (step values capacity).

Definition holds (p : pc A) : bool :=
  match p with PushHold _ _ | RecvHold _ => true | _ => false end.

(** Calls that took a signal and were dropped before they had the lock. *)
Definition recv_dropped (p : pc A) : bool :=
  match p with RecvDropped => true | _ => false end.
Definition push_dropped (p : pc A) : bool :=
  match p with PushDropped => true | _ => false end.

(** Tasks that took a signal and have not acted on it. *)
Definition recv_awake (p : pc A) : bool :=
  match p with RecvLock w | RecvHold w => w | RecvDropped => true | _ => false end.
Definition push_awake (p : pc A) : bool :=
  match p with PushLock _ w | PushHold _ w => w | PushDropped => true | _ => false end.

Definition recv_waits (p : pc A) (id : nat) : Prop := p = RecvWait id.
Definition push_waits (p : pc A) (id : nat) : Prop := ∃ x, p = PushWait x id.

(** Every registered waiter is a waiting task, with an id handed out before. *)
Definition registered (waits : pc A → nat → Prop) (w : Wakers) (ts : list (pc A)) : Prop :=
  ∀ id b, wakers w !! id = Some b → id < next_id w ∧ ∃ i p, ts !! i = Some p ∧ waits p id.

Record inv (q : queue A) : Prop := {
  inv_lock i p : tasks q !! i = Some p → holds p = true → lock q = Some i;
  inv_holder i : lock q = Some i → ∃ p, tasks q !! i = Some p ∧ holds p = true;
  inv_not_empty : registered recv_waits (not_empty q) (tasks q);
  inv_not_full : registered push_waits (not_full q) (tasks q);
  inv_recv : served (not_empty q) (length (items q)) (countb recv_awake (tasks q));
  inv_push : served (not_full q) (capacity - length (items q)) (countb push_awake (tasks q));
  inv_bound : length (items q) ≤ capacity;
  inv_fifo : pushed q = received q ++ items q;
}.

(** The lock after a task has taken, kept or left it. *)
Lemma lock_released q i p p' :
  inv q → tasks q !! i = Some p → holds p = true → holds p' = false →
  (∀ j r, <[i := p']> (tasks q) !! j = Some r → holds r = true → None = Some j).
Proof.
  intros [Hl _ _ _ _ _ _ _] Hi Hp Hp' j r Hj Hr.
  apply list_lookup_insert_Some in Hj as [(<- & <- & _)|[Hne Hj]]; [congruence|].
  pose proof (Hl _ _ Hj Hr) as H1. rewrite (Hl _ _ Hi Hp) in H1. congruence.
Qed.

Lemma lock_kept q i p p' :
  inv q → tasks q !! i = Some p → holds p = false → holds p' = false →
  (∀ j r, <[i := p']> (tasks q) !! j = Some r → holds r = true → lock q = Some j) ∧
  (∀ j, lock q = Some j → ∃ r, <[i := p']> (tasks q) !! j = Some r ∧ holds r = true).
Proof.
  intros [Hl Hh _ _ _ _ _ _] Hi Hp Hp'. split.
  - intros j r Hj Hr. apply list_lookup_insert_Some in Hj as [(<- & <- & _)|[Hne Hj]]; [congruence|eauto].
  - intros j Hj. destruct (Hh j Hj) as (r & Hr & Hrh). exists r.
    rewrite list_lookup_insert_ne; [done|]. intros ->. congruence.
Qed.

Lemma lock_taken q i p p' :
  inv q → lock q = None → tasks q !! i = Some p → holds p' = true →
  (∀ j r, <[i := p']> (tasks q) !! j = Some r → holds r = true → Some i = Some j) ∧
  (∀ j, Some i = Some j → ∃ r, <[i := p']> (tasks q) !! j = Some r ∧ holds r = true).
Proof.
  intros [Hl _ _ _ _ _ _ _] Hnone Hi Hp'. split.
  - intros j r Hj Hr. apply list_lookup_insert_Some in Hj as [(<- & <- & _)|[Hne Hj]]; [done|].
    by rewrite (Hl _ _ Hj Hr) in Hnone.
  - intros j [= <-]. exists p'. by rewrite list_lookup_insert_eq by (by eapply lookup_lt_Some).
Qed.

(** Waiters stay registered when a task moves that is not one of them. *)
Lemma registered_move waits w ts i p p' :
  registered waits w ts → ts !! i = Some p → (∀ id, ¬ waits p id) →
  registered waits w (<[i := p']> ts).
Proof.
  intros Hr Hi Hp id b Hid. destruct (Hr id b Hid) as (? & j & r & Hj & Hw). split; [done|].
  exists j, r. rewrite list_lookup_insert_ne; [done|]. intros <-. simplify_eq. by eapply Hp.
Qed.

Lemma registered_signal waits w ts :
  registered waits w ts → registered waits (Wakers.signal values w) ts.
Proof using Hvalues.
  intros Hr. destruct (signal_cases values Hvalues w) as [[_ ->]|(id & Hid & ->)]; [done|].
  intros id' b. simpl. intros [(<- & _)|[_ ?]]%lookup_insert_Some; by eapply Hr.
Qed.

Lemma registered_put waits w ts i p :
  registered waits w ts → i < length ts → (∀ r, ts !! i = Some r → ∀ id, ¬ waits r id) →
  waits p (next_id w) → registered waits (Wakers.put w).2 (<[i := p]> ts).
Proof.
  intros Hr Hi Hnot Hp id b. simpl. intros [(<- & _)|[_ Hid]]%lookup_insert_Some.
  - split; [lia|]. exists i, p. by rewrite list_lookup_insert_eq.
  - destruct (Hr id b Hid) as (? & j & r & Hj & Hw). split; [lia|]. exists j, r.
    rewrite list_lookup_insert_ne; [done|]. intros <-. by eapply Hnot.
Qed.

Lemma registered_fresh waits w ts : registered waits w ts → wakers w !! next_id w = None.
Proof.
  intros Hr. destruct (wakers w !! next_id w) as [b|] eqn:Hid; [|done].
  destruct (Hr _ _ Hid). lia.
Qed.

(** A waiter that leaves is no longer registered. *)
Lemma registered_delete waits w ts i p p' id :
  registered waits w ts → ts !! i = Some p → (∀ id', waits p id' → id' = id) →
  registered waits (Wakers.delete w id) (<[i := p']> ts).
Proof.
  intros Hr Hi Hp id' b. simpl. intros [Hne Hid]%lookup_delete_Some.
  destruct (Hr id' b Hid) as (? & j & r & Hj & Hw). split; [done|]. exists j, r.
  rewrite list_lookup_insert_ne; [done|]. intros <-. simplify_eq. by rewrite (Hp id' Hw) in Hne.
Qed.

Lemma registered_poll waits w w' ts i p p' id :
  registered waits w ts → ts !! i = Some p → (∀ id', waits p id' → id' = id) →
  Wakers.poll w id = Some w' → registered waits w' (<[i := p']> ts).
Proof.
  intros Hr Hi Hp. unfold Wakers.poll.
  destruct (wakers w !! id) as [[]|] eqn:Hid; intros [= <-]; [by eapply registered_delete|].
  intros id' b Hid'. destruct (Hr id' b Hid') as (? & j & r & Hj & Hw). split; [done|]. exists j, r.
  rewrite list_lookup_insert_ne; [done|]. intros <-. simplify_eq. rewrite (Hp id' Hw) in Hid'. congruence.
Qed.

Lemma registered_drop waits w ts i p p' id :
  registered waits w ts → ts !! i = Some p → (∀ id', waits p id' → id' = id) →
  registered waits (Wakers.drop values w id) (<[i := p']> ts).
Proof using Hvalues.
  intros Hr Hi Hp. assert (registered waits (Wakers.delete w id) (<[i := p']> ts)) as Hd
    by (by eapply registered_delete).
  unfold Wakers.drop. destruct (wakers w !! id) as [[]|]; [done| |done].
  by apply registered_signal.
Qed.

Lemma registered_app waits w ts p :
  registered waits w ts → registered waits w (ts ++ [p]).
Proof.
  intros Hr id b Hid. destruct (Hr id b Hid) as (? & j & r & Hj & Hw). split; [done|].
  exists j, r. split; [by apply lookup_app_l_Some|done].
Qed.

Lemma lock_spawn q p :
  inv q → holds p = false →
  (∀ j r, (tasks q ++ [p]) !! j = Some r → holds r = true → lock q = Some j) ∧
  (∀ j, lock q = Some j → ∃ r, (tasks q ++ [p]) !! j = Some r ∧ holds r = true).
Proof.
  intros [Hl Hh _ _ _ _ _ _] Hp. split.
  - intros j r [Hj|[_ Hj]]%lookup_app_Some Hr; [by eauto|].
    apply list_lookup_singleton_Some in Hj as [_ <-]. congruence.
  - intros j Hj. destruct (Hh j Hj) as (r & Hr & Hrh). exists r.
    split; [by apply lookup_app_l_Some|done].
Qed.

Lemma served_mono w need need' awake awake' :
  served w need awake → need' ≤ need → awake ≤ awake' → served w need' awake'.
Proof. unfold served. lia. Qed.

(** The two counts of awake tasks when the task [i] moves from [p] to [p']. *)
Ltac counts Hi :=
  match type of Hi with
  | tasks ?q !! ?i = Some ?p =>
      match goal with
      | |- context [<[i := ?p']> (tasks q)] =>
          pose proof (countb_insert recv_awake _ _ _ p' Hi);
          pose proof (countb_insert push_awake _ _ _ p' Hi)
      end
  end; simpl in *.

Lemma inv_spawn q p :
  inv q → (p = RecvLock false ∨ ∃ x, p = PushLock x false) →
  inv (mkQueue (items q) (lock q) (not_empty q) (not_full q) (tasks q ++ [p])
    (pushed q) (received q)).
Proof.
  intros Hinv Hp. assert (holds p = false) as Hh by (by destruct Hp as [->|[x ->]]).
  destruct (lock_spawn q p Hinv Hh) as [Hl1 Hl2]. destruct Hinv as [_ _ Hne Hnf Hr Hpu Hb Hf].
  split; simpl; try done; try (by apply registered_app);
    (eapply served_mono; [done|done|rewrite countb_app; lia]).
Qed.

Lemma inv_push_acquire q i x w :
  inv q → lock q = None → tasks q !! i = Some (PushLock x w) →
  inv (mkQueue (items q) (Some i) (not_empty q) (not_full q) (<[i := PushHold x w]> (tasks q))
    (pushed q) (received q)).
Proof.
  intros Hinv Hlock Hi. counts Hi. destruct (lock_taken q i _ (PushHold x w) Hinv Hlock Hi) as [Hl1 Hl2];
    [done|]. destruct Hinv as [_ _ Hne Hnf Hr Hpu Hb Hf].
  split; simpl; try done;
    try (eapply registered_move; [done|done|]; first [by intros ? [=]|by intros ? []]);
    (eapply served_mono; [done|done|lia]).
Qed.

Lemma inv_recv_acquire q i w :
  inv q → lock q = None → tasks q !! i = Some (RecvLock w) →
  inv (mkQueue (items q) (Some i) (not_empty q) (not_full q) (<[i := RecvHold w]> (tasks q))
    (pushed q) (received q)).
Proof.
  intros Hinv Hlock Hi. counts Hi. destruct (lock_taken q i _ (RecvHold w) Hinv Hlock Hi) as [Hl1 Hl2];
    [done|]. destruct Hinv as [_ _ Hne Hnf Hr Hpu Hb Hf].
  split; simpl; try done;
    try (eapply registered_move; [done|done|]; first [by intros ? [=]|by intros ? []]);
    (eapply served_mono; [done|done|lia]).
Qed.

Lemma inv_push_full q i x w :
  inv q → tasks q !! i = Some (PushHold x w) → capacity ≤ length (items q) →
  inv (mkQueue (items q) None (not_empty q) (Wakers.put (not_full q)).2
    (<[i := PushWait x (next_id (not_full q))]> (tasks q)) (pushed q) (received q)).
Proof.
  intros Hinv Hi Hfull. counts Hi.
  pose proof (lock_released q i _ (PushWait x (next_id (not_full q))) Hinv Hi eq_refl eq_refl) as Hl1.
  destruct Hinv as [_ _ Hne Hnf Hr Hpu Hb Hf]. split; simpl; try done.
  - eapply registered_move; [done|done|]. by intros ? [=].
  - apply registered_put; [done|by eapply lookup_lt_Some| |by eexists].
    intros r Hr' id [y ->]. congruence.
  - eapply served_mono; [done|done|destruct w; lia].
  - apply served_put; [by eapply registered_fresh|destruct w; lia].
Qed.

Lemma inv_recv_empty q i w :
  inv q → tasks q !! i = Some (RecvHold w) → items q = [] →
  inv (mkQueue (items q) None (Wakers.put (not_empty q)).2 (not_full q)
    (<[i := RecvWait (next_id (not_empty q))]> (tasks q)) (pushed q) (received q)).
Proof.
  intros Hinv Hi Hempty. counts Hi.
  pose proof (lock_released q i _ (RecvWait (next_id (not_empty q))) Hinv Hi eq_refl eq_refl) as Hl1.
  destruct Hinv as [_ _ Hne Hnf Hr Hpu Hb Hf]. split; simpl; try done.
  - apply registered_put; [done|by eapply lookup_lt_Some| |done].
    intros r Hr' id ->. congruence.
  - eapply registered_move; [done|done|]. by intros ? [].
  - apply served_put; [by eapply registered_fresh|by rewrite Hempty].
  - eapply served_mono; [done|done|destruct w; lia].
Qed.

Lemma inv_push_item q i x w :
  inv q → tasks q !! i = Some (PushHold x w) → length (items q) < capacity →
  inv (mkQueue (items q ++ [x]) None (Wakers.signal values (not_empty q)) (not_full q)
    (<[i := Finished]> (tasks q)) (pushed q ++ [x]) (received q)).
Proof using Hvalues.
  intros Hinv Hi Hroom. counts Hi.
  pose proof (lock_released q i _ Finished Hinv Hi eq_refl eq_refl) as Hl1.
  destruct Hinv as [_ _ Hne Hnf Hr Hpu Hb Hf]. split; simpl; try done; rewrite ?length_app; simpl.
  - apply registered_signal. eapply registered_move; [done|done|]. by intros ? [=].
  - eapply registered_move; [done|done|]. by intros ? [].
  - eapply served_mono; [by apply served_signal|lia|destruct w; lia].
  - unfold served in *. destruct w; lia.
  - lia.
  - by rewrite Hf, app_assoc.
Qed.

Lemma inv_recv_item q i w x rest :
  inv q → tasks q !! i = Some (RecvHold w) → items q = x :: rest →
  inv (mkQueue rest None (not_empty q) (Wakers.signal values (not_full q))
    (<[i := Finished]> (tasks q)) (pushed q) (received q ++ [x])).
Proof using Hvalues.
  intros Hinv Hi Hitems. counts Hi.
  pose proof (lock_released q i _ Finished Hinv Hi eq_refl eq_refl) as Hl1.
  destruct Hinv as [_ _ Hne Hnf Hr Hpu Hb Hf]. rewrite Hitems in *. simpl in *.
  split; simpl; try done.
  - eapply registered_move; [done|done|]. by intros ? [=].
  - apply registered_signal. eapply registered_move; [done|done|]. by intros ? [].
  - unfold served in *. destruct w; lia.
  - eapply served_mono; [by apply served_signal|lia|destruct w; lia].
  - lia.
  - by rewrite Hf, <-app_assoc.
Qed.

Lemma inv_push_woken q i x id nf :
  inv q → tasks q !! i = Some (PushWait x id) → Wakers.poll (not_full q) id = Some nf →
  inv (mkQueue (items q) (lock q) (not_empty q) nf (<[i := PushLock x true]> (tasks q))
    (pushed q) (received q)).
Proof.
  intros Hinv Hi Hpoll. counts Hi.
  destruct (lock_kept q i _ (PushLock x true) Hinv Hi eq_refl eq_refl) as [Hl1 Hl2].
  destruct Hinv as [_ _ Hne Hnf Hr Hpu Hb Hf]. split; simpl; try done.
  - eapply registered_move; [done|done|]. by intros ? [=].
  - eapply registered_poll; [done|done| |done]. by intros id' [y [=]].
  - eapply served_mono; [done|done|lia].
  - eapply served_mono; [by eapply served_poll|done|lia].
Qed.

Lemma inv_recv_woken q i id ne :
  inv q → tasks q !! i = Some (RecvWait id) → Wakers.poll (not_empty q) id = Some ne →
  inv (mkQueue (items q) (lock q) ne (not_full q) (<[i := RecvLock true]> (tasks q))
    (pushed q) (received q)).
Proof.
  intros Hinv Hi Hpoll. counts Hi.
  destruct (lock_kept q i _ (RecvLock true) Hinv Hi eq_refl eq_refl) as [Hl1 Hl2].
  destruct Hinv as [_ _ Hne Hnf Hr Hpu Hb Hf]. split; simpl; try done.
  - eapply registered_poll; [done|done| |done]. by intros id' [=].
  - eapply registered_move; [done|done|]. by intros ? [].
  - eapply served_mono; [by eapply served_poll|done|lia].
  - eapply served_mono; [done|done|lia].
Qed.

Lemma inv_push_cancel q i x id :
  inv q → tasks q !! i = Some (PushWait x id) →
  inv (mkQueue (items q) (lock q) (not_empty q) (Wakers.drop values (not_full q) id)
    (<[i := Finished]> (tasks q)) (pushed q) (received q)).
Proof using Hvalues.
  intros Hinv Hi. counts Hi.
  destruct (lock_kept q i _ Finished Hinv Hi eq_refl eq_refl) as [Hl1 Hl2].
  destruct Hinv as [_ _ Hne Hnf Hr Hpu Hb Hf]. split; simpl; try done.
  - eapply registered_move; [done|done|]. by intros ? [=].
  - eapply registered_drop; [done|done|]. by intros id' [y [=]].
  - eapply served_mono; [done|done|lia].
  - eapply served_mono; [by apply served_drop|done|lia].
Qed.

Lemma inv_recv_cancel q i id :
  inv q → tasks q !! i = Some (RecvWait id) →
  inv (mkQueue (items q) (lock q) (Wakers.drop values (not_empty q) id) (not_full q)
    (<[i := Finished]> (tasks q)) (pushed q) (received q)).
Proof using Hvalues.
  intros Hinv Hi. counts Hi.
  destruct (lock_kept q i _ Finished Hinv Hi eq_refl eq_refl) as [Hl1 Hl2].
  destruct Hinv as [_ _ Hne Hnf Hr Hpu Hb Hf]. split; simpl; try done.
  - eapply registered_drop; [done|done|]. by intros id' [=].
  - eapply registered_move; [done|done|]. by intros ? [].
  - eapply served_mono; [by apply served_drop|done|lia].
  - eapply served_mono; [done|done|lia].
Qed.

(** A call dropped while it waits for the lock. *)
Lemma inv_cancel_lock q q' : cancel_lock q q' → inv q → inv q'.
Proof.
  intros [q0 i x w Hi|q0 i w Hi] Hinv; counts Hi.
  - destruct (lock_kept q0 i _ (if w then PushDropped else Finished) Hinv Hi eq_refl) as [Hl1 Hl2];
      [by destruct w|]. destruct Hinv as [_ _ Hne Hnf Hr Hpu Hb Hf].
    split; simpl; try done;
      try (eapply registered_move; [done|done|]; first [by intros ? [=]|by intros ? []]);
      (eapply served_mono; [done|done|destruct w; simpl in *; lia]).
  - destruct (lock_kept q0 i _ (if w then RecvDropped else Finished) Hinv Hi eq_refl) as [Hl1 Hl2];
      [by destruct w|]. destruct Hinv as [_ _ Hne Hnf Hr Hpu Hb Hf].
    split; simpl; try done;
      try (eapply registered_move; [done|done|]; first [by intros ? [=]|by intros ? []]);
      (eapply served_mono; [done|done|destruct w; simpl in *; lia]).
Qed.

Lemma queue_step_inv q q' : step q q' → inv q → inv q'.
Proof using Hvalues.
  intros Hstep Hinv. destruct Hstep.
  - apply inv_spawn; eauto.
  - apply inv_spawn; eauto.
  - by apply inv_push_acquire.
  - unfold Wakers.put in *. simplify_eq. by eapply inv_push_full.
  - by eapply inv_push_item.
  - by eapply inv_push_woken.
  - by apply inv_recv_acquire.
  - unfold Wakers.put in *. simplify_eq. by eapply inv_recv_empty.
  - by eapply inv_recv_item.
  - by eapply inv_recv_woken.
  - by eapply inv_push_cancel.
  - by eapply inv_recv_cancel.
Qed.

(** One step of the tasks, dropped futures included. *)
Definition any_step (q q' : queue A) : Prop := step q q' ∨ cancel_lock q q'.

Lemma queue_reachable_inv q0 q : queue_new capacity = Some q0 → rtc any_step q0 q → inv q.
Proof using Hvalues.
  unfold queue_new. case_match; [|done]. intros [= <-] Hrtc.
  assert (inv (mkQueue [] None Wakers.new Wakers.new [] [] [])) as Hnew.
  { split; simpl; try done; try lia; by left. }
  revert Hnew. induction Hrtc as [|q1 q2 q3 [Hs|Hs]]; eauto using queue_step_inv, inv_cancel_lock.
Qed.

(** A step is invisible, or is one operation of the atomic queue. *)
Lemma step_simulation q q' :
  any_step q q' →
  (items q' = items q ∧ pushed q' = pushed q ∧ received q' = received q) ∨
  ∃ op, atomic_step capacity (items q) op (items q') ∧
    pushed q' = pushed q ++ pushes [op] ∧ received q' = received q ++ receives [op].
Proof.
  intros [Hstep|Hcancel]; [destruct Hstep|destruct Hcancel]; try (by left); right; simpl.
  - exists (OpPush x). by rewrite app_nil_r; repeat constructor.
  - exists (OpRecv x). rewrite app_nil_r. split_and!; [|done..].
    match goal with H : items q = _ |- _ => rewrite H end. constructor.
Qed.

(** C9: The queue implements an atomic bounded queue: whatever the interleaving
    of its tasks, and wherever waiting calls are dropped, there is a sequence of
    atomic pushes and receives that ends with the same items, in which exactly
    the pushed items are pushed and the received items received, in the same
    orders.  So it never holds more than its capacity and is first-in
    first-out. *)
Theorem queue_refines_atomic (q0 q : queue A) :
  queue_new capacity = Some q0 → rtc any_step q0 q →
  (∃ ops, atomic_run capacity [] ops (items q) ∧
    pushed q = pushes ops ∧ received q = receives ops) ∧
  length (items q) ≤ capacity ∧ pushed q = received q ++ items q.
Proof.
  unfold queue_new. case_match; [|done]. intros [= <-] Hrtc.
  assert (∃ ops, atomic_run capacity [] ops (items q) ∧
    pushed q = pushes ops ∧ received q = receives ops) as (ops & Hrun & Hp & Hr).
  { revert q Hrtc. apply rtc_ind_r; [exists []; by repeat constructor|].
    intros q1 q2 _ Hstep (ops & Hrun & Hp & Hr).
    destruct (step_simulation _ _ Hstep) as [(-> & -> & ->)|(op & Hop & -> & ->)]; [by exists ops|].
    exists (ops ++ [op]). rewrite Hp, Hr. unfold pushes, receives. rewrite !omap_app.
    split_and!; [by econstructor|done..]. }
  split; [by exists ops|]. rewrite Hp, Hr. split.
  - eapply atomic_run_bound; [exact Hrun|simpl; lia].
  - exact (atomic_run_fifo _ _ _ _ Hrun).
Qed.

(** A step a task takes of its own accord: not a new call and not a drop. *)
Definition blocked (q : queue A) : Prop :=
  ∀ i p, tasks q !! i = Some p →
    match p with
    | PushLock _ _ | RecvLock _ => lock q ≠ None
    | PushHold _ _ | RecvHold _ => False
    | PushWait _ id => Wakers.poll (not_full q) id = None
    | RecvWait id => Wakers.poll (not_empty q) id = None
    | PushDropped | RecvDropped | Finished => True
    end.

Lemma blocked_no_holder q : inv q → blocked q → lock q = None.
Proof.
  intros [_ Hh _ _ _ _ _ _] Hbl. destruct (lock q) as [i|] eqn:Hl; [|done].
  destruct (Hh i eq_refl) as (p & Hp & Hhold). specialize (Hbl i p Hp). by destruct p.
Qed.

(** In a blocked system nobody is signalled. *)
Lemma blocked_no_signal waits w (ts : list (pc A)) :
  registered waits w ts →
  (∀ i p id, ts !! i = Some p → waits p id → Wakers.poll w id = None) → nsig (wakers w) = 0.
Proof.
  intros Hr Hpoll. apply map_size_empty_iff, map_empty_filter_2. intros id b Hid. simpl. intros ->.
  destruct (Hr id false Hid) as (_ & i & p & Hp & Hw). specialize (Hpoll i p id Hp Hw).
  unfold Wakers.poll in Hpoll. by rewrite Hid in Hpoll.
Qed.

Lemma poll_waiting w id : Wakers.poll w id = None → nwait (wakers w) ≠ 0.
Proof.
  unfold Wakers.poll. destruct (wakers w !! id) as [[]|] eqn:Hid; [intros _|done..].
  destruct (delete_counts w id true Hid). lia.
Qed.

(** C10: Wakeups are lost only with the calls that are dropped between their wakeup
    and the lock.  Calls may be dropped anywhere: before they have the lock for the
    first time, while they sleep, or after they were woken, while they compete for the
    lock.  When no task of the queue can go on and a receiver sleeps, the queue has
    at most as many items as receivers were dropped in the last way; when a sender
    sleeps, it has at most as much room as senders were.  So without such drops a
    receiver that sleeps sleeps on an empty queue, and a sender on a full one. *)
Theorem queue_no_lost_wakeup (q0 q : queue A) :
  queue_new capacity = Some q0 → rtc any_step q0 q → blocked q →
  (∀ i id, tasks q !! i = Some (RecvWait id) → length (items q) ≤ countb recv_dropped (tasks q)) ∧
  (∀ i x id, tasks q !! i = Some (PushWait x id) →
    capacity ≤ length (items q) + countb push_dropped (tasks q)).
Proof using Hvalues.
  intros Hnew Hrtc Hbl. pose proof (queue_reachable_inv q0 q Hnew Hrtc) as Hinv.
  pose proof (blocked_no_holder q Hinv Hbl) as Hlock. destruct Hinv as [_ _ Hne Hnf Hr Hp Hb _].
  assert (countb recv_awake (tasks q) = countb recv_dropped (tasks q) ∧
    countb push_awake (tasks q) = countb push_dropped (tasks q)) as [Hr0 Hp0].
  { split; apply countb_ext; intros p [i Hi]%list_elem_of_lookup; specialize (Hbl i p Hi); by destruct p. }
  assert (nsig (wakers (not_empty q)) = 0) as Hs1.
  { eapply blocked_no_signal; [done|]. intros i p id Hi ->. apply (Hbl i _ Hi). }
  assert (nsig (wakers (not_full q)) = 0) as Hs2.
  { eapply blocked_no_signal; [done|]. intros i p id Hi [x ->]. apply (Hbl i _ Hi). }
  unfold served in *. split.
  - intros i id Hi. pose proof (poll_waiting _ _ (Hbl i _ Hi)). lia.
  - intros i x id Hi. pose proof (poll_waiting _ _ (Hbl i _ Hi)). lia.
Qed.

End queue.

(** ** Concrete runs *)

Definition keys (ws : gmap nat bool) : list nat := (map_to_list ws).*1.

Lemma keys_spec ws id : id ∈ keys ws ↔ is_Some (ws !! id).
Proof.
  unfold keys. rewrite list_elem_of_fmap. split.
  - intros ([k b] & -> & Hk%elem_of_map_to_list). by eexists.
  - intros [b Hb]. exists (id, b). split; [done|]. by apply elem_of_map_to_list.
Qed.

Definition empty_queue : queue nat := mkQueue [] None Wakers.new Wakers.new [] [] [].

Lemma queue_refines_atomic_witness :
  ∃ q, rtc (any_step keys 2) empty_queue q ∧ items q = [7] ∧
    ∃ ops, atomic_run 2 [] ops (items q) ∧ pushed q = pushes ops ∧ received q = receives ops.
Proof.
  assert (∃ q, rtc (any_step keys 2) empty_queue q ∧ items q = [7]) as (q & Hrtc & Hitems).
  { eexists. split.
    - eapply rtc_l; [left; apply (spawn_push _ _ _ 7)|].
      eapply rtc_l; [left; apply (push_acquire _ _ _ 0 7 false); reflexivity|].
      eapply rtc_l; [left; apply (push_item _ _ _ 0 7 false); [reflexivity|vm_compute; lia]|].
      apply rtc_refl.
    - reflexivity. }
  exists q. split; [exact Hrtc|]. split; [exact Hitems|].
  exact (proj1 (queue_refines_atomic keys 2 empty_queue q eq_refl Hrtc)).
Defined.

(** Two registered receivers, the same with one of them signalled, and without
    the signalled one. *)
Definition two_asleep : Wakers := (Wakers.put (Wakers.put Wakers.new).2).2.
Definition one_signalled : Wakers := Wakers.signal keys two_asleep.
Definition one_left : Wakers := Wakers.delete one_signalled 1.

Lemma one_signalled_poll : Wakers.poll one_signalled 1 = Some one_left.
Proof. vm_compute. reflexivity. Qed.

Lemma one_left_poll : Wakers.poll one_left 0 = None.
Proof. vm_compute. reflexivity. Qed.

#[local] Opaque two_asleep one_signalled one_left.

(** Two receivers sleep, one item is pushed and signals one of them, that one is
    dropped before it has the lock. *)
Definition signal_lost : queue nat :=
  mkQueue [7] None one_left Wakers.new [RecvWait 0; RecvDropped; Finished] [7] [].

Lemma signal_lost_reachable : rtc (any_step keys 2) empty_queue signal_lost.
Proof.
  eapply rtc_l; [left; apply spawn_recv|]; simpl.
  eapply rtc_l; [left; by apply (recv_acquire _ _ _ 0 false)|]; simpl.
  eapply rtc_l; [left; by apply (recv_empty _ _ _ 0 false 0 (Wakers.put Wakers.new).2)|]; simpl.
  eapply rtc_l; [left; apply spawn_recv|]; simpl.
  eapply rtc_l; [left; by apply (recv_acquire _ _ _ 1 false)|]; simpl.
  eapply rtc_l; [left; by apply (recv_empty _ _ _ 1 false 1 two_asleep)|]; simpl.
  eapply rtc_l; [left; apply (spawn_push _ _ _ 7)|]; simpl.
  eapply rtc_l; [left; by apply (push_acquire _ _ _ 2 7 false)|]; simpl.
  eapply rtc_l; [left; apply (push_item _ _ _ 2 7 false); [done|simpl; lia]|].
  cbn [items lock not_empty not_full tasks pushed received app].
  change (Wakers.signal keys two_asleep) with one_signalled.
  eapply rtc_l; [left; apply (recv_woken _ _ _ 1 1 one_left); [done|apply one_signalled_poll]|]; simpl.
  eapply rtc_l; [right; by apply (cancel_recv_lock _ 1 true)|]. apply rtc_refl.
Qed.

Lemma signal_lost_blocked : blocked signal_lost.
Proof. intros [|[|[|j]]] p; simpl; intros [= <-]; [|done..]. apply one_left_poll. Qed.

Lemma queue_no_lost_wakeup_witness :
  rtc (any_step keys 2) empty_queue signal_lost ∧ blocked signal_lost ∧
  items signal_lost = [7] ∧ length (items signal_lost) ≤ countb recv_dropped (tasks signal_lost).
Proof.
  split; [exact signal_lost_reachable|]. split; [exact signal_lost_blocked|]. split; [reflexivity|].
  exact (proj1 (queue_no_lost_wakeup keys keys_spec 2 empty_queue signal_lost eq_refl
    signal_lost_reachable signal_lost_blocked) 0 0 eq_refl).
Defined.

(** Dropping a call that was woken and waits for the lock can lose its signal.  The
    condition variable passes the signal of a dropped waiter on, but not once
    the waiter was polled and competes for the lock: the queue has an item, nobody
    can go on, and a receiver sleeps. *)
Theorem queue_drop_loses_signal :
  ∃ q i id, rtc (any_step keys 2) empty_queue q ∧ blocked q ∧
    items q ≠ [] ∧ tasks q !! i = Some (RecvWait id).
Proof.
  exists signal_lost, 0, 0. split_and!; [apply signal_lost_reachable|apply signal_lost_blocked|done|done].
Qed.
