(* ===== verification/CondWait.v ===== *)
(** * Wait conditions

    Models [core/src/async_util/condwait.rs] over the condition variable of
    [Queue].  The lock protects a boolean and is never held across an await, so
    a critical section is one step; the wake that follows it in [signal] and
    [broadcast] is a step of its own, taken without the lock.  A dropped future
    leaves the system by a step of its own, and [reset] may come at any time. *)

From S2P Require Import Prelude Queue QueueSpec.

Section condwait.
Context (values : gmap nat bool → list nat).

(** Where a call is.  A call of [signal] or [broadcast] (which of them is the
    argument) first sets the flag, then wakes. *)
Inductive call :=
| WaitStart
| WaitAsleep (id : nat)
| WaitReturned
| SignalStart (broadcast : bool)
| SignalWake (broadcast : bool)
| SignalReturned (broadcast : bool)
| Dropped.

Record condwait := mkCondWait { condvar : Wakers; flag : bool; calls : list call }.

Definition condwait_new : condwait := mkCondWait Wakers.new false [].

(** [wait] with the lock held: it returns, or registers and releases the lock. *)
Definition wait_check (c : condwait) : call * Wakers :=
  if flag c then (WaitReturned, condvar c)
  else let '(id, w) := Wakers.put (condvar c) in (WaitAsleep id, w).

Definition wake_all (broadcast : bool) (w : Wakers) : Wakers :=
  if broadcast then Wakers.broadcast values w else Wakers.signal values w.

Definition reset (c : condwait) : condwait := mkCondWait (condvar c) false (calls c).

Inductive call_step : condwait → condwait → Prop :=
| call_wait c : call_step c (mkCondWait (condvar c) (flag c) (calls c ++ [WaitStart]))
| call_signal c b : call_step c (mkCondWait (condvar c) (flag c) (calls c ++ [SignalStart b]))
| wait_lock c i p w :
    calls c !! i = Some WaitStart → wait_check c = (p, w) →
    call_step c (mkCondWait w (flag c) (<[i := p]> (calls c)))
| wait_woken c i id w :
    calls c !! i = Some (WaitAsleep id) → Wakers.poll (condvar c) id = Some w →
    call_step c (mkCondWait w (flag c) (<[i := WaitStart]> (calls c)))
| signal_set c i b :
    calls c !! i = Some (SignalStart b) →
    call_step c (mkCondWait (condvar c) true (<[i := SignalWake b]> (calls c)))
| signal_wake c i b :
    calls c !! i = Some (SignalWake b) →
    call_step c (mkCondWait (wake_all b (condvar c)) (flag c) (<[i := SignalReturned b]> (calls c)))
| wait_drop c i :
    calls c !! i = Some WaitStart →
    call_step c (mkCondWait (condvar c) (flag c) (<[i := Dropped]> (calls c)))
| wait_drop_asleep c i id :
    calls c !! i = Some (WaitAsleep id) →
    call_step c (mkCondWait (Wakers.drop values (condvar c) id) (flag c) (<[i := Dropped]> (calls c)))
| call_reset c : call_step c (reset c).

End condwait.

(** ** Theorems *)

Section theorems.
Context (values : gmap nat bool → list nat).
Context (Hvalues : ∀ ws id, id ∈ values ws ↔ is_Some (ws !! id)).

Abbreviation call_step := (call_step values).

Definition is_wait (p : call) : bool :=
  match p with WaitStart | WaitAsleep _ | WaitReturned | Dropped => true | _ => false end.
Definition is_signal (p : call) : bool :=
  match p with SignalStart false | SignalWake false | SignalReturned false => true | _ => false end.
Definition asleep_id (p : call) : option nat :=
  match p with WaitAsleep id => Some id | _ => None end.

(** At most one call of [wait] was ever made, or none of [signal] (but of
    [broadcast]). *)
Definition disciplined (c : condwait) : Prop :=
  countb is_wait (calls c) ≤ 1 ∨ countb is_signal (calls c) = 0.

(** While the flag is set a waiter sleeps only as long as a wake is on its
    way. *)
Definition served_flag (c : condwait) : Prop :=
  flag c = true → nwait (wakers (condvar c)) = 0 ∨ ∃ b, SignalWake b ∈ calls c.

Record cw_inv (c : condwait) : Prop := {
  cwi_registered id : is_Some (wakers (condvar c) !! id) → ∃ i, calls c !! i = Some (WaitAsleep id);
  cwi_fresh id : is_Some (wakers (condvar c) !! id) → id < next_id (condvar c);
  cwi_served : disciplined c → served_flag c;
}.

Lemma disciplined_step c c' : call_step c c' → disciplined c' → disciplined c.
Proof.
  unfold disciplined. intros Hs.
  assert (countb is_wait (calls c) ≤ countb is_wait (calls c') ∧
    countb is_signal (calls c) ≤ countb is_signal (calls c')) as [? ?]; [|lia].
  destruct Hs as [c|c b|c i p w Hi Hw|c i id w Hi Hw|c i b Hi|c i b Hi|c i Hi|c i id Hi|c]; cbn; [| |..|done].
  1,2: rewrite !countb_app; cbn; lia.
  all: rewrite !(countb_replace _ _ _ _ _ Hi); try done; try (by destruct b).
  all: unfold wait_check in Hw; destruct (flag c); simplify_eq/=; try done; by destruct (Wakers.put _); simplify_eq.
Qed.

(** *** Wakers *)

Lemma broadcast_lookup ids ws id :
  Wakers.wake_loop false ids ws !! id =
    if decide (id ∈ ids ∧ ws !! id = Some true) then Some false else ws !! id.
Proof.
  revert ws. induction ids as [|id' ids IH]; intros ws; cbn.
  { rewrite decide_False; [done|]. by intros [?%not_elem_of_nil _]. }
  destruct (decide (id' = id)) as [->|Hne].
  - destruct (ws !! id) as [[]|] eqn:Hid; rewrite IH.
    + rewrite lookup_insert_eq, decide_False, decide_True by (naive_solver || set_solver). done.
    + rewrite !decide_False by naive_solver. by rewrite Hid.
    + rewrite !decide_False by naive_solver. by rewrite Hid.
  - destruct (ws !! id') as [[]|] eqn:Hid; rewrite IH; rewrite ?lookup_insert_ne by done;
      apply decide_ext; set_solver.
Qed.

Lemma wake_all_registered b w id :
  is_Some (wakers (wake_all values b w) !! id) ↔ is_Some (wakers w !! id).
Proof using Hvalues.
  destruct b.
  - cbn. rewrite broadcast_lookup. case_decide as Hd; [|done]. destruct Hd as [_ ->]. split; by eauto.
  - change (wake_all values false w) with (Wakers.signal values w).
    destruct (signal_cases values Hvalues w) as [[_ ->]|(id' & Hid' & ->)]; [done|]. cbn.
    destruct (decide (id' = id)) as [->|]; [|by rewrite lookup_insert_ne].
    rewrite lookup_insert_eq, Hid'. split; by eauto.
Qed.

Lemma wake_all_next b w : next_id (wake_all values b w) = next_id w.
Proof. by destruct b. Qed.

Lemma nwait_zero ws : nwait ws = 0 ↔ ∀ id, ws !! id ≠ Some true.
Proof.
  unfold nwait. rewrite map_size_empty_iff, map_empty_filter. split.
  - intros H id Hid. by apply (H id true Hid).
  - intros H id b Hid. cbn. intros ->. by apply (H id).
Qed.

Lemma broadcast_nwait w : nwait (wakers (wake_all values true w)) = 0.
Proof using Hvalues.
  apply nwait_zero. intros id. cbn. rewrite broadcast_lookup. case_decide as Hd; [done|].
  intros Hid. apply Hd. split; [|done]. apply Hvalues. by eauto.
Qed.

Lemma nwait_mono ws ws' :
  (∀ id, ws' !! id = Some true → ws !! id = Some true) → nwait ws = 0 → nwait ws' = 0.
Proof. rewrite !nwait_zero. naive_solver. Qed.

Lemma signal_true w id :
  wakers (Wakers.signal values w) !! id = Some true → wakers w !! id = Some true.
Proof using Hvalues.
  destruct (signal_cases values Hvalues w) as [[_ ->]|(id' & Hid' & ->)]; [done|]. cbn.
  destruct (decide (id' = id)) as [->|]; [by rewrite lookup_insert_eq|by rewrite lookup_insert_ne].
Qed.

(** One registered waiter at most: a signal reaches it. *)
Lemma signal_one w :
  nwait (wakers w) ≤ 1 → nwait (wakers (wake_all values false w)) = 0.
Proof using Hvalues.
  intros H1. change (wake_all values false w) with (Wakers.signal values w).
  destruct (signal_cases values Hvalues w) as [[H0 ->]|(id & Hid & ->)]; [done|].
  destruct (flip_counts _ _ Hid). cbn. lia.
Qed.

Lemma drop_cases w id id' :
  (is_Some (wakers (Wakers.drop values w id) !! id') → id' ≠ id ∧ is_Some (wakers w !! id')) ∧
  (wakers (Wakers.drop values w id) !! id' = Some true → wakers w !! id' = Some true) ∧
  next_id (Wakers.drop values w id) = next_id w.
Proof using Hvalues.
  assert (∀ b, wakers (Wakers.delete w id) !! id' = Some b → id' ≠ id ∧ wakers w !! id' = Some b) as Hdel.
  { intros b. cbn. intros [? ?]%lookup_delete_Some. done. }
  assert (is_Some (wakers (Wakers.delete w id) !! id') → id' ≠ id ∧ is_Some (wakers w !! id')) as Hdel'.
  { intros [b Hb%Hdel]. naive_solver. }
  unfold Wakers.drop. destruct (wakers w !! id) as [[]|] eqn:Hid; cbn [next_id Wakers.delete].
  - split_and!; [done| |done]. by intros [_ ?]%Hdel.
  - change (Wakers.wake values true (Wakers.delete w id)) with (wake_all values false (Wakers.delete w id)).
    rewrite wake_all_registered, wake_all_next. split_and!; [done| |done].
    intros Ht%signal_true. by apply Hdel in Ht as [_ ?].
  - split_and!; [done| |done]. by intros [_ ?]%Hdel.
Qed.

Lemma poll_cases w id w' id' :
  Wakers.poll w id = Some w' →
  (is_Some (wakers w' !! id') → id' ≠ id ∧ is_Some (wakers w !! id')) ∧
  (wakers w' !! id' = Some true → wakers w !! id' = Some true) ∧ next_id w' = next_id w.
Proof.
  unfold Wakers.poll. destruct (wakers w !! id) as [[]|] eqn:Hid; intros [= <-].
  - cbn. rewrite lookup_delete_is_Some, lookup_delete_Some. naive_solver.
  - split_and!; [|done..]. intros Hs. split; [|done]. intros ->. rewrite Hid in Hs. by destruct Hs.
Qed.

(** *** The invariant *)

(** Each registered waiter is a call of [wait]. *)
Lemma nwait_calls c : cw_inv c → nwait (wakers (condvar c)) ≤ countb is_wait (calls c).
Proof.
  intros Hinv. set (k := omap asleep_id (calls c)).
  assert (length k ≤ countb is_wait (calls c)).
  { unfold k. induction (calls c) as [|p l IH]; [done|]. unfold omap in IH. destruct p; simpl in *; lia. }
  set (ks := (map_to_list (filter (λ kv, kv.2 = true) (wakers (condvar c)))).*1).
  assert (ks ⊆+ k) as Hsub%submseteq_length.
  { apply NoDup_submseteq; [apply NoDup_fst_map_to_list|].
    intros id ([i b] & -> & Hin)%list_elem_of_fmap. apply elem_of_map_to_list in Hin.
    apply map_lookup_filter_Some in Hin as [Hin _].
    destruct (cwi_registered c Hinv i) as [j Hj]; [by eauto|].
    apply list_elem_of_omap. eexists. split; [by eapply list_elem_of_lookup_2|done]. }
  unfold ks in Hsub. rewrite length_fmap, length_map_to_list in Hsub. unfold nwait. lia.
Qed.

(** A call moves on and nobody else's registration changes. *)
Lemma registered_elsewhere (c : condwait) w i p0 p :
  calls c !! i = Some p0 →
  (∀ id, is_Some (wakers w !! id) → p0 ≠ WaitAsleep id ∧ is_Some (wakers (condvar c) !! id)) →
  cw_inv c → ∀ id, is_Some (wakers w !! id) → ∃ j, <[i := p]> (calls c) !! j = Some (WaitAsleep id).
Proof.
  intros Hi Hw Hinv id Hid. destruct (Hw id Hid) as [Hne Hid'].
  destruct (cwi_registered c Hinv id Hid') as [j Hj]. exists j.
  rewrite list_lookup_insert_ne; [done|]. intros ->. congruence.
Qed.

Lemma elem_insert_keep {A} (l : list A) i x y z :
  l !! i = Some x → z ∈ l → z ≠ x → z ∈ <[i := y]> l.
Proof.
  intros Hi (j & Hj)%list_elem_of_lookup_1 Hne. apply (list_elem_of_lookup_2 _ j).
  rewrite list_lookup_insert_ne; [done|]. intros ->. congruence.
Qed.

(** A call that does not wake anybody keeps [served_flag]. *)
Lemma served_move c w i p0 p :
  calls c !! i = Some p0 → (∀ b, p0 ≠ SignalWake b) →
  (∀ id, wakers w !! id = Some true → wakers (condvar c) !! id = Some true) →
  served_flag c → served_flag (mkCondWait w (flag c) (<[i := p]> (calls c))).
Proof.
  intros Hi Hp Hw Hs Hf. cbn in *. destruct (Hs Hf) as [H0|[b Hb]].
  - left. by eapply nwait_mono.
  - right. exists b. by eapply elem_insert_keep.
Qed.

Lemma inv_wait_lock c i p w :
  calls c !! i = Some WaitStart → wait_check c = (p, w) → cw_inv c →
  (disciplined (mkCondWait w (flag c) (<[i := p]> (calls c))) → disciplined c) →
  cw_inv (mkCondWait w (flag c) (<[i := p]> (calls c))).
Proof.
  intros Hi Hw Hinv Hd. pose proof Hinv as [Hr Hf Hs]. unfold wait_check in Hw.
  destruct (flag c) eqn:Hfl; simplify_eq/=.
  - split; cbn.
    + apply (registered_elsewhere c _ i WaitStart); [done| |done]. by intros id.
    + done.
    + intros ?%Hd%Hs. rewrite <-Hfl. by eapply served_move.
  - split; cbn; [| |done].
    + intros id Hid. destruct (decide (id = next_id (condvar c))) as [->|].
      * exists i. by apply list_lookup_insert_eq, (lookup_lt_Some _ _ WaitStart).
      * rewrite lookup_insert_ne in Hid by done. destruct (Hr id Hid) as [j Hj]. exists j.
        rewrite list_lookup_insert_ne; [done|]. intros ->. congruence.
    + intros id. destruct (decide (id = next_id (condvar c))) as [->|]; [lia|].
      rewrite lookup_insert_ne by done. intros Hid%Hf. lia.
Qed.

(** A call moves on, with a condition variable where fewer are registered and
    no one else sleeps. *)
Lemma cw_inv_move c w i p0 p :
  calls c !! i = Some p0 → (∀ b, p0 ≠ SignalWake b) → cw_inv c →
  (∀ id, (is_Some (wakers w !! id) → p0 ≠ WaitAsleep id ∧ is_Some (wakers (condvar c) !! id)) ∧
    (wakers w !! id = Some true → wakers (condvar c) !! id = Some true) ∧ next_id w = next_id (condvar c)) →
  (disciplined (mkCondWait w (flag c) (<[i := p]> (calls c))) → disciplined c) →
  cw_inv (mkCondWait w (flag c) (<[i := p]> (calls c))).
Proof.
  intros Hi Hp0 Hinv Hw Hd. pose proof Hinv as [Hr Hf Hs]. split; cbn.
  - eapply registered_elsewhere; [done| |done]. intros id. by apply Hw.
  - intros id Hid. destruct (Hw id) as (Hid' & _ & ->). by apply Hf, Hid'.
  - intros ?%Hd%Hs. eapply served_move; [done..| |done]. intros id. by apply Hw.
Qed.

Lemma inv_signal_wake c i b :
  calls c !! i = Some (SignalWake b) → cw_inv c → disciplined c →
  nwait (wakers (wake_all values b (condvar c))) = 0.
Proof using Hvalues.
  intros Hi Hinv Hd. destruct b; [apply broadcast_nwait|]. apply signal_one.
  destruct Hd as [Hd|Hd]; [etrans; [by apply nwait_calls|done]|].
  pose proof (proj1 (countb_zero _ _) Hd (SignalWake false)) as Hz.
  discriminate Hz. by eapply list_elem_of_lookup_2.
Qed.

Lemma call_step_inv c c' : call_step c c' → cw_inv c → cw_inv c'.
Proof using Hvalues.
  intros Hstep Hinv. pose proof (disciplined_step c c' Hstep) as Hd. pose proof Hinv as [Hr Hf Hs].
  destruct Hstep as [c|c b|c i p w Hi Hw|c i id w Hi Hw|c i b Hi|c i b Hi|c i Hi|c i id Hi|c].
  1,2: split; cbn; [intros id Hid; destruct (Hr id Hid) as [j Hj]; exists j;
    rewrite lookup_app_l by (by eapply lookup_lt_Some); done
    |done
    |intros Hc Hfl; destruct (Hs (Hd Hc) Hfl) as [?|[b' ?]]; [by left|right; exists b'; set_solver]].
  - by apply inv_wait_lock.
  - eapply cw_inv_move; [done..| |done]. intros id'. destruct (poll_cases _ _ _ id' Hw) as (Ha & Hb & Hc).
    split_and!; [|done..]. intros [? ?]%Ha. split; [congruence|done].
  - split; cbn; [|done|].
    + by eapply registered_elsewhere.
    + intros _ _. right. exists b. eapply (list_elem_of_lookup_2 _ i).
      by apply list_lookup_insert_eq, (lookup_lt_Some _ _ (SignalStart b)).
  - split; cbn.
    + eapply registered_elsewhere; [done| |done]. intros id. by rewrite wake_all_registered.
    + intros id. rewrite wake_all_registered, wake_all_next. apply Hf.
    + intros Hc _. left. by eapply inv_signal_wake; [|done|apply Hd].
  - by eapply cw_inv_move.
  - eapply cw_inv_move; [done..| |done]. intros id'. destruct (drop_cases (condvar c) id id') as (Ha & Hb & Hc).
    split_and!; [|done..]. intros [? ?]%Ha. split; [congruence|done].
  - by split.
Qed.

Lemma call_reachable_inv c : rtc call_step condwait_new c → cw_inv c.
Proof using Hvalues.
  intros Hrtc. assert (cw_inv condwait_new) as Hnew.
  { split; cbn; [by intros ? []..|done]. }
  revert Hnew. induction Hrtc; eauto using call_step_inv.
Qed.

(** No call of [signal], [broadcast] or [wait] can take a step. *)
Definition settled (c : condwait) : Prop :=
  ∀ i p, calls c !! i = Some p →
    match p with
    | WaitStart | SignalStart _ | SignalWake _ => False
    | WaitAsleep id => Wakers.poll (condvar c) id = None
    | _ => True
    end.

(** A call of [signal] or [broadcast] that has set the flag. *)
Definition has_set (p : option call) : bool :=
  match p with Some (SignalWake _ | SignalReturned _) => true | _ => false end.

(** From a state with a clear flag, somebody has set it, or it is still clear and no
    wait has returned; who had set it before still has. *)
Definition since (c c' : condwait) : Prop :=
  (∀ j, has_set (calls c !! j) = true → has_set (calls c' !! j) = true) ∧
  ((∃ j, has_set (calls c' !! j) = true ∧ has_set (calls c !! j) = false) ∨
   flag c' = false ∧ ∀ i, calls c' !! i = Some WaitReturned → calls c !! i = Some WaitReturned).

(** A call that has set the flag stays such a call. *)
Lemma has_set_step c c' j : call_step c c' → has_set (calls c !! j) = true → has_set (calls c' !! j) = true.
Proof.
  intros Hs Hj. destruct (calls c !! j) as [p|] eqn:Hc; [|done].
  assert (∀ i p0 p1, calls c !! i = Some p0 → (has_set (Some p0) = true → has_set (Some p1) = true) →
    has_set (<[i := p1]> (calls c) !! j) = true) as Hmv.
  { intros i p0 p1 Hi Hp. destruct (decide (i = j)) as [->|Hne].
    - rewrite list_lookup_insert_eq by (by eapply lookup_lt_Some). apply Hp. by simplify_eq.
    - by rewrite list_lookup_insert_ne, Hc. }
  destruct Hs; cbn; try (by eapply Hmv; [done|]); try (by rewrite Hc).
  all: by rewrite lookup_app_l, Hc by (by eapply lookup_lt_Some).
Qed.

(** Without [signal_set] the flag stays clear and no wait returns. *)
Lemma since_step c c1 c2 : since c c1 → call_step c1 c2 → since c c2.
Proof.
  intros [Hmono Hor] Hs. split; [by eauto using has_set_step|].
  destruct Hor as [(j & Hj & Hn)|[Hf Hr]]; [left; exists j; by eauto using has_set_step|].
  assert (∀ i p, p ≠ WaitReturned → ∀ k,
    <[i := p]> (calls c1) !! k = Some WaitReturned → calls c !! k = Some WaitReturned) as Hmv.
  { intros i p Hp k [(-> & -> & _)|[_ Hk]]%list_lookup_insert_Some; [done|by apply Hr]. }
  destruct Hs as [c1|c1 b|c1 i p w Hi Hw|c1 i id w Hi Hw|c1 i b Hi|c1 i b Hi|c1 i Hi|c1 i id Hi|c1]; cbn in *;
    try (by right; split; [done|apply Hmv]).
  - right. split; [done|]. by intros k [[_ ?]|[_ [=]]]%lookup_snoc_Some; apply Hr.
  - right. split; [done|]. by intros k [[_ ?]|[_ [=]]]%lookup_snoc_Some; apply Hr.
  - right. split; [done|]. apply Hmv. unfold wait_check in Hw. rewrite Hf in Hw.
    by destruct (Wakers.put _); simplify_eq.
  - left. exists i. rewrite list_lookup_insert_eq by (by eapply lookup_lt_Some). split; [done|].
    destruct (has_set (calls c !! i)) eqn:Hset; [|done]. apply Hmono in Hset. by rewrite Hi in Hset.
  - right. by split.
Qed.

Lemma since_run c c1 c2 : rtc call_step c1 c2 → since c c1 → since c c2.
Proof. induction 1; eauto using since_step. Qed.


End theorems.

(** One step of a concrete run, with its state evaluated. *)
Tactic Notation "next_call" uconstr(lem) :=
  eapply rtc_l; [by eapply lem|];
  match goal with |- rtc _ ?x _ => let x' := eval vm_compute in x in change x with x' end.

(** A waiter that falls asleep before the broadcast is woken by it; after a reset
    another one sleeps until it is broadcast again. *)
Lemma reset_run : ∃ c c',
  rtc (call_step keys) condwait_new c ∧ flag c = false ∧ rtc (call_step keys) c c' ∧
  calls c !! 2 = None ∧ calls c' !! 2 = Some WaitReturned ∧
  disciplined c' ∧ settled c' ∧ flag c' = true.
Proof.
  eexists _, _. split_and!.
  - next_call call_wait. next_call (call_signal _ _ true). next_call (wait_lock _ _ 0).
    next_call (signal_set _ _ 1). next_call (signal_wake _ _ 1). next_call (wait_woken _ _ 0).
    next_call (wait_lock _ _ 0). next_call call_reset. apply rtc_refl.
  - done.
  - next_call call_wait. next_call (wait_lock _ _ 2). next_call (call_signal _ _ true).
    next_call (signal_set _ _ 3). next_call (signal_wake _ _ 3). next_call (wait_woken _ _ 2).
    next_call (wait_lock _ _ 2). apply rtc_refl.
  - done.
  - done.
  - by right.
  - intros [|[|[|[|i]]]] p; cbn; [by intros [= <-]..|done].
  - done.
Qed.

