(* ===== verification/TaskGroup.v ===== *)
(** * Task groups

    Models [core/src/async_util/task_group.rs]: a group of spawned tasks, each
    with a callback that runs after it, and the cancellation of the group.
    Tasks interleave at every await; what a task and its callback do is user
    code, which may end or panic at any time.  The stop signal and the finished
    flag of a task are wait conditions with one waiter each, so they are flags
    by the theorem of [CondWait].

    Dropping a handler, which [remove] hands out, or the future of [cancel]
    cancels the task on one runtime and detaches it on the other; neither is
    modelled. *)

From S2P Require Import Prelude.

Definition TaskID := nat.

Inductive TaskResult (T : Type) :=
| Completed (t : T)
| Cancelled.
Arguments Completed {T} _.
Arguments Cancelled {T}.

Section group.
Context {T : Type}.

(** Where a task is: in its future, in its callback, and in the three steps
    after it; or unwound by a panic. *)
Inductive task_pc :=
| TRun
| TCallback
| TSignal
| TRemove
| TDone
| TPanicked.

Record task := mkTask {
  pc : task_pc;
  stop_signal : bool;
  cancel_flag : bool;
  callbacks : list (TaskResult T);
}.

(** A call of [cancel]: about to drain the group, cancelling what it drained,
    waiting for one task, done. *)
Inductive cancel_pc :=
| CancelStart
| CancelNext (todo : list TaskID)
| CancelWait (id : TaskID) (todo : list TaskID)
| CancelReturned.

#[global] Instance cancel_pc_eq_dec : EqDecision cancel_pc.
Proof. solve_decision. Defined.

(** All the tasks ever spawned, the ids whose handlers the group holds, and the
    calls of [cancel], each with the ids it drained. *)
Record group := mkGroup {
  spawned : gmap TaskID task;
  tasks : gset TaskID;
  next_id : TaskID;
  cancels : list (list TaskID * cancel_pc);
}.

Definition with_inner : group := mkGroup ∅ ∅ 0 [].

Definition set_task (g : group) (id : TaskID) (t : task) : group :=
  mkGroup (<[id := t]> (spawned g)) (tasks g) (next_id g) (cancels g).

Definition remove (g : group) (id : TaskID) : group :=
  mkGroup (spawned g) (tasks g ∖ {[id]}) (next_id g) (cancels g).

Definition set_cancel (g : group) (i : nat) (c : list TaskID * cancel_pc) : group :=
  mkGroup (spawned g) (tasks g) (next_id g) (<[i := c]> (cancels g)).

Definition spawn_then (g : group) : TaskID * group :=
  let id := next_id g in
  (id, mkGroup (<[id := mkTask TRun false false []]> (spawned g)) (tasks g ∪ {[id]}) (S id) (cancels g)).

Definition is_empty (g : group) : bool := bool_decide (tasks g = ∅).
Definition len (g : group) : nat := size (tasks g).

(** The steps of the tasks of a group and of the calls of [cancel]. *)
Inductive own_step : group → group → Prop :=
(** The spawned task. *)
| task_completes g id t v :
    spawned g !! id = Some t → pc t = TRun →
    own_step g (set_task g id
      (mkTask TCallback (stop_signal t) (cancel_flag t) (callbacks t ++ [Completed v])))
| task_stopped g id t :
    spawned g !! id = Some t → pc t = TRun → stop_signal t = true →
    own_step g (set_task g id
      (mkTask TCallback (stop_signal t) (cancel_flag t) (callbacks t ++ [Cancelled])))
| callback_ends g id t :
    spawned g !! id = Some t → pc t = TCallback →
    own_step g (set_task g id (mkTask TSignal (stop_signal t) (cancel_flag t) (callbacks t)))
| task_signals g id t :
    spawned g !! id = Some t → pc t = TSignal →
    own_step g (set_task g id (mkTask TRemove (stop_signal t) true (callbacks t)))
| task_removes g id t :
    spawned g !! id = Some t → pc t = TRemove →
    own_step g (remove (set_task g id (mkTask TDone (stop_signal t) (cancel_flag t) (callbacks t))) id)
(** [PanicGuard]: the task leaves the group and another task sets the flag. *)
| task_panics g id t :
    spawned g !! id = Some t → pc t = TRun ∨ pc t = TCallback →
    own_step g (remove (set_task g id (mkTask TPanicked (stop_signal t) (cancel_flag t) (callbacks t))) id)
| panic_signals g id t :
    spawned g !! id = Some t → pc t = TPanicked →
    own_step g (set_task g id (mkTask TPanicked (stop_signal t) true (callbacks t)))
(** [TaskGroup::cancel] and [TaskHandler::cancel]. *)
| cancel_drain g i ids :
    cancels g !! i = Some ([], CancelStart) → ids ≡ₚ elements (tasks g) →
    own_step g (mkGroup (spawned g) ∅ (next_id g) (<[i := (ids, CancelNext ids)]> (cancels g)))
| cancel_signal g i d id todo t :
    cancels g !! i = Some (d, CancelNext (id :: todo)) → spawned g !! id = Some t →
    own_step g (set_cancel (set_task g id (mkTask (pc t) true (cancel_flag t) (callbacks t))) i
      (d, CancelWait id todo))
| cancel_waited g i d id todo t :
    cancels g !! i = Some (d, CancelWait id todo) → spawned g !! id = Some t →
    cancel_flag t = true →
    own_step g (set_cancel g i (d, CancelNext todo))
| cancel_returns g i d :
    cancels g !! i = Some (d, CancelNext []) →
    own_step g (set_cancel g i (d, CancelReturned)).

(** A call of [cancel] begins. *)
Definition cancel (g : group) : group :=
  mkGroup (spawned g) (tasks g) (next_id g) (cancels g ++ [([], CancelStart)]).

(** Those, and what the users of the group do. *)
Inductive step : group → group → Prop :=
| step_spawn g : step g (spawn_then g).2
| step_remove g id : step g (remove g id)
| cancel_call g : step g (cancel g)
| step_own g g' : own_step g g' → step g g'.

End group.
Arguments task : clear implicits.
Arguments group : clear implicits.

(** ** Theorems *)

Section theorems.
Context {T : Type}.
Implicit Types (t : task T) (g : group T).

(** A task whose callback has run, or that was unwound by a panic. *)
Definition over (t : task T) : Prop :=
  ((pc t = TRemove ∨ pc t = TDone) ∧ ∃ r, callbacks t = [r]) ∨ pc t = TPanicked.

Definition task_ok (t : task T) : Prop :=
  match pc t with
  | TRun => callbacks t = [] ∧ cancel_flag t = false
  | TCallback | TSignal => (∃ r, callbacks t = [r]) ∧ cancel_flag t = false
  | TRemove | TDone => (∃ r, callbacks t = [r]) ∧ cancel_flag t = true
  | TPanicked => length (callbacks t) ≤ 1
  end ∧ (callbacks t = [Cancelled] → stop_signal t = true).

(** The tasks a call of [cancel] is done with. *)
Definition handled (c : list TaskID * cancel_pc) (id : TaskID) : Prop :=
  id ∈ c.1 ∧
  match c.2 with
  | CancelStart => False
  | CancelNext todo => id ∉ todo
  | CancelWait id' todo => id ≠ id' ∧ id ∉ todo
  | CancelReturned => True
  end.

Definition pending (c : list TaskID * cancel_pc) : list TaskID :=
  match c.2 with
  | CancelNext todo => todo
  | CancelWait id todo => id :: todo
  | _ => []
  end.

Record group_inv (g : group T) : Prop := {
  gi_task id t : spawned g !! id = Some t → task_ok t ∧ id < next_id g;
  gi_member id : id ∈ tasks g → ∃ t, spawned g !! id = Some t ∧ pc t ≠ TDone ∧ pc t ≠ TPanicked;
  gi_pending c id : c ∈ cancels g → id ∈ pending c → is_Some (spawned g !! id);
  gi_waiting d id todo : (d, CancelWait id todo) ∈ cancels g →
    ∃ t, spawned g !! id = Some t ∧ stop_signal t = true;
  gi_handled c id : c ∈ cancels g → handled c id →
    ∃ t, spawned g !! id = Some t ∧ cancel_flag t = true;
  gi_start d : (d, CancelStart) ∈ cancels g → d = [];
}.

Lemma flag_over t : task_ok t → cancel_flag t = true → over t.
Proof.
  unfold task_ok, over. intros [Hok _] Hf. destruct (pc t); try (by right); destruct Hok as [Hr Hf'];
    try congruence; left; auto.
Qed.

(** A task moves forward: its flags stay set, and it leaves the group when it is
    over. *)
Lemma inv_set_task g id t t' :
  spawned g !! id = Some t → task_ok t' →
  (stop_signal t = true → stop_signal t' = true) → (cancel_flag t = true → cancel_flag t' = true) →
  (id ∈ tasks g → pc t' ≠ TDone ∧ pc t' ≠ TPanicked) →
  group_inv g → group_inv (set_task g id t').
Proof.
  intros Hid Hok Hstop Hflag Hpc [Ht Hm Hp Hw Hh Hst0].
  assert (∀ id', (∃ t0, spawned g !! id' = Some t0) → is_Some (<[id := t']> (spawned g) !! id')) as Hsome.
  { intros id' ?. rewrite lookup_insert_is_Some'. by right. }
  split; cbn.
  - intros id0 t0. destruct (decide (id = id0)) as [->|].
    + rewrite lookup_insert_eq. intros [= <-]. split; [done|]. by apply (Ht id0 t).
    + rewrite lookup_insert_ne by done. apply Ht.
  - intros id0 Hid0. destruct (decide (id = id0)) as [->|].
    + exists t'. rewrite lookup_insert_eq. auto.
    + rewrite lookup_insert_ne by done. auto.
  - intros c id0 Hc Hid0. destruct (Hp c id0 Hc Hid0). eauto.
  - intros d id0 todo Hin. destruct (Hw d id0 todo Hin) as (t0 & Ht0 & ?). destruct (decide (id = id0)) as [->|].
    + simplify_eq. exists t'. rewrite lookup_insert_eq. auto.
    + exists t0. by rewrite lookup_insert_ne.
  - intros c id0 Hc Hd. destruct (Hh c id0 Hc Hd) as (t0 & Ht0 & ?). destruct (decide (id = id0)) as [->|].
    + simplify_eq. exists t'. rewrite lookup_insert_eq. auto.
    + exists t0. by rewrite lookup_insert_ne.
  - done.
Qed.

Lemma inv_remove g id : group_inv g → group_inv (remove g id).
Proof. intros [Ht Hm Hp Hw Hh Hst0]. split; cbn; try done. intros id' [? _]%elem_of_difference. auto. Qed.

Lemma elem_insert {A} (l : list A) i x y : y ∈ <[i := x]> l → y = x ∨ y ∈ l.
Proof.
  intros (j & Hj)%list_elem_of_lookup_1. apply list_lookup_insert_Some in Hj as [(_ & -> & _)|[_ Hj]]; [by left|].
  right. by eapply list_elem_of_lookup_2.
Qed.

(** A call of [cancel] moves on. *)
Lemma inv_set_cancel g i c' :
  group_inv g →
  (∀ id, id ∈ pending c' → is_Some (spawned g !! id)) →
  (∀ d id todo, c' = (d, CancelWait id todo) → ∃ t, spawned g !! id = Some t ∧ stop_signal t = true) →
  (∀ id, handled c' id → ∃ t, spawned g !! id = Some t ∧ cancel_flag t = true) →
  c'.2 ≠ CancelStart →
  group_inv (set_cancel g i c').
Proof.
  intros [Ht Hm Hp Hw Hh Hst0] Hp' Hw' Hh' Hs'. split; cbn; try done.
  - intros c id [->|?]%elem_insert; eauto.
  - intros d id todo [?|?]%elem_insert; eauto.
  - intros c id [->|?]%elem_insert; eauto.
  - intros d [<-|?]%elem_insert; [done|eauto].
Qed.

Lemma task_ok_stop t :
  task_ok t → task_ok (mkTask (pc t) true (cancel_flag t) (callbacks t)).
Proof. intros [Hok _]. by split. Qed.

Lemma group_inv_spawn g : group_inv g → group_inv (spawn_then g).2.
Proof.
  intros [Ht Hm Hp Hw Hh Hst0]. cbn.
  assert (spawned g !! next_id g = None) as Hn.
  { destruct (spawned g !! next_id g) as [t|] eqn:Hid; [|done]. destruct (Ht _ t Hid). lia. }
  assert (∀ id t, spawned g !! id = Some t →
    <[next_id g := mkTask TRun false false []]> (spawned g) !! id = Some t) as Hk.
  { intros id t Hid. rewrite lookup_insert_ne; [done|]. intros <-. exact (eq_None_ne_Some_1 _ _ Hn Hid). }
  split; cbn.
  - intros id t. destruct (decide (next_id g = id)) as [<-|].
    + rewrite lookup_insert_eq. intros [= <-]. split; [by repeat split|lia].
    + rewrite lookup_insert_ne by done. intros [? ?]%Ht. split; [done|]. lia.
  - intros id [Hid| ->%elem_of_singleton]%elem_of_union.
    + destruct (Hm id Hid) as (t & ? & ?). exists t. auto.
    + eexists. by rewrite lookup_insert_eq.
  - intros c id Hc Hid. destruct (Hp c id Hc Hid) as [t ?]. eauto.
  - intros d id todo Hin. destruct (Hw d id todo Hin) as (t & ? & ?). eauto.
  - intros c id Hc Hd. destruct (Hh c id Hc Hd) as (t & ? & ?). eauto.
  - done.
Qed.

(** A task that is over has left the group. *)
Lemma inv_leave g id t t' :
  spawned g !! id = Some t → task_ok t' →
  (stop_signal t = true → stop_signal t' = true) → (cancel_flag t = true → cancel_flag t' = true) →
  group_inv g → group_inv (remove (set_task g id t') id).
Proof.
  intros Hid Hok Hs Hf Hinv. change (group_inv (set_task (remove g id) id t')).
  eapply inv_set_task; [done..| |by apply inv_remove]. cbn. set_solver.
Qed.

Lemma inv_drain g i ids :
  cancels g !! i = Some ([], CancelStart) → ids ≡ₚ elements (tasks g) → group_inv g →
  group_inv (mkGroup (spawned g) ∅ (next_id g) (<[i := (ids, CancelNext ids)]> (cancels g))).
Proof.
  intros Hi Hids [Ht Hm Hp Hw Hh Hst0]. split; cbn; [done|set_solver| | | |].
  - intros c id [->|?]%elem_insert; [|by eauto]. cbn. rewrite Hids, elem_of_elements.
    intros Hid. destruct (Hm id Hid) as (t & ? & _). eauto.
  - intros d id todo [?|?]%elem_insert; [done|by eauto].
  - intros c id [->|?]%elem_insert; [|by eauto]. by intros [? Hn].
  - intros d [?|?]%elem_insert; [done|by eauto].
Qed.

Lemma inv_cancel_call g : group_inv g → group_inv (cancel g).
Proof.
  intros [Ht Hm Hp Hw Hh Hst0]. split; cbn; try done.
  - intros c id [?| ->%list_elem_of_singleton]%elem_of_app; [by eauto|]. by intros ?%not_elem_of_nil.
  - intros d id todo [?|?%list_elem_of_singleton]%elem_of_app; [by eauto|done].
  - intros c id [?| ->%list_elem_of_singleton]%elem_of_app; [by eauto|]. by intros [? ?].
  - intros d [?|Hd%list_elem_of_singleton]%elem_of_app; [by eauto|congruence].
Qed.

Lemma inv_cancel_signal g i d id todo t :
  cancels g !! i = Some (d, CancelNext (id :: todo)) → spawned g !! id = Some t → group_inv g →
  group_inv (set_cancel (set_task g id (mkTask (pc t) true (cancel_flag t) (callbacks t))) i
    (d, CancelWait id todo)).
Proof.
  intros Hi Hid Hinv. pose proof Hinv as [Ht Hm Hp Hw Hh Hst0].
  assert ((d, CancelNext (id :: todo)) ∈ cancels g) as Hin by by eapply list_elem_of_lookup_2.
  apply inv_set_cancel.
  - eapply inv_set_task; [done| |done..| |done].
    + apply task_ok_stop. by apply (Ht id t).
    + intros Hmem. destruct (Hm id Hmem) as (t0 & ? & ?). by simplify_eq.
  - intros id0 Hid0. cbn. rewrite lookup_insert_is_Some'. right. by eapply (Hp _ id0 Hin).
  - intros d' id' todo' [= <- <- <-]. eexists. cbn. by rewrite lookup_insert_eq.
  - intros id0 [Hd [Hne Htodo]]. cbn in *. rewrite lookup_insert_ne by done.
    apply (Hh _ id0 Hin). split; [done|]. cbn. set_solver.
  - done.
Qed.

Lemma own_step_inv g g' : own_step g g' → group_inv g → group_inv g'.
Proof.
  intros Hstep Hinv. pose proof Hinv as [Ht Hm Hp Hw Hh Hst0].
  destruct Hstep as [g id t v Hid Hpc|g id t Hid Hpc Hst|g id t Hid Hpc|g id t Hid Hpc|g id t Hid Hpc
    |g id t Hid Hpc|g id t Hid Hpc|g i ids Hi Hids|g i d id todo t Hi Hid|g i d id todo t Hi Hid Hf|g i d Hi];
    try (destruct (Ht id t Hid) as [[Hok Hc] _]).
  - rewrite Hpc in Hok. destruct Hok as [Hcb ?].
    eapply inv_set_task; [done| |done..]. rewrite Hcb. split; cbn; [by eauto|done].
  - rewrite Hpc in Hok. destruct Hok as [Hcb ?].
    eapply inv_set_task; [done| |done..]. rewrite Hcb. split; cbn; [by eauto|done].
  - rewrite Hpc in Hok. eapply inv_set_task; [done| |done..]. by split.
  - rewrite Hpc in Hok. destruct Hok as [? ?]. eapply inv_set_task; [done| |done..]. by split.
  - rewrite Hpc in Hok. eapply inv_leave; [done| |done..]. by split.
  - eapply inv_leave; [done| |done..]. split; [|done]. cbn.
    destruct Hpc as [Hpc|Hpc]; rewrite Hpc in Hok; [by destruct Hok as [-> _]; cbn; lia|].
    by destruct Hok as [[r ->] _].
  - rewrite Hpc in Hok. eapply inv_set_task; [done|by split|done|done| |done].
    intros Hmem. destruct (Hm id Hmem) as (t0 & ? & ? & ?). by simplify_eq.
  - by apply inv_drain.
  - by apply inv_cancel_signal.
  - assert ((d, CancelWait id todo) ∈ cancels g) as Hin by by eapply list_elem_of_lookup_2.
    apply inv_set_cancel; [done| |done| |done].
    + intros id0 Hid0. eapply (Hp _ id0 Hin). by right.
    + intros id0 [Hd Hn]. cbn in *. destruct (decide (id0 = id)) as [->|]; [by eauto|].
      by apply (Hh _ id0 Hin).
  - assert ((d, CancelNext []) ∈ cancels g) as Hin by by eapply list_elem_of_lookup_2.
    apply inv_set_cancel; [done|by intros ? ?%not_elem_of_nil|done| |done].
    intros id0 [Hd _]. apply (Hh _ id0 Hin). split; [done|]. apply not_elem_of_nil.
Qed.

Lemma own_steps_inv g g' : rtc own_step g g' → group_inv g → group_inv g'.
Proof. induction 1; eauto using own_step_inv. Qed.

Lemma group_step_inv g g' : step g g' → group_inv g → group_inv g'.
Proof.
  intros [?|? ?|?|? ? ?] Hinv; [by apply group_inv_spawn|by apply inv_remove|by apply inv_cancel_call|].
  by eapply own_step_inv.
Qed.

Lemma group_inv_new : group_inv with_inner.
Proof. split; cbn; try done; try set_solver; intros *; try (by intros ?%not_elem_of_nil). Qed.

Lemma group_reachable_inv g : rtc step with_inner g → group_inv g.
Proof. intros Hrtc. pose proof group_inv_new as Hnew. induction Hrtc; eauto using group_step_inv. Qed.

(** The drained tasks of a call that has returned. *)
Lemma returned_over g d id :
  group_inv g → (d, CancelReturned) ∈ cancels g → id ∈ d → ∃ t, spawned g !! id = Some t ∧ over t.
Proof.
  intros Hinv Hin Hid. destruct (gi_handled g Hinv _ id Hin) as (t & Ht & Hf); [by split|].
  exists t. split; [done|]. apply flag_over; [|done]. by apply (gi_task g Hinv id).
Qed.

(** *** Cancelling ends *)

Lemma set_task_id g id t : spawned g !! id = Some t → set_task g id t = g.
Proof. intros Hid. destruct g. unfold set_task. cbn in *. by rewrite insert_id. Qed.

Lemma set_task_twice g id t t' : set_task (set_task g id t) id t' = set_task g id t'.
Proof. unfold set_task. cbn. by rewrite insert_insert_eq. Qed.

(** A task told to stop sets its flag. *)
Lemma task_finishes g id t :
  spawned g !! id = Some t → stop_signal t = true → task_ok t →
  ∃ t', rtc own_step g (set_task g id t') ∧ cancel_flag t' = true.
Proof.
  intros Hid Hst [Hok _].
  assert (∀ t0, pc t0 = TSignal → ∃ t', rtc own_step (set_task g id t0) (set_task g id t') ∧
    cancel_flag t' = true) as Hsig.
  { intros t0 Hpc. exists (mkTask TRemove (stop_signal t0) true (callbacks t0)). split; [|done].
    rewrite <-(set_task_twice g id t0 (mkTask TRemove _ _ _)). apply rtc_once.
    apply task_signals; [apply lookup_insert_eq|done]. }
  assert (∀ t0, pc t0 = TCallback → ∃ t', rtc own_step (set_task g id t0) (set_task g id t') ∧
    cancel_flag t' = true) as Hcb.
  { intros t0 Hpc. destruct (Hsig (mkTask TSignal (stop_signal t0) (cancel_flag t0) (callbacks t0)))
      as (t' & Hr & Hf); [done|]. exists t'. split; [|done]. eapply rtc_l; [|exact Hr].
    rewrite <-(set_task_twice g id t0 (mkTask TSignal _ _ _)). apply callback_ends; [apply lookup_insert_eq|done]. }
  destruct (pc t) eqn:Hpc.
  - destruct (Hcb (mkTask TCallback (stop_signal t) (cancel_flag t) (callbacks t ++ [Cancelled])))
      as (t' & Hr & Hf); [done|]. exists t'. split; [|done]. eapply rtc_l; [|exact Hr].
    by apply task_stopped.
  - destruct (Hcb t Hpc) as (t' & Hr & Hf). rewrite set_task_id in Hr by done. by exists t'.
  - destruct (Hsig t Hpc) as (t' & Hr & Hf). rewrite set_task_id in Hr by done. by exists t'.
  - exists t. rewrite set_task_id by done. by destruct Hok.
  - exists t. rewrite set_task_id by done. by destruct Hok.
  - eexists. split; [by eapply rtc_once, panic_signals|done].
Qed.

(** Nothing but the tasks of a list has changed. *)
Definition untouched (ids : list TaskID) (g g' : group T) : Prop :=
  next_id g' = next_id g ∧ tasks g' = tasks g ∧ length (cancels g') = length (cancels g) ∧
  ∀ id, id ∉ ids → spawned g' !! id = spawned g !! id.

Lemma untouched_trans ids g1 g2 g3 : untouched ids g1 g2 → untouched ids g2 g3 → untouched ids g1 g3.
Proof.
  intros (Hn & Ht & Hl & Hs) (Hn' & Ht' & Hl' & Hs'). split_and!; [congruence..|].
  intros id Hid. by rewrite Hs', Hs.
Qed.

Lemma untouched_task ids g id t : id ∈ ids → untouched ids g (set_task g id t).
Proof. intros Hid. split_and!; try done. intros id' ?. cbn. rewrite lookup_insert_ne; [done|]. by intros ->. Qed.

Lemma untouched_cancel ids g i c : untouched ids g (set_cancel g i c).
Proof. split_and!; try done. cbn. by rewrite length_insert. Qed.

Lemma untouched_weaken ids ids' g g' : ids ⊆ ids' → untouched ids g g' → untouched ids' g g'.
Proof. intros Hsub (Hn & Ht & Hl & Hs). split_and!; try done. intros id Hid. apply Hs. set_solver. Qed.

(** A call of [cancel] that has drained the group can go on to its end. *)
Lemma group_cancel_completes todo : ∀ g i d,
  group_inv g → cancels g !! i = Some (d, CancelNext todo) →
  ∃ g', rtc own_step g g' ∧ cancels g' !! i = Some (d, CancelReturned) ∧ untouched todo g g'.
Proof.
  assert (∀ g i (c c' : list TaskID * cancel_pc), cancels g !! i = Some c → cancels (set_cancel g i c') !! i = Some c') as Hset.
  { intros g i c c' Hi. cbn. by apply list_lookup_insert_eq, (lookup_lt_Some _ _ c). }
  induction todo as [|id todo IH]; intros g i d Hinv Hi.
  { eexists. split_and!; [by eapply rtc_once, cancel_returns|by eapply Hset|apply untouched_cancel]. }
  assert ((d, CancelNext (id :: todo)) ∈ cancels g) as Hin by by eapply list_elem_of_lookup_2.
  destruct (gi_pending g Hinv _ id Hin) as [t Hid]; [by left|].
  set (t1 := mkTask (pc t) true (cancel_flag t) (callbacks t)).
  set (g1 := set_cancel (set_task g id t1) i (d, CancelWait id todo)).
  assert (own_step g g1) as Hs1 by by apply cancel_signal.
  pose proof (own_step_inv _ _ Hs1 Hinv) as Hinv1.
  assert (spawned g1 !! id = Some t1) as Hid1 by apply lookup_insert_eq.
  destruct (task_finishes g1 id t1) as (t2 & Hr2 & Hf2); [done..|by apply (gi_task g1 Hinv1 id)|].
  set (g2 := set_task g1 id t2). pose proof (own_steps_inv _ _ Hr2 Hinv1) as Hinv2.
  assert (own_step g2 (set_cancel g2 i (d, CancelNext todo))) as Hs2.
  { eapply cancel_waited; [by eapply (Hset (set_task g id t1))|apply lookup_insert_eq|done]. }
  destruct (IH _ i d (own_step_inv _ _ Hs2 Hinv2)) as (g3 & Hr3 & Hi3 & Hu3).
  { by eapply Hset, (Hset (set_task g id t1)). }
  exists g3. split_and!; [|done|].
  - eapply rtc_l; [exact Hs1|]. etrans; [exact Hr2|]. by eapply rtc_l.
  - eapply untouched_trans; [|eapply untouched_weaken; [|exact Hu3]; set_solver].
    eapply untouched_trans; [|apply untouched_cancel]. eapply untouched_trans; [|by apply untouched_task; left].
    eapply untouched_trans; [by apply untouched_task; left|apply untouched_cancel].
Qed.

Lemma own_steps g g' : rtc own_step g g' → rtc step g g'.
Proof. apply rtc_subrel. intros ? ?. apply step_own. Qed.

(** A call of [cancel] can go on to its end from wherever it is. *)
Lemma call_returns g i d c :
  group_inv g → cancels g !! i = Some (d, c) →
  ∃ g' d', rtc own_step g g' ∧ cancels g' !! i = Some (d', CancelReturned) ∧
    (c ≠ CancelStart → d' = d).
Proof.
  intros Hinv Hi. assert ((d, c) ∈ cancels g) as Hin by by eapply list_elem_of_lookup_2.
  pose proof (lookup_lt_Some _ _ _ Hi) as Hlt.
  destruct c as [|todo|id todo|]; [| | |by exists g, d].
  - assert (d = []) as -> by by eapply gi_start.
    assert (own_step g _) as Hs by by apply (cancel_drain g i (elements (tasks g))).
    destruct (group_cancel_completes (elements (tasks g)) _ i (elements (tasks g)) (own_step_inv _ _ Hs Hinv))
      as (g' & Hr & Hret & _); [by apply list_lookup_insert_eq|].
    exists g', (elements (tasks g)). split_and!; [by eapply rtc_l|done|done].
  - destruct (group_cancel_completes todo g i d) as (g' & Hr & Hret & _); [done..|]. by exists g', d.
  - destruct (gi_waiting g Hinv _ _ _ Hin) as (t & Hid & Hst).
    destruct (task_finishes g id t) as (t2 & Hr2 & Hf2); [done..|by apply (gi_task g Hinv id)|].
    set (g2 := set_task g id t2). pose proof (own_steps_inv _ _ Hr2 Hinv) as Hinv2.
    assert (own_step g2 (set_cancel g2 i (d, CancelNext todo))) as Hs2.
    { eapply cancel_waited; [exact Hi|apply lookup_insert_eq|done]. }
    destruct (group_cancel_completes todo _ i d (own_step_inv _ _ Hs2 Hinv2)) as (g3 & Hr3 & Hi3 & _).
    { by apply list_lookup_insert_eq. }
    exists g3, d. split_and!; [|done|done]. etrans; [exact Hr2|]. by eapply rtc_l.
Qed.

(** *** What a step keeps *)

Lemma own_over g g' id t :
  own_step g g' → spawned g !! id = Some t → over t → ∃ t', spawned g' !! id = Some t' ∧ over t'.
Proof.
  assert (∀ (m : gmap TaskID (task T)) i t0 t1, m !! i = Some t0 → (over t0 → over t1) →
    m !! id = Some t → over t → ∃ t', <[i := t1]> m !! id = Some t' ∧ over t') as Hset.
  { intros m i t0 t1 Hi Ho Hid Ht. destruct (decide (i = id)) as [->|].
    - simplify_eq. exists t1. rewrite lookup_insert_eq. auto.
    - exists t. by rewrite lookup_insert_ne. }
  intros Hs Hid Ho. destruct Hs; cbn; try (by exists t); (eapply Hset; [done| |done..]); unfold over; cbn;
    naive_solver congruence.
Qed.

Lemma own_spawned g g' id : own_step g g' → is_Some (spawned g' !! id) ↔ is_Some (spawned g !! id).
Proof.
  assert (∀ (m : gmap TaskID (task T)) i t0 t1, m !! i = Some t0 →
    is_Some (<[i := t1]> m !! id) ↔ is_Some (m !! id)) as Hset.
  { intros m i t0 t1 Hi. rewrite lookup_insert_is_Some'. split; [|by right]. intros [->|?]; [by eauto|done]. }
  intros Hs. destruct Hs; cbn; try done; by eapply Hset.
Qed.

Lemma own_next g g' : own_step g g' → next_id g' = next_id g ∧ tasks g' ⊆ tasks g.
Proof. intros Hs. destruct Hs; cbn; split; try done; set_solver. Qed.

Lemma own_calls g g' : own_step g g' → length (cancels g') = length (cancels g).
Proof. intros Hs. destruct Hs; cbn; by rewrite ?length_insert. Qed.

(** The calls: those past their start keep what they drained, and a call leaves its
    start with an empty group. *)
Lemma own_cancels g g' k d c :
  own_step g g' → cancels g !! k = Some (d, c) →
  ∃ d' c', cancels g' !! k = Some (d', c') ∧
    (c = CancelStart → c' = CancelStart ∨ tasks g' = ∅) ∧ (c = CancelReturned → c' = CancelReturned) ∧
    (c ≠ CancelStart → d' = d ∧ c' ≠ CancelStart).
Proof.
  assert (∀ (cs : list (list TaskID * cancel_pc)) i d0 c0 d1 c1 (P : Prop),
    cs !! k = Some (d, c) → cs !! i = Some (d0, c0) →
    (c0 = CancelStart → P) → c0 ≠ CancelReturned → (c0 ≠ CancelStart → d1 = d0) → c1 ≠ CancelStart →
    ∃ d' c', <[i := (d1, c1)]> cs !! k = Some (d', c') ∧ (c = CancelStart → c' = CancelStart ∨ P) ∧
      (c = CancelReturned → c' = CancelReturned) ∧ (c ≠ CancelStart → d' = d ∧ c' ≠ CancelStart)) as Hset.
  { intros cs i d0 c0 d1 c1 P Hk Hi HP Hr Hd Hc. destruct (decide (i = k)) as [->|].
    - simplify_eq. exists d1, c1. rewrite list_lookup_insert_eq by by eapply lookup_lt_Some.
      split_and!; [done|by auto|done|]. intros ?. split; [auto|done].
    - exists d, c. rewrite list_lookup_insert_ne by done. split_and!; auto. }
  intros Hs Hk. destruct Hs; cbn; try (by exists d, c; split_and!; auto);
    (eapply Hset; [exact Hk|eassumption|done..]).
Qed.

(** A task leaves the group when it is over or drained. *)
Lemma own_left g g' id :
  group_inv g → own_step g g' → id ∈ tasks g →
  id ∈ tasks g' ∨ (∃ t, spawned g' !! id = Some t ∧ over t) ∨ ∃ c, c ∈ cancels g' ∧ id ∈ c.1.
Proof.
  intros Hinv Hs Hid. destruct Hs as [| | | |g id' t Ht Hpc|g id' t Ht Hpc| |g i ids Hi Hids| | |]; cbn; auto.
  - destruct (decide (id = id')) as [->|]; [|by set_solver]. right; left. eexists.
    rewrite lookup_insert_eq. split; [done|]. left. destruct (gi_task g Hinv _ _ Ht) as [[Hok _] _].
    rewrite Hpc in Hok. destruct Hok. auto.
  - destruct (decide (id = id')) as [->|]; [|by set_solver]. right; left. eexists.
    rewrite lookup_insert_eq. split; [done|]. by right.
  - right; right. exists (ids, CancelNext ids). split; [|cbn; by rewrite Hids, elem_of_elements].
    apply list_elem_of_lookup. exists i. by apply list_lookup_insert_eq, (lookup_lt_Some _ _ ([], CancelStart)).
Qed.

(** Cancelling a task group.  When [cancel] has returned, every task that
    was in the group has run its callback exactly once and finished it, or was
    unwound by a panic.  A call of [cancel] can always return, however the tasks
    and other calls of [cancel] interleave with it, as long as callbacks end. *)
Theorem group_cancel_spec g i d c :
  rtc step with_inner g → cancels g !! i = Some (d, c) →
  (c = CancelReturned → ∀ id, id ∈ d → ∃ t, spawned g !! id = Some t ∧ over t) ∧
  (∃ g' d', rtc step g g' ∧ cancels g' !! i = Some (d', CancelReturned) ∧ (c ≠ CancelStart → d' = d)).
Proof.
  intros Hinv%group_reachable_inv Hi. split.
  - intros -> id Hid. eapply returned_over; [done|by eapply list_elem_of_lookup_2|done].
  - destruct (call_returns g i d c Hinv Hi) as (g' & d' & Hr & ?). exists g', d'.
    split; [by apply own_steps|done].
Qed.

(** Every callback runs at most once, with [Cancelled] only when the task was
    told to stop; a task that has ended has left the group. *)
Theorem task_callback_once g id t :
  rtc step with_inner g → spawned g !! id = Some t →
  length (callbacks t) ≤ 1 ∧ (callbacks t = [Cancelled] → stop_signal t = true) ∧
  (pc t = TDone → id ∉ tasks g ∧ length (callbacks t) = 1).
Proof.
  intros Hinv%group_reachable_inv Hid. destruct (gi_task g Hinv id t Hid) as [[Hok Hc] _].
  split_and!; [|done|].
  - destruct (pc t); [destruct Hok as [-> _]; cbn; lia|by destruct Hok as [[r ->] _]..|done].
  - intros Hpc. rewrite Hpc in Hok. destruct Hok as [[r ->] _]. split; [|done].
    intros Hm. destruct (gi_member g Hinv id Hm) as (t' & ? & ? & _). by simplify_eq.
Qed.

End theorems.

(** A group of one running task, cancelled: the task is stopped, runs its
    callback and is waited for. *)
Lemma cancelled_run :
  ∃ (g : group nat) t, rtc step with_inner g ∧ cancels g !! 0 = Some ([0], CancelReturned) ∧
    spawned g !! 0 = Some t ∧ callbacks t = [Cancelled].
Proof.
  eexists _, _. split_and!.
  - eapply rtc_l; [apply step_spawn|]. eapply rtc_l; [apply cancel_call|].
    apply own_steps. eapply rtc_l; [apply (cancel_drain _ 0 [0]); [reflexivity|by vm_compute]|].
    eapply rtc_l; [by eapply (cancel_signal _ 0 [0] 0 [])|].
    eapply rtc_l; [by eapply (task_stopped _ 0)|]. eapply rtc_l; [by eapply (callback_ends _ 0)|].
    eapply rtc_l; [by eapply (task_signals _ 0)|]. eapply rtc_l; [by eapply (cancel_waited _ 0 [0] 0 [])|].
    eapply rtc_l; [by eapply (cancel_returns _ 0 [0])|]. apply rtc_refl.
  - reflexivity.
  - reflexivity.
  - reflexivity.
Qed.

Lemma group_cancel_spec_witness :
  ∃ (g : group nat) t, rtc step with_inner g ∧ spawned g !! 0 = Some t ∧ over t.
Proof.
  destruct cancelled_run as (g & _ & Hrtc & Hi & _).
  destruct (proj1 (group_cancel_spec g 0 [0] CancelReturned Hrtc Hi) eq_refl 0) as (t & Ht & Ho);
    [by left|].
  exists g, t. split; [exact Hrtc|]. split; [exact Ht|exact Ho].
Defined.
