(* ===== verification/Lifecycle.v ===== *)
(** * Starting and stopping components made of task groups

    The components of the workspace own task groups, spawn their tasks into them
    when they start, in calls and from within other tasks, and shut down by cancelling
    the groups one after the other.  A [layout] lists the tasks of a component in
    these terms.  The system runs every group by the steps of [TaskGroup], lets
    running tasks spawn others, and runs the shutdown.

    The theorem says, for any layout, which tasks can outlive a shutdown.  It is
    applied to the node and to JSON-RPC servers and clients. *)

From stdpp Require Import functions.
From S2P Require Import Prelude TaskGroup.

(** The group each task is spawned into; the tasks that spawn it; the tasks that
    calls of the component spawn, before its shutdown is called; those that calls
    still in progress may spawn later as well; and the groups in the order of the
    shutdown. *)
Record layout (G B : Type) := mkLayout {
  group_of : B → G;
  spawners : B → list B;
  root : B → bool;
  late : B → bool;
  order : list G;
}.
Arguments mkLayout {G B} _ _ _ _ _.
Arguments group_of {G B} _ _.
Arguments spawners {G B} _ _.
Arguments root {G B} _ _.
Arguments late {G B} _ _.
Arguments order {G B} _.

(** A call of the shutdown: not made; about to cancel the [i]th group; waiting for
    the [k]th call of [cancel] on it. *)
Inductive stop_pc := StopNotCalled | StopNext (i : nat) | StopWait (i k : nat).

(** The groups, and which task of the layout each of their tasks is. *)
Record system (G B : Type) := mkSystem {
  groups : G → group ();
  bodies : G → gmap TaskID B;
  stop : stop_pc;
}.
Arguments mkSystem {G B} _ _ _.
Arguments groups {G B} _ _.
Arguments bodies {G B} _ _.
Arguments stop {G B} _.

Lemma forallb_false {A} (f : A → bool) (l : list A) :
  forallb f l = false → ∃ x, x ∈ l ∧ f x = false.
Proof.
  induction l as [|x l IH]; cbn; [done|]. destruct (f x) eqn:Hx; cbn; [|exists x; set_solver].
  intros (y & ? & ?)%IH. exists y. set_solver.
Qed.

Section lifecycle.
Context {G B : Type} `{EqDecision G} (L : layout G B).
Implicit Types (s : system G B) (b : B) (g : G) (x : group ()).

Definition new_system : system G B := mkSystem (λ _, with_inner) (λ _, ∅) StopNotCalled.

Definition set_group s g (x : group ()) : system G B := mkSystem (<[g := x]> (groups s)) (bodies s) (stop s).
Definition set_stop s (p : stop_pc) : system G B := mkSystem (groups s) (bodies s) p.

Definition spawn_body s b : system G B :=
  let g := group_of L b in
  let spawned := spawn_then (groups s g) in
  mkSystem (<[g := spawned.2]> (groups s)) (<[g := <[spawned.1 := b]> (bodies s g)]> (bodies s)) (stop s).

Definition running s b (id : TaskID) : Prop :=
  bodies s (group_of L b) !! id = Some b ∧
  ∃ t, spawned (groups s (group_of L b)) !! id = Some t ∧ pc t = TRun.

Inductive sys_step : system G B → system G B → Prop :=
| sys_start s b :
    root L b = true ∧ stop s = StopNotCalled ∨ late L b = true → sys_step s (spawn_body s b)
| sys_spawn s b id b' :
    running s b id → b ∈ spawners L b' → sys_step s (spawn_body s b')
| sys_own s g x :
    own_step (groups s g) x → sys_step s (set_group s g x)
| sys_shutdown s :
    stop s = StopNotCalled → sys_step s (set_stop s (StopNext 0))
| sys_cancel s i g :
    stop s = StopNext i → order L !! i = Some g →
    sys_step s (set_stop (set_group s g (cancel (groups s g))) (StopWait i (length (cancels (groups s g)))))
| sys_cancelled s i k g d :
    stop s = StopWait i k → order L !! i = Some g →
    cancels (groups s g) !! k = Some (d, CancelReturned) →
    sys_step s (set_stop s (StopNext (S i))).

(** A task is stopped for good by the first [i] groups of the shutdown: its group is
    cancelled when neither a task that spawns it nor a call is left. *)
Fixpoint stopped (i : nat) (b : B) : bool :=
  match i with
  | O => false
  | S i => stopped i b || (bool_decide (order L !! i = Some (group_of L b)) &&
      (negb (late L b) && forallb (stopped i) (spawners L b)))
  end.

(** The tasks that a run of the component can spawn. *)
Inductive spawnable : B → Prop :=
| spawnable_root b : root L b = true ∨ late L b = true → spawnable b
| spawnable_by b b' : spawnable b → b ∈ spawners L b' → spawnable b'.

(** ** What a shutdown stops *)

Definition task_over (x : group ()) (id : TaskID) : Prop := ∃ t, spawned x !! id = Some t ∧ over t.

Definition stop_count (p : stop_pc) : option nat :=
  match p with StopNotCalled => None | StopNext i | StopWait i _ => Some i end.

Record sys_inv s : Prop := {
  si_group g : group_inv (groups s g);
  si_bodies g id : is_Some (bodies s g !! id) ↔ is_Some (spawned (groups s g) !! id);
  si_left g id : is_Some (spawned (groups s g) !! id) →
    task_over (groups s g) id ∨ id ∈ tasks (groups s g) ∨
    ∃ c, c ∈ cancels (groups s g) ∧ id ∈ c.1;
  si_calls g k d c : cancels (groups s g) !! k = Some (d, c) →
    c = CancelReturned ∨ ∃ i, stop s = StopWait i k ∧ order L !! i = Some g;
  si_wait i k : stop s = StopWait i k →
    ∃ g c, order L !! i = Some g ∧ cancels (groups s g) !! k = Some c;
  si_next i : stop s = StopNext i → i ≤ length (order L);
  si_gone i b id : stop_count (stop s) = Some i → stopped i b = true →
    bodies s (group_of L b) !! id = Some b → task_over (groups s (group_of L b)) id;
  si_drained i k d c b id : stop s = StopWait i k → order L !! i = Some (group_of L b) →
    cancels (groups s (group_of L b)) !! k = Some (d, c) → c ≠ CancelStart →
    negb (late L b) && forallb (stopped i) (spawners L b) = true →
    bodies s (group_of L b) !! id = Some b → id ∉ tasks (groups s (group_of L b));
}.

Lemma stopped_spawner i b b' : stopped i b' = true → b ∈ spawners L b' → stopped i b = true.
Proof.
  induction i as [|i IH]; cbn; [done|].
  intros [Hs|[_ [_ Hs]%andb_true_iff]%andb_true_iff]%orb_true_iff Hin.
  - by rewrite IH.
  - rewrite forallb_forall in Hs. rewrite Hs; [done|]. by apply list_elem_of_In.
Qed.

Lemma late_not_stopped i b : late L b = true → stopped i b = false.
Proof. intros Hl. induction i as [|i IH]; cbn; [done|]. by rewrite IH, Hl, andb_false_r. Qed.

(** A running task is not gone. *)
Lemma running_not_over s b id : running s b id → ¬ task_over (groups s (group_of L b)) id.
Proof. intros [_ (t & Ht & Hpc)] (t' & Ht' & [[[?|?] _]|?]); simplify_eq; congruence. Qed.

Lemma inv_new : sys_inv new_system.
Proof.
  split; cbn; try done.
  - intros _. apply group_inv_new.
  - intros _ id. by rewrite !lookup_empty.
  - intros _ id [? Hid]. by rewrite lookup_empty in Hid.
Qed.

Lemma spawn_over x id : group_inv x → task_over x id → task_over (spawn_then x).2 id.
Proof.
  intros Hx (t & Ht & Ho). exists t. split; [|done]. cbn. rewrite lookup_insert_ne; [done|].
  intros <-. apply (gi_task x Hx) in Ht as [_ ?]. lia.
Qed.

(** A spawn, when the task spawned is not one the shutdown is done with. *)
Lemma sys_inv_spawn s b' :
  sys_inv s →
  (∀ i, stop_count (stop s) = Some i → stopped i b' = false ∧
    negb (late L b') && forallb (stopped i) (spawners L b') = false) →
  sys_inv (spawn_body s b').
Proof.
  intros Hinv Hb. pose proof Hinv as [Hg Hbod Hleft Hcalls Hwait Hnext Hgone Hdr]. set (g0 := group_of L b').
  assert (bodies s g0 !! next_id (groups s g0) = None) as Hfresh.
  { destruct (bodies s g0 !! _) as [b|] eqn:Hid; [|done].
    destruct (proj1 (Hbod g0 _) (mk_is_Some _ _ Hid)) as [t Ht]. apply (gi_task _ (Hg g0)) in Ht as [_ ?]. lia. }
  assert (∀ g id b, <[g0 := <[next_id (groups s g0) := b']> (bodies s g0)]> (bodies s) g !! id = Some b →
    (g = g0 ∧ id = next_id (groups s g0) ∧ b = b') ∨ (bodies s g !! id = Some b)) as Hlook.
  { intros g id b. destruct (decide (g = g0)) as [->|]; [|rewrite fn_lookup_insert_ne by done; by right].
    rewrite fn_lookup_insert. destruct (decide (id = next_id (groups s g0))) as [->|].
    - rewrite lookup_insert_eq. intros [= <-]. by left.
    - rewrite lookup_insert_ne by done. by right. }
  assert (∀ g, g ≠ g0 → <[g0 := (spawn_then (groups s g0)).2]> (groups s) g = groups s g) as Hne.
  { intros g ?. by rewrite fn_lookup_insert_ne. }
  split; unfold spawn_body; cbn [groups bodies stop]; fold g0;
    change (spawn_then (groups s g0)).1 with (next_id (groups s g0)).
  - intros g. destruct (decide (g = g0)) as [->|]; [|by rewrite Hne].
    rewrite fn_lookup_insert. by apply group_inv_spawn.
  - intros g id. destruct (decide (g = g0)) as [->|]; [|rewrite Hne, fn_lookup_insert_ne by done; apply Hbod].
    rewrite !fn_lookup_insert. cbn. rewrite !lookup_insert_is_Some'. by rewrite Hbod.
  - intros g id. destruct (decide (g = g0)) as [->|]; [|rewrite Hne by done; apply Hleft].
    rewrite fn_lookup_insert. cbn. rewrite lookup_insert_is_Some'. intros [<-|Hid]; [set_solver|].
    destruct (Hleft g0 id Hid) as [Ho|[?|?]]; [|set_solver|by auto]. left. by apply (spawn_over _ id (Hg g0)).
  - intros g k d c. destruct (decide (g = g0)) as [->|]; [|rewrite Hne by done; apply Hcalls].
    rewrite fn_lookup_insert. apply Hcalls.
  - intros i k Hi. destruct (Hwait i k Hi) as (g & c & ? & ?). exists g, c. split; [done|].
    destruct (decide (g = g0)) as [->|]; [by rewrite fn_lookup_insert|by rewrite Hne].
  - done.
  - intros i b id Hi Hst Hid. apply Hlook in Hid as [(Heq & _ & ->)|Hid]; [by destruct (Hb i Hi); congruence|].
    specialize (Hgone i b id Hi Hst Hid). destruct (decide (group_of L b = g0)) as [Heq|]; [|by rewrite Hne].
    rewrite Heq in *. rewrite fn_lookup_insert. by apply spawn_over.
  - intros i k d c b id Hi Hord. destruct (decide (group_of L b = g0)) as [Heq|].
    + rewrite Heq, !fn_lookup_insert. intros Hk Hc Hsp Hid. cbn.
      destruct (decide (id = next_id (groups s g0))) as [->|].
      * rewrite lookup_insert_eq in Hid. simplify_eq. destruct (Hb i); [by rewrite Hi|congruence].
      * rewrite lookup_insert_ne in Hid by done. rewrite <-Heq in *.
        pose proof (Hdr i k d c b id Hi Hord Hk Hc Hsp Hid). set_solver.
    + rewrite Hne, fn_lookup_insert_ne by done. by apply Hdr.
Qed.

Lemma own_task_over x x' id : own_step x x' → task_over x id → task_over x' id.
Proof. intros Hs (t & Ht & Ho). by apply (own_over x x' id t). Qed.

Lemma own_drained x x' c id :
  group_inv x → own_step x x' → c ∈ cancels x → id ∈ c.1 → ∃ c', c' ∈ cancels x' ∧ id ∈ c'.1.
Proof.
  intros Hx Hs Hc Hid. destruct c as [d c]. apply list_elem_of_lookup in Hc as [k Hk].
  destruct (own_cancels x x' k d c Hs Hk) as (d' & c' & Hk' & _ & _ & Hd).
  exists (d', c'). split; [by eapply list_elem_of_lookup_2|]. cbn. destruct Hd as [-> _]; [|done].
  intros ->. rewrite (gi_start x Hx d) in Hid by by eapply list_elem_of_lookup_2. by apply not_elem_of_nil in Hid.
Qed.

Lemma inv_own s g0 x : sys_inv s → own_step (groups s g0) x → sys_inv (set_group s g0 x).
Proof.
  intros [Hg Hbod Hleft Hcalls Hwait Hnext Hgone Hdr] Hs.
  assert (∀ g, g ≠ g0 → <[g0 := x]> (groups s) g = groups s g) as Hne by (intros; by rewrite fn_lookup_insert_ne).
  destruct (own_next _ _ Hs) as [_ Hsub].
  split; unfold set_group; cbn [groups bodies stop]; try done.
  - intros g. destruct (decide (g = g0)) as [->|]; [|by rewrite Hne].
    rewrite fn_lookup_insert. by eapply own_step_inv.
  - intros g id. destruct (decide (g = g0)) as [->|]; [|by rewrite Hne].
    by rewrite fn_lookup_insert, (own_spawned _ _ id Hs).
  - intros g id. destruct (decide (g = g0)) as [->|]; [|rewrite Hne by done; apply Hleft].
    rewrite fn_lookup_insert, (own_spawned _ _ id Hs). intros Hid.
    destruct (Hleft g0 id Hid) as [Ho|[Ht|(c & Hc & Hcid)]].
    + left. by eapply own_task_over.
    + destruct (own_left _ _ id (Hg g0) Hs Ht) as [?|[?|?]]; auto.
    + right; right. by eapply own_drained.
  - intros g k d c. destruct (decide (g = g0)) as [->|]; [|rewrite Hne by done; apply Hcalls].
    rewrite fn_lookup_insert. intros Hk.
    destruct (cancels (groups s g0) !! k) as [[d0 c0]|] eqn:Hk0.
    + destruct (own_cancels _ _ k d0 c0 Hs Hk0) as (d' & c' & Hk' & _ & Hret & _). simplify_eq.
      destruct (Hcalls g0 k d0 c0 Hk0) as [->|?]; [left; by apply Hret|by right].
    + apply lookup_ge_None in Hk0. rewrite <-(own_calls _ _ Hs) in Hk0. apply lookup_lt_Some in Hk. lia.
  - intros i k Hi. destruct (Hwait i k Hi) as (g & [d c] & ? & Hk). exists g.
    destruct (decide (g = g0)) as [->|]; [|rewrite Hne by done; by eauto].
    rewrite fn_lookup_insert. destruct (own_cancels _ _ k d c Hs Hk) as (? & ? & ? & _). eauto.
  - intros i b id Hi Hst Hid. specialize (Hgone i b id Hi Hst Hid).
    destruct (decide (group_of L b = g0)) as [Heq|]; [|by rewrite Hne].
    rewrite Heq in *. rewrite fn_lookup_insert. by eapply own_task_over.
  - intros i k d c b id Hi Hord. destruct (decide (group_of L b = g0)) as [Heq|];
      [|rewrite Hne by done; by apply Hdr].
    rewrite Heq, fn_lookup_insert. intros Hk Hc Hsp Hid.
    destruct (Hwait i k Hi) as (g & [d0 c0] & Hord' & Hk0). rewrite Hord in Hord'. simplify_eq.
    destruct (own_cancels _ _ k d0 c0 Hs Hk0) as (d' & c' & Hk' & Hstart & _ & _). simplify_eq.
    destruct (decide (c0 = CancelStart)) as [->|Hc0].
    + destruct (Hstart eq_refl) as [?| ->]; [done|set_solver].
    + pose proof (Hdr i k d0 c0 b id Hi Hord Hk0 Hc0 Hsp Hid). set_solver.
Qed.

Lemma inv_cancel s i g0 :
  sys_inv s → stop s = StopNext i → order L !! i = Some g0 →
  sys_inv (set_stop (set_group s g0 (cancel (groups s g0))) (StopWait i (length (cancels (groups s g0))))).
Proof.
  intros [Hg Hbod Hleft Hcalls Hwait Hnext Hgone Hdr] Hi Hord.
  assert (∀ g, g ≠ g0 → <[g0 := cancel (groups s g0)]> (groups s) g = groups s g) as Hne
    by (intros; by rewrite fn_lookup_insert_ne).
  split; unfold set_stop, set_group; cbn [groups bodies stop]; try done.
  - intros g. destruct (decide (g = g0)) as [->|]; [|by rewrite Hne].
    rewrite fn_lookup_insert. by apply inv_cancel_call.
  - intros g id. destruct (decide (g = g0)) as [->|]; [|by rewrite Hne]. by rewrite fn_lookup_insert, Hbod.
  - intros g id. destruct (decide (g = g0)) as [->|]; [|rewrite Hne by done; apply Hleft].
    rewrite fn_lookup_insert. intros Hid. destruct (Hleft g0 id Hid) as [?|[?|(c & ? & ?)]]; auto.
    right; right. exists c. cbn. set_solver.
  - intros g k d c. destruct (decide (g = g0)) as [->|].
    + rewrite fn_lookup_insert. cbn. rewrite lookup_snoc_Some. intros [[_ Hk]|[Heq [= <- <-]]].
      * destruct (Hcalls g0 k d c Hk) as [?|(? & ? & _)]; [by left|congruence].
      * right. exists i. by rewrite Heq.
    + rewrite Hne by done. intros Hk. destruct (Hcalls g k d c Hk) as [?|(? & ? & _)]; [by left|congruence].
  - intros i' k [= <- <-]. exists g0. eexists. split; [done|]. rewrite fn_lookup_insert. cbn.
    apply lookup_snoc_Some. by right.
  - intros i' b id [= <-] Hst Hid.
    pose proof (Hgone i b id (f_equal stop_count Hi) Hst Hid) as Ho.
    destruct (decide (group_of L b = g0)) as [Heq|]; [|by rewrite Hne]. rewrite Heq in *.
    by rewrite fn_lookup_insert.
  - intros i' k d c b id [= <- <-] Hord'. assert (group_of L b = g0) as -> by congruence.
    rewrite fn_lookup_insert. cbn. rewrite lookup_snoc_Some. intros [[? _]|[_ [= <- <-]]]; [lia|done].
Qed.

(** A call that returned has left nothing running that it was called in time for. *)
Lemma inv_cancelled s i k g0 d :
  sys_inv s → stop s = StopWait i k → order L !! i = Some g0 →
  cancels (groups s g0) !! k = Some (d, CancelReturned) → sys_inv (set_stop s (StopNext (S i))).
Proof.
  intros [Hg Hbod Hleft Hcalls Hwait Hnext Hgone Hdr] Hi Hord Hk.
  split; unfold set_stop; cbn [groups bodies stop]; try done.
  - intros g k' d' c Hk'. left. destruct (Hcalls g k' d' c Hk') as [?|(i' & Hi' & Hord')]; [done|].
    rewrite Hi in Hi'. simplify_eq. by simplify_eq.
  - intros i' [= <-]. by eapply lookup_lt_Some.
  - intros i' b id [= <-]. cbn. intros [Hst|[Hg0%bool_decide_eq_true Hsp]%andb_true_iff]%orb_true_iff Hid.
    { apply (Hgone i); [by rewrite Hi|done..]. }
    rewrite Hord in Hg0. simplify_eq.
    pose proof (Hdr i k d CancelReturned b id Hi Hord Hk ltac:(done) Hsp Hid) as Hnin.
    destruct (Hleft (group_of L b) id) as [?|[?|([d' c'] & Hc & Hd)]]; [by apply Hbod|done..|].
    apply list_elem_of_lookup in Hc as [k' Hk'].
    destruct (Hcalls _ k' d' c' Hk') as [->|(i' & Hi' & _)].
    + eapply returned_over; [done|by eapply list_elem_of_lookup_2|done].
    + rewrite Hi in Hi'. simplify_eq. eapply returned_over; [done|by eapply list_elem_of_lookup_2|done].
Qed.

Lemma sys_step_inv s s' : sys_inv s → sys_step s s' → sys_inv s'.
Proof.
  intros Hinv Hs.
  destruct Hs as [s b Hr|s b id b' Hrun Hsp|s g x Hs|s Hst|s i g Hi Hord|s i k g d Hi Hord Hk].
  - apply sys_inv_spawn; [done|]. intros i Hi. destruct Hr as [[_ Hst]|Hl]; [by rewrite Hst in Hi|].
    rewrite Hl. split; [by apply late_not_stopped|done].
  - apply sys_inv_spawn; [done|]. intros i Hi. pose proof (running_not_over _ _ _ Hrun) as Hno.
    assert (stopped i b = false) as Hb.
    { apply not_true_is_false. intros Hb. apply Hno. eapply si_gone; [done..|]. by destruct Hrun. }
    split; apply not_true_is_false.
    + intros Hb'. by rewrite (stopped_spawner i b b') in Hb.
    + rewrite andb_true_iff, forallb_forall. intros [_ Hall]. rewrite Hall in Hb; [done|]. by apply list_elem_of_In.
  - by apply inv_own.
  - destruct Hinv. split; cbn; try done.
    + intros g k d c Hk. destruct (si_calls0 g k d c Hk) as [?|(? & ? & _)]; [by left|congruence].
    + intros i [= <-]. lia.
    + by intros ? ? ? [= <-].
  - by apply inv_cancel.
  - by eapply inv_cancelled.
Qed.

Lemma sys_reachable_inv s : rtc sys_step new_system s → sys_inv s.
Proof. intros Hr. pose proof inv_new as Hnew. induction Hr; eauto using sys_step_inv. Qed.

(** ** A shutdown can return *)

Lemma sys_steps_inv s s' : rtc sys_step s s' → sys_inv s → sys_inv s'.
Proof. induction 1; eauto using sys_step_inv. Qed.

(** The steps of a group are steps of the system. *)
Lemma lift_own s g x :
  rtc own_step (groups s g) x →
  ∃ s', rtc sys_step s s' ∧ groups s' g = x ∧ (∀ g', g' ≠ g → groups s' g' = groups s g') ∧
    bodies s' = bodies s ∧ stop s' = stop s.
Proof.
  intros Hr. remember (groups s g) as y eqn:Hy. revert s Hy.
  induction Hr as [y|y x1 x Hs Hr IH]; intros s ->; [by exists s|].
  destruct (IH (set_group s g x1)) as (s' & Hr' & Hg & Hne & Hb & Hst).
  { unfold set_group. cbn [groups]. by rewrite fn_lookup_insert. }
  exists s'. split_and!; try done; [by eapply rtc_l; [apply sys_own|]|].
  intros g' Hg'. rewrite Hne by done. unfold set_group. cbn [groups]. by rewrite fn_lookup_insert_ne.
Qed.

Lemma finish_wait s i k :
  sys_inv s → stop s = StopWait i k → ∃ s', rtc sys_step s s' ∧ stop s' = StopNext (S i).
Proof.
  intros Hinv Hi. destruct (si_wait s Hinv i k Hi) as (g & [d c] & Hord & Hk).
  destruct (call_returns _ k d c (si_group s Hinv g) Hk) as (x & d' & Hr & Hret & _).
  destruct (lift_own s g x Hr) as (s' & Hr' & <- & _ & _ & Hst).
  exists (set_stop s' (StopNext (S i))). split; [eapply rtc_r; [exact Hr'|]|done].
  apply (sys_cancelled s' i k g d'); [by rewrite Hst|done..].
Qed.

Lemma finish_stop n : ∀ s i,
  sys_inv s → stop s = StopNext i → length (order L) - i = n →
  ∃ s', rtc sys_step s s' ∧ stop s' = StopNext (length (order L)).
Proof.
  induction n as [|n IH]; intros s i Hinv Hi Hn; pose proof (si_next s Hinv i Hi) as Hle.
  { exists s. split; [done|]. rewrite Hi. f_equal. lia. }
  destruct (lookup_lt_is_Some_2 (order L) i) as [g Hg]; [lia|].
  assert (sys_step s _) as Hs by by apply sys_cancel.
  destruct (finish_wait _ i (length (cancels (groups s g))) (sys_step_inv _ _ Hinv Hs)) as (s1 & Hr1 & Hi1); [done|].
  destruct (IH s1 (S i)) as (s2 & Hr2 & Hi2); [|done|lia|].
  { eapply sys_steps_inv; [exact Hr1|]. by eapply sys_step_inv. }
  exists s2. split; [|done]. eapply rtc_l; [exact Hs|]. by etrans.
Qed.

(** ** What a shutdown can leave *)

Lemma spawn_running s b : running (spawn_body s b) b (next_id (groups s (group_of L b))).
Proof.
  unfold running, spawn_body. cbn [groups bodies]. rewrite !fn_lookup_insert. cbn.
  rewrite !lookup_insert_eq. split; [done|]. by eexists.
Qed.

Lemma start_running b : spawnable b → ∃ s id, rtc sys_step new_system s ∧ stop s = StopNotCalled ∧ running s b id.
Proof.
  induction 1 as [b Hroot|b b' _ (s & id & Hr & Hst & Hrun) Hin].
  - eexists _, _. split_and!; [apply rtc_once, sys_start; naive_solver|done|apply spawn_running].
  - eexists _, _. split_and!; [eapply rtc_r; [exact Hr|by eapply sys_spawn]|done|apply spawn_running].
Qed.

(** A call of [cancel] that has drained its group ends without touching a task it
    did not drain. *)
Lemma outlives_cancel s i k g d todo b id :
  sys_inv s → stop s = StopWait i k → order L !! i = Some g →
  cancels (groups s g) !! k = Some (d, CancelNext todo) →
  running s b id → (group_of L b = g → id ∉ todo) →
  ∃ s', rtc sys_step s s' ∧ stop s' = StopNext (S i) ∧ running s' b id.
Proof.
  intros Hinv Hi Hord Hk [Hb (t & Ht & Hpc)] Hnin.
  destruct (group_cancel_completes todo _ k d (si_group s Hinv g) Hk) as (x & Hr & Hret & _ & _ & _ & Hu).
  destruct (lift_own s g x Hr) as (s' & Hr' & Hg & Hne & Hbod & Hst).
  exists (set_stop s' (StopNext (S i))). split_and!; [eapply rtc_r; [exact Hr'|]|done|].
  - apply (sys_cancelled s' i k g d); [by rewrite Hst|done|by rewrite Hg].
  - split; cbn [set_stop bodies groups]; [by rewrite Hbod|]. exists t. split; [|done].
    destruct (decide (group_of L b = g)) as [Heq|]; [|by rewrite Hne].
    rewrite Heq, Hg, Hu; [by rewrite <-Heq|by apply Hnin].
Qed.

(** The shutdown cancels a group up to the point where it has drained it. *)
Lemma cancel_drained s i g :
  sys_inv s → stop s = StopNext i → order L !! i = Some g →
  ∃ s' k d, rtc sys_step s s' ∧ stop s' = StopWait i k ∧ cancels (groups s' g) !! k = Some (d, CancelNext d) ∧
    ∀ b id, running s b id → running s' b id.
Proof.
  intros Hinv Hi Hord. set (k := length (cancels (groups s g))). set (d := elements (tasks (groups s g))).
  set (s1 := set_stop (set_group s g (cancel (groups s g))) (StopWait i k)).
  assert (groups s1 g = cancel (groups s g)) as Hs1 by (unfold s1; cbn; by rewrite fn_lookup_insert).
  set (x := mkGroup (spawned (groups s1 g)) ∅ (next_id (groups s1 g)) (<[k := (d, CancelNext d)]> (cancels (groups s1 g)))).
  exists (set_group s1 g x), k, d. split_and!; [|done| |].
  - eapply rtc_l; [by apply (sys_cancel s i g)|]. apply rtc_once, sys_own. fold s1.
    apply cancel_drain; rewrite Hs1; [|done]. cbn. apply lookup_snoc_Some. by right.
  - unfold set_group. cbn [groups]. rewrite fn_lookup_insert. unfold x. cbn [cancels].
    apply list_lookup_insert_eq. rewrite Hs1. cbn. rewrite length_app. cbn. lia.
  - intros b id [Hb (t & Ht & Hpc)]. split; [done|]. exists t. split; [|done].
    unfold set_group. cbn [groups]. destruct (decide (group_of L b = g)) as [Heq|].
    + rewrite Heq in *. rewrite fn_lookup_insert. unfold x. cbn [spawned]. by rewrite Hs1.
    + rewrite fn_lookup_insert_ne by done. unfold s1. cbn. by rewrite fn_lookup_insert_ne.
Qed.

Lemma outlives i :
  i ≤ length (order L) → (∀ b, spawnable b) → ∀ b, stopped i b = false →
  ∃ s id, rtc sys_step new_system s ∧ stop s = StopNext i ∧ running s b id.
Proof.
  intros Hlen Hall. induction i as [|i IH]; intros b Hb.
  { destruct (start_running b (Hall b)) as (s & id & Hr & Hst & Hrun). eexists _, id.
    split_and!; [eapply rtc_r; [exact Hr|by apply sys_shutdown]|done|exact Hrun]. }
  cbn in Hb. apply orb_false_iff in Hb as [Hbi Hb].
  destruct (lookup_lt_is_Some_2 (order L) i) as [g Hg]; [lia|].
  destruct (late L b) eqn:Hlate.
  { destruct (IH ltac:(lia) b Hbi) as (s & id & Hr & Hi & _). pose proof (sys_reachable_inv s Hr) as Hinv.
    assert (sys_step s _) as Hs by by apply (sys_cancel s i g).
    destruct (finish_wait _ i (length (cancels (groups s g))) (sys_step_inv _ _ Hinv Hs)) as (s1 & Hr1 & Hi1); [done|].
    eexists (spawn_body s1 b), _. split_and!; [|done|apply spawn_running].
    eapply rtc_r; [|apply sys_start; by right]. etrans; [exact Hr|]. by eapply rtc_l. }
  destruct (decide (g = group_of L b)) as [->|Hne].
  - rewrite bool_decide_true in Hb by done. cbn in Hb.
    apply forallb_false in Hb as (p & Hp & Hpi).
    destruct (IH ltac:(lia) p Hpi) as (s & id & Hr & Hi & Hrun).
    pose proof (sys_reachable_inv s Hr) as Hinv.
    destruct (cancel_drained s i _ Hinv Hi Hg) as (s1 & k & d & Hr1 & Hi1 & Hk & Hkeep).
    pose proof (sys_steps_inv _ _ Hr1 Hinv) as Hinv1.
    assert (sys_step s1 (spawn_body s1 b)) as Hs2 by by eapply sys_spawn; [by apply Hkeep|].
    destruct (outlives_cancel (spawn_body s1 b) i k (group_of L b) d d b (next_id (groups s1 (group_of L b))))
      as (s3 & Hr3 & Hi3 & Hrun3); [by eapply sys_step_inv|done|done| |apply spawn_running| |].
    + unfold spawn_body. cbn [groups]. by rewrite fn_lookup_insert.
    + intros _ Hin. destruct (gi_pending _ (si_group s1 Hinv1 (group_of L b)) (d, CancelNext d)
        (next_id (groups s1 (group_of L b)))) as [t Ht]; [by eapply list_elem_of_lookup_2|done|].
      apply (gi_task _ (si_group s1 Hinv1 _)) in Ht as [_ ?]. lia.
    + exists s3, (next_id (groups s1 (group_of L b))). split_and!; [|done|done].
      etrans; [exact Hr|]. etrans; [exact Hr1|]. by eapply rtc_l.
  - destruct (IH ltac:(lia) b Hbi) as (s & id & Hr & Hi & Hrun).
    pose proof (sys_reachable_inv s Hr) as Hinv.
    destruct (cancel_drained s i g Hinv Hi Hg) as (s1 & k & d & Hr1 & Hi1 & Hk & Hkeep).
    destruct (outlives_cancel s1 i k g d d b id) as (s2 & Hr2 & Hi2 & Hrun2); try done.
    + by eapply sys_steps_inv.
    + by apply Hkeep.
    + exists s2, id. split_and!; [|done|done]. etrans; [exact Hr|]. by etrans.
Qed.

(** What outlives a shutdown.  A component whose tasks live in task groups, are
    spawned by calls and by one another, and whose shutdown cancels the groups
    in order: when the shutdown has returned, a task can still be running exactly
    when it is not stopped for good, that is, when a call in progress can spawn it or
    its group was never cancelled after the last of the tasks that spawn it had ended; tasks that are stopped for
    good have run their callbacks to the end.  A shutdown that was called can always
    return. *)
Theorem shutdown_exact :
  (∀ b, spawnable b) →
  (∀ b, (∃ s id, rtc sys_step new_system s ∧ stop s = StopNext (length (order L)) ∧ running s b id) ↔
    stopped (length (order L)) b = false) ∧
  (∀ s b id, rtc sys_step new_system s → stop s = StopNext (length (order L)) →
    stopped (length (order L)) b = true → bodies s (group_of L b) !! id = Some b →
    task_over (groups s (group_of L b)) id) ∧
  (∀ s, rtc sys_step new_system s → stop s ≠ StopNotCalled →
    ∃ s', rtc sys_step s s' ∧ stop s' = StopNext (length (order L))).
Proof.
  intros Hall.
  assert (∀ s b id, rtc sys_step new_system s → stop s = StopNext (length (order L)) →
    stopped (length (order L)) b = true → bodies s (group_of L b) !! id = Some b →
    task_over (groups s (group_of L b)) id) as Hgone.
  { intros s b id Hr%sys_reachable_inv Hst. apply (si_gone s Hr). by rewrite Hst. }
  split_and!; [|exact Hgone|].
  - intros b. split; [|by apply outlives].
    intros (s & id & Hr & Hst & Hrun). apply not_true_is_false. intros Hb.
    apply (running_not_over s b id Hrun). apply (Hgone s); [done..|apply Hrun].
  - intros s Hinv%sys_reachable_inv Hst. destruct (stop s) as [|i|i k] eqn:Hi; [done|by eapply finish_stop|].
    destruct (finish_wait s i k Hinv Hi) as (s1 & Hr1 & Hi1).
    destruct (finish_stop (length (order L) - S i) s1 (S i)) as (s2 & Hr2 & Hi2); [by eapply sys_steps_inv|done..|].
    exists s2. split; [by etrans|done].
Qed.

End lifecycle.
