(* ===== verification/Connection.v ===== *)
(** * Peers and their connections

    Models [p2p/src/peer/mod.rs], [p2p/src/peer/connection.rs] and
    [p2p/src/protocol/peer_conn.rs] for a connection that is one framed pipe
    (TCP and TLS): the writer and reader tasks, the protocol tasks, the calls
    of [send], and the way a peer stops and shuts down.

    Tasks interleave at every await.  The queues are the atomic bounded queues
    that the tasks of [Queue] implement.  What a protocol does is user code: it
    may send and receive in any order and end at any time with any result. *)

From S2P Require Import Prelude Codec Endpoint Framed Message Queue.

Inductive ProtocolEvent :=
| EvMessage (bs : list Z)
| EvShutdown.

Definition SEND_QUEUE_SIZE : nat := 128.
Definition RECV_QUEUE_SIZE : nat := 128.

(** [async_channel::Sender::try_send] on a channel of capacity one. *)
Definition try_send {A} (ch : option A) (a : A) : option A :=
  match ch with None => Some a | Some _ => ch end.

Section connection.
Context `{BincodeU32} `{Bincode PeerNetMsg} `{Bincode ProtocolMsg} `{Bincode ShutdownMsg}.

Abbreviation fwriter := (FramedWriter.t MsgCodec.t).
Abbreviation freader := (FramedReader.t MsgCodec.t).

(** ** Tasks of a peer *)

(** The bytes of a send are those the stream has taken so far. *)
Inductive writer_pc :=
| WRecv (w : fwriter)
| WSend (w : fwriter) (msg : PeerNetMsg) (out : list Z)
| WEnd.

Inductive reader_pc :=
| RRecv (r : freader)
| RPush (r : freader) (id : ProtocolID) (bs : list Z)
| REnd.

Inductive run_pc :=
| RunInit
| RunWait
| RunEnd (res : result p2p_error ())
| RunCancelled.

Definition run_over (r : run_pc) : bool :=
  match r with RunEnd _ | RunCancelled => true | _ => false end.

(** [Peer::shutdown]: not called, pushing the shutdown message, pushing the
    shutdown events, reporting the close, cancelling the tasks, done. *)
Inductive shut_pc :=
| ShIdle
| ShMsg (msg : PeerNetMsg)
| ShBroadcast (ids : list ProtocolID)
| ShStop
| ShClose
| ShCancel
| ShDone.

(** A peer: its connection, channels and tasks.  The last five fields are
    history: the messages ever pushed into the send queue and the payloads of
    the protocol messages among them, the bytes the stream took of finished
    sends, the payloads
    the reader put into the receive queues, and the events received by the
    protocols. *)
Record peer := mkPeer {
  negotiated_protocols : list ProtocolID;
  send_queue : list PeerNetMsg;
  recv_queues : gmap ProtocolID (list ProtocolEvent);
  senders : list (ProtocolID * list Z * PeerNetMsg);
  writer_task : writer_pc;
  reader_task : reader_pc;
  protos : gmap ProtocolID bool;
  stop_reason : option (result p2p_error ());
  run_task : run_pc;
  shutdown_call : shut_pc;
  conn_closed : option (result p2p_error ());
  incoming : list read_ev;
  queued : list PeerNetMsg;
  sent : list (ProtocolID * list Z);
  written : list Z;
  routed : list (ProtocolID * list Z);
  taken : list (ProtocolID * ProtocolEvent);
}.

Definition set_io (p : peer) (sq : list PeerNetMsg) (ss : list (ProtocolID * list Z * PeerNetMsg))
    (w : writer_pc) (q : list PeerNetMsg) (s : list (ProtocolID * list Z)) (out : list Z) : peer :=
  mkPeer (negotiated_protocols p) sq (recv_queues p) ss w (reader_task p) (protos p) (stop_reason p) (run_task p)
    (shutdown_call p) (conn_closed p) (incoming p) q s out (routed p) (taken p).

Definition set_read (p : peer) (rq : gmap ProtocolID (list ProtocolEvent)) (r : reader_pc)
    (inc : list read_ev) (rt : list (ProtocolID * list Z))
    (tk : list (ProtocolID * ProtocolEvent)) : peer :=
  mkPeer (negotiated_protocols p) (send_queue p) rq (senders p) (writer_task p) r (protos p) (stop_reason p)
    (run_task p) (shutdown_call p) (conn_closed p) inc (queued p) (sent p) (written p) rt tk.

Definition set_control (p : peer) (ps : gmap ProtocolID bool) (sr : option (result p2p_error ()))
    (run : run_pc) (sh : shut_pc) (cl : option (result p2p_error ())) : peer :=
  mkPeer (negotiated_protocols p) (send_queue p) (recv_queues p) (senders p) (writer_task p) (reader_task p) ps sr
    run sh cl (incoming p) (queued p) (sent p) (written p) (routed p) (taken p).

(** The bytes the stream has taken. *)
Definition stream_out (p : peer) : list Z :=
  written p ++ match writer_task p with WSend _ _ out => out | _ => [] end.

(** ** Operations *)

Definition build_recv_queues (proto_ids : list ProtocolID) : gmap ProtocolID (list ProtocolEvent) :=
  list_to_map (map (λ id, (id, [])) proto_ids).

(** [SingleConnection::from_queued] and [Peer::new] over it. *)
Definition peer_new (r : freader) (w : fwriter) (negotiated : list ProtocolID) : peer :=
  mkPeer negotiated [] (build_recv_queues negotiated) [] (WRecv w) (RRecv r) ∅ None RunInit ShIdle None
    [] [] [] [] [] [].

(** [SingleConnection::send] up to the push. *)
Definition send_net_msg (proto_id : ProtocolID) (payload : list Z) : result p2p_error PeerNetMsg :=
  PeerNetMsg_new CmdProtocol (mkProtocolMsg proto_id payload).

(** [SingleConnection::recv]: the queue to receive from. *)
Definition recv_queue_of (rq : gmap ProtocolID (list ProtocolEvent)) (proto_id : ProtocolID) :
    result p2p_error (list ProtocolEvent) :=
  ok_or (rq !! proto_id) (UnsupportedProtocol proto_id).

(** [PeerConn::recv] on the event it gets. *)
Definition event_bytes (ev : ProtocolEvent) : result p2p_error (list Z) :=
  match ev with
  | EvMessage bytes => Ok bytes
  | EvShutdown => Err PeerShutdown
  end.

(** One round of the demux reader: the queue and bytes to push, or the reason
    to stop. *)
Definition demux (rq : gmap ProtocolID (list ProtocolEvent)) (res : result net_error PeerNetMsg) :
    result p2p_error (ProtocolID * list Z) :=
  msg ← map_err KaryonNet res;
  match command (header msg) with
  | CmdProtocol =>
      '(proto_msg, _) ← decode (T := ProtocolMsg) (payload msg);
      match rq !! protocol_id proto_msg with
      | Some _ => Ok (protocol_id proto_msg, msg_payload proto_msg)
      | None => Err (UnsupportedProtocol (protocol_id proto_msg))
      end
  | CmdShutdown => Err PeerShutdown
  | _ => Err (InvalidMsg "Unexpected msg")
  end.

(** [Peer::run_connect_protocols]: the protocols started, given the attached
    ones. *)
Definition run_connect_protocols (attached : list ProtocolID) (negotiated : list ProtocolID) :
    gmap ProtocolID bool :=
  list_to_map (map (λ id, (id, true)) (filter (λ id, id ∈ negotiated) attached)).

(** [SingleConnection::shutdown] up to its first push. *)
Definition shutdown_start : shut_pc :=
  match PeerNetMsg_new CmdShutdown (mkShutdownMsg 0) with
  | Ok m => ShMsg m
  | Err _ => ShStop
  end.

(** ** Steps *)

Inductive step : peer → peer → Prop :=
(** Calls of [Peer::send], by protocols, broadcasts or the application.  A call
    that does not encode returns its error and changes nothing. *)
| send_begin p id bs m :
    send_net_msg id bs = Ok m →
    step p (set_io p (send_queue p) (senders p ++ [(id, bs, m)]) (writer_task p) (queued p) (sent p)
      (written p))
| send_push p i id bs m sq :
    senders p !! i = Some (id, bs, m) →
    atomic_step SEND_QUEUE_SIZE (send_queue p) (OpPush m) sq →
    step p (set_io p sq (delete i (senders p)) (writer_task p) (queued p ++ [m])
      (sent p ++ [(id, bs)]) (written p))
| send_drop p i :
    step p (set_io p (send_queue p) (delete i (senders p)) (writer_task p) (queued p) (sent p)
      (written p))
(** The writer task. *)
| writer_recv p w m sq :
    writer_task p = WRecv w →
    atomic_step SEND_QUEUE_SIZE (send_queue p) (OpRecv m) sq →
    step p (set_io p sq (senders p) (WSend w m []) (queued p) (sent p) (written p))
| writer_partial p w m out0 writes flush w' out rest :
    writer_task p = WSend w m out0 → out0 `prefix_of` out →
    FramedWriter.send_msg w m writes flush = (Pending, w', out, rest) →
    step p (set_io p (send_queue p) (senders p) (WSend w m out) (queued p) (sent p) (written p))
| writer_sent p w m out0 writes flush w' out rest :
    writer_task p = WSend w m out0 → out0 `prefix_of` out →
    FramedWriter.send_msg w m writes flush = (Ready (Ok ()), w', out, rest) →
    step p (set_io p (send_queue p) (senders p) (WRecv w') (queued p) (sent p) (written p ++ out))
| writer_failed p w m out0 writes flush e w' out rest :
    writer_task p = WSend w m out0 → out0 `prefix_of` out →
    FramedWriter.send_msg w m writes flush = (Ready (Err e), w', out, rest) →
    step p (set_io p (send_queue p) (senders p) WEnd (queued p) (sent p) (written p ++ out))
(** The reader task. *)
| reader_msg p r res r' inc id bs :
    reader_task p = RRecv r →
    FramedReader.recv_msg r (incoming p) = (Ready res, r', inc) →
    demux (recv_queues p) res = Ok (id, bs) →
    step p (set_read p (recv_queues p) (RPush r' id bs) inc (routed p) (taken p))
| reader_push p r id bs q q' :
    reader_task p = RPush r id bs → recv_queues p !! id = Some q →
    atomic_step RECV_QUEUE_SIZE q (OpPush (EvMessage bs)) q' →
    step p (set_read p (<[id := q']> (recv_queues p)) (RRecv r) (incoming p)
      (routed p ++ [(id, bs)]) (taken p))
| reader_stop p r res r' inc e :
    reader_task p = RRecv r →
    FramedReader.recv_msg r (incoming p) = (Ready res, r', inc) →
    demux (recv_queues p) res = Err e →
    step p (set_control (set_read p (recv_queues p) REnd inc (routed p) (taken p))
      (protos p) (try_send (stop_reason p) (Err e)) (run_task p) (shutdown_call p) (conn_closed p))
(** [Peer::run] and the protocol tasks. *)
| run_start p attached :
    run_task p = RunInit →
    step p (set_control p (run_connect_protocols attached (negotiated_protocols p)) (stop_reason p)
      RunWait (shutdown_call p) (conn_closed p))
| proto_recv p id ev q q' :
    protos p !! id = Some true → recv_queue_of (recv_queues p) id = Ok q →
    atomic_step RECV_QUEUE_SIZE q (OpRecv ev) q' →
    step p (set_read p (<[id := q']> (recv_queues p)) (reader_task p) (incoming p) (routed p)
      (taken p ++ [(id, ev)]))
| proto_end p id res :
    protos p !! id = Some true →
    step p (set_control p (<[id := false]> (protos p)) (try_send (stop_reason p) res) (run_task p)
      (shutdown_call p) (conn_closed p))
| run_stop p res :
    run_task p = RunWait → stop_reason p = Some res →
    step p (set_control p (protos p) None (RunEnd res) (shutdown_call p) (conn_closed p))
(** The pool cancels a peer's [run] when it shuts down itself. *)
| run_cancel p :
    run_over (run_task p) = false →
    step p (set_control p (protos p) (stop_reason p) RunCancelled (shutdown_call p) (conn_closed p))
(** [Peer::shutdown], called once [run] is over.  A peer that was admitted while the
    pool was being cancelled, which the pool shuts down although it runs, is left
    out. *)
| shut_begin p :
    shutdown_call p = ShIdle → run_over (run_task p) = true →
    step p (set_control p (protos p) (stop_reason p) (run_task p) shutdown_start (conn_closed p))
| shut_msg p m sq ids :
    shutdown_call p = ShMsg m → ids ≡ₚ map fst (map_to_list (recv_queues p)) →
    atomic_step SEND_QUEUE_SIZE (send_queue p) (OpPush m) sq →
    step p (set_control
      (set_io p sq (senders p) (writer_task p) (queued p ++ [m]) (sent p) (written p))
      (protos p) (stop_reason p) (run_task p) (ShBroadcast ids) (conn_closed p))
| shut_event p id ids q q' :
    shutdown_call p = ShBroadcast (id :: ids) → recv_queues p !! id = Some q →
    atomic_step RECV_QUEUE_SIZE q (OpPush EvShutdown) q' →
    step p (set_control
      (set_read p (<[id := q']> (recv_queues p)) (reader_task p) (incoming p) (routed p) (taken p))
      (protos p) (stop_reason p) (run_task p) (ShBroadcast ids) (conn_closed p))
| shut_broadcast_end p :
    shutdown_call p = ShBroadcast [] →
    step p (set_control p (protos p) (stop_reason p) (run_task p) ShStop (conn_closed p))
| shut_stop p :
    shutdown_call p = ShStop →
    step p (set_control p (protos p) (try_send (stop_reason p) (Ok ())) (run_task p) ShClose
      (conn_closed p))
| shut_close p :
    shutdown_call p = ShClose → conn_closed p = None →
    step p (set_control p (protos p) (stop_reason p) (run_task p) ShCancel (Some (Ok ())))
| cancel_writer p :
    shutdown_call p = ShCancel →
    step p (set_io p (send_queue p) (senders p) WEnd (queued p) (sent p) (stream_out p))
| cancel_reader p :
    shutdown_call p = ShCancel →
    step p (set_read p (recv_queues p) REnd (incoming p) (routed p) (taken p))
| cancel_proto p id :
    shutdown_call p = ShCancel → protos p !! id = Some true →
    step p (set_control p (<[id := false]> (protos p)) (stop_reason p) (run_task p) ShCancel
      (conn_closed p))
| shut_done p :
    shutdown_call p = ShCancel → writer_task p = WEnd → reader_task p = REnd →
    (∀ id, protos p !! id ≠ Some true) →
    step p (set_control p (protos p) (stop_reason p) (run_task p) ShDone (conn_closed p)).

(** ** A link of two peers

    [far] reads from its stream the bytes that [near] wrote to its own, cut in
    any way and possibly ended early; [near] reads anything. *)

Record link := mkLink { near : peer; far : peer; arrived : list Z; ended : bool }.

Definition peer_read (p : peer) (ev : read_ev) : peer :=
  set_read p (recv_queues p) (reader_task p) (incoming p ++ [ev]) (routed p) (taken p).

Inductive link_step : link → link → Prop :=
| link_near l p : step (near l) p → link_step l (mkLink p (far l) (arrived l) (ended l))
| link_far l p : step (far l) p → link_step l (mkLink (near l) p (arrived l) (ended l))
| link_near_read l ev :
    link_step l (mkLink (peer_read (near l) ev) (far l) (arrived l) (ended l))
| link_data l bs :
    ended l = false → bs ≠ [] → arrived l ++ bs `prefix_of` stream_out (near l) →
    link_step l (mkLink (near l) (peer_read (far l) (RData bs)) (arrived l ++ bs) false)
| link_end l ev :
    ended l = false → ev = RData [] ∨ (∃ k, ev = RErr k) →
    link_step l (mkLink (near l) (peer_read (far l) ev) (arrived l) true).

Definition link_new (ids1 ids2 : list ProtocolID) (peer1 local1 peer2 local2 : option Endpoint) : link :=
  let a := framed peer1 local1 MsgCodec.new in
  let b := framed peer2 local2 MsgCodec.new in
  mkLink (peer_new (reader a) (writer a) ids1) (peer_new (reader b) (writer b) ids2) [] false.

End connection.
Arguments peer : clear implicits.
