(* ===== verification/ConnectionSpec.v ===== *)
(** * Peers and their connections: theorems

    A protocol of one peer and the same protocol of the peer at the other end
    of the connection have a reliable ordered channel between them, over the
    shared pipe and its framing. *)

From S2P Require Import Prelude Codec Endpoint Framed Message Queue Connection.

(** ** Reading a stream of frames *)

Section reading.
Context {C M : Type} `{Codec C M net_error} (c : C).
Context (valid : M → Prop) (frame : M → list Z) `{!Framing c valid frame}.
Hypothesis decode_nothing : Codec.decode c (mkBuffer []) = Ok None.
Import FramedReader.

Abbreviation stream ms := (concat (map frame ms)).
Abbreviation nonempty chunks := (Forall (λ bs : list Z, bs ≠ []) chunks).

(** The reads that end a stream, or none. *)
Definition is_tail (tail : list read_ev) : Prop :=
  tail = [] ∨ tail = [RData []] ∨ ∃ k, tail = [RErr k].

Definition not_ok (o : poll (result net_error M)) : Prop := ∀ m, o ≠ Ready (Ok m).

(** Bytes with no whole frame in them give no message. *)
Lemma recv_loop_short chunks tail : ∀ r : t C,
  decoder r = c → nonempty chunks → is_tail tail →
  (∀ p, p `prefix_of` inner (buffer r) ++ concat chunks → Codec.decode c (mkBuffer p) = Ok None) →
  not_ok (recv_loop r (map RData chunks ++ tail)).1.1.
Proof.
  induction chunks as [|bs chunks IH]; intros r Hc Hne Htail Hshort; simpl.
  - destruct Htail as [->|[->|[k ->]]]; simpl; [done| |done]. by destruct (Buffer.is_empty _).
  - apply Forall_cons in Hne as [Hbs Hne]. destruct bs as [|x bs]; [done|].
    set (r' := set_buffer r _).
    assert (inner (buffer r') = inner (buffer r) ++ (x :: bs)) as Hb by done.
    unfold try_decode. replace (Codec.decode _ (buffer r')) with (Ok (E := net_error) (@None (Z * M))).
    + apply IH; [done..|]. intros p Hp. apply Hshort. by rewrite Hb, <-app_assoc in Hp.
    + symmetry. destruct (buffer r') as [b] eqn:Hr'. simpl in Hb. rewrite Hb.
      change (decoder r') with (decoder r). rewrite Hc. apply Hshort. simpl.
      exists (concat chunks). by rewrite <-app_assoc.
Qed.

Lemma recv_msg_short (r : t C) chunks tail :
  decoder r = c → nonempty chunks → is_tail tail →
  (∀ p, p `prefix_of` inner (buffer r) ++ concat chunks → Codec.decode c (mkBuffer p) = Ok None) →
  not_ok (recv_msg r (map RData chunks ++ tail)).1.1.
Proof.
  intros Hc Hne Htail Hshort. unfold recv_msg, try_decode.
  destruct (buffer r) as [b] eqn:Hb. rewrite Hc, Hshort by by apply prefix_app_r.
  apply recv_loop_short; [done..|]. by rewrite Hb.
Qed.

Lemma partial_frame m q p :
  valid m → (∃ l, l ≠ [] ∧ frame m = q ++ l) → p `prefix_of` q → Codec.decode c (mkBuffer p) = Ok None.
Proof.
  intros Hm (l & Hl & Hf) (k & ->). eapply (framing_partial m p (k ++ l)); [done| |].
  - by rewrite Hf, <-app_assoc.
  - destruct k; [done|]. done.
Qed.

(** A reader whose unread bytes are the beginning of a stream of frames reads
    the first message of that stream, or none. *)
Lemma recv_next (r r' : t C) chunks tail inc ms q m :
  decoder r = c → Forall valid ms → nonempty chunks → is_tail tail →
  inner (buffer r) ++ concat chunks ++ q = stream ms →
  recv_msg r (map RData chunks ++ tail) = (Ready (Ok m), r', inc) →
  ∃ ms' b chunks', ms = m :: ms' ∧ r' = set_buffer r b ∧ inc = map RData chunks' ++ tail ∧
    nonempty chunks' ∧ inner (buffer r) ++ concat chunks = frame m ++ inner b ++ concat chunks'.
Proof using decode_nothing Framing0.
  intros Hc Hv Hne Htail Hs Hrecv. rewrite app_assoc in Hs.
  destruct ms as [|m' ms]; simpl in Hs.
  - apply app_eq_nil in Hs as [Hnil _].
    edestruct recv_msg_short as []; [exact Hc|exact Hne|exact Htail| |by rewrite Hrecv].
    rewrite Hnil. by intros p ->%prefix_nil_inv.
  - apply Forall_cons in Hv as [Hm' Hv].
    destruct (app_align _ _ _ _ Hs) as [(l & Hl & _)|(l & Hl & Hf & _)].
    + destruct (recv_msg_step c valid frame r m' l chunks tail) as (b & chunks' & Hstep & Hne' & <-);
        [done..|].
      rewrite Hstep in Hrecv. simplify_eq. exists ms, b, chunks'. by rewrite Hl.
    + edestruct recv_msg_short as []; [exact Hc|exact Hne|exact Htail| |by rewrite Hrecv].
      intros p. eapply partial_frame; [done|by eauto].
Qed.

(** A reader that waits has read every message of the bytes it got. *)
Lemma recv_waits (r r' : t C) chunks ms inc :
  decoder r = c → Forall valid ms → nonempty chunks →
  inner (buffer r) ++ concat chunks = stream ms →
  recv_msg (M := M) r (map RData chunks) = (Pending, r', inc) → ms = [].
Proof using Framing0.
  intros Hc Hv Hne Hs Hrecv. destruct ms as [|m ms]; [done|]. apply Forall_cons in Hv as [Hm Hv].
  destruct (recv_msg_step c valid frame r m (stream ms) chunks []) as (b & chunks' & Hstep & _);
    [done..|].
  rewrite app_nil_r in Hstep. by rewrite Hstep in Hrecv.
Qed.

Lemma stream_inj_prefix ms ms' :
  Forall valid ms' → ms `prefix_of` ms' ∨ ms' `prefix_of` ms → Forall valid ms →
  stream ms `prefix_of` stream ms' → ms `prefix_of` ms'.
Proof using Framing0.
  intros Hv' [?|[k ->]] Hv Hs; [done|]. destruct k as [|m k]; [by rewrite app_nil_r|].
  rewrite map_app, concat_app in Hs. apply Forall_app in Hv as [_ [Hm _]%Forall_cons].
  destruct Hs as [l Hs]. rewrite <-app_assoc in Hs. apply (f_equal length) in Hs.
  rewrite !length_app in Hs. simpl in Hs. rewrite length_app in Hs.
  pose proof (framing_nonempty m Hm) as Hnil. destruct (frame m); [done|]. simpl in Hs. lia.
Qed.

End reading.

(** ** The channel of a protocol *)

Section channel.
Context `{BincodeU32} {u32_laws : BincodeU32Laws}.
Context `{Bincode PeerNetMsg} `{Bincode ProtocolMsg} `{Bincode ShutdownMsg}.
Context (wf_msg : PeerNetMsg → Prop) {msg_laws : BincodeLaws PeerNetMsg wf_msg}.
Context (wf_proto : ProtocolMsg → Prop) {proto_laws : BincodeLaws ProtocolMsg wf_proto}.

Abbreviation codec := MsgCodec.new.
Abbreviation valid := (MsgCodec.valid (M := PeerNetMsg) wf_msg codec).
Abbreviation frame := (MsgCodec.frame (M := PeerNetMsg)).
Abbreviation stream ms := (concat (map frame ms)).

(** The protocol and the bytes a message carries. *)
Definition proto_of (m : PeerNetMsg) : option (ProtocolID * list Z) :=
  match command (header m) with
  | CmdProtocol =>
      match decode (T := ProtocolMsg) (payload m) with
      | Ok (pm, _) => Some (protocol_id pm, msg_payload pm)
      | Err _ => None
      end
  | _ => None
  end.

(** What a peer put into its send queue is serializable. *)
Definition typed (p : peer) : Prop :=
  Forall wf_msg (queued p) ∧ Forall (λ x, wf_proto (mkProtocolMsg x.1 x.2)) (sent p).

(** The payloads of one protocol. *)
Definition of_proto (id : ProtocolID) (l : list (ProtocolID * list Z)) : list (list Z) :=
  omap (λ x, if decide (x.1 = id) then Some x.2 else None) l.

Definition messages (l : list (ProtocolID * ProtocolEvent)) : list (ProtocolID * list Z) :=
  omap (λ x, match x.2 with EvMessage bs => Some (x.1, bs) | EvShutdown => None end) l.

(** *** The sending side *)

Definition writer_inv (p : peer) : Prop :=
  ∃ outs, Forall valid outs ∧
  match writer_task p with
  | WRecv w =>
      FramedWriter.encoder w = codec ∧ inner (FramedWriter.buffer w) = [] ∧
      written p = stream outs ∧ queued p = outs ++ send_queue p
  | WSend w m out =>
      FramedWriter.encoder w = codec ∧ inner (FramedWriter.buffer w) = [] ∧
      written p = stream outs ∧ queued p = outs ++ m :: send_queue p ∧
      (out = [] ∨ valid m ∧ out `prefix_of` frame m)
  | WEnd => written p `prefix_of` stream outs ∧ outs `prefix_of` queued p
  end.

Definition sent_inv (p : peer) : Prop :=
  sent p = omap proto_of (queued p) ∧
  Forall (λ x, send_net_msg x.1.1 x.1.2 = Ok x.2) (senders p) ∧
  match shutdown_call p with ShMsg m => proto_of m = None | _ => True end.

Definition near_inv (p : peer) : Prop := typed p → writer_inv p ∧ sent_inv p.

(** A message the codec refuses leaves nothing on the stream. *)
Lemma send_msg_cases w m writes flush o w' out rest :
  FramedWriter.encoder w = codec → inner (FramedWriter.buffer w) = [] → wf_msg m →
  FramedWriter.send_msg w m writes flush = (o, w', out, rest) →
  (valid m ∧ out `prefix_of` frame m ∧ FramedWriter.encoder w' = codec ∧
    (o = Ready (Ok ()) → inner (FramedWriter.buffer w') = [] ∧ out = frame m)) ∨
  (out = [] ∧ ∃ e, o = Ready (Err e)).
Proof using msg_laws u32_laws.
  intros Hc Hb Hwf Hsend.
  destruct (decide (Codec.len (MsgCodec.payload m) ≤ MAX_BUFFER_SIZE)%Z) as [Hlen|Hlen].
  - left. assert (valid m) as Hv.
    { split; [done|]. split; [done|]. unfold MAX_BUFFER_SIZE in Hlen. lia. }
    destruct (send_msg_bytes codec valid frame w m writes flush o w' out rest)
      as (He & Hout & _ & Hok); [done..|].
    rewrite Hb in Hout. simpl in Hout. split_and!; [done|by exists (inner (FramedWriter.buffer w'))|done|].
    intros Ho. specialize (Hok Ho). split; [done|]. by rewrite Hok, app_nil_r in Hout.
  - right. revert Hsend. unfold FramedWriter.send_msg. rewrite Hc. cbn. unfold MsgCodec.encode.
    destruct (bincode_roundtrip m Hwf) as (bs & He & _). unfold MsgCodec.payload in Hlen.
    rewrite He in *. cbn in *. unfold LengthCodec.encode.
    rewrite (proj2 (Z.gtb_lt _ _)) by (cbn; lia). intros [= <- <- <- <-]. by eauto.
Qed.

Lemma step_history p p' :
  step p p' → queued p `prefix_of` queued p' ∧ sent p `prefix_of` sent p'.
Proof. destruct 1; simpl; split; try done; by apply prefix_app_r. Qed.

Lemma typed_mono p p' :
  queued p `prefix_of` queued p' → sent p `prefix_of` sent p' → typed p' → typed p.
Proof.
  intros [k Hk] [l Hl] [Hq Hs]. rewrite Hk, Forall_app in Hq. rewrite Hl, Forall_app in Hs.
  by split; [destruct Hq|destruct Hs].
Qed.

Lemma send_net_msg_proto id bs m :
  wf_proto (mkProtocolMsg id bs) → send_net_msg id bs = Ok m → proto_of m = Some (id, bs).
Proof using proto_laws.
  intros Hwf. unfold send_net_msg, PeerNetMsg_new, proto_of.
  destruct (encode_decode (mkProtocolMsg id bs) Hwf) as (e & -> & Hd).
  intros [= <-]. cbn. by rewrite Hd.
Qed.

Lemma shutdown_start_proto :
  match shutdown_start with ShMsg m => proto_of m = None | _ => True end.
Proof.
  unfold shutdown_start, PeerNetMsg_new. by destruct (encode _).
Qed.

(** Only the writer's own steps and the pushes matter to it. *)
Lemma writer_inv_push p m sq sq' ss s :
  atomic_step sq' (send_queue p) (OpPush m) sq → writer_inv p →
  writer_inv (set_io p sq ss (writer_task p) (queued p ++ [m]) s (written p)).
Proof.
  intros Hpush (outs & Hv & Hw). inversion Hpush; subst. exists outs. split; [done|]. cbn.
  destruct (writer_task p) as [w|w m' out|].
  - destruct Hw as (? & ? & ? & ->). by rewrite <-app_assoc.
  - destruct Hw as (? & ? & ? & -> & ?). by rewrite <-app_assoc.
  - destruct Hw as [? ?]. split; [done|]. by apply prefix_app_r.
Qed.

(** The message being sent is serializable, so its send ends in one of two
    ways. *)
Lemma writer_sending p w m out0 writes flush o w' out rest :
  typed p → writer_inv p → writer_task p = WSend w m out0 →
  FramedWriter.send_msg w m writes flush = (o, w', out, rest) →
  ∃ outs, Forall valid outs ∧ FramedWriter.encoder w = codec ∧
    inner (FramedWriter.buffer w) = [] ∧ written p = stream outs ∧
    queued p = outs ++ m :: send_queue p ∧
    ((valid m ∧ out `prefix_of` frame m ∧ FramedWriter.encoder w' = codec ∧
      (o = Ready (Ok ()) → inner (FramedWriter.buffer w') = [] ∧ out = frame m)) ∨
    (out = [] ∧ ∃ e, o = Ready (Err e))).
Proof using msg_laws u32_laws.
  intros [Hwf _] (outs & Hv & Hinv) Hw Hsend. rewrite Hw in Hinv.
  destruct Hinv as (? & ? & ? & Hq & _). rewrite Hq in Hwf.
  apply Forall_app in Hwf as [_ [Hwf _]%Forall_cons].
  exists outs. split_and!; [done..|]. by eapply send_msg_cases.
Qed.

Lemma stream_snoc outs m : stream (outs ++ [m]) = stream outs ++ frame m.
Proof. rewrite map_app, concat_app. simpl. by rewrite app_nil_r. Qed.

Lemma writer_inv_end p out m outs :
  Forall valid outs → written p = stream outs → queued p = outs ++ m :: send_queue p →
  out = [] ∨ valid m ∧ out `prefix_of` frame m →
  writer_inv (set_io p (send_queue p) (senders p) WEnd (queued p) (sent p) (written p ++ out)).
Proof.
  intros Hv Hwr Hq Hout. unfold writer_inv; cbn. rewrite Hwr, Hq. destruct Hout as [->|[Hm Hout]].
  - exists outs. rewrite app_nil_r. split_and!; [done..|]. by apply prefix_app_r.
  - exists (outs ++ [m]). rewrite stream_snoc. split_and!.
    + by apply Forall_app_2; [|apply Forall_singleton].
    + by apply prefix_app.
    + apply prefix_app. by exists (send_queue p).
Qed.

Lemma writer_inv_cancel p :
  writer_inv p →
  writer_inv (set_io p (send_queue p) (senders p) WEnd (queued p) (sent p) (stream_out p)).
Proof.
  intros (outs & Hv & Hinv). unfold stream_out. destruct (writer_task p) as [w|w m out|] eqn:Hw.
  - destruct Hinv as (_ & _ & Hwr & Hq). exists outs. cbn. rewrite app_nil_r, Hwr, Hq.
    split_and!; [done..|]. by apply prefix_app_r.
  - destruct Hinv as (_ & _ & Hwr & Hq & Hout). by eapply writer_inv_end.
  - exists outs. cbn. by rewrite app_nil_r.
Qed.

Lemma writer_step_inv p p' : step p p' → typed p → writer_inv p → writer_inv p'.
Proof using msg_laws u32_laws.
  intros Hstep Hty Hinv.
  destruct Hstep as [|p i id bs m sq _ Hpush| |p w m sq Hw Hrecv|p w m out0 writes flush w' out rest Hw Hpre Hsend
    |p w m out0 writes flush w' out rest Hw Hpre Hsend
    |p w m out0 writes flush e w' out rest Hw Hpre Hsend| | | | | | | | | |p m sq ids _ _ Hpush| | | | | | | | ];
    try exact Hinv.
  - by eapply writer_inv_push.
  - destruct Hinv as (outs & Hv & Hinv). rewrite Hw in Hinv.
    inversion Hrecv as [|? ? Heq]; subst. exists outs. split; [done|]. cbn.
    destruct Hinv as (? & ? & ? & Hq). split_and!; [done..| |by left]. by rewrite Hq, <-Heq.
  - destruct (writer_sending _ _ _ _ _ _ _ _ _ _ Hty Hinv Hw Hsend)
      as (outs & ? & ? & ? & ? & ? & [(? & ? & _)|(-> & e & [=])]).
    exists outs. cbn. split_and!; [done..|]. by right.
  - destruct (writer_sending _ _ _ _ _ _ _ _ _ _ Hty Hinv Hw Hsend)
      as (outs & Hv & ? & ? & Hwr & Hq & [(Hm & _ & ? & [? ->]%(λ H, H eq_refl))|(_ & e & [=])]).
    exists (outs ++ [m]). rewrite stream_snoc. cbn. rewrite Hwr, Hq, <-app_assoc. split_and!; [|done..].
    by apply Forall_app_2; [|apply Forall_singleton].
  - destruct (writer_sending _ _ _ _ _ _ _ _ _ _ Hty Hinv Hw Hsend)
      as (outs & Hv & ? & ? & Hwr & Hq & Hout).
    eapply writer_inv_end; [done..|]. naive_solver.
  - by eapply (writer_inv_push p _ _ _ (senders p) (sent p)).
  - by apply writer_inv_cancel.
Qed.

Lemma sent_step_inv p p' : step p p' → typed p' → sent_inv p → sent_inv p'.
Proof using proto_laws.
  intros Hstep [_ Hty] (Hsent & Hss & Hsh).
  destruct Hstep as [p id bs m Hm|p i id bs m sq Hi _|p i| | | | | | | | | | | | |p Hsc|p m sq ids Hsc _ _| | | | | | | |];
    unfold sent_inv; cbn in *; try (split_and!; [done..|]; by try rewrite ?Hsc in Hsh).
  - split_and!; [done| |done]. by apply Forall_app_2; [|apply Forall_singleton].
  - apply Forall_app in Hty as [_ [Hwf _]%Forall_cons].
    rewrite omap_app, Hsent. split_and!; [|by apply Forall_delete|done].
    f_equal. cbn. rewrite (send_net_msg_proto id bs m); [done|done|].
    exact (Forall_lookup_1 _ _ _ _ Hss Hi).
  - split_and!; [done|by apply Forall_delete|done].
  - split_and!; [done..|]. apply shutdown_start_proto.
  - rewrite Hsc in Hsh. rewrite omap_app. cbn. rewrite Hsh, app_nil_r. by split_and!.
Qed.

Lemma near_step_inv p p' : step p p' → near_inv p → near_inv p'.
Proof using msg_laws proto_laws u32_laws.
  intros Hstep Hinv Hty. destruct (step_history _ _ Hstep) as [Hq Hs].
  pose proof (typed_mono _ _ Hq Hs Hty) as Hty0. destruct (Hinv Hty0) as [Hw Hsent].
  split; [by eapply writer_step_inv|by eapply sent_step_inv].
Qed.

(** The stream holds a beginning of the frames of a beginning of what was
    queued. *)
Lemma near_stream p :
  typed p → near_inv p →
  ∃ outs, Forall valid outs ∧ outs `prefix_of` queued p ∧ stream_out p `prefix_of` stream outs.
Proof.
  intros Hty Hinv. destruct (Hinv Hty) as [(outs & Hv & Hw) _]. unfold stream_out.
  destruct (writer_task p) as [w|w m out|].
  - destruct Hw as (_ & _ & -> & ->). exists outs. rewrite app_nil_r.
    split_and!; [done| |done]. by apply prefix_app_r.
  - destruct Hw as (_ & _ & -> & -> & [->|[Hm Hout]]).
    + exists outs. rewrite app_nil_r. split_and!; [done| |done]. by apply prefix_app_r.
    + exists (outs ++ [m]). rewrite stream_snoc. split_and!.
      * by apply Forall_app_2; [|apply Forall_singleton].
      * apply prefix_app. by exists (send_queue p).
      * by apply prefix_app.
  - destruct Hw as [? ?]. exists outs. by rewrite app_nil_r.
Qed.

Lemma step_stream_out p p' : step p p' → stream_out p `prefix_of` stream_out p'.
Proof.
  destruct 1 as [| | |p w m sq Hw _|p w m out0 writes flush w' out rest Hw Hpre _
    |p w m out0 writes flush w' out rest Hw Hpre _|p w m out0 writes flush e w' out rest Hw Hpre _
    | | | | | | | | | | | | | | | | | |]; unfold stream_out; cbn; try done;
    rewrite ?Hw, ?app_nil_r; try done; by apply prefix_app.
Qed.

(** *** The receiving side *)

(** The messages of one queue. *)
Definition event_messages (q : list ProtocolEvent) : list (list Z) :=
  omap (λ ev, match ev with EvMessage bs => Some bs | EvShutdown => None end) q.

(** What a protocol took and what waits in its queue is what was routed to it. *)
Definition queues_inv (p : peer) : Prop := ∀ id,
  of_proto id (messages (taken p)) ++ event_messages (default [] (recv_queues p !! id)) =
  of_proto id (routed p).

Lemma of_proto_snoc id id' bs l :
  of_proto id (l ++ [(id', bs)]) = of_proto id l ++ if decide (id' = id) then [bs] else [].
Proof. unfold of_proto. rewrite omap_app. cbn. by case_decide. Qed.

Lemma messages_snoc id ev l :
  messages (l ++ [(id, ev)]) =
    messages l ++ match ev with EvMessage bs => [(id, bs)] | EvShutdown => [] end.
Proof. unfold messages. rewrite omap_app. cbn. by destruct ev. Qed.

Lemma queues_step_inv p p' : step p p' → queues_inv p → queues_inv p'.
Proof.
  intros Hstep Hinv.
  destruct Hstep as [| | | | | | | |p r id bs q q' _ Hq Hpush| | |p id ev q q' _ Hq Hrecv| | | | |
    |p id ids q q' _ Hq Hpush| | | | | | |]; try exact Hinv; intros id';
    cbn [taken recv_queues routed set_read set_control]; specialize (Hinv id').
  - inversion Hpush; subst. rewrite of_proto_snoc, <-Hinv, <-app_assoc. f_equal.
    destruct (decide (id = id')) as [->|]; [rewrite lookup_insert_eq, Hq|rewrite lookup_insert_ne, app_nil_r by done];
      cbn; [|done].
    unfold event_messages. by rewrite omap_app.
  - unfold recv_queue_of in Hq. destruct (recv_queues p !! id) as [q0|] eqn:Hq0; [|done].
    injection Hq as ->. inversion Hrecv; subst. rewrite messages_snoc.
    destruct (decide (id = id')) as [->|].
    + rewrite lookup_insert_eq, <-Hinv, Hq0. destruct ev; cbn; [|by rewrite app_nil_r].
      by rewrite of_proto_snoc, decide_True, <-app_assoc by done.
    + rewrite lookup_insert_ne, <-Hinv by done. destruct ev; [|by rewrite app_nil_r].
      by rewrite of_proto_snoc, decide_False, app_nil_r by done.
  - inversion Hpush; subst. rewrite <-Hinv. f_equal.
    destruct (decide (id = id')) as [->|]; [rewrite lookup_insert_eq, Hq|by rewrite lookup_insert_ne].
    cbn. unfold event_messages. by rewrite omap_app, app_nil_r.
Qed.

(** A live reader has read some messages of the sender, routed [rts] of them,
    and holds the beginning of the rest. *)
Definition read_inv (l : link) (r : FramedReader.t MsgCodec.t) (rts : list (ProtocolID * list Z)) :
    Prop :=
  FramedReader.decoder r = codec ∧
  ∃ ins chunks tail, Forall valid ins ∧ ins `prefix_of` queued (near l) ∧
    Forall (λ bs, bs ≠ []) chunks ∧ is_tail tail ∧ (ended l = false → tail = []) ∧
    incoming (far l) = map RData chunks ++ tail ∧
    arrived l = stream ins ++ inner (FramedReader.buffer r) ++ concat chunks ∧
    omap proto_of ins = rts.

Definition far_inv (l : link) : Prop :=
  match reader_task (far l) with
  | RRecv r => read_inv l r (routed (far l))
  | RPush r id bs => read_inv l r (routed (far l) ++ [(id, bs)])
  | REnd => ∃ ins, ins `prefix_of` queued (near l) ∧ omap proto_of ins = routed (far l)
  end.

Record link_inv (l : link) : Prop := {
  li_near : near_inv (near l);
  li_far : typed (near l) → far_inv l;
  li_arrived : arrived l `prefix_of` stream_out (near l);
  li_queues : queues_inv (far l);
}.

Lemma decode_nothing : Codec.decode (M := PeerNetMsg) codec (mkBuffer []) = Ok None.
Proof. done. Qed.

Lemma demux_proto rq m id bs : demux rq (Ok m) = Ok (id, bs) → proto_of m = Some (id, bs).
Proof.
  unfold demux, proto_of. cbn. destruct (command (header m)); try done.
  destruct (decode (payload m)) as [[pm n]|]; [cbn|done]. destruct (rq !! _); [|done].
  by intros [= <- <-].
Qed.

(** The reader of a peer reads the next message of the other peer. *)
Lemma read_next l r rts res r' inc id bs :
  typed (near l) → link_inv l → read_inv l r rts →
  FramedReader.recv_msg r (incoming (far l)) = (Ready res, r', inc) →
  demux (recv_queues (far l)) res = Ok (id, bs) →
  read_inv (mkLink (near l) (set_read (far l) (recv_queues (far l)) (RPush r' id bs) inc
    (routed (far l)) (taken (far l))) (arrived l) (ended l)) r' (rts ++ [(id, bs)]).
Proof using msg_laws u32_laws.
  intros Hty Hinv (Hc & ins & chunks & tail & Hvi & Hpi & Hne & Htail & Hend & Hinc & Harr & Hrts)
    Hrecv Hdemux.
  destruct res as [m|e]; [|done]. pose proof (demux_proto _ _ _ _ Hdemux) as Hm.
  destruct (near_stream _ Hty (li_near l Hinv)) as (outs & Hvo & Hpo & Hso).
  assert (arrived l `prefix_of` stream outs) as [q Hq] by (etrans; [apply (li_arrived l Hinv)|done]).
  assert (ins `prefix_of` outs) as [ms ->].
  { apply (stream_inj_prefix codec valid frame); [done| |done|].
    - by eapply prefix_weak_total.
    - rewrite Hq, Harr, <-!app_assoc. by eexists. }
  rewrite Harr, map_app, concat_app, <-!app_assoc in Hq. apply app_inv_head in Hq.
  apply Forall_app in Hvo as [_ Hvm]. rewrite Hinc in Hrecv.
  destruct (recv_next codec valid frame decode_nothing _ _ _ _ _ _ _ _ Hc Hvm Hne Htail (eq_sym Hq) Hrecv)
    as (ms' & b & chunks' & -> & -> & -> & Hne' & Hbytes).
  split; [done|]. exists (ins ++ [m]), chunks', tail. cbn. split_and!; try done.
  - apply Forall_app_2; [done|]. apply Forall_singleton. by apply Forall_cons in Hvm as [? _].
  - etrans; [|exact Hpo]. apply prefix_app. by exists ms'.
  - by rewrite Harr, stream_snoc, <-app_assoc, <-Hbytes.
  - rewrite omap_app, Hrts. cbn. by rewrite Hm.
Qed.

Lemma omap_prefix {A B} (f : A → option B) l k1 k2 :
  omap f l = k1 ++ k2 → ∃ l1, l1 `prefix_of` l ∧ omap f l1 = k1.
Proof.
  revert k1. induction l as [|a l IH]; intros k1; cbn.
  { intros Heq. exists []. by destruct k1. }
  destruct (f a) as [b|] eqn:Hf.
  - destruct k1 as [|b' k1]; [exists []; split; [apply prefix_nil|done]|].
    intros [= -> (l1 & Hl1 & <-)%IH]. exists (a :: l1). split; [by apply prefix_cons|]. cbn. by rewrite Hf.
  - intros (l1 & Hl1 & <-)%IH. exists (a :: l1). split; [by apply prefix_cons|]. cbn. by rewrite Hf.
Qed.

Lemma far_inv_ended l :
  far_inv l → ∃ ins, ins `prefix_of` queued (near l) ∧ omap proto_of ins = routed (far l).
Proof.
  unfold far_inv. destruct (reader_task (far l)) as [r|r id bs|]; [| |done].
  - intros (_ & ins & _ & _ & _ & ? & _ & _ & _ & _ & _ & ?). by exists ins.
  - intros (_ & ins & _ & _ & _ & Hp & _ & _ & _ & _ & _ & Ho).
    apply omap_prefix in Ho as (ins' & Hp' & ?). exists ins'. split; [by etrans|done].
Qed.

Lemma far_step_inv l p :
  step (far l) p → typed (near l) → link_inv l → far_inv (mkLink (near l) p (arrived l) (ended l)).
Proof using msg_laws u32_laws.
  intros Hstep Hty Hinv. pose proof (li_far l Hinv Hty) as Hfar. destruct l as [a b arr en]. cbn in *.
  destruct Hstep as [| | | | | | |p r res r' inc id bs Hr Hrecv Hdemux|p r id bs q q' Hr Hq Hpush
    |p r res r' inc e Hr Hrecv Hdemux| | | | | | | | | | | | |p Hsc| |]; try exact Hfar.
  - unfold far_inv in *. cbn in *. rewrite Hr in Hfar. 
    exact (read_next (mkLink a p arr en) _ _ _ _ _ _ _ Hty Hinv Hfar Hrecv Hdemux).
  - unfold far_inv in *. cbn in *. by rewrite Hr in Hfar.
  - exact (far_inv_ended _ Hfar).
  - exact (far_inv_ended _ Hfar).
Qed.

Lemma read_inv_near l a r rts :
  queued (near l) `prefix_of` queued a → read_inv l r rts →
  read_inv (mkLink a (far l) (arrived l) (ended l)) r rts.
Proof.
  intros Hq (Hc & ins & chunks & tail & Hvi & Hpi & Hrest). split; [done|].
  exists ins, chunks, tail. cbn. split_and!; try tauto. by etrans.
Qed.

Lemma far_inv_near l a :
  queued (near l) `prefix_of` queued a → far_inv l →
  far_inv (mkLink a (far l) (arrived l) (ended l)).
Proof.
  intros Hq. unfold far_inv. cbn. destruct (reader_task (far l)); eauto using read_inv_near.
  intros (ins & ? & ?). exists ins. split; [by etrans|done].
Qed.

Lemma read_inv_data l r rts bs :
  ended l = false → bs ≠ [] → read_inv l r rts →
  read_inv (mkLink (near l) (peer_read (far l) (RData bs)) (arrived l ++ bs) false) r rts.
Proof.
  intros He Hbs (Hc & ins & chunks & tail & Hvi & Hpi & Hne & Htail & Hend & Hinc & Harr & Hrts).
  specialize (Hend He). subst tail. split; [done|]. exists ins, (chunks ++ [bs]), []. cbn.
  split_and!; try done.
  - apply Forall_app_2; [done|]. by apply Forall_singleton.
  - by rewrite Hinc, map_app, !app_nil_r.
  - by rewrite Harr, concat_app, <-!app_assoc; cbn; rewrite app_nil_r.
Qed.

Lemma read_inv_end l r rts ev :
  ended l = false → ev = RData [] ∨ (∃ k, ev = RErr k) → read_inv l r rts →
  read_inv (mkLink (near l) (peer_read (far l) ev) (arrived l) true) r rts.
Proof.
  intros He Hev (Hc & ins & chunks & tail & Hvi & Hpi & Hne & Htail & Hend & Hinc & Harr & Hrts).
  specialize (Hend He). subst tail. split; [done|]. exists ins, chunks, [ev]. cbn.
  split_and!; try done.
  - right. destruct Hev as [->|[k ->]]; eauto.
  - by rewrite Hinc, app_nil_r.
Qed.

Lemma link_step_inv l l' : link_step l l' → link_inv l → link_inv l'.
Proof using msg_laws proto_laws u32_laws.
  intros Hstep Hinv. pose proof Hinv as [Hnear Hfar Harr Hq].
  destruct Hstep as [l a Hs|l b Hs|l ev|l bs He Hbs Hpre|l ev He Hev]; split; cbn; try done.
  - by eapply near_step_inv.
  - intros Hty. destruct (step_history _ _ Hs) as [Hqp Hsp].
    apply far_inv_near; [done|]. apply Hfar. by eapply typed_mono.
  - etrans; [done|]. by apply step_stream_out.
  - intros Hty. by apply far_step_inv.
  - by eapply queues_step_inv.
  - intros Hty%Hfar. unfold far_inv in *; cbn. destruct (reader_task (far l)); [..|done];
      by apply read_inv_data.
  - intros Hty%Hfar. unfold far_inv in *; cbn. destruct (reader_task (far l)); [..|done];
      by apply read_inv_end.
Qed.

Lemma build_recv_queues_empty ids id : event_messages (default [] (build_recv_queues ids !! id)) = [].
Proof.
  unfold build_recv_queues. destruct (list_to_map _ !! id) as [q|] eqn:Hq; [|done].
  apply elem_of_list_to_map_2, list_elem_of_fmap in Hq as (? & [= -> ->] & _). done.
Qed.

Lemma link_new_inv ids1 ids2 e1 e2 e3 e4 : link_inv (link_new ids1 ids2 e1 e2 e3 e4).
Proof.
  split; cbn.
  - intros _. split; [by exists []|]. by repeat constructor.
  - intros _. split; [done|]. exists [], [], []. cbn. split_and!; try done; try apply Forall_nil; try done.
    + by left.
  - done.
  - intros id. cbn. apply build_recv_queues_empty.
Qed.

Lemma link_reachable_inv ids1 ids2 e1 e2 e3 e4 l :
  rtc link_step (link_new ids1 ids2 e1 e2 e3 e4) l → link_inv l.
Proof using msg_laws proto_laws u32_laws.
  intros Hrtc. assert (link_inv (link_new ids1 ids2 e1 e2 e3 e4)) as Hinv by apply link_new_inv.
  revert Hinv. induction Hrtc; eauto using link_step_inv.
Qed.

Lemma of_proto_app id l k : of_proto id (l ++ k) = of_proto id l ++ of_proto id k.
Proof. unfold of_proto. by rewrite omap_app. Qed.

(** The reader's messages are a beginning of the sender's. *)
Lemma routed_prefix l :
  typed (near l) → link_inv l → routed (far l) `prefix_of` sent (near l).
Proof.
  intros Hty Hinv. destruct (far_inv_ended l (li_far l Hinv Hty)) as (ins & [k Hk] & <-).
  destruct (li_near l Hinv Hty) as [_ (-> & _)]. rewrite Hk, omap_app. by apply prefix_app_r.
Qed.

(** Everything queued by [near] has been written, everything written has
    arrived, and the reader of [far] waits for more. *)
Definition drained (l : link) : Prop :=
  (∃ w, writer_task (near l) = WRecv w) ∧ send_queue (near l) = [] ∧
  arrived l = stream_out (near l) ∧ ended l = false ∧
  ∃ r r' inc, reader_task (far l) = RRecv r ∧
    FramedReader.recv_msg (M := PeerNetMsg) r (incoming (far l)) = (Pending, r', inc).

Lemma drained_routed l :
  typed (near l) → link_inv l → drained l → routed (far l) = sent (near l).
Proof using msg_laws u32_laws.
  intros Hty Hinv ((w & Hw) & Hsq & Harr & Hen & r & r' & inc & Hr & Hrecv).
  pose proof (li_far l Hinv Hty) as Hfar. unfold far_inv in Hfar. rewrite Hr in Hfar.
  destruct Hfar as (Hc & ins & chunks & tail & Hvi & [ms Hpi] & Hne & _ & Hend & Hinc & Harr' & <-).
  destruct (li_near l Hinv Hty) as [(outs & Hvo & Hwr) (-> & _)]. rewrite Hw in Hwr.
  destruct Hwr as (_ & _ & Hwr & Hq). rewrite Hsq, app_nil_r in Hq.
  unfold stream_out in Harr. rewrite Hw, app_nil_r, Hwr, <-Hq, Hpi, map_app, concat_app, Harr' in Harr.
  apply app_inv_head in Harr. rewrite (Hend Hen), app_nil_r in Hinc. rewrite Hinc in Hrecv.
  assert (Forall valid ms) as Hvm by (rewrite <-Hq, Hpi in Hvo; by apply Forall_app in Hvo as [_ ?]).
  pose proof (recv_waits codec valid frame _ _ _ _ _ Hc Hvm Hne Harr Hrecv) as ->.
  by rewrite Hpi, app_nil_r.
Qed.

(** C2: The two ends of a protocol have a reliable ordered channel.  Whatever
    other protocols share the pipe, however the tasks of the two peers
    interleave, however the stream cuts the bytes and wherever it ends, and
    whenever either peer shuts down: the messages a protocol of one peer has
    received are, in order, the first ones of those sent on that protocol by the
    other peer.  When the sender's queue is empty, what was written has arrived
    and the reader waits, a protocol that has emptied its queue has received
    exactly all of them. *)
Theorem protocol_channel ids1 ids2 e1 e2 e3 e4 (l : link) id :
  rtc link_step (link_new ids1 ids2 e1 e2 e3 e4) l → typed (near l) →
  of_proto id (messages (taken (far l))) `prefix_of` of_proto id (sent (near l)) ∧
  (drained l → event_messages (default [] (recv_queues (far l) !! id)) = [] →
    of_proto id (messages (taken (far l))) = of_proto id (sent (near l))).
Proof using msg_laws proto_laws u32_laws.
  intros Hinv%link_reachable_inv Hty. pose proof (li_queues l Hinv id) as Hq. split.
  - destruct (routed_prefix l Hty Hinv) as [k ->]. rewrite of_proto_app, <-Hq, <-app_assoc.
    by apply prefix_app_r.
  - intros Hd He. by rewrite <-(drained_routed l Hty Hinv Hd), <-Hq, He, app_nil_r.
Qed.

End channel.

(** ** Witnesses: one byte for a command and for the one protocol *)

(** Takes a step of a concrete run and evaluates the state it leads to. *)
Ltac run_step tac :=
  eapply rtc_l; [tac|];
  lazymatch goal with
  | |- rtc ?R ?x ?z => let y := eval vm_compute in x in change (rtc R y z)
  end.

#[local] Existing Instance le32_bincode.
#[local] Existing Instance le32_laws.

Definition cmd_code (c : PeerNetCmd) : Z :=
  match c with CmdVersion => 0 | CmdVerack => 1 | CmdProtocol => 2 | CmdShutdown => 3 end%Z.

Definition cmd_of (z : Z) : PeerNetCmd :=
  if (z =? 0)%Z then CmdVersion else if (z =? 1)%Z then CmdVerack
  else if (z =? 2)%Z then CmdProtocol else CmdShutdown.

Definition one_net_msg : Bincode PeerNetMsg := {|
  encode_to_vec m := Some (cmd_code (command (header m)) :: payload m);
  decode_from_slice bs :=
    match bs with
    | z :: bs' => Some (mkPeerNetMsg (mkHeader (cmd_of z)) bs', Codec.len bs)
    | [] => None
    end;
|}.
#[local] Existing Instance one_net_msg.

Lemma one_net_msg_laws : BincodeLaws PeerNetMsg (λ _, True).
Proof. intros [[c] bs] _. eexists. split; [reflexivity|]. by destruct c. Qed.

Definition one_proto_msg : Bincode ProtocolMsg := {|
  encode_to_vec m := Some (0%Z :: msg_payload m);
  decode_from_slice bs :=
    match bs with
    | _ :: bs' => Some (mkProtocolMsg "P" bs', Codec.len bs)
    | [] => None
    end;
|}.
#[local] Existing Instance one_proto_msg.

Lemma one_proto_msg_laws : BincodeLaws ProtocolMsg (λ m, protocol_id m = "P").
Proof. intros [id bs] Hid. cbn in Hid. subst id. by eexists. Qed.

Definition one_shutdown_msg : Bincode ShutdownMsg := {|
  encode_to_vec m := Some [shutdown_code m];
  decode_from_slice bs :=
    match bs with [z] => Some (mkShutdownMsg z, 1%Z) | _ => None end;
|}.

#[local] Existing Instances one_net_msg_laws one_proto_msg_laws one_shutdown_msg.

Definition msg7 : PeerNetMsg := mkPeerNetMsg (mkHeader CmdProtocol) [0%Z; 7%Z].
Definition frame7 : list Z := [3; 0; 0; 0; 2; 0; 7]%Z.
Definition r0 : FramedReader.t MsgCodec.t := reader (framed None None MsgCodec.new).
Definition w0 : FramedWriter.t MsgCodec.t := writer (framed None None MsgCodec.new).

(** One message sent, written in two parts, read and received. *)
Lemma one_message_run :
  ∃ l, rtc link_step (link_new ["P"] ["P"] None None None None) l ∧
    typed (λ _, True) (λ m, protocol_id m = "P") (near l) ∧
    of_proto "P" (messages (taken (far l))) = [[7%Z]].
Proof.
  eexists. split_and!.
  - run_step ltac:(apply link_near, (send_begin _ "P" [7%Z] msg7); reflexivity).
    run_step ltac:(apply link_near, (send_push _ 0 "P" [7%Z] msg7 [msg7]);
      [reflexivity|apply (atomic_push SEND_QUEUE_SIZE []); vm_compute; lia]).
    run_step ltac:(apply link_near, (writer_recv _ w0 msg7 []); [reflexivity|apply atomic_recv]).
    run_step ltac:(apply link_near, (writer_sent _ w0 msg7 [] [WRoom 4; WRoom 9] (Ok ()) w0 frame7 []);
      [reflexivity|apply prefix_nil|vm_compute; reflexivity]).
    run_step ltac:(apply (link_data _ [3; 0; 0; 0; 2]%Z);
      [reflexivity|discriminate|exists [0; 7]%Z; reflexivity]).
    run_step ltac:(apply (link_data _ [0; 7]%Z); [reflexivity|discriminate|exists []; reflexivity]).
    run_step ltac:(apply link_far, (reader_msg _ r0 (Ok msg7) r0 [] "P" [7%Z]);
      [reflexivity|vm_compute; reflexivity|vm_compute; reflexivity]).
    run_step ltac:(apply link_far, (reader_push _ r0 "P" [7%Z] [] [EvMessage [7%Z]]);
      [reflexivity|vm_compute; reflexivity|apply (atomic_push RECV_QUEUE_SIZE []); vm_compute; lia]).
    run_step ltac:(apply link_far, (run_start _ ["P"]); reflexivity).
    run_step ltac:(apply link_far, (proto_recv _ "P" (EvMessage [7%Z]) [EvMessage [7%Z]] []);
      [vm_compute; reflexivity|vm_compute; reflexivity|apply atomic_recv]).
    apply rtc_refl.
  - split; repeat constructor.
  - vm_compute. reflexivity.
Qed.

Lemma protocol_channel_witness :
  ∃ l, rtc link_step (link_new ["P"] ["P"] None None None None) l ∧
    of_proto "P" (messages (taken (far l))) = [[7%Z]] ∧
    of_proto "P" (messages (taken (far l))) `prefix_of` of_proto "P" (sent (near l)).
Proof.
  destruct one_message_run as (l & Hrtc & Hty & Htk).
  exists l. split; [exact Hrtc|]. split; [exact Htk|].
  exact (proj1 (protocol_channel (λ _, True) (λ m, protocol_id m = "P")
    ["P"] ["P"] None None None None l "P" Hrtc Hty)).
Defined.
