(* ===== verification/PeerShutdown.v ===== *)
(** * Shutting a peer down

    Theorems on the life of a peer of [Connection]: what [Peer::shutdown]
    guarantees when it returns, when it can wait, and two ways in which the
    connection can be left behind: a shutdown that waits for ever at a queue
    nobody empties, and a writer silenced by a message that is too long. *)

From S2P Require Import Prelude Codec Endpoint Framed Message Queue Connection ConnectionSpec.

(** ** Shutting a peer down *)

Section shutdown.
Context `{BincodeU32} `{Bincode PeerNetMsg} `{Bincode ProtocolMsg} `{Bincode ShutdownMsg}.

(** The peer takes a step or its stream gives a read. *)
Definition peer_step (p p' : peer) : Prop := step p p' ∨ ∃ ev, p' = peer_read p ev.

Lemma atomic_push_full {A} cap (l : list A) x l' :
  cap ≤ length l → ¬ atomic_step cap l (OpPush x) l'.
Proof. intros Hl Hs. inversion Hs. lia. Qed.

(** The shutdown waits at a full queue whose consumer is gone. *)
Definition dead_end (p : peer) : Prop :=
  run_over (run_task p) = true ∧ conn_closed p = None ∧
  match shutdown_call p with
  | ShMsg _ => SEND_QUEUE_SIZE ≤ length (send_queue p) ∧ writer_task p = WEnd
  | ShBroadcast (id :: _) =>
      protos p !! id ≠ Some true ∧ ∃ q, recv_queues p !! id = Some q ∧ RECV_QUEUE_SIZE ≤ length q
  | _ => False
  end.

(** A full queue does not change when something is pushed into another one. *)
Lemma full_queue_insert (rq : gmap ProtocolID (list ProtocolEvent)) id q' id' q x :
  rq !! id = Some q → atomic_step RECV_QUEUE_SIZE q (OpPush x) q' →
  (∃ q, rq !! id' = Some q ∧ RECV_QUEUE_SIZE ≤ length q) →
  ∃ q, <[id := q']> rq !! id' = Some q ∧ RECV_QUEUE_SIZE ≤ length q.
Proof.
  intros Hq Hpush (q1 & Hq1 & Hlen). destruct (decide (id = id')) as [->|].
  - simplify_eq. by apply atomic_push_full in Hpush.
  - exists q1. by rewrite lookup_insert_ne.
Qed.

(** Whatever happens, the shutdown stays where it is. *)
Lemma dead_end_step p p' : peer_step p p' → dead_end p → dead_end p'.
Proof.
  intros [Hstep|[ev ->]] (Hrun & Hcl & Hd); [|by split_and!]. unfold dead_end in *.
  destruct Hstep as [|p i id bs m sq _ Hpush|p i|p w m sq Hw|p w m out0 writes flush w' out rest Hw
    |p w m out0 writes flush w' out rest Hw|p w m out0 writes flush e w' out rest Hw|
    |p r id bs q q' Hr Hq Hpush| |p att Hrun'|p id ev q q' Hp Hq Hrecv|p id res Hp|p res Hrun'
    |p Hrun'|p Hsc|p m sq ids Hsc _ Hpush|p id ids q q' Hsc Hq Hpush|p Hsc|p Hsc|p Hsc|p Hsc|p Hsc|p id Hsc|p Hsc];
    cbn in *; try (by split_and!); try (by rewrite Hsc in Hd); try (by rewrite Hrun' in Hrun);
    try (split_and!; [exact Hrun|exact Hcl|];
      destruct (shutdown_call p) as [|m'|[|id' ids']| | | |] eqn:Hsh;
      try exact Hd; destruct Hd as [Hl Hd]; try congruence).
  - by apply atomic_push_full in Hpush.
  - split; [exact Hl|]. by eapply full_queue_insert.
  - split; [exact Hl|]. destruct (decide (id = id')) as [->|]; [done|].
    destruct Hd as (q1 & ? & ?). exists q1. by rewrite lookup_insert_ne.
  - split; [|exact Hd]. intros Hid. destruct (decide (id = id')) as [->|].
    + by rewrite lookup_insert_eq in Hid.
    + by rewrite lookup_insert_ne in Hid.
  - rewrite Hsc in Hd. destruct Hd as [Hl _]. by apply atomic_push_full in Hpush.
  - rewrite Hsc in Hd. destruct Hd as (_ & q1 & Hq1 & Hl). simplify_eq. by apply atomic_push_full in Hpush.
Qed.

Lemma dead_end_forever p p' :
  rtc peer_step p p' → dead_end p → conn_closed p' = None ∧ shutdown_call p' ≠ ShDone.
Proof.
  intros Hrtc Hd. assert (dead_end p') as (_ & ? & Hd').
  { revert Hd. induction Hrtc; eauto using dead_end_step. }
  split; [done|]. by destruct (shutdown_call p').
Qed.

End shutdown.

(** ** What a shutdown does *)

Section shutdown_spec.
Context `{BincodeU32} `{Bincode PeerNetMsg} `{Bincode ProtocolMsg} `{Bincode ShutdownMsg}.
Context (msg : PeerNetMsg) (Hmsg : PeerNetMsg_new CmdShutdown (mkShutdownMsg 0) = Ok msg).

(** A protocol was told to shut down: the event waits in its queue or it has
    taken it. *)
Definition told (p : peer) (id : ProtocolID) : Prop :=
  (id, EvShutdown) ∈ taken p ∨ ∃ q, recv_queues p !! id = Some q ∧ EvShutdown ∈ q.

Record shut_inv (ids : list ProtocolID) (p : peer) : Prop := {
  shi_dom id : id ∈ ids ↔ is_Some (recv_queues p !! id);
  shi_run : shutdown_call p ≠ ShIdle → run_over (run_task p) = true;
  shi_closed :
    match shutdown_call p with
    | ShCancel | ShDone => conn_closed p = Some (Ok ())
    | _ => conn_closed p = None
    end;
  shi_told id :
    id ∈ ids →
    match shutdown_call p with
    | ShIdle | ShMsg _ => True
    | ShBroadcast rest => id ∈ rest ∨ told p id
    | _ => told p id
    end;
  shi_rest rest : shutdown_call p = ShBroadcast rest → ∀ id, id ∈ rest → id ∈ ids;
  shi_done :
    shutdown_call p = ShDone →
    writer_task p = WEnd ∧ reader_task p = REnd ∧ ∀ id, protos p !! id ≠ Some true;
}.

Lemma told_step p p' id : peer_step p p' → told p id → told p' id.
Proof.
  intros [Hstep|[ev ->]] Ht; [|exact Ht].
  destruct Hstep as [| | | | | | | |p r id' bs q q' _ Hq Hpush| | |p id' ev q q' _ Hq Hrecv| | | | |
    |p id' ids q q' _ Hq Hpush| | | | | | |]; try exact Ht; unfold told in *; cbn in *;
    (destruct Ht as [Ht|(q0 & Hq0 & Hin)]; [left; set_solver|]);
    (destruct (decide (id' = id)) as [->|]; [|right; exists q0; by rewrite lookup_insert_ne]).
  - right. simplify_eq. inversion Hpush; subst. exists (q ++ [EvMessage bs]).
    rewrite lookup_insert_eq. set_solver.
  - unfold recv_queue_of in Hq. rewrite Hq0 in Hq. injection Hq as ->. inversion Hrecv; subst.
    apply elem_of_cons in Hin as [<-|Hin]; [left; set_solver|right].
    exists q'. by rewrite lookup_insert_eq.
  - right. simplify_eq. inversion Hpush; subst. exists (q ++ [EvShutdown]).
    rewrite lookup_insert_eq. set_solver.
Qed.

Lemma dom_step p p' id :
  peer_step p p' → is_Some (recv_queues p !! id) ↔ is_Some (recv_queues p' !! id).
Proof.
  intros [Hstep|[ev ->]]; [|done].
  destruct Hstep as [| | | | | | | |p r id' bs q q' _ Hq Hpush| | |p id' ev q q' _ Hq Hrecv| | | | |
    |p id' ids q q' _ Hq Hpush| | | | | | |]; cbn; try done;
    unfold recv_queue_of in *; destruct (decide (id' = id)) as [->|];
    rewrite ?lookup_insert_eq, ?lookup_insert_ne by done; try done.
  all: destruct (recv_queues p !! id) eqn:Hid; [split; by eauto|]; by simplify_eq/=.
Qed.

Lemma told_event p id q q' sc :
  recv_queues p !! id = Some q → atomic_step RECV_QUEUE_SIZE q (OpPush EvShutdown) q' →
  told (set_control
    (set_read p (<[id := q']> (recv_queues p)) (reader_task p) (incoming p) (routed p) (taken p))
    (protos p) (stop_reason p) (run_task p) sc (conn_closed p)) id.
Proof.
  intros Hq Hpush. right. inversion Hpush; subst. exists (q ++ [EvShutdown]). cbn.
  rewrite lookup_insert_eq. set_solver.
Qed.

Lemma shut_step_inv ids p p' : peer_step p p' → shut_inv ids p → shut_inv ids p'.
Proof using Hmsg.
  intros Hs Hinv. pose proof Hinv as [Hdom Hrun Hcl Htold Hrest Hdone].
  assert (∀ id, told p id → told p' id) as Ht by eauto using told_step.
  assert (∀ id, id ∈ ids ↔ is_Some (recv_queues p' !! id)) as Hdom'.
  { intros id. rewrite Hdom. by apply dom_step. }
  destruct Hs as [Hstep|[ev ->]]; [|by split].
  assert (∀ sc, sc = shutdown_call p → ∀ id, id ∈ ids →
    match sc with ShIdle | ShMsg _ => True | ShBroadcast rest => id ∈ rest ∨ told p' id
    | _ => told p' id end) as Htold'.
  { intros ? -> id Hid. specialize (Htold id Hid). specialize (Ht id).
    destruct (shutdown_call p); try done; tauto. }
  destruct Hstep as [| | |p w m sq Hw|p w m out0 writes flush w' out rest Hw|p w m out0 writes flush w' out rest Hw
    |p w m out0 writes flush e w' out rest Hw|p r res r' inc id bs Hr|p r id bs q q' Hr|p r res r' inc e Hr
    |p att Hr|p id ev q q' Hp|p id res Hp|p res Hr|p Hr
    |p Hsc Hr|p m sq rest Hsc Hperm|p id rest q q' Hsc Hq Hpush|p Hsc|p Hsc|p Hsc|p Hsc|p Hsc|p id Hsc Hp|p Hsc Hw Hr Hp];
    split; cbn in *; try done; try (by apply Htold'); try (by rewrite Hsc in *; eauto);
    try (intros Hd; destruct (Hdone Hd) as (? & ? & ?); split_and!; try done; congruence).
  - intros Hi%Hrun. by rewrite Hr in Hi.
  - intros Hd. specialize (Hrun ltac:(by rewrite Hd)). by rewrite Hr in Hrun.
  - unfold shutdown_start. rewrite Hmsg, Hsc in *. done.
  - unfold shutdown_start. by rewrite Hmsg.
  - unfold shutdown_start. by rewrite Hmsg.
  - unfold shutdown_start. by rewrite Hmsg.
  - intros id [q Hq]%Hdom. left. rewrite Hperm. apply list_elem_of_fmap.
    exists (id, q). split; [done|]. by apply elem_of_map_to_list.
  - intros ? [= <-] id. rewrite Hperm. intros ((i & q) & -> & Hq)%list_elem_of_fmap.
    apply Hdom. apply elem_of_map_to_list in Hq. by eauto.
  - intros id0 Hid0. rewrite Hsc in Htold'. destruct (Htold' _ eq_refl id0 Hid0) as [Hin|?]; [|by right].
    apply elem_of_cons in Hin as [->|?]; [right|by left]. by eapply told_event.
  - intros ? [= <-] id0 Hid0. eapply Hrest; [done|]. by right.
  - intros id Hid. rewrite Hsc in Htold'. destruct (Htold' _ eq_refl id Hid) as [Hin|?]; [|done].
    by apply not_elem_of_nil in Hin.
Qed.

Lemma shut_new_inv ids r w : shut_inv ids (peer_new r w ids).
Proof.
  split; try done. intros id. cbn. unfold build_recv_queues. rewrite <-not_eq_None_Some, <-not_elem_of_list_to_map.
  rewrite <-list_fmap_compose. split.
  - intros Hid Hn. apply Hn. by rewrite list_fmap_id.
  - intros Hn. destruct (decide (id ∈ ids)); [done|]. destruct Hn. by rewrite list_fmap_id.
Qed.

(** Once the close is reported, the tasks can be cancelled one by one. *)
Lemma cancel_completes p :
  shutdown_call p = ShCancel → ∃ p', rtc step p p' ∧ shutdown_call p' = ShDone.
Proof.
  intros Hsc.
  assert (∀ n p, size (filter (λ kv, kv.2 = true) (protos p)) = n → shutdown_call p = ShCancel →
    writer_task p = WEnd → reader_task p = REnd → ∃ p', rtc step p p' ∧ shutdown_call p' = ShDone) as Hp.
  { clear. induction n as [|n IH]; intros p Hn Hsc Hw Hr.
    - eexists. split; [apply rtc_once; apply shut_done|]; [done..| |done].
      intros id Hid. apply map_size_empty_iff in Hn. apply (f_equal (.!! id)) in Hn.
      by rewrite (map_lookup_filter_Some_2 _ _ _ true) in Hn.
    - destruct (map_choose (filter (λ kv, kv.2 = true) (protos p))) as (id & b & Hid).
      { intros He. by rewrite He, map_size_empty in Hn. }
      pose proof Hid as [Hid' Hb]%map_lookup_filter_Some. cbn in Hb. subst b.
      destruct (IH (set_control p (<[id := false]> (protos p)) (stop_reason p) (run_task p) ShCancel
        (conn_closed p))) as (p' & Hrtc & Hd); [|done..|].
      + cbn. rewrite map_filter_insert_False, map_filter_delete by done.
        rewrite map_size_delete_Some by by eexists. lia.
      + exists p'. split; [|done]. eapply rtc_l; [by apply cancel_proto|done]. }
  destruct (Hp _ (set_read (set_io p (send_queue p) (senders p) WEnd (queued p) (sent p) (stream_out p))
    (recv_queues p) REnd (incoming p) (routed p) (taken p)) eq_refl) as (p' & Hrtc & Hd); [done..|].
  exists p'. split; [|done]. eapply rtc_l; [by apply cancel_writer|].
  eapply rtc_l; [by apply cancel_reader|done].
Qed.

(** The shutdown waits for room in a queue. *)
Definition at_full_queue (p : peer) : Prop :=
  match shutdown_call p with
  | ShMsg _ => SEND_QUEUE_SIZE ≤ length (send_queue p)
  | ShBroadcast (id :: _) => ∃ q, recv_queues p !! id = Some q ∧ RECV_QUEUE_SIZE ≤ length q
  | _ => False
  end.

Lemma shutdown_moves ids p :
  shut_inv ids p → shutdown_call p ≠ ShIdle → shutdown_call p ≠ ShDone → ¬ at_full_queue p →
  ∃ p', rtc step p p' ∧ shutdown_call p' ≠ shutdown_call p.
Proof.
  intros Hinv Hi Hd Hfull. pose proof (shi_closed ids p Hinv) as Hcl. unfold at_full_queue in Hfull.
  destruct (shutdown_call p) as [|m|[|id rest]| | | |] eqn:Hsc; try done.
  - eexists. split; [apply rtc_once; eapply shut_msg; [done|done|constructor; lia]|done].
  - eexists. split; [apply rtc_once; by eapply shut_broadcast_end|done].
  - assert (is_Some (recv_queues p !! id)) as [q Hq].
    { apply (shi_dom ids p Hinv). eapply (shi_rest ids p Hinv); [done|by left]. }
    eexists. split; [apply rtc_once; eapply shut_event; [done|done|constructor]|].
    + destruct (decide (length q < RECV_QUEUE_SIZE)); [done|]. destruct Hfull. exists q. split; [done|lia].
    + cbn. intros [= Hl]. apply (f_equal length) in Hl. cbn in Hl. lia.
  - eexists. split; [apply rtc_once; by eapply shut_stop|done].
  - eexists. split; [apply rtc_once; by eapply shut_close|done].
  - destruct (cancel_completes p Hsc) as (p' & ? & Hp'). exists p'. by rewrite Hp'.
Qed.

(** C34: What shutting a peer down guarantees.  When [Peer::shutdown] has
    returned, the close was reported to the task that queued the connection,
    the writer, the reader and all protocol tasks have ended, and every
    negotiated protocol has been told.  Until then it can always go on, unless
    it waits for room in a queue that is full. *)
Theorem peer_shutdown_spec ids r w p :
  rtc peer_step (peer_new r w ids) p →
  (shutdown_call p = ShDone →
    conn_closed p = Some (Ok ()) ∧ writer_task p = WEnd ∧ reader_task p = REnd ∧
    (∀ id, protos p !! id ≠ Some true) ∧ ∀ id, id ∈ ids → told p id) ∧
  (shutdown_call p ≠ ShIdle → shutdown_call p ≠ ShDone → ¬ at_full_queue p →
    ∃ p', rtc step p p' ∧ shutdown_call p' ≠ shutdown_call p).
Proof using Hmsg.
  intros Hrtc. assert (shut_inv ids p) as Hinv.
  { pose proof (shut_new_inv ids r w) as Hnew. revert Hnew. induction Hrtc; eauto using shut_step_inv. }
  split; [|by apply (shutdown_moves ids)]. intros Hd. destruct Hinv as [_ _ Hcl Htold _ Hdone].
  rewrite Hd in Hcl, Htold. destruct (Hdone Hd) as (? & ? & ?). by split_and!.
Qed.

End shutdown_spec.

(** ** A remote peer can make a shutdown hang *)

Section hang.
Context `{BincodeU32} {u32_laws : BincodeU32Laws}.
Context `{Bincode PeerNetMsg} `{Bincode ProtocolMsg} `{Bincode ShutdownMsg}.
Context (wf_msg : PeerNetMsg → Prop) {msg_laws : BincodeLaws PeerNetMsg wf_msg}.

Abbreviation codec := MsgCodec.new.
Abbreviation valid := (MsgCodec.valid (M := PeerNetMsg) wf_msg codec).
Abbreviation frame := (MsgCodec.frame (M := PeerNetMsg)).

(** A peer whose one protocol has failed and whose reader has since put [n]
    messages into the queue of that protocol. *)
Definition flooded (c : FramedConn MsgCodec.t) (id : ProtocolID) (bs : list Z) (n : nat) : peer :=
  mkPeer [id] [] {[id := replicate n (EvMessage bs)]} [] (WRecv (writer c)) (RRecv (reader c))
    {[id := false]} None (RunEnd (Err Timeout)) ShIdle None [] [] [] [] (replicate n (id, bs)) [].

Lemma demux_queue m id bs q : proto_of m = Some (id, bs) → demux {[id := q]} (Ok m) = Ok (id, bs).
Proof.
  unfold proto_of, demux. cbn. destruct (command (header m)); try done.
  destruct (decode (payload m)) as [[pm k]|]; [|done]. cbn. intros [= -> ->]. by rewrite lookup_singleton_eq.
Qed.

Lemma recv_one_frame e1 e2 m :
  valid m →
  FramedReader.recv_msg (reader (framed e1 e2 codec)) [RData (frame m)] =
    (Ready (Ok m), reader (framed e1 e2 codec), []).
Proof using msg_laws u32_laws.
  intros Hm.
  destruct (recv_msg_step codec valid frame (reader (framed e1 e2 codec)) m [] [frame m] [])
    as ([b] & chunks' & Hstep & Hne & Hb); [done|done| |cbn; by rewrite !app_nil_r|].
  { apply Forall_singleton. by apply (framing_nonempty (c := codec) (valid := valid)). }
  apply app_eq_nil in Hb as [Hb Hch]. cbn in Hb. subst b.
  destruct chunks' as [|x chunks']; [exact Hstep|]. apply Forall_cons in Hne as [Hx _].
  by apply app_eq_nil in Hch as [-> _].
Qed.

Lemma flood_step e1 e2 id bs m n :
  valid m → proto_of m = Some (id, bs) → n < RECV_QUEUE_SIZE →
  rtc peer_step (flooded (framed e1 e2 codec) id bs n) (flooded (framed e1 e2 codec) id bs (S n)).
Proof using msg_laws u32_laws.
  intros Hm Hp Hn. eapply rtc_l; [right; exists (RData (frame m)); reflexivity|].
  eapply rtc_l; [left; eapply reader_msg; [reflexivity|by apply recv_one_frame|by apply demux_queue]|].
  eapply rtc_l; [left; eapply reader_push; [reflexivity|apply lookup_singleton_eq|]|].
  { constructor. by rewrite length_replicate. }
  unfold flooded, set_read. cbn. rewrite insert_singleton_eq. apply (eq_ind_r (λ q, rtc _ _ q) (rtc_refl _ _)).
  f_equal; by rewrite <-replicate_S_end.
Qed.

Lemma flood e1 e2 id bs m n :
  valid m → proto_of m = Some (id, bs) → n ≤ RECV_QUEUE_SIZE →
  rtc peer_step (flooded (framed e1 e2 codec) id bs 0) (flooded (framed e1 e2 codec) id bs n).
Proof using msg_laws u32_laws.
  intros Hm Hp. induction n as [|n IH]; intros Hn; [done|].
  etrans; [apply IH; lia|]. by eapply flood_step.
Qed.

(** The protocol starts, fails and stops the peer. *)
Lemma flood_start e1 e2 id bs :
  let c := framed e1 e2 codec in
  rtc peer_step (peer_new (reader c) (writer c) [id]) (flooded c id bs 0).
Proof.
  cbn zeta. set (c := framed e1 e2 codec).
  eapply rtc_l; [left; apply (run_start _ [id]); reflexivity|].
  unfold run_connect_protocols. cbn [negotiated_protocols peer_new].
  replace (filter _ _) with [id] by (rewrite filter_cons_True, filter_nil; set_solver).
  eapply rtc_l; [left; apply (proto_end _ id (Err Timeout)); apply lookup_singleton_eq|].
  eapply rtc_l; [left; eapply run_stop; reflexivity|].
  unfold flooded, set_control. cbn. rewrite insert_insert_eq. apply rtc_refl.
Qed.

(** A remote peer can make the shutdown of a peer hang.  When the only
    protocol of a connection has failed, the reader still fills its queue; once
    [RECV_QUEUE_SIZE] messages are there, the shutdown that the failure leads to
    waits for room in that queue for ever: whatever happens next, the close is
    never reported to the listener or connector and the tasks of the peer are
    never cancelled. *)
Theorem peer_shutdown_hangs e1 e2 id bs m msg :
  valid m → proto_of m = Some (id, bs) →
  PeerNetMsg_new CmdShutdown (mkShutdownMsg 0) = Ok msg →
  let c := framed e1 e2 codec in
  ∃ p, rtc peer_step (peer_new (reader c) (writer c) [id]) p ∧ shutdown_call p ≠ ShIdle ∧
    ∀ p', rtc peer_step p p' → conn_closed p' = None ∧ shutdown_call p' ≠ ShDone.
Proof using msg_laws u32_laws.
  intros Hm Hp Hsh c. eexists. split_and!.
  - etrans; [by apply (flood_start e1 e2 id bs)|]. etrans; [by apply (flood e1 e2 id bs m RECV_QUEUE_SIZE)|].
    eapply rtc_l; [left; apply shut_begin; reflexivity|]. unfold shutdown_start. rewrite Hsh.
    apply rtc_once. left. apply (shut_msg _ msg [msg] [id]); [done| |].
    2: { apply (atomic_push SEND_QUEUE_SIZE []). cbn. unfold SEND_QUEUE_SIZE. lia. }
    cbn [recv_queues set_control flooded]. by rewrite map_to_list_singleton.
  - done.
  - intros p' Hrtc. apply (dead_end_forever _ _ Hrtc). split_and!; [done..|].
    cbn [shutdown_call set_control set_io protos recv_queues flooded]. split.
    + by rewrite lookup_singleton_eq.
    + eexists. split; [apply lookup_singleton_eq|]. by rewrite length_replicate.
Qed.

(** *** An oversized message silences a connection *)

(** No task writes any more. *)
Definition mute (p : peer) : Prop := writer_task p = WEnd.

Lemma mute_step p p' : peer_step p p' → mute p → mute p' ∧ stream_out p' = stream_out p.
Proof.
  intros [Hstep|[ev ->]] Hm; [|done]. unfold mute, stream_out in *.
  destruct Hstep; cbn; try done; try congruence. 
  split; [done|]. unfold stream_out. by rewrite app_nil_r.
Qed.

Lemma mute_forever p p' : rtc peer_step p p' → mute p → stream_out p' = stream_out p.
Proof.
  induction 1 as [|p p1 p2 Hs _ IH]; [done|]. intros Hm.
  destruct (mute_step _ _ Hs Hm) as [Hm1 <-]. by apply IH.
Qed.

(** A message too long for the codec silences the connection without
    stopping the peer.  [send] accepts it; the writer task then ends, no reason
    to stop is reported, and nothing that is sent later reaches the stream,
    while [send] goes on accepting messages. *)
Theorem oversized_send_mutes e1 e2 ids id bs m :
  send_net_msg id bs = Ok m → wf_msg m →
  (MAX_BUFFER_SIZE < Codec.len (MsgCodec.payload m))%Z →
  let c := framed e1 e2 codec in
  ∃ p, rtc peer_step (peer_new (reader c) (writer c) ids) p ∧
    sent p = [(id, bs)] ∧ send_queue p = [] ∧ stop_reason p = None ∧ shutdown_call p = ShIdle ∧
    ∀ p', rtc peer_step p p' → stream_out p' = [].
Proof using msg_laws u32_laws.
  intros Hsend Hwf Hlen c. eexists. split_and!.
  - eapply rtc_l; [left; by apply (send_begin _ id bs m)|].
    eapply rtc_l; [left; apply (send_push _ 0 id bs m [m]); [done|]|].
    { apply (atomic_push SEND_QUEUE_SIZE []). cbn. unfold SEND_QUEUE_SIZE. lia. }
    eapply rtc_l; [left; eapply writer_recv; [reflexivity|apply atomic_recv]|].
    apply rtc_once. left. eapply (writer_failed _ (writer c) m [] [] (Ok ())); [done|done|].
    unfold FramedWriter.send_msg. cbn. unfold MsgCodec.encode.
    destruct (bincode_roundtrip m Hwf) as (e & He & _). unfold MsgCodec.payload in Hlen.
    rewrite He in *. cbn in *. unfold LengthCodec.encode. by rewrite (proj2 (Z.gtb_lt _ _)) by (cbn; lia).
  - done.
  - done.
  - done.
  - done.
  - intros p' Hrtc. by rewrite (mute_forever _ _ Hrtc).
Qed.

End hang.

(** ** Witnesses *)

#[local] Existing Instance le32_bincode.
#[local] Existing Instance le32_laws.
#[local] Existing Instances one_net_msg one_net_msg_laws one_proto_msg one_shutdown_msg.

Lemma peer_shutdown_hangs_witness :
  let c := framed None None MsgCodec.new in
  ∃ p, rtc peer_step (peer_new (reader c) (writer c) ["P"]) p ∧ shutdown_call p ≠ ShIdle ∧
    ∀ p', rtc peer_step p p' → conn_closed p' = None ∧ shutdown_call p' ≠ ShDone.
Proof.
  apply (peer_shutdown_hangs (λ _, True) None None "P" [7%Z] msg7
    (mkPeerNetMsg (mkHeader CmdShutdown) [0%Z])).
  - vm_compute. split; [exact I|]. split; [discriminate|reflexivity].
  - vm_compute. reflexivity.
  - vm_compute. reflexivity.
Defined.

(** A payload as long as the limit: its message is longer. *)
Definition long_payload : list Z := replicate (Z.to_nat MAX_BUFFER_SIZE) 7%Z.

Definition carrier (bs : list Z) : PeerNetMsg := mkPeerNetMsg (mkHeader CmdProtocol) (0%Z :: bs).

Lemma carrier_send bs : send_net_msg "P" bs = Ok (carrier bs).
Proof. reflexivity. Qed.

Lemma carrier_payload bs : MsgCodec.payload (carrier bs) = 2%Z :: 0%Z :: bs.
Proof. reflexivity. Qed.

Lemma long_oversized : (MAX_BUFFER_SIZE < Codec.len (MsgCodec.payload (carrier long_payload)))%Z.
Proof.
  rewrite carrier_payload. unfold Codec.len, long_payload.
  rewrite !length_cons, length_replicate. unfold MAX_BUFFER_SIZE. lia.
Qed.

Lemma oversized_send_mutes_witness :
  let c := framed None None MsgCodec.new in
  ∃ p, rtc peer_step (peer_new (reader c) (writer c) ["P"]) p ∧
    sent p = [("P", long_payload)] ∧ send_queue p = [] ∧ stop_reason p = None ∧
    shutdown_call p = ShIdle ∧ ∀ p', rtc peer_step p p' → stream_out p' = [].
Proof.
  exact (oversized_send_mutes (λ _, True) None None ["P"] "P" long_payload (carrier long_payload)
    (carrier_send long_payload) I long_oversized).
Defined.

Lemma shutdown_msg_ok :
  PeerNetMsg_new CmdShutdown (mkShutdownMsg 0) = Ok (mkPeerNetMsg (mkHeader CmdShutdown) [0%Z]).
Proof. reflexivity. Qed.

(** A shutdown of a fresh peer, from its start to its end. *)
Lemma shutdown_run :
  ∃ p, rtc peer_step (peer_new r0 w0 ["P"]) p ∧ shutdown_call p = ShDone.
Proof.
  eexists. split.
  - run_step ltac:(left; apply run_cancel; reflexivity).
    run_step ltac:(left; apply shut_begin; reflexivity).
    run_step ltac:(left; eapply (shut_msg _ (mkPeerNetMsg (mkHeader CmdShutdown) [0%Z]) _ ["P"]);
      [reflexivity|vm_compute; reflexivity|apply (atomic_push SEND_QUEUE_SIZE []); vm_compute; lia]).
    run_step ltac:(left; eapply (shut_event _ "P" [] []);
      [reflexivity|vm_compute; reflexivity|apply (atomic_push RECV_QUEUE_SIZE []); vm_compute; lia]).
    run_step ltac:(left; apply shut_broadcast_end; reflexivity).
    run_step ltac:(left; apply shut_stop; reflexivity).
    run_step ltac:(left; apply shut_close; reflexivity).
    run_step ltac:(left; apply cancel_writer; reflexivity).
    run_step ltac:(left; apply cancel_reader; reflexivity).
    eapply rtc_l; [left; apply shut_done; [reflexivity..|]|apply rtc_refl].
    intros id Hid. cbn in Hid. discriminate.
  - reflexivity.
Qed.

Lemma peer_shutdown_spec_witness :
  ∃ p, rtc peer_step (peer_new r0 w0 ["P"]) p ∧ shutdown_call p = ShDone ∧
    conn_closed p = Some (Ok ()) ∧ told p "P".
Proof.
  destruct shutdown_run as (p & Hrtc & Hd).
  exists p. split; [exact Hrtc|]. split; [exact Hd|].
  destruct (proj1 (peer_shutdown_spec _ shutdown_msg_ok
    ["P"] _ _ p Hrtc) Hd) as (Hcl & _ & _ & _ & Ht).
  split; [exact Hcl|]. apply Ht. by left.
Defined.
