(* ===== verification/QuicStreams.v ===== *)
(** * Peer connections over QUIC

    Models the stream-multiplexed connection of [p2p/src/peer/connection.rs]:
    one stream per negotiated protocol, opened by the outbound side with a
    header that names the protocol and accepted by the inbound side.

    QUIC itself is third-party: what [open_stream] and [accept_stream] give is
    an argument.  An accepted stream is the bytes it will give, then its end. *)

From S2P Require Import Prelude Codec Endpoint Framed Message Connection.

Record StreamInit := mkStreamInit { init_protocol_id : ProtocolID }.

(** [bincode] at [u16] with fixed-width integers. *)
Class BincodeU16 := {
  encode_u16 : Z → option (list Z);
  decode_u16 : list Z → option (Z * Z);
}.

Class BincodeU16Laws `{BincodeU16} : Prop :=
  bincode_u16_roundtrip z : is_u16 z →
    ∃ bs, encode_u16 z = Some bs ∧ length bs = 2 ∧ decode_u16 bs = Some (z, 2%Z).

(** [read_exact] on the bytes a stream still gives. *)
Definition read_exact (n : nat) (stream : list Z) : result p2p_error (list Z * list Z) :=
  if decide (n ≤ length stream) then Ok (take n stream, drop n stream)
  else Err (P2pIO UnexpectedEof).

(** One protocol stream: its protocol and the bytes behind its header. *)
Record MuxStream := mkMuxStream { ms_proto_id : ProtocolID; ms_stream : list Z }.

Section quic.
Context `{BincodeU16} `{Bincode StreamInit} `{Bincode ProtocolMsg}.

(** The header the outbound side writes on a new stream. *)
Definition stream_header (proto_id : ProtocolID) : result p2p_error (list Z) :=
  encoded ← encode (mkStreamInit proto_id);
  len ← (if decide (is_u16 (Codec.len encoded)) then Ok (Codec.len encoded)
         else Err (InvalidMsg "StreamInit too large"));
  len_bytes ← ok_or (encode_u16 len) P2pBincodeEncode;
  Ok (len_bytes ++ encoded).

(** The outbound side: what it writes on each stream it opens, in the order in
    which it goes through the protocols. *)
Fixpoint open_streams (negotiated : list ProtocolID) (opens : list (result net_error ())) :
    poll (result p2p_error (list (ProtocolID * list Z))) :=
  match negotiated with
  | [] => Ready (Ok [])
  | proto_id :: negotiated =>
      match opens with
      | [] => Pending
      | Err e :: _ => Ready (Err (KaryonNet e))
      | Ok _ :: opens =>
          match stream_header proto_id with
          | Err e => Ready (Err e)
          | Ok header =>
              match open_streams negotiated opens with
              | Ready (Ok streams) => Ready (Ok ((proto_id, header) :: streams))
              | o => o
              end
          end
      end
  end.

(** The inbound side on one stream: the protocol it is for and the rest of its
    bytes. *)
Definition accept_header (negotiated : list ProtocolID) (stream : list Z) :
    result p2p_error MuxStream :=
  '(len_buf, stream) ← read_exact 2 stream;
  '(len, _) ← ok_or (decode_u16 len_buf) P2pBincodeDecode;
  '(header_buf, stream) ← read_exact (Z.to_nat len) stream;
  '(init, _) ← decode (T := StreamInit) header_buf;
  if decide (init_protocol_id init ∈ negotiated)
  then Ok (mkMuxStream (init_protocol_id init) stream)
  else Err (UnsupportedProtocol (init_protocol_id init)).

(** The accept loop: [expected] streams. *)
Fixpoint accept_streams (negotiated : list ProtocolID) (expected : nat)
    (accepts : list (result net_error (list Z))) : poll (result p2p_error (list MuxStream)) :=
  match expected with
  | O => Ready (Ok [])
  | S expected =>
      match accepts with
      | [] => Pending
      | Err e :: _ => Ready (Err (KaryonNet e))
      | Ok stream :: accepts =>
          match accept_header negotiated stream with
          | Err e => Ready (Err e)
          | Ok s =>
              match accept_streams negotiated expected accepts with
              | Ready (Ok streams) => Ready (Ok (s :: streams))
              | o => o
              end
          end
      end
  end.

(** The send queues: the protocols of the streams, each with the number of the
    queue that a later stream of the same protocol replaces. *)
Definition send_queues (protos : list ProtocolID) : gmap ProtocolID nat :=
  foldl (λ m x, <[x.2 := x.1]> m) ∅ (imap pair protos).

(** [MuxConnection::from_queued]: the queues that the writer and the reader of
    each stream use; [None] is the panic of a missing queue. *)
Definition stream_queues (negotiated protos : list ProtocolID) : option (list (nat * ProtocolID)) :=
  mapM (λ id,
    q_send ← send_queues protos !! id;
    _ ← build_recv_queues negotiated !! id;
    Some (q_send, id)) protos.

(** [MuxConnection::send] up to the push: the queue of the protocol. *)
Definition mux_send (queues : gmap ProtocolID nat) (proto_id : ProtocolID) (payload : list Z) :
    result p2p_error (nat * PeerNetMsg) :=
  net_msg ← PeerNetMsg_new CmdProtocol (mkProtocolMsg proto_id payload);
  q ← ok_or (queues !! proto_id) (UnsupportedProtocol proto_id);
  Ok (q, net_msg).

(** One round of a stream's reader: the bytes to push, or the reason to stop. *)
Definition stream_demux (res : result net_error PeerNetMsg) : result p2p_error (list Z) :=
  msg ← map_err KaryonNet res;
  match command (header msg) with
  | CmdProtocol =>
      '(proto_msg, _) ← decode (T := ProtocolMsg) (payload msg);
      Ok (msg_payload proto_msg)
  | CmdShutdown => Err PeerShutdown
  | _ => Err (InvalidMsg "Unexpected msg")
  end.

End quic.

(** ** Theorems *)

Section theorems.
Context `{BincodeU16} {u16_laws : BincodeU16Laws}.
Context `{Bincode StreamInit} (wf_init : StreamInit → Prop) {init_laws : BincodeLaws StreamInit wf_init}.
Context `{Bincode ProtocolMsg}.

Lemma read_exact_app bs rest : read_exact (length bs) (bs ++ rest) = Ok (bs, rest).
Proof.
  unfold read_exact. rewrite decide_True by (rewrite length_app; lia).
  by rewrite take_app_length, drop_app_length.
Qed.

(** The header is read back exactly, and the bytes behind it are left alone. *)
Lemma stream_header_roundtrip negotiated id h rest :
  wf_init (mkStreamInit id) → id ∈ negotiated → stream_header id = Ok h →
  accept_header negotiated (h ++ rest) = Ok (mkMuxStream id rest).
Proof using init_laws u16_laws.
  intros Hwf Hid. destruct (encode_decode (mkStreamInit id) Hwf) as (bs & He & Hd).
  unfold stream_header. rewrite He. cbn. case_decide as Hlen; [|done]. cbn.
  destruct (bincode_u16_roundtrip (Codec.len bs) Hlen) as (lb & Hle & Hll & Hld).
  rewrite Hle. cbn. intros [= <-]. unfold accept_header.
  rewrite <-Hll, <-app_assoc, read_exact_app. cbn. rewrite Hld. cbn.
  unfold Codec.len. rewrite Nat2Z.id, read_exact_app. cbn. rewrite Hd. cbn. by rewrite decide_True.
Qed.

(** Streams that carry the headers of [ids], in any order and with anything
    behind the headers. *)
Lemma accept_headers negotiated ids (streams : list (ProtocolID * list Z)) datas :
  Forall2 (λ id s, s.1 = id ∧ stream_header id = Ok s.2 ∧ wf_init (mkStreamInit id) ∧ id ∈ negotiated)
    ids streams →
  length datas = length ids →
  accept_streams negotiated (length ids) (zip_with (λ s d, Ok (s.2 ++ d)) streams datas) =
    Ready (Ok (zip_with mkMuxStream ids datas)).
Proof using init_laws u16_laws.
  intros Hs. revert datas. induction Hs as [|id [id' h] ids streams (? & Hh & Hwf & Hid) _ IH];
    intros [|d datas] Hl; try done.
  cbn in *. rewrite (stream_header_roundtrip _ _ _ _ Hwf Hid Hh). by rewrite IH by lia.
Qed.

Lemma foldl_queues (l : list (nat * ProtocolID)) m id :
  id ∉ l.*2 → foldl (λ m x, <[x.2 := x.1]> m) m l !! id = (m : gmap ProtocolID nat) !! id.
Proof.
  revert m. induction l as [|[n i] l IH]; intros m Hid; [done|]. cbn in *.
  rewrite IH by set_solver. rewrite lookup_insert_ne; [done|]. set_solver.
Qed.

Lemma imap_pair_snd {A} (l : list A) : (imap pair l).*2 = l.
Proof.
  apply list_eq. intros i. rewrite list_lookup_fmap, list_lookup_imap. by destruct (l !! i).
Qed.

(** Each protocol's queue is that of its last stream. *)
Lemma send_queues_last ids i id :
  ids !! i = Some id → id ∉ drop (S i) ids → send_queues ids !! id = Some i.
Proof.
  intros Hi Hlast. unfold send_queues. rewrite <-(take_drop_middle _ _ _ Hi) at 1.
  rewrite imap_app, foldl_app. cbn. rewrite foldl_queues.
  - rewrite Nat.add_0_r, lookup_insert_eq. f_equal. apply length_take_le.
    apply lookup_lt_Some in Hi. lia.
  - intros (x & -> & Hx)%list_elem_of_fmap. apply elem_of_lookup_imap in Hx as (j & y & -> & Hy).
    cbn in Hlast. apply Hlast. by eapply list_elem_of_lookup_2.
Qed.

Lemma nodup_not_later {A} (l : list A) i x : NoDup l → l !! i = Some x → x ∉ drop (S i) l.
Proof.
  intros Hnd Hi Hx. rewrite <-(take_drop_middle _ _ _ Hi) in Hnd.
  apply NoDup_app in Hnd as (_ & _ & [? _]%NoDup_cons). done.
Qed.

Lemma mapM_lookup {A B} (f : A → option B) l k :
  (∀ i x, l !! i = Some x → ∃ y, k !! i = Some y ∧ f x = Some y) → length k = length l →
  mapM f l = Some k.
Proof.
  intros Hf Hlen. apply mapM_Some. apply Forall2_same_length_lookup. split; [done|].
  intros i x y Hx Hy. destruct (Hf i x Hx) as (y' & Hy' & ?). by simplify_eq.
Qed.

Lemma recv_queue_exists negotiated id : id ∈ negotiated → ∃ q, build_recv_queues negotiated !! id = Some q.
Proof.
  intros Hid. unfold build_recv_queues. destruct (list_to_map _ !! id) as [q|] eqn:Hq; [by exists q|].
  apply not_elem_of_list_to_map in Hq. destruct Hq. apply list_elem_of_fmap. exists (id, []).
  split; [done|]. apply list_elem_of_fmap. by exists id.
Qed.

Lemma stream_queues_Some negotiated protos :
  Forall (λ id, id ∈ negotiated) protos → is_Some (stream_queues negotiated protos).
Proof.
  intros Hall. apply mapM_is_Some. apply Forall_forall. intros id Hid.
  rewrite Forall_forall in Hall. destruct (recv_queue_exists negotiated id (Hall id Hid)) as [q Hq].
  assert (∃ n, send_queues protos !! id = Some n) as [n Hn].
  { apply list_elem_of_lookup_1 in Hid as [i Hi]. revert i Hi.
    assert (∀ k i, length protos - i ≤ k → protos !! i = Some id → ∃ n, send_queues protos !! id = Some n)
      as Hk; [|intros i Hi; by eapply (Hk _ i)].
    induction k as [|k IH]; intros i Hk Hi.
    { apply lookup_lt_Some in Hi. lia. }
    destruct (decide (id ∈ drop (S i) protos)) as [(j & Hj)%list_elem_of_lookup_1|Hlast].
    - rewrite lookup_drop in Hj. apply (IH (S i + j)); [lia|done].
    - exists i. by apply send_queues_last. }
  exists (n, id). by rewrite Hn, Hq.
Qed.

Lemma stream_queues_own negotiated protos :
  NoDup protos → Forall (λ id, id ∈ negotiated) protos →
  stream_queues negotiated protos = Some (imap pair protos).
Proof.
  intros Hnd Hall. apply mapM_lookup; [|by rewrite length_imap]. intros i id Hi.
  exists (i, id). rewrite list_lookup_imap, Hi. split; [done|].
  rewrite (send_queues_last protos i id Hi) by by eapply nodup_not_later. cbn.
  rewrite Forall_forall in Hall.
  destruct (recv_queue_exists negotiated id) as [q ->]; [|done]. apply Hall. by eapply list_elem_of_lookup_2.
Qed.

Lemma open_streams_headers ids opens streams :
  open_streams ids opens = Ready (Ok streams) →
  Forall2 (λ id s, s.1 = id ∧ stream_header id = Ok s.2) ids streams.
Proof.
  revert opens streams. induction ids as [|id ids IH]; intros opens streams; cbn.
  { intros [= <-]. constructor. }
  destruct opens as [|[[]|e] opens]; [done| |done]. destruct (stream_header id) as [h|] eqn:Hh; [|done].
  destruct (open_streams ids opens) as [|[ss|]|] eqn:Ho; try done. intros [= <-].
  constructor; [done|]. by eapply IH.
Qed.

(** C39: The two sides of a QUIC connection agree on the protocol streams.  The
    outbound side opens one stream per negotiated protocol; in whatever order
    they reach the inbound side, and whatever protocol bytes already follow the
    headers, it accepts exactly one stream per protocol, with those bytes and no
    others left in it, and on both sides every stream has a send queue of its
    own. *)
Theorem quic_streams_agree ids negotiated opens streams accepted datas :
  NoDup ids → negotiated ≡ₚ ids → Forall (λ id, wf_init (mkStreamInit id)) ids →
  open_streams ids opens = Ready (Ok streams) →
  accepted ≡ₚ streams → length datas = length accepted →
  let protos := accepted.*1 in
  accept_streams negotiated (length negotiated) (zip_with (λ s d, Ok (s.2 ++ d)) accepted datas) =
    Ready (Ok (zip_with mkMuxStream protos datas)) ∧
  protos ≡ₚ ids ∧
  stream_queues negotiated protos = Some (imap pair protos) ∧
  stream_queues ids ids = Some (imap pair ids).
Proof using init_laws u16_laws.
  intros Hnd Hneg Hwf Hopen%open_streams_headers Hacc Hlen protos.
  assert (streams.*1 = ids) as Hfst.
  { clear -Hopen. induction Hopen as [|id s ids ss [? _] _ IH]; cbn; congruence. }
  assert (protos ≡ₚ ids) as Hp by (unfold protos; by rewrite Hacc, Hfst).
  assert (Forall (λ id, id ∈ negotiated) protos) as Hin.
  { apply Forall_forall. intros id. by rewrite Hp, Hneg. }
  assert (Forall (λ s, stream_header s.1 = Ok s.2) accepted) as Hh.
  { rewrite Hacc. clear -Hopen. induction Hopen as [|id s ids ss [<- ?] _ IH]; by constructor. }
  split_and!.
  - replace (length negotiated) with (length protos) by (by rewrite Hp, Hneg). apply accept_headers; [|by unfold protos; rewrite length_fmap].
    apply Forall2_fmap_l, Forall_Forall2_diag. unfold protos in Hin. rewrite Forall_fmap in Hin.
    rewrite Forall_forall in Hin, Hh. apply Forall_forall. intros s Hs. split_and!; [done|by apply Hh| |by apply Hin].
    apply (proj1 (Forall_forall _ _) Hwf). rewrite <-Hp. apply list_elem_of_fmap. by exists s.
  - done.
  - apply stream_queues_own; [by rewrite Hp|done].
  - apply stream_queues_own; [done|]. by apply Forall_forall.
Qed.

Lemma accept_header_negotiated negotiated stream s :
  accept_header negotiated stream = Ok s → ms_proto_id s ∈ negotiated.
Proof.
  unfold accept_header. destruct (read_exact 2 stream) as [[lb s1]|]; [cbn|done].
  destruct (decode_u16 lb) as [[n ?]|]; [cbn|done].
  destruct (read_exact _ s1) as [[hb s2]|]; [cbn|done].
  destruct (decode hb) as [[init ?]|]; [cbn|done]. case_decide; [|done]. by intros [= <-].
Qed.

(** Whatever the other side opens: the streams accepted are for negotiated
    protocols, as many as there are, and the queues they need exist. *)
Theorem quic_accept_safe negotiated expected accepts streams :
  accept_streams negotiated expected accepts = Ready (Ok streams) →
  length streams = expected ∧ Forall (λ s, ms_proto_id s ∈ negotiated) streams ∧
  is_Some (stream_queues negotiated (map ms_proto_id streams)).
Proof.
  intros Hacc. assert (length streams = expected ∧ Forall (λ s, ms_proto_id s ∈ negotiated) streams) as [? Hall].
  { revert accepts streams Hacc. induction expected as [|n IH]; intros accepts streams; cbn.
    { by intros [= <-]. }
    destruct accepts as [|[stream|e] accepts]; [done| |done].
    destruct (accept_header negotiated stream) as [s|] eqn:Hs; [|done].
    destruct (accept_streams negotiated n accepts) as [|[ss|]|] eqn:Hss; try done. intros [= <-].
    destruct (IH _ _ Hss) as [<- ?]. split; [done|]. constructor; [|done].
    by eapply accept_header_negotiated. }
  split_and!; [done..|]. apply stream_queues_Some. by apply Forall_map.
Qed.

(** The inbound side accepts two streams for one protocol and none for
    another.  It then takes the connection as set up, and sending on the
    negotiated protocol without a stream fails as if it had not been
    negotiated. *)
Theorem quic_duplicate_stream a b h d1 d2 bs m :
  a ≠ b → wf_init (mkStreamInit a) → stream_header a = Ok h →
  PeerNetMsg_new CmdProtocol (mkProtocolMsg b bs) = Ok m →
  accept_streams [a; b] 2 [Ok (h ++ d1); Ok (h ++ d2)] =
    Ready (Ok [mkMuxStream a d1; mkMuxStream a d2]) ∧
  mux_send (send_queues [a; a]) b bs = Err (UnsupportedProtocol b).
Proof using init_laws u16_laws.
  intros Hab Hwf Hh Hm. split.
  - cbn. rewrite !(stream_header_roundtrip [a; b] a h) by (done || set_solver). done.
  - unfold mux_send. rewrite Hm. cbn. by rewrite insert_insert_eq, lookup_insert_ne.
Qed.

End theorems.

(** ** Witnesses: two protocols, one byte each *)

#[local] Instance be16_bincode : BincodeU16 := {|
  encode_u16 z := Some (u16_to_be z);
  decode_u16 bs := match bs with [a; b] => Some (u16_from_be a b, 2%Z) | _ => None end;
|}.
#[local] Instance be16_laws : BincodeU16Laws.
Proof.
  intros z Hz. eexists. split_and!; [done..|]. cbn. by rewrite u16_be_roundtrip.
Qed.

#[local] Instance one_init : Bincode StreamInit := {|
  encode_to_vec i := Some [if decide (init_protocol_id i = "A") then 0%Z else 1%Z];
  decode_from_slice bs :=
    match bs with
    | [z] => Some (mkStreamInit (if (z =? 0)%Z then "A" else "B"), 1%Z)
    | _ => None
    end;
|}.
Definition is_ab (i : StreamInit) : Prop := init_protocol_id i = "A" ∨ init_protocol_id i = "B".
#[local] Instance one_init_laws : BincodeLaws StreamInit is_ab.
Proof. intros [id] [Hid|Hid]; cbn in Hid; subst id; by eexists. Qed.

#[local] Instance any_proto_msg : Bincode ProtocolMsg := {|
  encode_to_vec m := Some (msg_payload m);
  decode_from_slice bs := Some (mkProtocolMsg "A" bs, Codec.len bs);
|}.

Lemma quic_streams_agree_witness :
  accept_streams ["A"; "B"] 2 [Ok ([0; 1; 1] ++ [9]); Ok ([0; 1; 0] ++ [])]%Z =
    Ready (Ok [mkMuxStream "B" [9%Z]; mkMuxStream "A" []]).
Proof.
  refine (proj1 (quic_streams_agree is_ab ["A"; "B"] ["A"; "B"] [Ok (); Ok ()]
    [("A", [0; 1; 0]%Z); ("B", [0; 1; 1]%Z)] [("B", [0; 1; 1]%Z); ("A", [0; 1; 0]%Z)] [[9%Z]; []]
    _ _ _ _ _ _)).
  - apply NoDup_cons. split; [|apply NoDup_singleton]. rewrite list_elem_of_singleton. discriminate.
  - reflexivity.
  - constructor; [left; reflexivity|]. constructor; [right; reflexivity|]. constructor.
  - vm_compute. reflexivity.
  - apply Permutation_swap.
  - reflexivity.
Defined.

Lemma quic_duplicate_stream_witness :
  accept_streams ["A"; "B"] 2 [Ok ([0; 1; 0] ++ []); Ok ([0; 1; 0] ++ [])]%Z =
    Ready (Ok [mkMuxStream "A" []; mkMuxStream "A" []]) ∧
  mux_send (send_queues ["A"; "A"]) "B" [7%Z] = Err (UnsupportedProtocol "B").
Proof.
  refine (quic_duplicate_stream is_ab "A" "B" [0; 1; 0]%Z [] [] [7%Z]
    (mkPeerNetMsg (mkHeader CmdProtocol) [7%Z]) _ _ _ _).
  - discriminate.
  - left. reflexivity.
  - vm_compute. reflexivity.
  - reflexivity.
Defined.
