(* ===== verification/Ping.v ===== *)
(** * The ping protocol

    Models [p2p/src/protocols/ping.rs].  [recv_loop] is a function of what the
    peer gives it, each message with the outcome of the send it leads to;
    [ping_loop] is a function of its rounds.  A round has the random nonce, the
    outcome of the send, the pongs that reach the channel while the loop waits
    and those that reach it between the end of the wait and the next one.
    [recv_loop] puts pongs into the channel in the order it gets them and waits
    while it is full, so the channel and what waits for it are one list. *)

From S2P Require Import Prelude Codec Endpoint Framed Message Version.

Definition MAX_FAILURES : nat := 3.
Definition PING_DEDUP_WINDOW : nat := 64.
Definition PING_PROTO_ID : ProtocolID := "PING".

(** A nonce of 32 bytes. *)
Definition Nonce := list Z.

Inductive PingProtocolMsg :=
| Ping (nonce : Nonce)
| Pong (nonce : Nonce).

Section ping.
Context `{Bincode PingProtocolMsg}.

(** What the loop does: send a pong, or hand a pong to [ping_loop]. *)
Inductive ping_out :=
| SendPong (nonce : Nonce)
| HandPong (nonce : Nonce).

Definition remember (seen : list Nonce) (nonce : Nonce) : list Nonce :=
  (if decide (length seen = PING_DEDUP_WINDOW) then tail seen else seen) ++ [nonce].

Fixpoint recv_loop (seen : list Nonce) (ins : list (result p2p_error (list Z) * result p2p_error ())) :
    poll (result p2p_error ()) * list ping_out :=
  match ins with
  | [] => (Pending, [])
  | (Err PeerShutdown, _) :: _ => (Ready (Ok ()), [])
  | (Err e, _) :: _ => (Ready (Err e), [])
  | (Ok payload, sent) :: ins =>
      match decode (T := PingProtocolMsg) payload with
      | Err e => (Ready (Err e), [])
      | Ok (Ping nonce, _) =>
          if decide (nonce ∈ seen) then recv_loop seen ins
          else
            match encode (Pong nonce), sent with
            | Err e, _ => (Ready (Err e), [])
            | Ok _, Err e => (Ready (Err e), [])
            | Ok _, Ok _ =>
                let '(o, outs) := recv_loop (remember seen nonce) ins in
                (o, SendPong nonce :: outs)
            end
      | Ok (Pong nonce, _) =>
          match sent with
          | Err e => (Ready (Err e), [])
          | Ok _ => let '(o, outs) := recv_loop seen ins in (o, HandPong nonce :: outs)
          end
      end
  end.

(** [sent] is the outcome of [peer.send]; [None] as a nonce is a failed random
    source. *)
Record round := mkRound {
  nonce : option Nonce;
  sent : result p2p_error ();
  in_time : list Nonce;
  late : list Nonce;
}.

Fixpoint ping_loop (retry : nat) (chan : list Nonce) (rounds : list round) : poll (result p2p_error ()) :=
  if decide (retry < MAX_FAILURES) then
    match rounds with
    | [] => Pending
    | r :: rounds =>
        match nonce r with
        | None => Ready (Err Rand)
        | Some n =>
            match encode (Ping n), sent r with
            | Err e, _ => Ready (Err e)
            | Ok _, Err e => Ready (Err e)
            | Ok _, Ok _ =>
                match chan ++ in_time r with
                | [] => ping_loop (S retry) (late r) rounds
                | pong :: rest =>
                    ping_loop (if decide (pong = n) then 0 else S retry) (rest ++ late r) rounds
                end
            end
        end
    end
  else Ready (Err Timeout).

(** What [start] returns: [select] prefers the receive loop. *)
Definition start (recv : poll (result p2p_error ())) (ping : poll (result p2p_error ())) :
    poll (result p2p_error ()) :=
  match recv with
  | Ready res => Ready res
  | Panicked => Panicked
  | Pending => ping
  end.

End ping.

(** ** Answering pings *)

(** The nonces answered. *)
Definition pongs (outs : list ping_out) : list Nonce :=
  omap (λ o, match o with SendPong n => Some n | HandPong _ => None end) outs.

Section answers.
Context `{Bincode PingProtocolMsg}.

(** The window is the last answers, at most [PING_DEDUP_WINDOW] of them. *)
Definition window (l : list Nonce) : list Nonce := drop (length l - PING_DEDUP_WINDOW) l.

Lemma remember_window l n : remember (window l) n = window (l ++ [n]).
Proof.
  unfold remember, window, PING_DEDUP_WINDOW. rewrite length_drop, length_app. cbn [length].
  case_decide as Hl.
  - rewrite drop_app_le by lia. f_equal.
    transitivity (drop 1 (drop (length l - 64) l)); [by destruct (drop _ l)|].
    rewrite drop_drop. f_equal. lia.
  - by replace (length l - 64) with 0 by lia; replace (length l + 1 - 64) with 0 by lia.
Qed.

(** The reference: each ping is answered unless one of the last
    [PING_DEDUP_WINDOW] answers was to the same nonce; each pong is handed on. *)
Fixpoint replies (answered : list Nonce) (msgs : list PingProtocolMsg) : list ping_out :=
  match msgs with
  | [] => []
  | Ping n :: msgs =>
      if decide (n ∈ window answered) then replies answered msgs
      else SendPong n :: replies (answered ++ [n]) msgs
  | Pong n :: msgs => HandPong n :: replies answered msgs
  end.

Context (wf : PingProtocolMsg → Prop) {laws : BincodeLaws PingProtocolMsg wf}.
Hypothesis wf_pong : ∀ n, wf (Ping n) → wf (Pong n).

Lemma recv_loop_replies msgs : ∀ answered ins,
  Forall2 (λ m x, wf m ∧ encode m = Ok x) msgs ins →
  recv_loop (window answered) (map (λ x, (Ok x, Ok ())) ins) = (Pending, replies answered msgs).
Proof using laws wf_pong.
  induction msgs as [|m msgs IH]; intros answered ins Hins; inversion Hins as [|? x ? ins' [Hwf He] Hrest]; subst;
    [done|]. cbn.
  destruct (encode_decode m Hwf) as (bs & He' & Hd). rewrite He in He'. injection He' as ->. rewrite Hd.
  destruct m as [n|n].
  - case_decide; [by apply IH|].
    destruct (encode_decode (Pong n) (wf_pong n Hwf)) as (pbs & -> & _).
    rewrite remember_window. by rewrite (IH (answered ++ [n])).
  - by rewrite IH.
Qed.

Lemma pongs_spaced msgs : ∀ answered,
  (∀ i n, (answered ++ pongs (replies answered msgs)) !! i = Some n → length answered ≤ i →
    n ∉ window (take i (answered ++ pongs (replies answered msgs)))).
Proof.
  induction msgs as [|[n|n] msgs IH]; intros answered i m; cbn [replies].
  - change (pongs []) with (@nil Nonce). rewrite app_nil_r. intros Hi%lookup_lt_Some ?. lia.
  - case_decide as Hn; [apply IH|]. change (pongs (SendPong n :: ?l)) with (n :: pongs l).
    intros Hi Hle. destruct (decide (i = length answered)) as [->|].
    + rewrite list_lookup_middle in Hi by done. injection Hi as <-. by rewrite take_app_length.
    + rewrite cons_middle, app_assoc in Hi |- *. apply IH; [done|]. rewrite length_app. cbn. lia.
  - change (pongs (HandPong n :: ?l)) with (pongs l). apply IH.
Qed.

(** Answering pings.  As long as its sends succeed, the receive loop answers
    exactly as if it remembered every answer it ever sent: each ping is answered
    with its own nonce unless that nonce is among the last 64 answers, and each
    pong is handed on, all in the order received.  So two answers to one nonce
    are always more than 64 answers apart: resending a ping does not draw
    unlimited answers. *)
Theorem ping_replies (msgs : list PingProtocolMsg) (ins : list (list Z)) :
  Forall2 (λ m x, wf m ∧ encode m = Ok x) msgs ins →
  recv_loop [] (map (λ x, (Ok x, Ok ())) ins) = (Pending, replies [] msgs) ∧
  ∀ i j n, i < j → pongs (replies [] msgs) !! i = Some n → pongs (replies [] msgs) !! j = Some n →
    PING_DEDUP_WINDOW < j - i.
Proof using laws wf_pong.
  intros Hins. split; [by apply (recv_loop_replies msgs [])|]. intros i j n Hij Hi Hj.
  set (ps := pongs (replies [] msgs)) in *.
  destruct (decide (PING_DEDUP_WINDOW < j - i)) as [|Hlt]; [done|].
  destruct (pongs_spaced msgs [] j n Hj (Nat.le_0_l _)). change ([] ++ ?l) with l. fold ps.
  assert (length (take j ps) = j) as Hlen.
  { apply lookup_lt_Some in Hj. rewrite length_take. lia. }
  unfold window. rewrite Hlen.
  apply (list_elem_of_lookup_2 _ (i - (j - PING_DEDUP_WINDOW))).
  rewrite lookup_drop. replace (_ + _) with i by lia. by rewrite lookup_take_lt.
Qed.

End answers.

(** ** Sending pings *)

Section rounds.
Context `{Bincode PingProtocolMsg}.

(** A round in which nothing fails locally. *)
Definition sound_round (r : round) : Prop :=
  sent r = Ok () ∧ ∃ n bs, nonce r = Some n ∧ encode (Ping n) = Ok bs.

(** The pong of the round arrives while the loop waits, and nothing else. *)
Definition answered_in_time (r : round) : Prop :=
  late r = [] ∧ ∃ n, nonce r = Some n ∧ in_time r = [n].

(** No pong arrives at all. *)
Definition unanswered (r : round) : Prop := in_time r = [] ∧ late r = [].

Lemma ping_round_answered retry r rounds :
  retry < MAX_FAILURES → sound_round r → answered_in_time r →
  ping_loop retry [] (r :: rounds) = ping_loop 0 [] rounds.
Proof.
  intros Hr (Hs & n & bs & Hn & He) (Hl & n' & Hn' & Hin). cbn.
  rewrite decide_True, Hn, He, Hs by done. cbn. rewrite Hin. cbn. rewrite Hl.
  rewrite Hn in Hn'. injection Hn' as ->. by rewrite decide_True.
Qed.

Lemma ping_round_unanswered retry r rounds :
  retry < MAX_FAILURES → sound_round r → unanswered r →
  ping_loop retry [] (r :: rounds) = ping_loop (S retry) [] rounds.
Proof.
  intros Hr (Hs & n & bs & Hn & He) (Hin & Hl). cbn.
  rewrite decide_True, Hn, He, Hs by done. cbn. by rewrite Hin, Hl.
Qed.

Lemma ping_rounds_answered pre rest retry :
  retry < MAX_FAILURES → Forall sound_round pre → Forall answered_in_time pre →
  ping_loop retry [] (pre ++ rest) = ping_loop (if pre then retry else 0) [] rest.
Proof.
  intros Hr Hs Ha. revert retry Hr. induction Hs as [|r pre Hr Hs IH]; intros retry Hretry; [done|].
  apply Forall_cons in Ha as [Har Ha]. cbn [app]. rewrite ping_round_answered by done.
  rewrite IH by (done || (unfold MAX_FAILURES; lia)). by destruct pre.
Qed.

(** When the ping loop gives up.  As long as the pong of every round arrives
    in time it goes on, however many rounds there are; a peer that stops
    answering is given up with [Timeout] after exactly three unanswered pings. *)
Theorem ping_timeout pre r1 r2 r3 rest :
  Forall sound_round (pre ++ [r1; r2; r3]) → Forall answered_in_time pre →
  unanswered r1 → unanswered r2 → unanswered r3 →
  ping_loop 0 [] pre = Pending ∧
  ping_loop 0 [] (pre ++ [r1]) = Pending ∧ ping_loop 0 [] (pre ++ [r1; r2]) = Pending ∧
  ping_loop 0 [] (pre ++ r1 :: r2 :: r3 :: rest) = Ready (Err Timeout).
Proof.
  intros Hs Ha H1 H2 H3. apply Forall_app in Hs as [Hpre Hs].
  apply Forall_cons in Hs as [Hs1 [Hs2 [Hs3 _]%Forall_cons]%Forall_cons].
  assert (∀ rest, ping_loop 0 [] (pre ++ rest) = ping_loop 0 [] rest) as Hp.
  { intros l. rewrite ping_rounds_answered by (done || (unfold MAX_FAILURES; lia)). by destruct pre. }
  rewrite <-(app_nil_r pre) at 1. rewrite !Hp. unfold MAX_FAILURES in *.
  split_and!; [done|..]; rewrite ?(ping_round_unanswered 0), ?(ping_round_unanswered 1),
    ?(ping_round_unanswered 2) by (done || (unfold MAX_FAILURES; lia)); try done.
  by destruct rest.
Qed.

(** One late pong disconnects a healthy peer.  When the pong of one ping
    comes after its wait has ended, it stays in the channel; the next waits
    then take the pong of the ping before, so the loop gives up although every
    later ping is answered in time. *)
Theorem ping_late_pong_disconnects r1 r2 r3 n1 n2 n3 rest :
  sound_round r1 → sound_round r2 → sound_round r3 →
  nonce r1 = Some n1 → nonce r2 = Some n2 → nonce r3 = Some n3 → n1 ≠ n2 → n2 ≠ n3 →
  in_time r1 = [] → late r1 = [n1] → answered_in_time r2 → answered_in_time r3 →
  ping_loop 0 [] (r1 :: r2 :: r3 :: rest) = Ready (Err Timeout).
Proof.
  intros (Hs1 & ? & b1 & Hn1 & He1) (Hs2 & ? & b2 & Hn2 & He2) (Hs3 & ? & b3 & Hn3 & He3)
    H1 H2 H3 H12 H23 Hin1 Hl1 (Hl2 & ? & Ha2 & Hin2) (Hl3 & ? & Ha3 & Hin3).
  destruct r1, r2, r3. cbn in *. simplify_eq. cbn. rewrite He1, He2, He3. cbn.
  destruct rest; cbn; repeat (case_decide; try done; try (unfold MAX_FAILURES in *; lia)).
Qed.

End rounds.

(** ** Witnesses: nonces of any length, after one byte *)

Definition tagged_ping : Bincode PingProtocolMsg := {|
  encode_to_vec m := Some (match m with Ping n => 0%Z :: n | Pong n => 1%Z :: n end);
  decode_from_slice bs :=
    match bs with
    | z :: n => Some (if (z =? 0)%Z then Ping n else Pong n, Codec.len bs)
    | [] => None
    end;
|}.
#[local] Existing Instance tagged_ping.

Lemma tagged_ping_laws : BincodeLaws PingProtocolMsg (λ _, True).
Proof. intros [n|n] _; by eexists. Qed.
#[local] Existing Instance tagged_ping_laws.

Lemma ping_replies_witness :
  recv_loop [] [(Ok [0; 5]%Z, Ok ()); (Ok [0; 5]%Z, Ok ()); (Ok [1; 6]%Z, Ok ())] =
    (Pending, [SendPong [5%Z]; HandPong [6%Z]]).
Proof.
  refine (proj1 (ping_replies (λ _, True) (λ _ _, I) [Ping [5%Z]; Ping [5%Z]; Pong [6%Z]]
    [[0; 5]; [0; 5]; [1; 6]]%Z _)).
  repeat constructor.
Defined.

Definition quiet_round (n : Z) : round := mkRound (Some [n]) (Ok ()) [] [].
Definition good_round (n : Z) : round := mkRound (Some [n]) (Ok ()) [[n]] [].

Lemma ping_timeout_witness :
  ping_loop 0 [] [good_round 1; quiet_round 2; quiet_round 3; quiet_round 4] = Ready (Err Timeout).
Proof.
  refine (proj2 (proj2 (proj2 (ping_timeout [good_round 1] (quiet_round 2) (quiet_round 3)
    (quiet_round 4) [] _ _ _ _ _)))).
  - repeat constructor; by eexists _, _.
  - repeat constructor. by eexists.
  - split; reflexivity.
  - split; reflexivity.
  - split; reflexivity.
Defined.

Lemma ping_late_pong_disconnects_witness :
  ping_loop 0 [] [mkRound (Some [1%Z]) (Ok ()) [] [[1%Z]]; good_round 2; good_round 3] =
    Ready (Err Timeout).
Proof.
  refine (ping_late_pong_disconnects (mkRound (Some [1%Z]) (Ok ()) [] [[1%Z]]) (good_round 2) (good_round 3)
    [1%Z] [2%Z] [3%Z] [] _ _ _ eq_refl eq_refl eq_refl _ _ eq_refl eq_refl _ _).
  - split; [reflexivity|]. by eexists _, _.
  - split; [reflexivity|]. by eexists _, _.
  - split; [reflexivity|]. by eexists _, _.
  - discriminate.
  - discriminate.
  - split; [reflexivity|]. by eexists.
  - split; [reflexivity|]. by eexists.
Defined.
