(* ===== verification/Pool.v ===== *)
(** * The peer pool and the connections it is given

    Models [p2p/src/conn_queue.rs] and [p2p/src/peer_pool.rs] with the part of
    [p2p/src/listener.rs] and [p2p/src/connector.rs] that holds a connection
    slot, as one system of interleaved tasks: a task per connection that waits
    in [ConnQueue::handle], the run loop of the pool, a task per peer that
    removes the peer when it stops, and broadcasts.

    The outcome of a handshake, of building a peer and of shutting one down is
    an argument of the step that needs it; [Handshake], [QuicStreams] and
    [PeerShutdown] say what they are.  A lock that is held across awaits is part
    of the state: broadcasts read the peer map for as long as they take. *)

From S2P Require Import Prelude Codec Endpoint Message Version Config Connection.

Inductive PeerEvent :=
| Added (p : PeerID)
| Removed (p : PeerID)
| HandshakeFailed (p : option PeerID).

(** Where a connection is: still being set up, in the queue, in the hands of the
    run loop, a peer, a peer that has stopped, removed from the map and shutting
    down the peer that was there, about to report the removal, or over. *)
Inductive stage :=
| Upgrading
| InQueue
| Handling
| Running (pid : PeerID)
| Ended (pid : PeerID)
| Shutting (pid : PeerID) (victim : nat)
| Emitting (pid : PeerID)
| Over.

(** [QueuedConn], with its slot, its close channel and the length of its send
    queue. *)
Record conn := mkConn {
  direction : ConnDirection;
  remote_endpoint : Endpoint;
  verified_peer_id : option PeerID;
  slot : bool;
  at_stage : stage;
  closed : option (result p2p_error ());
  send_len : nat;
}.

Inductive run_pc :=
| RunNext
| RunHandshake (c : nat)
| RunCheck (c : nat) (pid : PeerID) (negotiated : list ProtocolID)
| RunBuild (c : nat) (pid : PeerID) (negotiated : list ProtocolID)
| RunAdded (pid : PeerID).

Record pool := mkPool {
  conns : gmap nat conn;
  next_conn : nat;
  conn_queue : list nat;
  runner : run_pc;
  peers : gmap PeerID nat;
  readers : list (list nat);
  events : list PeerEvent;
  monitored : list PoolEvent;
}.

Definition set_stage (s : stage) (c : conn) : conn :=
  mkConn (direction c) (remote_endpoint c) (verified_peer_id c) (slot c) s (closed c) (send_len c).
Definition close (r : result p2p_error ()) (c : conn) : conn :=
  mkConn (direction c) (remote_endpoint c) (verified_peer_id c) (slot c) (at_stage c) (Some r) (send_len c).
Definition drop_slot (c : conn) : conn :=
  mkConn (direction c) (remote_endpoint c) (verified_peer_id c) false (at_stage c) (closed c) (send_len c).
Definition set_send_len (n : nat) (c : conn) : conn :=
  mkConn (direction c) (remote_endpoint c) (verified_peer_id c) (slot c) (at_stage c) (closed c) n.

Definition update (p : pool) (i : nat) (f : conn → conn) : pool :=
  mkPool (alter f i (conns p)) (next_conn p) (conn_queue p) (runner p) (peers p) (readers p)
    (events p) (monitored p).
Definition set_runner (p : pool) (r : run_pc) : pool :=
  mkPool (conns p) (next_conn p) (conn_queue p) r (peers p) (readers p) (events p) (monitored p).
Definition set_queue (p : pool) (q : list nat) : pool :=
  mkPool (conns p) (next_conn p) q (runner p) (peers p) (readers p) (events p) (monitored p).
Definition set_peers (p : pool) (m : gmap PeerID nat) : pool :=
  mkPool (conns p) (next_conn p) (conn_queue p) (runner p) m (readers p) (events p) (monitored p).
Definition set_readers (p : pool) (rs : list (list nat)) : pool :=
  mkPool (conns p) (next_conn p) (conn_queue p) (runner p) (peers p) rs (events p) (monitored p).
Definition report (p : pool) (es : list PeerEvent) (ms : list PoolEvent) : pool :=
  mkPool (conns p) (next_conn p) (conn_queue p) (runner p) (peers p) (readers p) (events p ++ es)
    (monitored p ++ ms).

Section pool.
Context (access_control : AccessControl) (slots : ConnDirection → nat).

Definition pool_new : pool := mkPool ∅ 0 [] RunNext ∅ [] [] [].

(** The permits of a semaphore that are taken. *)
Definition held (d : ConnDirection) (p : pool) : nat :=
  size (filter (λ kv, direction kv.2 = d ∧ slot kv.2 = true) (conns p)).

(** The head of [PeerPool::run] after the handshake: the admitted peer, or the
    error to answer with and the peer to report. *)
Definition admission (c : conn) (handshake : result p2p_error (PeerID * list ProtocolID)) :
    (PeerID * list ProtocolID) + (p2p_error * option PeerID) :=
  match handshake with
  | Err err => inr (err, verified_peer_id c)
  | Ok (pid, negotiated) =>
      if access_control (SubjectPeer (mkCandidate pid (remote_endpoint c) negotiated))
           (ActConnect (direction c))
      then inl (pid, negotiated) else inr (AccessDenied, Some pid)
  end.

(** The peer map, by direction: [inbound_peers] and [outbound_peers]. *)
Definition peers_of (d : ConnDirection) (p : pool) : gmap PeerID nat :=
  filter (λ kv, direction <$> conns p !! kv.2 = Some d) (peers p).

Definition peers_len (p : pool) : nat := size (peers p).
Definition contains_peer (p : pool) (pid : PeerID) : bool := bool_decide (is_Some (peers p !! pid)).

(** [broadcast]: the peers it will send to, in the order of the map. *)
Definition broadcast_targets (p : pool) : list nat := (map_to_list (peers p)).*2.

(** [broadcast_to]. *)
Definition broadcast_to_targets (p : pool) (targets : list PeerID) : list nat :=
  (filter (λ kv, kv.1 ∈ targets) (map_to_list (peers p))).*2.

(** [send_to]. *)
Definition send_to_target (p : pool) (pid : PeerID) : result p2p_error (list nat) :=
  c ← ok_or (peers p !! pid) (PeerNotFound "peer id"); Ok [c].

Inductive step : pool → pool → Prop :=
(** A connection accepted by the listener or dialed by the connector, in a task
    that holds a slot. *)
| net_connection p d e vpid :
    held d p < slots d →
    step p (mkPool (<[next_conn p := mkConn d e vpid true Upgrading None 0]> (conns p)) (S (next_conn p))
      (conn_queue p) (runner p) (peers p) (readers p) (events p) (monitored p))
| net_upgrade_failed p i c e :
    conns p !! i = Some c → at_stage c = Upgrading →
    step p (update p i (λ c, close (Err e) (set_stage Over c)))
| queue_handle p i c :
    conns p !! i = Some c → at_stage c = Upgrading →
    step p (update (set_queue p (conn_queue p ++ [i])) i (set_stage InQueue))
(** [handle] returns: the callback drops the slot. *)
| slot_released p i c :
    conns p !! i = Some c → closed c ≠ None → slot c = true →
    step p (update p i drop_slot)
(** The run loop. *)
| run_next p i q :
    runner p = RunNext → conn_queue p = i :: q →
    step p (update (set_runner (set_queue p q) (RunHandshake i)) i (set_stage Handling))
| run_rejected p i c hs e pid :
    runner p = RunHandshake i → conns p !! i = Some c → admission c hs = inr (e, pid) →
    step p (report (update (set_runner p RunNext) i (λ c, close (Err e) (set_stage Over c)))
      [HandshakeFailed pid] [PoolHandshakeFailed pid])
| run_admitted p i c hs pid negotiated :
    runner p = RunHandshake i → conns p !! i = Some c → admission c hs = inl (pid, negotiated) →
    step p (set_runner p (RunCheck i pid negotiated))
| run_duplicate p i pid negotiated :
    runner p = RunCheck i pid negotiated → contains_peer p pid = true →
    step p (report (update (set_runner p RunNext) i
      (λ c, close (Err PeerAlreadyConnected) (set_stage Over c))) [] [PoolPeerAlreadyConnected pid])
| run_build p i pid negotiated :
    runner p = RunCheck i pid negotiated → contains_peer p pid = false →
    step p (set_runner p (RunBuild i pid negotiated))
| run_build_failed p i pid negotiated e :
    runner p = RunBuild i pid negotiated →
    step p (update (set_runner p RunNext) i (λ c, close (Err e) (set_stage Over c)))
| run_insert p i pid negotiated :
    runner p = RunBuild i pid negotiated → readers p = [] →
    step p (update (set_peers (set_runner p (RunAdded pid)) (<[pid := i]> (peers p))) i
      (set_stage (Running pid)))
| run_added p pid :
    runner p = RunAdded pid →
    step p (report (set_runner p RunNext) [Added pid] [PoolNewPeer pid])
(** The task of a peer and [remove_peer]. *)
| peer_ends p i c pid :
    conns p !! i = Some c → at_stage c = Running pid →
    step p (update p i (set_stage (Ended pid)))
| remove_take p i c pid v :
    conns p !! i = Some c → at_stage c = Ended pid → readers p = [] → peers p !! pid = Some v →
    step p (update (set_peers p (delete pid (peers p))) i (set_stage (Shutting pid v)))
| remove_none p i c pid :
    conns p !! i = Some c → at_stage c = Ended pid → readers p = [] → peers p !! pid = None →
    step p (update p i (set_stage Over))
| remove_shutdown p i c pid v :
    conns p !! i = Some c → at_stage c = Shutting pid v →
    step p (update (update p v (close (Ok ()))) i (set_stage (Emitting pid)))
| remove_report p i c pid :
    conns p !! i = Some c → at_stage c = Emitting pid →
    step p (report (update p i (set_stage Over)) [Removed pid] [PoolRemovePeer pid])
(** Broadcasts and single sends hold the read lock while they push. *)
| broadcast_start p targets :
    targets = broadcast_targets p ∨ (∃ ts, targets = broadcast_to_targets p ts) ∨
      (∃ pid, send_to_target p pid = Ok targets) →
    step p (set_readers p (readers p ++ [targets]))
| broadcast_push p r i rest c :
    readers p !! r = Some (i :: rest) → conns p !! i = Some c → send_len c < SEND_QUEUE_SIZE →
    step p (update (set_readers p (<[r := rest]> (readers p))) i (set_send_len (S (send_len c))))
| broadcast_end p r :
    readers p !! r = Some [] →
    step p (set_readers p (delete r (readers p)))
(** A protocol of the peer sends. *)
| protocol_send p i c :
    conns p !! i = Some c → send_len c < SEND_QUEUE_SIZE →
    step p (update p i (set_send_len (S (send_len c))))
(** The writer of a peer puts one message on the stream. *)
| writer_progress p i c n :
    conns p !! i = Some c → send_len c = S n →
    step p (update p i (set_send_len n)).

(** ** A turn of the run loop *)

(** What the run loop does with the outcome of the handshake of a connection. *)
Definition after_handshake (p : pool) (i : nat) (c : conn)
    (handshake : result p2p_error (PeerID * list ProtocolID)) : pool :=
  match admission c handshake with
  | inr (e, pid) =>
      report (update (set_runner p RunNext) i (λ c, close (Err e) (set_stage Over c)))
        [HandshakeFailed pid] [PoolHandshakeFailed pid]
  | inl (pid, negotiated) => set_runner p (RunCheck i pid negotiated)
  end.

(** The rest of a turn, to the next connection, with the events the run loop emits in
    it; the other tasks go on meanwhile. *)
Inductive turn_rest : pool → list PeerEvent → pool → Prop :=
| turn_over p :
    runner p = RunNext → turn_rest p [] p
| turn_other p p1 es p2 :
    runner p ≠ RunNext → step p p1 → runner p1 = runner p → turn_rest p1 es p2 → turn_rest p es p2
| turn_own p p1 es es' p2 :
    runner p ≠ RunNext → step p p1 → runner p1 ≠ runner p → events p1 = events p ++ es →
    turn_rest p1 es' p2 → turn_rest p (es ++ es') p2.

(** The turn of a connection, from the end of its handshake. *)
Definition run_turn (p : pool) (i : nat) (c : conn)
    (handshake : result p2p_error (PeerID * list ProtocolID)) (es : list PeerEvent) (p' : pool) : Prop :=
  ∃ es1 es2, events (after_handshake p i c handshake) = events p ++ es1 ∧
    turn_rest (after_handshake p i c handshake) es2 p' ∧ es = es1 ++ es2.

End pool.
