(* ===== verification/PoolSpec.v ===== *)
(** * Correctness of the peer pool

    Every connection is in one place at a time and is answered once, a peer id
    has one connection at most, a task removes no peer but its own, and the
    slots of the listener and the connector bound the peers.  Two races and one
    stall are shown as well. *)

From S2P Require Import Prelude Codec Endpoint Message Version Config Connection Pool.

Section spec.
Context (access_control : AccessControl) (slots : ConnDirection → nat).
Abbreviation step := (step access_control slots).

(** ** The places of the connections *)

Definition run_conn (r : run_pc) : option nat :=
  match r with
  | RunHandshake i | RunCheck i _ _ | RunBuild i _ _ => Some i
  | RunNext | RunAdded _ => None
  end.

(** A stage for every connection, the queue, the run loop and the map agree. *)
Record places (st : nat → option stage) (q : list nat) (r : run_pc) (m : gmap PeerID nat) : Prop := {
  pl_nodup : NoDup q;
  pl_queue i : i ∈ q ↔ st i = Some InQueue;
  pl_hand i : run_conn r = Some i ↔ st i = Some Handling;
  pl_peers pid i : m !! pid = Some i ↔ st i = Some (Running pid) ∨ st i = Some (Ended pid);
  pl_build i pid n : r = RunBuild i pid n → m !! pid = None;
  pl_victim i pid v : st i = Some (Shutting pid v) → v = i;
}.

Definition fset (st : nat → option stage) (i : nat) (s : stage) : nat → option stage :=
  λ j, if decide (j = i) then Some s else st j.

Definition stages (p : pool) : nat → option stage := λ i, at_stage <$> conns p !! i.

Definition peerlike (s : stage) : bool :=
  match s with Running _ | Ended _ => true | _ => false end.

(** A connection outside the queue, the run loop and the map moves on. *)
Lemma places_move st q r m i s0 s :
  st i = Some s0 → s0 ≠ InQueue → s0 ≠ Handling → peerlike s0 = false →
  s ≠ InQueue → s ≠ Handling → peerlike s = false → (∀ pid v, s = Shutting pid v → v = i) →
  places st q r m → places (fset st i s) q r m.
Proof.
  intros Hi Hq0 Hh0 Hp0 Hq Hh Hp Hv [Hnd Hqu Hha Hpe Hb Hvi].
  split; try done; unfold fset; intros *; case_decide; subst; rewrite ?Hqu, ?Hha, ?Hpe; try done.
  - rewrite Hi. split; congruence.
  - rewrite Hi. split; congruence.
  - rewrite Hi. split; intros [[= ->]|[= ->]]; done.
  - intros [= ->]. by eapply Hv.
  - apply Hvi.
Qed.

Lemma places_ext st st' q r m : (∀ i, st i = st' i) → places st q r m → places st' q r m.
Proof.
  intros Hst [Hnd Hqu Hha Hpe Hb Hvi]. split; try done; intros *; rewrite <-?Hst; auto.
  apply Hvi.
Qed.

Lemma places_fresh st q r m i : st i = None → places st q r m → places (fset st i Upgrading) q r m.
Proof.
  intros Hi [Hnd Hqu Hha Hpe Hb Hvi].
  split; try done; unfold fset; intros *; case_decide; subst; rewrite ?Hqu, ?Hha, ?Hpe; try done.
  - rewrite Hi. split; done.
  - rewrite Hi. split; done.
  - rewrite Hi. split; intros [?|?]; done.
  - apply Hvi.
Qed.

Lemma places_enqueue st q r m i :
  st i = Some Upgrading → places st q r m → places (fset st i InQueue) (q ++ [i]) r m.
Proof.
  intros Hi [Hnd Hqu Hha Hpe Hb Hvi]. split; try done.
  - apply NoDup_app. split_and!; [done| |apply NoDup_singleton]. intros j Hj%Hqu ->%list_elem_of_singleton.
    congruence.
  - intros j. unfold fset. rewrite elem_of_app, list_elem_of_singleton, Hqu. case_decide; subst; [tauto|].
    split; [intros [?|?]|]; auto; congruence.
  - intros j. unfold fset. case_decide; subst; [|apply Hha]. rewrite Hha, Hi. split; congruence.
  - intros pid j. unfold fset. case_decide; subst; [|apply Hpe]. rewrite Hpe, Hi. split; intros [?|?]; congruence.
  - intros j pid v. unfold fset. case_decide; subst; [congruence|apply Hvi].
Qed.

Lemma places_dequeue st q r m i :
  run_conn r = None → places st (i :: q) r m → places (fset st i Handling) q (RunHandshake i) m.
Proof.
  intros Hr [Hnd Hqu Hha Hpe Hb Hvi]. apply NoDup_cons in Hnd as [Hni Hnd].
  assert (st i = Some InQueue) as Hi by (apply Hqu; by left). split; try done.
  - intros j. unfold fset. case_decide; subst.
    + split; [done|]. congruence.
    + rewrite <-Hqu, elem_of_cons. split; [by right|]. by intros [?|?].
  - intros j. unfold fset. cbn. case_decide; subst; [done|]. rewrite <-Hha, Hr. split; congruence.
  - intros pid j. unfold fset. case_decide; subst; [|apply Hpe]. rewrite Hpe, Hi. split; intros [?|?]; congruence.
  - intros j pid v. unfold fset. case_decide; subst; [congruence|apply Hvi].
Qed.

(** The run loop is done with its connection, which does not become a peer. *)
Lemma places_reject st q r m i :
  run_conn r = Some i → places st q r m → places (fset st i Over) q RunNext m.
Proof.
  intros Hr [Hnd Hqu Hha Hpe Hb Hvi]. pose proof (proj1 (Hha i) Hr) as Hi. split; try done.
  - intros j. unfold fset. case_decide; subst; [|apply Hqu]. rewrite Hqu, Hi. split; congruence.
  - intros j. unfold fset. cbn. case_decide; subst; [done|]. rewrite <-Hha, Hr. split; congruence.
  - intros pid j. unfold fset. case_decide; subst; [|apply Hpe]. rewrite Hpe, Hi. split; intros [?|?]; congruence.
  - intros j pid v. unfold fset. case_decide; subst; [congruence|apply Hvi].
Qed.

Lemma places_insert st q m i pid n :
  places st q (RunBuild i pid n) m → places (fset st i (Running pid)) q (RunAdded pid) (<[pid := i]> m).
Proof.
  intros [Hnd Hqu Hha Hpe Hb Hvi]. pose proof (proj1 (Hha i) eq_refl) as Hi.
  pose proof (Hb _ _ _ eq_refl) as Hpid. split; try done.
  - intros j. unfold fset. case_decide; subst; [|apply Hqu]. rewrite Hqu, Hi. split; congruence.
  - intros j. unfold fset. cbn. case_decide; subst; [done|]. rewrite <-Hha. cbn. split; congruence.
  - intros pid' j. unfold fset. destruct (decide (pid = pid')) as [->|].
    + rewrite lookup_insert_eq. case_decide; subst; [split; auto|]. split; [congruence|].
      rewrite <-Hpe, Hpid. done.
    + rewrite lookup_insert_ne by done. case_decide; subst; [|apply Hpe]. rewrite Hpe, Hi.
      split; intros [?|?]; congruence.
  - intros j pid' v. unfold fset. case_decide; subst; [congruence|apply Hvi].
Qed.

Lemma places_end st q r m i pid :
  st i = Some (Running pid) → places st q r m → places (fset st i (Ended pid)) q r m.
Proof.
  intros Hi [Hnd Hqu Hha Hpe Hb Hvi]. split; try done.
  - intros j. unfold fset. case_decide; subst; [|apply Hqu]. rewrite Hqu, Hi. split; congruence.
  - intros j. unfold fset. case_decide; subst; [|apply Hha]. rewrite Hha, Hi. split; congruence.
  - intros pid' j. unfold fset. case_decide; subst; [|apply Hpe]. rewrite Hpe, Hi.
    split; intros [?|?]; simplify_eq; auto.
  - intros j pid' v. unfold fset. case_decide; subst; [congruence|apply Hvi].
Qed.

Lemma places_take st q r m i pid :
  st i = Some (Ended pid) → places st q r m →
  m !! pid = Some i ∧ places (fset st i (Shutting pid i)) q r (delete pid m).
Proof.
  intros Hi [Hnd Hqu Hha Hpe Hb Hvi].
  assert (m !! pid = Some i) as Hm by (apply Hpe; by right). split; [done|]. split; try done.
  - intros j. unfold fset. case_decide; subst; [|apply Hqu]. rewrite Hqu, Hi. split; congruence.
  - intros j. unfold fset. case_decide; subst; [|apply Hha]. rewrite Hha, Hi. split; congruence.
  - intros pid' j. unfold fset. destruct (decide (pid = pid')) as [<-|].
    + rewrite lookup_delete_eq. case_decide; subst; [split; [done|]; intros [?|?]; done|].
      rewrite <-Hpe, Hm. split; congruence.
    + rewrite lookup_delete_ne by done. case_decide; subst; [|apply Hpe]. rewrite Hpe, Hi.
      split; intros [?|?]; congruence.
  - intros j pid' n ->. destruct (decide (pid = pid')) as [->|]; [apply lookup_delete_eq|].
    rewrite lookup_delete_ne by done. by eapply Hb.
  - intros j pid' v. unfold fset. case_decide; subst; [congruence|apply Hvi].
Qed.

(** The run loop goes on with the same connection. *)
Lemma places_run st q r r' m :
  run_conn r = run_conn r' → (∀ i pid n, r' = RunBuild i pid n → m !! pid = None) →
  places st q r m → places st q r' m.
Proof. intros Hr Hb' [Hnd Hqu Hha Hpe Hb Hvi]. split; try done. intros i. by rewrite <-Hr. Qed.

(** ** The invariant *)

Definition is_open (s : stage) : bool :=
  match s with Emitting _ | Over => false | _ => true end.

(** A connection is answered when it is over, and holds its slot until then. *)
Definition conn_ok (c : conn) : Prop :=
  (closed c = None ↔ is_open (at_stage c) = true) ∧ (closed c = None → slot c = true).

Record pool_inv (p : pool) : Prop := {
  pi_places : places (stages p) (conn_queue p) (runner p) (peers p);
  pi_conn i c : conns p !! i = Some c → conn_ok c ∧ i < next_conn p;
  pi_held d : held d p ≤ slots d;
}.

Lemma stages_update p i f c s j :
  conns p !! i = Some c → at_stage (f c) = s → fset (stages p) i s j = stages (update p i f) j.
Proof.
  intros Hi <-. unfold stages, fset, update. cbn. case_decide as Hj; subst.
  - by rewrite lookup_alter_eq, Hi.
  - by rewrite lookup_alter_ne.
Qed.

Lemma stages_same p i f j :
  (∀ c, at_stage (f c) = at_stage c) → stages p j = stages (update p i f) j.
Proof.
  intros Hf. unfold stages, update. cbn. destruct (decide (i = j)) as [->|].
  - rewrite lookup_alter_eq. destruct (conns p !! j); cbn; [by rewrite Hf|done].
  - by rewrite lookup_alter_ne.
Qed.

Lemma conns_update (P : nat → conn → Prop) p i f :
  (∀ j c, conns p !! j = Some c → P j c) → (∀ c, conns p !! i = Some c → P i (f c)) →
  ∀ j c, conns (update p i f) !! j = Some c → P j c.
Proof.
  intros HP Hf j c. cbn. destruct (decide (i = j)) as [->|].
  - rewrite lookup_alter_eq. intros (c' & Hc' & ->)%fmap_Some. by apply Hf.
  - rewrite lookup_alter_ne by done. apply HP.
Qed.

Lemma held_dom d p :
  held d p = size (dom (filter (λ kv, direction kv.2 = d ∧ slot kv.2 = true) (conns p))).
Proof. unfold held. by rewrite size_dom. Qed.

(** Taking no slot: a change that keeps the direction and at most drops the
    slot. *)
Lemma held_update d p i f :
  (∀ c, direction (f c) = direction c ∧ (slot (f c) = true → slot c = true)) →
  held d (update p i f) ≤ held d p.
Proof.
  intros Hf. rewrite !held_dom. apply subseteq_size. intros j. rewrite !elem_of_dom. cbn.
  intros [c [Hc [Hd Hs]]%map_lookup_filter_Some]. cbn in *. destruct (decide (i = j)) as [->|].
  - rewrite lookup_alter_eq in Hc. apply fmap_Some in Hc as (c' & Hc' & ->).
    destruct (Hf c') as [Hd' Hs']. exists c'. apply map_lookup_filter_Some. cbn. split; [done|].
    split; [congruence|auto].
  - rewrite lookup_alter_ne in Hc by done. exists c. by apply map_lookup_filter_Some.
Qed.

(** A change of one connection, in a state that agrees on its places. *)
Lemma inv_update p p' i f :
  pool_inv p → conns p' = alter f i (conns p) → next_conn p' = next_conn p →
  places (stages p') (conn_queue p') (runner p') (peers p') →
  (∀ c, direction (f c) = direction c ∧ (slot (f c) = true → slot c = true)) →
  (∀ c, conns p !! i = Some c → conn_ok c → conn_ok (f c)) →
  pool_inv p'.
Proof.
  intros [Hpl Hc Hh] Hconns Hnext Hpl' Hf Hok. split; [done| |].
  - rewrite Hconns, Hnext. apply (conns_update (λ i c, conn_ok c ∧ i < next_conn p) p i f); [done|].
    intros c Hi. destruct (Hc i c Hi). auto.
  - intros d. etrans; [|apply (Hh d)]. unfold held. rewrite Hconns.
    change (held d (update p i f) ≤ held d p). by apply held_update.
Qed.

(** A change that leaves the connections alone. *)
Lemma pool_inv_same p p' :
  pool_inv p → conns p' = conns p → next_conn p' = next_conn p →
  places (stages p') (conn_queue p') (runner p') (peers p') → pool_inv p'.
Proof.
  intros [Hpl Hc Hh] Hconns Hnext Hpl'. split; [done|by rewrite Hconns, Hnext|].
  intros d. unfold held. rewrite Hconns. apply Hh.
Qed.

Lemma conn_ok_over e c : conn_ok c → conn_ok (close (Err e) (set_stage Over c)).
Proof. intros [? ?]. by split. Qed.

Lemma conn_ok_stage c s :
  is_open (at_stage c) = true → is_open s = true → conn_ok c → conn_ok (set_stage s c).
Proof. intros Ho Hs [Hcl Hsl]. split; [|done]. cbn. by rewrite Hs, Hcl. Qed.

Lemma inv_connection p d e vpid :
  held d p < slots d → pool_inv p →
  pool_inv (mkPool (<[next_conn p := mkConn d e vpid true Upgrading None 0]> (conns p)) (S (next_conn p))
    (conn_queue p) (runner p) (peers p) (readers p) (events p) (monitored p)).
Proof.
  intros Hfree [Hpl Hc Hh].
  assert (conns p !! next_conn p = None) as Hn.
  { destruct (conns p !! next_conn p) as [c|] eqn:Hi; [|done]. destruct (Hc _ c Hi). lia. }
  split; cbn.
  - eapply places_ext; [|apply (places_fresh (stages p) _ _ _ (next_conn p)); [by unfold stages; rewrite Hn|done]].
    intros j. unfold fset, stages. cbn. case_decide; subst; [by rewrite lookup_insert_eq|by rewrite lookup_insert_ne].
  - intros i c. destruct (decide (next_conn p = i)) as [<-|].
    + rewrite lookup_insert_eq. intros [= <-]. split; [by split|lia].
    + rewrite lookup_insert_ne by done. intros [? ?]%Hc. split; [done|lia].
  - intros d'. unfold held. cbn. destruct (decide (d = d')) as [<-|Hd].
    + rewrite map_filter_insert_True by done.
      rewrite map_size_insert_None by (apply map_lookup_filter_None; by left). exact Hfree.
    + rewrite map_filter_insert_False by (cbn; tauto). rewrite delete_id by done. apply Hh.
Qed.

Lemma stage_of p i c : conns p !! i = Some c → stages p i = Some (at_stage c).
Proof. intros Hi. unfold stages. by rewrite Hi. Qed.

(** The connection in the hands of the run loop. *)
Lemma run_handling p i :
  pool_inv p → run_conn (runner p) = Some i → ∃ c, conns p !! i = Some c ∧ at_stage c = Handling.
Proof.
  intros [Hpl _ _] Hr. apply (pl_hand _ _ _ _ Hpl) in Hr. unfold stages in Hr.
  apply fmap_Some in Hr as (c & ? & ?). eauto.
Qed.

(** The run loop answers its connection with an error. *)
Lemma inv_reject p p' i e :
  pool_inv p → run_conn (runner p) = Some i →
  conns p' = alter (λ c, close (Err e) (set_stage Over c)) i (conns p) → next_conn p' = next_conn p →
  conn_queue p' = conn_queue p → runner p' = RunNext → peers p' = peers p → pool_inv p'.
Proof.
  intros Hinv Hr Hconns Hnext Hq Hrun Hpeers. destruct (run_handling p i Hinv Hr) as (c & Hi & Hst).
  eapply inv_update; [done..| |done|].
  - rewrite Hq, Hrun, Hpeers. eapply places_ext; [|eapply (places_reject (stages p)); [done|apply Hinv]].
    intros j. rewrite (stages_update p i (λ c, close (Err e) (set_stage Over c)) c); [|done..].
    unfold stages. by rewrite Hconns.
  - intros c' _. apply conn_ok_over.
Qed.

Lemma alter_twice (f g : conn → conn) i (m : gmap nat conn) :
  alter f i (alter g i m) = alter (λ c, f (g c)) i m.
Proof.
  apply map_eq. intros j. destruct (decide (i = j)) as [->|]; [|by rewrite !lookup_alter_ne].
  rewrite !lookup_alter_eq. by destruct (m !! j).
Qed.

(** One connection changes its stage. *)
Lemma inv_stage p p' i c f s :
  pool_inv p → conns p !! i = Some c → conns p' = alter f i (conns p) → next_conn p' = next_conn p →
  at_stage (f c) = s → places (fset (stages p) i s) (conn_queue p') (runner p') (peers p') →
  (∀ c, direction (f c) = direction c ∧ (slot (f c) = true → slot c = true)) →
  (conn_ok c → conn_ok (f c)) → pool_inv p'.
Proof.
  intros Hinv Hi Hconns Hnext Hs Hpl Hf Hok. eapply inv_update; [done..| |done|].
  - eapply places_ext; [|exact Hpl]. intros j. rewrite (stages_update p i f c) by done.
    unfold stages. by rewrite Hconns.
  - intros c' Hc'. by simplify_eq.
Qed.

(** One connection changes, but not its stage. *)
Lemma inv_field p p' i f :
  pool_inv p → conns p' = alter f i (conns p) → next_conn p' = next_conn p →
  conn_queue p' = conn_queue p → runner p' = runner p → peers p' = peers p →
  (∀ c, at_stage (f c) = at_stage c) →
  (∀ c, direction (f c) = direction c ∧ (slot (f c) = true → slot c = true)) →
  (∀ c, conns p !! i = Some c → conn_ok c → conn_ok (f c)) → pool_inv p'.
Proof.
  intros Hinv Hconns Hnext Hq Hr Hp Hst Hf Hok. eapply inv_update; [done..| |done|done].
  rewrite Hq, Hr, Hp. eapply places_ext; [|apply Hinv]. intros j.
  rewrite (stages_same p i f) by done. unfold stages. by rewrite Hconns.
Qed.

(** A connection outside the queue, the run loop and the map moves on. *)
Lemma inv_outside p p' i c f s :
  pool_inv p → conns p !! i = Some c → conns p' = alter f i (conns p) → next_conn p' = next_conn p →
  conn_queue p' = conn_queue p → runner p' = runner p → peers p' = peers p →
  (at_stage c = Upgrading ∧ s = Over ∨ (∃ pid, at_stage c = Shutting pid i ∧ s = Emitting pid) ∨
   (∃ pid, at_stage c = Emitting pid ∧ s = Over)) →
  at_stage (f c) = s →
  (∀ c, direction (f c) = direction c ∧ (slot (f c) = true → slot c = true)) →
  (conn_ok c → conn_ok (f c)) → pool_inv p'.
Proof.
  intros Hinv Hi Hconns Hnext Hq Hr Hp Hs Hfs Hf Hok. eapply inv_stage; [done..| |done|done].
  rewrite Hq, Hr, Hp.
  destruct Hs as [[Hc ->]|[(pid & Hc & ->)|(pid & Hc & ->)]];
    (eapply places_move; [by rewrite (stage_of _ _ _ Hi), Hc|done..|apply Hinv]).
Qed.

Lemma conn_ok_moves c s s0 :
  at_stage c = s0 → is_open s0 = true → is_open s = true → conn_ok c → conn_ok (set_stage s c).
Proof. intros <- ??. by apply conn_ok_stage. Qed.

Lemma run_step_inv p p' r :
  pool_inv p → p' = set_runner p r → run_conn (runner p) = run_conn r →
  (∀ i pid n, r = RunBuild i pid n → peers p !! pid = None) → pool_inv p'.
Proof.
  intros Hinv -> Hr Hb. eapply (pool_inv_same p); [done..|].
  apply (places_run (stages p) _ (runner p)); [done|done|apply Hinv].
Qed.

Lemma pool_step_inv p p' : step p p' → pool_inv p → pool_inv p'.
Proof.
  intros Hstep Hinv. pose proof (pi_places p Hinv) as Hpl.
  destruct Hstep as [p d e vpid Hfree|p i c e Hi Hst|p i c Hi Hst|p i c Hi Hcl Hsl|p i q Hr Hq|p i c hs e pid Hr Hi Ha
    |p i c hs pid n Hr Hi Ha|p i pid n Hr Hc|p i pid n Hr Hc|p i pid n e Hr|p i pid n Hr Hrd|p pid Hr
    |p i c pid Hi Hst|p i c pid v Hi Hst Hrd Hv|p i c pid Hi Hst Hrd Hv|p i c pid v Hi Hst|p i c pid Hi Hst
    |p ts Hts|p r i rest c Hr Hi Hl|p r Hr|p i c Hi Hl|p i c n Hi Hl].
  - by apply inv_connection.
  - eapply (inv_outside p _ i c); [done|done|reflexivity|done..|by left|done|done|apply conn_ok_over].
  - eapply (inv_stage p _ i c); [done|done|reflexivity|done|done| |done|by eapply conn_ok_moves].
    cbn. apply places_enqueue; [|done]. by rewrite (stage_of _ _ _ Hi), Hst.
  - eapply (inv_field p _ i); [done|reflexivity|done..|]. intros c' Hc' [? ?]. simplify_eq. by split.
  - assert (stages p i = Some InQueue) as Hs by (apply (pl_queue _ _ _ _ Hpl); rewrite Hq; by left).
    unfold stages in Hs. apply fmap_Some in Hs as (c & Hi & Hst).
    eapply (inv_stage p _ i c); [done|done|reflexivity|done|done| |done|by eapply conn_ok_moves].
    cbn. eapply places_dequeue; [|rewrite <-Hq; exact Hpl]. by rewrite Hr.
  - by eapply (inv_reject p _ i e); [|rewrite Hr|..].
  - by eapply (run_step_inv p); [|reflexivity|rewrite Hr|].
  - by eapply (inv_reject p _ i); [|rewrite Hr|..].
  - eapply (run_step_inv p); [done|reflexivity|by rewrite Hr|]. intros i' pid' n' [= <- <- <-].
    apply bool_decide_eq_false in Hc. by apply eq_None_not_Some.
  - by eapply (inv_reject p _ i e); [|rewrite Hr|..].
  - destruct (run_handling p i Hinv) as (c & Hi & Hst); [by rewrite Hr|].
    eapply (inv_stage p _ i c); [done|done|reflexivity|done|done| |done|by eapply conn_ok_moves].
    cbn. eapply places_insert. by rewrite <-Hr.
  - eapply (pool_inv_same p); [done..|]. apply (places_run (stages p) _ (runner p)); [by rewrite Hr|done|done].
  - eapply (inv_stage p _ i c); [done|done|reflexivity|done|done| |done|by eapply conn_ok_moves].
    apply places_end; [|done]. by rewrite (stage_of _ _ _ Hi), Hst.
  - destruct (places_take (stages p) (conn_queue p) (runner p) (peers p) i pid) as [Hm Hpl'];
      [by rewrite (stage_of _ _ _ Hi), Hst|done|]. assert (v = i) as -> by congruence.
    by eapply (inv_stage p _ i c); [|..|reflexivity| | |exact Hpl'| |eapply conn_ok_moves].
  - destruct (places_take (stages p) (conn_queue p) (runner p) (peers p) i pid) as [Hm _];
      [by rewrite (stage_of _ _ _ Hi), Hst|done|]. congruence.
  - assert (v = i) as -> by (eapply (pl_victim _ _ _ _ Hpl); by rewrite (stage_of _ _ _ Hi), Hst).
    eapply (inv_outside p _ i c (λ c, set_stage (Emitting pid) (close (Ok ()) c)));
      [done|done|apply alter_twice|done..|by eauto|done|done|]. intros [? ?]. by split.
  - eapply (inv_outside p _ i c); [done|done|reflexivity|done..|by eauto|done|done|].
    intros [Hcl Hsl]. rewrite Hst in Hcl. by split.
  - by eapply (pool_inv_same p).
  - eapply (inv_field p _ i); [done|reflexivity|done..|]. intros c' _ [? ?]. by split.
  - by eapply (pool_inv_same p).
  - eapply (inv_field p _ i); [done|reflexivity|done..|]. intros c' _ [? ?]. by split.
  - eapply (inv_field p _ i); [done|reflexivity|done..|]. intros c' _ [? ?]. by split.
Qed.

Lemma pool_reachable_inv p : rtc step pool_new p → pool_inv p.
Proof.
  intros Hrtc. assert (pool_inv pool_new) as Hnew.
  { split; [|done|].
    - split; unfold stages; cbn; intros *; rewrite ?lookup_empty; try done; [apply NoDup_nil_2|..].
      + split; [by intros ?%not_elem_of_nil|done].
      + split; [done|]. by intros [?|?].
    - intros d. unfold held. cbn. rewrite map_filter_empty, map_size_empty. lia. }
  revert Hnew. induction Hrtc; eauto using pool_step_inv.
Qed.

(** ** The connections of a pool *)

Lemma peer_conn p pid i :
  pool_inv p → peers p !! pid = Some i →
  ∃ c, conns p !! i = Some c ∧ (at_stage c = Running pid ∨ at_stage c = Ended pid) ∧
    closed c = None ∧ slot c = true.
Proof.
  intros Hinv Hpid. apply (pl_peers _ _ _ _ (pi_places p Hinv)) in Hpid. unfold stages in Hpid.
  assert (∃ c, conns p !! i = Some c ∧ (at_stage c = Running pid ∨ at_stage c = Ended pid)) as (c & Hi & Hst).
  { destruct Hpid as [(c & ? & ?)%fmap_Some|(c & ? & ?)%fmap_Some]; eauto. }
  destruct (pi_conn p Hinv i c Hi) as [[Hcl Hsl] _]. exists c.
  assert (closed c = None) by (apply Hcl; by destruct Hst as [-> | ->]). auto.
Qed.

(** Peers hold slots, so there are no more of them than slots. *)
Lemma peers_of_held d p : pool_inv p → size (peers_of d p) ≤ held d p.
Proof.
  intros Hinv. rewrite held_dom. set (h := filter _ (conns p)).
  rewrite <-(length_map_to_list (peers_of d p)), <-(length_fmap snd).
  change (size (dom h)) with (length (elements (dom h))).
  apply submseteq_length, NoDup_submseteq.
  - apply NoDup_fmap_2_strong; [|apply NoDup_map_to_list]. intros [pid i] [pid' i'] Hin Hin' Heq.
    cbn in Heq. subst i'. apply elem_of_map_to_list, map_lookup_filter_Some in Hin as [Hin _].
    apply elem_of_map_to_list, map_lookup_filter_Some in Hin' as [Hin' _].
    destruct (peer_conn p pid i Hinv Hin) as (c & Hi & Hst & _).
    destruct (peer_conn p pid' i Hinv Hin') as (c' & Hi' & Hst' & _). simplify_eq.
    destruct Hst as [Hst|Hst], Hst' as [Hst'|Hst']; congruence.
  - intros i ([pid i'] & -> & Hin)%list_elem_of_fmap. apply elem_of_map_to_list in Hin.
    apply map_lookup_filter_Some in Hin as [Hin Hd]. cbn in *.
    destruct (peer_conn p pid i' Hinv Hin) as (c & Hi & _ & _ & Hsl).
    apply elem_of_elements, elem_of_dom. exists c. apply map_lookup_filter_Some. cbn.
    rewrite Hi in Hd. cbn in Hd. split; [done|]. split; [congruence|done].
Qed.

(** C6: The connections of a node.  Whatever the interleaving of the listener,
    the connector, the run loop, the peers and broadcasts: the slots of a
    direction bound the connections and the peers in that direction; a peer id
    in the map has exactly one connection, which holds its slot and has not been
    answered; a task that removes a stopped peer removes its own; and every
    connection that has not been answered is being set up, queued, in the hands
    of the run loop, a peer, or being shut down: none is lost. *)
Theorem pool_connections p :
  rtc step pool_new p →
  (∀ d, held d p ≤ slots d ∧ size (peers_of d p) ≤ slots d) ∧
  (∀ pid i, peers p !! pid = Some i → ∃ c, conns p !! i = Some c ∧
    (at_stage c = Running pid ∨ at_stage c = Ended pid) ∧ closed c = None ∧ slot c = true) ∧
  (∀ i c pid v, conns p !! i = Some c → at_stage c = Shutting pid v → v = i) ∧
  (∀ i c, conns p !! i = Some c → closed c = None →
    at_stage c = Upgrading ∨ i ∈ conn_queue p ∨ run_conn (runner p) = Some i ∨
    (∃ pid, peers p !! pid = Some i) ∨ (∃ pid, at_stage c = Shutting pid i)).
Proof.
  intros Hinv%pool_reachable_inv. pose proof (pi_places p Hinv) as Hpl. split_and!.
  - intros d. split; [apply (pi_held p Hinv)|]. etrans; [by apply peers_of_held|apply (pi_held p Hinv)].
  - intros pid i. by apply peer_conn.
  - intros i c pid v Hi Hst. eapply (pl_victim _ _ _ _ Hpl). by rewrite (stage_of _ _ _ Hi), Hst.
  - intros i c Hi Hcl. destruct (pi_conn p Hinv i c Hi) as [[Ho _] _]. apply Ho in Hcl.
    pose proof (stage_of _ _ _ Hi) as Hs. destruct (at_stage c) as [| | |pid|pid|pid v|pid|] eqn:Hst; try done.
    + by left.
    + right; left. by apply (pl_queue _ _ _ _ Hpl).
    + do 2 right; left. by apply (pl_hand _ _ _ _ Hpl).
    + do 3 right; left. exists pid. apply (pl_peers _ _ _ _ Hpl). by left.
    + do 3 right; left. exists pid. apply (pl_peers _ _ _ _ Hpl). by right.
    + do 4 right. exists pid. by rewrite (pl_victim _ _ _ _ Hpl _ _ _ Hs).
Qed.

(** ** A first peer *)

Section first.
Context (e : Endpoint) (pid : PeerID) (negotiated : list ProtocolID).
Hypothesis allowed :
  access_control (SubjectPeer (mkCandidate pid e negotiated)) (ActConnect Inbound) = true.
Hypothesis room : 0 < slots Inbound.

(** The first connection of a pool, at a stage and with some messages in its
    send queue. *)
Definition first_conn (s : stage) (n : nat) : conn := mkConn Inbound e None true s None n.

Definition one (s : stage) (n : nat) (r : run_pc) (m : gmap PeerID nat) (rs : list (list nat)) : pool :=
  mkPool {[0 := first_conn s n]} 1 [] r m rs [] [].

Lemma first_added : rtc step pool_new (one (Running pid) 0 (RunAdded pid) {[pid := 0]} []).
Proof using allowed room.
  eapply rtc_l; [by apply (net_connection _ _ _ Inbound e None)|].
  eapply rtc_l; [by eapply (queue_handle _ _ _ 0)|]. eapply rtc_l; [by eapply (run_next _ _ _ 0 [])|].
  eapply rtc_l.
  { eapply (run_admitted _ _ _ 0 (first_conn Handling 0) (Ok (pid, negotiated))); [done|done|].
    unfold admission. cbn. by rewrite allowed. }
  eapply rtc_l; [by eapply (run_build _ _ _ 0)|]. eapply rtc_l; [by eapply (run_insert _ _ _ 0)|].
  apply rtc_refl.
Qed.

(** Listeners can see a peer leave before it arrives.  The run loop reports
    a new peer after it has started the peer's task; when the peer stops at
    once, its removal is reported first.  The last event about the peer is then
    that it was added, although it is no longer in the pool. *)
Theorem pool_added_after_removed :
  ∃ p, rtc step pool_new p ∧ events p = [Removed pid; Added pid] ∧ peers p = ∅.
Proof using allowed room.
  eexists. split_and!.
  - etrans; [exact first_added|].
    eapply rtc_l; [by eapply (peer_ends _ _ _ 0 (first_conn (Running pid) 0))|].
    eapply rtc_l; [eapply (remove_take _ _ _ 0 (first_conn (Ended pid) 0) pid 0); [done|done|done|]|].
    { apply lookup_singleton_eq. }
    eapply rtc_l; [by eapply (remove_shutdown _ _ _ 0 (first_conn (Shutting pid 0) 0))|].
    eapply rtc_l; [by eapply (remove_report _ _ _ 0)|].
    eapply rtc_l; [by eapply (run_added _ _ _ pid)|]. apply rtc_refl.
  - done.
  - cbn. apply delete_singleton_eq.
Qed.

(** *** A broadcast that waits for one peer *)

(** The writer of connection [i] makes no progress. *)
Definition stalled (i : nat) (p p' : pool) : Prop :=
  step p p' ∧ ∀ c c', conns p !! i = Some c → conns p' !! i = Some c' → send_len c ≤ send_len c'.

(** A broadcast waits for room in the queue of [i]. *)
Definition waiting (i : nat) (p : pool) : Prop :=
  (∃ rest, (i :: rest) ∈ readers p) ∧ ∃ c, conns p !! i = Some c ∧ SEND_QUEUE_SIZE ≤ send_len c.

Lemma waiting_conn i p j f :
  (∀ c, send_len c ≤ send_len (f c)) → waiting i p →
  ∃ c, alter f j (conns p) !! i = Some c ∧ SEND_QUEUE_SIZE ≤ send_len c.
Proof.
  intros Hf (_ & c & Hi & Hl). destruct (decide (j = i)) as [->|].
  - rewrite lookup_alter_eq, Hi. exists (f c). split; [done|]. etrans; [done|apply Hf].
  - rewrite lookup_alter_ne by done. eauto.
Qed.

Lemma waiting_readers i p : waiting i p → readers p ≠ [].
Proof. intros [(rest & Hin) _] Hr. rewrite Hr in Hin. by apply not_elem_of_nil in Hin. Qed.

Lemma elem_delete_ne {A} (l : list A) k x y : x ∈ l → l !! k = Some y → x ≠ y → x ∈ delete k l.
Proof.
  intros (n & Hn)%list_elem_of_lookup_1 Hk Hne.
  assert (n ≠ k) by congruence. destruct (decide (n < k)).
  - apply (list_elem_of_lookup_2 _ n). by rewrite list_lookup_delete_lt.
  - apply (list_elem_of_lookup_2 _ (n - 1)). rewrite list_lookup_delete_ge by lia.
    by replace (S (n - 1)) with n by lia.
Qed.

Lemma elem_insert_other {A} (l : list A) k x y z :
  x ∈ l → l !! k = Some y → x ≠ y → x ∈ <[k := z]> l.
Proof.
  intros (n & Hn)%list_elem_of_lookup_1 Hk Hne. apply (list_elem_of_lookup_2 _ n).
  rewrite list_lookup_insert_ne; [done|]. congruence.
Qed.

(** The queue of [i] stays full whatever is done to one connection, unless its
    length is set to less. *)
Lemma waiting_one i (m : gmap nat conn) j f c :
  m !! i = Some c → SEND_QUEUE_SIZE ≤ send_len c → (j = i → SEND_QUEUE_SIZE ≤ send_len (f c)) →
  ∃ c', alter f j m !! i = Some c' ∧ SEND_QUEUE_SIZE ≤ send_len c'.
Proof.
  intros Hi Hl Hf. destruct (decide (j = i)) as [->|].
  - rewrite lookup_alter_eq, Hi. exists (f c). auto.
  - rewrite lookup_alter_ne by done. eauto.
Qed.

Lemma waiting_step i p p' : stalled i p p' → waiting i p → waiting i p' ∧ peers p' = peers p.
Proof.
  intros [Hstep Hprog] Hw. pose proof Hw as [(rest & Hin) (c & Hi & Hl)].
  pose proof (waiting_readers i p Hw) as Hrd.
  destruct Hstep as [p d e0 vpid Hfree|p j c0 e0 Hj Hst|p j c0 Hj Hst|p j c0 Hj Hcl Hsl|p j q Hr Hq|p j c0 hs e0 pid0 Hr Hj Ha
    |p j c0 hs pid0 n Hr Hj Ha|p j pid0 n Hr Hc|p j pid0 n Hr Hc|p j pid0 n e0 Hr|p j pid0 n Hr Hrd'|p pid0 Hr
    |p j c0 pid0 Hj Hst|p j c0 pid0 v Hj Hst Hrd' Hv|p j c0 pid0 Hj Hst Hrd' Hv|p j c0 pid0 v Hj Hst|p j c0 pid0 Hj Hst
    |p ts Hts|p r j rest0 c0 Hr Hj Hl0|p r Hr|p j c0 Hj Hl0|p j c0 n Hj Hl0]; try done;
    (split; [|done]); (split; [cbn; try (by eauto)|cbn; try (by eauto); try (by eapply waiting_one)]).
  - destruct (decide (next_conn p = i)) as [<-|]; [|rewrite lookup_insert_ne by done; by eauto].
    specialize (Hprog c _ Hi (lookup_insert_eq _ _ _)). cbn in Hprog. unfold SEND_QUEUE_SIZE in *. lia.
  - destruct (waiting_one i (conns p) v (close (Ok ())) c) as (c1 & Hi1 & Hl1); [done..|].
    by eapply waiting_one.
  - exists rest. apply elem_of_app. by left.
  - exists rest. eapply elem_insert_other; [done|done|]. intros [= -> ->]. simplify_eq. lia.
  - eapply waiting_one; [done..|]. intros ->. simplify_eq. lia.
  - exists rest. by eapply elem_delete_ne.
  - eapply waiting_one; [done..|]. intros ->. simplify_eq. lia.
  - eapply waiting_one; [done..|]. intros ->. exfalso. assert (c0 = c) as -> by congruence.
    specialize (Hprog c (set_send_len n c) Hi). cbn in Hprog. rewrite lookup_alter_eq, Hi in Hprog.
    specialize (Hprog eq_refl). lia.
Qed.

Lemma first_ends n r m rs : step (one (Running pid) n r m rs) (one (Ended pid) n r m rs).
Proof.
  pose proof (peer_ends access_control slots (one (Running pid) n r m rs) 0 (first_conn (Running pid) n) pid)
    as Hend. unfold update in Hend. cbn in Hend. rewrite alter_singleton_eq in Hend. by apply Hend.
Qed.

Lemma fill_queue n r m rs :
  n ≤ SEND_QUEUE_SIZE → rtc step (one (Running pid) 0 r m rs) (one (Running pid) n r m rs).
Proof.
  induction n as [|n IH]; intros Hn; [done|]. etrans; [apply IH; lia|]. apply rtc_once.
  pose proof (protocol_send access_control slots (one (Running pid) n r m rs) 0 (first_conn (Running pid) n))
    as Hsend. unfold update in Hsend. cbn in Hsend. rewrite alter_singleton_eq in Hsend. apply Hsend; [done|lia].
Qed.

(** One peer can freeze the pool.  A broadcast, or a send to one peer, holds
    the lock of the peer map while it waits for room in the send queue of a
    peer.  When that peer does not read, no peer is added or removed any more,
    not even that peer itself after it has stopped: as long as its stream takes
    nothing, the map stays as it is whatever else happens. *)
Theorem pool_broadcast_stall :
  ∃ p, rtc step pool_new p ∧ peers p = {[pid := 0]} ∧ (at_stage <$> conns p !! 0) = Some (Ended pid) ∧
    ∀ p', rtc (stalled 0) p p' → peers p' = {[pid := 0]}.
Proof using allowed room.
  set (p := one (Ended pid) SEND_QUEUE_SIZE (RunAdded pid) {[pid := 0]} [[0]]).
  exists p. split_and!; [|done|done|].
  - etrans; [exact first_added|]. etrans; [by apply (fill_queue SEND_QUEUE_SIZE)|].
    eapply rtc_l; [apply (broadcast_start _ _ _ [0]); left|].
    { unfold broadcast_targets. cbn [peers one]. by rewrite map_to_list_singleton. }
    apply rtc_once. apply (first_ends SEND_QUEUE_SIZE (RunAdded pid) {[pid := 0]} [[0]]).
  - assert (waiting 0 p) as Hw.
    { split; [exists []; by left|]. by exists (first_conn (Ended pid) SEND_QUEUE_SIZE). }
    intros p' Hrtc. assert (waiting 0 p' ∧ peers p' = peers p) as [_ ->]; [|done].
    clearbody p. induction Hrtc as [|p p1 p2 Hs _ IH]; [done|].
    destruct (waiting_step 0 p p1 Hs Hw) as [Hw1 <-]. auto.
Qed.

End first.

End spec.

(** ** Witnesses: a node that allows every peer and has one slot *)

Definition one_slot (d : ConnDirection) : nat := 1.
Definition here : Endpoint := Tcp (Ip (V4 [127; 0; 0; 1]%Z)) 80.

Lemma pool_connections_witness :
  ∃ p, rtc (step AllowAll one_slot) pool_new p ∧ peers p = {[mkPeerID [] := 0]} ∧
    size (peers_of Inbound p) ≤ 1.
Proof.
  assert (rtc (step AllowAll one_slot) pool_new (one here (Running (mkPeerID [])) 0
    (RunAdded (mkPeerID [])) {[mkPeerID [] := 0]} [])) as Hrtc.
  { apply (first_added AllowAll one_slot here (mkPeerID []) []); [reflexivity|unfold one_slot; lia]. }
  eexists. split; [exact Hrtc|]. split; [reflexivity|].
  exact (proj2 (proj1 (pool_connections AllowAll one_slot _ Hrtc) Inbound)).
Defined.

Lemma pool_added_after_removed_witness :
  ∃ p, rtc (step AllowAll one_slot) pool_new p ∧
    events p = [Removed (mkPeerID []); Added (mkPeerID [])] ∧ peers p = ∅.
Proof.
  apply (pool_added_after_removed AllowAll one_slot here (mkPeerID []) []);
    [reflexivity|unfold one_slot; lia].
Defined.

Lemma pool_broadcast_stall_witness :
  ∃ p, rtc (step AllowAll one_slot) pool_new p ∧ peers p = {[mkPeerID [] := 0]} ∧
    (at_stage <$> conns p !! 0) = Some (Ended (mkPeerID [])) ∧
    ∀ p', rtc (stalled AllowAll one_slot 0) p p' → peers p' = {[mkPeerID [] := 0]}.
Proof.
  apply (pool_broadcast_stall AllowAll one_slot here (mkPeerID []) []);
    [reflexivity|unfold one_slot; lia].
Defined.
