(* ===== verification/PoolTurn.v ===== *)
(** * A turn of the run loop of the pool

    What [PeerPool::run] of [p2p/src/peer_pool.rs] emits for one connection, from the
    end of its handshake to the next connection, while the other tasks of [Pool] go
    on: one event, or none if the peer is connected already or cannot be built. *)

From S2P Require Import Prelude Codec Endpoint Message Version Config Connection Pool.

Section turn.
Context (access_control : AccessControl) (slots : ConnDirection → nat).

Abbreviation step := (step access_control slots).
Abbreviation admission := (admission access_control).
Abbreviation after_handshake := (after_handshake access_control).
Abbreviation turn_rest := (turn_rest access_control slots).
Abbreviation run_turn := (run_turn access_control slots).

Lemma after_handshake_step p i c handshake :
  runner p = RunHandshake i → conns p !! i = Some c → step p (after_handshake p i c handshake).
Proof.
  intros Hr Hc. unfold Pool.after_handshake. destruct (admission c handshake) as [[pid negotiated]|[e pid]] eqn:Ha.
  - by eapply run_admitted.
  - by eapply run_rejected.
Qed.

(** The other tasks lose no connection and add no peer. *)
Lemma other_step p p' :
  step p p' → runner p' = runner p →
  (∀ i, is_Some (conns p !! i) → is_Some (conns p' !! i)) ∧
  (∀ pid, peers p !! pid = None → peers p' !! pid = None).
Proof.
  intros Hs. destruct Hs; cbn; intros Hr; try congruence; (split; [intros j Hj|intros q Hq]); try done;
    rewrite ?lookup_alter_is_Some; auto.
  - by apply lookup_insert_is_Some'; right.
  - by rewrite lookup_delete_None; right.
Qed.

Lemma turn_rest_next p es p' : turn_rest p es p' → runner p = RunNext → es = [] ∧ p' = p.
Proof. by destruct 1. Qed.

Lemma turn_rest_added p es p' pid :
  turn_rest p es p' → runner p = RunAdded pid → es = [Added pid].
Proof.
  induction 1 as [|p p1 es p2 Hn Hs Hr _ IH|p p1 es es' p2 Hn Hs Hr He Ht IH]; intros Hp; [congruence|auto with congruence|].
  destruct Hs; cbn in *; try congruence. apply app_inv_head in He as <-.
  destruct (turn_rest_next _ _ _ Ht eq_refl) as [-> _]. cbn. congruence.
Qed.

(** A turn that admits nobody closes the connection. *)
Definition turned_away (p : pool) (i : nat) (pid : PeerID) : Prop :=
  ∃ c e, conns p !! i = Some c ∧ closed c = Some (Err e) ∧
    (e = PeerAlreadyConnected ∧ contains_peer p pid = true ∨ contains_peer p pid = false).

#[local] Ltac same_pc Hp :=
  match type of Hp with
  | ?x = _ => match goal with H : x = _ |- _ => rewrite Hp in H; injection H as <- <- <- end
  end.

Lemma turn_rest_build p es p' i pid negotiated :
  turn_rest p es p' → runner p = RunBuild i pid negotiated → is_Some (conns p !! i) →
  peers p !! pid = None → es = [Added pid] ∨ es = [] ∧ turned_away p' i pid.
Proof.
  induction 1 as [|p p1 es p2 Hn Hs Hr _ IH|p p1 es es' p2 Hn Hs Hr He Ht IH]; intros Hp [c Hc] Hpid; [congruence|..].
  - destruct (other_step p p1 Hs Hr) as [H1 H2]. apply IH; [congruence|by apply H1|by apply H2].
  - destruct Hs; cbn in *; try congruence; same_pc Hp; rewrite <-(app_nil_r (events p)) in He at 1;
      apply app_inv_head in He as <-.
    + right. destruct (turn_rest_next _ _ _ Ht eq_refl) as [-> ->]. split; [done|]. eexists _, e. split_and!.
      * cbn. by rewrite lookup_alter_eq, Hc.
      * done.
      * right. unfold contains_peer. cbn. apply bool_decide_eq_false. rewrite Hpid. by intros [].
    + left. by eapply turn_rest_added.
Qed.

Lemma turn_rest_check p es p' i pid negotiated :
  turn_rest p es p' → runner p = RunCheck i pid negotiated → is_Some (conns p !! i) →
  es = [Added pid] ∨ es = [] ∧ turned_away p' i pid.
Proof.
  induction 1 as [|p p1 es p2 Hn Hs Hr _ IH|p p1 es es' p2 Hn Hs Hr He Ht IH]; intros Hp [c Hc]; [congruence|..].
  - destruct (other_step p p1 Hs Hr) as [H1 _]. apply IH; [congruence|by apply H1].
  - destruct Hs as [| | | | | | |? ? ? ? ? Hin|? ? ? ? ? Hin| | | | | | | | | | | | |]; cbn in *; try congruence; same_pc Hp;
      rewrite ?app_nil_r in He; rewrite <-(app_nil_r (events p)) in He at 1; apply app_inv_head in He as <-.
    + right. destruct (turn_rest_next _ _ _ Ht eq_refl) as [-> ->]. split; [done|]. eexists _, _. split_and!.
      * cbn. by rewrite lookup_alter_eq, Hc.
      * done.
      * by left.
    + eapply turn_rest_build; [done|done|by eexists|]. unfold contains_peer in Hin.
      apply bool_decide_eq_false in Hin. by apply eq_None_not_Some.
Qed.

(** The event of a turn: none exactly if the peer is connected already or cannot be
    built. *)
Lemma run_turn_events p i c handshake es p' :
  conns p !! i = Some c → run_turn p i c handshake es p' →
  match admission c handshake with
  | inr (_, pid) => es = [HandshakeFailed pid]
  | inl (pid, _) => es = [Added pid] ∨ es = [] ∧ turned_away p' i pid
  end.
Proof.
  intros Hc (es1 & es2 & He & Ht & ->). unfold Pool.after_handshake in *.
  destruct (admission c handshake) as [[pid negotiated]|[e pid]]; cbn in He.
  - rewrite <-(app_nil_r (events p)) in He at 1. apply app_inv_head in He as <-.
    by eapply turn_rest_check.
  - apply app_inv_head in He as <-. by destruct (turn_rest_next _ _ _ Ht eq_refl) as [-> _].
Qed.

End turn.
