(* ===== verification/Swarm.v ===== *)
(** * Swarms: swarm/src/lib.rs and swarm/src/swarm_key.rs

    A swarm groups the connected peers that negotiated its protocol.  The
    handlers are functions on the two maps of [Swarm]; what they ask of the node
    is an argument.  The system around them has the node's peers, the events on
    their way to the monitor task, which are in the order of the changes they
    report, and the calls of [join] and [leave].

    In the first system the handlers do not overlap, and the members of a swarm
    are the right ones whenever no event is on its way.  In the second a scan of
    [join] is interrupted at its awaits. *)

From S2P Require Import Prelude Codec Endpoint Message Pool.

Abbreviation SwarmKey := (list Z).

Section keys.
Context (sha256 : list Z → list Z) (as_bytes : string → list Z).

Definition swarm_key_from_protocol (protocol_id : string) : SwarmKey :=
  sha256 (as_bytes protocol_id).

Definition compute_swarm_key (protocol_id instance : string) : SwarmKey :=
  sha256 (as_bytes protocol_id ++ as_bytes ":" ++ as_bytes instance).

End keys.

(** [SwarmInfo]. *)
Record SwarmInfo := mkSwarmInfo {
  protocol_id : ProtocolID;
  members : gset PeerID;
}.

Record Swarm := mkSwarm {
  swarms : gmap SwarmKey SwarmInfo;
  peer_swarms : gmap PeerID (gset SwarmKey);
}.

Module Swarm.

Definition new : Swarm := mkSwarm ∅ ∅.

(** ** Membership *)

Definition add_member (pid : PeerID) (i : SwarmInfo) : SwarmInfo :=
  mkSwarmInfo (protocol_id i) ({[pid]} ∪ members i).
Definition remove_member (pid : PeerID) (i : SwarmInfo) : SwarmInfo :=
  mkSwarmInfo (protocol_id i) (members i ∖ {[pid]}).

(** [protos] is the answer of [peer_protocol_set]. *)
Definition on_peer_added (s : Swarm) (pid : PeerID) (protos : option (gset ProtocolID)) : Swarm :=
  match protos with
  | None => s
  | Some protos =>
      let joined_keys :=
        dom (filter (λ kv : SwarmKey * SwarmInfo, protocol_id kv.2 ∈ protos) (swarms s)) in
      mkSwarm
        ((λ info, if decide (protocol_id info ∈ protos) then add_member pid info else info) <$> swarms s)
        (if decide (joined_keys = ∅) then peer_swarms s
         else <[pid := joined_keys]> (peer_swarms s))
  end.

Definition on_peer_removed (s : Swarm) (pid : PeerID) : Swarm :=
  match peer_swarms s !! pid with
  | None => s
  | Some keys =>
      mkSwarm
        (map_imap (λ key info, Some (if decide (key ∈ keys) then remove_member pid info else info))
          (swarms s))
        (delete pid (peer_swarms s))
  end.

(** One event of [monitor_peers]; [protos] answers for the peer of the event. *)
Definition on_event (s : Swarm) (ev : PeerEvent) (protos : option (gset ProtocolID)) : Swarm :=
  match ev with
  | Added pid => on_peer_added s pid protos
  | Removed pid => on_peer_removed s pid
  | HandshakeFailed _ => s
  end.

(** ** Joining and leaving *)

(** The two writes for a peer of the scan. *)
Definition scan_insert (s : Swarm) (key : SwarmKey) (pid : PeerID) : Swarm :=
  mkSwarm (alter (add_member pid) key (swarms s))
    (<[pid := {[key]} ∪ default ∅ (peer_swarms s !! pid)]> (peer_swarms s)).

Definition scan_peer (key : SwarmKey) (id : ProtocolID) (protos : PeerID → option (gset ProtocolID))
    (s : Swarm) (pid : PeerID) : Swarm :=
  match protos pid with
  | Some ps => if decide (id ∈ ps) then scan_insert s key pid else s
  | None => s
  end.

(** [all_pids] are the inbound and then the outbound peers. *)
Definition scan_peers_for_swarm (s : Swarm) (key : SwarmKey) (id : ProtocolID)
    (all_pids : list PeerID) (protos : PeerID → option (gset ProtocolID)) : Swarm :=
  match swarms s !! key with
  | None => s
  | Some _ => foldl (scan_peer key id protos) s all_pids
  end.

(** [join_inner] after the protocol is attached and the key advertised. *)
Definition insert_swarm (s : Swarm) (key : SwarmKey) (proto_id : ProtocolID) : Swarm :=
  mkSwarm (<[key := mkSwarmInfo proto_id ∅]> (swarms s)) (peer_swarms s).

Definition join_inner (s : Swarm) (proto_id : ProtocolID) (key : SwarmKey)
    (all_pids : list PeerID) (protos : PeerID → option (gset ProtocolID)) : Swarm :=
  scan_peers_for_swarm (insert_swarm s key proto_id) key proto_id all_pids protos.

Definition leave (s : Swarm) (key : SwarmKey) : Swarm :=
  mkSwarm (delete key (swarms s)) ((λ keys, keys ∖ {[key]}) <$> peer_swarms s).

(** ** Queries *)

Definition peers (s : Swarm) (key : SwarmKey) : gset PeerID :=
  match swarms s !! key with
  | Some info => members info
  | None => ∅
  end.

Definition peers_len (s : Swarm) (key : SwarmKey) : nat :=
  match swarms s !! key with
  | Some info => size (members info)
  | None => 0
  end.

(** The call of [broadcast_to] a broadcast makes. *)
Definition broadcast (s : Swarm) (key : SwarmKey) (msg : list Z) :
    option (ProtocolID * list Z * gset PeerID) :=
  match swarms s !! key with
  | None => None
  | Some info => Some (protocol_id info, msg, members info)
  end.

End Swarm.

Arguments Swarm.on_peer_added : simpl never.
Arguments Swarm.on_peer_removed : simpl never.
Arguments Swarm.scan_peers_for_swarm : simpl never.

(** ** A node with its swarms *)

(** The connected peers with their negotiated protocols, the events on their way
    to the monitor task, and the swarms. *)
Record system := mkSystem {
  connected : gmap PeerID (gset ProtocolID);
  queue : list PeerEvent;
  swarm : Swarm;
}.

Definition system_new : system := mkSystem ∅ [] Swarm.new.

(** Operations that do not overlap: the peers of a scan are in any order. *)
Inductive op_step : system → system → Prop :=
| peer_connects p q s pid protos :
    p !! pid = None →
    op_step (mkSystem p q s) (mkSystem (<[pid := protos]> p) (q ++ [Added pid]) s)
| peer_leaves p q s pid :
    is_Some (p !! pid) →
    op_step (mkSystem p q s) (mkSystem (delete pid p) (q ++ [Removed pid]) s)
| handshake_fails p q s pid :
    op_step (mkSystem p q s) (mkSystem p (q ++ [HandshakeFailed pid]) s)
| monitor_event p ev q s :
    op_step (mkSystem p (ev :: q) s)
      (mkSystem p q
        (Swarm.on_event s ev
          match ev with Added pid => p !! pid | _ => None end))
| swarm_joins p q s id key all_pids :
    (∀ pid, pid ∈ all_pids ↔ is_Some (p !! pid)) →
    op_step (mkSystem p q s) (mkSystem p q (Swarm.join_inner s id key all_pids (p !!.)))
| swarm_leaves p q s key :
    op_step (mkSystem p q s) (mkSystem p q (Swarm.leave s key)).

(** A scan that is interrupted: after the swarm was inserted and the peers were
    listed, and between the question for a peer's protocols and the two writes. *)
Inductive scan_pc :=
| ScanNext (todo : list PeerID)
| ScanWrite (pid : PeerID) (todo : list PeerID)
| ScanDone.

Inductive scan_step (key : SwarmKey) (id : ProtocolID) : system * scan_pc → system * scan_pc → Prop :=
| during_scan s s' pc : op_step s s' → scan_step key id (s, pc) (s', pc)
| scan_asks p q s pid todo :
    scan_step key id (mkSystem p q s, ScanNext (pid :: todo))
      (mkSystem p q s,
       match p !! pid with
       | Some ps => if decide (id ∈ ps) then ScanWrite pid todo else ScanNext todo
       | None => ScanNext todo
       end)
| scan_writes p q s pid todo :
    scan_step key id (mkSystem p q s, ScanWrite pid todo)
      (mkSystem p q (Swarm.scan_insert s key pid), ScanNext todo)
| scan_ends s : scan_step key id (s, ScanNext []) (s, ScanDone).

(** ** Lookups *)

Section lookups.
Import Swarm.

Lemma swarms_added s pid protos k :
  swarms (on_peer_added s pid (Some protos)) !! k =
    (λ info, if decide (protocol_id info ∈ protos) then add_member pid info else info) <$>
      swarms s !! k.
Proof. apply lookup_fmap. Qed.

Lemma joined_keys_spec s (protos : gset ProtocolID) k :
  k ∈ dom (filter (λ kv : SwarmKey * SwarmInfo, protocol_id kv.2 ∈ protos) (swarms s)) ↔
  ∃ info, swarms s !! k = Some info ∧ protocol_id info ∈ protos.
Proof.
  rewrite elem_of_dom. unfold is_Some. setoid_rewrite map_lookup_filter_Some. done.
Qed.

Lemma index_added s pid protos k info :
  swarms s !! k = Some info → protocol_id info ∈ protos →
  ∃ keys, peer_swarms (on_peer_added s pid (Some protos)) !! pid = Some keys ∧
    ∀ k', k' ∈ keys ↔ ∃ info', swarms s !! k' = Some info' ∧ protocol_id info' ∈ protos.
Proof.
  intros Hk Hp. unfold on_peer_added; cbn. rewrite decide_False.
  - rewrite lookup_insert_eq. eexists. split; [done|]. intros k'. apply joined_keys_spec.
  - intros He. assert (k ∈ (∅ : gset SwarmKey)); [|set_solver].
    rewrite <-He. apply joined_keys_spec. by exists info.
Qed.

Lemma index_added_ne s pid protos pid' :
  pid' ≠ pid → peer_swarms (on_peer_added s pid protos) !! pid' = peer_swarms s !! pid'.
Proof.
  intros Hne. destruct protos; [|done]. unfold on_peer_added; cbn. case_decide; [done|]. by rewrite lookup_insert_ne.
Qed.

Lemma swarms_removed s pid k info :
  swarms (on_peer_removed s pid) !! k = Some info →
  ∃ info0, swarms s !! k = Some info0 ∧ protocol_id info = protocol_id info0 ∧
    (∀ p, p ≠ pid → p ∈ members info ↔ p ∈ members info0) ∧
    (pid ∈ members info → pid ∈ members info0 ∧
      ∀ keys, peer_swarms s !! pid = Some keys → k ∉ keys).
Proof.
  unfold on_peer_removed. destruct (peer_swarms s !! pid) as [keys|]; cbn.
  - rewrite map_lookup_imap. destruct (swarms s !! k) as [i|]; [|done]. cbn.
    intros [= <-]. exists i. split; [done|]. case_decide; cbn; [|naive_solver].
    split; [done|]. set_solver.
  - intros Hk. exists info. naive_solver.
Qed.

Lemma swarms_removed_Some s pid k info0 :
  swarms s !! k = Some info0 →
  ∃ info, swarms (on_peer_removed s pid) !! k = Some info ∧ protocol_id info = protocol_id info0 ∧
    ∀ p, p ≠ pid → p ∈ members info ↔ p ∈ members info0.
Proof.
  intros Hk. unfold on_peer_removed. destruct (peer_swarms s !! pid) as [keys|]; cbn; [|by exists info0].
  rewrite map_lookup_imap, Hk. cbn. eexists. split; [done|]. case_decide; cbn; [|done].
  split; [done|]. set_solver.
Qed.

Lemma index_removed_ne s pid pid' :
  pid' ≠ pid → peer_swarms (on_peer_removed s pid) !! pid' = peer_swarms s !! pid'.
Proof.
  intros Hne. unfold on_peer_removed. destruct (peer_swarms s !! pid); [|done].
  cbn. by rewrite lookup_delete_ne.
Qed.

End lookups.
