(* ===== verification/SwarmSpec.v ===== *)
(** * Membership of swarms

    The invariant of the system of [Swarm] and its theorems: swarms have the
    right members when operations do not overlap and every peer speaks the same
    protocols on all its connections.  They can keep a peer that is gone when a scan
    is interrupted, and a peer that came back with other protocols. *)

From S2P Require Import Prelude Codec Endpoint Message Pool Swarm.
Import Swarm.

(** The newest event on a peer is that it was added. *)
Definition added_last (pid : PeerID) (q : list PeerEvent) : Prop :=
  ∃ q1 q2, q = q1 ++ Added pid :: q2 ∧ Removed pid ∉ q2.

Section membership.
(** What each peer speaks, over all its connections. *)
Context (protos_of : PeerID → gset ProtocolID).

Definition steady (s : system) : Prop :=
  ∀ pid ps, connected s !! pid = Some ps → ps = protos_of pid.

Definition steady_step (s s' : system) : Prop := op_step s s' ∧ steady s'.

(** A swarm is in the index of each of its members. *)
Definition covered (s : Swarm) : Prop :=
  ∀ k info pid, swarms s !! k = Some info → pid ∈ members info →
    ∃ keys, peer_swarms s !! pid = Some keys ∧ k ∈ keys.

(** Members speak the protocol, and are connected or about to be removed. *)
Definition sound (p : gmap PeerID (gset ProtocolID)) (q : list PeerEvent) (s : Swarm) : Prop :=
  ∀ k info pid, swarms s !! k = Some info → pid ∈ members info →
    protocol_id info ∈ protos_of pid ∧ (is_Some (p !! pid) ∨ Removed pid ∈ q).

(** Nothing on its way contradicts that a peer is connected. *)
Definition settled (p : gmap PeerID (gset ProtocolID)) (q : list PeerEvent) : Prop :=
  ∀ pid, is_Some (p !! pid) → Removed pid ∉ q ∨ added_last pid q.

Definition complete_at (p : gmap PeerID (gset ProtocolID)) (q : list PeerEvent) (info : SwarmInfo) :
    Prop :=
  ∀ pid, is_Some (p !! pid) → protocol_id info ∈ protos_of pid →
    (pid ∈ members info ∧ Removed pid ∉ q) ∨ added_last pid q.

Record membership (s : system) : Prop := {
  mem_steady : steady s;
  mem_covered : covered (swarm s);
  mem_sound : sound (connected s) (queue s) (swarm s);
  mem_settled : settled (connected s) (queue s);
  mem_complete k info : swarms (swarm s) !! k = Some info →
    complete_at (connected s) (queue s) info;
}.

(** ** The queue *)

Lemma added_last_app pid q ev :
  added_last pid q → ev ≠ Removed pid → added_last pid (q ++ [ev]).
Proof.
  intros (q1 & q2 & -> & Hq) Hev. exists q1, (q2 ++ [ev]). split; [by rewrite <-app_assoc|]. set_solver.
Qed.

Lemma added_last_tail pid ev q :
  added_last pid (ev :: q) → (ev = Added pid ∧ Removed pid ∉ q) ∨ added_last pid q.
Proof.
  intros ([|ev' q1] & q2 & Heq & Hq); cbn in Heq; simplify_eq; [by left|]. right. by exists q1, q2.
Qed.

Lemma settled_app p q ev :
  (∀ pid, ev = Removed pid → p !! pid = None) → settled p q → settled p (q ++ [ev]).
Proof.
  intros Hev Hs pid Hp. assert (ev ≠ Removed pid) as Hne.
  { intros He%Hev. rewrite He in Hp. by destruct Hp. }
  destruct (Hs pid Hp); [left; set_solver|right; by apply added_last_app].
Qed.

Lemma complete_app p q ev info :
  (∀ pid, ev = Removed pid → p !! pid = None) → complete_at p q info → complete_at p (q ++ [ev]) info.
Proof.
  intros Hev Hs pid Hp Hi. assert (ev ≠ Removed pid) as Hne.
  { intros He%Hev. rewrite He in Hp. by destruct Hp. }
  destruct (Hs pid Hp Hi) as [[? ?]|]; [left; set_solver|right; by apply added_last_app].
Qed.

(** A peer that was not there has its event last. *)
Lemma settled_new p q pid protos :
  settled p q → settled (<[pid := protos]> p) (q ++ [Added pid]).
Proof.
  intros Hs pid' Hp. destruct (decide (pid' = pid)) as [->|Hne].
  - right. exists q, []. split; [done|set_solver].
  - rewrite lookup_insert_ne in Hp by done. by apply (settled_app p q (Added pid)).
Qed.

Lemma complete_new p q pid protos info :
  complete_at p q info → complete_at (<[pid := protos]> p) (q ++ [Added pid]) info.
Proof.
  intros Hs pid' Hp. destruct (decide (pid' = pid)) as [->|Hne].
  - right. exists q, []. split; [done|set_solver].
  - rewrite lookup_insert_ne in Hp by done. by apply (complete_app p q (Added pid)).
Qed.

Lemma settled_delete p q pid : settled p q → settled (delete pid p) (q ++ [Removed pid]).
Proof.
  intros Hs. apply settled_app; [intros ? [= ->]; apply lookup_delete_eq|].
  intros pid' Hp. apply Hs. by apply lookup_delete_is_Some in Hp as [_ ?].
Qed.

Lemma complete_delete p q pid info :
  complete_at p q info → complete_at (delete pid p) (q ++ [Removed pid]) info.
Proof.
  intros Hs. apply complete_app; [intros ? [= ->]; apply lookup_delete_eq|].
  intros pid' Hp. apply Hs. by apply lookup_delete_is_Some in Hp as [_ ?].
Qed.

Lemma settled_tail p ev q :
  settled p (ev :: q) → settled p q.
Proof.
  intros Hs pid Hp. destruct (Hs pid Hp) as [Hn|[[_ ?]|?]%added_last_tail];
    [left; set_solver|by left|by right].
Qed.

(** ** Events *)

Lemma event_added p q s pid :
  membership (mkSystem p (Added pid :: q) s) →
  membership (mkSystem p q (on_peer_added s pid (p !! pid))).
Proof.
  intros [Hst Hcov Hso Hse Hco]; cbn in *. destruct (p !! pid) as [ps|] eqn:Hp; cycle 1.
  { split; cbn; eauto using settled_tail.
    - intros k info pid' Hk Hm. destruct (Hso k info pid' Hk Hm) as [? [?|?]]; [by auto|]. set_solver.
    - intros k info Hk pid' Hp' Hi.
      destruct (Hco k info Hk pid' Hp' Hi) as [[? ?]|[[[= ->] _]|?]%added_last_tail];
        [left; set_solver| |by right].
      destruct Hp'. congruence. }
  assert (ps = protos_of pid) as -> by by apply Hst. split; cbn; eauto using settled_tail.
  - intros k info pid' Hk Hm. rewrite swarms_added in Hk.
    apply fmap_Some in Hk as (i0 & Hk & ->). destruct (decide (pid' = pid)) as [->|Hne].
    + assert (protocol_id i0 ∈ protos_of pid) as Hi.
      { case_decide; [done|]. by eapply Hso. }
      destruct (index_added s pid _ _ _ Hk Hi) as (keys & -> & Hkeys).
      exists keys. split; [done|]. apply Hkeys. by exists i0.
    + rewrite index_added_ne by done. apply (Hcov k i0); [done|]. case_decide; [|done]. set_solver.
  - intros k info pid' Hk Hm. rewrite swarms_added in Hk.
    apply fmap_Some in Hk as (i0 & Hk & ->). destruct (decide (pid' = pid)) as [->|Hne].
    + case_decide as Hd; cbn in *; [by eauto|]. destruct (Hso k i0 pid Hk Hm). by eauto.
    + assert (pid' ∈ members i0) as Hm0 by (case_decide; [|done]; set_solver).
      destruct (Hso k i0 pid' Hk Hm0) as [Hpr Hin]. case_decide; cbn; (split; [done|]); set_solver.
  - intros k info Hk. rewrite swarms_added in Hk. apply fmap_Some in Hk as (i0 & Hk & ->).
    intros pid' Hp' Hi. assert (protocol_id i0 ∈ protos_of pid') as Hi0 by by case_decide.
    destruct (Hco k i0 Hk pid' Hp' Hi0) as [[Hm Hq]|[[[= ->] Hq]|?]%added_last_tail]; [..|by right].
    + left. split; [|set_solver]. case_decide; cbn; [set_solver|done].
    + left. split; [|done]. rewrite decide_True by done. cbn. set_solver.
Qed.

Lemma event_removed p q s pid :
  membership (mkSystem p (Removed pid :: q) s) →
  membership (mkSystem p q (on_peer_removed s pid)).
Proof.
  intros [Hst Hcov Hso Hse Hco]; cbn in *.
  assert (∀ k info pid', swarms (on_peer_removed s pid) !! k = Some info → pid' ∈ members info →
    ∃ i0, swarms s !! k = Some i0 ∧ protocol_id info = protocol_id i0 ∧ pid' ∈ members i0 ∧
      pid' ≠ pid) as Hold.
  { intros k info pid' (i0 & Hk & Hpr & Hoth & Hpid)%swarms_removed Hm. exists i0.
    destruct (decide (pid' = pid)) as [->|Hne].
    - destruct (Hpid Hm) as [Hm0 Hno]. destruct (Hcov k i0 pid Hk Hm0) as (keys & Hkeys & Hin).
      by destruct (Hno keys Hkeys).
    - split_and!; [done..|by apply Hoth|done]. }
  split; cbn; eauto using settled_tail.
  - intros k info pid' Hk Hm. destruct (Hold k info pid' Hk Hm) as (i0 & Hk0 & _ & Hm0 & Hne).
    rewrite index_removed_ne by done. by eapply Hcov.
  - intros k info pid' Hk Hm. destruct (Hold k info pid' Hk Hm) as (i0 & Hk0 & -> & Hm0 & Hne).
    destruct (Hso k i0 pid' Hk0 Hm0) as [Hpr Hin]. split; [done|]. set_solver.
  - intros k info Hk pid' Hp' Hi. pose proof Hk as (i0 & Hk0 & Hpr & Hoth & _)%swarms_removed.
    rewrite Hpr in Hi.
    destruct (Hco k i0 Hk0 pid' Hp' Hi) as [[Hm Hq]|[[? _]|?]%added_last_tail]; [|done|by right].
    left. split; [|set_solver]. apply Hoth; [|done]. intros ->. set_solver.
Qed.

(** ** Joining and leaving *)

(** The swarm a scan fills, in a state where the index covers and the members are
    sound; [has] are peers already there. *)
Record scanning (p : gmap PeerID (gset ProtocolID)) (q : list PeerEvent) (key : SwarmKey)
    (id : ProtocolID) (s0 s : Swarm) (has : list PeerID) : Prop := {
  scan_covered : covered s;
  scan_sound : sound p q s;
  scan_key : ∃ info, swarms s !! key = Some info ∧ protocol_id info = id ∧
    ∀ pid, pid ∈ has → is_Some (p !! pid) → id ∈ protos_of pid → pid ∈ members info;
  scan_other k : k ≠ key → swarms s !! k = swarms s0 !! k;
}.

Lemma scan_start p q key id s :
  membership (mkSystem p q s) → scanning p q key id s (insert_swarm s key id) [].
Proof.
  intros [Hst Hcov Hso Hse Hco]; cbn in *. unfold insert_swarm. split; cbn.
  - intros k info pid. cbn. rewrite lookup_insert_Some. intros [[<- <-]|[Hne Hk]] Hm; [set_solver|].
    by eapply Hcov.
  - intros k info pid. cbn. rewrite lookup_insert_Some. intros [[<- <-]|[Hne Hk]] Hm; [set_solver|].
    by eapply Hso.
  - eexists. rewrite lookup_insert_eq. split_and!; [done..|]. intros pid Hpid. set_solver.
  - intros k Hne. by rewrite lookup_insert_ne.
Qed.

Lemma scan_insert_scanning p q key id s0 s has pid :
  scanning p q key id s0 s has → is_Some (p !! pid) → id ∈ protos_of pid →
  scanning p q key id s0 (scan_insert s key pid) (has ++ [pid]).
Proof.
  intros [Hcov Hso (info & Hk & Hid & Hhas) Hoth] Hp Hpid. unfold scan_insert. split; cbn.
  - intros k info' pid' Hk' Hm'. cbn in *. destruct (decide (pid' = pid)) as [->|Hne].
    + rewrite lookup_insert_eq. eexists. split; [done|]. destruct (decide (k = key)) as [->|Hkn]; [set_solver|].
      rewrite lookup_alter_ne in Hk' by done.
      destruct (Hcov _ _ _ Hk' Hm') as (keys & -> & Hin). cbn. set_solver.
    + rewrite lookup_insert_ne by done. apply lookup_alter_Some in Hk' as [(-> & i & Hi & ->)|[_ Hk']];
        [|by eapply Hcov]. apply (Hcov _ _ pid' Hi). cbn in Hm'. set_solver.
  - intros k info' pid' Hk' Hm'. cbn in Hk'.
    apply lookup_alter_Some in Hk' as [(-> & i & Hi & ->)|[_ Hk']]; [|by eapply Hso].
    cbn in *. simplify_eq. destruct (decide (pid' = pid)) as [->|Hne]; [by auto|].
    eapply Hso; [done|]. set_solver.
  - eexists. rewrite lookup_alter_eq, Hk. cbn. split_and!; [done..|]. cbn.
    intros pid' Hin Hp' Hpid'. specialize (Hhas pid'). set_solver.
  - intros k Hne. rewrite lookup_alter_ne by done. by apply Hoth.
Qed.

Lemma scan_all p q key id s0 l : ∀ s has,
  (∀ pid ps, p !! pid = Some ps → ps = protos_of pid) →
  scanning p q key id s0 s has →
  scanning p q key id s0 (foldl (scan_peer key id (p !!.)) s l) (has ++ l).
Proof.
  induction l as [|pid l IH]; intros s has Hst Hs; cbn; [by rewrite app_nil_r|].
  replace (has ++ pid :: l) with ((has ++ [pid]) ++ l) by by rewrite <-app_assoc.
  apply IH; [done|]. unfold scan_peer. destruct (p !! pid) as [ps|] eqn:Hp.
  - assert (ps = protos_of pid) as -> by by apply Hst.
    case_decide; [by apply scan_insert_scanning; [|eexists|]|].
    destruct Hs as [Hcov Hso (info & Hk & Hid & Hhas) Hoth]. split; [done..| |done].
    exists info. split_and!; [done..|]. intros pid' [?|Heq%list_elem_of_singleton]%elem_of_app ? ?;
      [by apply Hhas|by subst].
  - destruct Hs as [Hcov Hso (info & Hk & Hid & Hhas) Hoth]. split; [done..| |done].
    exists info. split_and!; [done..|].
    intros pid' [?|Heq%list_elem_of_singleton]%elem_of_app [??] ?;
      [apply Hhas; [done|by eexists|done]|congruence].
Qed.

Lemma join_membership p q s id key all_pids :
  (∀ pid, pid ∈ all_pids ↔ is_Some (p !! pid)) → membership (mkSystem p q s) →
  membership (mkSystem p q (join_inner s id key all_pids (p !!.))).
Proof.
  intros Hall Hm. pose proof Hm as [Hst _ _ Hse Hco]; cbn in *.
  apply (scan_start p q key id) in Hm. unfold join_inner, scan_peers_for_swarm.
  unfold insert_swarm at 1; cbn. rewrite lookup_insert_eq.
  apply (scan_all p q key id s all_pids _ []) in Hm as [Hcov Hso (info & Hk & Hid & Hhas) Hoth]; [|done].
  split; cbn; try done. intros k info' Hk'. destruct (decide (k = key)) as [->|Hne].
  - assert (info' = info) as -> by congruence. intros pid Hp Hi. rewrite Hid in Hi.
    destruct (Hse pid Hp) as [Hq|Hq]; [left|by right]. split; [|done].
    apply Hhas; [by apply Hall|done..].
  - rewrite Hoth in Hk' by done. by eapply Hco.
Qed.

Lemma leave_membership p q s key :
  membership (mkSystem p q s) → membership (mkSystem p q (leave s key)).
Proof.
  intros [Hst Hcov Hso Hse Hco]; cbn in *.
  assert (∀ k info, swarms (leave s key) !! k = Some info → k ≠ key ∧ swarms s !! k = Some info) as Hl.
  { intros k info. cbn. rewrite lookup_delete_Some. naive_solver. }
  split; cbn; try done.
  - intros k info pid (Hne & Hk)%Hl Hm. cbn. rewrite lookup_fmap.
    destruct (Hcov k info pid Hk Hm) as (keys & -> & Hin). cbn. eexists. split; [done|]. set_solver.
  - intros k info pid (Hne & Hk)%Hl. by eapply Hso.
  - intros k info Hk. cbn in Hk. apply (Hl k info) in Hk as [_ Hk]. by eapply Hco.
Qed.

Lemma step_membership s s' : membership s → steady_step s s' → membership s'.
Proof.
  intros Hm [Hs Hst]. destruct Hs as [p q s pid protos Hp|p q s pid Hp|p q s pid|p ev q s|
    p q s id key l Hl|p q s key].
  - destruct Hm as [_ Hcov Hso Hse Hco]. split; cbn in *; eauto using settled_new, complete_new.
    intros k info pid' Hk Hm. destruct (Hso k info pid' Hk Hm) as [? [Hin|?]]; split; try done.
    + left. apply lookup_insert_is_Some'. by right.
    + right. set_solver.
  - destruct Hm as [_ Hcov Hso Hse Hco]. split; cbn in *; eauto using settled_delete, complete_delete.
    intros k info pid' Hk Hm. destruct (Hso k info pid' Hk Hm) as [? Hin]; split; [done|].
    destruct (decide (pid' = pid)) as [->|Hne]; [right; set_solver|].
    rewrite lookup_delete_ne by done. set_solver.
  - destruct Hm as [_ Hcov Hso Hse Hco]. split; cbn in *; eauto using settled_app, complete_app.
    + intros k info pid' Hk Hm. destruct (Hso k info pid' Hk Hm) as [? Hin]; split; [done|]. set_solver.
    + by apply settled_app.
    + intros k info Hk. apply complete_app; [done|]. by eapply Hco.
  - destruct ev as [pid|pid|pid]; cbn; [by apply event_added|by apply event_removed|].
    destruct Hm as [_ Hcov Hso Hse Hco]. split; cbn in *; eauto using settled_tail.
    + intros k info pid' Hk Hm. destruct (Hso k info pid' Hk Hm) as [? Hin]; split; [done|]. set_solver.
    + intros k info Hk pid' Hp' Hi. destruct (Hco k info Hk pid' Hp' Hi) as [[? ?]|[[? _]|?]%added_last_tail];
        [left; set_solver|done|by right].
  - by apply join_membership.
  - by apply leave_membership.
Qed.

Lemma system_membership s : rtc steady_step system_new s → membership s.
Proof.
  intros Hr. assert (membership system_new) as Hm.
  { split; cbn.
    - intros pid ps. cbn. by rewrite lookup_empty.
    - intros k info pid. cbn. by rewrite lookup_empty.
    - intros k info pid. cbn. by rewrite lookup_empty.
    - intros pid. rewrite lookup_empty. by intros [].
    - intros k info. by rewrite lookup_empty. }
  revert Hm. induction Hr; eauto using step_membership.
Qed.

(** C25: Swarms have the right members.  While peers connect and leave, events
    reach the monitor and swarms are joined and left, one operation after the
    other, every member of a swarm speaks its protocol and is connected unless
    the event of its removal is on its way, and every connected peer that speaks
    the protocol is a member unless an event about it is on its way; once no
    event is, the members are exactly those peers.  All of this holds of peers that
    negotiate the same protocols each time they connect, [protos_of]; without it a
    swarm can keep a member that no longer speaks its protocol
    ([swarm_keeps_stale_member]). *)
Theorem swarm_membership s key info :
  rtc steady_step system_new s → swarms (swarm s) !! key = Some info →
  (∀ pid, pid ∈ peers (swarm s) key → protocol_id info ∈ protos_of pid ∧
    (is_Some (connected s !! pid) ∨ Removed pid ∈ queue s)) ∧
  (∀ pid ps, connected s !! pid = Some ps → protocol_id info ∈ ps →
    pid ∈ peers (swarm s) key ∨ Added pid ∈ queue s) ∧
  (queue s = [] → ∀ pid, pid ∈ peers (swarm s) key ↔
    ∃ ps, connected s !! pid = Some ps ∧ protocol_id info ∈ ps).
Proof.
  intros [Hst Hcov Hso Hse Hco]%system_membership Hk.
  assert (peers (swarm s) key = members info) as -> by (unfold peers; by rewrite Hk).
  assert (∀ pid ps, connected s !! pid = Some ps → protocol_id info ∈ ps →
    pid ∈ members info ∨ Added pid ∈ queue s) as Hc.
  { intros pid ps Hp Hi. rewrite (Hst _ _ Hp) in Hi.
    destruct (Hco _ _ Hk pid ltac:(by eexists) Hi) as [[? ?]|(q1 & q2 & -> & _)]; [by left|].
    right. set_solver. }
  split_and!; [intros pid; by eapply Hso|done|].
  intros Hq pid. split.
  - intros Hm. destruct (Hso _ _ _ Hk Hm) as [Hi [[ps Hp]|Hr]]; [|rewrite Hq in Hr; set_solver].
    exists ps. split; [done|]. by rewrite (Hst _ _ Hp).
  - intros (ps & Hp & Hi). destruct (Hc _ _ Hp Hi) as [|Hr]; [done|]. rewrite Hq in Hr. set_solver.
Qed.

End membership.

(** ** A scan that is interrupted *)

(** A swarm can keep a peer that is gone.  The scan of [join] asks for the
    protocols of a peer and then writes it into the swarm; when the peer leaves
    and the monitor handles its removal in between, the scan adds it afterwards,
    and with no event left nothing removes it: the swarm has a member that is not
    connected, to which every broadcast of the swarm is addressed. *)
Theorem swarm_keeps_gone_peer s pid ps id key :
  connected s = {[pid := ps]} → id ∈ ps → queue s = [] →
  peer_swarms (swarm s) !! pid = None →
  ∃ s', rtc (scan_step key id)
      (mkSystem (connected s) [] (insert_swarm (swarm s) key id), ScanNext [pid]) (s', ScanDone) ∧
    connected s' = ∅ ∧ queue s' = [] ∧ pid ∈ peers (swarm s') key ∧
    ∀ msg, broadcast (swarm s') key msg = Some (id, msg, {[pid]}).
Proof.
  destruct s as [p q sw]; cbn. intros -> Hid -> Hps. eexists. split.
  { eapply rtc_l; [apply scan_asks|]. rewrite lookup_singleton_eq, decide_True by done.
    eapply rtc_l; [eapply during_scan, (peer_leaves _ _ _ pid); rewrite lookup_singleton_eq; by eexists|].
    cbn [app]. eapply rtc_l; [apply during_scan, monitor_event|].
    eapply rtc_l; [apply scan_writes|]. apply rtc_once, scan_ends. }
  unfold on_event, on_peer_removed, insert_swarm; cbn [peer_swarms]. rewrite Hps.
  unfold scan_insert, peers, broadcast; cbn. rewrite lookup_alter_eq, lookup_insert_eq; cbn.
  split_and!; [apply delete_singleton_eq|done|set_solver|]. intros msg. do 3 f_equal. set_solver.
Qed.

(** ** A peer that comes back with other protocols *)

Definition comes_back : PeerID := mkPeerID [9%Z].

(** A swarm can keep a member that does not speak its protocol.  A peer is connected
    when a swarm is joined, so that the scan adds it, while the event of its arrival
    is on its way; it leaves, and comes back with another protocol.  The monitor
    handles the first event with the protocols of the new connection, and
    [on_peer_added] overwrites the swarms that are known of the peer: its removal does
    not reach the first swarm, and with no event left nothing ever does. *)
Theorem swarm_keeps_stale_member :
  ∃ s info, rtc op_step system_new s ∧ queue s = [] ∧
    swarms (swarm s) !! [1%Z] = Some info ∧ protocol_id info = "A"%string ∧
    connected s !! comes_back = Some {["B"%string]} ∧ comes_back ∈ peers (swarm s) [1%Z].
Proof.
  eexists _, _. split_and!.
  - eapply rtc_l; [apply (swarm_joins ∅ [] Swarm.new "B"%string [2%Z] [])|].
    { intros pid. rewrite lookup_empty, elem_of_nil. by split; [|intros []]. }
    eapply rtc_l; [apply (peer_connects _ _ _ comes_back {["A"%string]}), lookup_empty|].
    eapply rtc_l; [apply (swarm_joins _ _ _ "A"%string [1%Z] [comes_back])|].
    { intros pid. by rewrite insert_empty, list_elem_of_singleton, lookup_singleton_is_Some. }
    eapply rtc_l; [apply (peer_leaves _ _ _ comes_back); rewrite lookup_insert_eq; by eexists|].
    eapply rtc_l; [apply (peer_connects _ _ _ comes_back {["B"%string]}), lookup_delete_eq|].
    do 3 (eapply rtc_l; [apply monitor_event|]). apply rtc_refl.
  - done.
  - vm_compute. reflexivity.
  - reflexivity.
  - apply lookup_insert_eq.
  - apply (bool_decide_unpack _). vm_compute. exact I.
Qed.

(** ** Witnesses *)

Section witnesses.

Definition talker : PeerID := mkPeerID [7%Z].
Definition chat : ProtocolID := "CHAT".
Definition speaks (pid : PeerID) : gset ProtocolID := {[chat]}.

Definition one_talker : gmap PeerID (gset ProtocolID) := {[talker := speaks talker]}.

Definition joined_system : system :=
  mkSystem one_talker []
    (join_inner (on_event Swarm.new (Added talker) (Some (speaks talker))) chat [1%Z] [talker]
      (one_talker !!.)).

(** A peer connects, the monitor handles it, a swarm is joined. *)
Lemma joined_run : rtc (steady_step speaks) system_new joined_system.
Proof.
  assert (∀ q s, steady speaks (mkSystem one_talker q s)) as Hst.
  { intros q s pid ps. cbn. by intros [<- <-]%lookup_singleton_Some. }
  eapply rtc_l.
  { split; [apply (peer_connects ∅ [] Swarm.new talker (speaks talker)), lookup_empty|].
    rewrite insert_empty. apply Hst. }
  rewrite insert_empty. eapply rtc_l.
  { split; [apply (monitor_event _ (Added talker) [])|]. apply Hst. }
  rewrite lookup_singleton_eq. eapply rtc_l.
  { split; [apply (swarm_joins _ _ _ chat [1%Z] [talker])|apply Hst].
    intros pid. rewrite list_elem_of_singleton, lookup_singleton_is_Some. done. }
  apply rtc_refl.
Qed.

Lemma swarm_membership_witness : talker ∈ peers (swarm joined_system) [1%Z].
Proof.
  destruct (swarms (swarm joined_system) !! [1%Z]) as [info|] eqn:Hk; [|vm_compute in Hk; discriminate].
  apply (swarm_membership speaks joined_system [1%Z] info joined_run Hk); [reflexivity|].
  exists (speaks talker). split; [by vm_compute|]. injection Hk as <-.
  unfold speaks. apply elem_of_singleton. by vm_compute.
Defined.

Lemma swarm_keeps_gone_peer_witness :
  ∃ s', rtc (scan_step [1%Z] chat)
      (mkSystem {[talker := speaks talker]} [] (insert_swarm Swarm.new [1%Z] chat), ScanNext [talker])
      (s', ScanDone) ∧ connected s' = ∅ ∧ talker ∈ peers (swarm s') [1%Z].
Proof.
  destruct (swarm_keeps_gone_peer (mkSystem {[talker := speaks talker]} [] Swarm.new)
    talker (speaks talker) chat [1%Z]) as (s' & Hr & Hc & _ & Hp & _).
  - reflexivity.
  - unfold speaks. by apply elem_of_singleton.
  - reflexivity.
  - reflexivity.
  - exists s'. split_and!; [exact Hr|exact Hc|exact Hp].
Defined.

End witnesses.
