(* ===== verification/EventEmitter.v ===== *)
(** * The event emitter

    Models [utils/eventemitter/src/eventemitter.rs].  The registry maps a topic
    and an event id to the senders of its listeners; a listener holds the
    receiver.  Both ends name a bounded channel of the shared store [chans].
    The methods that run under the lock are functions; an emission sends to its
    listeners concurrently, so that emissions, receives and drops interleave as
    steps.  Bounded channels are the async-channel crate's: a send waits for
    room, and fails when the receiver is gone. *)

From S2P Require Import Prelude.

(** The senders of the listeners of one event id, by listener id, and the map of
    all of them. *)
Abbreviation listeners := (gmap Z nat).
Abbreviation registry T := (gmap T (gmap string (gmap Z nat))).

Section emitter.
Context {T : Type} `{Countable T}.
(** The values of all event types, and the id of a value's type. *)
Context {V : Type} (event_id : V → string).

(** The channel of a listener, [alive] while the listener is not dropped, with
    what the listener was registered for.  The rest is history: [listening] until
    a listener of its topic, event id and identifier is removed; [due] are the
    events emitted on its topic with its event id while it was listening, [got]
    those received from it, and [lost] those dropped with their emission before
    they were sent. *)
Record chan := mkChan {
  chan_topic : T;
  chan_event : string;
  chan_id : Z;
  buf : list V;
  alive : bool;
  listening : bool;
  due : list V;
  got : list V;
  lost : list V;
}.

Inductive emitter_error :=
| EmIO
| EventEmitterError (s : string)
| EmChannelSend
| EmChannelRecv.

(** An emission in progress: [send]'s futures still pending, and the listeners
    whose sends failed. *)
Record emission := mkEmission {
  em_topic : T;
  em_value : V;
  em_pending : list (Z * nat);
  em_failed : list Z;
}.

(** ** Methods under the lock *)


Definition new_registry : registry T := ∅.

(** [register]: [random_ids] is the stream of random ids; the loop takes the
    first that is free. *)
Fixpoint fresh_id (random_ids : list Z) (ls : listeners) : option Z :=
  match random_ids with
  | [] => None
  | id :: random_ids =>
      if decide (is_Some (ls !! id)) then fresh_id random_ids ls else Some id
  end.

(** The listeners of an event id, those of [entry(..).or_default()]. *)
Definition listeners_of (r : registry T) (topic : T) (eid : string) : listeners :=
  from_option id ∅ (from_option id ∅ (r !! topic) !! eid).

Definition set_listeners (r : registry T) (topic : T) (eid : string) (ls : listeners) : registry T :=
  <[topic := <[eid := ls]> (from_option id ∅ (r !! topic))]> r.

Definition register (r : registry T) (topic : T) (eid : string) (random_ids : list Z) (c : nat) :
    option (Z * registry T) :=
  id ← fresh_id random_ids (listeners_of r topic eid);
  Some (id, set_listeners r topic eid (<[id := c]> (listeners_of r topic eid))).

Definition has_listeners (r : registry T) (topic : T) : bool :=
  bool_decide (is_Some (r !! topic)).

Definition clear (r : registry T) : registry T := ∅.

Definition unregister_topic (r : registry T) (topic : T) : registry T := delete topic r.

(** The senders an emission clones, in the order of the map. *)
Definition send (map_iter : listeners → list (Z * nat)) (r : registry T) (topic : T) (v : V) :
    result emitter_error (list (Z * nat)) :=
  match r !! topic with
  | None => Err (EventEmitterError "Emit an event to a non-existent topic")
  | Some event_ids =>
      match event_ids !! event_id v with
      | None => Ok []
      | Some ls => Ok (map_iter ls)
      end
  end.

Definition remove (r : registry T) (topic : T) (eid : string) (ids : list Z) : registry T :=
  match r !! topic with
  | None => r
  | Some event_ids =>
      match event_ids !! eid with
      | None => r
      | Some ls => <[topic := <[eid := foldl (λ ls id, delete id ls) ls ids]> event_ids]> r
      end
  end.


(** ** The emitter with its listeners and emissions *)

Record state := mkState {
  reg : registry T;
  chans : gmap nat chan;
  emissions : list emission;
}.

Context (buffer_size : nat).
Context (map_iter : listeners → list (Z * nat)).

Definition new_chan (topic : T) (eid : string) (id : Z) : chan :=
  mkChan topic eid id [] true true [] [] [].

Definition set_buf (b : list V) (g : list V) (ch : chan) : chan :=
  mkChan (chan_topic ch) (chan_event ch) (chan_id ch) b (alive ch) (listening ch) (due ch) g (lost ch).

Definition set_dropped (ch : chan) : chan :=
  mkChan (chan_topic ch) (chan_event ch) (chan_id ch) (buf ch) false (listening ch) (due ch) (got ch) (lost ch).

(** An emission, as the listeners are entitled to see it. *)
Definition note_emit (topic : T) (v : V) (ch : chan) : chan :=
  mkChan (chan_topic ch) (chan_event ch) (chan_id ch) (buf ch) (alive ch) (listening ch)
    (due ch ++
      (if decide (listening ch = true ∧ chan_topic ch = topic ∧ chan_event ch = event_id v) then [v] else []))
    (got ch) (lost ch).

(** A removal of listeners. *)
Definition unlisten (removed : T → string → Z → bool) (ch : chan) : chan :=
  mkChan (chan_topic ch) (chan_event ch) (chan_id ch) (buf ch) (alive ch)
    (listening ch && negb (removed (chan_topic ch) (chan_event ch) (chan_id ch))) (due ch) (got ch) (lost ch).

Definition among (topic : T) (eid : string) (ids : list Z) (topic' : T) (eid' : string) (id : Z) : bool :=
  bool_decide (topic' = topic) && bool_decide (eid' = eid) && bool_decide (id ∈ ids).

Definition add_lost (v : V) (ch : chan) : chan :=
  mkChan (chan_topic ch) (chan_event ch) (chan_id ch) (buf ch) (alive ch) (listening ch) (due ch) (got ch)
    (lost ch ++ [v]).

Definition at_all (f : chan → chan) (cs : list (Z * nat)) (m : gmap nat chan) : gmap nat chan :=
  foldr (λ lc m, alter f lc.2 m) m cs.

Inductive step : state → state → Prop :=
| step_register s topic eid ids id r c :
    register (reg s) topic eid ids c = Some (id, r) → chans s !! c = None →
    step s (mkState r (<[c := new_chan topic eid id]> (chans s)) (emissions s))
| step_clear s :
    step s (mkState (clear (reg s)) (unlisten (λ _ _ _, true) <$> chans s) (emissions s))
| step_unregister_topic s topic :
    step s (mkState (unregister_topic (reg s) topic)
      (unlisten (λ topic' _ _, bool_decide (topic' = topic)) <$> chans s) (emissions s))
(** [EventListener::cancel], which a [recv] that fails calls too. *)
| step_cancel s c ch :
    chans s !! c = Some ch →
    step s (mkState (remove (reg s) (chan_topic ch) (chan_event ch) [chan_id ch])
      (unlisten (among (chan_topic ch) (chan_event ch) [chan_id ch]) <$> chans s) (emissions s))
(** [emit_by_topic]: [send] takes the senders under the lock, or there is no such
    topic; *)
| step_emit s topic v ps :
    send map_iter (reg s) topic v = Ok ps →
    step s (mkState (reg s) (note_emit topic v <$> chans s) (emissions s ++ [mkEmission topic v ps []]))
| step_emit_refused s topic v e :
    send map_iter (reg s) topic v = Err e →
    step s (mkState (reg s) (note_emit topic v <$> chans s) (emissions s))
(** its futures complete in any order, *)
| step_sent s i em ps1 lid c ps2 ch :
    emissions s !! i = Some em → em_pending em = ps1 ++ (lid, c) :: ps2 →
    chans s !! c = Some ch → alive ch = true → (length (buf ch) < buffer_size)%nat →
    step s (mkState (reg s) (<[c := set_buf (buf ch ++ [em_value em]) (got ch) ch]> (chans s))
      (<[i := mkEmission (em_topic em) (em_value em) (ps1 ++ ps2) (em_failed em)]> (emissions s)))
| step_failed s i em ps1 lid c ps2 ch :
    emissions s !! i = Some em → em_pending em = ps1 ++ (lid, c) :: ps2 →
    chans s !! c = Some ch → alive ch = false →
    step s (mkState (reg s) (chans s)
      (<[i := mkEmission (em_topic em) (em_value em) (ps1 ++ ps2) (em_failed em ++ [lid])]>
        (emissions s)))
(** then the failed listeners are removed. *)
| step_emitted s i em :
    emissions s !! i = Some em → em_pending em = [] →
    step s (mkState
      (if bool_decide (em_failed em = []) then reg s
       else remove (reg s) (em_topic em) (event_id (em_value em)) (em_failed em))
      (unlisten (among (em_topic em) (event_id (em_value em)) (em_failed em)) <$> chans s)
      (delete i (emissions s)))
(** An emission whose future is dropped. *)
| step_abandoned s i em :
    emissions s !! i = Some em →
    step s (mkState (reg s) (at_all (add_lost (em_value em)) (em_pending em) (chans s))
      (delete i (emissions s)))
(** A listener receives, or is dropped. *)
| step_recv s c ch v rest :
    chans s !! c = Some ch → alive ch = true → buf ch = v :: rest →
    step s (mkState (reg s) (<[c := set_buf rest (got ch ++ [v]) ch]> (chans s)) (emissions s))
| step_drop s c ch :
    chans s !! c = Some ch →
    step s (mkState (reg s) (<[c := set_dropped ch]> (chans s)) (emissions s)).

Definition initial : state := mkState new_registry ∅ [].

End emitter.
