(* ===== verification/EventEmitterSpec.v ===== *)
(** * Correctness of the event emitter

    Every event emitted on a topic reaches every listener that listens to it, once.
    What a listener is due is read off the emissions and registrations, not off what
    the emitter did with them. *)

From S2P Require Import Prelude EventEmitter.

Section spec.
Context {T : Type} `{Countable T}.
Context {V : Type} (event_id : V → string).
Context (buffer_size : nat).
Context (map_iter : listeners → list (Z * nat)).

Abbreviation step := (step event_id buffer_size map_iter).
Abbreviation state := (@state T _ _ V).
Abbreviation emission := (@emission T V).
Abbreviation chan := (@chan T V).
Abbreviation registry := (registry T).

(** The events still to be sent to a channel. *)
Definition of_chan (c : nat) (em : emission) : list V :=
  map (λ _, em_value em) (List.filter (λ lc, bool_decide (lc.2 = c)) (em_pending em)).

Definition pending_for (c : nat) (ems : list emission) : list V := concat (map (of_chan c) ems).

(** A channel is that of the listener of an identifier. *)
Definition listens (ch : chan) (topic : T) (eid : string) (lid : Z) : Prop :=
  listening ch = true ∧ chan_topic ch = topic ∧ chan_event ch = eid ∧ chan_id ch = lid.

Record inv (s : state) : Prop := {
  (** Nothing is lost or duplicated on the way to a live listener. *)
  inv_once c ch : chans s !! c = Some ch → alive ch = true →
    due ch ≡ₚ got ch ++ buf ch ++ lost ch ++ pending_for c (emissions s);
  inv_bound c ch : chans s !! c = Some ch → length (buf ch) ≤ buffer_size;
  (** The registry holds the listeners that listen. *)
  inv_listen topic eid lid c : listeners_of (reg s) topic eid !! lid = Some c ↔
    ∃ ch, chans s !! c = Some ch ∧ listens ch topic eid lid;
  (** Listeners only ever see events of their event id. *)
  inv_pending i em lid c : emissions s !! i = Some em → (lid, c) ∈ em_pending em →
    ∃ ch, chans s !! c = Some ch ∧ chan_event ch = event_id (em_value em);
  inv_typed c ch v : chans s !! c = Some ch → v ∈ buf ch → event_id v = chan_event ch;
}.

(** ** The registry *)

Lemma listeners_of_set (r : registry) tp eid ls tp' eid' :
  listeners_of (set_listeners r tp eid ls) tp' eid' =
    if decide (tp' = tp ∧ eid' = eid) then ls else listeners_of r tp' eid'.
Proof.
  unfold listeners_of, set_listeners. destruct (decide (tp' = tp)) as [->|Htp].
  - rewrite lookup_insert_eq. simpl. destruct (decide (eid' = eid)) as [->|He].
    + rewrite lookup_insert_eq, decide_True by done. done.
    + rewrite lookup_insert_ne, decide_False by naive_solver. done.
  - rewrite lookup_insert_ne, decide_False by naive_solver. done.
Qed.

Lemma foldl_delete_lookup (ids : list Z) (ls : listeners) lid c :
  foldl (λ ls id, delete id ls) ls ids !! lid = Some c ↔ ls !! lid = Some c ∧ lid ∉ ids.
Proof.
  revert ls. induction ids as [|i ids IH]; intros ls; simpl; [set_solver|].
  rewrite IH, lookup_delete_Some. set_solver.
Qed.

Lemma listeners_of_remove (r : registry) tp eid ids tp' eid' lid c :
  listeners_of (remove r tp eid ids) tp' eid' !! lid = Some c ↔
  listeners_of r tp' eid' !! lid = Some c ∧ among tp eid ids tp' eid' lid = false.
Proof.
  assert (among tp eid ids tp' eid' lid = false ↔ ¬ (tp' = tp ∧ eid' = eid ∧ lid ∈ ids)) as ->.
  { unfold among. rewrite <-not_true_iff_false, !andb_true_iff, !bool_decide_eq_true. tauto. }
  assert (listeners_of r tp eid = ∅ → listeners_of r tp' eid' !! lid = Some c ↔
    listeners_of r tp' eid' !! lid = Some c ∧ ¬ (tp' = tp ∧ eid' = eid ∧ lid ∈ ids)) as Hnone.
  { intros Hn. split; [|tauto]. intros Hl. split; [done|]. intros (-> & -> & _).
    by rewrite Hn, lookup_empty in Hl. }
  unfold remove. destruct (r !! tp) as [es|] eqn:Htp; [|apply Hnone; unfold listeners_of; by rewrite Htp].
  destruct (es !! eid) as [ls|] eqn:He; [|apply Hnone; unfold listeners_of; rewrite Htp; simpl; by rewrite He].
  assert (listeners_of r tp eid = ls) as Hls by (unfold listeners_of; rewrite Htp; simpl; by rewrite He).
  pose proof (listeners_of_set r tp eid (foldl (λ ls id, delete id ls) ls ids) tp' eid') as Hset.
  unfold set_listeners in Hset. rewrite Htp in Hset. simpl in Hset. rewrite Hset.
  destruct (decide _) as [[-> ->]|]; [rewrite foldl_delete_lookup, Hls|]; tauto.
Qed.

Lemma fresh_id_spec ids (ls : listeners) id : fresh_id ids ls = Some id → ls !! id = None.
Proof.
  induction ids as [|i ids IH]; simpl; [done|]. case_decide as Hi; [done|].
  intros [= <-]. by apply eq_None_not_Some.
Qed.

Context (map_iter_perm : ∀ ls, map_iter ls ≡ₚ map_to_list ls).

(** [send] takes the senders of the listeners. *)
Lemma send_listeners (r : registry) topic v :
  match send event_id map_iter r topic v with
  | Ok ps => ps ≡ₚ map_to_list (listeners_of r topic (event_id v))
  | Err _ => listeners_of r topic (event_id v) = ∅
  end.
Proof using map_iter_perm.
  unfold send, listeners_of. destruct (r !! topic) as [es|]; [|done]. simpl.
  destruct (es !! event_id v) as [ls|]; simpl; [apply map_iter_perm|]. by rewrite map_to_list_empty.
Qed.

(** How often an emission sends to a channel. *)
Abbreviation count c ps := (length (List.filter (λ lc : Z * nat, bool_decide (lc.2 = c)) ps)).

Lemma count_filter c (ps : list (Z * nat)) : count c ps = length (filter (λ lc, lc.2 = c) ps).
Proof.
  induction ps as [|[l c'] ps IH]; [done|]. rewrite filter_cons. simpl.
  case_bool_decide; case_decide; simpl; by rewrite ?IH.
Qed.

Lemma count_perm c (ps ps' : list (Z * nat)) : ps ≡ₚ ps' → count c ps = count c ps'.
Proof. intros Hp. by rewrite !count_filter, Hp. Qed.

Lemma count_none c (ls : listeners) : (∀ lid, ls !! lid ≠ Some c) → count c (map_to_list ls) = 0.
Proof.
  intros Hno. rewrite count_filter. apply length_zero_iff_nil, elem_of_nil_inv.
  intros [lid c'] [Hc Hin%elem_of_map_to_list]%list_elem_of_filter. simpl in Hc. subst. by apply (Hno lid).
Qed.

Lemma count_one c (ls : listeners) lid :
  ls !! lid = Some c → (∀ lid', ls !! lid' = Some c → lid' = lid) → count c (map_to_list ls) = 1.
Proof.
  intros Hl Hinj. rewrite <-(count_perm c _ _ (map_to_list_delete ls lid c Hl)). simpl.
  rewrite bool_decide_true by done. simpl. f_equal. apply count_none.
  intros lid' [Hne Hl']%lookup_delete_Some. by apply Hne, eq_sym, Hinj.
Qed.

(** Every listener that listens is sent to once, and nobody else. *)
Lemma sent_once s topic v c ch :
  inv s → chans s !! c = Some ch →
  count c (map_to_list (listeners_of (reg s) topic (event_id v))) =
    if decide (listening ch = true ∧ chan_topic ch = topic ∧ chan_event ch = event_id v) then 1 else 0.
Proof.
  intros Hinv Hc. destruct (decide _) as [(Hl & Ht & He)|Hno].
  - apply (count_one _ _ (chan_id ch)); [apply (inv_listen s Hinv); by exists ch|].
    intros lid' (ch' & Hc' & _ & _ & _ & <-)%(inv_listen s Hinv). by simplify_eq.
  - apply count_none. intros lid' (ch' & Hc' & ? & ? & ? & _)%(inv_listen s Hinv). simplify_eq. by apply Hno.
Qed.

(** ** Channels and emissions *)

(** Two channels that differ at most in their history. *)
Definition same_chan (a b : chan) : Prop :=
  chan_event a = chan_event b ∧ buf a = buf b ∧ alive a = alive b ∧ got a = got b ∧
  ∀ topic eid lid, listens a topic eid lid ↔ listens b topic eid lid.

Lemma at_all_lookup (f : chan → chan) cs m c ch :
  (∀ x, same_chan (f x) x) → at_all f cs m !! c = Some ch →
  ∃ ch0, m !! c = Some ch0 ∧ same_chan ch ch0 ∧
    ch = Nat.iter (length (List.filter (λ lc : Z * nat, bool_decide (lc.2 = c)) cs)) f ch0.
Proof.
  intros Hf. revert ch. induction cs as [|[lid c'] cs IH]; intros ch; simpl.
  { intros Hc. exists ch. unfold same_chan. done. }
  case_bool_decide as Hc'; simpl.
  - subst c'. rewrite lookup_alter_eq. intros (ch1 & Hch1 & ->)%fmap_Some.
    destruct (IH ch1 Hch1) as (ch0 & Hm & Hsame & ->). exists ch0. split_and!; [done| |done].
    set (ch1 := Nat.iter _ f ch0) in *. destruct (Hf ch1) as (?&?&?&?&Hl), Hsame as (?&?&?&?&Hl').
    split_and!; [by etrans..|]. intros topic eid id. by rewrite (Hl topic eid id), (Hl' topic eid id).
  - rewrite lookup_alter_ne by done. apply IH.
Qed.

Lemma at_all_lookup_mono (f : chan → chan) cs m c ch :
  (∀ x, same_chan (f x) x) → m !! c = Some ch →
  ∃ ch', at_all f cs m !! c = Some ch' ∧ same_chan ch' ch.
Proof.
  intros Hf Hm. destruct (at_all f cs m !! c) as [ch'|] eqn:Hc.
  - destruct (at_all_lookup f cs m c ch' Hf Hc) as (ch0 & ? & ? & _). simplify_eq. by eauto.
  - exfalso. revert Hc. induction cs as [|[lid c'] cs IH]; simpl; [congruence|].
    rewrite lookup_alter_None. done.
Qed.

Lemma iter_add_lost v k (ch : chan) :
  due (Nat.iter k (add_lost v) ch) = due ch ∧
  lost (Nat.iter k (add_lost v) ch) = lost ch ++ replicate k v.
Proof.
  induction k as [|k [IH1 IH2]]; simpl; [by rewrite app_nil_r|].
  rewrite IH2, <-app_assoc. split; [done|]. by rewrite <-replicate_cons_app.
Qed.

Lemma of_chan_replicate c em :
  of_chan c em =
  replicate (length (List.filter (λ lc : Z * nat, bool_decide (lc.2 = c)) (em_pending em)))
    (em_value em).
Proof. unfold of_chan. by induction (List.filter _ _) as [|x l IH]; simpl; f_equal. Qed.

Lemma pending_for_app c ems ems' :
  pending_for c (ems ++ ems') = pending_for c ems ++ pending_for c ems'.
Proof. unfold pending_for. by rewrite map_app, concat_app. Qed.

Lemma pending_for_split c ems i em :
  ems !! i = Some em → pending_for c ems ≡ₚ of_chan c em ++ pending_for c (delete i ems).
Proof.
  revert i. induction ems as [|x ems IH]; intros [|i] Hi; simplify_eq/=; [done|].
  unfold pending_for in *. simpl. rewrite (IH i Hi), !app_assoc. f_equiv. apply Permutation_app_comm.
Qed.

Lemma pending_for_insert c ems i em em' :
  ems !! i = Some em →
  pending_for c (<[i := em']> ems) ≡ₚ of_chan c em' ++ pending_for c (delete i ems).
Proof.
  revert i. induction ems as [|x ems IH]; intros [|i] Hi; simplify_eq/=; [done|].
  unfold pending_for in *. simpl. rewrite (IH i Hi), !app_assoc. f_equiv. apply Permutation_app_comm.
Qed.

Lemma of_chan_pop c em ps1 lid c' ps2 failed :
  em_pending em = ps1 ++ (lid, c') :: ps2 →
  of_chan c em ≡ₚ (if decide (c' = c) then [em_value em] else []) ++
    of_chan c (mkEmission (em_topic em) (em_value em) (ps1 ++ ps2) failed).
Proof.
  intros Hp. rewrite !of_chan_replicate. simpl. rewrite Hp, !List.filter_app, !length_app. simpl.
  case_bool_decide as Hc; [rewrite decide_True by done|rewrite decide_False by done]; [|done].
  simpl. by rewrite Nat.add_succ_r.
Qed.

(** ** Preservation *)

Lemma unlisten_listens P (ch : chan) topic eid lid :
  listens (unlisten P ch) topic eid lid ↔ listens ch topic eid lid ∧ P topic eid lid = false.
Proof.
  unfold listens. cbn. rewrite andb_true_iff, negb_true_iff. split; [intros ([??] & <- & <- & <-)|intros ((? & <- & <- & <-) & ?)]; done.
Qed.

Lemma inv_unlisten s r P :
  inv s → (∀ topic eid lid c, listeners_of r topic eid !! lid = Some c ↔
    listeners_of (reg s) topic eid !! lid = Some c ∧ P topic eid lid = false) →
  inv (mkState r (unlisten P <$> chans s) (emissions s)).
Proof.
  intros [H1 H2 H3 H4 H5] Hr. split; simpl.
  - intros c ch (ch0 & <- & Hc)%lookup_fmap_Some. by apply (H1 c ch0).
  - intros c ch (ch0 & <- & Hc)%lookup_fmap_Some. by apply (H2 c ch0).
  - intros topic eid lid c. rewrite Hr, H3. split.
    + intros [(ch & Hc & Hl) HP]. exists (unlisten P ch). rewrite lookup_fmap, Hc. by rewrite unlisten_listens.
    + intros (ch & (ch0 & <- & Hc)%lookup_fmap_Some & [Hl HP]%unlisten_listens). by split; [exists ch0|].
  - intros i em lid c Hi Hin. destruct (H4 _ _ _ _ Hi Hin) as (ch & Hc & <-).
    exists (unlisten P ch). by rewrite lookup_fmap, Hc.
  - intros c ch v (ch0 & <- & Hc)%lookup_fmap_Some. by apply (H5 c ch0).
Qed.

Lemma pending_for_fresh s c : inv s → chans s !! c = None → pending_for c (emissions s) = [].
Proof.
  intros Hinv Hfresh. apply concat_nil_Forall, Forall_fmap, Forall_forall. intros em [i Hi]%list_elem_of_lookup.
  simpl. rewrite of_chan_replicate. destruct (List.filter _ _) as [|[lid c'] l] eqn:Hf; [done|].
  assert ((lid, c') ∈ em_pending em ∧ c' = c) as [Hin ->].
  { assert (In (lid, c') (List.filter (λ lc : Z * nat, bool_decide (lc.2 = c)) (em_pending em))) as Hin
      by (rewrite Hf; by left).
    apply filter_In in Hin as [Hin Hb%bool_decide_eq_true]. by rewrite list_elem_of_In. }
  destruct (inv_pending s Hinv _ _ _ _ Hi Hin) as (ch & Hch & _). congruence.
Qed.

Lemma inv_register s topic eid ids id r c :
  inv s → register (reg s) topic eid ids c = Some (id, r) → chans s !! c = None →
  inv (mkState r (<[c := new_chan topic eid id]> (chans s)) (emissions s)).
Proof.
  intros Hinv Hreg Hfresh. pose proof (pending_for_fresh s c Hinv Hfresh) as Hp. destruct Hinv as [H1 H2 H3 H4 H5].
  assert (∀ c' ch, chans s !! c' = Some ch → <[c := new_chan topic eid id]> (chans s) !! c' = Some ch) as Hold.
  { intros c' ch Hc'. rewrite lookup_insert_ne; [done|]. congruence. }
  unfold register in Hreg. apply bind_Some in Hreg as (fid & Hfid & [= -> <-]). apply fresh_id_spec in Hfid.
  split; simpl.
  - intros c' ch [(<- & <-)|[_ Hc']]%lookup_insert_Some; [intros _|by apply H1]. simpl. by rewrite Hp.
  - intros c' ch [(<- & <-)|[_ Hc']]%lookup_insert_Some; [simpl; lia|by eauto].
  - intros topic' eid' lid c'. rewrite listeners_of_set. split.
    + intros Hl. assert (topic' = topic ∧ eid' = eid ∧ lid = id ∧ c' = c ∨
        listeners_of (reg s) topic' eid' !! lid = Some c') as [(-> & -> & -> & ->)|Hl'].
      { destruct (decide _) as [[-> ->]|]; [|by right].
        apply lookup_insert_Some in Hl as [[<- <-]|[_ Hl]]; [by left|by right]. }
      * exists (new_chan topic eid id). by rewrite lookup_insert_eq.
      * apply H3 in Hl' as (ch & Hc & ?). exists ch. by split; [apply Hold|].
    + intros (ch & Hc & Hl). apply lookup_insert_Some in Hc as [[<- <-]|[_ Hc]].
      * destruct Hl as (_ & <- & <- & <-). cbn. by rewrite decide_True, lookup_insert_eq.
      * assert (listeners_of (reg s) topic' eid' !! lid = Some c') as Hl' by (apply H3; by exists ch).
        destruct (decide _) as [[-> ->]|]; [|done]. rewrite lookup_insert_ne; [done|]. congruence.
  - intros i em lid c' Hi Hin. destruct (H4 _ _ _ _ Hi Hin) as (ch & Hch & ?). eauto.
  - intros c' ch v [(<- & <-)|[_ Hc']]%lookup_insert_Some; [by intros ?%not_elem_of_nil|by eauto].
Qed.

(** An emission that sends to [ps]. *)
Lemma inv_emit s topic v ps :
  inv s → ps ≡ₚ map_to_list (listeners_of (reg s) topic (event_id v)) →
  inv (mkState (reg s) (note_emit event_id topic v <$> chans s) (emissions s ++ [mkEmission topic v ps []])).
Proof.
  intros Hinv Hps. pose proof Hinv as [H1 H2 H3 H4 H5]. split; simpl.
  - intros c ch (ch0 & <- & Hc)%lookup_fmap_Some Hal. cbn in *.
    rewrite pending_for_app. unfold pending_for at 2. simpl. rewrite app_nil_r, of_chan_replicate. simpl.
    rewrite (count_perm c _ _ Hps), (sent_once s topic v c ch0 Hinv Hc), (H1 c ch0 Hc Hal), <-!app_assoc.
    by destruct (decide _).
  - intros c ch (ch0 & <- & Hc)%lookup_fmap_Some. by apply (H2 c ch0).
  - intros topic' eid lid c. rewrite H3. split.
    + intros (ch & Hc & ?). exists (note_emit event_id topic v ch). by rewrite lookup_fmap, Hc.
    + intros (ch & (ch0 & <- & Hc)%lookup_fmap_Some & ?). by exists ch0.
  - intros i em lid c Hi Hin.
    assert (∃ ch, chans s !! c = Some ch ∧ chan_event ch = event_id (em_value em)) as (ch & Hch & <-).
    { apply lookup_app_Some in Hi as [Hi|[_ Hi]]; [by eauto|].
      apply list_lookup_singleton_Some in Hi as [_ <-]. simpl in *.
      rewrite Hps, elem_of_map_to_list, H3 in Hin. destruct Hin as (ch & ? & _ & _ & ? & _). by exists ch. }
    exists (note_emit event_id topic v ch). by rewrite lookup_fmap, Hch.
  - intros c ch x (ch0 & <- & Hc)%lookup_fmap_Some. by apply (H5 c ch0).
Qed.

(** When nobody listens, an emission is due to nobody. *)
Lemma note_emit_nobody s topic v c ch :
  inv s → listeners_of (reg s) topic (event_id v) = ∅ → chans s !! c = Some ch →
  note_emit event_id topic v ch = ch.
Proof.
  intros Hinv Hno Hc. unfold note_emit. rewrite decide_False; [by rewrite app_nil_r; destruct ch|].
  intros (Hl & Ht & He). assert (listeners_of (reg s) topic (event_id v) !! chan_id ch = Some c) as Hs
    by (apply (inv_listen s Hinv); by exists ch).
  by rewrite Hno, lookup_empty in Hs.
Qed.

Lemma inv_abandoned s i em :
  inv s → emissions s !! i = Some em →
  inv (mkState (reg s) (at_all (add_lost (em_value em)) (em_pending em) (chans s))
    (delete i (emissions s))).
Proof.
  intros [H1 H2 H3 H4 H5] Hi.
  assert (∀ x : chan, same_chan (add_lost (em_value em) x) x) as Hf by done.
  split; simpl.
  - intros c ch Hc Hal. destruct (at_all_lookup _ _ _ _ _ Hf Hc) as (ch0 & Hc0 & (_ & Hb & Ha & Hg & _) & ->).
    set (k := length _) in *. destruct (iter_add_lost (em_value em) k ch0) as [-> ->].
    rewrite Hg, Hb. rewrite Ha in Hal. rewrite (H1 c ch0 Hc0 Hal), (pending_for_split c _ i em Hi).
    rewrite of_chan_replicate. fold k. by rewrite <-!app_assoc.
  - intros c ch Hc. destruct (at_all_lookup _ _ _ _ _ Hf Hc) as (ch0 & Hc0 & (_ & -> & _) & _). eauto.
  - intros topic eid lid c. rewrite H3. split.
    + intros (ch & Hch & Hl). destruct (at_all_lookup_mono _ (em_pending em) _ _ _ Hf Hch)
        as (ch' & ? & _ & _ & _ & _ & Hl'). exists ch'. by rewrite Hl'.
    + intros (ch & Hch & Hl). destruct (at_all_lookup _ _ _ _ _ Hf Hch) as (ch0 & ? & (_ & _ & _ & _ & Hl') & _).
      exists ch0. by rewrite <-Hl'.
  - intros j em' lid c Hj Hin.
    assert (∃ j', emissions s !! j' = Some em') as [j' Hj'].
    { apply list_elem_of_lookup_2 in Hj.
      apply list_elem_of_lookup. eapply elem_of_sublist; [done|apply sublist_delete]. }
    destruct (H4 _ _ _ _ Hj' Hin) as (ch & Hch & <-).
    destruct (at_all_lookup_mono _ (em_pending em) _ _ _ Hf Hch) as (ch' & ? & ? & _). eauto.
  - intros c ch x Hc Hx. destruct (at_all_lookup _ _ _ _ _ Hf Hc) as (ch0 & Hc0 & (-> & Hb & _) & _).
    rewrite Hb in Hx. eauto.
Qed.

(** The pending sends of an emission only shrink. *)
Lemma inv_pending_pop s i em ps1 x ps2 failed :
  inv s → emissions s !! i = Some em → em_pending em = ps1 ++ x :: ps2 →
  ∀ j em' lid c,
    <[i := mkEmission (em_topic em) (em_value em) (ps1 ++ ps2) failed]> (emissions s) !! j = Some em' →
    (lid, c) ∈ em_pending em' →
    ∃ ch, chans s !! c = Some ch ∧ chan_event ch = event_id (em_value em').
Proof.
  intros Hinv Hi Hp j em' lid c Hj Hin.
  apply list_lookup_insert_Some in Hj as [(<- & <- & _)|[_ Hj]].
  - simpl in *. eapply (inv_pending s Hinv i em lid); [done|]. rewrite Hp. set_solver.
  - by eapply (inv_pending s Hinv j em' lid).
Qed.

(** A channel that keeps what it was registered for and whether it listens. *)
Lemma insert_listens s c ch ch' topic eid lid c' :
  chans s !! c = Some ch → (∀ topic eid lid, listens ch' topic eid lid ↔ listens ch topic eid lid) →
  (∃ x, chans s !! c' = Some x ∧ listens x topic eid lid) ↔
  ∃ x, <[c := ch']> (chans s) !! c' = Some x ∧ listens x topic eid lid.
Proof.
  intros Hc Hl. destruct (decide (c = c')) as [<-|Hne]; [|by rewrite lookup_insert_ne].
  rewrite lookup_insert_eq. split; intros (x & Hx & ?); simplify_eq.
  - exists ch'. by rewrite Hl.
  - exists ch. by rewrite <-Hl.
Qed.

Lemma inv_sent s i em ps1 lid c ps2 ch :
  inv s → emissions s !! i = Some em → em_pending em = ps1 ++ (lid, c) :: ps2 →
  chans s !! c = Some ch → alive ch = true → length (buf ch) < buffer_size →
  inv (mkState (reg s)
    (<[c := set_buf (buf ch ++ [em_value em]) (got ch) ch]> (chans s))
    (<[i := mkEmission (em_topic em) (em_value em) (ps1 ++ ps2) (em_failed em)]> (emissions s))).
Proof.
  intros Hinv Hi Hp Hc Hal Hroom.
  pose proof (inv_pending_pop s i em ps1 (lid, c) ps2 (em_failed em) Hinv Hi Hp) as Hpend.
  pose proof (inv_pending s Hinv i em lid c Hi ltac:(rewrite Hp; set_solver)) as (ch' & Hch' & Hty).
  simplify_eq. destruct Hinv as [H1 H2 H3 H4 H5].
  set (ch1 := set_buf _ _ _).
  assert (∀ c' x, chans s !! c' = Some x →
    ∃ y, <[c := ch1]> (chans s) !! c' = Some y ∧ chan_event y = chan_event x) as Hold.
  { intros c' x Hx. destruct (decide (c = c')) as [<-|Hne].
    - exists ch1. rewrite lookup_insert_eq. simplify_eq. done.
    - exists x. by rewrite lookup_insert_ne. }
  split; simpl.
  - intros c' x [(<- & <-)|[Hne Hx]]%lookup_insert_Some Hx'; simpl.
    + rewrite (pending_for_insert c _ i em) by done.
      rewrite (H1 c ch Hc Hal), (pending_for_split c _ i em Hi).
      rewrite (of_chan_pop c em ps1 lid c ps2 (em_failed em) Hp), decide_True by done.
      rewrite <-!app_assoc. do 2 f_equiv. simpl. symmetry. apply Permutation_middle.
    + rewrite (pending_for_insert c' _ i em) by done.
      rewrite (H1 c' x Hx Hx'), (pending_for_split c' _ i em Hi).
      by rewrite (of_chan_pop c' em ps1 lid c ps2 (em_failed em) Hp), decide_False by done.
  - intros c' x [(<- & <-)|[_ Hx]]%lookup_insert_Some; [|by eauto].
    simpl. rewrite length_app. simpl. lia.
  - intros topic eid lid' c'. rewrite H3. by apply (insert_listens s c ch).
  - intros j em' lid' c' Hj Hin. destruct (Hpend j em' lid' c' Hj Hin) as (x & Hx & <-). by apply Hold.
  - intros c' x v [(<- & <-)|[_ Hx]]%lookup_insert_Some; [|by eauto]. simpl.
    intros [Hv|Hv%list_elem_of_singleton]%elem_of_app; [by eauto|by subst].
Qed.

Lemma inv_failed s i em ps1 lid c ps2 ch :
  inv s → emissions s !! i = Some em → em_pending em = ps1 ++ (lid, c) :: ps2 →
  chans s !! c = Some ch → alive ch = false →
  inv (mkState (reg s) (chans s)
    (<[i := mkEmission (em_topic em) (em_value em) (ps1 ++ ps2) (em_failed em ++ [lid])]>
      (emissions s))).
Proof.
  intros Hinv Hi Hp Hc Hal.
  pose proof (inv_pending_pop s i em ps1 (lid, c) ps2 (em_failed em ++ [lid]) Hinv Hi Hp) as Hpend.
  destruct Hinv as [H1 H2 H3 H4 H5]. split; simpl; [|by eauto..].
  intros c' x Hx Hx'. rewrite (pending_for_insert c' _ i em) by done.
  rewrite (H1 c' x Hx Hx'), (pending_for_split c' _ i em Hi).
  rewrite (of_chan_pop c' em ps1 lid c ps2 (em_failed em ++ [lid]) Hp), decide_False; [done|].
  intros ->. congruence.
Qed.

Lemma inv_emitted s i em :
  inv s → emissions s !! i = Some em → em_pending em = [] →
  inv (mkState (reg s) (chans s) (delete i (emissions s))).
Proof.
  intros [H1 H2 H3 H4 H5] Hi Hp. split; simpl; [|by eauto|by eauto| |by eauto].
  - intros c x Hx Hx'. rewrite (H1 c x Hx Hx'), (pending_for_split c _ i em Hi).
    by rewrite of_chan_replicate, Hp.
  - intros j em' lid c Hj Hin. apply list_elem_of_lookup_2 in Hj.
    assert (em' ∈ emissions s) as [j' Hj']%list_elem_of_lookup
      by (eapply elem_of_sublist; [done|apply sublist_delete]).
    by eapply H4.
Qed.

Lemma inv_chan s c ch ch' :
  inv s → chans s !! c = Some ch → chan_event ch' = chan_event ch →
  (∀ topic eid lid, listens ch' topic eid lid ↔ listens ch topic eid lid) →
  (alive ch' = true → alive ch = true ∧ due ch' = due ch ∧ lost ch' = lost ch ∧
    got ch' ++ buf ch' = got ch ++ buf ch) →
  (∀ v, v ∈ buf ch' → v ∈ buf ch) → length (buf ch') ≤ length (buf ch) →
  inv (mkState (reg s) (<[c := ch']> (chans s)) (emissions s)).
Proof.
  intros [H1 H2 H3 H4 H5] Hc Hty Hls Hal Hsub Hlen.
  assert (∀ c' x, chans s !! c' = Some x →
    ∃ y, <[c := ch']> (chans s) !! c' = Some y ∧ chan_event y = chan_event x) as Hold.
  { intros c' x Hx. destruct (decide (c = c')) as [<-|Hne].
    - exists ch'. rewrite lookup_insert_eq. by simplify_eq.
    - exists x. by rewrite lookup_insert_ne. }
  split; simpl.
  - intros c' x [(<- & <-)|[_ Hx]]%lookup_insert_Some; [|by eauto].
    intros (Ha & Hd & Hl & Hgb)%Hal. rewrite Hd, Hl, (H1 c ch Hc Ha), !app_assoc. by rewrite Hgb.
  - intros c' x [(<- & <-)|[_ Hx]]%lookup_insert_Some; [|by eauto]. specialize (H2 c ch Hc). lia.
  - intros topic eid lid c'. rewrite H3. by apply (insert_listens s c ch).
  - intros j em lid c' Hj Hin. destruct (H4 _ _ _ _ Hj Hin) as (x & Hx & <-). by apply Hold.
  - intros c' x v [(<- & <-)|[_ Hx]]%lookup_insert_Some; [|by eauto]. rewrite Hty. eauto.
Qed.

Lemma inv_emit_refused s topic v :
  inv s → listeners_of (reg s) topic (event_id v) = ∅ →
  mkState (reg s) (note_emit event_id topic v <$> chans s) (emissions s) = s.
Proof.
  intros Hinv Hno. destruct s as [r m ems]. f_equal. cbn. apply map_eq. intros c. rewrite lookup_fmap.
  destruct (m !! c) as [ch|] eqn:Hc; [cbn|done]. f_equal. by eapply (note_emit_nobody (mkState r m ems)).
Qed.

Lemma emitter_step_inv s s' : step s s' → inv s → inv s'.
Proof using map_iter_perm.
  intros Hstep Hinv. destruct Hstep as [| |s topic|s c ch Hc|s topic v ps Hs|s topic v e Hs| | |s i em Hi Hp| |
    s c ch v rest Hc Hal Hb|s c ch Hc].
  - by eapply inv_register.
  - apply inv_unlisten; [done|]. intros topic eid lid c. split; [|by intros [_ ?]].
    unfold listeners_of, EventEmitter.clear. rewrite lookup_empty. cbn. by rewrite lookup_empty.
  - apply inv_unlisten; [done|]. intros topic' eid lid c. rewrite bool_decide_eq_false.
    unfold listeners_of, unregister_topic. destruct (decide (topic' = topic)) as [->|Hne].
    + rewrite lookup_delete_eq. cbn. rewrite !lookup_empty. split; [done|by intros [_ []]].
    + rewrite lookup_delete_ne by done. tauto.
  - apply inv_unlisten; [done|]. intros. apply listeners_of_remove.
  - apply inv_emit; [done|]. pose proof (send_listeners (reg s) topic v) as Hl. by rewrite Hs in Hl.
  - pose proof (send_listeners (reg s) topic v) as Hl. rewrite Hs in Hl. by rewrite inv_emit_refused.
  - by eapply inv_sent.
  - by eapply inv_failed.
  - apply (inv_unlisten (mkState (reg s) (chans s) (delete i (emissions s)))); [by eapply inv_emitted|].
    intros topic eid lid c. cbn. case_bool_decide as Hf; [|apply listeners_of_remove].
    rewrite Hf. unfold among. rewrite (bool_decide_false (lid ∈ [])), andb_false_r by set_solver. tauto.
  - by eapply inv_abandoned.
  - eapply inv_chan; [done..| | |]; simpl; rewrite ?Hb.
    + intros _. by rewrite <-app_assoc.
    + intros v' Hv'. by right.
    + simpl. lia.
  - by eapply inv_chan.
Qed.

Lemma emitter_reachable_inv s : rtc step initial s → inv s.
Proof using map_iter_perm.
  assert (inv initial) as Hnew.
  { split; simpl.
    - intros c ch. by rewrite lookup_empty.
    - intros c ch. by rewrite lookup_empty.
    - intros topic eid lid c. split; [|intros (ch & Hc & _); by rewrite lookup_empty in Hc].
      unfold listeners_of, new_registry. rewrite lookup_empty. cbn. by rewrite lookup_empty.
    - intros i em lid c. by rewrite lookup_nil.
    - intros c ch v. by rewrite lookup_empty. }
  intros Hrtc. revert Hnew. induction Hrtc; eauto using emitter_step_inv.
Qed.

(** C20: Every listener gets every event once.  A listener is due the events that
    are emitted on its topic with its event id while it listens, that is, from its
    registration until it is cancelled, its topic or all topics are cleared, or a
    send to it failed.  Whatever the interleaving of emissions, receives,
    registrations and removals, for a listener that was not dropped these events
    are, counted with multiplicity, those it has received, those in its buffer, those
    whose emission was dropped, and those still being sent; its buffer stays within
    the configured size, and holds only events with the event id it listens to. *)
Theorem emitter_exactly_once s c ch :
  rtc step initial s → chans s !! c = Some ch →
  (alive ch = true → due ch ≡ₚ got ch ++ buf ch ++ lost ch ++ pending_for c (emissions s)) ∧
  length (buf ch) ≤ buffer_size ∧ (∀ v, v ∈ buf ch → event_id v = chan_event ch).
Proof using map_iter_perm.
  intros Hinv%emitter_reachable_inv Hc. destruct Hinv as [H1 H2 H3 H4 H5].
  split_and!; [by apply H1|by eapply H2|]. intros v. by eapply H5.
Qed.

End spec.

(** A topic never forgets that it was used.  [has_listeners] answers true
    for a topic once a listener was registered, even after every listener of it
    is gone; it does not say whether there are listeners. *)
Theorem has_listeners_stale {T} `{Countable T} (r : registry T) topic eid ids c id r' :
  register r topic eid ids c = Some (id, r') →
  has_listeners (remove r' topic eid [id]) topic = true ∧
  listeners_of (remove r' topic eid [id]) topic eid = delete id (listeners_of r topic eid).
Proof.
  unfold register, set_listeners, has_listeners, remove. destruct (fresh_id _ _) as [fid|]; simpl; [|done].
  intros [= <- <-]. rewrite lookup_insert_eq. simpl. rewrite lookup_insert_eq. simpl. split.
  - apply bool_decide_eq_true. rewrite lookup_insert_eq. by eexists.
  - unfold listeners_of at 1. rewrite lookup_insert_eq. simpl. rewrite lookup_insert_eq. simpl.
    apply delete_insert_eq.
Qed.

(** ** Witnesses *)

Section witnesses.

Definition kind_of (v : nat) : string := "event".

Definition by_id (ls : listeners) : list (Z * nat) := map_to_list ls.

Abbreviation run := (rtc (step kind_of 1 by_id) (@initial string _ _ nat)).

(** One listener on a topic, and an event emitted to it. *)
Definition one_listener : registry string := {[ "topic" := {[ "event" := {[ 5%Z := 0 ]} ]} ]}.

Lemma has_listeners_stale_witness :
  has_listeners (remove one_listener "topic" "event" [5%Z]) "topic" = true.
Proof.
  refine (proj1 (has_listeners_stale ∅ "topic" "event" [5%Z] 0 5%Z one_listener _)).
  vm_compute. reflexivity.
Defined.

Definition subscribed (b : list nat) : chan := mkChan "topic" "event" 5 b true true [42] [] [].

Definition delivered : @state string _ _ nat :=
  mkState one_listener {[ 0 := subscribed [42] ]} [mkEmission "topic" 42 [] []].

Lemma delivered_reachable : run delivered.
Proof.
  eapply rtc_l.
  { eapply (step_register _ _ _ _ "topic" "event" [5%Z] 5%Z one_listener 0); reflexivity. }
  eapply rtc_l; [apply (step_emit _ _ _ _ "topic" 42 [(5%Z, 0)]); reflexivity|].
  eapply rtc_l.
  { apply (step_sent _ _ _ _ 0 (mkEmission "topic" 42 [(5%Z, 0)] []) [] 5%Z 0 [] (subscribed []));
      try reflexivity. simpl. lia. }
  exact (rtc_refl _ delivered).
Qed.

Lemma emitter_exactly_once_witness :
  run delivered ∧ chans delivered !! 0 = Some (subscribed [42]) ∧
  [42] ≡ₚ [] ++ [42] ++ [] ++ pending_for 0 (emissions delivered).
Proof.
  assert (chans delivered !! 0 = Some (subscribed [42])) as Hc by reflexivity.
  split; [exact delivered_reachable|]. split; [exact Hc|].
  refine (proj1 (emitter_exactly_once kind_of 1 by_id _ delivered 0 _ delivered_reachable Hc) _).
  - intros ls. reflexivity.
  - reflexivity.
Defined.

End witnesses.
