(* ===== verification/Monitor.v ===== *)
(** * The monitor

    Models [p2p/src/monitor/mod.rs], the accessors of [p2p/src/monitor/event.rs]
    and the derive macro of [utils/eventemitter/derive/src/lib.rs], over the event
    emitter.

    The three event types of the monitor are the constructors of [MonitorValue],
    so that the downcast of a listener is a match on the constructor.  The macro is
    a function of the name and the attributes of a type.  A monitor is the emitter
    with the events that were given to [notify] and, for every listener, how many
    of them came before it; what the listeners can do with the emitter is a step
    relation. *)

From S2P Require Import Prelude Endpoint Message Config EventEmitter EventEmitterSpec.

(** ** The derive macro *)

(** An attribute with its argument, if it is a string. *)
Record derive_attr := mkDeriveAttr {
  da_path : string;
  da_lit : option string;
}.

Definition derive_event_value (name : string) (attrs : list derive_attr) : string :=
  from_option id name
    ('(_, attr) ← list_find (λ a, da_path a = "event_id") attrs; da_lit attr).

(** ** Events *)

Module ConnectionKind.

Definition get_endpoint (k : ConnectionKind) : option Endpoint :=
  match k with
  | ConnConnected endpoint
  | ConnConnectRetried endpoint
  | ConnConnectFailed endpoint
  | ConnAccepted endpoint
  | ConnDisconnected endpoint
  | ConnListening endpoint
  | ConnListenFailed endpoint => Some endpoint
  | ConnAcceptFailed => None
  end.

Definition variant_name (k : ConnectionKind) : string :=
  match k with
  | ConnConnected _ => "Connected"
  | ConnConnectRetried _ => "ConnectRetried"
  | ConnConnectFailed _ => "ConnectFailed"
  | ConnAccepted _ => "Accepted"
  | ConnAcceptFailed => "AcceptFailed"
  | ConnDisconnected _ => "Disconnected"
  | ConnListening _ => "Listening"
  | ConnListenFailed _ => "ListenFailed"
  end.

End ConnectionKind.

Module PoolEvent.

Definition get_peer_id (e : PoolEvent) : option PeerID :=
  match e with
  | PoolNewPeer peer_id
  | PoolRemovePeer peer_id
  | PoolPeerAlreadyConnected peer_id => Some peer_id
  | PoolHandshakeFailed peer_id | PoolConnectFailed peer_id _ => peer_id
  end.

Definition get_endpoint (e : PoolEvent) : option Endpoint :=
  match e with
  | PoolConnectFailed _ endpoint => Some endpoint
  | _ => None
  end.

Definition variant_name (e : PoolEvent) : string :=
  match e with
  | PoolNewPeer _ => "NewPeer"
  | PoolRemovePeer _ => "RemovePeer"
  | PoolHandshakeFailed _ => "HandshakeFailed"
  | PoolConnectFailed _ _ => "ConnectFailed"
  | PoolPeerAlreadyConnected _ => "PeerAlreadyConnected"
  end.

End PoolEvent.

Module DiscoveryKind.

Definition get_endpoint (k : DiscoveryKind) : option Endpoint :=
  match k with
  | DiscLookupStarted endpoint
  | DiscLookupFailed endpoint
  | DiscLookupSucceeded endpoint _ => Some endpoint
  | _ => None
  end.

Definition get_size (k : DiscoveryKind) : option nat :=
  match k with
  | DiscLookupSucceeded _ size | DiscRefreshSucceeded size => Some size
  | _ => None
  end.

Definition get_peer_id (k : DiscoveryKind) : option PeerID :=
  match k with
  | DiscEntryEvicted peer_id => Some peer_id
  | _ => None
  end.

Definition variant_name (k : DiscoveryKind) : string :=
  match k with
  | DiscLookupStarted _ => "LookupStarted"
  | DiscLookupFailed _ => "LookupFailed"
  | DiscLookupSucceeded _ _ => "LookupSucceeded"
  | DiscRefreshStarted => "RefreshStarted"
  | DiscRefreshSucceeded _ => "RefreshSucceeded"
  | DiscRefreshFailed => "RefreshFailed"
  | DiscEntryEvicted _ => "EntryEvicted"
  end.

End DiscoveryKind.

Inductive MonitorTopic := TConnection | TPeerPool | TDiscovery.

#[export] Instance MonitorTopic_eq_dec : EqDecision MonitorTopic.
Proof. solve_decision. Defined.
#[export] Instance MonitorTopic_countable : Countable MonitorTopic.
Proof.
  refine (inj_countable' (λ t, match t with TConnection => 0 | TPeerPool => 1 | TDiscovery => 2 end)
    (λ n, match n with 0 => TConnection | 1 => TPeerPool | _ => TDiscovery end) _).
  by intros [].
Defined.

Record ConnectionEvent := mkConnectionEvent {
  ce_event : string;
  ce_date : Z;
  ce_endpoint : option Endpoint;
}.

Record PeerPoolEvent := mkPeerPoolEvent {
  pe_event : string;
  pe_date : Z;
  pe_peer_id : option PeerID;
  pe_endpoint : option Endpoint;
}.

Record DiscoveryEvent := mkDiscoveryEvent {
  de_event : string;
  de_date : Z;
  de_endpoint : option Endpoint;
  de_size : option nat;
  de_peer_id : option PeerID;
}.

(** [From], with the time they read. *)
Definition connection_event (event : ConnectionKind) (date : Z) : ConnectionEvent :=
  mkConnectionEvent (ConnectionKind.variant_name event) date (ConnectionKind.get_endpoint event).

Definition peer_pool_event (event : PoolEvent) (date : Z) : PeerPoolEvent :=
  mkPeerPoolEvent (PoolEvent.variant_name event) date (PoolEvent.get_peer_id event)
    (PoolEvent.get_endpoint event).

Definition discovery_event (event : DiscoveryKind) (date : Z) : DiscoveryEvent :=
  mkDiscoveryEvent (DiscoveryKind.variant_name event) date (DiscoveryKind.get_endpoint event)
    (DiscoveryKind.get_size event) (DiscoveryKind.get_peer_id event).

(** The event types, and values of one of them. *)
Inductive event_type := EConnection | EPeerPool | EDiscovery.

#[export] Instance event_type_eq_dec : EqDecision event_type.
Proof. solve_decision. Defined.

Inductive MonitorValue :=
| VConnection (e : ConnectionEvent)
| VPeerPool (e : PeerPoolEvent)
| VDiscovery (e : DiscoveryEvent).

Definition type_of (v : MonitorValue) : event_type :=
  match v with
  | VConnection _ => EConnection
  | VPeerPool _ => EPeerPool
  | VDiscovery _ => EDiscovery
  end.

(** [EventTopic::topic] and [AsEventValue::event_id] of the types. *)
Definition topic (t : event_type) : MonitorTopic :=
  match t with
  | EConnection => TConnection
  | EPeerPool => TPeerPool
  | EDiscovery => TDiscovery
  end.

Definition event_id (t : event_type) : string :=
  match t with
  | EConnection => derive_event_value "ConnectionEvent" []
  | EPeerPool => derive_event_value "PeerPoolEvent" []
  | EDiscovery => derive_event_value "DiscoveryEvent" []
  end.

Definition value_id (v : MonitorValue) : string := event_id (type_of v).

(** What the components report; [ToEvent::to_event]. *)
Inductive report :=
| RConnection (k : ConnectionKind)
| RPool (e : PoolEvent)
| RDiscovery (k : DiscoveryKind).

Definition report_type (r : report) : event_type :=
  match r with
  | RConnection _ => EConnection
  | RPool _ => EPeerPool
  | RDiscovery _ => EDiscovery
  end.

Definition to_event (r : report) (date : Z) : MonitorValue :=
  match r with
  | RConnection k => VConnection (connection_event k date)
  | RPool e => VPeerPool (peer_pool_event e date)
  | RDiscovery k => VDiscovery (discovery_event k date)
  end.

(** [recv] of a listener of type [t] on a value it took out of its channel:
    [None] is the panic of a failed downcast. *)
Definition downcast (t : event_type) (v : MonitorValue) : option MonitorValue :=
  if decide (type_of v = t) then Some v else None.

(** ** The monitor *)

(** What [notify] emits, and on which topic. *)
Definition notify (enable_monitor : bool) (r : registry MonitorTopic) (event : report) (date : Z) :
    option (MonitorTopic * MonitorValue) :=
  if negb enable_monitor then None
  else
    let t := topic (report_type event) in
    if negb (has_listeners r t) then None
    else Some (t, to_event event date).

(** [Monitor::register] for a type. *)
Definition register (r : registry MonitorTopic) (t : event_type) (random_ids : list Z) (c : nat) :
    option (Z * registry MonitorTopic) :=
  EventEmitter.register r (topic t) (event_id t) random_ids c.

(** The emitter, the values given to [notify] while the monitor is on, and the
    type of every listener with the length of this list when it registered. *)
Record monitor := mkMonitor {
  m_emitter : @state MonitorTopic _ _ MonitorValue;
  m_log : list MonitorValue;
  m_since : gmap nat (event_type * nat);
}.

Section monitor.
Context (enable_monitor : bool) (buffer_size : nat) (map_iter : listeners → list (Z * nat)).

Inductive monitor_step : monitor → monitor → Prop :=
| mon_register s log since t ids id r c :
    register (reg s) t ids c = Some (id, r) → chans s !! c = None →
    monitor_step (mkMonitor s log since)
      (mkMonitor (mkState r (<[c := new_chan (topic t) (event_id t) id]> (chans s)) (emissions s)) log
        (<[c := (t, length log)]> since))
(** [notify] emits, or does not; *)
| mon_notify s log since event date t v ps :
    notify enable_monitor (reg s) event date = Some (t, v) →
    send value_id map_iter (reg s) t v = Ok ps →
    monitor_step (mkMonitor s log since)
      (mkMonitor (mkState (reg s) (note_emit value_id t v <$> chans s)
        (emissions s ++ [mkEmission t v ps []])) (log ++ [v]) since)
| mon_ignored s log since event date :
    enable_monitor = true → notify enable_monitor (reg s) event date = None →
    monitor_step (mkMonitor s log since) (mkMonitor s (log ++ [to_event event date]) since)
(** The steps of the emitter that neither register nor emit: sends that complete or
    fail, emissions that end, listeners that receive, cancel or are dropped. *)
| mon_emitter s s' log since :
    step value_id buffer_size map_iter s s' →
    dom (chans s') = dom (chans s) → length (emissions s') ≤ length (emissions s) →
    monitor_step (mkMonitor s log since) (mkMonitor s' log since).

Definition new_monitor : monitor := mkMonitor initial [] ∅.

(** ** Theorems *)

Context (map_iter_perm : ∀ ls, map_iter ls ≡ₚ map_to_list ls).
Notation listener r t lid c := (listeners_of r (topic t) (event_id t) !! lid = Some c).

Lemma event_id_inj t t' : event_id t = event_id t' → t = t'.
Proof. by destruct t, t'. Qed.

Lemma topic_inj t t' : topic t = topic t' → t = t'.
Proof. by destruct t, t'. Qed.

Lemma has_no_listeners (r : registry MonitorTopic) tp eid :
  has_listeners r tp = false → listeners_of r tp eid = ∅.
Proof.
  unfold has_listeners, listeners_of. intros Hr%bool_decide_eq_false.
  by rewrite (proj2 (eq_None_not_Some _) Hr).
Qed.

(** ** The invariant *)

Definition of_type (t : event_type) (vs : list MonitorValue) : list MonitorValue :=
  filter (λ v, type_of v = t) vs.

Record mon_inv (m : monitor) : Prop := {
  mi_emitter : inv value_id buffer_size (m_emitter m);
  mi_chan c ch : chans (m_emitter m) !! c = Some ch →
    ∃ t n, m_since m !! c = Some (t, n) ∧ chan_event ch = event_id t ∧ ∀ v, v ∈ got ch → type_of v = t;
  mi_due t lid c : listener (reg (m_emitter m)) t lid c →
    ∃ n ch, m_since m !! c = Some (t, n) ∧ chans (m_emitter m) !! c = Some ch ∧
      n ≤ length (m_log m) ∧ due ch = of_type t (drop n (m_log m));
  mi_off : enable_monitor = false →
    m_log m = [] ∧ ∀ c ch, chans (m_emitter m) !! c = Some ch → due ch = [];
}.

(** A step that registers nobody and changes no history of the registered. *)
Lemma mon_inv_shrink s s' log since :
  mon_inv (mkMonitor s log since) → inv value_id buffer_size s' →
  (∀ t lid c, listener (reg s') t lid c → listener (reg s) t lid c) →
  (∀ c ch', chans s' !! c = Some ch' → ∃ ch, chans s !! c = Some ch ∧
    chan_event ch' = chan_event ch ∧ due ch' = due ch ∧ (∀ v, v ∈ got ch' → v ∈ got ch ∨ v ∈ buf ch)) →
  (∀ c, is_Some (chans s !! c) → is_Some (chans s' !! c)) →
  mon_inv (mkMonitor s' log since).
Proof.
  intros [He Hc Hd Ho] Hs' Hreg Hch Hdom. simpl in *. split; simpl; [done|..].
  - intros c ch' Hch'. destruct (Hch c ch' Hch') as (ch & Hch0 & Hev & _ & Hgot).
    destruct (Hc c ch Hch0) as (t & n & ? & Hce & Ht). exists t, n. split_and!; [done|congruence|].
    intros v [Hv|Hv]%Hgot; [by apply Ht|]. apply event_id_inj.
    change (value_id v = event_id t). by rewrite (inv_typed _ _ _ He c ch v Hch0 Hv).
  - intros t lid c Hl%Hreg. destruct (Hd t lid c Hl) as (n & ch & ? & Hch0 & ? & ?).
    destruct (Hdom c) as [ch' Hch']; [by eexists|]. exists n, ch'. split_and!; [done..|].
    destruct (Hch c ch' Hch') as (ch0 & ? & _ & -> & _). by simplify_eq.
  - intros [Hlog Hdue]%Ho. split; [done|]. intros c ch' Hch'.
    destruct (Hch c ch' Hch') as (ch & Hch0 & _ & -> & _). by apply (Hdue c).
Qed.

Lemma mon_inv_register s log since t ids id r c :
  mon_inv (mkMonitor s log since) → register (reg s) t ids c = Some (id, r) → chans s !! c = None →
  mon_inv (mkMonitor (mkState r (<[c := new_chan (topic t) (event_id t) id]> (chans s)) (emissions s)) log
    (<[c := (t, length log)]> since)).
Proof using map_iter_perm.
  intros [He Hc Hd Ho] Hr Hnone. simpl in *.
  assert (inv value_id buffer_size (mkState r (<[c := new_chan (topic t) (event_id t) id]> (chans s)) (emissions s))) as He'
    by (by eapply (emitter_step_inv _ _ map_iter map_iter_perm); [eapply step_register|]).
  unfold register, EventEmitter.register in Hr. apply bind_Some in Hr as (fid & Hfid & [= -> <-]).
  assert (∀ t' lid' c', listener (set_listeners (reg s) (topic t) (event_id t)
    (<[id := c]> (listeners_of (reg s) (topic t) (event_id t)))) t' lid' c' →
    (t' = t ∧ lid' = id ∧ c' = c) ∨ listener (reg s) t' lid' c' ∧ c' ≠ c) as Hl.
  { intros t' lid' c'. rewrite listeners_of_set.
    assert (listener (reg s) t' lid' c' → c' ≠ c) as Hne.
    { intros Hl ->. destruct (Hd _ _ _ Hl) as (? & ? & _ & ? & _). congruence. }
    destruct (decide _) as [[->%topic_inj _]|]; [|by auto].
    rewrite lookup_insert_Some. naive_solver. }
  split; simpl; [done|..].
  - intros c' ch [[<- <-]|[Hne Hch]]%lookup_insert_Some.
    + exists t, (length log). rewrite lookup_insert_eq. split_and!; [done..|]. by intros v ?%elem_of_nil.
    + rewrite lookup_insert_ne by done. by apply Hc.
  - intros t' lid' c' [(-> & -> & ->)|[Hl' Hne]]%Hl.
    + exists (length log), (new_chan (topic t) (event_id t) id). rewrite !lookup_insert_eq, drop_all. by split_and!.
    + rewrite !lookup_insert_ne by done. by apply (Hd t' lid' c').
  - intros [Hlog Hdue]%Ho. split; [done|].
    intros c' ch [[<- <-]|[Hne Hch]]%lookup_insert_Some; [done|by apply (Hdue c')].
Qed.

Lemma of_type_snoc t n v (log : list MonitorValue) :
  n ≤ length log →
  of_type t (drop n (log ++ [v])) = of_type t (drop n log) ++ (if decide (type_of v = t) then [v] else []).
Proof.
  intros Hn. rewrite drop_app_le by done. unfold of_type. by rewrite filter_app.
Qed.

(** What an emission adds to the listeners. *)
Lemma note_listener s v t lid c ch :
  inv value_id buffer_size s → listener (reg s) t lid c → chans s !! c = Some ch →
  due (note_emit value_id (topic (type_of v)) v ch) = due ch ++ (if decide (type_of v = t) then [v] else []).
Proof.
  intros He (ch' & Hch' & Hl & Ht & Hev & _)%(inv_listen _ _ _ He) Hch. simplify_eq. cbn. f_equal.
  rewrite Hl, Ht, Hev. unfold value_id. destruct (decide (type_of v = t)) as [->|Hne].
  - by rewrite decide_True.
  - rewrite decide_False; [done|]. intros (_ & ?%topic_inj & _). congruence.
Qed.

Lemma mon_inv_notify s log since v ps :
  mon_inv (mkMonitor s log since) → enable_monitor = true →
  send value_id map_iter (reg s) (topic (type_of v)) v = Ok ps →
  mon_inv (mkMonitor (mkState (reg s) (note_emit value_id (topic (type_of v)) v <$> chans s)
    (emissions s ++ [mkEmission (topic (type_of v)) v ps []])) (log ++ [v]) since).
Proof using map_iter_perm.
  intros Hinv Hon Hs. pose proof Hinv as [He Hc Hd _]. simpl in *. split; simpl.
  - by apply (emitter_step_inv _ _ map_iter map_iter_perm _ _ (step_emit _ _ _ _ _ _ _ Hs)).
  - intros c ch (ch0 & <- & Hch)%lookup_fmap_Some. by apply (Hc c ch0).
  - intros t lid c Hl. destruct (Hd t lid c Hl) as (n & ch & Hsince & Hch & Hn & Hdue).
    exists n, (note_emit value_id (topic (type_of v)) v ch). rewrite length_app, lookup_fmap, Hch.
    split_and!; [done..|lia|]. by rewrite (note_listener s v t lid c), Hdue, of_type_snoc.
  - congruence.
Qed.

Lemma mon_inv_ignored s log since v :
  mon_inv (mkMonitor s log since) → enable_monitor = true →
  has_listeners (reg s) (topic (type_of v)) = false → mon_inv (mkMonitor s (log ++ [v]) since).
Proof.
  intros [He Hc Hd _] Hon Hno. simpl in *. split; simpl; try done; [|congruence].
  intros t lid c Hl. destruct (Hd t lid c Hl) as (n & ch & ? & ? & Hn & Hdue). exists n, ch.
  rewrite length_app. split_and!; [done..|lia|]. rewrite of_type_snoc, decide_False, app_nil_r; [done| |done].
  intros <-. rewrite (has_no_listeners _ _ _ Hno) in Hl. by rewrite lookup_empty in Hl.
Qed.

Lemma inner_reg (s s' : @state MonitorTopic _ _ MonitorValue) t lid c :
  step value_id buffer_size map_iter s s' → dom (chans s') = dom (chans s) →
  listener (reg s') t lid c → listener (reg s) t lid c.
Proof.
  intros Hs Hdom. destruct Hs as [s tp eid ids id r c' _ Hnone| |s tp| | | | | | | | |]; simpl in *; try done.
  - exfalso. apply not_elem_of_dom in Hnone. apply Hnone. rewrite <-Hdom. set_solver.
  - unfold unregister_topic, listeners_of. destruct (delete _ _ !! topic t) as [es|] eqn:Ht; simpl.
    + apply lookup_delete_Some in Ht as [_ ->]. done.
    + by rewrite lookup_empty.
  - by intros [? _]%listeners_of_remove.
  - case_bool_decide; [done|]. by intros [? _]%listeners_of_remove.
Qed.

Lemma inner_chans (s s' : @state MonitorTopic _ _ MonitorValue) c ch' :
  step value_id buffer_size map_iter s s' → inv value_id buffer_size s → dom (chans s') = dom (chans s) →
  length (emissions s') ≤ length (emissions s) → chans s' !! c = Some ch' →
  ∃ ch, chans s !! c = Some ch ∧ chan_event ch' = chan_event ch ∧ due ch' = due ch ∧
    (∀ v, v ∈ got ch' → v ∈ got ch ∨ v ∈ buf ch).
Proof using map_iter_perm.
  intros Hs He Hdom Hlen Hch'. destruct Hs as [s tp eid ids id r c' _ Hnone| | | | |s tp v e Hsend
    |s i em ps1 l c' ps2 ch _ _ Hch| | |s i em _|s c' ch v rest Hch _ Hb|s c' ch Hch]; simpl in *;
    try (by exists ch'; auto);
    try (apply lookup_fmap_Some in Hch' as (chx & <- & Hch'); exists chx; split_and!; [done..|by left]).
  - exfalso. apply not_elem_of_dom in Hnone. apply Hnone. rewrite <-Hdom. set_solver.
  - rewrite length_app in Hlen. simpl in Hlen. lia.
  - pose proof (send_listeners value_id map_iter map_iter_perm (reg s) tp v) as Hl. rewrite Hsend in Hl.
    apply lookup_fmap_Some in Hch' as (ch & <- & Hch).
    rewrite (note_emit_nobody value_id buffer_size s tp v c ch) by done. exists ch. by auto.
  - apply lookup_insert_Some in Hch' as [[<- <-]|[_ Hch']]; [exists ch; simpl|exists ch']; by auto.
  - destruct (at_all_lookup (add_lost (em_value em)) (em_pending em) (chans s) c ch')
      as (ch0 & Hch0 & (? & _ & _ & Hg & _) & Hit); [done..|].
    exists ch0. split_and!; [done..| |rewrite Hg; by auto]. rewrite Hit. apply iter_add_lost.
  - apply lookup_insert_Some in Hch' as [[<- <-]|[_ Hch']]; [exists ch; simpl|exists ch'; by auto].
    rewrite Hb. split_and!; [done..|].
    intros x [?|Hx]%elem_of_app; [by left|]. apply list_elem_of_singleton in Hx as ->. right; left.
  - apply lookup_insert_Some in Hch' as [[<- <-]|[_ Hch']]; [exists ch; simpl|exists ch']; by auto.
Qed.

Lemma mon_inv_emitter s s' log since :
  mon_inv (mkMonitor s log since) → step value_id buffer_size map_iter s s' →
  dom (chans s') = dom (chans s) → length (emissions s') ≤ length (emissions s) →
  mon_inv (mkMonitor s' log since).
Proof using map_iter_perm.
  intros Hinv Hs Hdom Hlen. apply (mon_inv_shrink s); [done| | | |].
  - eapply (emitter_step_inv _ _ map_iter map_iter_perm); [done|]. exact (mi_emitter _ Hinv).
  - intros t lid c. by apply inner_reg.
  - intros c ch'. apply inner_chans; [done|exact (mi_emitter _ Hinv)|done..].
  - intros c Hc. apply elem_of_dom. rewrite Hdom. by apply elem_of_dom.
Qed.

Lemma to_event_type event date : type_of (to_event event date) = report_type event.
Proof. by destruct event. Qed.

Lemma mon_step_inv m m' : mon_inv m → monitor_step m m' → mon_inv m'.
Proof using map_iter_perm.
  intros Hinv Hs. destruct Hs as [|s log since event date t v ps Hn Hs|s log since event date Hon Hn|].
  - by eapply mon_inv_register.
  - unfold notify in Hn. destruct enable_monitor eqn:Hon; [simpl in Hn|done].
    destruct (negb _); [done|]. injection Hn as <- <-. rewrite <-(to_event_type event date) in *.
    by apply mon_inv_notify.
  - unfold notify in Hn. rewrite Hon in Hn. simpl in Hn. destruct (has_listeners _ _) eqn:Hno; [done|].
    rewrite <-(to_event_type event date) in Hno. by apply mon_inv_ignored.
  - by eapply mon_inv_emitter.
Qed.

Lemma mon_inv_reachable m : rtc monitor_step new_monitor m → mon_inv m.
Proof using map_iter_perm.
  assert (mon_inv new_monitor) as Hnew.
  { split; simpl.
    - by apply (emitter_reachable_inv _ _ map_iter map_iter_perm).
    - intros c ch. by rewrite lookup_empty.
    - intros t lid c. by destruct t.
    - intros _. split; [done|]. intros c ch. by rewrite lookup_empty. }
  intros Hrun. revert Hnew. induction Hrun; eauto using mon_step_inv.
Qed.

(** A listener of the monitor gets the events of its type.  Whatever the
    components report, in every interleaving, what a listener receives or will
    receive downcasts to its type, so that [recv] does not panic.  As long as it
    is registered, the events due to it are exactly the reports of its type
    since it registered, in their order; they are, counted with multiplicity, those it
    has received, those in its buffer, and those still being sent or given up with
    their emission.  A monitor that is off sends nothing. *)
Theorem monitor_listener m c t n ch :
  rtc monitor_step new_monitor m → m_since m !! c = Some (t, n) →
  chans (m_emitter m) !! c = Some ch →
  (∀ v, v ∈ got ch ++ buf ch → downcast t v = Some v) ∧ length (buf ch) ≤ buffer_size ∧
  (∀ lid, listener (reg (m_emitter m)) t lid c → due ch = of_type t (drop n (m_log m))) ∧
  (alive ch = true →
    due ch ≡ₚ got ch ++ buf ch ++ lost ch ++ pending_for c (emissions (m_emitter m))) ∧
  (enable_monitor = false → due ch = []).
Proof using map_iter_perm.
  intros Hrun Hsince Hch. destruct (mon_inv_reachable m Hrun) as [He Hc Hd Ho].
  destruct (Hc c ch Hch) as (t' & n' & Ht' & Hev & Hgot). rewrite Hsince in Ht'. injection Ht' as <- <-.
  split_and!.
  - intros v Hv. unfold downcast. rewrite decide_True; [done|].
    apply elem_of_app in Hv as [Hv|Hv]; [by apply Hgot|].
    apply event_id_inj. change (value_id v = event_id t). by rewrite (inv_typed _ _ _ He c ch v Hch Hv).
  - by apply (inv_bound _ _ _ He c).
  - intros lid Hl. destruct (Hd t lid c Hl) as (n' & ch' & Hs' & Hch' & _ & Hdue). congruence.
  - by apply (inv_once _ _ _ He).
  - intros Hoff. by apply (proj2 (Ho Hoff) c).
Qed.

End monitor.

(** The macro looks at the name of a type only: two types of one name, from
    different modules, have one event id, and a listener of the one panics on a
    value of the other. *)
Lemma same_name_same_id name attrs attrs' :
  Forall (λ a, da_path a ≠ "event_id") (attrs ++ attrs') →
  derive_event_value name attrs = derive_event_value name attrs'.
Proof.
  intros [Ha Ha']%Forall_app. unfold derive_event_value.
  by rewrite !(proj2 (list_find_None _ _)).
Qed.

(** ** Witness *)

(** A listener of connection events, a report of its type and one of another. *)
Definition refused_event : MonitorValue := to_event (RConnection ConnAcceptFailed) 5.
Definition swept_event : MonitorValue := to_event (RDiscovery (DiscRefreshSucceeded 3)) 6.

Definition watched_registry : registry MonitorTopic :=
  {[ TConnection := {[ "ConnectionEvent" := {[ 7%Z := 0 ]} ]} ]}.

Definition watching (b : list MonitorValue) : chan :=
  mkChan TConnection "ConnectionEvent" 7 b true true [refused_event] [] [].

Definition watched_monitor : monitor :=
  mkMonitor (mkState watched_registry
      {[ 0 := watching [refused_event] ]}
      [mkEmission TConnection refused_event [] []])
    [refused_event; swept_event] {[ 0 := (EConnection, 0) ]}.

Lemma watched_monitor_run :
  rtc (monitor_step true 1 by_id) new_monitor watched_monitor.
Proof.
  eapply rtc_l.
  { eapply (mon_register _ _ _ initial [] ∅ EConnection [7%Z] 7%Z watched_registry 0); vm_compute; reflexivity. }
  eapply rtc_l.
  { eapply (mon_notify _ _ _ _ _ _ (RConnection ConnAcceptFailed) 5 TConnection refused_event [(7%Z, 0)]);
      vm_compute; reflexivity. }
  eapply rtc_l.
  { eapply (mon_ignored _ _ _ _ _ _ (RDiscovery (DiscRefreshSucceeded 3)) 6); vm_compute; reflexivity. }
  eapply rtc_l.
  { eapply mon_emitter.
    - apply (step_sent _ _ _ _ 0 (mkEmission TConnection refused_event [(7%Z, 0)] []) [] 7%Z 0 []
        (watching [])); try reflexivity. simpl. lia.
    - vm_compute. reflexivity.
    - simpl. lia. }
  exact (rtc_refl _ watched_monitor).
Qed.

Lemma monitor_listener_witness :
  of_type EConnection (m_log watched_monitor) = [refused_event] ∧
  downcast EConnection refused_event = Some refused_event.
Proof.
  destruct (monitor_listener true 1 by_id (λ _, reflexivity _) watched_monitor 0 EConnection 0
    (watching [refused_event]) watched_monitor_run eq_refl eq_refl)
    as (Ht & _ & Hdue & _).
  split; [symmetry; exact (Hdue 7%Z eq_refl)|]. apply Ht. left.
Defined.
