(* ===== verification/Node.v ===== *)
(** * The node: p2p/src/node.rs, and the protocols of p2p/src/peer_pool.rs

    The node puts the parts together: it forwards the events of the pool to
    discovery and dials what discovery finds.  Discovery is the interface
    [Discovery], which [Kademlia] implements.  Starting and stopping are in
    [NodeRun].

    The theorems follow a discovered peer all the way: through the dial of
    [Connector], the handshake, the admission of [Pool] and back into the routing
    table of [Kademlia]. *)

From S2P Require Import Prelude Codec Endpoint Framed Message Bloom RoutingTable RoutingTableSpec RoutingTableQueries.
From S2P Require Import Version Session Handshake Config RefreshSpec Kademlia KademliaSpec KeyPair TlsConfig.
From S2P Require Import Connector Pool PoolTurn EventEmitter.
#[local] Open Scope Z_scope.

(** ** Discovery *)

(** The trait [Discovery]; what [recv] yields is an argument of the turn. *)
Class Discovery (D : Type) := {
  disc_on_event : Z → D → PeerConnectionEvent → D;
  disc_advertise : D → list Z → ProtocolFlags → D;
  disc_find_peers_with : D → list Z → list DiscoveredPeer;
}.

#[export] Instance KademliaDiscovery `{SipHash} : Discovery discovery := {|
  disc_on_event now d ev :=
    mkDiscovery (Kademlia.on_event now (d_table d) ev) (d_bloom d) (d_queue d) (d_manual d) (d_loops d);
  disc_advertise d item flags :=
    mkDiscovery (d_table d) (Kademlia.advertise (d_bloom d) item flags) (d_queue d) (d_manual d)
      (d_loops d);
  disc_find_peers_with d item := Kademlia.find_peers_with (d_table d) item;
|}.

(** ** Protocols *)

(** The protocols of the pool: their constructors, of any type, and their
    versions and flags. *)
Record protocol_table `{Semver} (C : Type) := mkProtocolTable {
  constructors : gmap ProtocolID C;
  protocol_meta : gmap ProtocolID ProtocolMeta;
}.
Arguments mkProtocolTable {_ C} _ _.
Arguments constructors {_ C} _.
Arguments protocol_meta {_ C} _.

(** A [Protocol] type: its id, version and flags. *)
Record protocol_type `{Semver} := mkProtocolType {
  proto_id : ProtocolID;
  proto_version : result p2p_error Version;
  proto_flags : ProtocolFlags;
}.

Section protocols.
Context `{Semver} {C D : Type} `{Discovery D} (as_bytes : string → list Z).

Definition pool_attach_protocol (t : protocol_table C) (P : protocol_type) (c : C) :
    result p2p_error () * protocol_table C :=
  let t := mkProtocolTable (<[proto_id P := c]> (constructors t)) (protocol_meta t) in
  match proto_version P with
  | Err err => (Err err, t)
  | Ok version =>
      (Ok (), mkProtocolTable (constructors t)
        (<[proto_id P := mkProtocolMeta version (proto_flags P)]> (protocol_meta t)))
  end.

Definition attach_protocol (t : protocol_table C) (d : D) (P : protocol_type) (c : C) :
    result p2p_error () * protocol_table C * D :=
  match pool_attach_protocol t P c with
  | (Err err, t) => (Err err, t, d)
  | (Ok _, t) => (Ok (), t, disc_advertise d (as_bytes (proto_id P)) (proto_flags P))
  end.

(** The parameters of the pool's next handshake. *)
Definition handshake_params (own : PeerID) (config : Config.t) (t : protocol_table C)
    (vpid : option PeerID) : HandshakeParams :=
  mkParams own (Config.version config) (protocol_meta t) (Config.handshake_timeout config) vpid.

End protocols.

(** ** Events and discovered peers *)

(** The mapping of [forward_peer_events]. *)
Definition forward_event (ev : PeerEvent) : PeerConnectionEvent :=
  match ev with
  | Added pid => EvConnected pid
  | Removed pid => EvDisconnected pid
  | HandshakeFailed pid => EvConnectFailed pid
  end.

Definition forward_events `{Discovery D} (now : Z) (d : D) (evs : list PeerEvent) : D :=
  foldl (λ d ev, disc_on_event now d (forward_event ev)) d evs.

Definition SUPPORTED : list Protocol := [PTcp; PTls; PQuic].

Inductive node_act :=
| Dial (e : Endpoint) (pid : option PeerID)
| NotifyPool (ev : PoolEvent)
| Report (ev : PeerConnectionEvent).

(** One turn of [connect_discovered_peers]; [connect] is the outcome of
    [connect_and_queue]. *)
Definition discovered_turn (access_control : AccessControl)
    (connect : Endpoint → option PeerID → result p2p_error ()) (d : DiscoveredPeer) : list node_act :=
  match pick_endpoint (dp_addrs d) SUPPORTED with
  | None => []
  | Some endpoint =>
      if negb (access_control (SubjectEndpoint endpoint) (ActConnect Outbound)) then []
      else
        let peer_id := dp_peer_id d in
        Dial endpoint peer_id ::
        match connect endpoint peer_id with
        | Ok _ => []
        | Err _ => [NotifyPool (PoolConnectFailed peer_id endpoint); Report (EvConnectFailed peer_id)]
        end
  end.

(** The entry of a peer has a status, if there is one. *)
Definition entry_status (d : discovery) (pid : PeerID) (flag : Z) : Prop :=
  ∀ be, be ∈ table_entries (d_table d) → bkey be = id_bytes pid → status be = flag.

Definition has_entry (d : discovery) (pid : PeerID) : Prop :=
  ∃ be, be ∈ table_entries (d_table d) ∧ bkey be = id_bytes pid.

(** ** Theorems *)

(** Attaching a protocol offers it in every later handshake. *)
Lemma attach_offers `{Semver} {C D} `{Discovery D} as_bytes (t : protocol_table C) (d : D) P c t' d'
    own config vpid version :
  proto_version P = Ok version → attach_protocol as_bytes t d P c = (Ok (), t', d') →
  constructors t' !! proto_id P = Some c ∧
  vm_protocols (ver_msg (handshake_params own config t' vpid)) !! proto_id P =
    Some (WireVersion_from version).
Proof.
  unfold attach_protocol, pool_attach_protocol. intros ->. cbn. intros [= <- _]. cbn.
  by rewrite lookup_fmap, !lookup_insert_eq.
Qed.

(** The status an event leaves at the entry of its peer. *)
Lemma event_status `{SipHash} now d ev pid flag :
  wf (d_table d) → key_wf (id_bytes pid) →
  Kademlia.on_event now (d_table d) (forward_event ev) =
    RoutingTable.update_entry now (d_table d) (id_bytes pid) flag →
  entry_status (forward_events now d [ev]) pid flag ∧ (has_entry d pid → has_entry (forward_events now d [ev]) pid).
Proof.
  intros Hwf Hk Hev. unfold entry_status, has_entry. cbn. rewrite Hev, update_entry_omap by done. split.
  - intros be (e & _ & Hat)%list_elem_of_omap Hb. unfold at_key in Hat. case_decide.
    + injection Hat as <-. by rewrite set_status_spec.
    + congruence.
  - intros (be & Hin & Hb). exists (Bucket.set_status now flag be). rewrite set_status_spec. split; [|done].
    apply list_elem_of_omap. exists be. split; [done|]. unfold at_key. by rewrite decide_True, set_status_spec.
Qed.

Section discovered.
Context `{Semver} `{SipHash} `{Bincode VerMsg} `{Bincode VerAckMsg}.
Context `{Dalek} `{X509} `{CertGen} `{!DalekLaws} {St Qc : Type}.
Context (map_iter : gmap ProtocolID WireVersion → list (ProtocolID * WireVersion)).
Context (endpoint_to_string : Endpoint → string).


(** A discovered peer the node does not get to is taken for connected.  The
    connect loop marks the entry it hands out as connected.  When the node then
    finds no endpoint it can dial, or the policy denies the endpoint, it reports
    nothing; and when it dials over TCP and the handshake fails, the pool knows
    no identity to report, so that the event does not reach the entry.  In all
    three cases the entry stays connected, and no later turn picks it. *)
Theorem discovered_peer_stuck s now bloom t d t' :
  wf t → sampling_ok s → connect_turn s now bloom t = (Some d, t') →
  ∃ be, be ∈ table_entries t' ∧ dp_peer_id d = Some (mkPeerID (bkey be)) ∧
    status be = CONNECTED_ENTRY ∧ (∀ bloom', ¬ pickable bloom' be) ∧
    (∀ access_control connect,
      (∀ e, pick_endpoint (dp_addrs d) SUPPORTED = Some e →
        access_control (SubjectEndpoint e) (ActConnect Outbound) = false) →
      discovered_turn access_control connect d = []) ∧
    (∀ access_control slots p i c err es p' now', conns p !! i = Some c → Pool.verified_peer_id c = None →
      run_turn access_control slots p i c (Err err) es p' →
      foldl (λ t ev, Kademlia.on_event now' t (forward_event ev)) t' es = t').
Proof.
  intros Hwf Hs Hturn. destruct (connect_turn_Some s now bloom t d t') as (be & Hin & -> & ->); [done..|].
  assert (key_wf (bkey be)) as Hk by by eapply table_entries_key_wf.
  exists (Bucket.set_status now CONNECTED_ENTRY be). split_and!.
  - rewrite update_entry_omap by done. apply list_elem_of_omap. exists be. split; [done|].
    unfold at_key. by rewrite decide_True.
  - by rewrite set_status_spec.
  - by rewrite set_status_spec.
  - rewrite set_status_spec. by intros bloom' [Hp _].
  - intros ac connect Hac. unfold discovered_turn.
    destruct (pick_endpoint _ _) as [e|]; [|done]. by rewrite Hac.
  - intros ac slots p i c err es p' now' Hi Hc Hes%run_turn_events; [|done]. cbn in Hes. subst es. cbn. by rewrite Hc.
Qed.

End discovered.

(** ** Witnesses *)

Section witnesses.
#[local] Existing Instance some_siphash.
#[local] Existing Instance KademliaSpec.any_semver.

Lemma discovered_peer_stuck_witness :
  ∃ d t', connect_turn plain_sampling 3 LocalBloom.default one_table = (Some d, t') ∧
    ∃ be, be ∈ table_entries t' ∧ status be = CONNECTED_ENTRY ∧
      discovered_turn (λ _ _, false) (λ _ _, Ok ()) d = [].
Proof.
  destruct (connect_turn plain_sampling 3 LocalBloom.default one_table) as [[d|] t'] eqn:Hturn.
  - exists d, t'. split; [reflexivity|].
    destruct (discovered_peer_stuck plain_sampling 3 LocalBloom.default one_table d t'
      one_table_wf (conj (λ l, reflexivity l) (λ l, reflexivity l)) Hturn)
      as (be & Hin & _ & Hst & _ & Hno & _).
    exists be. split; [exact Hin|]. split; [exact Hst|]. apply Hno. reflexivity.
  - exfalso. apply (f_equal fst) in Hturn. vm_compute in Hturn. discriminate.
Defined.

End witnesses.

Section tracked_witness.
#[local] Existing Instance some_siphash.
#[local] Existing Instance Handshake.any_semver.
#[local] Existing Instance vermsg_bincode.
#[local] Existing Instance verack_bincode.
#[local] Existing Instance toy_dalek.
#[local] Existing Instance toy_dalek_laws.
#[local] Existing Instance toy_x509.
#[local] Existing Instance toy_certgen.

Definition ping_protocols : protocol_table () :=
  mkProtocolTable ∅ (hp_protocols (node 1 None)).

Definition toy_conn (vpid : option PeerID) : conn := mkConn Outbound toy_endpoint vpid true Handling None 0.

Definition toy_params : HandshakeParams :=
  handshake_params (mkPeerID [1]) (Config.default_with any_version) ping_protocols (Some (toy_id 7)).

Lemma toy_handshake :
  ∃ w', handshake map_to_list toy_params tls_wire = (Ready (Ok (toy_id 7, ["PING"%string])), w').
Proof. eexists. vm_compute. reflexivity. Qed.

(** The pool with this connection alone, before and after its turn. *)
Definition handling (vpid : option PeerID) : pool :=
  mkPool {[ 0%nat := toy_conn vpid ]} 1 [] (RunHandshake 0) ∅ [] [] [].

Lemma toy_turn vpid :
  ∃ p', run_turn AllowAll (λ _, 1%nat) (handling vpid) 0 (toy_conn vpid) (Ok (toy_id 7, ["PING"%string]))
    [Added (toy_id 7)] p'.
Proof.
  eexists. exists [], [Added (toy_id 7)]. split; [reflexivity|]. split; [|reflexivity].
  eapply (turn_own _ _ _ _ []); [|by eapply run_build| |reflexivity|]; [done..|].
  eapply (turn_own _ _ _ _ []); [|by eapply run_insert| |reflexivity|]; [done..|].
  eapply (turn_own _ _ _ _ [_]); [|by eapply run_added| |reflexivity|]; [done..|].
  by apply turn_over.
Qed.


End tracked_witness.
