(* ===== verification/NodeSystem.v ===== *)
(** * A whole node

    Models how [p2p/src/node.rs] puts the parts together: [Node::new] gives the
    listener, the connector and the pool one queue and the slots of the
    configuration; the tasks of [run] carry events to discovery and discovered
    peers to the connector.

    The state is the states of the parts, and the steps are theirs, where those
    that belong together are one step: a connection the listener serves is one of
    the pool, and the task that serves it ends when the pool has answered it and
    then frees its slot; the same for what the connector dialed.  [Pool] takes it
    as a guard that a connection needs a free slot; here the slots are the two
    semaphores.  Starting and shutting down are in [NodeRun]. *)

From S2P Require Import Prelude Endpoint Message Bloom Version Config KadMessages Listener Kademlia.
From S2P Require Import Pool PoolSpec Node.
#[local] Open Scope nat_scope.

(** Where [connect_discovered_peers] is: at [recv], waiting for a slot of the
    connector, or dialing with it. *)
Inductive connect_pc :=
| ConnectIdle
| WaitSlot (peer : DiscoveredPeer) (endpoint : Endpoint)
| Dialing (peer : DiscoveredPeer) (endpoint : Endpoint).

(** [served] are the pool's connections behind those of the listener; [forwarded]
    is the number of events that were forwarded or came before the listener of
    [forward_peer_events] was registered. *)
Record node := mkNode {
  listener : Listener.listener;
  out_permits : nat;
  connecting : connect_pc;
  peer_pool : pool;
  served : list nat;
  node_discovery : discovery;
  forwarded : option nat;
}.

Definition set_listener (s : node) (l : Listener.listener) : node :=
  mkNode l (out_permits s) (connecting s) (peer_pool s) (served s) (node_discovery s) (forwarded s).
Definition set_connect (s : node) (n : nat) (c : connect_pc) : node :=
  mkNode (listener s) n c (peer_pool s) (served s) (node_discovery s) (forwarded s).
Definition set_pool (s : node) (p : pool) : node :=
  mkNode (listener s) (out_permits s) (connecting s) p (served s) (node_discovery s) (forwarded s).
Definition set_discovery (s : node) (d : discovery) : node :=
  mkNode (listener s) (out_permits s) (connecting s) (peer_pool s) (served s) d (forwarded s).

(** A connection in a task of its own that holds a slot. *)
Definition add_conn (p : pool) (d : ConnDirection) (e : Endpoint) (vpid : option PeerID) : pool :=
  mkPool (<[next_conn p := mkConn d e vpid true Upgrading None 0]> (conns p)) (S (next_conn p))
    (conn_queue p) (runner p) (peers p) (readers p) (events p) (monitored p).

(** Peer ids are 32 bytes by their type. *)
Definition event_wf (ev : PeerConnectionEvent) : Prop :=
  ∀ pid, ev ∈ [EvConnected pid; EvDisconnected pid; EvConnectFailed (Some pid)] → id_wf pid.

Section system.
Context `{Semver} `{SipHash} {kad : KadBincode} (config : Config.t) (peer_id : PeerID).

Abbreviation allow := (Config.access_control config).
Abbreviation listener_step := (Listener.step allow (ActConnect Inbound)).

Definition slots (d : ConnDirection) : nat :=
  match d with
  | Inbound => Config.inbound_slots config
  | Outbound => Config.outbound_slots config
  end.

Abbreviation pool_step := (Pool.step allow slots).
Abbreviation discovery_step := (discovery_step (new_lookup_service peer_id config)).

(** [Node::new]. *)
Definition node_new : node :=
  mkNode (Listener.listener_new (slots Inbound)) (slots Outbound) ConnectIdle pool_new []
    (discovery_new peer_id config) None.

(** What [connect_discovered_peers] does with a peer it received. *)
Definition connect_next (x : DiscoveredPeer) : connect_pc :=
  match pick_endpoint (dp_addrs x) SUPPORTED with
  | None => ConnectIdle
  | Some endpoint =>
      if allow (SubjectEndpoint endpoint) (ActConnect Outbound)
      then WaitSlot x endpoint else ConnectIdle
  end.

(** The dial failed: discovery is told. *)
Definition report_failed (now : Z) (s : node) (x : DiscoveredPeer) : node :=
  set_discovery s (disc_on_event now (node_discovery s) (EvConnectFailed (dp_peer_id x))).

Inductive node_step : node → node → Prop :=
(** The accept loops. *)
| node_loop s l :
    listener_step (listener s) l → Listener.shut l = Listener.NotShut →
    Listener.conns l = Listener.conns (listener s) →
    node_step s (set_listener s l)
| node_accept s l e vpid :
    listener_step (listener s) l → Listener.shut l = Listener.NotShut →
    Listener.conns l = Listener.conns (listener s) ++ [Listener.mkInbound e Listener.Serving] →
    node_step s (mkNode l (out_permits s) (connecting s) (add_conn (peer_pool s) Inbound e vpid)
      (served s ++ [next_conn (peer_pool s)]) (node_discovery s) (forwarded s))
(** The task of an accepted connection: [handle] returns when the pool has answered,
    then the callback runs. *)
| node_answered s i e j c :
    Listener.conns (listener s) !! i = Some (Listener.mkInbound e Listener.Serving) →
    served s !! i = Some j → conns (peer_pool s) !! j = Some c → closed c ≠ None →
    node_step s (set_listener s (Listener.mkListener (Listener.permits (listener s))
      (Listener.loops (listener s)) (Listener.set_serving (listener s) i e Listener.Notifying)
      (Listener.log (listener s)) (Listener.shut (listener s))))
| node_notify s i e :
    Listener.conns (listener s) !! i = Some (Listener.mkInbound e Listener.Notifying) →
    node_step s (set_listener s (Listener.mkListener (Listener.permits (listener s))
      (Listener.loops (listener s)) (Listener.set_serving (listener s) i e Listener.Dropping)
      (Listener.log (listener s) ++ [ConnDisconnected e]) (Listener.shut (listener s))))
| node_release s i e j :
    Listener.conns (listener s) !! i = Some (Listener.mkInbound e Listener.Dropping) →
    served s !! i = Some j →
    node_step s (set_pool (set_listener s (Listener.mkListener (S (Listener.permits (listener s)))
      (Listener.loops (listener s)) (Listener.set_serving (listener s) i e Listener.Gone)
      (Listener.log (listener s)) (Listener.shut (listener s))))
      (update (peer_pool s) j drop_slot))
(** [connect_discovered_peers] and [connect_and_queue]. *)
| node_receive s t b x q m p :
    connecting s = ConnectIdle → node_discovery s = mkDiscovery t b (x :: q) m p →
    node_step s (set_connect (set_discovery s (mkDiscovery t b q m p)) (out_permits s) (connect_next x))
| node_slot s x e n :
    connecting s = WaitSlot x e → out_permits s = S n →
    node_step s (set_connect s n (Dialing x e))
| node_slot_failed s x e now :
    connecting s = WaitSlot x e → event_wf (EvConnectFailed (dp_peer_id x)) →
    node_step s (report_failed now (set_connect s (out_permits s) ConnectIdle) x)
| node_dial_failed s x e now :
    connecting s = Dialing x e → event_wf (EvConnectFailed (dp_peer_id x)) →
    node_step s (report_failed now (set_connect s (S (out_permits s)) ConnectIdle) x)
| node_dialed s x e vpid :
    connecting s = Dialing x e →
    node_step s (set_connect (set_pool s (add_conn (peer_pool s) Outbound e vpid))
      (out_permits s) ConnectIdle)
(** The task of a dialed connection. *)
| node_hangup s j c :
    conns (peer_pool s) !! j = Some c → direction c = Outbound → closed c ≠ None → slot c = true →
    node_step s (set_connect (set_pool s (update (peer_pool s) j drop_slot))
      (S (out_permits s)) (connecting s))
(** The pool and its peers. *)
| node_pool s p :
    pool_step (peer_pool s) p → next_conn p = next_conn (peer_pool s) →
    (∀ i, slot <$> conns p !! i = slot <$> conns (peer_pool s) !! i) →
    node_step s (set_pool s p)
(** [forward_peer_events] registers its listener, and forwards. *)
| node_register s :
    forwarded s = None →
    node_step s (mkNode (listener s) (out_permits s) (connecting s) (peer_pool s) (served s)
      (node_discovery s) (Some (length (events (peer_pool s)))))
| node_forward s k ev now :
    forwarded s = Some k → events (peer_pool s) !! k = Some ev → event_wf (forward_event ev) →
    node_step s (mkNode (listener s) (out_permits s) (connecting s) (peer_pool s) (served s)
      (disc_on_event now (node_discovery s) (forward_event ev)) (Some (S k)))
(** The services of discovery. *)
| node_discover s d :
    discovery_step (node_discovery s) d → length (d_queue (node_discovery s)) ≤ length (d_queue d) →
    node_step s (set_discovery s d).

(** ** Theorems *)

(** *** Slots of the pool *)

(** What a step of the pool keeps of a connection. *)
Definition kept (c c' : conn) : Prop :=
  direction c' = direction c ∧ (closed c ≠ None → closed c' ≠ None).

Lemma update_keeps p i f j c :
  (∀ c, kept c (f c)) → conns p !! j = Some c →
  ∃ c', conns (update p i f) !! j = Some c' ∧ kept c c'.
Proof.
  intros Hf Hj. cbn. destruct (decide (i = j)) as [->|].
  - rewrite lookup_alter_eq, Hj. cbn. by eexists.
  - rewrite lookup_alter_ne by done. by exists c.
Qed.

Lemma add_conn_keeps p d e vpid j c :
  conns p !! next_conn p = None → conns p !! j = Some c → conns (add_conn p d e vpid) !! j = Some c.
Proof. intros Hn Hj. cbn. rewrite lookup_insert_ne; [done|]. by intros <-; rewrite Hn in Hj. Qed.

Lemma pool_step_keeps p p' j c :
  conns p !! next_conn p = None → pool_step p p' → conns p !! j = Some c →
  ∃ c', conns p' !! j = Some c' ∧ kept c c'.
Proof.
  intros Hn Hs Hj. destruct Hs; try (by eapply update_keeps); try (by exists c).
  - exists c. split; [|done]. by apply add_conn_keeps.
  - destruct (update_keeps p v (close (Ok ())) j c) as (c1 & Hc1 & Hk1); [done..|].
    destruct (update_keeps (update p v (close (Ok ()))) i (set_stage (Emitting pid)) j c1)
      as (c2 & Hc2 & Hk2); [done..|].
    exists c2. split; [done|]. destruct Hk1, Hk2. split; [congruence|auto].
Qed.

Lemma held_ext d p p' :
  (∀ i, (λ c, (direction c, slot c)) <$> conns p' !! i = (λ c, (direction c, slot c)) <$> conns p !! i) →
  held d p' = held d p.
Proof.
  intros Heq. rewrite !held_dom. f_equal. apply set_eq. intros i. rewrite !elem_of_dom.
  specialize (Heq i). unfold is_Some. setoid_rewrite map_lookup_filter_Some. cbn.
  destruct (conns p !! i) as [c|], (conns p' !! i) as [c'|]; cbn in Heq; simplify_eq;
    naive_solver congruence.
Qed.

Lemma held_add d d' e vpid p :
  conns p !! next_conn p = None →
  held d (add_conn p d' e vpid) = held d p + (if decide (d = d') then 1 else 0).
Proof.
  intros Hn. unfold held. cbn [add_conn conns].
  destruct (decide (d = d')) as [->|Hne].
  - rewrite map_filter_insert_True by done. rewrite map_size_insert_None; [lia|].
    apply map_lookup_filter_None. by left.
  - rewrite map_filter_insert_False by (cbn; naive_solver). rewrite delete_id by done. lia.
Qed.

Lemma held_drop d p j c :
  conns p !! j = Some c → slot c = true →
  held d (update p j drop_slot) + (if decide (direction c = d) then 1 else 0) = held d p.
Proof.
  intros Hj Hs. unfold held. cbn [update conns].
  set (P := λ kv : nat * conn, direction kv.2 = d ∧ slot kv.2 = true).
  assert (filter P (alter drop_slot j (conns p)) = delete j (filter P (conns p))) as ->.
  { apply map_eq. intros i. destruct (decide (i = j)) as [->|Hne].
    - rewrite lookup_delete_eq. apply map_lookup_filter_None. right. intros c'.
      rewrite lookup_alter_eq, Hj. cbn. intros [= <-]. by intros [_ ?].
    - rewrite lookup_delete_ne by done. rewrite !map_lookup_filter, lookup_alter_ne by done. done. }
  destruct (decide (direction c = d)) as [Hd|Hd].
  - rewrite map_size_delete_Some by (exists c; by apply map_lookup_filter_Some).
    assert (0 < size (filter P (conns p))); [|lia].
    destruct (decide (filter P (conns p) = ∅)) as [He|He].
    + exfalso. apply (f_equal (lookup j)) in He. rewrite lookup_empty in He.
      rewrite (proj2 (map_lookup_filter_Some P (conns p) j c)) in He by (by repeat split). done.
    + apply map_size_non_empty_iff in He. lia.
  - rewrite delete_id; [lia|]. apply map_lookup_filter_None. right. intros c' Hc' [? _]. simpl in *.
    congruence.
Qed.

(** *** The invariant *)

Definition dialing (c : connect_pc) : nat := match c with Dialing _ _ => 1 | _ => 0 end.

(** A connection of the pool and the task of the listener that serves it. *)
Definition linked (p : pool) (j : nat) (ib : Listener.inbound) : Prop :=
  ∃ c, conns p !! j = Some c ∧ direction c = Inbound ∧ slot c = Listener.busy ib ∧
    (Listener.at_serving ib ≠ Listener.Serving → closed c ≠ None).

Record node_inv (s : node) : Prop := {
  ni_listener : rtc listener_step (Listener.listener_new (slots Inbound)) (listener s);
  ni_shut : Listener.shut (listener s) = Listener.NotShut;
  ni_pool : rtc pool_step pool_new (peer_pool s);
  ni_discovery : rtc discovery_step (discovery_new peer_id config) (node_discovery s);
  ni_nodup : NoDup (served s);
  ni_served : Forall2 (linked (peer_pool s)) (served s) (Listener.conns (listener s));
  ni_in : held Inbound (peer_pool s) = countb Listener.busy (Listener.conns (listener s));
  ni_out : out_permits s + dialing (connecting s) + held Outbound (peer_pool s) = slots Outbound;
}.

Lemma pool_fresh p : rtc pool_step pool_new p → conns p !! next_conn p = None.
Proof.
  intros Hr%pool_reachable_inv. destruct (conns p !! next_conn p) as [c|] eqn:Hc; [|done].
  apply (pi_conn _ _ Hr) in Hc as [_ ?]. lia.
Qed.

Lemma linked_fresh p j ib : rtc pool_step pool_new p → linked p j ib → j ≠ next_conn p.
Proof. intros Hr%pool_fresh (c & Hc & _) ->. congruence. Qed.

(** A discovery that hears of an event has made a step. *)
Lemma on_event_step now d ev : event_wf ev → discovery_step d (disc_on_event now d ev).
Proof. intros Hev. destruct d. by apply step_event. Qed.

(** A step of the pool that takes and frees no slot. *)
Lemma inv_pool s p :
  node_inv s → pool_step (peer_pool s) p → next_conn p = next_conn (peer_pool s) →
  (∀ i, slot <$> conns p !! i = slot <$> conns (peer_pool s) !! i) → node_inv (set_pool s p).
Proof.
  intros [H1 H2 H3 H4 H5 H6 H7 H8] Hs Hnext Hslot. pose proof (pool_fresh _ H3) as Hn.
  assert (∀ i, (λ c, (direction c, slot c)) <$> conns p !! i =
    (λ c, (direction c, slot c)) <$> conns (peer_pool s) !! i) as Heq.
  { intros i. specialize (Hslot i). destruct (conns (peer_pool s) !! i) as [c|] eqn:Hc.
    - destruct (pool_step_keeps _ _ i c Hn Hs Hc) as (c' & Hc' & Hd & _). rewrite Hc' in *. cbn in *.
      simplify_eq. congruence.
    - destruct (conns p !! i); [done|done]. }
  split; cbn; rewrite ?(held_ext _ _ _ Heq); try done; [by eapply rtc_r|].
  eapply Forall2_impl; [exact H6|]. intros j ib (c & Hc & Hd & Hb & Hcl).
  destruct (pool_step_keeps _ _ j c Hn Hs Hc) as (c' & Hc' & Hd' & Hcl').
  specialize (Hslot j). rewrite Hc, Hc' in Hslot. cbn in Hslot. simplify_eq.
  exists c'. split_and!; [done|congruence|congruence|auto].
Qed.

(** The task of an accepted connection moves on, and the pool with it. *)
Lemma inv_serving s p l i e x y j :
  node_inv s → listener_step (listener s) l → Listener.shut l = Listener.shut (listener s) →
  Listener.conns (listener s) !! i = Some (Listener.mkInbound e x) →
  Listener.conns l = Listener.set_serving (listener s) i e y →
  served s !! i = Some j → rtc pool_step pool_new p → linked p j (Listener.mkInbound e y) →
  (∀ k, k ≠ j → conns p !! k = conns (peer_pool s) !! k) →
  held Inbound p + (if Listener.busy (Listener.mkInbound e x) then 1 else 0) =
    held Inbound (peer_pool s) + (if Listener.busy (Listener.mkInbound e y) then 1 else 0) →
  held Outbound p = held Outbound (peer_pool s) →
  node_inv (set_pool (set_listener s l) p).
Proof.
  intros [H1 H2 H3 H4 H5 H6 H7 H8] Hl Hsh Hi Hconns Hj Hp Hlink Hother Hin Hout.
  pose proof (countb_insert Listener.busy _ _ _ (Listener.mkInbound e y) Hi) as Hcount.
  split; cbn; try done; [by eapply rtc_r|congruence| | |by rewrite Hout].
  - rewrite Hconns. unfold Listener.set_serving. apply Forall2_same_length_lookup_2.
    { rewrite length_insert. by eapply Forall2_length. }
    intros k jk ib Hk Hib. destruct (decide (k = i)) as [->|Hne].
    + rewrite list_lookup_insert_eq in Hib by (by eapply lookup_lt_Some). by simplify_eq.
    + rewrite list_lookup_insert_ne in Hib by done.
      destruct (Forall2_lookup_lr _ _ _ _ _ _ H6 Hk Hib) as (c & Hc & ?). exists c.
      split; [|done]. rewrite Hother; [done|]. intros ->. apply Hne.
      by eapply NoDup_lookup.
  - rewrite Hconns. unfold Listener.set_serving. lia.
Qed.

(** A task of the listener, with its connection in the pool. *)
Lemma served_conn s i ib :
  node_inv s → Listener.conns (listener s) !! i = Some ib →
  ∃ j, served s !! i = Some j ∧ linked (peer_pool s) j ib.
Proof. intros Hinv Hi. by eapply Forall2_lookup_r; [apply Hinv|]. Qed.

Lemma inv_accept s l e vpid :
  node_inv s → listener_step (listener s) l → Listener.shut l = Listener.NotShut →
  Listener.conns l = Listener.conns (listener s) ++ [Listener.mkInbound e Listener.Serving] →
  node_inv (mkNode l (out_permits s) (connecting s) (add_conn (peer_pool s) Inbound e vpid)
    (served s ++ [next_conn (peer_pool s)]) (node_discovery s) (forwarded s)).
Proof.
  intros [H1 H2 H3 H4 H5 H6 H7 H8] Hl Hsh Hconns. pose proof (pool_fresh _ H3) as Hn.
  assert (rtc listener_step (Listener.listener_new (slots Inbound)) l) as Hl' by (by eapply rtc_r).
  pose proof (Listener.inv_slots _ _ _ _ (Listener.reachable_inv _ _ _ _ Hl')) as Hslots.
  rewrite Hconns, countb_app in Hslots. cbn in Hslots.
  split; cbn -[add_conn]; rewrite ?held_add by done; cbn -[add_conn]; try done.
  - eapply rtc_r; [done|]. apply net_connection. cbn. lia.
  - apply NoDup_app. split_and!; [done| |apply NoDup_singleton].
    intros j Hj ->%list_elem_of_singleton. apply list_elem_of_lookup in Hj as [k Hk].
    destruct (Forall2_lookup_l _ _ _ _ _ H6 Hk) as (ib & _ & Hlink).
    by eapply linked_fresh.
  - rewrite Hconns. apply Forall2_app; [|constructor; [|done]].
    + eapply Forall2_impl; [exact H6|]. intros j ib (c & Hc & ?). exists c. split; [|done].
      by apply add_conn_keeps.
    + eexists. cbn. rewrite lookup_insert_eq. by repeat split.
  - rewrite Hconns, countb_app. cbn. case_decide; [lia|done].
  - cbn in H8. case_decide; [done|lia].
Qed.

(** A slot of the connector comes back, or a dialed connection takes it. *)
Lemma inv_dialed s x e vpid :
  node_inv s → connecting s = Dialing x e →
  node_inv (set_connect (set_pool s (add_conn (peer_pool s) Outbound e vpid)) (out_permits s) ConnectIdle).
Proof.
  intros [H1 H2 H3 H4 H5 H6 H7 H8] Hc. rewrite Hc in H8. cbn in H8. pose proof (pool_fresh _ H3) as Hn.
  split; cbn -[add_conn]; rewrite ?held_add by done; cbn -[add_conn]; try done.
  - eapply rtc_r; [done|]. apply net_connection. cbn. lia.
  - eapply Forall2_impl; [exact H6|]. intros j ib (c & Hc' & ?). exists c. split; [|done].
    by apply add_conn_keeps.
  - case_decide; [done|lia].
  - case_decide; [lia|done].
Qed.

Lemma inv_hangup s j c :
  node_inv s → conns (peer_pool s) !! j = Some c → direction c = Outbound → closed c ≠ None →
  slot c = true →
  node_inv (set_connect (set_pool s (update (peer_pool s) j drop_slot)) (S (out_permits s)) (connecting s)).
Proof.
  intros [H1 H2 H3 H4 H5 H6 H7 H8] Hj Hd Hcl Hs.
  pose proof (held_drop Inbound _ _ _ Hj Hs) as Hin. pose proof (held_drop Outbound _ _ _ Hj Hs) as Hout.
  rewrite Hd in *. rewrite decide_False in Hin by done. rewrite decide_True in Hout by done.
  cbn in H8. split; cbn -[update]; try done; try lia.
  - eapply rtc_r; [done|]. by eapply slot_released.
  - eapply Forall2_impl; [exact H6|]. intros k ib (c' & Hc' & Hd' & ?). exists c'.
    split; [|done]. cbn. rewrite lookup_alter_ne; [done|]. intros ->. congruence.
Qed.

Lemma node_step_inv s s' : node_inv s → node_step s s' → node_inv s'.
Proof.
  intros Hinv Hs. destruct Hs as [s l Hl Hsh Hc|s l e vpid Hl Hsh Hc|s i e j c Hi Hj Hc Hcl|s i e Hi|
    s i e j Hi Hj|s t b x q m p Hc Hd|s x e n Hc Hn|s x e now Hc Hev|s x e now Hc Hev|s x e vpid Hc|
    s j c Hj Hd Hcl Hs|s p Hp Hn Hslot|s Hf|s k ev now Hf Hk Hev|s d Hd Hlen].
  - destruct Hinv as [H1 H2 H3 H4 H5 H6 H7 H8]. split; cbn; rewrite ?Hc; try done. by eapply rtc_r.
  - by apply inv_accept.
  - destruct (served_conn _ _ _ Hinv Hi) as (j' & Hj' & c' & Hc' & Hd & Hb & _). simplify_eq.
    apply (inv_serving s (peer_pool s) _ i e Listener.Serving Listener.Notifying j); try done.
    + by apply Listener.body_ends.
    + by apply Hinv.
    + exists c. by split_and!.
  - destruct (served_conn _ _ _ Hinv Hi) as (j & Hj & c & Hc & Hd & Hb & Hcl).
    apply (inv_serving s (peer_pool s) _ i e Listener.Notifying Listener.Dropping j); try done.
    + by apply Listener.callback_notifies.
    + by apply Hinv.
    + exists c. split_and!; [done..|]. intros _. by apply Hcl.
  - destruct (served_conn _ _ _ Hinv Hi) as (j' & Hj' & c & Hc & Hd & Hb & Hcl). simplify_eq. cbn in Hb.
    pose proof (held_drop Inbound _ _ _ Hc Hb) as Hin. pose proof (held_drop Outbound _ _ _ Hc Hb) as Hout.
    rewrite Hd in *. rewrite decide_True in Hin by done. rewrite decide_False in Hout by done.
    apply (inv_serving s _ _ i e Listener.Dropping Listener.Gone j); cbn -[update]; try done; try lia.
    + by apply Listener.callback_drops.
    + eapply rtc_r; [apply Hinv|]. eapply slot_released; [done|by apply Hcl|done].
    + exists (drop_slot c). cbn. rewrite lookup_alter_eq, Hc. split_and!; [done..|]. intros _. by apply Hcl.
    + intros k Hk. cbn. by rewrite lookup_alter_ne.
  - destruct Hinv as [H1 H2 H3 H4 H5 H6 H7 H8]. rewrite Hc in H8. split; cbn; try done.
    + rewrite Hd in H4. eapply rtc_r; [exact H4|]. apply step_recv.
    + unfold connect_next. destruct (pick_endpoint _ _); [|done]. by destruct (allow _ _).
  - destruct Hinv as [H1 H2 H3 H4 H5 H6 H7 H8]. rewrite Hc in H8. split; cbn in *; try done. lia.
  - destruct Hinv as [H1 H2 H3 H4 H5 H6 H7 H8]. rewrite Hc in H8. split; cbn in *; try done.
    eapply rtc_r; [exact H4|]. exact (on_event_step now _ _ Hev).
  - destruct Hinv as [H1 H2 H3 H4 H5 H6 H7 H8]. rewrite Hc in H8. split; cbn in *; try done; [|lia].
    eapply rtc_r; [exact H4|]. exact (on_event_step now _ _ Hev).
  - by eapply inv_dialed.
  - by eapply inv_hangup.
  - by apply inv_pool.
  - by destruct Hinv.
  - destruct Hinv as [H1 H2 H3 H4 H5 H6 H7 H8]. split; cbn; try done.
    eapply rtc_r; [exact H4|]. exact (on_event_step now _ _ Hev).
  - destruct Hinv as [H1 H2 H3 H4 H5 H6 H7 H8]. split; cbn; try done. by eapply rtc_r.
Qed.

Lemma node_reachable_inv s : rtc node_step node_new s → node_inv s.
Proof.
  assert (node_inv node_new) as Hnew.
  { assert (∀ d, held d pool_new = 0) as Hheld.
    { intros d. unfold held. cbn [pool_new conns]. by rewrite map_filter_empty, map_size_empty. }
    split; cbn -[held]; try apply rtc_refl; try done; [constructor|]. rewrite Hheld. lia. }
  intros Hr. revert Hnew. induction Hr; eauto using node_step_inv.
Qed.

(** C22: a node is its parts.  In every run of a whole node the listener, the pool
    and discovery each make a run of their own, the pool with the slots of the
    configuration: the guard its model has on new connections is what the two
    semaphores enforce.  The inbound connections that hold a slot are exactly those
    the listener has not finished with, and the permits of the connector, the dial
    in progress and the outbound connections add up to the outbound slots.  So a
    node never has more peers of a direction than the configuration says. *)
Theorem node_is_its_parts s :
  rtc node_step node_new s →
  rtc listener_step (Listener.listener_new (Config.inbound_slots config)) (listener s) ∧
  rtc pool_step pool_new (peer_pool s) ∧
  rtc discovery_step (discovery_new peer_id config) (node_discovery s) ∧
  held Inbound (peer_pool s) = countb Listener.busy (Listener.conns (listener s)) ∧
  out_permits s + dialing (connecting s) + held Outbound (peer_pool s) = Config.outbound_slots config ∧
  size (peers_of Inbound (peer_pool s)) ≤ Config.inbound_slots config ∧
  size (peers_of Outbound (peer_pool s)) ≤ Config.outbound_slots config.
Proof.
  intros [H1 H2 H3 H4 H5 H6 H7 H8]%node_reachable_inv. pose proof (pool_reachable_inv _ _ _ H3) as Hp.
  split_and!; try done.
  - exact (Nat.le_trans _ _ _ (peers_of_held _ _ _ Hp) (pi_held _ _ Hp Inbound)).
  - exact (Nat.le_trans _ _ _ (peers_of_held _ _ _ Hp) (pi_held _ _ Hp Outbound)).
Qed.

End system.

(** ** Witness *)

Section witness.
#[local] Existing Instances KademliaSpec.some_siphash KademliaSpec.kad_bincode.
#[local] Existing Instance Handshake.any_semver.

Definition small_config : Config.t := Config.default_with Handshake.any_version.
Definition caller : Endpoint := Tcp (Ip (V4 [127; 0; 0; 1]%Z)) 80.

(** A node that listens on an endpoint and has accepted a connection. *)
Lemma node_is_its_parts_witness :
  ∃ s, rtc (node_step small_config (mkPeerID [1%Z])) (node_new small_config (mkPeerID [1%Z])) s ∧
    served s = [0] ∧ held Inbound (peer_pool s) = 1 ∧
    size (peers_of Inbound (peer_pool s)) ≤ Config.inbound_slots small_config.
Proof.
  set (new := node_new small_config (mkPeerID [1%Z])).
  pose (l1 := Listener.mkListener 12 [Listener.LoopAcquire] [] [] Listener.NotShut).
  pose (l2 := Listener.mkListener 11 [Listener.LoopAccept] [] [] Listener.NotShut).
  pose (l2a := Listener.mkListener 11 [Listener.LoopNotify [ConnAccepted caller] (Some caller)] [] [] Listener.NotShut).
  pose (l2b := Listener.mkListener 11 [Listener.LoopNotified (Some caller)] [] [ConnAccepted caller] Listener.NotShut).
  pose (l3 := Listener.mkListener 11 [Listener.LoopAcquire] [Listener.mkInbound caller Listener.Serving]
    [ConnAccepted caller] Listener.NotShut).
  pose (s3 := mkNode l3 12 ConnectIdle (add_conn pool_new Inbound caller None) [0]
    (discovery_new (mkPeerID [1%Z]) small_config) None).
  assert (rtc (node_step small_config (mkPeerID [1%Z])) new s3) as Hr.
  { apply (rtc_l _ _ (set_listener new l1)).
    { apply node_loop; [apply Listener.start_loop|reflexivity..]. }
    apply (rtc_l _ _ (set_listener new l2)).
    { apply (node_loop small_config (mkPeerID [1%Z]) (set_listener new l1) l2); [|reflexivity..].
      apply (Listener.acquire_slot _ _ l1 0 11); reflexivity. }
    apply (rtc_l _ _ (set_listener new l2a)).
    { apply (node_loop small_config (mkPeerID [1%Z]) (set_listener new l2) l2a); [|reflexivity..].
      apply (Listener.accept_notifies _ _ l2 0 (Listener.AcceptFrom caller)); [reflexivity..|discriminate]. }
    apply (rtc_l _ _ (set_listener new l2b)).
    { apply (node_loop small_config (mkPeerID [1%Z]) (set_listener new l2a) l2b); [|reflexivity..].
      apply (Listener.loop_notifies _ _ l2a 0 [ConnAccepted caller]); reflexivity. }
    apply rtc_once. apply (node_accept small_config (mkPeerID [1%Z]) (set_listener new l2b) l3 caller None); [|reflexivity..].
    apply (Listener.loop_serves AllowAll (ActConnect Inbound) l2b 0 caller); reflexivity. }
  destruct (node_is_its_parts small_config (mkPeerID [1%Z]) s3 Hr) as (_ & _ & _ & Hin & _ & Hpeers & _).
  exists s3. split_and!; [exact Hr|reflexivity|exact Hin|exact Hpeers].
Defined.

End witness.
