(* ===== verification/NodeRun.v ===== *)
(** * Starting and shutting down a node

    Models the construction of a node and of its Kademlia discovery
    ([p2p/src/node.rs], [p2p/src/discovery/kademlia/mod.rs], and the constructors of
    connector, listener and lookup service), [Node::run] with [Discovery::start] as
    one sequence of steps interleaved with those of [NodeSystem], and
    [Node::shutdown] as an instance of [Lifecycle].

    The theorems: [run] can return exactly when the manual peers fit into the queue
    of discovered peers; the tasks that a shutdown can leave running, that it has shut
    down the peers of the pool, and when it returns. *)

From S2P Require Import Connection ConnectionSpec PeerShutdown.
From S2P Require Import Prelude Codec Endpoint Framed Message Bloom RoutingTable Version Session Handshake Config KadMessages.
From S2P Require Import Lookup Refresh RefreshSpec Kademlia KademliaSpec KeyPair TaskGroup Lifecycle.
From S2P Require Import Listener Ping Pool PoolSpec Node NodeSystem.
#[local] Open Scope nat_scope.

(** ** Construction *)

Section construction.
Context `{Semver} `{SipHash} `{Dalek}.

(** What the constructors put into a connector and a listener; [conn_queue] is the
    presence of the queue. *)
Record connector_parts := mkConnectorParts {
  cn_key_pair : KeyPair;
  cn_max_retries : nat;
  cn_slots : nat;
  cn_conn_queue : bool;
}.

Record listener_parts := mkListenerParts {
  ln_key_pair : KeyPair;
  ln_slots : nat;
  ln_conn_queue : bool;
  ln_handshake_timeout : Z;
  ln_access_control : AccessControl;
}.

Definition Connector_new (key_pair : KeyPair) (max_retries slots : nat) : connector_parts :=
  mkConnectorParts key_pair max_retries slots false.

Definition Connector_new_with_queue (key_pair : KeyPair) (max_retries slots : nat) : connector_parts :=
  mkConnectorParts key_pair max_retries slots true.

Definition Listener_new (key_pair : KeyPair) (slots : nat) (handshake_timeout : Z)
    (access_control : AccessControl) : listener_parts :=
  mkListenerParts key_pair slots false handshake_timeout access_control.

Definition Listener_new_with_queue (key_pair : KeyPair) (slots : nat) (handshake_timeout : Z)
    (access_control : AccessControl) : listener_parts :=
  mkListenerParts key_pair slots true handshake_timeout access_control.

(** [try_from(key_pair.public()).expect(..)]. *)
Definition expect_peer_id (key_pair : KeyPair) : poll PeerID :=
  match PeerID.try_from_public_key (as_bytes (public key_pair)) with
  | Ok id => Ready id
  | Err _ => Panicked
  end.

Record lookup_parts := mkLookupParts {
  lp_service : LookupService;
  lp_listener : listener_parts;
  lp_connector : connector_parts;
}.

Definition LookupService_new (key_pair : KeyPair) (config : Config.t) (endpoints : LookupEndpoints) :
    poll lookup_parts :=
  let listener := Listener_new key_pair (Config.lookup_inbound_slots config)
    (Config.handshake_timeout config) (Config.access_control config) in
  let connector := Connector_new key_pair (Config.lookup_connect_retries config)
    (Config.lookup_outbound_slots config) in
  match expect_peer_id key_pair with
  | Ready id => Ready (mkLookupParts (mkLookupService _ id endpoints config) listener connector)
  | Pending => Pending
  | Panicked => Panicked
  end.

(** The discovery with its two services; [kd_refresh] is the endpoint of the refresh
    service. *)
Record kademlia := mkKademlia {
  kd_discovery : discovery;
  kd_lookup : lookup_parts;
  kd_refresh : option Endpoint;
}.

Definition KademliaDiscovery_new (key_pair : KeyPair) (peer_id : PeerID) (config : Config.t) : poll kademlia :=
  match LookupService_new key_pair config (new_endpoints config) with
  | Ready lookup_service =>
      Ready (mkKademlia (discovery_new peer_id config) lookup_service (refresh_ep (new_endpoints config)))
  | Pending => Pending
  | Panicked => Panicked
  end.

(** A node over any discovery. *)
Record node_parts (D : Type) := mkParts {
  np_key_pair : KeyPair;
  np_peer_id : PeerID;
  np_config : Config.t;
  np_discovery : D;
  np_connector : connector_parts;
  np_listener : listener_parts;
}.

Definition with_discovery {D} (key_pair : KeyPair) (config : Config.t) (discovery : D) : poll (node_parts D) :=
  match expect_peer_id key_pair with
  | Ready peer_id =>
      let connector := Connector_new_with_queue key_pair (Config.max_connect_retries config)
        (Config.outbound_slots config) in
      let listener := Listener_new_with_queue key_pair (Config.inbound_slots config)
        (Config.handshake_timeout config) (Config.access_control config) in
      Ready (mkParts D key_pair peer_id config discovery connector listener)
  | Pending => Pending
  | Panicked => Panicked
  end.

Definition Node_new (key_pair : KeyPair) (config : Config.t) : poll (node_parts kademlia) :=
  match expect_peer_id key_pair with
  | Ready peer_id =>
      match KademliaDiscovery_new key_pair peer_id config with
      | Ready discovery =>
          let connector := Connector_new_with_queue key_pair (Config.max_connect_retries config)
            (Config.outbound_slots config) in
          let listener := Listener_new_with_queue key_pair (Config.inbound_slots config)
            (Config.handshake_timeout config) (Config.access_control config) in
          Ready (mkParts _ key_pair peer_id config discovery connector listener)
      | Pending => Pending
      | Panicked => Panicked
      end
  | Pending => Pending
  | Panicked => Panicked
  end.

(** The state a node starts in. *)
Definition initial (p : node_parts kademlia) : node :=
  mkNode (Listener.listener_new (ln_slots (np_listener _ p))) (cn_slots (np_connector _ p)) ConnectIdle pool_new []
    (kd_discovery (np_discovery _ p)) None.

End construction.

(** ** Running *)

(** What [run] starts; those of discovery are its two services and its connect
    loop. *)
Inductive part :=
| PoolTask
| ListenTask (e : Endpoint)
| LookupTask (e : Endpoint)
| RefreshListenTask (e : Endpoint)
| RefreshTask
| ConnectLoopTask
| ForwardTask
| ConnectTask.

Inductive run_pc :=
| RunAttach
| RunPool
| RunListen (todo : list Endpoint)
| RunLookup
| RunRefresh
| RunPush
| RunForward
| RunConnect
| RunReturned (r : result p2p_error ()).

Section run.
Context `{Semver} `{SipHash} {kad : KadBincode} (config : Config.t) (peer_id : PeerID) (as_bytes : string → list Z).

Record node_run := mkRun {
  run_node : node;
  protocols : protocol_table ();
  run_at : run_pc;
  started : list part;
}.

Definition ping_protocol : protocol_type :=
  mkProtocolType _ PING_PROTO_ID (Version_from_str "0.1.0") ProtocolFlags.REQUIRED.

Definition run_new : node_run :=
  mkRun (node_new config peer_id) (mkProtocolTable ∅ ∅) RunAttach [].

(** [attach_protocol] of the node. *)
Definition run_attach (r : node_run) (P : protocol_type) : result p2p_error () * node_run :=
  let '(res, t, d) := attach_protocol as_bytes (protocols r) (node_discovery (run_node r)) P () in
  (res, mkRun (set_discovery (run_node r) d) t (run_at r) (started r)).

Definition goto (r : node_run) (p : run_pc) (new : list part) : node_run :=
  mkRun (run_node r) (protocols r) p (started r ++ new).

Definition set_node (r : node_run) (s : node) : node_run :=
  mkRun s (protocols r) (run_at r) (started r).

(** A step of the node that the tasks started so far can make. *)
Record permitted (ps : list part) (s s' : node) : Prop := {
  pm_loops : length (Listener.loops (listener s')) = length (Listener.loops (listener s));
  pm_manual : d_manual (node_discovery s') = d_manual (node_discovery s);
  pm_pool : PoolTask ∉ ps → peer_pool s' = peer_pool s;
  pm_services : RefreshTask ∉ ps → (∀ e, LookupTask e ∉ ps) →
    d_table (node_discovery s') = d_table (node_discovery s);
  pm_refresh : RefreshTask ∉ ps →
    l_refresh (d_loops (node_discovery s')) = l_refresh (d_loops (node_discovery s));
  pm_connect_loop : ConnectLoopTask ∉ ps → ConnectTask ∉ ps →
    d_queue (node_discovery s') = d_queue (node_discovery s) ∧
    l_connect (d_loops (node_discovery s')) = l_connect (d_loops (node_discovery s));
  pm_forward : ForwardTask ∉ ps → forwarded s' = forwarded s;
  pm_connect : ConnectTask ∉ ps → connecting s' = connecting s;
}.

Definition refresh_parts : list part :=
  match refresh_ep (new_endpoints config) with
  | Some e => [RefreshListenTask e; RefreshTask]
  | None => [RefreshTask]
  end.

(** The listener spawns an accept loop. *)
Definition add_loop (s : node) : node :=
  let l := listener s in
  set_listener s (Listener.mkListener (Listener.permits l) (Listener.loops l ++ [Listener.LoopAcquire])
    (Listener.conns l) (Listener.log l) (Listener.shut l)).

(** [KademliaDiscovery::start]. *)
Inductive start_step : node_run → node_run → Prop :=
| start_lookup_refused r err :
    run_at r = RunLookup → start_listener (new_lookup_service peer_id config) = Err err →
    start_step r (goto r (RunReturned (Err err)) [])
| start_lookup_none r :
    run_at r = RunLookup → start_listener (new_lookup_service peer_id config) = Ok None →
    start_step r (goto r RunRefresh [])
| start_lookup_listens r e :
    run_at r = RunLookup → start_listener (new_lookup_service peer_id config) = Ok (Some e) →
    start_step r (goto r RunRefresh [LookupTask e])
| start_lookup_fails r e err :
    run_at r = RunLookup → start_listener (new_lookup_service peer_id config) = Ok (Some e) →
    start_step r (goto r (RunReturned (Err err)) [])
| start_refresh r :
    run_at r = RunRefresh → start_step r (goto r RunPush refresh_parts)
| start_pushes r t b q x m p :
    run_at r = RunPush → node_discovery (run_node r) = mkDiscovery t b q (x :: m) p →
    length q < DISCOVERED_PEER_QUEUE_SIZE →
    start_step r (set_node r (set_discovery (run_node r) (mkDiscovery t b (q ++ [x]) m p)))
| start_pushed r :
    run_at r = RunPush → d_manual (node_discovery (run_node r)) = [] →
    start_step r (goto r RunForward [ConnectLoopTask]).

Inductive run_step : node_run → node_run → Prop :=
(** The tasks that run already, and a protocol the application attaches. *)
| run_tasks r s :
    node_step config peer_id (run_node r) s → permitted (started r) (run_node r) s →
    run_step r (set_node r s)
| run_attaches r P :
    run_step r (run_attach r P).2
(** [Node::run]. *)
| run_core_protocols r err r' :
    run_at r = RunAttach → run_attach r ping_protocol = (err, r') →
    run_step r (goto r' (match err with Ok _ => RunPool | Err e => RunReturned (Err e) end) [])
| run_pool r :
    run_at r = RunPool → run_step r (goto r (RunListen (Config.listen_endpoints config)) [PoolTask])
| run_listens r e todo :
    run_at r = RunListen (e :: todo) →
    run_step r (goto (set_node r (add_loop (run_node r))) (RunListen todo) [ListenTask e])
| run_listen_fails r e todo err :
    run_at r = RunListen (e :: todo) → run_step r (goto r (RunReturned (Err err)) [])
| run_listened r :
    run_at r = RunListen [] → run_step r (goto r RunLookup [])
| run_discovery r r' :
    start_step r r' → run_step r r'
| run_forward r :
    run_at r = RunForward → run_step r (goto r RunConnect [ForwardTask])
| run_connect r :
    run_at r = RunConnect → run_step r (goto r (RunReturned (Ok ())) [ConnectTask]).

(** ** When [run] returns *)

Definition queued (r : node_run) : list DiscoveredPeer := d_queue (node_discovery (run_node r)).
Definition manual (r : node_run) : list DiscoveredPeer := d_manual (node_discovery (run_node r)).

(** Before discovery has started. *)
Definition starting (p : run_pc) : bool :=
  match p with
  | RunForward | RunConnect | RunReturned _ => false
  | _ => true
  end.

Record run_inv (r : node_run) : Prop := {
  ri_starting : starting (run_at r) = true →
    ConnectLoopTask ∉ started r ∧ ConnectTask ∉ started r ∧
    queued r ++ manual r = manual_peers config ∧ length (queued r) ≤ DISCOVERED_PEER_QUEUE_SIZE;
  ri_started : starting (run_at r) = false → (∀ err, run_at r ≠ RunReturned (Err err)) →
    length (manual_peers config) ≤ DISCOVERED_PEER_QUEUE_SIZE;
  ri_node : rtc (node_step config peer_id) (node_new config peer_id) (run_node r);
}.

(** Attaching a protocol changes the filter only. *)
Lemma run_attach_spec r P res r' :
  run_attach r P = (res, r') →
  run_at r' = run_at r ∧ started r' = started r ∧ queued r' = queued r ∧ manual r' = manual r ∧
  rtc (node_step config peer_id) (run_node r) (run_node r') ∧ is_ok res = is_ok (proto_version P).
Proof.
  unfold run_attach, attach_protocol, pool_attach_protocol. destruct r as [s t p ps].
  destruct (proto_version P) as [v|e]; cbn; intros [= <- <-]; cbn; split_and!; try done.
  - apply rtc_once. destruct (node_discovery s) as [tb b q m x] eqn:Hd. apply node_discover; rewrite Hd; [|done].
    apply step_advertise.
  - by destruct s.
Qed.

Lemma start_loop_step s :
  Listener.shut (listener s) = Listener.NotShut → node_step config peer_id s (add_loop s).
Proof. intros Hs. apply node_loop; [apply Listener.start_loop|done..]. Qed.

Lemma run_inv_goto r p new :
  run_inv r →
  (starting p = true → starting (run_at r) = true ∧ ConnectLoopTask ∉ new ∧ ConnectTask ∉ new) →
  (starting p = false → (∀ err, p ≠ RunReturned (Err err)) →
    length (manual_peers config) ≤ DISCOVERED_PEER_QUEUE_SIZE) →
  run_inv (goto r p new).
Proof.
  intros [Hs Hd Hn] Hp Hq. split; cbn; [|done|done]. intros Hst.
  destruct (Hp Hst) as (Hr & ? & ?). destruct (Hs Hr) as (? & ? & ? & ?).
  split_and!; [set_solver..|done|done].
Qed.

Lemma refresh_parts_not : ConnectLoopTask ∉ refresh_parts ∧ ConnectTask ∉ refresh_parts.
Proof. unfold refresh_parts. destruct (refresh_ep _); set_solver. Qed.

Lemma start_step_inv r r' : run_inv r → start_step r r' → run_inv r'.
Proof.
  intros Hinv Hs.
  destruct Hs as [r err Hat Hl|r Hat Hl|r e Hat Hl|r e err Hat Hl|r Hat|r t b q x m p Hat Hd Hlen|r Hat Hm];
    try (apply run_inv_goto; [done|rewrite ?Hat; set_solver|first [done|by intros _ Hno; destruct (Hno err)]]).
  - apply run_inv_goto; [done| |done]. rewrite Hat. pose proof refresh_parts_not. by intros _.
  - destruct Hinv as [Hst Hdone Hn]. split; cbn.
    + intros Hb. destruct (Hst Hb) as (? & ? & Hq & Hl). unfold queued, manual in *. cbn.
      rewrite Hd in *. cbn in *. split_and!; try done; [by rewrite <-app_assoc|]. rewrite length_app. cbn. lia.
    + by rewrite Hat.
    + eapply rtc_r; [exact Hn|]. apply node_discover; rewrite Hd; [by apply step_manual|].
      cbn. rewrite length_app. lia.
  - apply run_inv_goto; [done|done|]. intros _ _. destruct Hinv as [Hst _ _].
    destruct Hst as (_ & _ & Hq & Hl); [by rewrite Hat|]. unfold manual in Hq. rewrite Hm, app_nil_r in Hq.
    by rewrite <-Hq.
Qed.

Lemma node_run_step_inv r r' : run_inv r → run_step r r' → run_inv r'.
Proof.
  intros Hinv Hs.
  destruct Hs as [r s Hs Hp|r P|r res r' Hat Ha|r Hat|r e todo Hat|r e todo err Hat|r Hat|r r' Hs|r Hat|r Hat];
    try (apply run_inv_goto; [done|rewrite ?Hat; set_solver|
      first [done|by intros _ Hno; destruct (Hno err)|by intros _ _; apply Hinv; rewrite Hat]]).
  - destruct Hinv as [Hst Hd Hn]. split; [|done|by eapply rtc_r]. intros Hb. destruct (Hst Hb) as (H1 & H2 & H3 & H4).
    destruct (pm_connect_loop _ _ _ Hp H1 H2) as [Hq _]. unfold queued, manual in *. cbn.
    by rewrite Hq, (pm_manual _ _ _ Hp).
  - destruct (run_attach r P) as [res r'] eqn:Ha. cbn.
    destruct (run_attach_spec r P res r' Ha) as (Hat & Hps & Hq & Hm & Hr & _). destruct Hinv as [Hst Hd Hn].
    split; rewrite ?Hat, ?Hps, ?Hq, ?Hm; [done..|]. by etrans.
  - destruct (run_attach_spec r _ res r' Ha) as (Hat' & Hps & Hq & Hm & Hr & _). apply run_inv_goto.
    + destruct Hinv as [Hst Hd Hn]. split; rewrite ?Hat', ?Hps, ?Hq, ?Hm; [done..|]. by etrans.
    + rewrite Hat', Hat. set_solver.
    + destruct res as [[]|err]; [done|]. by intros _ Hno; destruct (Hno err).
  - apply run_inv_goto; [|cbn; rewrite Hat; set_solver|done]. destruct Hinv as [Hst Hd Hn].
    split; [done..|]. eapply rtc_r; [exact Hn|]. apply start_loop_step.
    by apply (node_reachable_inv config peer_id) in Hn as [].
  - by eapply start_step_inv.
Qed.

Lemma run_reachable_inv r : rtc run_step run_new r → run_inv r.
Proof.
  assert (run_inv run_new) as Hnew.
  { split; cbn; [|done|done]. intros _. split_and!; [set_solver..|done|unfold queued; cbn; lia]. }
  intros Hr. induction Hr; eauto using node_run_step_inv.
Qed.

(** [run] can go on to return. *)
Definition returns (r : node_run) : Prop := ∃ r', rtc run_step r r' ∧ run_at r' = RunReturned (Ok ()).

Lemma returns_step r r' : run_step r r' → returns r' → returns r.
Proof. intros Hs (r2 & Hr & ?). exists r2. split; [by eapply rtc_l|done]. Qed.

Definition fits (r : node_run) : Prop := length (queued r) + length (manual r) ≤ DISCOVERED_PEER_QUEUE_SIZE.

Lemma forward_returns r : run_at r = RunForward → returns r.
Proof.
  intros Hat. eapply returns_step; [by apply run_forward|]. eapply returns_step; [by apply run_connect|].
  by eexists.
Qed.

Lemma push_returns m : ∀ r, run_at r = RunPush → manual r = m → fits r → returns r.
Proof.
  induction m as [|x m IH]; intros r Hat Hm Hf.
  - eapply returns_step; [by apply run_discovery, start_pushed|]. by apply forward_returns.
  - unfold fits, manual, queued in *. destruct (node_discovery (run_node r)) as [t b q m' p] eqn:Hd. cbn in *.
    subst m'. eapply returns_step; [eapply run_discovery, start_pushes; [done|exact Hd|cbn in Hf; lia]|].
    apply IH; [done|done|]. unfold queued, manual. cbn. rewrite length_app. cbn in *. lia.
Qed.

Lemma listen_returns todo : is_ok (start_listener (new_lookup_service peer_id config)) = true →
  ∀ r, run_at r = RunListen todo ∨ run_at r = RunLookup ∨ run_at r = RunRefresh → fits r → returns r.
Proof.
  intros Hl.
  assert (∀ r, run_at r = RunRefresh → fits r → returns r) as Hrefresh.
  { intros r Hat Hf. eapply returns_step; [by apply run_discovery, start_refresh|]. by eapply push_returns. }
  assert (∀ r, run_at r = RunLookup → fits r → returns r) as Hlookup.
  { intros r Hat Hf. destruct (start_listener _) as [[e|]|] eqn:He; [| |done].
    - eapply returns_step; [by eapply run_discovery, start_lookup_listens|]. by apply Hrefresh.
    - eapply returns_step; [by eapply run_discovery, start_lookup_none|]. by apply Hrefresh. }
  induction todo as [|e todo IH]; intros r [Hat|[Hat|Hat]] Hf; try (by apply Hlookup); try (by apply Hrefresh).
  - eapply returns_step; [by apply run_listened|]. by apply Hlookup.
  - eapply returns_step; [by eapply run_listens|]. apply IH; [by left|done].
Qed.

Lemma run_returns r :
  is_ok (proto_version ping_protocol) = true →
  is_ok (start_listener (new_lookup_service peer_id config)) = true →
  run_inv r → length (manual_peers config) ≤ DISCOVERED_PEER_QUEUE_SIZE →
  (∀ err, run_at r ≠ RunReturned (Err err)) → returns r.
Proof.
  intros Hv Hl Hinv Hlen Hno.
  assert (starting (run_at r) = true → fits r) as Hf.
  { intros Hs. destruct (ri_starting r Hinv Hs) as (_ & _ & Hq & _). unfold fits.
    by rewrite <-length_app, Hq. }
  assert (∀ r, run_at r = RunPool → fits r → returns r) as Hpool.
  { intros r0 Hat Hf0. eapply returns_step; [by apply run_pool|]. eapply listen_returns; [done|by left|done]. }
  destruct (run_at r) as [| |todo| | | | | |[[]|err]] eqn:Hat.
  - destruct (run_attach r ping_protocol) as [res r'] eqn:Ha.
    destruct (run_attach_spec r _ res r' Ha) as (Hat' & _ & Hq & Hm & _ & Hres). rewrite Hv in Hres.
    destruct res as [[]|]; [|done]. eapply returns_step; [by eapply run_core_protocols|].
    apply Hpool; [done|]. specialize (Hf eq_refl). unfold fits in *. by rewrite <-Hq, <-Hm in Hf.
  - by apply Hpool; [|apply Hf].
  - eapply listen_returns; [done|by left|by apply Hf].
  - by eapply (listen_returns []); [|auto|apply Hf].
  - by eapply (listen_returns []); [|auto|apply Hf].
  - by eapply push_returns; [| |apply Hf].
  - by apply forward_returns.
  - eapply returns_step; [by apply run_connect|]. by eexists.
  - by exists r.
  - by destruct (Hno err).
Qed.

(** A push that finds the queue full waits for ever: nobody takes from the queue
    before [run] has returned. *)
Lemma push_waits r r' :
  DISCOVERED_PEER_QUEUE_SIZE < length (manual_peers config) →
  run_inv r → run_at r = RunPush → rtc run_step r r' → run_at r' = RunPush.
Proof.
  intros Hlen Hinv Hat Hr. revert Hinv Hat. induction Hr as [|r r1 r2 Hs Hr IH]; [done|]. intros Hinv Hat.
  apply IH; [by eapply node_run_step_inv|]. destruct (ri_starting r Hinv) as (_ & _ & Hq & Hl); [by rewrite Hat|].
  destruct Hs as [r s ? ?|r P|r res r' ? Ha| | | | |r r' Hs| |]; try congruence.
  - done.
  - destruct (run_attach r P) as [res r'] eqn:Ha. destruct (run_attach_spec r P res r' Ha) as [Hat' _]. cbn. congruence.
  - destruct Hs as [| | | | |r t b q x m p ? Hd ?|r Hat' Hm]; try congruence; [done|].
    exfalso. unfold manual in Hq. rewrite Hm, app_nil_r in Hq. rewrite Hq in Hl. lia.
Qed.

(** C23: when starting a node returns.  With endpoints its parts accept, [run] can
    always go on to return, however the tasks it has started interleave with it,
    exactly when the manual peers of the configuration fit into the queue of
    discovered peers: [Discovery::start] pushes all of them, and the task that takes
    them from the queue is spawned only when it is back.  With more of them [run]
    waits for ever.  Meanwhile the node makes the steps of [NodeSystem], so that
    what is proved of those holds of a node that starts. *)
Theorem node_run_returns :
  is_ok (proto_version ping_protocol) = true →
  is_ok (start_listener (new_lookup_service peer_id config)) = true →
  (length (manual_peers config) ≤ DISCOVERED_PEER_QUEUE_SIZE → ∀ r,
    rtc run_step run_new r → (∀ err, run_at r ≠ RunReturned (Err err)) →
    ∃ r', rtc run_step r r' ∧ run_at r' = RunReturned (Ok ())) ∧
  (DISCOVERED_PEER_QUEUE_SIZE < length (manual_peers config) → ∀ r,
    rtc run_step run_new r → run_at r ≠ RunReturned (Ok ()) ∧
    (run_at r = RunPush → ∀ r', rtc run_step r r' → run_at r' = RunPush)) ∧
  (∀ r, rtc run_step run_new r → rtc (node_step config peer_id) (node_new config peer_id) (run_node r)).
Proof.
  intros Hv Hl. split_and!.
  - intros Hlen r Hr%run_reachable_inv Hno. by apply run_returns.
  - intros Hlen r Hr%run_reachable_inv. split; [|intros; by eapply push_waits].
    intros Hat. pose proof (ri_started r Hr) as Hle. rewrite Hat in Hle. specialize (Hle eq_refl ltac:(done)). lia.
  - intros r Hr%run_reachable_inv. apply Hr.
Qed.

End run.

(** The state of a new node is the one [NodeSystem] starts from. *)
Lemma Node_new_initial `{Semver} `{SipHash} `{Dalek} kp config p :
  Node_new kp config = Ready p → initial p = node_new config (np_peer_id _ p).
Proof.
  unfold Node_new, KademliaDiscovery_new, LookupService_new.
  destruct (expect_peer_id kp) as [|id|]; try done. by intros [= <-].
Qed.

(** ** Shutting down *)

(** The task groups of a node and of its discovery. *)
Inductive node_group :=
| GNode | GPool | GConnector | GListener
| GDiscovery | GRefresh | GLookupConnector | GLookupListener.

#[global] Instance node_group_eq_dec : EqDecision node_group.
Proof. solve_decision. Defined.

(** Their tasks, by the function that is spawned. *)
Inductive node_task :=
| TForwardPeerEvents | TConnectDiscoveredPeers
| TPoolRun | TPeerRun
| THandleOutbound
| TListenLoop | TServeInbound
| TConnectLoop
| TRefreshListen | TRefreshLoop
| TLookupListen | TLookupServe.

(** Where [spawn] and [spawn_then] are called, and the cancellations of
    [Node::shutdown] with those of [KademliaDiscovery::shutdown],
    [LookupService::shutdown] and the others it calls.  [run_over] says whether the
    call of [Node::run] was over when the shutdown was called: if not, it spawns its
    tasks meanwhile or later.  The tasks of a peer are in a group of its own, which
    [Peer::shutdown] cancels. *)
Definition node_root (t : node_task) : bool :=
  match t with TPeerRun | THandleOutbound | TServeInbound | TLookupServe => false | _ => true end.

Definition node_layout (run_over : bool) : layout node_group node_task := {|
  group_of t :=
    match t with
    | TForwardPeerEvents | TConnectDiscoveredPeers => GNode
    | TPoolRun | TPeerRun => GPool
    | THandleOutbound => GConnector
    | TListenLoop | TServeInbound => GListener
    | TConnectLoop => GDiscovery
    | TRefreshListen | TRefreshLoop => GRefresh
    | TLookupListen | TLookupServe => GLookupListener
    end;
  spawners t :=
    match t with
    | TPeerRun => [TPoolRun]
    | THandleOutbound => [TConnectDiscoveredPeers]
    | TServeInbound => [TListenLoop]
    | TLookupServe => [TLookupListen]
    | _ => []
    end;
  root := node_root;
  Lifecycle.late t := negb run_over && node_root t;
  order := [GDiscovery; GRefresh; GLookupConnector; GLookupListener; GPool; GConnector; GListener; GNode];
|}.

(** The tasks of single connections. *)
Definition connection_task (t : node_task) : bool :=
  match t with TPeerRun | THandleOutbound | TServeInbound | TLookupServe => true | _ => false end.

(** The number of groups that are cancelled when the one of the pool is. *)
Definition POOL_CANCELLED : nat := 5.

#[global] Instance stop_pc_eq_dec : EqDecision stop_pc.
Proof. solve_decision. Defined.

(** [PeerPool::shutdown] cancels its group, reads the map of peers and shuts them
    down one after the other, holding the lock of the map.  A peer is anything that is
    built in some state ([pnew]), makes steps and is shut down at some point. *)
Section shutdown.
Context {P : Type} (pnew : P → Prop) (pstep : P → P → Prop) (pdone : P → Prop) (run_over : bool).
Abbreviation L := (node_layout run_over).

(** The tasks of the node, the map of the pool, and once the shutdown has read it the
    order in which it visits the peers, with the number of those it is done with. *)
Record node_stop := mkStop {
  ns_sys : system node_group node_task;
  ns_peers : gmap PeerID P;
  ns_closing : option (list PeerID * nat);
}.

Definition stop_new : node_stop := mkStop new_system ∅ None.

(** The shutdown is over with the peers; it holds the lock of the map. *)
Definition closed (c : option (list PeerID * nat)) : Prop :=
  match c with Some (ids, k) => k = length ids | None => False end.
Definition read_locked (c : option (list PeerID * nat)) : Prop :=
  match c with Some (ids, k) => k < length ids | None => False end.

Inductive stop_step : node_stop → node_stop → Prop :=
| stop_tasks s s' m c :
    sys_step L s s' → (stop s = StopNext POOL_CANCELLED → stop s' = stop s ∨ closed c) →
    stop_step (mkStop s m c) (mkStop s' m c)
(** [new_peer], from the loop of the pool, and [remove_peer]; *)
| pool_admits s m c pid p id :
    running L s TPoolRun id → m !! pid = None → pnew p → ¬ read_locked c →
    stop_step (mkStop s m c) (mkStop s (<[pid := p]> m) c)
| pool_removes s m c pid :
    ¬ read_locked c → stop_step (mkStop s m c) (mkStop s (delete pid m) c)
(** a peer goes on; *)
| stop_peer s m c pid p p' :
    m !! pid = Some p → pstep p p' → stop_step (mkStop s m c) (mkStop s (<[pid := p']> m) c)
(** the shutdown visits the peers of the map in some order. *)
| stop_reads_peers s m ids :
    stop s = StopNext POOL_CANCELLED → ids ≡ₚ (map_to_list m).*1 →
    stop_step (mkStop s m None) (mkStop s m (Some (ids, 0)))
| stop_peer_closed s m ids k pid p :
    ids !! k = Some pid → m !! pid = Some p → pdone p →
    stop_step (mkStop s m (Some (ids, k))) (mkStop s m (Some (ids, S k))).

(** A node whose shutdown has returned. *)
Definition node_shut_down (s : node_stop) : Prop :=
  rtc stop_step stop_new s ∧ stop (ns_sys s) = StopNext (length (order L)).

(** Whether the shutdown of a peer can return. *)
Definition closable (p : P) : Prop := ∃ p', rtc pstep p p' ∧ pdone p'.
Definition all_closable (m : gmap PeerID P) : Prop := ∀ pid p, m !! pid = Some p → closable p.

(** A peer that is shut down stays so. *)
Context (Hstable : ∀ p p', pstep p p' → pdone p → pdone p').

Definition before_peers (p : stop_pc) : Prop :=
  match p with
  | StopNotCalled => True
  | StopNext i => i ≤ POOL_CANCELLED
  | StopWait i _ => i < POOL_CANCELLED
  end.

Definition after_pool (p : stop_pc) : Prop := ∃ i, stop_count p = Some i ∧ POOL_CANCELLED ≤ i.

Record stop_inv (s : node_stop) : Prop := {
  sti_sys : rtc (sys_step L) new_system (ns_sys s);
  sti_before : ns_closing s = None → before_peers (stop (ns_sys s));
  sti_closing ids k : ns_closing s = Some (ids, k) →
    k ≤ length ids ∧ (k < length ids → stop (ns_sys s) = StopNext POOL_CANCELLED) ∧
    after_pool (stop (ns_sys s));
  (** With the pool's loop gone, the map has no peer that the shutdown has not read. *)
  sti_read ids k pid : run_over = true → ns_closing s = Some (ids, k) →
    is_Some (ns_peers s !! pid) → pid ∈ ids;
  sti_locked ids k pid : ns_closing s = Some (ids, k) → k < length ids → pid ∈ ids → is_Some (ns_peers s !! pid);
  sti_done ids k j pid p : run_over = true → ns_closing s = Some (ids, k) → j < k → ids !! j = Some pid →
    ns_peers s !! pid = Some p → pdone p;
}.

Lemma before_step s s' :
  sys_step L s s' → (stop s = StopNext POOL_CANCELLED → stop s' = stop s) →
  before_peers (stop s) → before_peers (stop s').
Proof.
  intros Hs Hg. destruct Hs as [| | |s Hst|s i g Hst Ho|s i k g d Hst Ho Hc]; cbn in *; try done; rewrite Hst in *.
  - intros _. unfold POOL_CANCELLED. cbn. lia.
  - cbn. intros Hi. destruct (decide (i = POOL_CANCELLED)) as [->|]; [by specialize (Hg eq_refl)|lia].
  - cbn. lia.
Qed.

Lemma after_step s s' : sys_step L s s' → after_pool (stop s) → after_pool (stop s').
Proof.
  intros Hs (i & Hi & Hle). destruct Hs as [| | |s Hst|s i' g Hst Ho|s i' k g d Hst Ho Hc]; cbn in *;
    try (by exists i); rewrite Hst in Hi; cbn in Hi; try done; injection Hi as <-; [by exists i'|exists (S i'); split; [done|lia]].
Qed.

(** Nobody is admitted any more. *)
Lemma pool_gone s id :
  run_over = true → rtc (sys_step L) new_system s → after_pool (stop s) → ¬ running L s TPoolRun id.
Proof.
  intros Hover Hr%sys_reachable_inv (i & Hi & Hle) Hrun. apply (running_not_over _ _ _ _ Hrun).
  eapply (si_gone _ _ Hr i); [done| |apply Hrun]. rewrite Hover. clear -Hle.
  assert (∃ n, i = n + POOL_CANCELLED) as [n ->] by (exists (i - POOL_CANCELLED); lia).
  induction n as [|n IH]; [by vm_compute|]. cbn [Nat.add stopped]. by rewrite IH by lia.
Qed.

Lemma stop_step_inv s s' : stop_step s s' → stop_inv s → stop_inv s'.
Proof using Hstable.
  intros Hs [H1 H2 H3 H4 H5 H6].
  destruct Hs as [s s' m c Hs Hg|s m c pid p id Hrun Hpid Hp Hl|s m c pid Hl|s m c pid p p' Hpid Hp
    |s m ids Hst Hids|s m ids k pid p Hk Hpid Hp]; cbn in *.
  - split; cbn; [by eapply rtc_r| | |done|done|done].
    + intros ->. eapply before_step; [exact Hs| |by apply H2]. intros Hst. by destruct (Hg Hst).
    + intros ids k ->. destruct (H3 ids k eq_refl) as (Hle & Hlt & Ha).
      split_and!; [done| |by eapply after_step]. intros Hk. specialize (Hlt Hk).
      destruct (Hg Hlt) as [->|Hc]; [done|]. cbn in Hc. lia.
  - assert (run_over = true → ∀ ids k, c = Some (ids, k) → False) as Hno.
    { intros Ho ids k ->. destruct (H3 ids k eq_refl) as (_ & _ & Ha). by eapply pool_gone. }
    split; cbn; try done; [by intros; exfalso; eapply Hno| |by intros; exfalso; eapply Hno].
    intros ids k pid' -> Hk. by destruct Hl.
  - split; cbn; try done.
    + intros ids k pid' Ho Hc Hp. apply (H4 ids k); [done..|]. destruct Hp as [p Hp].
      apply lookup_delete_Some in Hp as [_ Hp]. by eexists.
    + intros ids k pid' -> Hk. by destruct Hl.
    + intros ids k j pid' p Ho Hc Hj Hid [_ Hp]%lookup_delete_Some. by eapply H6.
  - split; cbn; try done.
    + intros ids k pid' Ho Hc Hp'. apply (H4 ids k); [done..|]. apply lookup_insert_is_Some' in Hp' as [<-|?]; [by eexists|done].
    + intros ids k pid' Hc Hk Hin. apply lookup_insert_is_Some'. right. by eapply H5.
    + intros ids k j pid' p2 Ho Hc Hj Hid [[<- <-]|[_ Hp2]]%lookup_insert_Some; [|by eapply H6].
      eapply Hstable; [done|]. by eapply H6.
  - assert (∀ pid, pid ∈ ids ↔ is_Some (m !! pid)) as Hin.
    { intros pid. rewrite Hids, list_elem_of_fmap. split.
      - intros ([pid' p] & -> & ?%elem_of_map_to_list). by eexists.
      - intros [p ?]. exists (pid, p). split; [done|]. by apply elem_of_map_to_list. }
    split; cbn; [done|done|..].
    + intros ? ? [= <- <-]. split_and!; [lia|done|]. exists POOL_CANCELLED. by rewrite Hst.
    + intros ? ? pid _ [= <- <-]. by rewrite Hin.
    + intros ? ? pid [= <- <-] _. by rewrite Hin.
    + intros ? ? j pid p _ [= <- <-]. lia.
  - pose proof (lookup_lt_Some _ _ _ Hk) as Hlt. destruct (H3 ids k eq_refl) as (Hle & Hst & Ha).
    split; cbn; [done|done|..].
    + intros ? ? [= <- <-]. split_and!; [lia|auto|done].
    + intros ? ? pid' Ho [= <- <-]. by eapply H4.
    + intros ? ? pid' [= <- <-] ?. by eapply H5.
    + intros ? ? j pid' p' Ho [= <- <-] Hj Hid Hp'. destruct (decide (j = k)) as [->|]; [by simplify_eq|].
      eapply (H6 ids k j); [done|done|lia|done..].
Qed.

Lemma stop_reachable s : rtc stop_step stop_new s → stop_inv s.
Proof using Hstable.
  assert (stop_inv stop_new) as Hnew by (by split).
  intros Hr. revert Hnew. induction Hr; eauto using stop_step_inv.
Qed.

(** The shutdown of one peer, and of those that are left. *)
Lemma peer_lift s m c pid p p' :
  rtc pstep p p' → m !! pid = Some p → rtc stop_step (mkStop s m c) (mkStop s (<[pid := p']> m) c).
Proof.
  intros Hr. revert m. induction Hr as [p|p p1 p2 Hs _ IH]; intros m Hi; [by rewrite insert_id|].
  eapply rtc_l; [by eapply stop_peer|]. rewrite <-(insert_insert_eq m pid p2 p1). apply IH, lookup_insert_eq.
Qed.

Lemma close_peers s ids n : ∀ m k,
  length ids = k + n → (∀ pid, pid ∈ drop k ids → is_Some (m !! pid)) → all_closable m →
  ∃ m', rtc stop_step (mkStop s m (Some (ids, k))) (mkStop s m' (Some (ids, length ids))) ∧ all_closable m'.
Proof.
  induction n as [|n IH]; intros m k Hlen Hin Hall; [exists m; by rewrite Hlen, Nat.add_0_r|].
  destruct (lookup_lt_is_Some_2 ids k) as [pid Hpid]; [lia|]. rewrite (drop_S ids pid k Hpid) in Hin.
  destruct (Hin pid) as [p Hp]; [by left|]. destruct (Hall pid p Hp) as (p' & Hr & Hd).
  destruct (IH (<[pid := p']> m) (S k)) as (m' & Hr' & Hall'); [lia| | |].
  - intros pid' Hpid'. apply lookup_insert_is_Some'. right. apply Hin. by right.
  - intros pid' p2 [[<- <-]|[_ Hp2]]%lookup_insert_Some; [by exists p'|by eapply Hall].
  - exists m'. split; [|done]. etrans; [by eapply peer_lift|]. eapply rtc_l; [|exact Hr'].
    eapply stop_peer_closed; [done|apply lookup_insert_eq|done].
Qed.

(** A run of the tasks is one of the shutdown, when the peers can be waited for. *)
Lemma stop_lift s s' m c :
  rtc (sys_step L) s s' → all_closable m → closed c ∨ c = None →
  ∃ m' c', rtc stop_step (mkStop s m c) (mkStop s' m' c') ∧ (closed c' ∨ c' = None).
Proof.
  intros Hr. revert m c. induction Hr as [s|s s1 s2 Hs _ IH]; intros m c Hm Hc; [by exists m, c|].
  assert (∃ m1 c1, rtc stop_step (mkStop s m c) (mkStop s1 m1 c1) ∧ all_closable m1 ∧
    (closed c1 ∨ c1 = None)) as (m1 & c1 & Hr1 & Hm1 & Hc1).
  { destruct Hc as [Hc| ->].
    { exists m, c. split_and!; [apply rtc_once, stop_tasks; auto|done|by left]. }
    destruct (decide (stop s = StopNext POOL_CANCELLED)) as [Hst|Hst].
    - destruct (close_peers s (map_to_list m).*1 (length (map_to_list m).*1) m 0) as (m1 & Hr1 & Hm1); [done| |done|].
      { intros pid ([pid' p] & -> & ?%elem_of_map_to_list)%list_elem_of_fmap. by eexists. }
      exists m1, (Some ((map_to_list m).*1, length (map_to_list m).*1)). split_and!; [|done|by left].
      eapply rtc_l; [by eapply stop_reads_peers|]. eapply rtc_r; [exact Hr1|]. apply stop_tasks; [done|by right].
    - exists m, None. split_and!; [by apply rtc_once, stop_tasks|done|by right]. }
  destruct (IH m1 c1 Hm1 Hc1) as (m2 & c2 & Hr2 & Hc2). exists m2, c2. split; [by etrans|done].
Qed.

(** A peer whose shutdown cannot return holds the shutdown of the node. *)
Definition stuck_at (s : node_stop) (ids : list PeerID) (k : nat) : Prop :=
  ns_closing s = Some (ids, k) ∧
  ∃ pid p, ids !! k = Some pid ∧ ns_peers s !! pid = Some p ∧ ¬ closable p.

Lemma stuck_peer_step s s' ids k : stop_step s s' → stuck_at s ids k → stuck_at s' ids k.
Proof.
  intros Hs [Hc (pid & p & Hk & Hp & Hn)].
  assert (read_locked (ns_closing s)) as Hl by (rewrite Hc; by eapply lookup_lt_Some).
  destruct Hs as [s s' m c Hs Hg| | |s m c pid' p0 p' Hpid Hp0|s m ids' Hst Hids|s m ids' k' pid' p0 Hk' Hpid Hp0];
    cbn in *; try done.
  - split; [done|]. by exists pid, p.
  - split; [done|]. destruct (decide (pid' = pid)) as [->|].
    + simplify_eq. exists pid, p'. cbn. rewrite lookup_insert_eq. split_and!; [done..|].
      intros (p2 & Hr & ?). apply Hn. exists p2. split; [by eapply rtc_l|done].
    + exists pid, p. cbn. by rewrite lookup_insert_ne.
  - simplify_eq. destruct Hn. by exists p0.
Qed.

Lemma stuck_peer_forever s s' ids k :
  rtc stop_step s s' → stop_inv s → stuck_at s ids k → stop (ns_sys s') = StopNext POOL_CANCELLED.
Proof using Hstable.
  intros Hr. induction Hr as [s|s s1 s2 Hs _ IH]; intros Hinv Hst.
  - destruct Hst as [Hc (pid & p & Hk & _)]. apply (sti_closing s Hinv ids k Hc). by eapply lookup_lt_Some.
  - apply IH; [by eapply stop_step_inv|by eapply stuck_peer_step].
Qed.

Lemma node_spawnable t : spawnable L t.
Proof.
  destruct t; try (by apply spawnable_root; left);
    (eapply spawnable_by; [|by cbn; left]; by apply spawnable_root; left).
Qed.

Lemma node_stopped t :
  stopped L (length (order L)) t = false ↔ run_over = false ∨ connection_task t = true.
Proof. clear. by destruct run_over, t; vm_compute; split; auto; intros []. Qed.

(** The peers that are left in the map when the shutdown has returned. *)
Lemma shut_peers_done s pid p :
  run_over = true → node_shut_down s → ns_peers s !! pid = Some p → pdone p.
Proof using Hstable.
  intros Ho [Hr Hs] Hp. pose proof (stop_reachable s Hr) as Hinv.
  destruct (ns_closing s) as [[ids k]|] eqn:Hc.
  - destruct (sti_closing s Hinv ids k Hc) as (Hle & Hlt & _).
    assert (k = length ids) as -> by (destruct (decide (k < length ids)) as [Hk|]; [by rewrite (Hlt Hk) in Hs|lia]).
    assert (pid ∈ ids) as [j Hj]%list_elem_of_lookup by (eapply (sti_read s Hinv); [done..|by eexists]).
    eapply (sti_done s Hinv ids (length ids) j); [done..|by eapply lookup_lt_Some|done|done].
  - pose proof (sti_before s Hinv Hc) as Hb. rewrite Hs in Hb. cbn in Hb. unfold POOL_CANCELLED in Hb. lia.
Qed.

(** A shutdown that is closing peers gets to the end of them. *)
Lemma closing_ends s m c :
  stop_inv (mkStop s m c) → all_closable m →
  ∃ m' c', rtc stop_step (mkStop s m c) (mkStop s m' c') ∧ all_closable m' ∧ (closed c' ∨ c' = None).
Proof.
  intros Hinv Hcl. destruct c as [[ids k]|]; [|by exists m, None; split_and!; [apply rtc_refl|done|right]].
  destruct (sti_closing _ Hinv ids k eq_refl) as (Hle & _).
  destruct (close_peers s ids (length ids - k) m k) as (m1 & Hr1 & Hm1); [lia| |done|].
  - intros pid Hpid. assert (k < length ids) as Hk.
    { apply Nat.nle_gt. intros Hge. rewrite drop_ge in Hpid by done. by apply not_elem_of_nil in Hpid. }
    apply (sti_locked _ Hinv ids k); [done..|]. eapply elem_of_sublist; [done|apply sublist_drop].
  - exists m1, (Some (ids, length ids)). split_and!; [done..|by left].
Qed.


End shutdown.

(** The peers of [Connection]: one that is shut down stays so. *)
Lemma peer_done_stable `{BincodeU32} `{Bincode PeerNetMsg} `{Bincode ProtocolMsg} `{Bincode ShutdownMsg} p p' :
  PeerShutdown.peer_step p p' → Connection.shutdown_call p = Connection.ShDone →
  Connection.shutdown_call p' = Connection.ShDone.
Proof. intros [Hs|[ev ->]] Hd; [|done]. destruct Hs; cbn; congruence. Qed.

(** A peer that waits at a full queue that nobody empties, which a remote peer can
    bring about, holds the shutdown of the node. *)
Theorem node_shutdown_hangs `{BincodeU32} `{Bincode PeerNetMsg} `{Bincode ProtocolMsg} `{Bincode ShutdownMsg}
    pnew over s ids k pid p :
  let step := stop_step pnew PeerShutdown.peer_step (λ p, Connection.shutdown_call p = Connection.ShDone) over in
  rtc step stop_new s → ns_closing s = Some (ids, k) → ids !! k = Some pid → ns_peers s !! pid = Some p →
  PeerShutdown.dead_end p → ∀ s', rtc step s s' → stop (ns_sys s') = StopNext POOL_CANCELLED.
Proof.
  intros step Hr Hc Hk Hp Hd s' Hr'.
  apply (stuck_peer_forever pnew PeerShutdown.peer_step _ over peer_done_stable s s' ids k Hr');
    [by eapply stop_reachable; [exact peer_done_stable|exact Hr]|].
  split; [done|]. exists pid, p. split_and!; [done..|].
  intros (p' & Hp' & Hdone). by destruct (PeerShutdown.dead_end_forever p p' Hp' Hd).
Qed.

(** ** Witnesses *)

Section witnesses.
#[local] Existing Instances some_siphash kad_bincode.
#[local] Instance textual_semver : Semver := {|
  VersionReq := string;
  parse_req s := Some s;
  print_req s := s;
  req_matches _ _ _ _ := true;
|}.

Definition quiet_config : Config.t := Config.default_with (mkVersion _ (mkVersionInt 0 1 0) "0.1.0"%string).

Definition no_bytes (_ : string) : list Z := [].

(** With more manual peers than the queue holds; and with none. *)
Definition crowded_config : Config.t :=
  let c := quiet_config in {|
    Config.version := Config.version c;
    Config.enable_monitor := Config.enable_monitor c;
    Config.access_control := Config.access_control c;
    Config.handshake_timeout := Config.handshake_timeout c;
    Config.ping_interval := Config.ping_interval c;
    Config.ping_timeout := Config.ping_timeout c;
    Config.max_connect_retries := Config.max_connect_retries c;
    Config.bootstrap_peers := Config.bootstrap_peers c;
    Config.listen_endpoints := Config.listen_endpoints c;
    Config.discovery_endpoints := Config.discovery_endpoints c;
    Config.dial_peers := replicate 129 caller;
    Config.public_ip := Config.public_ip c;
    Config.inbound_slots := Config.inbound_slots c;
    Config.outbound_slots := Config.outbound_slots c;
    Config.seeding_interval := Config.seeding_interval c;
    Config.lookup_inbound_slots := Config.lookup_inbound_slots c;
    Config.lookup_outbound_slots := Config.lookup_outbound_slots c;
    Config.lookup_response_timeout := Config.lookup_response_timeout c;
    Config.lookup_connection_lifespan := Config.lookup_connection_lifespan c;
    Config.lookup_connect_retries := Config.lookup_connect_retries c;
    Config.refresh_interval := Config.refresh_interval c;
    Config.refresh_response_timeout := Config.refresh_response_timeout c;
    Config.refresh_connect_retries := Config.refresh_connect_retries c;
  |}.

Lemma node_run_returns_witness :
  (∃ r, rtc (run_step quiet_config (mkPeerID [1%Z]) no_bytes) (run_new quiet_config (mkPeerID [1%Z])) r ∧
    run_at r = RunReturned (Ok ())) ∧
  (∀ r, rtc (run_step crowded_config (mkPeerID [1%Z]) no_bytes) (run_new crowded_config (mkPeerID [1%Z])) r →
    run_at r ≠ RunReturned (Ok ())).
Proof.
  split.
  - destruct (node_run_returns quiet_config (mkPeerID [1%Z]) no_bytes) as (Hret & _).
    + reflexivity.
    + reflexivity.
    + apply Hret; [vm_compute; lia|apply rtc_refl|discriminate].
  - intros r Hr. destruct (node_run_returns crowded_config (mkPeerID [1%Z]) no_bytes) as (_ & Hno & _).
    + reflexivity.
    + reflexivity.
    + apply Hno; [vm_compute; lia|exact Hr].
Defined.

End witnesses.

(** A node whose shutdown was called with one peer in its pool. *)
Section shutdown_witness.
#[local] Existing Instances le32_bincode one_net_msg one_proto_msg one_shutdown_msg.

Definition fresh_peer : Connection.peer := Connection.peer_new r0 w0 ["P"%string].

Definition one_peer : node_stop :=
  mkStop (set_stop (spawn_body (node_layout true) new_system TPoolRun) (StopNext 0))
    {[ mkPeerID [1%Z] := fresh_peer ]} None.

Lemma one_peer_reachable :
  rtc (stop_step (λ p, p = fresh_peer) PeerShutdown.peer_step
    (λ p, Connection.shutdown_call p = Connection.ShDone) true) stop_new one_peer.
Proof.
  eapply rtc_l; [apply stop_tasks; [by apply (sys_start (node_layout true) _ TPoolRun); left|intros Hst; discriminate Hst]|].
  eapply rtc_l; [eapply (pool_admits _ _ _ _ _ _ _ (mkPeerID [1%Z]) fresh_peer 0); [|reflexivity|reflexivity|by intros []]|].
  { split; [vm_compute; reflexivity|]. eexists. split; vm_compute; reflexivity. }
  eapply rtc_l; [apply stop_tasks; [by apply sys_shutdown|intros Hst; discriminate Hst]|]. apply rtc_refl.
Qed.


End shutdown_witness.
