(* ===== verification/Utf8.v ===== *)
(** * UTF-8 text

    A Rust [String] is a byte string that is valid UTF-8.  This file models the
    standard library's lossy conversion from bytes ([String::from_utf8_lossy])
    and proves that its result is always valid and that it leaves valid text
    alone. *)

From S2P Require Import Prelude.

Local Open Scope Z_scope.

(** The bytes of an ASCII literal. *)
Definition bytes_of (s : string) : list Z :=
  map (λ a, Z.of_nat (Ascii.nat_of_ascii a)) (String.list_ascii_of_string s).

(** The width of a sequence from its first byte; zero for a byte that starts none. *)
Definition utf8_char_width (b : Z) : nat :=
  if b <? 128 then 1 else if b <? 194 then 0 else if b <? 224 then 2
  else if b <? 240 then 3 else if b <? 245 then 4 else 0.

Definition is_cont (b : Z) : bool := Z.land b 192 =? 128.

Definition between (lo hi b : Z) : bool := (lo <=? b) && (b <=? hi).

(** The second byte of three- and four-byte sequences. *)
Definition second_of_3 (b c : Z) : bool :=
  if b =? 224 then between 160 191 c
  else if between 225 236 b then between 128 191 c
  else if b =? 237 then between 128 159 c
  else between 238 239 b && between 128 191 c.

Definition second_of_4 (b c : Z) : bool :=
  if b =? 240 then between 144 191 c
  else if between 241 243 b then between 128 191 c
  else (b =? 244) && between 128 143 c.

(** One turn of the decoder on a non-empty input: whether a valid sequence was
    read, and how many bytes were consumed.  A byte past the end reads as 0. *)
Definition next_char (bs : list Z) : bool * nat :=
  match bs with
  | [] => (false, 0)%nat
  | b :: r =>
      let get i := nth i r 0 in
      match utf8_char_width b with
      | 1 => (true, 1)
      | 2 => if is_cont (get 0) then (true, 2) else (false, 1)
      | 3 =>
          if second_of_3 b (get 0) then
            if is_cont (get 1) then (true, 3) else (false, 2)
          else (false, 1)
      | 4 =>
          if second_of_4 b (get 0) then
            if is_cont (get 1) then
              if is_cont (get 2) then (true, 4) else (false, 3)
            else (false, 2)
          else (false, 1)
      | _ => (false, 1)
      end%nat
  end.

Arguments next_char : simpl never.

(** U+FFFD. *)
Definition REPLACEMENT : list Z := [239; 191; 189].

Fixpoint lossy (fuel : nat) (bs : list Z) : list Z :=
  match fuel, bs with
  | O, _ | _, [] => []
  | S fuel, _ =>
      let '(ok, n) := next_char bs in
      (if ok then take n bs else REPLACEMENT) ++ lossy fuel (drop n bs)
  end.

Fixpoint valid_from (fuel : nat) (bs : list Z) : bool :=
  match fuel, bs with
  | _, [] => true
  | O, _ => false
  | S fuel, _ => let '(ok, n) := next_char bs in ok && valid_from fuel (drop n bs)
  end.

(** Each turn consumes a byte: as many turns as bytes are enough. *)
Definition from_utf8_lossy (bs : list Z) : list Z := lossy (length bs) bs.
Definition valid_utf8 (bs : list Z) : bool := valid_from (length bs) bs.

(** ** Theorems *)

Lemma second_of_3_0 b : second_of_3 b 0 = false.
Proof. unfold second_of_3. repeat case_match; try done. apply andb_false_r. Qed.

Lemma second_of_4_0 b : second_of_4 b 0 = false.
Proof. unfold second_of_4. repeat case_match; try done. apply andb_false_r. Qed.

(** A turn never reads past the end. *)
Lemma next_char_bound bs : bs ≠ [] → (1 ≤ (next_char bs).2 ≤ length bs)%nat.
Proof.
  destruct bs as [|b r]; [done|]. intros _. unfold next_char.
  destruct (utf8_char_width b) as [|[|[|[|[|]]]]]; simpl; try lia;
    destruct r as [|c [|d [|e r]]]; cbn [nth]; rewrite ?second_of_3_0, ?second_of_4_0;
    simpl; repeat case_match; simplify_eq/=; lia.
Qed.

(** A valid sequence is recognised whatever follows it. *)
Lemma next_char_prefix bs n rest :
  next_char bs = (true, n) → next_char (take n bs ++ rest) = (true, n).
Proof.
  destruct bs as [|b r]; [done|]. unfold next_char.
  destruct (utf8_char_width b) as [|[|[|[|[|]]]]] eqn:Hw; try done.
  - intros [= <-]. simpl. by rewrite Hw.
  - destruct r as [|c r]; [done|]. cbn [nth]. destruct (is_cont c) eqn:Hc; [|done].
    intros [= <-]. simpl. by rewrite Hw, Hc.
  - destruct r as [|c [|d r]]; cbn [nth]; try (by repeat case_match).
    destruct (second_of_3 b c) eqn:Hc; [|done]. destruct (is_cont d) eqn:Hd; [|done].
    intros [= <-]. simpl. by rewrite Hw, Hc, Hd.
  - destruct r as [|c [|d [|e r]]]; cbn [nth]; try (by repeat case_match).
    destruct (second_of_4 b c) eqn:Hc; [|done]. destruct (is_cont d) eqn:Hd; [|done].
    destruct (is_cont e) eqn:He; [|done].
    intros [= <-]. simpl. by rewrite Hw, Hc, Hd, He.
Qed.

Lemma valid_from_mono bs : ∀ f f', (f ≤ f')%nat → valid_from f bs = true → valid_from f' bs = true.
Proof.
  intros f. revert bs. induction f as [|f IH]; intros [|b bs] [|f'] Hf; try done; try lia.
  simpl. destruct (next_char (b :: bs)) as [[] n]; simpl; [|done]. apply IH. lia.
Qed.

(** A sequence in front of valid text. *)
Lemma valid_from_cons s n rest f :
  next_char s = (true, n) → length s = n → (0 < n)%nat →
  valid_from f rest = true → valid_from (S f) (s ++ rest) = true.
Proof.
  intros Hs Hlen Hn Hrest. simpl. destruct (s ++ rest) as [|b l] eqn:Heq; [done|]. rewrite <-Heq.
  assert (next_char (s ++ rest) = (true, n)) as ->.
  { rewrite <-(firstn_all s), Hlen. by apply next_char_prefix. }
  simpl. rewrite <-Hlen, drop_app_length. done.
Qed.

(** The lossy conversion gives valid text. *)
Lemma lossy_valid fuel : ∀ bs, (length bs ≤ fuel)%nat → valid_from fuel (lossy fuel bs) = true.
Proof.
  induction fuel as [|fuel IH]; intros [|b bs] Hlen; simpl in Hlen; try done; try lia.
  cbn [lossy]. destruct (next_char (b :: bs)) as [ok n] eqn:Hn.
  pose proof (next_char_bound (b :: bs) ltac:(done)) as Hb. rewrite Hn in Hb. simpl in Hb, Hlen.
  assert (valid_from fuel (lossy fuel (drop n (b :: bs))) = true) as Hrest
    by (apply IH; rewrite length_drop; simpl; lia).
  destruct ok.
  - apply (valid_from_cons _ n); [|rewrite length_take; simpl; lia|lia|done].
    rewrite <-(app_nil_r (take n (b :: bs))). by apply next_char_prefix.
  - by apply (valid_from_cons REPLACEMENT 3); [| |lia|].
Qed.

Lemma lossy_id fuel : ∀ bs, valid_from fuel bs = true → lossy fuel bs = bs.
Proof.
  induction fuel as [|fuel IH]; intros [|b bs]; try done. cbn [valid_from lossy].
  destruct (next_char (b :: bs)) as [[] n] eqn:Hn; [|done]. intros Hv.
  rewrite IH by done. apply take_drop.
Qed.

Lemma valid_from_length fuel : ∀ bs, valid_from fuel bs = true → valid_utf8 bs = true.
Proof.
  unfold valid_utf8. induction fuel as [|fuel IH]; intros [|b bs]; try done. cbn [valid_from].
  pose proof (next_char_bound (b :: bs) ltac:(done)) as Hb. simpl in Hb |- *.
  destruct (next_char (b :: bs)) as [[] n]; simpl in Hb |- *; [|done]. intros Hv%IH.
  eapply valid_from_mono; [|exact Hv]. rewrite length_drop. simpl. lia.
Qed.

(** The lossy conversion always gives valid UTF-8, so the string it builds
    keeps the invariant of its type. *)
Lemma from_utf8_lossy_valid bs : valid_utf8 (from_utf8_lossy bs) = true.
Proof. eapply valid_from_length, lossy_valid. done. Qed.

Lemma from_utf8_lossy_id bs : valid_utf8 bs = true → from_utf8_lossy bs = bs.
Proof. apply lossy_id. Qed.
