(* ===== verification/IpText.v ===== *)
(** * IP addresses in text

    The standard library's parser and printer of [Ipv4Addr], [Ipv6Addr] and
    [IpAddr], on which endpoints, the SOCKS5 layer and peers' addresses depend.
    Texts are bytes to the parser and strings to the printer.  Printing an IPv4
    address and parsing it back gives the address. *)

From S2P Require Import Prelude Codec Utf8 Endpoint Message Version.
From Stdlib Require Import Ascii.

Local Open Scope Z_scope.

(** ** Parsing *)

(** [Ipv4Addr] and [Ipv6Addr] parse from bytes; a reader gives what is left. *)
Definition reader (A : Type) : Type := list Z → option (A * list Z).

Definition byte_digit (radix b : Z) : option Z :=
  let d := if (48 <=? b) && (b <=? 57) then b - 48
           else if (97 <=? b) && (b <=? 122) then b - 97 + 10
           else if (65 <=? b) && (b <=? 90) then b - 65 + 10 else radix in
  if d <? radix then Some d else None.

Fixpoint read_digits (radix : Z) (count : nat) (acc : Z) (bs : list Z) : nat * Z * list Z :=
  match bs with
  | b :: rest =>
      match byte_digit radix b with
      | Some d => read_digits radix (S count) (acc * radix + d) rest
      | None => (count, acc, bs)
      end
  | [] => (count, acc, [])
  end.

Definition read_number (radix : Z) (max_digits : nat) (allow_zero_prefix : bool) (bound : Z) :
    reader Z := λ bs,
  let '(count, v, rest) := read_digits radix 0 0 bs in
  if ((count =? 0) || (max_digits <? count))%nat then None
  else if negb allow_zero_prefix && bool_decide (head bs = Some 48) && (1 <? count)%nat then None
  else if v <? bound then Some (v, rest) else None.

Definition read_given_char (c : Z) : reader () := λ bs,
  match bs with
  | b :: rest => if b =? c then Some (tt, rest) else None
  | [] => None
  end.

Definition read_separator {A} (sep : Z) (first : bool) (inner : reader A) : reader A := λ bs,
  if first then inner bs
  else match read_given_char sep bs with Some (_, rest) => inner rest | None => None end.

(** [n] numbers with points between them. *)
Fixpoint read_octets (n : nat) (first : bool) : reader (list Z) := λ bs,
  match n with
  | O => Some ([], bs)
  | S n =>
      '(o, rest) ← read_separator 46 first (read_number 10 3 false 256) bs;
      '(os, rest) ← read_octets n false rest;
      Some (o :: os, rest)
  end.

Definition read_ipv4_addr : reader (list Z) := read_octets 4 true.

(** Groups of an IPv6 address, [remaining] at most, and whether they end in an IPv4
    address. *)
Fixpoint read_groups (remaining : nat) (first : bool) (bs : list Z) : list Z * bool * list Z :=
  match remaining with
  | O => ([], false, bs)
  | S remaining =>
      match (if (1 <=? remaining)%nat then read_separator 58 first read_ipv4_addr bs else None) with
      | Some ([one; two; three; four], rest) =>
          ([u16_from_be one two; u16_from_be three four], true, rest)
      | _ =>
          match read_separator 58 first (read_number 16 4 true 65536) bs with
          | Some (g, rest) =>
              let '(gs, ipv4, rest) := read_groups remaining false rest in (g :: gs, ipv4, rest)
          | None => ([], false, bs)
          end
      end
  end.

Definition read_ipv6_addr : reader (list Z) := λ bs,
  let '(hd, head_ipv4, rest) := read_groups 8 true bs in
  if (length hd =? 8)%nat then Some (hd, rest)
  else if head_ipv4 then None
  else
    '(_, rest) ← read_given_char 58 rest;
    '(_, rest) ← read_given_char 58 rest;
    let '(tail, _, rest) := read_groups (8 - (length hd + 1)) true rest in
    Some (hd ++ replicate (8 - length hd - length tail) 0 ++ tail, rest).

Definition read_all {A} (r : reader A) (bs : list Z) : option A :=
  match r bs with
  | Some (a, []) => Some a
  | _ => None
  end.

(** The octets of the address. *)
Definition parse_ipv4 (bs : list Z) : option (list Z) :=
  if len bs >? 15 then None else read_all read_ipv4_addr bs.
Definition parse_ipv6 (bs : list Z) : option (list Z) :=
  mjoin ∘ fmap u16_to_be <$> read_all read_ipv6_addr bs.

(** [str::parse::<IpAddr>]. *)
Definition parse_ip (s : string) : option IpAddr :=
  match parse_ipv4 (bytes_of s) with
  | Some o => Some (V4 o)
  | None => V6 <$> parse_ipv6 (bytes_of s)
  end.

(** ** Printing *)

Definition ipv4_to_string (o : list Z) : string := String.concat "." (print_u64 <$> o).

(** [{:x}]. *)
Definition hex_digit (d : Z) : ascii :=
  ascii_of_nat (if d <? 10 then 48 + Z.to_nat d else 87 + Z.to_nat d).
Fixpoint hex_digits (fuel : nat) (z : Z) (acc : string) : string :=
  match fuel with
  | O => acc
  | S fuel =>
      let acc := String (hex_digit (z mod 16)) acc in
      if z / 16 =? 0 then acc else hex_digits fuel (z / 16) acc
  end.
Definition print_hex (z : Z) : string := hex_digits 4 z EmptyString.

Fixpoint segments (o : list Z) : list Z :=
  match o with
  | hi :: lo :: o => u16_from_be hi lo :: segments o
  | _ => []
  end.

(** The first of the longest runs of zeros, as its start and length. *)
Fixpoint longest_zeros (i : nat) (current longest : nat * nat) (segs : list Z) : nat * nat :=
  match segs with
  | [] => longest
  | s :: segs =>
      if s =? 0 then
        let current := if (current.2 =? 0)%nat then (i, 1%nat) else (current.1, S current.2) in
        longest_zeros (S i) current (if (longest.2 <? current.2)%nat then current else longest) segs
      else longest_zeros (S i) (O, O) longest segs
  end.

Definition fmt_subslice (segs : list Z) : string := String.concat ":" (print_hex <$> segs).

Definition ipv6_to_string (o : list Z) : string :=
  if bool_decide (take 12 o = replicate 10 0 ++ [255; 255])
  then ("::ffff:" +:+ ipv4_to_string (drop 12 o))%string
  else
    let segs := segments o in
    let '(start, n) := longest_zeros 0 (O, O) (O, O) segs in
    if (1 <? n)%nat
    then (fmt_subslice (take start segs) +:+ "::" +:+ fmt_subslice (drop (start + n) segs))%string
    else fmt_subslice segs.

Definition ip_to_string (i : IpAddr) : string :=
  match i with V4 o => ipv4_to_string o | V6 o => ipv6_to_string o end.

(** [Display] of a socket address. *)
Definition socket_addr_to_string (a : SocketAddr) : string :=
  match ip a with
  | V4 o => ipv4_to_string o +:+ ":" +:+ print_u64 (sport a)
  | V6 o => "[" +:+ ipv6_to_string o +:+ "]:" +:+ print_u64 (sport a)
  end%string.

(** ** Addresses have their length *)

Lemma read_octets_length n first bs os rest :
  read_octets n first bs = Some (os, rest) → length os = n.
Proof.
  revert first bs os rest. induction n as [|n IH]; intros first bs os rest; simpl; [naive_solver|].
  destruct (read_separator _ _ _ bs) as [[o r1]|]; [simpl|done].
  destruct (read_octets n false r1) as [[os' r2]|] eqn:H; [simpl|done].
  intros [= <- <-]. simpl. f_equal. by eapply IH.
Qed.

Lemma read_groups_length n first bs gs ipv4 rest :
  read_groups n first bs = (gs, ipv4, rest) → (length gs ≤ n)%nat.
Proof.
  revert first bs gs ipv4 rest. induction n as [|n IH]; intros first bs gs ipv4 rest; simpl; [naive_solver|].
  destruct (read_separator 58 first (read_number 16 4 true 65536) bs) as [[g r]|];
    [destruct (read_groups n false r) as [[gs' v4] r'] eqn:Hn; apply IH in Hn|];
    repeat case_match; intros; simplify_eq/=; try lia; case_match; simplify_eq; lia.
Qed.

Lemma parse_ipv4_length bs ip : parse_ipv4 bs = Some ip → length ip = 4%nat.
Proof.
  unfold parse_ipv4, read_all. case_match; [done|].
  destruct (read_ipv4_addr bs) as [[a [|]]|] eqn:H4; [|done..].
  intros [= <-]. by eapply read_octets_length.
Qed.

Lemma group_octets_length gs : length (mjoin (u16_to_be <$> gs)) = (2 * length gs)%nat.
Proof.
  induction gs as [|g gs IH]; [done|].
  change (S (S (length (mjoin (u16_to_be <$> gs)))) = (2 * S (length gs))%nat).
  rewrite IH. lia.
Qed.

Lemma read_ipv6_addr_length bs a rest : read_ipv6_addr bs = Some (a, rest) → length a = 8%nat.
Proof.
  unfold read_ipv6_addr. destruct (read_groups 8 true bs) as [[hd v4] r] eqn:Hh.
  apply read_groups_length in Hh. destruct (Nat.eqb_spec (length hd) 8); [by intros [= <- _]|].
  destruct v4; [done|]. intros ([? r1] & _ & ([? r2] & _ & H6)%bind_Some)%bind_Some.
  destruct (read_groups _ true r2) as [[tl ?] r3] eqn:Ht. apply read_groups_length in Ht.
  injection H6 as <- _. rewrite !length_app, length_replicate. lia.
Qed.

Lemma parse_ipv6_length bs ip : parse_ipv6 bs = Some ip → length ip = 16%nat.
Proof.
  unfold parse_ipv6, read_all. intros (a & Ha & ->)%fmap_Some. unfold compose.
  rewrite group_octets_length. destruct (read_ipv6_addr bs) as [[a' [|]]|] eqn:H6; [|done..].
  injection Ha as ->. by rewrite (read_ipv6_addr_length _ _ _ H6).
Qed.

(** ** Round trip *)

Lemma string_app_nil s : (s +:+ EmptyString)%string = s.
Proof. induction s as [|a s IH]; [done|]. change (String a (s +:+ EmptyString) = String a s). by rewrite IH. Qed.

Lemma bytes_of_app s s' : bytes_of (s +:+ s') = bytes_of s ++ bytes_of s'.
Proof. unfold bytes_of. induction s as [|a s IH]; simpl; [done|]. by f_equal. Qed.

Definition digits_val (radix acc : Z) (ds : list Z) : Z :=
  foldl (λ acc b, acc * radix + from_option id 0 (byte_digit radix b)) acc ds.

(** What follows a number. *)
Definition no_digit (radix : Z) (rest : list Z) : Prop :=
  match rest with b :: _ => byte_digit radix b = None | [] => True end.

Lemma read_digits_app radix count acc ds rest :
  Forall (λ b, is_Some (byte_digit radix b)) ds → no_digit radix rest →
  read_digits radix count acc (ds ++ rest) =
    ((count + length ds)%nat, digits_val radix acc ds, rest).
Proof.
  intros Hds Hrest. revert count acc. induction Hds as [|b ds [d Hd] _ IH]; intros count acc; simpl.
  - rewrite Nat.add_0_r. destruct rest as [|b rest]; simpl in *; [done|]. by rewrite Hrest.
  - rewrite Hd, IH. simpl. f_equal. f_equal. lia.
Qed.

(** The decimal text of an octet, by cases. *)
Definition octet_text_ok (b : Z) : bool :=
  let ds := bytes_of (print_u64 b) in
  forallb (λ d, bool_decide (is_Some (byte_digit 10 d))) ds &&
  (1 <=? length ds)%nat && (length ds <=? 3)%nat && (digits_val 10 0 ds =? b) &&
  (negb (bool_decide (head ds = Some 48)) || (length ds =? 1)%nat).

Lemma octet_texts : forallb octet_text_ok (seqZ 0 256) = true.
Proof. vm_compute. reflexivity. Qed.

Lemma octet_text b : is_u8 b → octet_text_ok b = true.
Proof.
  intros Hb. pose proof octet_texts as H. rewrite forallb_forall in H. apply H.
  apply list_elem_of_In, elem_of_seqZ. unfold_u. lia.
Qed.

Lemma forallb_digits ds :
  forallb (λ d, bool_decide (is_Some (byte_digit 10 d))) ds = true →
  Forall (λ b, is_Some (byte_digit 10 b)) ds.
Proof.
  rewrite forallb_forall. intros H. apply Forall_forall. intros d Hd.
  by apply list_elem_of_In, H, bool_decide_eq_true in Hd.
Qed.

Lemma read_octet b rest :
  is_u8 b → no_digit 10 rest →
  read_number 10 3 false 256 (bytes_of (print_u64 b) ++ rest) = Some (b, rest).
Proof.
  intros Hb Hrest. pose proof (octet_text b Hb) as Hok. unfold octet_text_ok in Hok.
  set (ds := bytes_of (print_u64 b)) in *.
  apply andb_prop in Hok as [Hok Hzero]. apply andb_prop in Hok as [Hok Hval].
  apply andb_prop in Hok as [Hok H3]. apply andb_prop in Hok as [Hds H1].
  apply Nat.leb_le in H1, H3. apply Z.eqb_eq in Hval.
  unfold read_number. rewrite read_digits_app; [|by apply forallb_digits|done]. rewrite Hval.
  rewrite Nat.add_0_l.
  replace ((length ds =? 0) || (3 <? length ds))%nat with false
    by (symmetry; apply orb_false_iff; split; [apply Nat.eqb_neq|apply Nat.ltb_ge]; lia).
  replace (head (ds ++ rest)) with (head ds) by (by destruct ds; simpl in *; [lia|]).
  replace (_ && _ && _) with false; [by replace (b <? 256) with true by (unfold_u; lia)|].
  simpl. destruct (bool_decide (head ds = Some 48)); simpl in *; [|done].
  apply Nat.eqb_eq in Hzero. by rewrite Hzero.
Qed.

Lemma read_point_octets os n rest :
  Forall is_u8 os → length os = n → no_digit 10 rest →
  read_octets n false (bytes_of (foldr (λ o s, "." +:+ print_u64 o +:+ s)%string EmptyString os) ++ rest) =
    Some (os, rest).
Proof.
  intros Hos <- Hrest. induction Hos as [|o os Ho _ IH]; [done|]. cbn [foldr length read_octets].
  rewrite !bytes_of_app, <-!app_assoc. unfold read_separator.
  change (bytes_of ".") with [46]. cbn [app read_given_char].
  change (if 46 =? 46 then ?a else _) with a. cbv beta iota.
  rewrite read_octet; [|done|by destruct os].
  cbn [mbind option_bind]. by rewrite IH.
Qed.

Lemma concat_points o os :
  ipv4_to_string (o :: os) =
  (print_u64 o +:+ foldr (λ o s, "." +:+ print_u64 o +:+ s) EmptyString os)%string.
Proof.
  unfold ipv4_to_string. revert o. induction os as [|o' os IH]; intros o.
  - simpl. by rewrite string_app_nil.
  - specialize (IH o'). cbn [fmap list_fmap String.concat foldr] in *. by rewrite <-IH.
Qed.

Lemma octet_text_length b : is_u8 b → (length (bytes_of (print_u64 b)) ≤ 3)%nat.
Proof.
  intros Hb. pose proof (octet_text b Hb) as Hok. unfold octet_text_ok in Hok.
  apply andb_prop in Hok as [Hok _]. apply andb_prop in Hok as [Hok _].
  apply andb_prop in Hok as [_ H3]. by apply Nat.leb_le.
Qed.

Lemma points_length os :
  Forall is_u8 os →
  (length (bytes_of (foldr (λ o s, "." +:+ print_u64 o +:+ s)%string EmptyString os)) ≤ 4 * length os)%nat.
Proof.
  induction 1 as [|o os Ho _ IH]; [done|]. cbn [foldr length]. rewrite !bytes_of_app, !length_app.
  pose proof (octet_text_length o Ho). change (length (bytes_of ".")) with 1%nat. lia.
Qed.

Lemma read_first_octet n bs :
  read_octets (S n) true bs =
    ('(o, rest) ← read_number 10 3 false 256 bs; '(os, rest) ← read_octets n false rest; Some (o :: os, rest)).
Proof. done. Qed.

(** An IPv4 address that is printed parses back. *)
Lemma ipv4_text_roundtrip o :
  is_bytes o → length o = 4%nat → parse_ipv4 (bytes_of (ipv4_to_string o)) = Some o.
Proof.
  intros Ho Hlen. destruct o as [|a os]; [done|]. apply Forall_cons in Ho as [Ha Hos].
  rewrite concat_points, bytes_of_app. injection Hlen as Hlen. unfold parse_ipv4.
  pose proof (octet_text_length a Ha) as H3. pose proof (points_length os Hos) as H12.
  assert (len (bytes_of (print_u64 a) ++ bytes_of
    (foldr (λ o s, "." +:+ print_u64 o +:+ s)%string EmptyString os)) <= 15) as H15
    by (unfold len; rewrite length_app; lia).
  rewrite Z.gtb_ltb, (proj2 (Z.ltb_ge _ _) H15).
  pose proof (read_point_octets os 3 [] Hos Hlen I) as Hr. rewrite app_nil_r in Hr.
  unfold read_all, read_ipv4_addr. rewrite read_first_octet, read_octet; [|done|by destruct os].
  cbn [mbind option_bind]. by rewrite Hr.
Qed.

Lemma parse_ip_ipv4 o :
  is_bytes o → length o = 4%nat → parse_ip (ipv4_to_string o) = Some (V4 o).
Proof. intros Ho Hl. unfold parse_ip. by rewrite ipv4_text_roundtrip. Qed.

(** Texts the standard library takes and refuses, and prints. *)
Lemma address_texts :
  parse_ipv4 (bytes_of "127.0.0.1") = Some [127; 0; 0; 1] ∧
  parse_ipv4 (bytes_of "127.0.0.01") = None ∧ parse_ipv4 (bytes_of "1.2.3.256") = None ∧
  parse_ipv6 (bytes_of "::1") = Some (replicate 15 0 ++ [1]) ∧
  parse_ipv6 (bytes_of "2001:db8::ff00:42:8329") =
    Some [32; 1; 13; 184; 0; 0; 0; 0; 0; 0; 255; 0; 0; 66; 131; 41] ∧
  parse_ipv6 (bytes_of "::ffff:1.2.3.4") = Some (replicate 10 0 ++ [255; 255; 1; 2; 3; 4]) ∧
  parse_ipv6 (bytes_of "1:2:3:4:5:6:7::8") = None ∧ parse_ipv6 (bytes_of "example.com") = None ∧
  ipv6_to_string (replicate 15 0 ++ [1]) = "::1" ∧
  ipv6_to_string [32; 1; 13; 184; 0; 0; 0; 0; 0; 0; 255; 0; 0; 66; 131; 41] =
    "2001:db8::ff00:42:8329" ∧
  ipv6_to_string (replicate 10 0 ++ [255; 255; 1; 2; 3; 4]) = "::ffff:1.2.3.4".
Proof. vm_compute. tauto. Qed.
