(* ===== verification/EndpointText.v ===== *)
(** * Endpoints in text

    Models the textual side of [net/src/endpoint.rs]: [Display] and [FromStr] of
    [Endpoint] and [Addr], the conversions of an endpoint to a path, a Unix
    socket address and a [Url], [ToEndpoint] and the remaining accessors.

    Parsing a [Url] is the url crate's; its class states what the URL standard
    says of the texts an endpoint prints.  TCP, UDP, TLS and QUIC endpoints at an
    IPv4 address or a domain, and all URL endpoints, parse back to themselves.
    IPv6 and Unix endpoints do not. *)

From S2P Require Import Prelude Codec Utf8 Endpoint Message Version IpText.
From Stdlib Require Import Ascii.

Local Open Scope Z_scope.

(** ** Texts *)

Fixpoint str_all (p : ascii → bool) (s : string) : bool :=
  match s with
  | EmptyString => true
  | String c s => p c && str_all p s
  end.

(** Characters every part of a URL takes as they are. *)
Definition plain_char (c : ascii) : bool :=
  let b := Z.of_nat (nat_of_ascii c) in
  between 48 57 b || between 65 90 b || between 97 122 b || (b =? 45) || (b =? 46).

Definition plain_host (h : string) : bool := negb (bool_decide (h = EmptyString)) && str_all plain_char h.

(** Characters of an authority without brackets. *)
Definition authority_char (c : ascii) : bool := plain_char c || bool_decide (c = ":"%char).

Fixpoint colons (s : string) : nat :=
  match s with
  | EmptyString => O
  | String c s => if decide (c = ":"%char) then S (colons s) else colons s
  end.

(** An absolute path by its segments. *)
Definition plain_segment (s : string) : bool :=
  plain_host s && negb (bool_decide (s = ".")) && negb (bool_decide (s = "..")).
Definition path_of (segs : list string) : string :=
  foldr (λ seg rest, "/" +:+ seg +:+ rest)%string EmptyString segs.

(** ** The url crate *)

(** [str::parse::<Url>], with the text of its error. *)
Class UrlCrate := url_parse : string → result string Url.

(** The schemes that carry an address and a port. *)
Definition transport_schemes : list string := ["tcp"; "udp"; "tls"; "quic"].

(** What the URL standard says of the texts endpoints have, for schemes that are
    not special: a host and a port are kept as they are written; a parsed URL
    prints to a text that parses to it; a second colon in an authority is an error;
    an IPv6 host keeps its brackets; two slashes after the scheme start an
    authority and one starts the path. *)
Class UrlLaws `{UrlCrate} : Prop := {
  url_parse_host_port sch h p :
    sch ∈ transport_schemes → plain_host h = true → is_u16 p →
    let s := (sch +:+ "://" +:+ h +:+ ":" +:+ print_u64 p)%string in
    url_parse s = Ok (mkUrl sch (Some h) (Some p) EmptyString s);
  url_parse_as_str s u : url_parse s = Ok u → url_parse (as_str u) = Ok u;
  url_parse_colons sch au :
    sch ∈ transport_schemes → str_all authority_char au = true → (2 ≤ colons au)%nat →
    ∃ e, url_parse (sch +:+ "://" +:+ au)%string = Err e;
  url_parse_brackets sch o p :
    sch ∈ transport_schemes → ip_wf (V6 o) → is_u16 p →
    ∃ h s, url_parse (sch +:+ "://[" +:+ ipv6_to_string o +:+ "]:" +:+ print_u64 p)%string =
      Ok (mkUrl sch (Some ("[" +:+ h)%string) (Some p) EmptyString s);
  url_parse_unix_authority seg segs :
    plain_segment seg = true → forallb plain_segment segs = true →
    let s := ("unix:/" +:+ path_of (seg :: segs))%string in
    url_parse s = Ok (mkUrl "unix" (Some seg) None (path_of segs) s);
  url_parse_unix_path seg segs :
    plain_segment seg = true → forallb plain_segment segs = true →
    let s := ("unix:" +:+ path_of (seg :: segs))%string in
    url_parse s = Ok (mkUrl "unix" None None (path_of (seg :: segs)) s);
}.

(** ** Addresses *)

Definition Addr_to_string (a : Addr) : string :=
  match a with
  | Ip i => ip_to_string i
  | Domain d => d
  end.

(** [IpAddr::try_from(addr)]. *)
Definition Addr_to_ip (a : Addr) : result io_kind IpAddr :=
  match a with
  | Ip i => Ok i
  | Domain _ => Err InvalidInput
  end.

(** ** Endpoints *)

Module EndpointText.

Definition new_unix_addr (addr : string) : Endpoint := Unix addr.

Definition is_ws (e : Endpoint) : bool := match e with Ws _ => true | _ => false end.
Definition is_wss (e : Endpoint) : bool := match e with Wss _ => true | _ => false end.
Definition is_http (e : Endpoint) : bool := match e with Http _ => true | _ => false end.
Definition is_https (e : Endpoint) : bool := match e with Https _ => true | _ => false end.
Definition is_unix (e : Endpoint) : bool := match e with Unix _ => true | _ => false end.

(** [Display]; paths are valid text here, so that the lossy conversion is none. *)
Definition to_string (e : Endpoint) : string :=
  match e with
  | Udp a p => "udp://" +:+ Addr_to_string a +:+ ":" +:+ print_u64 p
  | Tcp a p => "tcp://" +:+ Addr_to_string a +:+ ":" +:+ print_u64 p
  | Tls a p => "tls://" +:+ Addr_to_string a +:+ ":" +:+ print_u64 p
  | Quic a p => "quic://" +:+ Addr_to_string a +:+ ":" +:+ print_u64 p
  | Http u | Https u | Ws u | Wss u => as_str u
  | Unix path => "unix:/" +:+ path
  end%string.

(** [String::from(endpoint)]. *)
Definition into_string (e : Endpoint) : string := to_string e.

(** [PathBuf::try_from(endpoint)]. *)
Definition to_path (e : Endpoint) : result net_error string :=
  match e with
  | Unix path => Ok path
  | _ => Err TryFromEndpoint
  end.

(** [SocketAddr::from_pathname] of Unix sockets: no zero byte, and room for the
    terminating one in the 108 bytes of the address. *)
Definition from_pathname (path : string) : result io_kind string :=
  if existsb (Z.eqb 0) (bytes_of path) then Err InvalidInput
  else if 108 <=? len (bytes_of path) then Err InvalidInput
  else Ok path.

(** [UnixSocketAddr::try_from(endpoint)]. *)
Definition to_unix_addr (e : Endpoint) : result net_error string :=
  match e with
  | Unix a => map_err IO (from_pathname a)
  | _ => Err TryFromEndpoint
  end.

Section url.
Context `{UrlCrate}.

(** [Url::try_from(endpoint)]. *)
Definition to_url (e : Endpoint) : result net_error Url :=
  match e with
  | Http u | Https u | Ws u | Wss u => Ok u
  | other => map_err ParseEndpoint (url_parse (to_string other))
  end.

Definition from_str (s : string) : result net_error Endpoint :=
  url ← map_err ParseEndpoint (url_parse s);
  Endpoint.from_url parse_ip url.

End url.

(** [ToEndpoint]. *)
Class ToEndpoint (A : Type) := to_endpoint : A → result net_error Endpoint.
#[global] Instance string_to_endpoint `{UrlCrate} : ToEndpoint string := from_str.
#[global] Instance endpoint_to_endpoint : ToEndpoint Endpoint := λ e, Ok e.

End EndpointText.
Import EndpointText.

(** ** Printing and parsing *)

Definition scheme_of (e : Endpoint) : string :=
  match e with
  | Udp _ _ => "udp" | Tcp _ _ => "tcp" | Tls _ _ => "tls" | Quic _ _ => "quic"
  | Http _ => "http" | Https _ => "https" | Ws _ => "ws" | Wss _ => "wss" | Unix _ => "unix"
  end.

(** Addresses whose text is read back as the same address. *)
Definition addr_text_ok (a : Addr) : Prop :=
  match a with
  | Ip (V4 o) => ip_wf (V4 o)
  | Ip (V6 _) => False
  | Domain d => plain_host d = true ∧ parse_ip d = None
  end.

(** Endpoints whose text is read back as the same endpoint. *)
Definition text_ok `{UrlCrate} (e : Endpoint) : Prop :=
  match e with
  | Udp a p | Tcp a p | Tls a p | Quic a p => addr_text_ok a ∧ is_u16 p
  | Http u | Https u | Ws u | Wss u => url_parse (as_str u) = Ok u ∧ scheme u = scheme_of e
  | Unix _ => False
  end.

(** *** Characters *)

Lemma str_all_app p s s' : str_all p (s +:+ s')%string = str_all p s && str_all p s'.
Proof.
  induction s as [|c s IH]; [done|]. change (p c && str_all p (s +:+ s') = p c && str_all p s && str_all p s').
  by rewrite IH, andb_assoc.
Qed.

Lemma str_all_impl (p q : ascii → bool) s :
  (∀ c, p c = true → q c = true) → str_all p s = true → str_all q s = true.
Proof.
  intros Hpq. induction s as [|c s IH]; [done|]. simpl. intros [Hc Hs]%andb_prop.
  by rewrite (Hpq c Hc), IH.
Qed.

Lemma colons_app s s' : colons (s +:+ s')%string = (colons s + colons s')%nat.
Proof.
  induction s as [|c s IH]; [done|].
  change ((if decide (c = ":"%char) then S (colons (s +:+ s')) else colons (s +:+ s')) =
    ((if decide (c = ":"%char) then S (colons s) else colons s) + colons s')%nat).
  case_decide; rewrite IH; lia.
Qed.

Lemma str_all_concat p sep (l : list string) :
  str_all p sep = true → Forall (λ s, str_all p s = true) l → str_all p (String.concat sep l) = true.
Proof.
  intros Hsep Hl. induction Hl as [|s [|s' l] Hs Hl IH]; [done..|].
  change (str_all p (s +:+ sep +:+ String.concat sep (s' :: l)) = true).
  by rewrite !str_all_app, Hs, Hsep, IH.
Qed.

Lemma plain_authority s : str_all plain_char s = true → str_all authority_char s = true.
Proof. apply str_all_impl. intros c Hc. unfold authority_char. by rewrite Hc. Qed.

Lemma digits_plain :
  forallb (λ n, let c := ascii_of_nat n in negb (bool_decide (is_Some (to_digit c))) || plain_char c)
    (seq 0 256) = true.
Proof. vm_compute. reflexivity. Qed.

Lemma digit_plain c : is_Some (to_digit c) → plain_char c = true.
Proof.
  intros Hc. pose proof digits_plain as H. rewrite forallb_forall in H.
  specialize (H (nat_of_ascii c)). cbv zeta in H. rewrite ascii_nat_embedding in H.
  rewrite bool_decide_true in H by done. apply H.
  pose proof (nat_ascii_bounded c). apply in_seq. lia.
Qed.

Lemma all_digits_plain s : all_digits s → str_all plain_char s = true.
Proof. induction s as [|c s IH]; [done|]. intros [Hc Hs]. simpl. by rewrite digit_plain, IH. Qed.

Lemma print_u64_plain w z : is_u w z → w ≤ 64 → str_all plain_char (print_u64 z) = true.
Proof.
  intros [Hz Hz'] Hw. apply all_digits_plain, all_digits_print, is_u_bound.
  pose proof (Z.pow_le_mono_r 2 w 64 eq_refl Hw). lia.
Qed.

Lemma hex_digits_are_plain : forallb (λ d, plain_char (hex_digit d)) (seqZ 0 16) = true.
Proof. vm_compute. reflexivity. Qed.

Lemma hex_digit_plain d : 0 ≤ d < 16 → plain_char (hex_digit d) = true.
Proof.
  intros Hd. pose proof hex_digits_are_plain as H. rewrite forallb_forall in H. apply H.
  apply list_elem_of_In, elem_of_seqZ. lia.
Qed.

Lemma hex_digits_plain fuel z acc :
  str_all plain_char acc = true → str_all plain_char (hex_digits fuel z acc) = true.
Proof.
  revert z acc. induction fuel as [|fuel IH]; intros z acc Hacc; [done|]. simpl.
  assert (str_all plain_char (String (hex_digit (z mod 16)) acc) = true)
    by (simpl; by rewrite hex_digit_plain by (apply Z.mod_pos_bound; lia)).
  case_match; [done|]. by apply IH.
Qed.

(** *** The texts of addresses *)

Lemma ipv4_text_plain o :
  is_bytes o → length o = 4%nat → plain_host (ipv4_to_string o) = true.
Proof.
  intros Ho Hl. unfold plain_host. apply andb_true_intro. split.
  - destruct (bool_decide_reflect (ipv4_to_string o = EmptyString)) as [He|]; [|done].
    pose proof (ipv4_text_roundtrip o Ho Hl) as Hr. rewrite He in Hr. by vm_compute in Hr.
  - apply str_all_concat; [done|]. apply Forall_fmap. eapply Forall_impl; [exact Ho|].
    intros b Hb. by apply (print_u64_plain 8).
Qed.

Lemma fmt_subslice_chars segs : str_all authority_char (fmt_subslice segs) = true.
Proof.
  apply str_all_concat; [done|]. apply Forall_fmap, Forall_true. intros z.
  apply plain_authority. by apply hex_digits_plain.
Qed.

Lemma segments_length o n : length o = (2 * n)%nat → length (segments o) = n.
Proof.
  revert o. induction n as [|n IH]; intros o Ho; destruct o as [|a [|b o]]; simpl in *; try lia.
  f_equal. apply IH. lia.
Qed.

Lemma ipv6_text o :
  ip_wf (V6 o) →
  str_all authority_char (ipv6_to_string o) = true ∧ (1 ≤ colons (ipv6_to_string o))%nat.
Proof.
  intros [Hl Ho]. unfold ipv6_to_string. case_bool_decide.
  - rewrite str_all_app, colons_app. split; [|simpl; lia].
    apply andb_true_intro; split; [done|]. apply plain_authority.
    apply str_all_concat; [done|]. apply Forall_fmap. eapply Forall_impl; [by apply Forall_drop|].
    intros b Hb. by apply (print_u64_plain 8).
  - destruct (longest_zeros 0 (0, 0)%nat (0, 0)%nat (segments o)) as [start n].
    pose proof (segments_length o 8 Hl) as Hs. case_match.
    + rewrite !str_all_app, !colons_app, !fmt_subslice_chars. split; [done|simpl; lia].
    + split; [apply fmt_subslice_chars|].
      destruct (segments o) as [|g [|g' gs]]; [done..|]. unfold fmt_subslice. cbn [fmap list_fmap].
      change (1 ≤ colons (print_hex g +:+ ":" +:+ String.concat ":" (print_hex g' :: (print_hex <$> gs))))%nat.
      rewrite !colons_app. simpl. lia.
Qed.

Lemma bracket_no_ip h : parse_ip ("[" +:+ h)%string = None.
Proof.
  unfold parse_ip, parse_ipv4, parse_ipv6. rewrite bytes_of_app. change (bytes_of "[") with [91].
  generalize (bytes_of h). intros bs.
  assert (read_all read_ipv4_addr ([91] ++ bs) = None) as -> by reflexivity.
  assert (read_all read_ipv6_addr ([91] ++ bs) = None) as -> by reflexivity.
  by destruct (len _ >? 15).
Qed.

(** *** Round trip *)

Section roundtrip.
Context `{UrlLaws}.

Lemma url_to_addr_ok a u :
  addr_text_ok a → host_str u = Some (Addr_to_string a) → Endpoint.url_to_addr parse_ip u = Ok a.
Proof.
  unfold Endpoint.url_to_addr. intros Ha ->. destruct a as [[o|o]|d]; simpl in *; [|done|].
  - destruct Ha. by rewrite parse_ip_ipv4.
  - by destruct Ha as [_ ->].
Qed.

Lemma addr_text_plain a : addr_text_ok a → plain_host (Addr_to_string a) = true.
Proof. destruct a as [[o|o]|d]; simpl; [|done|naive_solver]. intros []. by apply ipv4_text_plain. Qed.

(** The constructor a transport scheme names. *)
Definition transport (sch : string) : Addr → Z → Endpoint :=
  if decide (sch = "tcp") then Tcp else if decide (sch = "udp") then Udp
  else if decide (sch = "tls") then Tls else Quic.

Lemma transport_cases (P : string → Prop) sch :
  sch ∈ transport_schemes → P "tcp" → P "udp" → P "tls" → P "quic" → P sch.
Proof. unfold transport_schemes. set_solver. Qed.

Lemma from_url_transport sch a p u :
  sch ∈ transport_schemes → scheme u = sch → url_port u = Some p →
  Endpoint.url_to_addr parse_ip u = Ok a → Endpoint.from_url parse_ip u = Ok (transport sch a p).
Proof.
  intros Hsch Hs Hp Ha. revert sch Hsch Hs.
  intros sch Hsch. apply (transport_cases (λ sch, scheme u = sch → _) sch Hsch); intros Hs;
    unfold Endpoint.from_url; rewrite Hs; simpl; rewrite Ha, Hp; done.
Qed.

Lemma transport_text sch a p :
  sch ∈ transport_schemes →
  to_string (transport sch a p) = (sch +:+ "://" +:+ Addr_to_string a +:+ ":" +:+ print_u64 p)%string.
Proof. intros Hsch. pattern sch. by apply (transport_cases _ sch Hsch). Qed.

Lemma transport_roundtrip sch a p :
  sch ∈ transport_schemes → addr_text_ok a → is_u16 p →
  ∃ u, url_parse (to_string (transport sch a p)) = Ok u ∧
    Endpoint.from_url parse_ip u = Ok (transport sch a p).
Proof.
  intros Hsch Ha Hp. rewrite transport_text by done.
  eexists. split; [by apply url_parse_host_port; [|apply addr_text_plain|]|].
  apply from_url_transport; [done..|]. by apply url_to_addr_ok.
Qed.

Lemma transport_ipv6 sch o p :
  sch ∈ transport_schemes → ip_wf (V6 o) → is_u16 p →
  (∃ e, from_str (to_string (transport sch (Ip (V6 o)) p)) = Err (ParseEndpoint e)) ∧
  ∃ d, from_str (sch +:+ "://[" +:+ ipv6_to_string o +:+ "]:" +:+ print_u64 p)%string =
    Ok (transport sch (Domain ("[" +:+ d)%string) p).
Proof.
  intros Hsch Ho Hp. destruct (ipv6_text o Ho) as [Hall Hc]. split.
  - rewrite transport_text by done. unfold from_str.
    cbn [Addr_to_string ip_to_string].
    destruct (url_parse_colons sch (ipv6_to_string o +:+ ":" +:+ print_u64 p)%string Hsch) as [e ->];
      [|rewrite !colons_app; simpl; lia|by exists e].
    rewrite !str_all_app, Hall. simpl. apply plain_authority. by apply (print_u64_plain 16).
  - unfold from_str. destruct (url_parse_brackets sch o p Hsch Ho Hp) as (h & s & ->). exists h.
    cbn [map_err mbind result_bind]. apply from_url_transport; [done..|].
    unfold Endpoint.url_to_addr. cbn [host_str ok_or mbind result_bind]. by rewrite bracket_no_ip.
Qed.

Lemma url_roundtrip e u :
  text_ok e → e ∈ [Http u; Https u; Ws u; Wss u] →
  url_parse (to_string e) = Ok u ∧ Endpoint.from_url parse_ip u = Ok e.
Proof.
  intros He Hin%list_elem_of_In. destruct Hin as [<-|[<-|[<-|[<-|[]]]]];
    destruct He as [Hp Hs]; simpl in *; (split; [done|]); unfold Endpoint.from_url; by rewrite Hs.
Qed.

Lemma parsed_roundtrip e :
  text_ok e → ∃ u, url_parse (to_string e) = Ok u ∧ Endpoint.from_url parse_ip u = Ok e ∧ to_url e = Ok u.
Proof.
  intros He.
  assert (∀ sch a p, e = transport sch a p → sch ∈ transport_schemes → addr_text_ok a → is_u16 p →
    to_url e = map_err ParseEndpoint (url_parse (to_string e)) →
    ∃ u, url_parse (to_string e) = Ok u ∧ Endpoint.from_url parse_ip u = Ok e ∧ to_url e = Ok u) as Ht.
  { intros sch a p -> Hsch Ha Hp ->. destruct (transport_roundtrip sch a p) as (u & Hu & ?); [done..|].
    exists u. by rewrite Hu. }
  destruct e as [a p|a p|a p|a p|u|u|u|u|path]; try done.
  - destruct He. apply (Ht "udp" a p); [done|set_solver|done..].
  - destruct He. apply (Ht "tcp" a p); [done|set_solver|done..].
  - destruct He. apply (Ht "tls" a p); [done|set_solver|done..].
  - destruct He. apply (Ht "quic" a p); [done|set_solver|done..].
  - exists u. destruct (url_roundtrip (Http u) u); [done|set_solver|done].
  - exists u. destruct (url_roundtrip (Https u) u); [done|set_solver|done].
  - exists u. destruct (url_roundtrip (Ws u) u); [done|set_solver|done].
  - exists u. destruct (url_roundtrip (Wss u) u); [done|set_solver|done].
Qed.

(** The endpoints that carry a URL. *)
Definition is_url (e : Endpoint) : bool := is_http e || is_https e || is_ws e || is_wss e.

Lemma from_url_url u e :
  Endpoint.from_url parse_ip u = Ok e → is_url e = true →
  as_str u = to_string e ∧ to_url e = Ok u ∧ scheme u = scheme_of e.
Proof.
  unfold Endpoint.from_url. intros Hu He.
  do 4 (case_decide; [by injection Hu as <-|]). case_bool_decide.
  - destruct (Endpoint.url_to_addr _ _); simpl in *; [|done].
    destruct (ok_or _ _); simpl in *; [|done]. by repeat case_decide; simplify_eq.
  - by repeat case_decide; simplify_eq.
Qed.

Lemma parsed_url_ok s e : from_str s = Ok e → is_url e = true → text_ok e.
Proof.
  unfold from_str. destruct (url_parse s) as [u|] eqn:Hs; [simpl|done]. intros Hu He.
  destruct (from_url_url u e Hu He) as (Has & Hto & Hsch). apply url_parse_as_str in Hs.
  destruct e; try done; simpl in *; simplify_eq/=; done.
Qed.

Lemma unix_text seg segs :
  plain_segment seg = true → forallb plain_segment segs = true →
  let path := path_of (seg :: segs) in
  from_str ("unix:" +:+ path) = Ok (Unix path) ∧
  from_str (to_string (Unix path)) =
    if decide (segs = []) then Err (UnsupportedEndpoint (to_string (Unix path)))
    else Ok (Unix (path_of segs)).
Proof.
  intros Hseg Hsegs path. unfold from_str. split.
  - unfold path. by rewrite url_parse_unix_path.
  - change (to_string (Unix path)) with ("unix:/" +:+ path_of (seg :: segs))%string.
    rewrite url_parse_unix_authority by done. by destruct segs.
Qed.

End roundtrip.

(** C31: what endpoints print and what the text means.  A TCP, UDP, TLS or QUIC
    endpoint at an IPv4 address or at a domain with any port, and an endpoint
    that holds a parsed URL, print to a text that parses to the same endpoint, also
    by way of a [Url]; every URL endpoint that was parsed is such an endpoint.  An
    IPv6 endpoint prints to a text that is an error, and the bracketed form parses
    to a domain that begins with the bracket.  A Unix path after [unix:] is read as
    it is, but a Unix endpoint prints to a text that parses to its path without the
    first segment, or to an error if it has only one. *)
Theorem endpoint_text `{UrlLaws} :
  (∀ e, text_ok e → from_str (into_string e) = Ok e ∧
    ∃ u, to_url e = Ok u ∧ Endpoint.from_url parse_ip u = Ok e) ∧
  (∀ s e, from_str s = Ok e → is_url e = true → text_ok e) ∧
  (∀ sch o p, sch ∈ transport_schemes → ip_wf (V6 o) → is_u16 p →
    (∃ e, from_str (to_string (transport sch (Ip (V6 o)) p)) = Err (ParseEndpoint e)) ∧
    ∃ d, from_str (sch +:+ "://[" +:+ ipv6_to_string o +:+ "]:" +:+ print_u64 p)%string =
      Ok (transport sch (Domain ("[" +:+ d)%string) p)) ∧
  (∀ seg segs, plain_segment seg = true → forallb plain_segment segs = true →
    let path := path_of (seg :: segs) in
    from_str ("unix:" +:+ path) = Ok (Unix path) ∧
    from_str (to_string (Unix path)) =
      if decide (segs = []) then Err (UnsupportedEndpoint (to_string (Unix path)))
      else Ok (Unix (path_of segs))).
Proof.
  split_and!; [|eapply parsed_url_ok|apply transport_ipv6|apply unix_text].
  intros e He. destruct (parsed_roundtrip e He) as (u & Hu & Hf & Ht). split; [|by eauto].
  unfold from_str, into_string. by rewrite Hu.
Qed.

(** *** A reader of URLs

    Enough of the URL syntax to have the laws. *)

Fixpoint cut (c : ascii) (s : string) : string * option string :=
  match s with
  | EmptyString => (EmptyString, None)
  | String a s =>
      if decide (a = c) then (EmptyString, Some s)
      else let '(before, after) := cut c s in (String a before, after)
  end.

Definition read_port (s : string) : option Z :=
  p ← parse_digits 0 s; if p <? 65536 then Some p else None.

Definition starts (c : ascii) (s : string) : bool :=
  match s with String a _ => bool_decide (a = c) | EmptyString => false end.

Definition read_authority (au : string) : option (string * option Z) :=
  if starts "[" au then
    match cut "]" au with
    | (h, Some (String ":" p)) => p ← read_port p; Some (h +:+ "]", Some p)%string
    | _ => None
    end
  else
    match cut ":" au with
    | (h, Some p) =>
        if decide (h = EmptyString) then None else p ← read_port p; Some (h, Some p)
    | (h, None) => Some (h, None)
    end.

Definition read_url : UrlCrate := λ s,
  match cut ":" s with
  | (sch, Some (String "/" (String "/" rest))) =>
      let '(au, p) := cut "/" rest in
      match read_authority au with
      | Some (h, port) =>
          Ok (mkUrl sch (Some h) port (from_option (λ p, "/" +:+ p)%string EmptyString p) s)
      | None => Err "invalid authority"%string
      end
  | (sch, Some path) => Ok (mkUrl sch None None path s)
  | (_, None) => Err "relative URL without a base"%string
  end.

Definition without (c : ascii) : string → bool := str_all (λ a, negb (bool_decide (a = c))).

Lemma cut_app c s s' : without c s = true → cut c (s +:+ String c s')%string = (s, Some s').
Proof.
  induction s as [|a s IH]; [by intros _; simpl; rewrite decide_True|].
  unfold without. simpl. intros [Ha%negb_true_iff%bool_decide_eq_false Hs]%andb_prop.
  change (String.append s (String c s')) with (s +:+ String c s')%string.
  by rewrite decide_False, IH.
Qed.

Lemma cut_none c s : without c s = true → cut c s = (s, None).
Proof.
  induction s as [|a s IH]; [done|].
  unfold without. simpl. intros [Ha%negb_true_iff%bool_decide_eq_false Hs]%andb_prop.
  by rewrite decide_False, IH.
Qed.

Lemma cut_colons s :
  (1 ≤ colons s)%nat → ∃ a b, cut ":" s = (a, Some b) ∧ colons s = S (colons b).
Proof.
  induction s as [|c s IH]; simpl; [lia|]. case_decide; [by eauto|]. intros Hc.
  destruct (IH Hc) as (a & b & -> & ?). by eauto.
Qed.

Lemma parse_digits_colon acc s : (1 ≤ colons s)%nat → parse_digits acc s = None.
Proof.
  revert acc. induction s as [|c s IH]; intros acc; simpl; [lia|]. case_decide as Hc.
  - intros _. by subst.
  - intros Hs. destruct (to_digit c); [simpl|done]. case_match; [by apply IH|done].
Qed.

Lemma without_str (p : ascii → bool) c s : p c = false → str_all p s = true → without c s = true.
Proof.
  intros Hc. apply str_all_impl. intros a Ha.
  destruct (bool_decide_reflect (a = c)) as [->|]; [congruence|done].
Qed.

Lemma read_port_print p : is_u16 p → read_port (print_u64 p) = Some p.
Proof.
  intros Hp. unfold read_port, print_u64. unfold_u.
  rewrite (parse_dec_digits 20 p EmptyString); [|lia..]. simpl.
  by rewrite (proj2 (Z.ltb_lt _ _)) by lia.
Qed.

Lemma transport_without sch : sch ∈ transport_schemes → without ":" sch = true.
Proof. intros Hs. unfold transport_schemes in Hs. set_unfold in Hs. by destruct_or!; subst. Qed.

Lemma read_url_authority sch au path s :
  without ":" sch = true → without "/" au = true →
  path = EmptyString ∨ starts "/" path = true →
  s = (sch +:+ "://" +:+ au +:+ path)%string →
  read_url s = match read_authority au with
               | Some (h, port) => Ok (mkUrl sch (Some h) port path s)
               | None => Err "invalid authority"%string
               end.
Proof.
  intros Hsch Hau Hpath Hs. unfold read_url. rewrite Hs at 1.
  change ("://" +:+ au +:+ path)%string with (String ":" ("//" +:+ au +:+ path)).
  rewrite cut_app by done. cbv beta iota.
  change ("//" +:+ au +:+ path)%string with (String "/" (String "/" (au +:+ path))). cbv beta iota.
  destruct path as [|c path].
  - rewrite string_app_nil, cut_none by done. done.
  - assert (c = "/"%char) as ->.
    { destruct Hpath as [|Hp]; [done|]. by apply bool_decide_eq_true in Hp. }
    rewrite cut_app by done. done.
Qed.

Lemma prefix_bracket_plain s s' : str_all authority_char s = true → s ≠ EmptyString →
  starts "[" (s +:+ s') = false.
Proof.
  destruct s as [|c s]; [done|]. simpl. intros [Hc _]%andb_prop _.
  destruct (bool_decide_reflect (c = "["%char)) as [->|]; [by vm_compute in Hc|done].
Qed.

Lemma plain_host_without h c :
  plain_host h = true → plain_char c = false → without c h = true ∧ h ≠ EmptyString.
Proof.
  unfold plain_host. intros [Hne%negb_true_iff%bool_decide_eq_false Hh]%andb_prop Hc.
  split; [by apply (without_str plain_char)|done].
Qed.

Lemma authority_without au c :
  str_all authority_char au = true → authority_char c = false → without c au = true.
Proof. intros Hau Hc. by apply (without_str authority_char). Qed.

Lemma read_host_port h p :
  plain_host h = true → is_u16 p →
  read_authority (h +:+ ":" +:+ print_u64 p) = Some (h, Some p) ∧
  str_all authority_char (h +:+ ":" +:+ print_u64 p) = true.
Proof.
  intros Hh Hp. destruct (plain_host_without h ":" Hh) as [Hc Hne]; [done|].
  apply andb_prop in Hh as [_ Hh%plain_authority].
  assert (str_all authority_char (print_u64 p) = true)
    by (apply plain_authority; by apply (print_u64_plain 16)).
  split; [|by rewrite !str_all_app, Hh].
  unfold read_authority. rewrite prefix_bracket_plain by done.
  change (":" +:+ print_u64 p)%string with (String ":" (print_u64 p)).
  by rewrite cut_app, decide_False, read_port_print.
Qed.

Lemma read_colons au :
  str_all authority_char au = true → (2 ≤ colons au)%nat → read_authority au = None.
Proof.
  intros Hau Hc. unfold read_authority.
  replace (starts "[" au) with false
    by (rewrite <-(string_app_nil au), prefix_bracket_plain; [done..|by intros ->; simpl in Hc; lia]).
  destruct (cut_colons au) as (a & b & -> & Hb); [lia|]. case_decide; [done|].
  unfold read_port. by rewrite parse_digits_colon by lia.
Qed.

Lemma read_brackets o p :
  ip_wf (V6 o) → is_u16 p →
  read_authority ("[" +:+ ipv6_to_string o +:+ "]:" +:+ print_u64 p) =
    Some ("[" +:+ ipv6_to_string o +:+ "]", Some p)%string.
Proof.
  intros Ho Hp. destruct (ipv6_text o Ho) as [Hall _].
  unfold read_authority. change (starts "[" ("[" +:+ _)) with true. cbv iota.
  change ("[" +:+ ipv6_to_string o +:+ "]:" +:+ print_u64 p)%string
    with (("[" +:+ ipv6_to_string o) +:+ String "]" (String ":" (print_u64 p)))%string.
  rewrite cut_app by (change (without "]" (ipv6_to_string o) = true); by apply authority_without).
  by rewrite read_port_print.
Qed.

Lemma path_of_starts segs : path_of segs = EmptyString ∨ starts "/" (path_of segs) = true.
Proof. destruct segs; [by left|by right]. Qed.

Lemma plain_segment_host s : plain_segment s = true → plain_host s = true.
Proof. unfold plain_segment. by intros [[? _]%andb_prop _]%andb_prop. Qed.

#[export] Instance read_url_laws : @UrlLaws read_url.
Proof.
  split; unfold url_parse.
  - intros sch h p Hsch Hh Hp. destruct (read_host_port h p Hh Hp) as [Hr Hau].
    rewrite (read_url_authority sch (h +:+ ":" +:+ print_u64 p) EmptyString);
      [by rewrite Hr|by apply transport_without|by apply authority_without|by left|by rewrite string_app_nil].
  - intros s u. unfold read_url. intros Hu. assert (as_str u = s) as -> by (by repeat case_match; simplify_eq).
    done.
  - intros sch au Hsch Hau Hc. eexists.
    rewrite (read_url_authority sch au EmptyString);
      [by rewrite read_colons|by apply transport_without|by apply authority_without|by left|by rewrite string_app_nil].
  - intros sch o p Hsch Ho Hp. destruct (ipv6_text o Ho) as [Hall _].
    eexists _, _.
    rewrite (read_url_authority sch ("[" +:+ ipv6_to_string o +:+ "]:" +:+ print_u64 p) EmptyString);
      [rewrite read_brackets by done; reflexivity|by apply transport_without| |by left|by rewrite string_app_nil].
    unfold without. rewrite !str_all_app. change (str_all _ "[" && ?x) with x.
    change (str_all _ "]:" && ?x) with x. apply andb_true_intro; split; [by apply authority_without|].
    apply authority_without; [|done]. apply plain_authority. by apply (print_u64_plain 16).
  - intros seg segs Hseg%plain_segment_host Hsegs.
    destruct (plain_host_without seg "/" Hseg) as [Hs Hne]; [done|].
    destruct (plain_host_without seg ":" Hseg) as [Hs' _]; [done|].
    rewrite (read_url_authority "unix" seg (path_of segs)); [|done|done|apply path_of_starts|done].
    unfold read_authority.
    replace (starts "[" seg) with false
      by (rewrite <-(string_app_nil seg), prefix_bracket_plain; [done| |done];
          apply andb_prop in Hseg as [_ ?]; by apply plain_authority).
    by rewrite cut_none.
  - intros seg segs Hseg%plain_segment_host Hsegs. unfold read_url.
    change ("unix:" +:+ path_of (seg :: segs))%string
      with ("unix" +:+ String ":" (path_of (seg :: segs)))%string.
    rewrite cut_app by done.
    destruct (plain_host_without seg "/" Hseg) as [Hs Hne]; [done|].
    destruct seg as [|c seg]; [done|]. change (path_of (String c seg :: segs)) with
      (String "/" (String c (seg +:+ path_of segs))).
    unfold without in Hs. simpl in Hs. apply andb_prop in Hs as [Hc%negb_true_iff%bool_decide_eq_false _].
    clear -Hc. destruct c as [[] [] [] [] [] [] [] []]; done.
Qed.

Lemma endpoint_text_witness :
  @from_str read_url (to_string (Tcp (Ip (V4 [127; 0; 0; 1])) 3000)) =
    Ok (Tcp (Ip (V4 [127; 0; 0; 1])) 3000) ∧
  @from_str read_url (to_string (Quic (Domain "example.com") 65535)) = Ok (Quic (Domain "example.com") 65535) ∧
  (∃ e, @from_str read_url "tcp://::1:80" = Err (ParseEndpoint e)) ∧
  @from_str read_url (to_string (Unix "/home/x/s.socket")) = Ok (Unix "/x/s.socket").
Proof.
  destruct (@endpoint_text read_url read_url_laws) as (Hok & _ & H6 & Hu). split_and!.
  - apply (Hok (Tcp (Ip (V4 [127; 0; 0; 1])) 3000)). by vm_compute; repeat constructor.
  - apply (Hok (Quic (Domain "example.com") 65535)). by vm_compute; repeat constructor.
  - destruct (H6 "tcp"%string (replicate 15 0 ++ [1]) 80) as [He _]; [by left| |done|exact He].
    split; [done|]. by repeat constructor.
  - apply (Hu "home"%string ["x"; "s.socket"]%string); reflexivity.
Defined.
