(* ===== verification/Timed.v ===== *)
(** * Futures in time

    Models [core/src/async_util]: [select.rs], [sleep.rs] and [timeout.rs].

    A future is what it gives and when, in milliseconds since it was first polled,
    or that it never completes.  [Select::poll] is the code's poll function over
    the polls of two futures; [select] is its outcome in time, which
    [select_polls] relates to it.  The rest of the library uses the futures as a
    monad, with the errors of [Result] inside. *)

From S2P Require Import Prelude Codec.

Local Open Scope Z_scope.

Inductive timed (A : Type) :=
| Never
| At (t : Z) (a : A).
Arguments Never {A}.
Arguments At {A} _ _.

(** What a poll at an instant answers. *)
Definition poll_at {A} (f : timed A) (now : Z) : option A :=
  match f with
  | Never => None
  | At t a => if t <=? now then Some a else None
  end.

(** Futures complete after they start. *)
Definition timed_wf {A} (f : timed A) : Prop :=
  match f with Never => True | At t _ => 0 ≤ t end.

(** ** [async] blocks *)

#[export] Instance timed_ret : MRet timed := λ A a, At 0 a.
#[export] Instance timed_bind : MBind timed := λ A B f c,
  match c with
  | Never => Never
  | At t a =>
      match f a with
      | Never => Never
      | At t' b => At (t + t') b
      end
  end.
#[export] Instance timed_fmap : FMap timed := λ A B f c,
  match c with Never => Never | At t a => At t (f a) end.

(** A fallible operation, and [?] after [await]. *)
Definition try_await {E A B} (c : timed (result E A)) (f : A → timed (result E B)) :
    timed (result E B) :=
  c ≫= λ r, match r with Ok a => f a | Err e => mret (Err e) end.
Definition now {E A} (r : result E A) : timed (result E A) := mret r.

Declare Scope timed_scope.
Notation "x ⇐ c ; k" := (try_await c (λ x, k))
  (at level 20, c at level 100, k at level 200, right associativity) : timed_scope.
Notation "' x ⇐ c ; k" := (try_await c (λ x, k))
  (at level 20, x pattern, c at level 100, k at level 200, right associativity) : timed_scope.

Local Open Scope timed_scope.

(** ** [select.rs] *)

Inductive Either (A B : Type) :=
| Left (a : A)
| Right (b : B).
Arguments Left {A B} _.
Arguments Right {A B} _.

Module Select.

(** [Select::poll], with the answers of the two futures. *)
Definition poll {A B} (future1 : option A) (future2 : option B) : option (Either A B) :=
  match future1 with
  | Some t => Some (Left t)
  | None =>
      match future2 with
      | Some t => Some (Right t)
      | None => None
      end
  end.

End Select.

Definition select {A B} (future1 : timed A) (future2 : timed B) : timed (Either A B) :=
  match future1, future2 with
  | Never, Never => Never
  | At t a, Never => At t (Left a)
  | Never, At t b => At t (Right b)
  | At t1 a, At t2 b => if t1 <=? t2 then At t1 (Left a) else At t2 (Right b)
  end.

(** ** [sleep.rs] and [timeout.rs] *)

Definition sleep (duration : Z) : timed () := At duration ().

Definition timeout {A} (delay : Z) (future1 : timed A) : timed (result core_error A) :=
  (λ r, match r with
        | Left _ => Err CoreTimeout
        | Right res => Ok res
        end) <$> select (sleep delay) future1.

(** [timeout(..).await??] in a function that fails with errors of type [F]. *)
Definition timeout_try {E F A} (core : core_error → F) (from : E → F) (delay : Z)
    (f : timed (result E A)) : timed (result F A) :=
  (λ r, match r with
        | Err e => Err (core e)
        | Ok r => map_err from r
        end) <$> timeout delay f.

(** ** Theorems *)

(** Up to the instant at which one of the futures is ready, polling [Select] is
    polling the outcome. *)
Lemma select_polls {A B} (f1 : timed A) (f2 : timed B) now :
  (∀ past, past < now → Select.poll (poll_at f1 past) (poll_at f2 past) = None) →
  Select.poll (poll_at f1 now) (poll_at f2 now) = poll_at (select f1 f2) now.
Proof.
  intros Hpast. destruct f1 as [|t1 a], f2 as [|t2 b]; simpl in *; [done|by destruct (_ <=? _)..|].
  destruct (Z.leb_spec t1 t2); simpl; destruct (Z.leb_spec t1 now), (Z.leb_spec t2 now);
    simpl; try done; try lia.
  specialize (Hpast t2). rewrite (proj2 (Z.leb_gt t1 t2)), Z.leb_refl in Hpast by lia.
  assert (t2 < now) as Hlt by lia. by apply Hpast in Hlt.
Qed.

(** A timeout completes: with what the future gives before the delay, and with
    an error at the delay otherwise. *)
Lemma timeout_cases {A} delay (f : timed A) :
  (∃ t a, f = At t a ∧ t < delay ∧ timeout delay f = At t (Ok a)) ∨
  (∀ t a, f = At t a → delay ≤ t) ∧ timeout delay f = At delay (Err CoreTimeout).
Proof.
  unfold timeout, select, sleep. destruct f as [|t a]; simpl.
  - right. split; [done|]. done.
  - destruct (Z.leb_spec delay t); simpl.
    + right. split; [by intros ? ? [= <- <-]|done].
    + left. by exists t, a.
Qed.

Lemma timeout_try_completes {E F A} core (from : E → F) delay (f : timed (result E A)) :
  timed_wf f → 0 ≤ delay → ∃ t r, timeout_try core from delay f = At t r ∧ 0 ≤ t ≤ delay.
Proof.
  intros Hf Hd. unfold timeout_try.
  destruct (timeout_cases delay f) as [(t & a & -> & Ht & ->)|[_ ->]]; simpl in *;
    eexists _, _; (split; [done|lia]).
Qed.

Lemma try_await_Ok {E A B} (c : timed (result E A)) (k : A → timed (result E B)) t b :
  try_await c k = At t (Ok b) ↔
  ∃ t1 a t2, c = At t1 (Ok a) ∧ k a = At t2 (Ok b) ∧ t = t1 + t2.
Proof.
  unfold try_await, mbind, timed_bind, mret, timed_ret. split.
  - destruct c as [|t1 [a|e]]; [done| |by intros [=]].
    destruct (k a) as [|t2 b'] eqn:Hk; [done|]. intros [= <- ->]. by exists t1, a, t2.
  - intros (t1 & a & t2 & -> & -> & ->). done.
Qed.

Lemma now_Ok {E A} (r : result E A) t a : now r = At t (Ok a) ↔ t = 0 ∧ r = Ok a.
Proof. unfold now, mret, timed_ret. naive_solver. Qed.

Lemma map_err_timed_Ok {E F A} (f : E → F) (c : timed (result E A)) t a :
  map_err f <$> c = At t (Ok a) ↔ c = At t (Ok a).
Proof. destruct c as [|t' [b|e]]; simpl; naive_solver. Qed.

Lemma ok_or_Ok {E A} (o : option A) (e : E) a : ok_or o e = Ok a ↔ o = Some a.
Proof. destruct o; simpl; naive_solver. Qed.

(** Inverts the completion of an [async] block. *)
Ltac inv_timed :=
  repeat match goal with
  | H : try_await _ _ = At _ (Ok _) |- _ =>
      let t := fresh "t" in let t' := fresh "t" in let a := fresh "a" in
      apply try_await_Ok in H as (t & a & t' & ? & H & ?)
  | H : now _ = At _ (Ok _) |- _ => apply now_Ok in H as [? H]
  | H : (map_err _ <$> _) = At _ (Ok _) |- _ => apply map_err_timed_Ok in H
  | H : map_err _ _ = Ok _ |- _ => apply map_err_Ok in H
  | H : ok_or _ _ = Ok _ |- _ => apply ok_or_Ok in H
  | H : Ok _ = Ok _ |- _ => injection H as H
  | H : Err _ = Ok _ |- _ => discriminate H
  | H : now (Err _) = At _ (Ok _) |- _ => apply now_Ok in H as [_ H]; discriminate H
  end; subst.
