(* ===== verification/Transports.v ===== *)
(** * Byte streams and their transports

    Models [net/src/stream.rs], [layer.rs], [transports/tcp.rs], [unix.rs] and
    [udp.rs] and [layers/tls.rs]: how streams are made, which endpoints and
    certificates they report, and what their listeners answer.  The forwarding
    [AsyncRead] and [AsyncWrite] implementations have no content of their own.

    The sockets of the runtime and the resolver are the operations of the class
    [Os]; the TLS library is the class [Rustls].  An operation that waits is a
    future ([Timed]). *)

From S2P Require Import Prelude Codec Endpoint Message Version IpText EndpointText Timed.

Local Open Scope Z_scope.
Local Open Scope timed_scope.

(** ** The runtime's sockets *)

Record TcpSocket := mkTcpSocket {
  t_peer_addr : result io_kind SocketAddr;
  t_local_addr : result io_kind SocketAddr;
  t_set_nodelay : bool → result io_kind ();
}.

(** The address of a Unix socket, if it is a path. *)
Record UnixSocket := mkUnixSocket {
  u_peer_addr : result io_kind (option string);
  u_local_addr : result io_kind (option string);
}.

Record UdpSocket := mkUdpSocket {
  d_peer_addr : result io_kind SocketAddr;
  d_local_addr : result io_kind SocketAddr;
  d_send_to : list Z → SocketAddr → timed (result io_kind Z);
  d_recv_from : timed (result io_kind (list Z * SocketAddr));
}.

(** A listening socket by its address. *)
Definition Listening (A : Type) : Type := result io_kind A.

Class Os := {
  lookup_host : string → Z → result io_kind (list SocketAddr);
  lookup_host_async : string → Z → timed (result io_kind (list SocketAddr));
  tcp_connect : SocketAddr → timed (result io_kind TcpSocket);
  tcp_bind : SocketAddr → timed (result io_kind (Listening SocketAddr));
  unix_connect : string → timed (result io_kind UnixSocket);
  unix_bind : string → result io_kind (Listening (option string));
  udp_bind : SocketAddr → timed (result io_kind UdpSocket);
  udp_connect : UdpSocket → SocketAddr → timed (result io_kind UdpSocket);
}.

(** What a bound or connected socket reports: the address asked for, where port
    zero asks for any port; the peer that was dialed; the path that was bound. *)
Class OsLaws `{Os} : Prop := {
  tcp_bind_addr a t l : tcp_bind a = At t (Ok l) →
    ∃ a', l = Ok a' ∧ ip a' = ip a ∧ is_u16 (sport a') ∧ sport a' ≠ 0 ∧
      (sport a ≠ 0 → sport a' = sport a);
  tcp_connect_peer a t s a' : tcp_connect a = At t (Ok s) → t_peer_addr s = Ok a' → a' = a;
  unix_bind_addr p l : unix_bind p = Ok l → l = Ok (Some p);
}.

(** ** [TryFrom] and resolution with these operations *)

Definition DNS_TIMEOUT : Z := 10000.

Section resolve.
Context `{Os}.

Definition try_socket_addr (e : Endpoint) : result net_error SocketAddr :=
  Endpoint.to_socket_addr parse_ip lookup_host e.

(** [resolve_endpoint], whose lookup runs under a timeout. *)
Definition resolve_endpoint (e : Endpoint) : timed (result net_error SocketAddr) :=
  p ⇐ now (Endpoint.port e);
  a ⇐ now (Endpoint.addr parse_ip e);
  match a with
  | Ip i => now (Ok (mkSocketAddr i p))
  | Domain d =>
      addrs ⇐ timeout_try KaryonCore IO DNS_TIMEOUT (lookup_host_async d p);
      now (ok_or (head addrs) (ParseEndpoint "could not resolve"))
  end.

End resolve.

(** ** Byte streams *)

Inductive ByteStream :=
| TcpByteStream (inner : TcpSocket) (peer local : Endpoint)
| UnixByteStream (inner : UnixSocket) (peer local : option Endpoint)
| TlsByteStream (server : bool) (inner : ByteStream) (certs : option (list (list Z)))
    (peer local : option Endpoint)
| QuicBiStream (stream : Z) (peer local : Endpoint).

Module ByteStream.

Definition peer_endpoint (s : ByteStream) : option Endpoint :=
  match s with
  | TcpByteStream _ peer _ | QuicBiStream _ peer _ => Some peer
  | UnixByteStream _ peer _ | TlsByteStream _ _ _ peer _ => peer
  end.

Definition local_endpoint (s : ByteStream) : option Endpoint :=
  match s with
  | TcpByteStream _ _ local | QuicBiStream _ _ local => Some local
  | UnixByteStream _ _ local | TlsByteStream _ _ _ _ local => local
  end.

(** The default of the trait is none; TLS streams have what the peer presented. *)
Definition peer_certificates (s : ByteStream) : option (list (list Z)) :=
  match s with
  | TlsByteStream _ _ certs _ _ => certs
  | _ => None
  end.

End ByteStream.

(** [ClientLayer] and [ServerLayer]. *)
Class ClientLayer (L In Out : Type) := client_handshake : L → In → timed (result net_error Out).
Class ServerLayer (L In Out : Type) := server_handshake : L → In → timed (result net_error Out).

(** ** TCP *)

Record TcpConfig := mkTcpConfig { nodelay : bool }.
Definition TcpConfig_default : TcpConfig := mkTcpConfig true.

Record TcpListener := mkTcpListener {
  tl_inner : Listening SocketAddr;
  tl_config : TcpConfig;
}.

(** The stream over a connected socket. *)
Definition tcp_stream (socket : TcpSocket) (config : TcpConfig) : result net_error ByteStream :=
  _ ← map_err IO (t_set_nodelay socket (nodelay config));
  peer ← map_err IO (t_peer_addr socket);
  local ← map_err IO (t_local_addr socket);
  Ok (TcpByteStream socket (Endpoint.new_tcp_addr peer) (Endpoint.new_tcp_addr local)).

Module Tcp.
Section tcp.
Context `{Os}.

Definition connect (endpoint : Endpoint) (config : TcpConfig) : timed (result net_error ByteStream) :=
  addr ⇐ resolve_endpoint endpoint;
  socket ⇐ map_err IO <$> tcp_connect addr;
  now (tcp_stream socket config).

Definition bind (endpoint : Endpoint) (config : TcpConfig) : timed (result net_error TcpListener) :=
  addr ⇐ now (try_socket_addr endpoint);
  inner ⇐ map_err IO <$> tcp_bind addr;
  now (Ok (mkTcpListener inner config)).

End tcp.

(** [accept], with what the socket's accept gives. *)
Definition accept (l : TcpListener) (incoming : timed (result io_kind TcpSocket)) :
    timed (result net_error ByteStream) :=
  socket ⇐ map_err IO <$> incoming;
  now (tcp_stream socket (tl_config l)).

Definition local_endpoint (l : TcpListener) : result net_error Endpoint :=
  Endpoint.new_tcp_addr <$> map_err IO (tl_inner l).

End Tcp.

(** ** Unix sockets *)

Record UnixListener := mkUnixListener { ul_inner : Listening (option string) }.

(** [addr.ok().and_then(|a| a.as_pathname().map(..))]. *)
Definition unix_endpoint (addr : result io_kind (option string)) : option Endpoint :=
  match addr with
  | Ok (Some path) => Some (EndpointText.new_unix_addr path)
  | _ => None
  end.

Definition unix_stream (s : UnixSocket) : ByteStream :=
  UnixByteStream s (unix_endpoint (u_peer_addr s)) (unix_endpoint (u_local_addr s)).

Module UnixSock.
Section unix.
Context `{Os}.

Definition connect (endpoint : Endpoint) : timed (result net_error ByteStream) :=
  path ⇐ now (EndpointText.to_path endpoint);
  stream ⇐ map_err IO <$> unix_connect path;
  now (Ok (unix_stream stream)).

Definition bind (endpoint : Endpoint) : result net_error UnixListener :=
  path ← EndpointText.to_path endpoint;
  inner ← map_err IO (unix_bind path);
  Ok (mkUnixListener inner).

End unix.

Definition accept (l : UnixListener) (incoming : timed (result io_kind UnixSocket)) :
    timed (result net_error ByteStream) :=
  stream ⇐ map_err IO <$> incoming;
  now (Ok (unix_stream stream)).

Definition local_endpoint (l : UnixListener) : result net_error Endpoint :=
  addr ← map_err IO (ul_inner l);
  ok_or (EndpointText.new_unix_addr <$> addr) (IO AddrNotAvailable).

End UnixSock.

(** ** UDP *)

Record UdpConn := mkUdpConn { socket : UdpSocket }.

Module Udp.

Definition send_to (c : UdpConn) (buf : list Z) (addr : SocketAddr) : timed (result net_error Z) :=
  map_err IO <$> d_send_to (socket c) buf addr.

Definition recv_from (c : UdpConn) : timed (result net_error (list Z * SocketAddr)) :=
  map_err IO <$> d_recv_from (socket c).

Definition local_endpoint (c : UdpConn) : result net_error Endpoint :=
  Endpoint.new_udp_addr <$> map_err IO (d_local_addr (socket c)).

Definition peer_endpoint (c : UdpConn) : result net_error Endpoint :=
  Endpoint.new_udp_addr <$> map_err IO (d_peer_addr (socket c)).

(** [[::]:0]. *)
Definition unspecified_v6 : SocketAddr := mkSocketAddr (V6 (replicate 16 0)) 0.

Section udp.
Context `{Os}.

Definition dial (endpoint : Endpoint) : timed (result net_error UdpConn) :=
  addr ⇐ resolve_endpoint endpoint;
  socket ⇐ map_err IO <$> udp_bind unspecified_v6;
  socket ⇐ map_err IO <$> udp_connect socket addr;
  now (Ok (mkUdpConn socket)).

Definition listen (endpoint : Endpoint) : timed (result net_error UdpConn) :=
  addr ⇐ now (try_socket_addr endpoint);
  socket ⇐ map_err IO <$> udp_bind addr;
  now (Ok (mkUdpConn socket)).

End udp.
End Udp.

(** ** TLS *)

Definition ACCEPT_HANDSHAKE_TIMEOUT : Z := 10000.

(** The TLS library: its configurations, the names it takes, and the two
    handshakes, which give the certificates the peer presented. *)
Class Rustls := {
  RustlsClientConfig : Type;
  RustlsServerConfig : Type;
  server_name_ok : string → bool;
  tls_connect : RustlsClientConfig → string → ByteStream →
    timed (result io_kind (option (list (list Z))));
  tls_accept : RustlsServerConfig → ByteStream →
    timed (result io_kind (option (list (list Z))));
}.

Record ClientTlsConfig `{Rustls} := mkClientTlsConfig {
  client_config : RustlsClientConfig;
  dns_name : string;
}.
Arguments mkClientTlsConfig {_} _ _.

Record ServerTlsConfig `{Rustls} := mkServerTlsConfig { server_config : RustlsServerConfig }.
Arguments mkServerTlsConfig {_} _.

Record TlsLayer `{Rustls} := mkTlsLayer {
  tls_client : option ClientTlsConfig;
  tls_server : option ServerTlsConfig;
}.
Arguments mkTlsLayer {_} _ _.

Record TlsListener `{Rustls} := mkTlsListener {
  tls_inner : TcpListener;
  tls_layer : TlsLayer;
  tls_handshake_timeout : Z;
}.
Arguments mkTlsListener {_} _ _ _.

Module TlsLayer.
Section tls.
Context `{Rustls}.

Definition client (config : ClientTlsConfig) : TlsLayer := mkTlsLayer (Some config) None.
Definition server (config : ServerTlsConfig) : TlsLayer := mkTlsLayer None (Some config).

#[global] Instance client_layer : ClientLayer TlsLayer ByteStream ByteStream := λ self stream,
  config ⇐ now (ok_or (tls_client self) (IO InvalidInput));
  _ ⇐ now (if server_name_ok (dns_name config) then Ok () else Err InvalidDnsNameError);
  certs ⇐ map_err IO <$> tls_connect (client_config config) (dns_name config) stream;
  now (Ok (TlsByteStream false stream certs
    (ByteStream.peer_endpoint stream) (ByteStream.local_endpoint stream))).

#[global] Instance server_layer : ServerLayer TlsLayer ByteStream ByteStream := λ self stream,
  config ⇐ now (ok_or (tls_server self) (IO InvalidInput));
  certs ⇐ map_err IO <$> tls_accept (server_config config) stream;
  now (Ok (TlsByteStream true stream certs
    (ByteStream.peer_endpoint stream) (ByteStream.local_endpoint stream))).

End tls.
End TlsLayer.

Module TlsListener.
Section listener.
Context `{Rustls}.

Definition new (inner : TcpListener) (config : ServerTlsConfig) : TlsListener :=
  mkTlsListener inner (TlsLayer.server config) ACCEPT_HANDSHAKE_TIMEOUT.

Definition with_handshake_timeout (l : TlsListener) (timeout : Z) : TlsListener :=
  mkTlsListener (tls_inner l) (tls_layer l) timeout.

Definition accept (l : TlsListener) (incoming : timed (result io_kind TcpSocket)) :
    timed (result net_error ByteStream) :=
  stream ⇐ Tcp.accept (tls_inner l) incoming;
  timeout_try KaryonCore id (tls_handshake_timeout l) (server_handshake (tls_layer l) stream).

Definition local_endpoint (l : TlsListener) : result net_error Endpoint :=
  tcp_ep ← Tcp.local_endpoint (tls_inner l);
  let port := match Endpoint.port tcp_ep with Ok p => p | Err _ => 0 end in
  let addr := match Endpoint.addr parse_ip tcp_ep with
              | Ok a => a
              | Err _ => Ip (V4 [0; 0; 0; 0])
              end in
  Ok (Tls addr port).

End listener.
End TlsListener.

(** ** Theorems *)

(** The layers of a stream, from the socket up. *)
Inductive layer := LTcp | LUnix | LTls | LQuic.

#[global] Instance layer_eq_dec : EqDecision layer.
Proof. solve_decision. Defined.

Fixpoint layers (s : ByteStream) : list layer :=
  match s with
  | TcpByteStream _ _ _ => [LTcp]
  | UnixByteStream _ _ _ => [LUnix]
  | TlsByteStream _ s _ _ _ => layers s ++ [LTls]
  | QuicBiStream _ _ _ => [LQuic]
  end.

(** Certificates come with a TLS layer, whose endpoints are those of the stream
    below. *)
Definition stream_ok (s : ByteStream) : Prop :=
  match s with
  | TlsByteStream _ inner _ peer local =>
      peer = ByteStream.peer_endpoint inner ∧ local = ByteStream.local_endpoint inner
  | _ => True
  end.

Lemma tcp_stream_layers socket config s : tcp_stream socket config = Ok s → layers s = [LTcp] ∧ stream_ok s.
Proof. unfold tcp_stream. intros Hs. by inv_ok. Qed.

(** A stream that was dialed reports the address the endpoint resolves to. *)
Lemma tcp_connect_endpoints `{OsLaws} endpoint config t s :
  Tcp.connect endpoint config = At t (Ok s) →
  ∃ t' a, resolve_endpoint endpoint = At t' (Ok a) ∧
    ByteStream.peer_endpoint s = Some (Endpoint.new_tcp_addr a).
Proof.
  unfold Tcp.connect. intros (t1 & a & t2 & Hr & Hc & ->)%try_await_Ok.
  apply try_await_Ok in Hc as (t3 & sock & t4 & Hs & Hst & ->).
  destruct (tcp_connect a) as [|t5 [sock'|]] eqn:Hconn; simplify_eq/=.
  injection Hst as _ Hst. unfold tcp_stream in Hst.
  destruct (t_set_nodelay sock (nodelay config)); simpl in *; [|done].
  destruct (t_peer_addr sock) as [peer|] eqn:Hp; simpl in *; [|done].
  destruct (t_local_addr sock); simplify_eq/=.
  rewrite (tcp_connect_peer _ _ _ _ Hconn Hp). by eauto.
Qed.
