(* ===== verification/QuicTransport.v ===== *)
(** * The QUIC transport

    Models [net/src/transports/quic.rs]: the configuration and its translation
    to the parameters of the quinn library, listening and dialing, accepting with
    and without the handshake, and the streams and datagrams of a connection.

    The library is the class [Quinn]; an operation that waits is a future.
    Durations are in milliseconds, the unit of the idle timeout on the wire. *)

From S2P Require Import Prelude Codec Endpoint Message Version IpText EndpointText Timed Transports.

Local Open Scope Z_scope.
Local Open Scope timed_scope.

Definition DEFAULT_READ_CHUNK_SIZE : Z := 1024 * 1024.
Definition DEFAULT_STREAM_RECEIVE_WINDOW : Z := 1024 * 1024.
Definition DEFAULT_RECEIVE_WINDOW : Z := 8 * 1024 * 1024.

Record QuicConfig := mkQuicConfig {
  max_bi_streams : Z;
  max_uni_streams : Z;
  keep_alive_interval : option Z;
  idle_timeout : option Z;
  enable_datagrams : bool;
  read_chunk_size : Z;
  stream_receive_window : Z;
  receive_window : Z;
}.

Definition QuicConfig_default : QuicConfig :=
  mkQuicConfig 100 100 (Some 5000) (Some 30000) false DEFAULT_READ_CHUNK_SIZE
    DEFAULT_STREAM_RECEIVE_WINDOW DEFAULT_RECEIVE_WINDOW.

(** ** The library *)

(** [VarInt::from_u64]: integers of the QUIC wire format are below [2^62]. *)
Definition VarInt_from_u64 (x : Z) : option Z := if x <? 2 ^ 62 then Some x else None.

(** [IdleTimeout::try_from(Duration)]: its milliseconds as such an integer. *)
Definition IdleTimeout_try_from (ms : Z) : option Z := VarInt_from_u64 ms.

Record TransportConfig := mkTransportConfig {
  t_bidi_streams : Z;
  t_uni_streams : Z;
  t_stream_window : Z;
  t_window : Z;
  t_keep_alive : option Z;
  t_max_idle : option Z;
  t_datagram_buffer : option Z;
}.

(** The identity of a peer, which is certificates if the library says so. *)
Inductive identity := Certificates (certs : list (list Z)) | OtherIdentity.

Record QConnection := mkQConnection {
  remote_address : SocketAddr;
  peer_identity : option identity;
  q_max_datagram : option Z;
}.

(** A connection that waits for its handshake. *)
Record Incoming := mkIncoming {
  in_remote : SocketAddr;
  in_handshake : timed (result () QConnection);
}.

Class Quinn `{Rustls} := {
  PrivateKey : Type;
  QServerCrypto : Type;
  QClientCrypto : Type;
  with_single_cert : list (list Z) → PrivateKey → result string QServerCrypto;
  quic_server_config : RustlsServerConfig → result string QServerCrypto;
  add_root : list (list Z) → list Z → result string (list (list Z));
  with_root_certificates : list (list Z) → result string QClientCrypto;
  quic_client_config : RustlsClientConfig → result string QClientCrypto;
  transport_default : TransportConfig;
  endpoint_server : QServerCrypto * TransportConfig → SocketAddr → result io_kind (Listening SocketAddr);
  endpoint_client : SocketAddr → result io_kind (Listening SocketAddr);
  quinn_connect : QClientCrypto * TransportConfig → SocketAddr → SocketAddr → string →
    result () (timed (result () QConnection));
  c_open_bi : QConnection → timed (result () Z);
  c_accept_bi : QConnection → timed (result () Z);
  c_open_uni : QConnection → timed (result () Z);
  c_accept_uni : QConnection → timed (result () Z);
  c_send_datagram : QConnection → list Z → result string ();
  c_read_datagram : QConnection → timed (result () (list Z));
}.

(** ** Configurations *)

Inductive ServerSource `{Quinn} :=
| SCerts (cert_chain : list (list Z)) (private_key : PrivateKey)
| SRustls (config : RustlsServerConfig).

Record ServerQuicConfig `{Quinn} := mkServerQuicConfig {
  s_source : ServerSource;
  s_config : QuicConfig;
  s_handshake_timeout : Z;
}.
Arguments mkServerQuicConfig {_ _} _ _ _.

Inductive ClientSource `{Quinn} :=
| CRoots (root_certs : list (list Z))
| CRustls (config : RustlsClientConfig).

Record ClientQuicConfig `{Quinn} := mkClientQuicConfig {
  c_source : ClientSource;
  c_server_name : string;
  c_config : QuicConfig;
}.
Arguments mkClientQuicConfig {_ _} _ _ _.

Definition set_if {A} (old : option A) (new : option A) : option A :=
  match new with Some _ => new | None => old end.

(** The setters in their order, on the library's defaults. *)
Definition build_transport_config (transport : TransportConfig) (config : QuicConfig) :
    TransportConfig :=
  let or_default o d := match o with Some v => v | None => d end in
  mkTransportConfig
    (or_default (VarInt_from_u64 (max_bi_streams config)) 100)
    (or_default (VarInt_from_u64 (max_uni_streams config)) 100)
    (or_default (VarInt_from_u64 (stream_receive_window config)) DEFAULT_STREAM_RECEIVE_WINDOW)
    (or_default (VarInt_from_u64 (receive_window config)) DEFAULT_RECEIVE_WINDOW)
    (set_if (t_keep_alive transport) (keep_alive_interval config))
    (set_if (t_max_idle transport) (idle_timeout config ≫= IdleTimeout_try_from))
    (if enable_datagrams config then t_datagram_buffer transport else None).

Module ServerQuicConfig.
Section config.
Context `{Quinn}.

Definition new (cert_chain : list (list Z)) (private_key : PrivateKey) : ServerQuicConfig :=
  mkServerQuicConfig (SCerts cert_chain private_key) QuicConfig_default ACCEPT_HANDSHAKE_TIMEOUT.
Definition from_rustls (config : RustlsServerConfig) : ServerQuicConfig :=
  mkServerQuicConfig (SRustls config) QuicConfig_default ACCEPT_HANDSHAKE_TIMEOUT.
Definition with_config (c : ServerQuicConfig) (config : QuicConfig) : ServerQuicConfig :=
  mkServerQuicConfig (s_source c) config (s_handshake_timeout c).
Definition with_handshake_timeout (c : ServerQuicConfig) (timeout : Z) : ServerQuicConfig :=
  mkServerQuicConfig (s_source c) (s_config c) timeout.

Definition build (c : ServerQuicConfig) : result net_error (QServerCrypto * TransportConfig) :=
  server_config ←
    match s_source c with
    | SCerts cert_chain private_key => map_err TlsConfig (with_single_cert cert_chain private_key)
    | SRustls config => map_err QuicConfigError (quic_server_config config)
    end;
  Ok (server_config, build_transport_config transport_default (s_config c)).

End config.
End ServerQuicConfig.

Module ClientQuicConfig.
Section config.
Context `{Quinn}.

Definition new (root_certs : list (list Z)) (server_name : string) : ClientQuicConfig :=
  mkClientQuicConfig (CRoots root_certs) server_name QuicConfig_default.
Definition from_rustls (config : RustlsClientConfig) (server_name : string) : ClientQuicConfig :=
  mkClientQuicConfig (CRustls config) server_name QuicConfig_default.
Definition with_config (c : ClientQuicConfig) (config : QuicConfig) : ClientQuicConfig :=
  mkClientQuicConfig (c_source c) (c_server_name c) config.

Fixpoint add_roots (store certs : list (list Z)) : result net_error (list (list Z)) :=
  match certs with
  | [] => Ok store
  | cert :: certs => store ← map_err TlsConfig (add_root store cert); add_roots store certs
  end.

Definition build (c : ClientQuicConfig) : result net_error (QClientCrypto * TransportConfig) :=
  client_config ←
    match c_source c with
    | CRoots root_certs =>
        root_store ← add_roots [] root_certs;
        map_err TlsConfig (with_root_certificates root_store)
    | CRustls config => map_err QuicConfigError (quic_client_config config)
    end;
  Ok (client_config, build_transport_config transport_default (c_config c)).

End config.
End ClientQuicConfig.

(** ** Endpoints and connections *)

Record QuicEndpoint := mkQuicEndpoint {
  qe_local : Endpoint;
  qe_handshake_timeout : Z;
}.

Record QuicConn := mkQuicConn {
  qc_inner : QConnection;
  qc_peer : Endpoint;
  qc_local : Endpoint;
}.

Record QuicIncoming := mkQuicIncoming {
  qi_inner : Incoming;
  qi_local : Endpoint;
}.

Definition is_ipv6 (a : SocketAddr) : bool := match ip a with V6 _ => true | V4 _ => false end.

Module QuicIncoming.

Definition handshake (i : QuicIncoming) : timed (result net_error QuicConn) :=
  connection ⇐ map_err (λ _, QuicConnection) <$> in_handshake (qi_inner i);
  now (Ok (mkQuicConn connection (Endpoint.new_quic_addr (remote_address connection)) (qi_local i))).

Definition peer_endpoint (i : QuicIncoming) : Endpoint :=
  Endpoint.new_quic_addr (in_remote (qi_inner i)).

End QuicIncoming.

Module QuicEndpoint.

Section quic.
Context `{Os} `{Quinn}.

Definition listen (endpoint : Endpoint) (config : ServerQuicConfig) : result net_error QuicEndpoint :=
  addr ← try_socket_addr endpoint;
  server_config ← ServerQuicConfig.build config;
  inner ← map_err IO (endpoint_server server_config addr);
  local_addr ← map_err IO inner;
  Ok (mkQuicEndpoint (Endpoint.new_quic_addr local_addr) (s_handshake_timeout config)).

(** The address the client socket is bound to. *)
Definition bind_addr (addr : SocketAddr) : SocketAddr :=
  if is_ipv6 addr then mkSocketAddr (V6 (replicate 16 0)) 0 else mkSocketAddr (V4 [0; 0; 0; 0]) 0.

Definition dial (endpoint : Endpoint) (config : ClientQuicConfig) : timed (result net_error QuicConn) :=
  addr ⇐ resolve_endpoint endpoint;
  client_config ⇐ now (ClientQuicConfig.build config);
  quinn_endpoint ⇐ now (map_err IO (endpoint_client (bind_addr addr)));
  connecting ⇐ now (map_err (λ _, QuicConnect)
    (quinn_connect client_config (bind_addr addr) addr (c_server_name config)));
  connection ⇐ map_err (λ _, QuicConnection) <$> connecting;
  local_addr ⇐ now (map_err IO quinn_endpoint);
  now (Ok (mkQuicConn connection (Endpoint.new_quic_addr (remote_address connection))
    (Endpoint.new_quic_addr local_addr))).

End quic.

(** [accept_incoming]: the library gives none when the endpoint is closed. *)
Definition accept_incoming (e : QuicEndpoint) (next : timed (option Incoming)) :
    timed (result net_error QuicIncoming) :=
  inner ⇐ (λ o, ok_or o ConnectionClosed) <$> next;
  now (Ok (mkQuicIncoming inner (qe_local e))).

Definition accept (e : QuicEndpoint) (next : timed (option Incoming)) :
    timed (result net_error QuicConn) :=
  incoming ⇐ accept_incoming e next;
  timeout_try KaryonCore id (qe_handshake_timeout e) (QuicIncoming.handshake incoming).

Definition local_endpoint (e : QuicEndpoint) : result net_error Endpoint := Ok (qe_local e).

End QuicEndpoint.

Module QuicConn.
Section conn.
Context `{Quinn}.

Definition open_bi (c : QuicConn) : timed (result net_error Z) :=
  map_err (λ _, QuicConnection) <$> c_open_bi (qc_inner c).
Definition open_uni (c : QuicConn) : timed (result net_error Z) :=
  map_err (λ _, QuicConnection) <$> c_open_uni (qc_inner c).
Definition accept_bi (c : QuicConn) : timed (result net_error Z) :=
  map_err (λ _, QuicConnection) <$> c_accept_bi (qc_inner c).
Definition accept_uni (c : QuicConn) : timed (result net_error Z) :=
  map_err (λ _, QuicConnection) <$> c_accept_uni (qc_inner c).

Definition send_datagram (c : QuicConn) (data : list Z) : result net_error () :=
  map_err QuicConfigError (c_send_datagram (qc_inner c) data).
Definition recv_datagram (c : QuicConn) : timed (result net_error (list Z)) :=
  map_err (λ _, QuicConnection) <$> c_read_datagram (qc_inner c).
Definition max_datagram_size (c : QuicConn) : option Z := q_max_datagram (qc_inner c).

Definition peer_certificates (c : QuicConn) : option (list (list Z)) :=
  match peer_identity (qc_inner c) with
  | Some (Certificates certs) => Some certs
  | _ => None
  end.

(** The streams of [StreamMux]. *)
Definition open_stream (c : QuicConn) : timed (result net_error ByteStream) :=
  stream ⇐ open_bi c; now (Ok (QuicBiStream stream (qc_peer c) (qc_local c))).
Definition accept_stream (c : QuicConn) : timed (result net_error ByteStream) :=
  stream ⇐ accept_bi c; now (Ok (QuicBiStream stream (qc_peer c) (qc_local c))).

End conn.
End QuicConn.

(** ** Theorems *)

(** The value of a limit: what was configured if the wire format has it, and the
    default otherwise. *)
Definition limit (configured default : Z) : Z := if configured <? 2 ^ 62 then configured else default.

Lemma limit_bound configured default :
  is_u64 configured → 0 ≤ default < 2 ^ 62 → 0 ≤ limit configured default < 2 ^ 62.
Proof. unfold limit. intros [? ?] ?. case_match; lia. Qed.

Definition config_wf (c : QuicConfig) : Prop :=
  is_u64 (max_bi_streams c) ∧ is_u64 (max_uni_streams c) ∧
  is_u64 (stream_receive_window c) ∧ is_u64 (receive_window c).

Lemma build_transport_limits transport c :
  build_transport_config transport c =
  mkTransportConfig (limit (max_bi_streams c) 100) (limit (max_uni_streams c) 100)
    (limit (stream_receive_window c) DEFAULT_STREAM_RECEIVE_WINDOW)
    (limit (receive_window c) DEFAULT_RECEIVE_WINDOW)
    (set_if (t_keep_alive transport) (keep_alive_interval c))
    (set_if (t_max_idle transport) (idle_timeout c ≫= IdleTimeout_try_from))
    (if enable_datagrams c then t_datagram_buffer transport else None).
Proof.
  unfold build_transport_config, limit, VarInt_from_u64. f_equal; by destruct (_ <? _).
Qed.

Lemma accept_bounded e incoming t :
  timed_wf (in_handshake incoming) → 0 ≤ qe_handshake_timeout e →
  ∃ t' r, QuicEndpoint.accept e (At t (Some incoming)) = At t' r ∧
    t ≤ t' ≤ t + qe_handshake_timeout e.
Proof.
  intros Hwf He. unfold QuicEndpoint.accept, QuicEndpoint.accept_incoming. simpl.
  destruct (timeout_try_completes KaryonCore id (qe_handshake_timeout e)
    (QuicIncoming.handshake (mkQuicIncoming incoming (qe_local e)))) as (t' & r & Hr & Ht); [|done|].
  - unfold QuicIncoming.handshake, try_await, timed_wf in *. simpl.
    by destruct (in_handshake incoming) as [|? []]; simpl in *; [|lia..].
  - exists (t + t'), r. unfold try_await. simpl. rewrite Hr. split; [f_equal; lia|lia].
Qed.

Section bounded.
Context `{Os} `{Quinn}.

(** The limits of a QUIC server.  An endpoint that listens was built with
    stream and window limits that fit the wire format, each the configured one if
    it fits and the default otherwise, whatever was configured; a connection can
    make it buffer at most the receive window.  Datagrams are off unless enabled.
    An idle timeout that is not given, or does not fit, leaves the one of the
    library in place.  Once a connection has come in, [accept] completes within
    the handshake timeout, with an error if the handshake is not done by then. *)
Theorem quic_server_bounded endpoint config e :
  QuicEndpoint.listen endpoint config = Ok e → config_wf (s_config config) →
  0 ≤ s_handshake_timeout config →
  (∃ crypto tc addr, ServerQuicConfig.build config = Ok (crypto, tc) ∧
    (∃ l, endpoint_server (crypto, tc) addr = Ok l) ∧ try_socket_addr endpoint = Ok addr ∧
    t_bidi_streams tc = limit (max_bi_streams (s_config config)) 100 ∧
    t_uni_streams tc = limit (max_uni_streams (s_config config)) 100 ∧
    t_stream_window tc =
      limit (stream_receive_window (s_config config)) DEFAULT_STREAM_RECEIVE_WINDOW ∧
    t_window tc = limit (receive_window (s_config config)) DEFAULT_RECEIVE_WINDOW ∧
    Forall (λ v, 0 ≤ v < 2 ^ 62)
      [t_bidi_streams tc; t_uni_streams tc; t_stream_window tc; t_window tc] ∧
    (t_datagram_buffer tc = if enable_datagrams (s_config config)
                            then t_datagram_buffer transport_default else None) ∧
    (∀ ms, t_max_idle tc = Some ms →
      (idle_timeout (s_config config) = Some ms ∧ ms < 2 ^ 62) ∨
      t_max_idle transport_default = Some ms)) ∧
  (∀ t incoming, timed_wf (in_handshake incoming) →
    ∃ t' r, QuicEndpoint.accept e (At t (Some incoming)) = At t' r ∧
      t ≤ t' ≤ t + s_handshake_timeout config).
Proof.
  intros Hl (Hw1 & Hw2 & Hw3 & Hw4) Ht. unfold QuicEndpoint.listen in Hl.
  apply result_bind_Ok in Hl as (addr & Haddr & Hl).
  apply result_bind_Ok in Hl as ([crypto tc] & Hb & Hl).
  apply result_bind_Ok in Hl as (l & Hs & Hl). apply map_err_Ok in Hs.
  apply result_bind_Ok in Hl as (la & _ & [= <-]).
  split; [|intros t incoming Hi; by apply (accept_bounded (mkQuicEndpoint _ _) incoming t)].
  exists crypto, tc, addr. split; [done|]. split; [by eauto|]. split; [done|].
  unfold ServerQuicConfig.build in Hb. apply result_bind_Ok in Hb as (sc & _ & [= <- <-]).
  rewrite build_transport_limits. cbn -[limit Z.pow]. split_and!; [done..| |done|].
  - repeat (constructor; [by apply limit_bound|]). constructor.
  - intros ms. unfold set_if, IdleTimeout_try_from, VarInt_from_u64.
    destruct (idle_timeout (s_config config)) as [ms'|]; cbn -[Z.pow]; [|by right].
    destruct (Z.ltb_spec ms' (2 ^ 62)); [intros [= ->]; by left|by right].
Qed.

End bounded.

(** *** A library for the witness *)

#[local] Instance unit_os : Os := {|
  lookup_host _ _ := Ok [];
  lookup_host_async _ _ := now (Ok []);
  tcp_connect a := now (Ok (mkTcpSocket (Ok a) (Ok a) (λ _, Ok ())));
  tcp_bind a := now (Ok (Ok a));
  unix_connect p := now (Ok (mkUnixSocket (Ok (Some p)) (Ok None)));
  unix_bind p := Ok (Ok (Some p));
  udp_bind a := now (Ok (mkUdpSocket (Ok a) (Ok a) (λ _ _, Never) Never));
  udp_connect s _ := now (Ok s);
|}.

#[local] Instance unit_rustls : Rustls := {|
  RustlsClientConfig := (); RustlsServerConfig := ();
  server_name_ok _ := true;
  tls_connect _ _ _ := now (Ok None);
  tls_accept _ _ := now (Ok None);
|}.

#[local] Instance unit_quinn : Quinn := {|
  PrivateKey := (); QServerCrypto := (); QClientCrypto := ();
  with_single_cert _ _ := Ok ();
  quic_server_config _ := Ok ();
  add_root store cert := Ok (cert :: store);
  with_root_certificates _ := Ok ();
  quic_client_config _ := Ok ();
  transport_default := mkTransportConfig 100 100 1250000 (2 ^ 62 - 1) None (Some 30000) (Some 1250000);
  endpoint_server _ a := Ok (Ok a);
  endpoint_client a := Ok (Ok a);
  quinn_connect _ _ a _ := Ok (now (Ok (mkQConnection a None None)));
  c_open_bi _ := now (Ok 0); c_accept_bi _ := now (Ok 1);
  c_open_uni _ := now (Ok 2); c_accept_uni _ := now (Ok 3);
  c_send_datagram _ _ := Ok ();
  c_read_datagram _ := Never;
|}.

(** A server whose window does not fit the wire format, and a client that never
    completes its handshake. *)
Lemma quic_server_bounded_witness :
  let config := ServerQuicConfig.with_config (ServerQuicConfig.new [] tt)
    (mkQuicConfig 10 10 None None false 1 1024 (2 ^ 63)) in
  let here := Quic (Ip (V4 [127; 0; 0; 1])) 9000 in
  QuicEndpoint.listen here config = Ok (mkQuicEndpoint here 10000) ∧
  (∃ crypto tc, ServerQuicConfig.build config = Ok (crypto, tc) ∧ t_window tc = DEFAULT_RECEIVE_WINDOW) ∧
  ∃ t r, QuicEndpoint.accept (mkQuicEndpoint here 10000)
    (At 7 (Some (mkIncoming (mkSocketAddr (V4 [127; 0; 0; 2]) 1) Never))) = At t r ∧ 7 ≤ t ≤ 10007.
Proof.
  intros config here. split; [reflexivity|].
  destruct (quic_server_bounded here config (mkQuicEndpoint here 10000)) as [Hc Ha];
    [reflexivity|by vm_compute|by vm_compute|].
  split.
  - destruct Hc as (crypto & tc & addr & Hb & _ & _ & _ & _ & _ & Hw & _). exists crypto, tc.
    split; [exact Hb|]. rewrite Hw. reflexivity.
  - apply (Ha 7 (mkIncoming (mkSocketAddr (V4 [127; 0; 0; 2]) 1) Never)). exact I.
Defined.
