(* ===== verification/Stun.v ===== *)
(** * STUN messages

    Models [stun/src/attrs.rs], [stun/src/msg.rs], [stun/src/error.rs] and
    [stun/src/codec.rs]: attributes and messages with their wire format.
    Strings are valid UTF-8 byte strings. *)

From S2P Require Import Prelude Codec Endpoint Utf8.

Local Open Scope Z_scope.

Inductive stun_error :=
| SIo (k : io_kind)
| SNet (e : net_error)
| InvalidMsg (s : string)
| Timeout
| TransactionMismatch
| NoMappedAddress
| ErrorResponse (code : Z) (reason : list Z)
| SUnsupportedEndpoint (s : string)
| SMissingConfig (s : string).

(** [From<Error> for NetError]. *)
Definition into_net (e : stun_error) : net_error :=
  match e with
  | SNet e => e
  | SIo k => IO k
  | _ => IO InvalidData
  end.

(** ** Attributes *)

Definition MAGIC_COOKIE : Z := 0x2112A442.

Definition ATTR_MAPPED_ADDRESS : Z := 0x0001.
Definition ATTR_ERROR_CODE : Z := 0x0009.
Definition ATTR_XOR_MAPPED_ADDRESS : Z := 0x0020.
Definition ATTR_SOFTWARE : Z := 0x8022.
Definition FAMILY_IPV4 : Z := 0x01.
Definition FAMILY_IPV6 : Z := 0x02.
Definition CLASS_MASK : Z := 0x07.

(** [TransactionId([u8; 12])]. *)
Abbreviation TransactionId := (list Z) (only parsing).

Inductive Attribute :=
| MappedAddress (sa : SocketAddr)
| XorMappedAddress (sa : SocketAddr)
| ErrorCode (code : Z) (reason : list Z)
| Software (s : list Z)
| Unknown (attr_type : Z) (value : list Z).

Definition xor_address (sa : SocketAddr) (txn_id : TransactionId) : SocketAddr :=
  let port := Z.lxor (sport sa) (Z.shiftr MAGIC_COOKIE 16) in
  let i :=
    match ip sa with
    | V4 o => V4 (zip_with Z.lxor o (u32_to_be MAGIC_COOKIE))
    | V6 o =>
        let k := u32_to_be MAGIC_COOKIE ++ txn_id in
        V6 (zip_with Z.lxor o k)
    end in
  mkSocketAddr i port.

Definition encode_address (sa : SocketAddr) : list Z :=
  match ip sa with
  | V4 o => [0; FAMILY_IPV4] ++ u16_to_be (sport sa) ++ o
  | V6 o => [0; FAMILY_IPV6] ++ u16_to_be (sport sa) ++ o
  end.

Definition decode_address (value : list Z) : result stun_error SocketAddr :=
  match value with
  | _ :: family :: p1 :: p2 :: rest =>
      let port := u16_from_be p1 p2 in
      if (family =? FAMILY_IPV4) && (len value =? 8) then
        Ok (mkSocketAddr (V4 (slice value 4 8)) port)
      else if (family =? FAMILY_IPV6) && (len value =? 20) then
        Ok (mkSocketAddr (V6 (slice value 4 20)) port)
      else Err (InvalidMsg "bad address family or length")
  | _ => Err (InvalidMsg "address attribute too short")
  end.

(** [(code / 100) as u8 & CLASS_MASK] and [(code % 100) as u8]. *)
Definition encode_error (code : Z) (reason : list Z) : list Z :=
  [0; 0; Z.land ((code / 100) mod 256) CLASS_MASK; (code mod 100) mod 256] ++ reason.

Definition decode_error (value : list Z) : result stun_error Attribute :=
  match value with
  | _ :: _ :: class :: number :: rest =>
      let code := Z.land class CLASS_MASK * 100 + number in
      Ok (ErrorCode code (from_utf8_lossy rest))
  | _ => Err (InvalidMsg "error attribute too short")
  end.

Module Attribute.

(** The [match] at the head of [encode]. *)
Definition tlv (a : Attribute) (txn_id : TransactionId) : Z * list Z :=
  match a with
  | MappedAddress sa => (ATTR_MAPPED_ADDRESS, encode_address sa)
  | XorMappedAddress sa => (ATTR_XOR_MAPPED_ADDRESS, encode_address (xor_address sa txn_id))
  | ErrorCode code reason => (ATTR_ERROR_CODE, encode_error code reason)
  | Software s => (ATTR_SOFTWARE, s)
  | Unknown t value => (t, value)
  end.

Definition padding (n : Z) : list Z := repeat 0 (Z.to_nat ((4 - n mod 4) mod 4)).

Definition encode (a : Attribute) (txn_id : TransactionId) (dst : list Z) :
    result stun_error (list Z) :=
  let '(attr_type, value) := tlv a txn_id in
  if len value >? 65535 then Err (InvalidMsg "attribute value too large")
  else Ok (dst ++ u16_to_be attr_type ++ u16_to_be (len value) ++ value ++ padding (len value)).

(** [(len + 3) & !3]. *)
Definition padded (n : Z) : Z := Z.ldiff (n + 3) 3.

(** The [match] on the type of a received attribute. *)
Definition decode_value (txn_id : TransactionId) (attr_type : Z) (value : list Z) :
    result stun_error Attribute :=
  if attr_type =? ATTR_MAPPED_ADDRESS then
    sa ← decode_address value; Ok (MappedAddress sa)
  else if attr_type =? ATTR_XOR_MAPPED_ADDRESS then
    sa ← decode_address value; Ok (XorMappedAddress (xor_address sa txn_id))
  else if attr_type =? ATTR_ERROR_CODE then decode_error value
  else if attr_type =? ATTR_SOFTWARE then Ok (Software (from_utf8_lossy value))
  else Ok (Unknown attr_type value).

Definition decode (txn_id : TransactionId) (src : list Z) :
    result stun_error (option (Z * Attribute)) :=
  match src with
  | t1 :: t2 :: l1 :: l2 :: _ =>
      let attr_type := u16_from_be t1 t2 in
      let n := u16_from_be l1 l2 in
      if len src <? 4 + padded n then Ok None
      else
        attr ← decode_value txn_id attr_type (slice src 4 (4 + n));
        Ok (Some (4 + padded n, attr))
  | _ => Ok None
  end.

End Attribute.

(** ** Messages *)

Definition HEADER_SIZE : Z := 20.

Inductive MessageType := BindingRequest | BindingResponse | BindingError.

#[global] Instance MessageType_eq_dec : EqDecision MessageType.
Proof. solve_decision. Defined.

Definition type_to_u16 (t : MessageType) : Z :=
  match t with
  | BindingRequest => 0x0001
  | BindingResponse => 0x0101
  | BindingError => 0x0111
  end.

Definition type_from_u16 (z : Z) : result stun_error MessageType :=
  if z =? 0x0001 then Ok BindingRequest
  else if z =? 0x0101 then Ok BindingResponse
  else if z =? 0x0111 then Ok BindingError
  else Err (InvalidMsg "unsupported message type").

Record StunMessage := mkStun {
  msg_type : MessageType;
  txn_id : TransactionId;
  attrs : list Attribute;
}.

Module StunMessage.

(** [rnd] is the random transaction id. *)
Definition binding_request (rnd : TransactionId) : StunMessage := mkStun BindingRequest rnd [].

Definition binding_response (request : StunMessage) (source : SocketAddr) : StunMessage :=
  mkStun BindingResponse (txn_id request) [XorMappedAddress source].

Definition error_response (request : StunMessage) (code : Z) (reason : list Z) : StunMessage :=
  mkStun BindingError (txn_id request) [ErrorCode code reason].

Definition xor_mapped (a : Attribute) : option SocketAddr :=
  match a with XorMappedAddress sa => Some sa | _ => None end.
Definition mapped (a : Attribute) : option SocketAddr :=
  match a with MappedAddress sa => Some sa | _ => None end.

(** The first attribute of a kind. *)
Fixpoint first_some {A B} (f : A → option B) (l : list A) : option B :=
  match l with
  | [] => None
  | x :: l => match f x with Some y => Some y | None => first_some f l end
  end.

Definition mapped_address (m : StunMessage) : result stun_error SocketAddr :=
  match first_some xor_mapped (attrs m) with
  | Some sa => Ok sa
  | None => ok_or (first_some mapped (attrs m)) NoMappedAddress
  end.

Fixpoint encode_attrs (txn : TransactionId) (l : list Attribute) (body : list Z) :
    result stun_error (list Z) :=
  match l with
  | [] => Ok body
  | a :: l => body ← Attribute.encode a txn body; encode_attrs txn l body
  end.

Definition encode (m : StunMessage) : result stun_error (list Z) :=
  body ← encode_attrs (txn_id m) (attrs m) [];
  if len body >? 65535 then Err (InvalidMsg "message too large")
  else
    Ok (u16_to_be (type_to_u16 (msg_type m)) ++ u16_to_be (len body) ++
        u32_to_be MAGIC_COOKIE ++ txn_id m ++ body).

(** The [while off < end] loop, on the bytes from [off] to [end].  A turn
    consumes at least four bytes, so the number of bytes is fuel enough
    ([decode_attrs_eq]). *)
Fixpoint decode_attrs_fuel (fuel : nat) (txn : TransactionId) (bs : list Z) :
    result stun_error (list Attribute) :=
  match bs, fuel with
  | [], _ => Ok []
  | _ :: _, O => Err (InvalidMsg "truncated attribute")
  | _ :: _, S fuel =>
      d ← Attribute.decode txn bs;
      match d with
      | Some (n, attr) =>
          rest ← decode_attrs_fuel fuel txn (drop (Z.to_nat n) bs);
          Ok (attr :: rest)
      | None => Err (InvalidMsg "truncated attribute")
      end
  end.

Definition decode_attrs (txn : TransactionId) (bs : list Z) : result stun_error (list Attribute) :=
  decode_attrs_fuel (length bs) txn bs.

Definition decode (src : list Z) : result stun_error (option (Z * StunMessage)) :=
  if len src <? HEADER_SIZE then Ok None
  else
    let at_ i := nth (Z.to_nat i) src 0 in
    let raw_type := u16_from_be (at_ 0) (at_ 1) in
    if negb (Z.land raw_type 0xC000 =? 0) then Err (InvalidMsg "top two bits not zero")
    else
      let length := u16_from_be (at_ 2) (at_ 3) in
      if negb (length mod 4 =? 0) then Err (InvalidMsg "length not 4-byte aligned")
      else
        let cookie := u32_from_be (at_ 4) (at_ 5) (at_ 6) (at_ 7) in
        if negb (cookie =? MAGIC_COOKIE) then Err (InvalidMsg "bad magic cookie")
        else if len src <? HEADER_SIZE + length then Ok None
        else
          t ← type_from_u16 raw_type;
          let txn := slice src 8 HEADER_SIZE in
          let end_ := HEADER_SIZE + length in
          l ← decode_attrs txn (slice src HEADER_SIZE end_);
          Ok (Some (end_, mkStun t txn l)).

End StunMessage.

(** ** The stream codec *)

Inductive StunCodec := stun_codec.

Module StunCodec.

Definition encode (_ : StunCodec) (src : StunMessage) (dst : Buffer) :
    result net_error Z * Buffer :=
  match StunMessage.encode src with
  | Err e => (Err (into_net e), dst)
  | Ok bs => (Ok (len bs), Buffer.extend_from_slice dst bs)
  end.

Definition decode (_ : StunCodec) (src : Buffer) : result net_error (option (Z * StunMessage)) :=
  map_err into_net (StunMessage.decode (inner src)).

#[global] Instance codec : Codec StunCodec StunMessage net_error :=
  {| Codec.encode := encode; Codec.decode := decode |}.

End StunCodec.
