(* ===== verification/StunSpec.v ===== *)
(** * Correctness of the STUN wire format

    Encoding and decoding of addresses, attributes and messages are inverse to
    each other on well-formed values, the stream codec keeps [Framing], and
    decoding is total and stays inside its input. *)

From S2P Require Import Prelude Codec Endpoint Utf8 Framed Stun.

Local Open Scope Z_scope.

(** ** Addresses *)

Definition sa_wf (sa : SocketAddr) : Prop := ip_wf (ip sa) ∧ is_u16 (sport sa).

Definition txn_wf (t : list Z) : Prop := length t = 12%nat.

Lemma zip_lxor_involutive o k :
  (length o ≤ length k)%nat → zip_with Z.lxor (zip_with Z.lxor o k) k = o.
Proof.
  revert k. induction o as [|x o IH]; intros [|y k] Hlen; simpl in *; try done; [lia|].
  by rewrite lxor_involutive, IH by lia.
Qed.

Lemma xor_involutive sa t : sa_wf sa → txn_wf t → xor_address (xor_address sa t) t = sa.
Proof.
  destruct sa as [[o|o] p]; intros [[Hl _] _] Ht; unfold xor_address; simpl in *;
    rewrite lxor_involutive; do 2 f_equal; apply zip_lxor_involutive; rewrite Hl; simpl;
    rewrite ?Ht; lia.
Qed.

(** What follows a four-byte header. *)
Lemma slice_4 a b c d o e : e = 4 + len o → slice (a :: b :: c :: d :: o) 4 e = o.
Proof.
  intros ->. rewrite <-(app_nil_r o) at 1. by apply (slice_app [a; b; c; d] o []).
Qed.

(** The wire form of an address whose IP has the right length; the bytes of a
    XORed address need not be checked for this. *)
Lemma decode_encode_address sa :
  match ip sa with V4 o => length o = 4%nat | V6 o => length o = 16%nat end →
  decode_address (encode_address sa) = Ok sa ∧
  (len (encode_address sa) = 8 ∨ len (encode_address sa) = 20).
Proof.
  destruct sa as [[o|o] p]; cbn [ip]; intros Hl; unfold encode_address, decode_address;
    cbn [ip sport app u16_to_be]; rewrite !u16_be_roundtrip.
  - assert (len (0 :: FAMILY_IPV4 :: p / 256 :: p mod 256 :: o) = 8) as Hlen
      by (unfold len; simpl; lia).
    rewrite Hlen. simpl. rewrite slice_4 by (unfold len; lia). auto.
  - assert (len (0 :: FAMILY_IPV6 :: p / 256 :: p mod 256 :: o) = 20) as Hlen
      by (unfold len; simpl; lia).
    rewrite Hlen. simpl. rewrite slice_4 by (unfold len; lia). auto.
Qed.

Lemma sa_wf_length sa :
  sa_wf sa → match ip sa with V4 o => length o = 4%nat | V6 o => length o = 16%nat end.
Proof. destruct sa as [[o|o] p]; by intros [[? _] _]. Qed.

Lemma xor_address_length sa t :
  sa_wf sa → txn_wf t →
  match ip (xor_address sa t) with V4 o => length o = 4%nat | V6 o => length o = 16%nat end.
Proof.
  destruct sa as [[o|o] p]; intros [[Hl _] _] Ht; simpl in *; rewrite length_zip_with, Hl;
    simpl; rewrite ?Ht; done.
Qed.

(** ** Attributes *)

Definition known_type (t : Z) : bool :=
  (t =? ATTR_MAPPED_ADDRESS) || (t =? ATTR_XOR_MAPPED_ADDRESS) ||
  (t =? ATTR_ERROR_CODE) || (t =? ATTR_SOFTWARE).

(** Attributes that survive the wire.  The class of an error code has three
    bits, so codes from 800 on do not. *)
Definition attr_wf (a : Attribute) : Prop :=
  match a with
  | MappedAddress sa | XorMappedAddress sa => sa_wf sa
  | ErrorCode code reason =>
      0 ≤ code < 800 ∧ valid_utf8 reason = true ∧ len reason ≤ 65531
  | Software s => valid_utf8 s = true ∧ len s ≤ 65535
  | Unknown t value => is_u16 t ∧ known_type t = false ∧ len value ≤ 65535
  end.

Lemma len_padding n : 0 ≤ n → Attribute.padded n = n + len (Attribute.padding n).
Proof.
  intros Hn. unfold Attribute.padded, Attribute.padding, len. rewrite repeat_length.
  change 3 with (Z.ones 2) at 2. rewrite Z.ldiff_ones_r, Z.shiftr_div_pow2, Z.shiftl_mul_pow2 by lia.
  change (2 ^ 2) with 4. div_lia.
Qed.

Lemma padded_bounds n : 0 ≤ n → n ≤ Attribute.padded n < n + 4 ∧ Attribute.padded n mod 4 = 0.
Proof.
  intros Hn. unfold Attribute.padded.
  change 3 with (Z.ones 2) at 2 4 6. rewrite !Z.ldiff_ones_r, !Z.shiftr_div_pow2, !Z.shiftl_mul_pow2 by lia.
  change (2 ^ 2) with 4. div_lia.
Qed.

(** The bytes of an attribute. *)
Definition attr_bytes (a : Attribute) (t : list Z) : list Z :=
  let '(ty, value) := Attribute.tlv a t in
  u16_to_be ty ++ u16_to_be (len value) ++ value ++ Attribute.padding (len value).

Lemma attr_value_len a t : attr_wf a → txn_wf t → len (Attribute.tlv a t).2 ≤ 65535.
Proof.
  destruct a as [sa|sa|code reason|s|ty value]; simpl.
  - intros H%sa_wf_length _. destruct (decode_encode_address sa H) as [_ [->| ->]]; lia.
  - intros H Ht. pose proof (xor_address_length sa t H Ht) as Hl.
    destruct (decode_encode_address _ Hl) as [_ [->| ->]]; lia.
  - intros (_ & _ & ?) _. unfold encode_error. rewrite len_app. change (len [_; _; _; _]) with 4. lia.
  - intros [_ ?] _. lia.
  - intros (_ & _ & ?) _. lia.
Qed.

Lemma attr_encode a t dst :
  attr_wf a → txn_wf t → Attribute.encode a t dst = Ok (dst ++ attr_bytes a t).
Proof.
  intros Ha Ht. pose proof (attr_value_len a t Ha Ht) as Hl.
  unfold Attribute.encode, attr_bytes. destruct (Attribute.tlv a t) as [ty value]. simpl in Hl.
  by rewrite Z.gtb_ltb, (proj2 (Z.ltb_ge _ _)).
Qed.

Lemma len_attr_bytes a t :
  len (attr_bytes a t) = 4 + Attribute.padded (len (Attribute.tlv a t).2).
Proof.
  unfold attr_bytes. destruct (Attribute.tlv a t) as [ty value]. simpl.
  rewrite len_padding by apply len_nonneg.
  rewrite !len_cons, len_app. lia.
Qed.

Lemma error_code_roundtrip code reason :
  0 ≤ code < 800 → valid_utf8 reason = true →
  decode_error (encode_error code reason) = Ok (ErrorCode code reason).
Proof.
  intros Hc Hr. unfold decode_error, encode_error. simpl.
  rewrite from_utf8_lossy_id by done. do 2 f_equal.
  change CLASS_MASK with (Z.ones 3). rewrite !Z.land_ones by lia. change (2 ^ 3) with 8. div_lia.
Qed.

Lemma decode_value_tlv a t :
  attr_wf a → txn_wf t →
  Attribute.decode_value t (Attribute.tlv a t).1 (Attribute.tlv a t).2 = Ok a.
Proof.
  intros Ha Ht. unfold Attribute.decode_value.
  destruct a as [sa|sa|code reason|s|u v]; cbn [Attribute.tlv fst snd].
  - rewrite Z.eqb_refl. by destruct (decode_encode_address sa (sa_wf_length sa Ha)) as [-> _].
  - destruct (decode_encode_address _ (xor_address_length sa t Ha Ht)) as [-> _]. simpl.
    by rewrite xor_involutive.
  - destruct Ha as (? & ? & _). by rewrite error_code_roundtrip.
  - destruct Ha as [? _]. by rewrite from_utf8_lossy_id.
  - destruct Ha as (_ & Hk & _). unfold known_type in Hk.
    by apply orb_false_iff in Hk as [[[-> ->]%orb_false_iff ->]%orb_false_iff ->].
Qed.

(** Decoding what was encoded, whatever follows. *)
Lemma attr_decode a t rest :
  attr_wf a → txn_wf t →
  Attribute.decode t (attr_bytes a t ++ rest) = Ok (Some (len (attr_bytes a t), a)).
Proof.
  intros Ha Ht. pose proof (attr_value_len a t Ha Ht) as Hl. rewrite len_attr_bytes.
  unfold attr_bytes. destruct (Attribute.tlv a t) as [ty value] eqn:Htlv. cbn [snd] in *.
  unfold Attribute.decode, u16_to_be. cbn [app]. rewrite !u16_be_roundtrip.
  pose proof (len_nonneg rest) as Hrest.
  assert (∀ x, x = ty / 256 :: ty mod 256 :: len value / 256 :: len value mod 256 ::
    (value ++ Attribute.padding (len value)) ++ rest →
    (len x <? 4 + Attribute.padded (len value)) = false) as Hlt.
  { intros x ->. apply Z.ltb_ge. rewrite !len_cons, !len_app, len_padding by apply len_nonneg. lia. }
  rewrite Hlt by done.
  assert (slice (ty / 256 :: ty mod 256 :: len value / 256 :: len value mod 256 ::
    (value ++ Attribute.padding (len value)) ++ rest) 4 (4 + len value) = value) as ->.
  { rewrite <-app_assoc.
    by apply (slice_app [ty / 256; ty mod 256; len value / 256; len value mod 256]). }
  pose proof (decode_value_tlv a t Ha Ht) as Hv. rewrite Htlv in Hv. cbn [fst snd] in Hv.
  by rewrite Hv.
Qed.

(** ** Attribute lists *)

Definition body_bytes (t : list Z) (l : list Attribute) : list Z :=
  concat (map (λ a, attr_bytes a t) l).

Lemma encode_attrs_body t l : ∀ body,
  txn_wf t → Forall attr_wf l →
  StunMessage.encode_attrs t l body = Ok (body ++ body_bytes t l).
Proof.
  induction l as [|a l IH]; intros body Ht Hl; simpl.
  - by rewrite app_nil_r.
  - apply Forall_cons in Hl as [Ha Hl]. rewrite attr_encode by done. simpl.
    rewrite IH by done. by rewrite <-app_assoc.
Qed.

Lemma len_attr_bytes_bounds a t :
  4 ≤ len (attr_bytes a t) ∧ len (attr_bytes a t) mod 4 = 0.
Proof.
  rewrite len_attr_bytes.
  pose proof (len_nonneg (Attribute.tlv a t).2).
  destruct (padded_bounds (len (Attribute.tlv a t).2)) as [? ?]; [done|]. split; [lia|div_lia].
Qed.

Lemma len_body_cons t a l :
  len (body_bytes t (a :: l)) = len (attr_bytes a t) + len (body_bytes t l).
Proof. apply len_app. Qed.

Lemma len_body_aligned t l : len (body_bytes t l) mod 4 = 0.
Proof.
  unfold body_bytes. induction l as [|a l IH]; simpl; [done|]. rewrite len_app.
  destruct (len_attr_bytes_bounds a t) as [_ ?]. div_lia.
Qed.

Lemma decode_attrs_body t l : ∀ fuel,
  txn_wf t → Forall attr_wf l → len (body_bytes t l) ≤ Z.of_nat fuel →
  StunMessage.decode_attrs_fuel fuel t (body_bytes t l) = Ok l.
Proof.
  induction l as [|a l IH]; intros fuel Ht Hl Hfuel; [by destruct fuel|].
  apply Forall_cons in Hl as [Ha Hl]. unfold body_bytes in *. simpl in *.
  rewrite len_app in Hfuel. destruct (len_attr_bytes_bounds a t) as [Hlen _].
  set (rest := concat _) in *. pose proof (len_nonneg rest).
  pose proof (attr_decode a t rest Ha Ht) as Hd.
  destruct (attr_bytes a t ++ rest) as [|b bs] eqn:Heq.
  { apply (f_equal len) in Heq. rewrite len_app in Heq. change (len []) with 0 in Heq. lia. }
  destruct fuel as [|fuel]; [lia|]. cbn [StunMessage.decode_attrs_fuel]. rewrite Hd. simpl.
  rewrite <-Heq. unfold len. rewrite Nat2Z.id, drop_app_length. unfold rest.
  rewrite IH; [done..|]. lia.
Qed.

(** The loop of [decode] as the source has it: the fuel is never the reason to
    stop. *)
Lemma attr_decode_consumed t src n a :
  is_bytes src → Attribute.decode t src = Ok (Some (n, a)) → 4 ≤ n ≤ len src.
Proof.
  intros Hb. unfold Attribute.decode. destruct src as [|t1 [|t2 [|l1 [|l2 src]]]]; try done.
  apply Forall_cons in Hb as [_ Hb]. apply Forall_cons in Hb as [_ Hb].
  apply Forall_cons in Hb as [H1 Hb]. apply Forall_cons in Hb as [H2 _].
  pose proof (u16_from_be_u16 l1 l2 H1 H2) as [Hn _].
  destruct (padded_bounds (u16_from_be l1 l2) Hn) as [Hp _].
  destruct (Z.ltb_spec (len (t1 :: t2 :: l1 :: l2 :: src)) (4 + Attribute.padded (u16_from_be l1 l2)));
    [done|].
  destruct (Attribute.decode_value _ _ _); simpl; [|done]. intros [= <- <-]. lia.
Qed.

Lemma decode_attrs_fuel_enough t : ∀ fuel bs,
  is_bytes bs → (length bs ≤ fuel)%nat →
  StunMessage.decode_attrs_fuel fuel t bs = StunMessage.decode_attrs t bs.
Proof.
  unfold StunMessage.decode_attrs.
  assert (∀ f1 f2 bs, is_bytes bs → (length bs ≤ f1)%nat → (length bs ≤ f2)%nat →
    StunMessage.decode_attrs_fuel f1 t bs = StunMessage.decode_attrs_fuel f2 t bs) as Hgen;
    [|by auto].
  induction f1 as [|f1 IH]; intros [|f2] [|b bs] Hb H1 H2; try done; try (simpl in *; lia).
  cbn [StunMessage.decode_attrs_fuel].
  destruct (Attribute.decode t (b :: bs)) as [[[n a]|]|e] eqn:Hd; simpl; try done.
  destruct (attr_decode_consumed t _ n a Hb Hd) as [Hn _].
  rewrite (IH f2); [done|by apply Forall_drop| |];
    rewrite length_drop; simpl in *; lia.
Qed.

(** ** Messages *)

Definition msg_wf (m : StunMessage) : Prop :=
  txn_wf (txn_id m) ∧ Forall attr_wf (attrs m) ∧ len (body_bytes (txn_id m) (attrs m)) ≤ 65535.

Definition header_bytes (m : StunMessage) : list Z :=
  u16_to_be (type_to_u16 (msg_type m)) ++ u16_to_be (len (body_bytes (txn_id m) (attrs m))) ++
  u32_to_be MAGIC_COOKIE.

Definition msg_bytes (m : StunMessage) : list Z :=
  header_bytes m ++ txn_id m ++ body_bytes (txn_id m) (attrs m).

Lemma encode_msg m : msg_wf m → StunMessage.encode m = Ok (msg_bytes m).
Proof.
  intros (Ht & Ha & Hl). unfold StunMessage.encode. rewrite encode_attrs_body by done. simpl.
  rewrite Z.gtb_ltb, (proj2 (Z.ltb_ge _ _)) by done. unfold msg_bytes, header_bytes.
  by rewrite <-!app_assoc.
Qed.

Lemma len_header_bytes m : len (header_bytes m) = 8.
Proof. done. Qed.

Lemma len_txn t : txn_wf t → len t = 12.
Proof. unfold txn_wf, len. lia. Qed.

Lemma len_msg_bytes m :
  txn_wf (txn_id m) → len (msg_bytes m) = 20 + len (body_bytes (txn_id m) (attrs m)).
Proof.
  intros Ht%len_txn. unfold msg_bytes. rewrite !len_app, len_header_bytes, Ht. lia.
Qed.

Lemma type_roundtrip ty :
  type_from_u16 (type_to_u16 ty) = Ok ty ∧ Z.land (type_to_u16 ty) 0xC000 = 0.
Proof. by destruct ty. Qed.

(** The first eight bytes decide whether there is a message, and how long. *)
Lemma decode_after_header m p :
  msg_wf m → 12 ≤ len p →
  let n := len (body_bytes (txn_id m) (attrs m)) in
  let src := header_bytes m ++ p in
  StunMessage.decode src =
    if len src <? 20 + n then Ok None
    else
      l ← StunMessage.decode_attrs (slice src 8 20) (slice src 20 (20 + n));
      Ok (Some (20 + n, mkStun (msg_type m) (slice src 8 20) l)).
Proof.
  intros (Ht & Ha & Hl) Hp n src.
  assert (len src = 8 + len p) as Hsrc by (unfold src; by rewrite len_app, len_header_bytes).
  unfold StunMessage.decode, HEADER_SIZE. rewrite (proj2 (Z.ltb_ge (len src) _)) by lia.
  assert (u16_from_be (nth (Z.to_nat 0) src 0) (nth (Z.to_nat 1) src 0) =
    type_to_u16 (msg_type m)) as -> by apply u16_be_roundtrip.
  assert (u16_from_be (nth (Z.to_nat 2) src 0) (nth (Z.to_nat 3) src 0) = n) as ->
    by apply u16_be_roundtrip.
  assert (u32_from_be (nth (Z.to_nat 4) src 0) (nth (Z.to_nat 5) src 0)
    (nth (Z.to_nat 6) src 0) (nth (Z.to_nat 7) src 0) = MAGIC_COOKIE) as -> by done.
  destruct (type_roundtrip (msg_type m)) as [-> ->].
  unfold n. rewrite len_body_aligned. done.
Qed.

Lemma stun_decode_eq c bs :
  decode c (mkBuffer bs) = map_err into_net (StunMessage.decode bs).
Proof. done. Qed.

#[export] Instance stun_codec_framing : Framing stun_codec msg_wf msg_bytes.
Proof.
  split.
  - intros m dst Hm. simpl. unfold StunCodec.encode. rewrite encode_msg by done. by eauto.
  - intros m (Ht & _) Hnil. apply (f_equal len) in Hnil. rewrite len_msg_bytes in Hnil by done.
    pose proof (len_nonneg (body_bytes (txn_id m) (attrs m))). change (len []) with 0 in Hnil. lia.
  - intros m rest Hm. pose proof Hm as (Ht & Ha & Hl). rewrite stun_decode_eq.
    pose proof (len_nonneg rest). pose proof (len_txn _ Ht) as Hlt.
    pose proof (len_nonneg (body_bytes (txn_id m) (attrs m))).
    unfold msg_bytes. rewrite <-!app_assoc. rewrite decode_after_header; [|done|rewrite !len_app; lia].
    rewrite !len_app, len_header_bytes, Hlt, (proj2 (Z.ltb_ge _ _)) by lia.
    rewrite (slice_app (header_bytes m) (txn_id m)) by (rewrite ?len_header_bytes; lia).
    rewrite (app_assoc (header_bytes m)), slice_app by (rewrite !len_app, ?len_header_bytes; lia).
    unfold StunMessage.decode_attrs.
    rewrite decode_attrs_body by first [done|unfold len; lia]. simpl.
    destruct m. simpl. do 3 f_equal. lia.
  - intros m p q Hm Hpq Hq. rewrite stun_decode_eq.
    assert (len q ≠ 0) by (by rewrite len_zero). pose proof (len_nonneg q).
    pose proof (f_equal len Hpq) as Hlen. rewrite len_msg_bytes, len_app in Hlen by apply Hm.
    destruct (Z.ltb_spec (len p) 20) as [Hp|Hp].
    { unfold StunMessage.decode, HEADER_SIZE. by rewrite (proj2 (Z.ltb_lt _ _)). }
    destruct (app_prefix_long _ _ _ _ Hpq) as (p' & -> & _); [rewrite len_header_bytes; lia|].
    rewrite len_app, len_header_bytes in *.
    rewrite decode_after_header; [|done|lia].
    by rewrite len_app, len_header_bytes, (proj2 (Z.ltb_lt _ _)) by lia.
Qed.

(** STUN messages survive the wire.  A well-formed message encodes; its
    bytes decode to the message, whatever follows them in the stream; and every
    strict prefix of them asks for more data. *)
Theorem stun_message_roundtrip m :
  msg_wf m →
  ∃ bs, StunMessage.encode m = Ok bs ∧
    (∀ rest, StunMessage.decode (bs ++ rest) = Ok (Some (len bs, m))) ∧
    (∀ p q, bs = p ++ q → q ≠ [] → StunMessage.decode p = Ok None).
Proof.
  intros Hm. exists (msg_bytes m). split_and!; [by apply encode_msg| |].
  - intros rest. apply (map_err_Ok into_net). rewrite <-(stun_decode_eq stun_codec).
    by apply framing_decode.
  - intros p q Hpq Hq. apply (map_err_Ok into_net). rewrite <-(stun_decode_eq stun_codec).
    by eapply framing_partial.
Qed.

(** Strings of a decoded attribute are valid. *)
Definition strings_valid (a : Attribute) : Prop :=
  match a with
  | ErrorCode _ reason => valid_utf8 reason = true
  | Software s => valid_utf8 s = true
  | _ => True
  end.

Lemma decode_value_strings t ty value a :
  Attribute.decode_value t ty value = Ok a → strings_valid a.
Proof.
  unfold Attribute.decode_value. repeat case_match; intros He; inv_ok; try done.
  - unfold decode_error in He. repeat case_match; inv_ok; [done..|]. apply from_utf8_lossy_valid.
  - apply from_utf8_lossy_valid.
Qed.

Lemma decode_attrs_strings t fuel : ∀ bs l,
  StunMessage.decode_attrs_fuel fuel t bs = Ok l → Forall strings_valid l.
Proof.
  induction fuel as [|fuel IH]; intros [|b bs] l; cbn [StunMessage.decode_attrs_fuel];
    try (by intros; inv_ok; constructor).
  intros He. destruct (Attribute.decode t (b :: bs)) as [[[n a]|]|] eqn:Hd; simpl in He; try done.
  destruct (StunMessage.decode_attrs_fuel _ _ _) as [l'|] eqn:Hl; simpl in He; inv_ok.
  constructor; [|by eapply IH]. unfold Attribute.decode in Hd.
  destruct bs as [|? [|? [|? ?]]]; try done. case_match; [done|].
  destruct (Attribute.decode_value _ _ _) eqn:Hv; simpl in Hd; inv_ok.
  simplify_eq. by eapply decode_value_strings.
Qed.

Lemma is_bytes_slice bs a b : is_bytes bs → is_bytes (slice bs a b).
Proof. intros. unfold slice. by apply Forall_take, Forall_drop. Qed.

Lemma nth_byte bs i : is_bytes bs → is_u8 (nth i bs 0).
Proof.
  intros Hb. destruct (nth_in_or_default i bs 0) as [Hin| ->]; [|done].
  unfold is_bytes in Hb. rewrite Forall_forall in Hb. by apply Hb, list_elem_of_In.
Qed.

(** Decoding is safe on every input.  On any bytes it ends; a message it
    returns lies inside the input, carries the input's transaction id and only
    valid text; and the attribute loop behaves as the source's [while] loop,
    turn by turn, without ever running into its bound. *)
Theorem stun_decode_safe src :
  is_bytes src →
  (∀ n m, StunMessage.decode src = Ok (Some (n, m)) →
    20 ≤ n ≤ len src ∧ txn_id m = slice src 8 20 ∧ Forall strings_valid (attrs m)) ∧
  (∀ t, StunMessage.decode_attrs t src =
    match src with
    | [] => Ok []
    | _ =>
        d ← Attribute.decode t src;
        match d with
        | Some (n, a) =>
            rest ← StunMessage.decode_attrs t (drop (Z.to_nat n) src);
            Ok (a :: rest)
        | None => Err (InvalidMsg "truncated attribute")
        end
    end).
Proof.
  intros Hb. split.
  - intros n m. unfold StunMessage.decode, HEADER_SIZE. cbv zeta.
    case_match; [done|]. case_match; [done|]. case_match; [done|]. case_match; [done|].
    destruct (Z.ltb_spec (len src) (20 + u16_from_be (nth (Z.to_nat 2) src 0) (nth (Z.to_nat 3) src 0)));
      [done|].
    intros He. inv_ok. simpl.
    pose proof (u16_from_be_u16 _ _ (nth_byte src (Z.to_nat 2) Hb) (nth_byte src (Z.to_nat 3) Hb)) as [? _].
    split_and!; [lia|lia|done|]. by eapply decode_attrs_strings.
  - intros t. destruct src as [|b src]; [done|]. unfold StunMessage.decode_attrs at 1.
    cbn [StunMessage.decode_attrs_fuel length].
    destruct (Attribute.decode t (b :: src)) as [[[n a]|]|e] eqn:Hd; simpl; try done.
    destruct (attr_decode_consumed t _ n a Hb Hd) as [Hn _].
    rewrite decode_attrs_fuel_enough; [done|by apply Forall_drop|].
    rewrite length_drop. simpl. lia.
Qed.

(** ** Witnesses *)

Definition test_txn : list Z := repeat 7 12.
Definition test_source : SocketAddr := mkSocketAddr (V4 [203; 0; 113; 9]) 54321.
Definition test_response : StunMessage :=
  mkStun BindingResponse test_txn [XorMappedAddress test_source; Software [107; 97]].

Lemma test_response_wf : msg_wf test_response.
Proof.
  split_and!; [done| |vm_compute; done]. repeat constructor; vm_compute; done.
Qed.

Lemma stun_message_roundtrip_witness :
  ∃ bs, StunMessage.encode test_response = Ok bs ∧
    (∀ rest, StunMessage.decode (bs ++ rest) = Ok (Some (len bs, test_response))) ∧
    (∀ p q, bs = p ++ q → q ≠ [] → StunMessage.decode p = Ok None).
Proof. apply (stun_message_roundtrip test_response), test_response_wf. Defined.

Lemma stun_decode_safe_witness :
  ∃ n m, StunMessage.decode (msg_bytes test_response) = Ok (Some (n, m)) ∧ txn_id m = test_txn.
Proof.
  exists (len (msg_bytes test_response)), test_response. split; [vm_compute; reflexivity|].
  destruct (stun_decode_safe (msg_bytes test_response)) as [Hs _].
  - vm_compute. repeat constructor; done.
  - destruct (Hs (len (msg_bytes test_response)) test_response) as (_ & -> & _);
      vm_compute; reflexivity.
Defined.
