(* ===== verification/StunService.v ===== *)
(** * STUN queries over UDP

    Models the UDP side of [stun/src/client.rs] and [stun/src/server.rs], and what
    both transports share: the validation of a response and the binding handler.
    Datagrams come from scripts; a receive window is the list of datagrams that
    arrive before its deadline.  The streams, the listeners and the time a query
    takes are in [StunServer]. *)

From S2P Require Import Prelude Codec Endpoint Utf8 Framed Stun StunSpec.

Local Open Scope Z_scope.

(** ** Client *)

Definition UDP_RETRIES_MS : list Z := [500; 1000; 2000].

Definition error_code (a : Attribute) : option (Z * list Z) :=
  match a with ErrorCode code reason => Some (code, reason) | _ => None end.

Definition validate_response (request response : StunMessage) : result stun_error SocketAddr :=
  if negb (bool_decide (txn_id response = txn_id request)) then Err TransactionMismatch
  else
    match msg_type response with
    | BindingResponse => StunMessage.mapped_address response
    | BindingError =>
        match StunMessage.first_some error_code (attrs response) with
        | Some (code, reason) => Err (ErrorResponse code reason)
        | None => Err (ErrorResponse 0 (bytes_of "error response without ERROR-CODE"))
        end
    | BindingRequest => Err (InvalidMsg "request sent as response")
    end.

(** What [recv_from] gives. *)
Inductive udp_ev :=
| UData (bs : list Z) (from : SocketAddr)
| UErr (e : net_error).

(** What a datagram leaves in the buffer of 1500 bytes that both sides receive into:
    the excess of a longer one is discarded. *)
Definition UDP_BUF_SIZE : nat := 1500.
Definition udp_buf (datagram : list Z) : list Z := take UDP_BUF_SIZE datagram.

(** [await_udp_response]; the end of the list is the deadline. *)
Fixpoint await_udp_response (server : SocketAddr) (request : StunMessage) (window : list udp_ev) :
    option (result stun_error SocketAddr) :=
  match window with
  | [] => None
  | UErr e :: _ => Some (Err (SNet e))
  | UData bs from :: window =>
      if negb (bool_decide (from = server)) then await_udp_response server request window
      else
        match StunMessage.decode (udp_buf bs) with
        | Ok (Some (_, msg)) =>
            match validate_response request msg with
            | Err TransactionMismatch => await_udp_response server request window
            | res => Some res
            end
        | _ => await_udp_response server request window
        end
  end.

(** The retransmission loop: one attempt for each delay, with the result of its
    [send_to] and the datagrams of its window. *)
Fixpoint udp_attempts (server : SocketAddr) (request : StunMessage) (delays : list Z)
    (attempts : list (result net_error () * list udp_ev)) : result stun_error SocketAddr :=
  match delays with
  | [] => Err Timeout
  | _ :: delays =>
      match attempts with
      | [] => Err Timeout
      | (sent, window) :: attempts =>
          _ ← map_err SNet sent;
          match await_udp_response server request window with
          | Some res => res
          | None => udp_attempts server request delays attempts
          end
      end
  end.

(** [discover_udp] on a server whose address resolves; [bind] is the result of
    opening the local socket, [rnd] the transaction id. *)
Definition discover_udp (server : SocketAddr) (bind : result net_error ()) (rnd : list Z)
    (attempts : list (result net_error () * list udp_ev)) : result stun_error SocketAddr :=
  _ ← map_err SNet bind;
  let request := StunMessage.binding_request rnd in
  _ ← StunMessage.encode request;
  udp_attempts server request UDP_RETRIES_MS attempts.

(** ** Server *)

Definition handle_binding (msg : StunMessage) (source : SocketAddr) (software : option (list Z)) :
    StunMessage :=
  let resp := StunMessage.binding_response msg source in
  match software with
  | Some s => mkStun (msg_type resp) (txn_id resp) (attrs resp ++ [Software s])
  | None => resp
  end.

(** One turn of [udp_loop]: the datagram it sends back, if any.  No event ends
    the loop. *)
Definition udp_step (software : option (list Z)) (ev : udp_ev) : option (list Z * SocketAddr) :=
  match ev with
  | UErr _ => None
  | UData bs source =>
      match StunMessage.decode (udp_buf bs) with
      | Ok (Some (_, msg)) =>
          if bool_decide (msg_type msg = BindingRequest) then
            match StunMessage.encode (handle_binding msg source software) with
            | Ok out => Some (out, source)
            | Err _ => None
            end
          else None
      | _ => None
      end
  end.

Definition udp_loop (software : option (list Z)) (evs : list udp_ev) : list (list Z * SocketAddr) :=
  omap (udp_step software) evs.

(** ** Theorems *)

(** A datagram that plays no role in a window. *)
Definition irrelevant (server : SocketAddr) (request : StunMessage) (ev : udp_ev) : Prop :=
  match ev with
  | UErr _ => False
  | UData bs from =>
      from ≠ server ∨
      (∀ n m, StunMessage.decode (udp_buf bs) = Ok (Some (n, m)) → txn_id m ≠ txn_id request)
  end.

Lemma validate_mismatch request m :
  txn_id m ≠ txn_id request → validate_response request m = Err TransactionMismatch.
Proof. intros. unfold validate_response. by rewrite bool_decide_eq_false_2. Qed.

Lemma validate_not_mismatch request m :
  txn_id m = txn_id request → validate_response request m ≠ Err TransactionMismatch.
Proof.
  intros Heq. unfold validate_response. rewrite bool_decide_eq_true_2 by done. simpl.
  unfold StunMessage.mapped_address, ok_or. repeat case_match; congruence.
Qed.

Lemma await_skip server request ev window :
  irrelevant server request ev →
  await_udp_response server request (ev :: window) = await_udp_response server request window.
Proof.
  destruct ev as [bs from|e]; simpl; [|done]. intros Hirr.
  destruct (bool_decide (from = server)) eqn:Hf; simpl; [|done].
  apply bool_decide_eq_true in Hf. destruct Hirr as [|Hirr]; [done|].
  destruct (StunMessage.decode (udp_buf bs)) as [[[n m]|]|] eqn:Hd; [|done..].
  by rewrite validate_mismatch by eauto.
Qed.

(** What ends a window. *)
Lemma await_Some server request window r :
  await_udp_response server request window = Some r →
  ∃ pre ev post, window = pre ++ ev :: post ∧ Forall (irrelevant server request) pre ∧
    match ev with
    | UErr e => r = Err (SNet e)
    | UData bs from => from = server ∧ ∃ n m, StunMessage.decode (udp_buf bs) = Ok (Some (n, m)) ∧
        txn_id m = txn_id request ∧ r = validate_response request m
    end.
Proof.
  induction window as [|ev window IH]; [done|].
  assert (irrelevant server request ev → await_udp_response server request window = Some r →
    ∃ pre ev' post, ev :: window = pre ++ ev' :: post ∧ Forall (irrelevant server request) pre ∧
    match ev' with
    | UErr e => r = Err (SNet e)
    | UData bs from => from = server ∧ ∃ n m, StunMessage.decode (udp_buf bs) = Ok (Some (n, m)) ∧
        txn_id m = txn_id request ∧ r = validate_response request m
    end) as Hskip.
  { intros Hirr (pre & ev' & post & -> & Hpre & Hev)%IH.
    exists (ev :: pre), ev', post. split_and!; [done| |done]. by constructor. }
  destruct ev as [bs from|e]; simpl in *.
  2: { intros [= <-]. by exists [], (UErr e), window. }
  case_bool_decide as Hf; simpl; [|by apply Hskip; left].
  destruct (StunMessage.decode (udp_buf bs)) as [[[n m]|]|] eqn:Hd; try (by apply Hskip; right).
  destruct (decide (txn_id m = txn_id request)) as [Ht|Ht].
  - pose proof (validate_not_mismatch request m Ht) as Hv.
    intros Hr. assert (validate_response request m = r) as <-
      by (destruct (validate_response request m) as [|[]]; congruence).
    exists [], (UData bs from), window. split_and!; [done..|]. by eauto.
  - rewrite validate_mismatch by done. apply Hskip. right. intros n' m' [= <- <-]. done.
Qed.

(** The datagrams that can end a window. *)
Definition relevant (server : SocketAddr) (request : StunMessage) (ev : udp_ev) : bool :=
  match ev with
  | UErr _ => true
  | UData bs from =>
      bool_decide (from = server) &&
      match StunMessage.decode (udp_buf bs) with
      | Ok (Some (_, m)) => bool_decide (txn_id m = txn_id request)
      | _ => false
      end
  end.

Lemma relevant_false server request ev :
  relevant server request ev = false → irrelevant server request ev.
Proof.
  destruct ev as [bs from|e]; simpl; [|done].
  rewrite andb_false_iff, bool_decide_eq_false. intros [|H]; [by left|right].
  intros n m Hd. rewrite Hd in H. by apply bool_decide_eq_false in H.
Qed.

Lemma await_relevant server request window :
  await_udp_response server request window =
  await_udp_response server request (List.filter (relevant server request) window).
Proof.
  induction window as [|ev window IH]; [done|]. cbn [List.filter].
  destruct (relevant server request ev) eqn:Hr.
  - destruct ev as [bs from|e]; [|done]. simpl. rewrite <-IH. done.
  - rewrite await_skip by (by apply relevant_false). done.
Qed.

Lemma udp_attempts_relevant server request delays : ∀ attempts,
  udp_attempts server request delays attempts =
  udp_attempts server request delays
    (map (λ a, (a.1, List.filter (relevant server request) a.2)) attempts).
Proof.
  induction delays as [|d delays IH]; intros [|[sent window] attempts]; try done. simpl.
  rewrite <-await_relevant. destruct sent; simpl; [|done]. by rewrite IH.
Qed.

Lemma udp_attempts_Ok server request delays : ∀ attempts sa,
  udp_attempts server request delays attempts = Ok sa →
  ∃ sent window bs n m, (sent, window) ∈ attempts ∧ UData bs server ∈ window ∧
    StunMessage.decode (udp_buf bs) = Ok (Some (n, m)) ∧ txn_id m = txn_id request ∧
    validate_response request m = Ok sa.
Proof.
  induction delays as [|d delays IH]; intros attempts sa; [done|].
  destruct attempts as [|[sent window] attempts]; [done|]. simpl.
  destruct sent as [[]|]; [simpl|done].
  destruct (await_udp_response server request window) as [r|] eqn:Hw.
  - intros ->. apply await_Some in Hw as (pre & ev & post & -> & _ & Hev).
    destruct ev as [bs from|e]; [|done]. destruct Hev as (-> & n & m & Hd & Ht & Hv).
    exists (Ok ()), (pre ++ UData bs server :: post), bs, n, m.
    split_and!; [set_solver|set_solver|done..].
  - intros (s & w & bs & n & m & Hin & ?)%IH. exists s, w, bs, n, m. split; [set_solver|done].
Qed.

(** A STUN query is not fooled.  An address returned by a UDP query comes
    from a binding response of the queried server itself, with the query's own
    transaction id; and datagrams from other hosts, garbage and replies to other
    transactions change nothing, whatever they are and whenever they arrive. *)
Theorem udp_query_trustworthy server bind rnd attempts :
  let request := StunMessage.binding_request rnd in
  discover_udp server bind rnd attempts =
    discover_udp server bind rnd
      (map (λ a, (a.1, List.filter (relevant server request) a.2)) attempts) ∧
  ∀ sa, discover_udp server bind rnd attempts = Ok sa →
    ∃ sent window bs n m, (sent, window) ∈ attempts ∧ UData bs server ∈ window ∧
      StunMessage.decode (udp_buf bs) = Ok (Some (n, m)) ∧ txn_id m = rnd ∧
      msg_type m = BindingResponse ∧ StunMessage.mapped_address m = Ok sa.
Proof.
  intros request. unfold discover_udp. fold request. split.
  - by rewrite <-udp_attempts_relevant.
  - intros sa He. inv_ok.
    apply udp_attempts_Ok in He as (sent & window & bs & n & m & Hin & Hw & Hd & Ht & Hv).
    exists sent, window, bs, n, m. split_and!; try done.
    + unfold validate_response in Hv. rewrite bool_decide_eq_true_2 in Hv by done. simpl in Hv.
      destruct (msg_type m); [done..|]. by destruct (StunMessage.first_some _ _) as [[]|].
    + unfold validate_response in Hv. rewrite bool_decide_eq_true_2 in Hv by done. simpl in Hv.
      destruct (msg_type m); [done..|]. by destruct (StunMessage.first_some _ _) as [[]|].
Qed.

(** The response of the server is well-formed. *)
Lemma handle_binding_wf msg source software :
  txn_wf (txn_id msg) → sa_wf source →
  (∀ s, software = Some s → valid_utf8 s = true ∧ len s ≤ 60000) →
  msg_wf (handle_binding msg source software).
Proof.
  intros Ht Hs Hsw. unfold handle_binding, StunMessage.binding_response.
  assert (len (attr_bytes (XorMappedAddress source) (txn_id msg)) ≤ 28) as Hxor.
  { rewrite len_attr_bytes. simpl.
    destruct (decode_encode_address _ (xor_address_length source _ Hs Ht)) as [_ [->| ->]];
      apply Z.leb_le; reflexivity. }
  destruct software as [s|]; (split_and!; [done|..]); cbn [attrs txn_id app].
  - destruct (Hsw s eq_refl). constructor; [done|]. constructor; [|done]. split; [done|lia].
  - destruct (Hsw s eq_refl) as [_ Hl]. rewrite !len_body_cons, (len_attr_bytes (Software s)).
    change (len (body_bytes _ [])) with 0. cbn [Attribute.tlv snd].
    pose proof (padded_bounds (len s) (len_nonneg s)). lia.
  - by constructor.
  - rewrite len_body_cons. change (len (body_bytes _ [])) with 0. lia.
Qed.

Lemma udp_buf_short bs : len bs ≤ 1500 → udp_buf bs = bs.
Proof. intros Hl. unfold udp_buf, UDP_BUF_SIZE. apply take_ge. unfold len in Hl. lia. Qed.

Lemma msg_udp_decode m :
  msg_wf m → len (msg_bytes m) ≤ 1500 →
  StunMessage.decode (udp_buf (msg_bytes m)) = Ok (Some (len (msg_bytes m), m)).
Proof.
  intros Hm Hl. rewrite udp_buf_short by done. apply (map_err_Ok into_net).
  rewrite <-(stun_decode_eq stun_codec). rewrite <-(app_nil_r (msg_bytes m)) at 1. by apply framing_decode.
Qed.

(** A message that was cut is not one. *)
Lemma msg_udp_cut m :
  msg_wf m → 1500 < len (msg_bytes m) → StunMessage.decode (udp_buf (msg_bytes m)) = Ok None.
Proof.
  intros Hm Hl. apply (map_err_Ok into_net). rewrite <-(stun_decode_eq stun_codec). unfold udp_buf.
  eapply (framing_partial m _ (drop UDP_BUF_SIZE (msg_bytes m))); [done|by rewrite take_drop|].
  intros Hd%(f_equal length). rewrite length_drop, length_nil in Hd. unfold len, UDP_BUF_SIZE in *. lia.
Qed.

(** How long the answer to a query is. *)
Lemma handle_binding_len request source software :
  txn_wf (txn_id request) → sa_wf source →
  len (msg_bytes (handle_binding request source software)) =
    20 + match ip source with V4 _ => 12 | V6 _ => 24 end +
    match software with Some s => 4 + Attribute.padded (len s) | None => 0 end.
Proof.
  intros Ht Hs. rewrite len_msg_bytes by (by destruct software).
  assert (len (attr_bytes (XorMappedAddress source) (txn_id request)) =
    match ip source with V4 _ => 12 | V6 _ => 24 end) as Hxor.
  { rewrite len_attr_bytes. pose proof (xor_address_length source _ Hs Ht) as Hl. destruct source as [[o|o] p];
      cbn in Hl |- *; unfold len; cbn [length]; by rewrite Hl. }
  destruct software as [s|]; unfold handle_binding, StunMessage.binding_response; cbn [attrs txn_id app];
    rewrite !len_body_cons, Hxor, ?(len_attr_bytes (Software s));
    change (len (body_bytes _ [])) with 0; cbn [Attribute.tlv snd]; lia.
Qed.

Lemma await_irrelevant server request pre window :
  Forall (irrelevant server request) pre →
  await_udp_response server request (pre ++ window) = await_udp_response server request window.
Proof.
  induction 1 as [|ev pre Hev _ IH]; [done|]. by rewrite <-app_comm_cons, await_skip, IH.
Qed.

(** C36: A STUN query tells a host its public address.  The server answers the
    datagram of a query with one datagram to its sender, whose length depends on the
    address and the software text.  When it fits the buffer of 1500 bytes the client
    receives into, and is the first relevant datagram to reach the client, the client
    returns exactly the source address the server saw; when it does not fit, the
    client sees it cut and the query times out, however often it is answered. *)
Theorem stun_udp_end_to_end server source rnd software pre post :
  txn_wf rnd → sa_wf source →
  (∀ s, software = Some s → valid_utf8 s = true ∧ len s ≤ 60000) →
  Forall (irrelevant server (StunMessage.binding_request rnd)) pre →
  ∃ query reply,
    StunMessage.encode (StunMessage.binding_request rnd) = Ok query ∧
    udp_loop software [UData query source] = [(reply, source)] ∧
    len reply = 20 + match ip source with V4 _ => 12 | V6 _ => 24 end +
      match software with Some s => 4 + Attribute.padded (len s) | None => 0 end ∧
    (len reply ≤ 1500 →
      discover_udp server (Ok ()) rnd [(Ok (), pre ++ UData reply server :: post)] = Ok source) ∧
    (1500 < len reply →
      discover_udp server (Ok ()) rnd (replicate 3 (Ok (), pre ++ [UData reply server])) = Err Timeout).
Proof.
  intros Ht Hs Hsw Hpre. set (request := StunMessage.binding_request rnd).
  assert (msg_wf request) as Hreq by (by split_and!).
  pose proof (handle_binding_wf request source software Ht Hs Hsw) as Hresp.
  pose proof (handle_binding_len request source software Ht Hs) as Hlen.
  set (resp := handle_binding request source software) in *.
  exists (msg_bytes request), (msg_bytes resp). split_and!; [by apply encode_msg| |done|..].
  - unfold udp_loop, udp_step. cbn [omap list_omap]. rewrite msg_udp_decode by (done || by rewrite len_msg_bytes).
    simpl. fold resp. by rewrite encode_msg.
  - intros Hfit. unfold discover_udp. fold request. rewrite encode_msg by done. cbn [mbind result_bind map_err].
    cbn [udp_attempts UDP_RETRIES_MS]. rewrite await_irrelevant by done. cbn [await_udp_response].
    rewrite bool_decide_eq_true_2, msg_udp_decode by done. simpl.
    unfold validate_response, resp, handle_binding. destruct software; simpl; by rewrite bool_decide_eq_true_2.
  - intros Hcut. unfold discover_udp. fold request. rewrite encode_msg by done.
    assert (await_udp_response server request (pre ++ [UData (msg_bytes resp) server]) = None) as Hnone.
    { rewrite await_irrelevant by done. cbn [await_udp_response].
      by rewrite bool_decide_eq_true_2, msg_udp_cut by done. }
    cbn [mbind result_bind map_err udp_attempts UDP_RETRIES_MS replicate]. by rewrite Hnone.
Qed.

(** ** Witnesses *)

Definition test_server : SocketAddr := mkSocketAddr (V4 [192; 0; 2; 1]) 3478.

Definition test_reply : list Z :=
  msg_bytes (handle_binding (StunMessage.binding_request test_txn) test_source None).

Lemma udp_query_trustworthy_witness :
  discover_udp test_server (Ok ()) test_txn [(Ok (), [UData [1; 2] test_source; UData test_reply test_server])]
    = Ok test_source ∧
  ∃ sent window bs n m,
    (sent, window) ∈ [(Ok () : result net_error (), [UData [1; 2] test_source; UData test_reply test_server])] ∧
    UData bs test_server ∈ window ∧ StunMessage.decode (udp_buf bs) = Ok (Some (n, m)) ∧ txn_id m = test_txn ∧
    msg_type m = BindingResponse ∧ StunMessage.mapped_address m = Ok test_source.
Proof.
  destruct (udp_query_trustworthy test_server (Ok ()) test_txn
    [(Ok (), [UData [1; 2] test_source; UData test_reply test_server])]) as [_ H].
  split; [vm_compute; reflexivity|]. apply H. vm_compute. reflexivity.
Defined.

Lemma stun_udp_end_to_end_witness :
  ∃ query reply,
    StunMessage.encode (StunMessage.binding_request test_txn) = Ok query ∧
    udp_loop (Some [107]) [UData query test_source] = [(reply, test_source)] ∧
    discover_udp test_server (Ok ()) test_txn
      [(Ok (), [UData [1; 2] test_source] ++ UData reply test_server :: [])] = Ok test_source.
Proof.
  destruct (stun_udp_end_to_end test_server test_source test_txn (Some [107]) [UData [1; 2] test_source] [])
    as (query & reply & Hq & Hl & Hlen & Hfit & _).
  - reflexivity.
  - vm_compute. repeat constructor; done.
  - intros s [= <-]. split; [reflexivity|]. apply Z.leb_le. reflexivity.
  - constructor; [|constructor]. left. vm_compute. congruence.
  - exists query, reply. split; [exact Hq|]. split; [exact Hl|]. apply Hfit. rewrite Hlen.
    apply Z.leb_le. vm_compute. reflexivity.
Defined.
