(* ===== verification/StunServer.v ===== *)
(** * STUN over streams

    Models the stream side of [stun/src/client.rs] and [stun/src/server.rs]: the
    client's choice of transport and its timeouts, the server's listeners, its
    connection tasks and the limit they share.  The UDP exchange is in
    [StunService].

    What a stream does under a framed connection is a script, as in [Framed], with
    the time it takes.  The server is a list of tasks and the counter [conns]; a
    turn of one task is one step, so that accepting and closing connections
    interleave.  Between the two atomic operations of a refused [take_slot] other
    tasks run. *)

From S2P Require Import Prelude Codec Endpoint Utf8 IpText EndpointText Framed Timed.
From S2P Require Import Transports QuicTransport Stun StunSpec StunService.

Local Open Scope Z_scope.
Local Open Scope timed_scope.

Definition STREAM_TIMEOUT : Z := 5000.
Definition HANDSHAKE_TIMEOUT : Z := 5000.
Definition STREAM_IDLE_TIMEOUT : Z := 10000.
Definition DEFAULT_MAX_CONNECTIONS : Z := 1024.

(** When a call on a framed connection completes; one that is pending for good
    never does.  Calls with [StunCodec] do not panic ([recv_msg_no_panic]). *)
Definition completes {A} (t : Z) (o : poll A) : timed A :=
  match o with
  | Ready a => At t a
  | Pending | Panicked => Never
  end.

Definition delay {A} (t : Z) (f : timed A) : timed A :=
  match f with Never => Never | At t' a => At (t + t') a end.

(** One exchange on a stream: the events its reads and its writes meet, and how
    long the call of each takes. *)
Record exchange := mkExchange {
  ex_reads : list read_ev;
  ex_read_time : Z;
  ex_writes : list write_ev;
  ex_flush : result io_kind ();
  ex_write_time : Z;
}.

(** ** Client *)

Record StunClient `{Quinn} := mkStunClient {
  sc_server : Endpoint;
  sc_tls : option ClientTlsConfig;
  sc_quic : option ClientQuicConfig;
}.
Arguments mkStunClient {_ _} _ _ _.

(** [query_stream], and the bytes the stream took. *)
Definition query_stream (stream : ByteStream) (rnd : TransactionId) (x : exchange) :
    timed (result stun_error SocketAddr) * list Z :=
  let conn := framed (ByteStream.peer_endpoint stream) (ByteStream.local_endpoint stream) stun_codec in
  let request := StunMessage.binding_request rnd in
  let '(sent, w, out, _) :=
    FramedWriter.send_msg (writer conn) request (ex_writes x) (ex_flush x) in
  (_ ⇐ map_err SNet <$> completes (ex_write_time x) sent;
   msg ⇐ map_err SNet <$>
     completes (ex_read_time x) (FramedReader.recv_msg (reader conn) (ex_reads x)).1.1;
   now (validate_response request msg), out).

Definition with_timeout (fut : timed (result stun_error SocketAddr)) :
    timed (result stun_error SocketAddr) :=
  timeout_try (λ _, Timeout) id STREAM_TIMEOUT fut.

(** [await_udp_response] in time: a datagram with the time since the one before.
    The result comes with the time it took. *)
Fixpoint await_udp_timed (server : SocketAddr) (request : StunMessage) (left : Z)
    (window : list (Z * udp_ev)) : Z * option (result stun_error SocketAddr) :=
  match window with
  | [] => (left, None)
  | (gap, ev) :: window =>
      match timeout left (At gap ev) with
      | Never => (left, None)
      | At t (Err _) => (t, None)
      | At t (Ok (UErr e)) => (t, Some (Err (SNet e)))
      | At t (Ok (UData bs from)) =>
          let continue :=
            let '(t', r) := await_udp_timed server request (left - t) window in (t + t', r) in
          if negb (bool_decide (from = server)) then continue
          else
            match StunMessage.decode (udp_buf bs) with
            | Ok (Some (_, msg)) =>
                match validate_response request msg with
                | Err TransactionMismatch => continue
                | res => (t, Some res)
                end
            | _ => continue
            end
      end
  end.

(** The retransmissions: what each [send_to] gives, and the datagrams after it. *)
Fixpoint udp_attempts_timed (server : SocketAddr) (request : StunMessage) (delays : list Z)
    (attempts : list (timed (result net_error ()) * list (Z * udp_ev))) :
    timed (result stun_error SocketAddr) :=
  match delays with
  | [] => now (Err Timeout)
  | ms :: delays =>
      match attempts with
      | [] => Never
      | (sent, window) :: attempts =>
          _ ⇐ map_err SNet <$> sent;
          let '(t, r) := await_udp_timed server request ms window in
          match r with
          | Some res => At t res
          | None => delay t (udp_attempts_timed server request delays attempts)
          end
      end
  end.

(** What the network does during a query. *)
Record query_env := mkQueryEnv {
  qv_rnd : TransactionId;
  qv_stream : ByteStream → exchange;
  qv_udp : list (timed (result net_error ()) * list (Z * udp_ev));
}.

Module StunClient.
Section client.
Context `{Os} `{Quinn}.

Definition new (server : Endpoint) : StunClient := mkStunClient server None None.
Definition with_tls (self : StunClient) (config : ClientTlsConfig) : StunClient :=
  mkStunClient (sc_server self) (Some config) (sc_quic self).
Definition with_quic (self : StunClient) (config : ClientQuicConfig) : StunClient :=
  mkStunClient (sc_server self) (sc_tls self) (Some config).

Context (env : query_env).

Definition query (stream : ByteStream) : timed (result stun_error SocketAddr) :=
  (query_stream stream (qv_rnd env) (qv_stream env stream)).1.

Definition discover_udp (self : StunClient) (local : option SocketAddr) :
    timed (result stun_error SocketAddr) :=
  server ⇐ now (map_err SNet (try_socket_addr (sc_server self)));
  let local := default (match ip server with
    | V4 _ => mkSocketAddr (V4 [0; 0; 0; 0]) 0
    | V6 _ => mkSocketAddr (V6 (replicate 16 0)) 0
    end) local in
  _ ⇐ map_err SNet <$> Udp.listen (Endpoint.new_udp_addr local);
  let request := StunMessage.binding_request (qv_rnd env) in
  _ ⇐ now (StunMessage.encode request);
  udp_attempts_timed server request UDP_RETRIES_MS (qv_udp env).

Definition discover_from (self : StunClient) (local : SocketAddr) :
    timed (result stun_error SocketAddr) :=
  discover_udp self (Some local).

Definition discover_tcp (self : StunClient) : timed (result stun_error SocketAddr) :=
  stream ⇐ map_err SNet <$> Tcp.connect (sc_server self) TcpConfig_default;
  query stream.

Definition discover_tls (self : StunClient) : timed (result stun_error SocketAddr) :=
  config ⇐ now (ok_or (sc_tls self) (SMissingConfig "tls"));
  stream ⇐ map_err SNet <$> Tcp.connect (sc_server self) TcpConfig_default;
  stream ⇐ map_err SNet <$> client_handshake (TlsLayer.client config) stream;
  query stream.

(** Closing the connection at the end changes nothing of the result. *)
Definition discover_quic (self : StunClient) : timed (result stun_error SocketAddr) :=
  config ⇐ now (ok_or (sc_quic self) (SMissingConfig "quic"));
  conn ⇐ map_err SNet <$> QuicEndpoint.dial (sc_server self) config;
  stream ⇐ map_err SNet <$> QuicConn.open_stream conn;
  query stream.

Definition discover (self : StunClient) : timed (result stun_error SocketAddr) :=
  match sc_server self with
  | Udp _ _ => discover_udp self None
  | Tcp _ _ => with_timeout (discover_tcp self)
  | Tls _ _ => with_timeout (discover_tls self)
  | Quic _ _ => with_timeout (discover_quic self)
  | ep => now (Err (SUnsupportedEndpoint (EndpointText.to_string ep)))
  end.

End client.
End StunClient.

(** ** Server *)

Record StunConfig `{Quinn} := mkStunConfig {
  udp_endpoint : option Endpoint;
  tcp_endpoint : option Endpoint;
  tls_endpoint : option (Endpoint * ServerTlsConfig);
  quic_endpoint : option (Endpoint * ServerQuicConfig);
  max_connections : Z;
  software : option (list Z);
}.
Arguments mkStunConfig {_ _} _ _ _ _ _ _.

Definition StunConfig_default `{Quinn} : StunConfig :=
  mkStunConfig None None None None DEFAULT_MAX_CONNECTIONS None.

Inductive listener_loop `{Rustls} :=
| UdpLoop (conn : UdpConn)
| TcpLoop (listener : TcpListener)
| TlsLoop (listener : TcpListener) (layer : TlsLayer)
| QuicLoop (quic : QuicEndpoint).

(** The tasks of the server's group.  A loop may have to drop a slot it was
    refused; a stream has the slot of its connection, or none on QUIC. *)
Inductive task `{Rustls} :=
| LoopTask (l : listener_loop) (refused : bool)
| TlsTask (layer : TlsLayer) (stream : ByteStream)
| QuicHandshakeTask (incoming : QuicIncoming)
| QuicTask (conn : QuicConn)
| StreamTask (stream : ByteStream) (slot : bool).

Record StunServer `{Quinn} := mkStunServer {
  ss_config : StunConfig;
  ss_tasks : list task;
  ss_conns : Z;
}.
Arguments mkStunServer {_ _} _ _ _.

(** The atomic [usize] operations. *)
Definition fetch_add (n : Z) : Z := (n + 1) mod 2 ^ 64.
Definition fetch_sub (n : Z) : Z := (n - 1) mod 2 ^ 64.

Definition set_tasks `{Quinn} (s : StunServer) (ts : list task) : StunServer :=
  mkStunServer (ss_config s) ts (ss_conns s).

(** The framed loop of [stream_conn_loop] with the peer's address, and the bytes
    the stream took.  A script that ends is a stream that stays silent. *)
Fixpoint serve_stream (conn : FramedConn StunCodec) (source : SocketAddr)
    (software : option (list Z)) (script : list exchange) :
    timed (result stun_error ()) * list Z :=
  match script with
  | [] => (At STREAM_IDLE_TIMEOUT (Ok ()), [])
  | x :: script =>
      let '(received, r, _) := FramedReader.recv_msg (reader conn) (ex_reads x) in
      match timeout STREAM_IDLE_TIMEOUT (completes (ex_read_time x) received) with
      | Never => (Never, [])
      | At t (Err _) | At t (Ok (Err _)) => (At t (Ok ()), [])
      | At t (Ok (Ok msg)) =>
          if negb (bool_decide (msg_type msg = BindingRequest)) then
            let '(res, out) := serve_stream (mkFramedConn r (writer conn)) source software script in
            (delay t res, out)
          else
            let '(sent, w, out, _) := FramedWriter.send_msg (writer conn)
              (handle_binding msg source software) (ex_writes x) (ex_flush x) in
            match completes (ex_write_time x) sent with
            | Never => (Never, out)
            | At t' (Err e) => (At (t + t') (Err (SNet e)), out)
            | At t' (Ok _) =>
                let '(res, out') := serve_stream (mkFramedConn r w) source software script in
                (delay (t + t') res, out ++ out')
            end
      end
  end.

Module StunServer.
Section server.
Context `{Os} `{Quinn}.

Definition stream_conn_loop (stream : ByteStream) (software : option (list Z))
    (script : list exchange) : timed (result stun_error ()) * list Z :=
  match ByteStream.peer_endpoint stream with
  | None => (now (Err (InvalidMsg "connection without peer endpoint")), [])
  | Some source =>
      match try_socket_addr source with
      | Err e => (now (Err (SNet e)), [])
      | Ok source =>
          serve_stream (framed (ByteStream.peer_endpoint stream) (ByteStream.local_endpoint stream)
            stun_codec) source software script
      end
  end.

Definition new (config : StunConfig) : StunServer := mkStunServer config [] 0.

(** The endpoints bound one after the other; the loops of those that were stay,
    whatever comes after. *)
Fixpoint start (binds : list (option (timed (result net_error listener_loop)))) :
    timed (result stun_error ()) * list listener_loop :=
  match binds with
  | [] => (now (Ok ()), [])
  | None :: binds => start binds
  | Some Never :: _ => (Never, [])
  | Some (At t (Err e)) :: _ => (At t (Err (SNet e)), [])
  | Some (At t (Ok l)) :: binds => let '(r, ls) := start binds in (delay t r, l :: ls)
  end.

Definition listeners (config : StunConfig) : timed (result stun_error ()) * list listener_loop :=
  start
    [(λ e, conn ⇐ Udp.listen e; now (Ok (UdpLoop conn))) <$> udp_endpoint config;
     (λ e, listener ⇐ Tcp.bind e TcpConfig_default; now (Ok (TcpLoop listener)))
       <$> tcp_endpoint config;
     (λ '(e, c), listener ⇐ Tcp.bind e TcpConfig_default;
        now (Ok (TlsLoop listener (TlsLayer.server c)))) <$> tls_endpoint config;
     (λ '(e, c), now (QuicLoop <$> QuicEndpoint.listen e c)) <$> quic_endpoint config].

(** [take_slot]: whether the slot is kept.  One that is not is dropped by a later
    step of the caller. *)
Definition take_slot (s : StunServer) : bool * StunServer :=
  (ss_conns s <? max_connections (ss_config s),
   mkStunServer (ss_config s) (ss_tasks s) (fetch_add (ss_conns s))).

Definition drop_slot (s : StunServer) : StunServer :=
  mkStunServer (ss_config s) (ss_tasks s) (fetch_sub (ss_conns s)).

Definition spawn (s : StunServer) (t : task) : StunServer := set_tasks s (ss_tasks s ++ [t]).

Definition run (s : StunServer) : timed (result stun_error ()) * StunServer :=
  let '(r, loops) := listeners (ss_config s) in
  (r, foldl (λ s l, spawn s (LoopTask l false)) s loops).

Definition spawn_stream (s : StunServer) (stream : ByteStream) (slot : bool) : StunServer :=
  spawn s (StreamTask stream slot).

(** The handshakes of [tls_conn] and [quic_conn]. *)
Definition tls_handshake (layer : TlsLayer) (stream : ByteStream) :
    timed (result stun_error ByteStream) :=
  timeout_try (λ _, Timeout) SNet HANDSHAKE_TIMEOUT (server_handshake layer stream).

Definition quic_handshake (incoming : QuicIncoming) : timed (result stun_error QuicConn) :=
  timeout_try (λ _, Timeout) SNet HANDSHAKE_TIMEOUT (QuicIncoming.handshake incoming).

(** What an accept gives a loop, and what the loop makes of it. *)
Inductive accepted :=
| AStream (r : result net_error ByteStream)
| AIncoming (r : result net_error QuicIncoming).

Inductive verdict := Continue | Serve (t : task) | Return.

Definition loop_turn (l : listener_loop) (a : accepted) : option verdict :=
  match l, a with
  | TcpLoop _, AStream (Ok stream) => Some (Serve (StreamTask stream true))
  | TlsLoop _ layer, AStream (Ok stream) => Some (Serve (TlsTask layer stream))
  | TcpLoop _, AStream (Err _) | TlsLoop _ _, AStream (Err _) => Some Continue
  | QuicLoop _, AIncoming (Ok incoming) => Some (Serve (QuicHandshakeTask incoming))
  | QuicLoop _, AIncoming (Err ConnectionClosed) => Some Return
  | QuicLoop _, AIncoming (Err _) => Some Continue
  | _, _ => None
  end.

(** The slot a task drops when it ends or is dropped. *)
Definition holds (t : task) : bool :=
  match t with
  | LoopTask _ refused => refused
  | TlsTask _ _ | QuicHandshakeTask _ | QuicTask _ => true
  | StreamTask _ slot => slot
  end.

(** Task [i] is gone: it returned, panicked or was cancelled. *)
Definition end_task (s : StunServer) (i : nat) (t : task) : StunServer :=
  let s := set_tasks s (delete i (ss_tasks s)) in
  if holds t then drop_slot s else s.

(** What wakes a task: an accept, the drop of a refused slot, the end of a
    handshake, a stream of a QUIC connection, or its end. *)
Inductive turn_ev :=
| EAccept (a : accepted)
| EDropSlot
| EHandshake
| EQuicStream (r : result net_error ByteStream)
| EEnd.

(** One turn of task [i]; none if it does not wait for that event. *)
Definition turn (s : StunServer) (i : nat) (ev : turn_ev) : option StunServer :=
  t ← ss_tasks s !! i;
  match t, ev with
  | LoopTask l false, EAccept a =>
      v ← loop_turn l a;
      match v with
      | Continue => Some s
      | Return => Some (end_task s i t)
      | Serve conn =>
          let '(slot, s) := take_slot s in
          Some (if slot then spawn s conn
                else set_tasks s (<[i := LoopTask l true]> (ss_tasks s)))
      end
  | LoopTask l true, EDropSlot =>
      Some (drop_slot (set_tasks s (<[i := LoopTask l false]> (ss_tasks s))))
  | TlsTask layer stream, EHandshake =>
      match tls_handshake layer stream with
      | Never => None
      | At _ (Err _) => Some (end_task s i t)
      | At _ (Ok stream) => Some (set_tasks s (<[i := StreamTask stream true]> (ss_tasks s)))
      end
  | QuicHandshakeTask incoming, EHandshake =>
      match quic_handshake incoming with
      | Never => None
      | At _ (Err _) => Some (end_task s i t)
      | At _ (Ok conn) => Some (set_tasks s (<[i := QuicTask conn]> (ss_tasks s)))
      end
  | QuicTask conn, EQuicStream (Ok stream) => Some (spawn_stream s stream false)
  | QuicTask conn, EQuicStream (Err _) => Some (end_task s i t)
  | _, EEnd => Some (end_task s i t)
  | _, _ => None
  end.

(** The states of a server that was started once: [ls] are the loops [run] has
    yet to spawn, which happens while the first ones already accept. *)
Inductive reachable (config : StunConfig) : list listener_loop → StunServer → Prop :=
| reach_new : reachable config (listeners config).2 (new config)
| reach_listen l ls s :
    reachable config (l :: ls) s → reachable config ls (spawn s (LoopTask l false))
| reach_turn ls s s' i ev :
    reachable config ls s → turn s i ev = Some s' → reachable config ls s'.

(** [shutdown] is [cancel] of the task group, which takes the handlers out of the
    group once and then cancels these tasks one after the other.  Meanwhile the
    tasks that are not cancelled yet go on, and so does a call of [run]: the loops
    it has yet to spawn, the server, and for each task whether its cancellation is
    still to come. *)
Record stopping := mkStopping {
  st_listen : list listener_loop;
  st_server : StunServer;
  st_drained : list bool;
}.

Definition drain (ls : list listener_loop) (s : StunServer) : stopping :=
  mkStopping ls s (replicate (length (ss_tasks s)) true).

(** What was drained, after a turn of task [i]: a task it spawned was not. *)
Definition drained_after (i : nat) (s s' : StunServer) (ds : list bool) : list bool :=
  if (length (ss_tasks s) <? length (ss_tasks s'))%nat then ds ++ [false]
  else if (length (ss_tasks s') <? length (ss_tasks s))%nat then delete i ds
  else ds.

Inductive shutdown_step : stopping → stopping → Prop :=
| shut_turn ls s ds i ev s' :
    turn s i ev = Some s' →
    shutdown_step (mkStopping ls s ds) (mkStopping ls s' (drained_after i s s' ds))
| shut_listen l ls s ds :
    shutdown_step (mkStopping (l :: ls) s ds) (mkStopping ls (spawn s (LoopTask l false)) (ds ++ [false]))
| shut_cancel ls s ds i t :
    ss_tasks s !! i = Some t → ds !! i = Some true →
    shutdown_step (mkStopping ls s ds) (mkStopping ls (end_task s i t) (delete i ds)).

(** [shutdown] returns when all that was drained is cancelled. *)
Definition shutdown_returned (st : stopping) : Prop := true ∉ st_drained st.

End server.
End StunServer.

(** ** Theorems *)

(** *** The connection limit *)

Section limit.
Context `{Os} `{Quinn}.
Import StunServer.

Definition is_loop (t : task) : bool := match t with LoopTask _ _ => true | _ => false end.

(** The tasks of connections that count. *)
Definition served (t : task) : bool := negb (is_loop t) && holds t.

Record limit_inv (config : StunConfig) (ls : list listener_loop) (s : StunServer) : Prop := {
  li_config : ss_config s = config;
  li_conns : ss_conns s = Z.of_nat (countb holds (ss_tasks s));
  li_served : Z.of_nat (countb served (ss_tasks s)) ≤ max_connections config;
  li_loops : (countb is_loop (ss_tasks s) + length ls ≤ 4)%nat;
}.

Lemma countb_delete {A} (f : A → bool) l i x :
  l !! i = Some x → (countb f (delete i l) + (if f x then 1 else 0) = countb f l)%nat.
Proof.
  intros Hi. rewrite (delete_take_drop l i), countb_app.
  rewrite <-(take_drop_middle l i x Hi) at 3. rewrite countb_app. simpl. lia.
Qed.

Lemma holds_bound (ts : list task) :
  (countb served ts ≤ countb holds ts ≤ countb served ts + countb is_loop ts)%nat.
Proof.
  unfold served. induction ts as [|t ts IH]; simpl; [lia|].
  destruct (is_loop t), (holds t); simpl; lia.
Qed.

Lemma start_length binds : (length (start binds).2 ≤ length binds)%nat.
Proof.
  induction binds as [|[[|t [l|e]]|] binds IH]; simpl; try lia.
  destruct (start binds). simpl in *. lia.
Qed.

Context (config : StunConfig).
Context (Hmax : 0 ≤ max_connections config) (Hbig : max_connections config + 4 < 2 ^ 64).

Lemma limit_small ls s :
  limit_inv config ls s → 0 ≤ ss_conns s < 2 ^ 64 ∧ (countb holds (ss_tasks s) ≤
    countb served (ss_tasks s) + countb is_loop (ss_tasks s))%nat.
Proof. intros [? Hc ? ?]. pose proof (holds_bound (ss_tasks s)). lia. Qed.

(** A task takes the place of another with the same slot. *)
Lemma limit_replace ls s i t t' :
  ss_tasks s !! i = Some t → holds t' = holds t → is_loop t' = is_loop t →
  limit_inv config ls s → limit_inv config ls (set_tasks s (<[i := t']> (ss_tasks s))).
Proof.
  intros Hi Hh Hl [? Hc Hs Hloops].
  constructor; simpl; [done|by rewrite (countb_replace _ _ _ t)| |by rewrite (countb_replace _ _ _ t)].
  rewrite (countb_replace _ _ _ t); [done..|]. unfold served. by rewrite Hh, Hl.
Qed.

(** A task that holds nothing is spawned. *)
Lemma limit_spawn ls s t :
  holds t = false → is_loop t = false → limit_inv config ls s → limit_inv config ls (spawn s t).
Proof.
  intros Hh Hl [? Hc Hs Hloops]. constructor; simpl; [done|..]; rewrite countb_app; simpl.
  - by rewrite Hh, Nat.add_0_r.
  - unfold served at 2. by rewrite Hh, Hl, Nat.add_0_r.
  - by rewrite Hl, Nat.add_0_r.
Qed.

Lemma limit_end ls s i t :
  ss_tasks s !! i = Some t → limit_inv config ls s → limit_inv config ls (end_task s i t).
Proof.
  intros Hi Hinv. pose proof (limit_small _ _ Hinv) as [Hsmall _]. destruct Hinv as [? Hc Hs Hloops].
  pose proof (countb_delete holds _ _ _ Hi) as Hh.
  pose proof (countb_delete served _ _ _ Hi). pose proof (countb_delete is_loop _ _ _ Hi).
  unfold end_task. destruct (holds t); constructor; simpl; try done; try lia.
  unfold fetch_sub. rewrite Z.mod_small; lia.
Qed.

Lemma limit_drop ls s i l :
  ss_tasks s !! i = Some (LoopTask l true) → limit_inv config ls s →
  limit_inv config ls (drop_slot (set_tasks s (<[i := LoopTask l false]> (ss_tasks s)))).
Proof.
  intros Hi Hinv. pose proof (limit_small _ _ Hinv) as [Hsmall _]. destruct Hinv as [? Hc Hs Hloops].
  pose proof (countb_insert holds _ _ _ (LoopTask l false) Hi) as Hh. simpl in Hh.
  constructor; simpl; [done| |by rewrite (countb_replace _ _ _ (LoopTask l true))..].
  unfold fetch_sub. rewrite Z.mod_small; lia.
Qed.

Lemma limit_accept ls s i l conn :
  ss_tasks s !! i = Some (LoopTask l false) → is_loop conn = false → holds conn = true →
  limit_inv config ls s →
  limit_inv config ls (let '(slot, s) := take_slot s in
    if slot then spawn s conn else set_tasks s (<[i := LoopTask l true]> (ss_tasks s))).
Proof.
  intros Hi Hl Hh Hinv. pose proof (limit_small _ _ Hinv) as [Hsmall Hle].
  destruct Hinv as [Hcfg Hc Hs Hloops]. pose proof (holds_bound (ss_tasks s)).
  pose proof (countb_insert holds _ _ _ (LoopTask l true) Hi) as Hr. simpl in Hr.
  simpl. rewrite Hcfg. destruct (Z.ltb_spec (ss_conns s) (max_connections config)).
  - constructor; simpl; [done|..]; rewrite ?countb_app; simpl; unfold fetch_add.
    + rewrite Hh, Z.mod_small by lia. lia.
    + unfold served at 2. rewrite Hh, Hl. simpl. lia.
    + rewrite Hl. lia.
  - pose proof (holds_bound (<[i := LoopTask l true]> (ss_tasks s))) as Hb.
    rewrite (countb_replace served _ _ _ (LoopTask l true) Hi eq_refl),
      (countb_replace is_loop _ _ _ (LoopTask l true) Hi eq_refl) in Hb.
    constructor; simpl; [done| |by rewrite (countb_replace _ _ _ (LoopTask l false))..].
    unfold fetch_add. rewrite Z.mod_small; lia.
Qed.

Lemma loop_turn_serve l a conn :
  loop_turn l a = Some (Serve conn) → is_loop conn = false ∧ holds conn = true.
Proof. unfold loop_turn. intros. by repeat case_match; simplify_eq/=. Qed.

Lemma limit_turn ls s i ev s' :
  limit_inv config ls s → turn s i ev = Some s' → limit_inv config ls s'.
Proof.
  intros Hinv. unfold turn. destruct (ss_tasks s !! i) as [t|] eqn:Hi; [simpl|done].
  destruct t as [l []|layer stream|incoming|conn|stream slot], ev as [a| | |[]|]; simpl;
    try discriminate; try (intros [= <-]; by apply limit_end).
  - intros [= <-]. by apply limit_drop.
  - destruct (loop_turn l a) as [[|conn|]|] eqn:Ha; simpl; intros Hs; simplify_eq; [done| |].
    + apply loop_turn_serve in Ha as [? ?]. by apply (limit_accept ls s i l conn).
    + by apply limit_end.
  - destruct (tls_handshake layer stream) as [|? []]; intros [= <-];
      [by apply (limit_replace _ _ _ (TlsTask layer stream))|by apply limit_end].
  - destruct (quic_handshake incoming) as [|? []]; intros [= <-];
      [by apply (limit_replace _ _ _ (QuicHandshakeTask incoming))|by apply limit_end].
  - intros [= <-]. by apply limit_spawn.
Qed.

Lemma reachable_limit ls s : reachable config ls s → limit_inv config ls s.
Proof.
  induction 1 as [|l ls s _ IH|ls s s' i ev _ IH Hturn]; [|destruct IH as [? Hc Hs Hl]|].
  - constructor; simpl; try done. unfold listeners.
    match goal with |- (length (start ?b).2 ≤ 4)%nat => apply (start_length b) end.
  - constructor; simpl; rewrite ?countb_app; simpl; try done; simpl in *; lia.
  - by eapply limit_turn.
Qed.

(** *** Shutdown *)

Lemma end_turn s i t : ss_tasks s !! i = Some t → turn s i EEnd = Some (end_task s i t).
Proof. intros Hi. unfold turn. rewrite Hi. simpl. by destruct t as [? []| | | |]. Qed.

Lemma end_tasks s i t : ss_tasks (end_task s i t) = delete i (ss_tasks s).
Proof. unfold end_task. by destruct (holds t). Qed.

Lemma shutdown_reachable st st' :
  reachable config (st_listen st) (st_server st) → rtc shutdown_step st st' →
  reachable config (st_listen st') (st_server st').
Proof.
  intros Hr Hrun. induction Hrun as [|st1 st2 st3 Hs _ IH]; [done|]. apply IH.
  destruct Hs; simpl in *; [by eapply reach_turn|by apply reach_listen|].
  eapply reach_turn; [done|by apply end_turn].
Qed.

(** What a turn does to the tasks. *)
Lemma turn_tasks s i ev s' :
  turn s i ev = Some s' →
  ∃ t, ss_tasks s !! i = Some t ∧
    (ss_tasks s' = ss_tasks s ∨ ss_tasks s' = delete i (ss_tasks s) ∨
     (∃ t', ss_tasks s' = ss_tasks s ++ [t'] ∧ is_loop t' = false) ∨
     (∃ t', ss_tasks s' = <[i := t']> (ss_tasks s) ∧ is_loop t' = is_loop t)).
Proof.
  unfold turn. destruct (ss_tasks s !! i) as [t|] eqn:Hi; [simpl|done]. intros Ht. exists t. split; [done|].
  destruct t as [l []|layer stream|incoming|conn|stream slot], ev as [a| | |[]|]; simpl in Ht;
    try discriminate; try (injection Ht as <-; right; left; by rewrite end_tasks).
  - injection Ht as <-. right; right; right. by eexists.
  - destruct (loop_turn l a) as [[|conn|]|] eqn:Ha; simpl in Ht; simplify_eq; [by left| |].
    + apply loop_turn_serve in Ha as [? _]. right; right. destruct (_ <? _); [left|right]; by eexists.
    + right; left. by rewrite end_tasks.
  - destruct (tls_handshake layer stream) as [|? []]; simplify_eq; [right; right; right; by eexists|].
    right; left. by rewrite end_tasks.
  - destruct (quic_handshake incoming) as [|? []]; simplify_eq; [right; right; right; by eexists|].
    right; left. by rewrite end_tasks.
  - injection Ht as <-. right; right; left. by eexists.
Qed.

(** The loops were all drained, if [run] had returned. *)
Definition loops_drained (st : stopping) : Prop :=
  st_listen st = [] ∧ Forall2 (λ d t, d = true ∨ is_loop t = false) (st_drained st) (ss_tasks (st_server st)).

Lemma loops_drained_step st st' : shutdown_step st st' → loops_drained st → loops_drained st'.
Proof.
  intros Hs [Hls Hd]. destruct Hs as [ls s ds i ev s' Ht|l ls s ds|ls s ds i t Hi Hdi]; simpl in *; [|done|].
  - split; [done|]. simpl. unfold drained_after.
    destruct (turn_tasks _ _ _ _ Ht) as (t & Hi & Hcase). pose proof (lookup_lt_Some _ _ _ Hi) as Hlt.
    destruct Hcase as [->|[->|[(t' & -> & Hl)|(t' & -> & Hl)]]].
    + by rewrite !Nat.ltb_irrefl.
    + rewrite length_delete by done.
      rewrite (proj2 (Nat.ltb_ge _ _)), (proj2 (Nat.ltb_lt _ _)) by lia. by apply Forall2_delete.
    + rewrite length_app. simpl. rewrite (proj2 (Nat.ltb_lt _ _)) by lia.
      apply Forall2_app; [done|]. apply Forall2_cons. split; [by right|constructor].
    + rewrite length_insert, !Nat.ltb_irrefl.
      destruct (Forall2_lookup_r _ _ _ _ _ Hd Hi) as (d & Hdi & Hdt).
      rewrite <-(list_insert_id ds i d Hdi). apply Forall2_insert; [done|]. by rewrite Hl.
  - split; [done|]. simpl. rewrite end_tasks. by apply Forall2_delete.
Qed.

Lemma loops_gone s st :
  rtc shutdown_step (drain [] s) st → shutdown_returned st →
  Forall (λ t, is_loop t = false) (ss_tasks (st_server st)).
Proof.
  intros Hrun Hret. assert (loops_drained (drain [] s)) as Hd.
  { split; [done|]. apply Forall2_replicate_l; [done|]. apply Forall_true. by left. }
  assert (loops_drained st) as [_ Hall] by (clear Hret; induction Hrun; eauto using loops_drained_step).
  apply Forall_forall. intros t [i Hi]%list_elem_of_lookup.
  destruct (Forall2_lookup_r _ _ _ _ _ Hall Hi) as (d & Hd' & [->|?]); [|done].
  exfalso. apply Hret. by eapply list_elem_of_lookup_2.
Qed.

(** Nothing keeps the cancellations from going on. *)
Lemma shutdown_drained ls n : ∀ s ds,
  (n ≤ length (ss_tasks s))%nat →
  ∃ s', rtc shutdown_step (mkStopping ls s (replicate n true ++ ds)) (mkStopping ls s' ds) ∧
    ss_tasks s' = drop n (ss_tasks s).
Proof.
  induction n as [|n IH]; intros s ds Hn; [by exists s|].
  destruct (ss_tasks s) as [|t ts] eqn:Hts; simpl in Hn; [lia|].
  destruct (IH (end_task s 0 t) ds) as (s' & Hrun & Hs').
  { rewrite end_tasks, Hts. simpl. lia. }
  exists s'. split; [|by rewrite Hs', end_tasks, Hts].
  eapply rtc_l; [apply (shut_cancel _ _ _ 0 t); [by rewrite Hts|done]|]. exact Hrun.
Qed.

Lemma tasks_free ls s : reachable config ls s → ss_conns s = Z.of_nat (countb holds (ss_tasks s)).
Proof. intros Hr. apply (reachable_limit _ _ Hr). Qed.

(** C27: the connection limit of a STUN server.  However its listeners, its
    handshakes and the ends of its connections interleave, the counter is exactly
    the slots that are out, and at most [max_connections] connections hold one.
    An accepted connection is served if and only if a slot is free, those being
    refused at that moment counted.  This stays so during a shutdown, which can
    always return with every task gone and every slot free.  When it returns, after
    [run] had, no listener is left; but a connection that a listener accepts between
    the drain of the group and its own cancellation is left, with its slot. *)
Theorem stun_server_limit ls s :
  reachable config ls s →
  ss_conns s = Z.of_nat (countb holds (ss_tasks s)) ∧
  Z.of_nat (countb served (ss_tasks s)) ≤ max_connections config ∧
  (∀ i l a conn s', ss_tasks s !! i = Some (LoopTask l false) →
    loop_turn l a = Some (Serve conn) → turn s i (EAccept a) = Some s' →
    ss_tasks s' = if bool_decide (Z.of_nat (countb holds (ss_tasks s)) < max_connections config)
                  then ss_tasks s ++ [conn] else <[i := LoopTask l true]> (ss_tasks s)) ∧
  (∀ st, rtc shutdown_step (drain ls s) st → reachable config (st_listen st) (st_server st) ∧
    (ls = [] → shutdown_returned st → Forall (λ t, is_loop t = false) (ss_tasks (st_server st)))) ∧
  (∃ st, rtc shutdown_step (drain ls s) st ∧ shutdown_returned st ∧
    ss_tasks (st_server st) = [] ∧ ss_conns (st_server st) = 0) ∧
  (∀ i l a conn, ss_tasks s !! i = Some (LoopTask l false) → loop_turn l a = Some (Serve conn) →
    ss_conns s < max_connections config →
    ∃ st, rtc shutdown_step (drain ls s) st ∧ shutdown_returned st ∧
      ss_tasks (st_server st) = [conn] ∧ ss_conns (st_server st) = 1).
Proof.
  intros Hr. pose proof (reachable_limit _ _ Hr) as Hinv. split_and!; [apply Hinv..| | | |].
  - intros i l a conn s' Hi Ha. unfold turn. rewrite Hi. simpl. rewrite Ha. simpl.
    rewrite (li_config _ _ _ Hinv), (li_conns _ _ _ Hinv). intros [= <-].
    case_bool_decide as Hlt; [by rewrite (proj2 (Z.ltb_lt _ _) Hlt)|].
    by rewrite (proj2 (Z.ltb_ge _ _)) by lia.
  - intros st Hrun. split; [by apply (shutdown_reachable (drain ls s))|]. intros -> Hret. by eapply loops_gone.
  - destruct (shutdown_drained ls (length (ss_tasks s)) s [] (le_n _)) as (s' & Hrun & Hs').
    rewrite app_nil_r in Hrun. rewrite drop_all in Hs'. eexists. split; [exact Hrun|]. split; [by intros ?%not_elem_of_nil|].
    split; [done|]. simpl. by rewrite (tasks_free ls), Hs' by (by apply (shutdown_reachable (drain ls s) _ Hr Hrun)).
  - intros i l a conn Hi Ha Hlt. set (s1 := spawn (take_slot s).2 conn).
    assert (turn s i (EAccept a) = Some s1) as Ht.
    { unfold turn. rewrite Hi. simpl. rewrite Ha. simpl.
      replace (ss_conns s <? _) with true; [done|]. symmetry. apply Z.ltb_lt. by rewrite (li_config _ _ _ Hinv). }
    destruct (shutdown_drained ls (length (ss_tasks s)) s1 [false]) as (s' & Hrun & Hs').
    { unfold s1. simpl. rewrite length_app. lia. }
    assert (rtc shutdown_step (drain ls s) (mkStopping ls s' [false])) as Hall.
    { eapply rtc_l; [by apply (shut_turn _ _ _ i (EAccept a))|]. unfold drained_after, s1. simpl.
      rewrite length_app. simpl. rewrite (proj2 (Nat.ltb_lt _ _)) by lia. exact Hrun. }
    exists (mkStopping ls s' [false]). split; [exact Hall|]. split; [by intros ?%list_elem_of_singleton|].
    simpl. unfold s1 in Hs'. simpl in Hs'. rewrite drop_app_length in Hs'. split; [done|].
    rewrite (tasks_free ls), Hs' by (by apply (shutdown_reachable (drain ls s) _ Hr Hall)). simpl.
    by rewrite (proj2 (loop_turn_serve _ _ _ Ha)).
Qed.

End limit.

(** *** The tasks of a connection *)

Definition ev_bytes (e : read_ev) : Prop := match e with RData bs => is_bytes bs | RErr _ => True end.

Lemma try_decode_no_panic (r : FramedReader.t StunCodec) reads next :
  is_bytes (inner (FramedReader.buffer r)) → next.1.1 ≠ Panicked →
  (FramedReader.try_decode r reads next).1.1 ≠ Panicked.
Proof.
  intros Hb Hnext. unfold FramedReader.try_decode.
  destruct (decode _ _) as [[[n m]|]|e] eqn:Hd; [|done..].
  apply (map_err_Ok into_net) in Hd.
  destruct (stun_decode_safe _ Hb) as [Hs _]. destruct (Hs _ _ Hd) as [Hn _].
  unfold Buffer.advance, Buffer.len. by rewrite (proj2 (Z.leb_le _ _)) by lia.
Qed.

Lemma recv_loop_no_panic reads : ∀ r : FramedReader.t StunCodec,
  is_bytes (inner (FramedReader.buffer r)) → Forall ev_bytes reads →
  (FramedReader.recv_loop r reads).1.1 ≠ Panicked.
Proof.
  induction reads as [|[[|b bs]|k] reads IH]; intros r Hb Hevs; simpl; try done.
  { by destruct (Buffer.is_empty _). }
  apply Forall_cons in Hevs as [Hbs Hevs].
  assert (is_bytes (inner (Buffer.extend_from_slice (FramedReader.buffer r) (b :: bs)))) as Hb'
    by (by apply Forall_app).
  apply try_decode_no_panic; [done|]. by apply IH.
Qed.

(** Receiving STUN messages never panics. *)
Lemma recv_msg_no_panic (r : FramedReader.t StunCodec) reads :
  is_bytes (inner (FramedReader.buffer r)) → Forall ev_bytes reads →
  (FramedReader.recv_msg r reads).1.1 ≠ Panicked.
Proof. intros. apply try_decode_no_panic; [done|]. by apply recv_loop_no_panic. Qed.

Lemma timeout_bound {A} d (f : timed A) : ∃ t r, timeout d f = At t r ∧ t ≤ d.
Proof.
  destruct (timeout_cases d f) as [(t & a & -> & Ht & ->)|[_ ->]]; eexists _, _;
    (split; [done|lia]).
Qed.

Lemma timeout_try_bound {E F A} core (from : E → F) d (f : timed (result E A)) :
  ∃ t r, timeout_try core from d f = At t r ∧ t ≤ d.
Proof.
  unfold timeout_try. destruct (timeout_bound d f) as (t & r & -> & Ht). simpl. by eauto.
Qed.

Lemma timeout_within {A} d t (a : A) : t < d → timeout d (At t a) = At t (Ok a).
Proof. intros. unfold timeout, select, sleep. by rewrite (proj2 (Z.leb_gt _ _)). Qed.

(** A stream takes whatever it is given, at least up to [n] writes. *)
Definition takes (n : nat) (x : exchange) : Prop :=
  Forall (λ e, ∃ k, e = WRoom (S k)) (ex_writes x) ∧ (n ≤ length (ex_writes x))%nat ∧
  ex_flush x = Ok ().

Lemma send_taken w m x :
  FramedWriter.encoder w = stun_codec → inner (FramedWriter.buffer w) = [] → msg_wf m →
  takes (length (msg_bytes m)) x →
  ∃ w' rest, FramedWriter.send_msg w m (ex_writes x) (ex_flush x) =
    (Ready (Ok ()), w', msg_bytes m, rest).
Proof.
  intros Hc Hb Hm (Hws & Hlen & ->).
  destruct (send_completes stun_codec msg_wf msg_bytes w m (ex_writes x)) as (w' & rest & -> & _);
    rewrite ?Hb; eauto.
Qed.

Lemma query_stream_out stream rnd x :
  txn_wf rnd → takes (length (msg_bytes (StunMessage.binding_request rnd))) x →
  (query_stream stream rnd x).2 = msg_bytes (StunMessage.binding_request rnd).
Proof.
  intros Ht Hx. unfold query_stream.
  destruct (send_taken (writer (framed (ByteStream.peer_endpoint stream)
    (ByteStream.local_endpoint stream) stun_codec)) (StunMessage.binding_request rnd) x)
    as (w' & rest & ->); [done|done|by split_and!|done|done].
Qed.

(** A query whose request is taken and that reads a whole message first. *)
Lemma query_stream_reads stream rnd x m chunks evs :
  txn_wf rnd → takes (length (msg_bytes (StunMessage.binding_request rnd))) x → msg_wf m →
  Forall (λ bs, bs ≠ []) chunks → concat chunks = msg_bytes m →
  ex_reads x = map RData chunks ++ evs →
  (query_stream stream rnd x).1 =
    At (ex_write_time x + ex_read_time x) (validate_response (StunMessage.binding_request rnd) m).
Proof.
  intros Ht Hx Hm Hne Hcat Hreads. unfold query_stream.
  set (conn := framed _ _ _).
  destruct (send_taken (writer conn) (StunMessage.binding_request rnd) x)
    as (w' & rest & ->); [done|done|by split_and!|done|].
  destruct (recv_msg_step stun_codec msg_wf msg_bytes (reader conn) m [] chunks evs)
    as (b & chunks' & Hrecv & _); [done|done|done|by rewrite Hcat, app_nil_r|].
  rewrite Hreads, Hrecv. unfold try_await, now. simpl. f_equal; lia.
Qed.

(** The server's side of it: a stream that then stays silent gets one reply. *)
Lemma serve_stream_replies peer local source software x m chunks evs :
  msg_wf m → msg_type m = BindingRequest → msg_wf (handle_binding m source software) →
  takes (length (msg_bytes (handle_binding m source software))) x →
  Forall (λ bs, bs ≠ []) chunks → concat chunks = msg_bytes m →
  ex_reads x = map RData chunks ++ evs → ex_read_time x < STREAM_IDLE_TIMEOUT →
  serve_stream (framed peer local stun_codec) source software [x] =
    (At (ex_read_time x + ex_write_time x + STREAM_IDLE_TIMEOUT) (Ok ()),
     msg_bytes (handle_binding m source software)).
Proof.
  intros Hm Hty Hresp Hx Hne Hcat Hreads Htime. set (conn := framed _ _ _). cbn [serve_stream].
  destruct (recv_msg_step stun_codec msg_wf msg_bytes (reader conn) m [] chunks evs)
    as (b & chunks' & Hrecv & _); [done|done|done|by rewrite Hcat, app_nil_r|].
  rewrite Hreads, Hrecv. cbn [completes]. rewrite timeout_within by done.
  rewrite bool_decide_eq_true_2 by done. cbn [negb].
  destruct (send_taken (writer conn) (handle_binding m source software) x)
    as (w' & rest & ->); [done..|].
  simpl. by rewrite app_nil_r.
Qed.

Lemma validate_binding request source software :
  validate_response request (handle_binding request source software) = Ok source.
Proof.
  unfold validate_response, handle_binding.
  by destruct software; simpl; rewrite bool_decide_eq_true_2.
Qed.

(** How long a stream task lives when its replies are taken. *)
Fixpoint life (script : list exchange) : Z :=
  match script with
  | [] => STREAM_IDLE_TIMEOUT
  | x :: script => STREAM_IDLE_TIMEOUT + Z.max 0 (ex_write_time x) + life script
  end.

Lemma life_pos script : 0 ≤ life script.
Proof. induction script; simpl; unfold STREAM_IDLE_TIMEOUT in *; lia. Qed.

(** A stream task ends, a write that never completes apart: nothing bounds the
    time of a reply the peer does not read. *)
Lemma serve_stream_ends source software script : ∀ conn,
  Forall (λ x, ∀ w m, (FramedWriter.send_msg (C := StunCodec) w m (ex_writes x)
    (ex_flush x)).1.1.1 ∉ [Pending; Panicked]) script →
  ∃ t r, (serve_stream conn source software script).1 = At t r ∧ t ≤ life script.
Proof.
  induction script as [|x script IH]; intros conn Hs; cbn [serve_stream life].
  { by eexists _, _. }
  apply Forall_cons in Hs as [Hx Hs]. pose proof (life_pos script).
  destruct (FramedReader.recv_msg _ _) as [[received r] left].
  destruct (timeout_bound STREAM_IDLE_TIMEOUT (completes (ex_read_time x) received))
    as (t & o & -> & Ht).
  destruct o as [[msg|e]|e]; [|by (eexists _, _; split; [done|lia])..].
  destruct (negb _).
  { destruct (IH (mkFramedConn r (writer conn)) Hs) as (t' & res & Hr & ?).
    destruct (serve_stream _ _ _ _) as [f out]. simpl in Hr. subst f.
    eexists _, _. split; [done|lia]. }
  specialize (Hx (writer conn) (handle_binding msg source software)).
  destruct (FramedWriter.send_msg _ _ _ _) as [[[sent w] out] rest]. simpl in Hx.
  destruct sent as [|[u|e]|]; [set_solver| | |set_solver]; simpl.
  - destruct (IH (mkFramedConn r w) Hs) as (t' & res & Hr & ?).
    destruct (serve_stream _ _ _ _) as [f out']. simpl in Hr. subst f.
    eexists _, _. split; [done|lia].
  - eexists _, _. split; [done|lia].
Qed.

(** *** Queries *)

Section queries.
Context `{Os} `{Quinn} (env : query_env).
Import StunClient.

(** The stream of a query over TCP, TLS or QUIC. *)
Definition dial_stream (self : StunClient) : timed (result stun_error ByteStream) :=
  match sc_server self with
  | Tcp _ _ => map_err SNet <$> Tcp.connect (sc_server self) TcpConfig_default
  | Tls _ _ =>
      config ⇐ now (ok_or (sc_tls self) (SMissingConfig "tls"));
      stream ⇐ map_err SNet <$> Tcp.connect (sc_server self) TcpConfig_default;
      map_err SNet <$> client_handshake (TlsLayer.client config) stream
  | Quic _ _ =>
      config ⇐ now (ok_or (sc_quic self) (SMissingConfig "quic"));
      conn ⇐ map_err SNet <$> QuicEndpoint.dial (sc_server self) config;
      map_err SNet <$> QuicConn.open_stream conn
  | _ => Never
  end.

Lemma try_await_assoc {E A B C} (c : timed (result E A)) (f : A → timed (result E B))
    (g : B → timed (result E C)) :
  try_await (try_await c f) g = try_await c (λ a, try_await (f a) g).
Proof.
  unfold try_await, mbind, timed_bind, mret, timed_ret.
  destruct c as [|t [a|e]]; [done| |f_equal; lia].
  destruct (f a) as [|t' [b|e]]; [done| |f_equal; lia].
  destruct (g b) as [|t'' r]; [done|]. f_equal. lia.
Qed.

Lemma try_await_ext {E A B} (c : timed (result E A)) (f g : A → timed (result E B)) :
  (∀ a, f a = g a) → try_await c f = try_await c g.
Proof. intros Hfg. destruct c as [|t [a|e]]; [done| |done]. unfold try_await. simpl. by rewrite Hfg. Qed.

Lemma discover_streams self t stream :
  dial_stream self = At t (Ok stream) →
  discover env self = with_timeout (try_await (dial_stream self) (query env)).
Proof.
  unfold dial_stream, discover, discover_tcp, discover_tls, discover_quic.
  destruct (sc_server self); intros Hd; try done; f_equal;
    repeat (rewrite try_await_assoc; apply try_await_ext; intros); done.
Qed.

(** C37: a STUN query over a stream tells a host its public address.  Over TCP,
    TLS and QUIC alike, when the client's request goes out in whatever pieces, the
    server reads it in others and its reply comes back the same way, the query
    gives exactly the address the server sees the client at, provided that it all
    happens before the timeouts; the server has sent that reply and nothing
    else. *)
Theorem stun_stream_end_to_end self t stream peer local source software x chunks evs chunks' evs' :
  dial_stream self = At t (Ok stream) → txn_wf (qv_rnd env) → sa_wf source →
  (∀ s, software = Some s → valid_utf8 s = true ∧ len s ≤ 60000) →
  ByteStream.peer_endpoint peer = Some local → try_socket_addr local = Ok source →
  let request := StunMessage.binding_request (qv_rnd env) in
  let c := qv_stream env stream in
  takes (length (msg_bytes request)) c →
  takes (length (msg_bytes (handle_binding request source software))) x →
  ex_reads x = map RData chunks ++ evs → Forall (λ bs, bs ≠ []) chunks →
  concat chunks = (query_stream stream (qv_rnd env) c).2 →
  ex_reads c = map RData chunks' ++ evs' → Forall (λ bs, bs ≠ []) chunks' →
  concat chunks' = (StunServer.stream_conn_loop peer software [x]).2 →
  ex_read_time x < STREAM_IDLE_TIMEOUT →
  t + (ex_write_time c + ex_read_time c) < STREAM_TIMEOUT →
  concat chunks' = msg_bytes (handle_binding request source software) ∧
  discover env self = At (t + (ex_write_time c + ex_read_time c)) (Ok source).
Proof.
  intros Hd Ht Hs Hsw Hpeer Haddr request c Hc Hx Hreads Hne Hcat Hreads' Hne' Hcat' Hidle Htime.
  assert (msg_wf request) as Hreq by (by split_and!).
  pose proof (handle_binding_wf request source software Ht Hs Hsw) as Hresp.
  rewrite query_stream_out in Hcat by done.
  assert (concat chunks' = msg_bytes (handle_binding request source software)) as Hreply.
  { rewrite Hcat'. unfold StunServer.stream_conn_loop. rewrite Hpeer, Haddr.
    by rewrite (serve_stream_replies _ _ _ _ _ request chunks evs). }
  split; [done|]. rewrite (discover_streams _ _ _ Hd), Hd.
  assert (query env stream = At (ex_write_time c + ex_read_time c) (Ok source)) as Hq.
  { unfold query. fold c. rewrite (query_stream_reads _ _ _ _ chunks' evs' Ht Hc Hresp) by done.
    by rewrite validate_binding. }
  unfold try_await. simpl. rewrite Hq. unfold with_timeout, timeout_try.
  by rewrite timeout_within.
Qed.

(** A window ends by its deadline. *)
Lemma await_udp_bound server request window : ∀ left,
  0 ≤ left → Forall (λ x, 0 ≤ x.1) window →
  (await_udp_timed server request left window).1 ≤ left.
Proof.
  induction window as [|[gap ev] window IH]; intros left Hl Hw; simpl; [done|].
  apply Forall_cons in Hw as [Hgap Hw]. simpl in Hgap. unfold timeout, select, sleep.
  destruct (Z.leb_spec left gap); simpl; [done|].
  specialize (IH (left - gap) ltac:(lia) Hw).
  destruct ev as [bs from|e]; simpl; [|lia].
  destruct (await_udp_timed server request (left - gap) window) as [t r]. simpl in IH.
  repeat case_match; simpl; lia.
Qed.

(** The datagrams of a window in [StunService] are those that arrive in time. *)
Fixpoint in_time (left : Z) (window : list (Z * udp_ev)) : list udp_ev :=
  match window with
  | [] => []
  | (gap, ev) :: window => if left <=? gap then [] else ev :: in_time (left - gap) window
  end.

Lemma await_udp_in_time server request window : ∀ left,
  (await_udp_timed server request left window).2 =
  await_udp_response server request (in_time left window).
Proof.
  induction window as [|[gap ev] window IH]; intros left; simpl; [done|].
  unfold timeout, select, sleep. destruct (Z.leb_spec left gap); simpl; [done|].
  specialize (IH (left - gap)). destruct ev as [bs from|e]; simpl; [|done].
  destruct (await_udp_timed server request (left - gap) window) as [t r]. simpl in IH.
  repeat case_match; by simplify_eq/=.
Qed.

Definition attempt_ok (d : Z) (a : timed (result net_error ()) * list (Z * udp_ev)) : Prop :=
  (∃ t r, a.1 = At t r ∧ t ≤ d) ∧ Forall (λ x, 0 ≤ x.1) a.2.

Lemma udp_attempts_bound server request d delays : ∀ attempts,
  0 ≤ d → Forall (λ ms, 0 ≤ ms) delays → Forall (attempt_ok d) attempts →
  (length delays ≤ length attempts)%nat →
  ∃ t r, udp_attempts_timed server request delays attempts = At t r ∧
    t ≤ foldr Z.add (Z.of_nat (length delays) * d) delays.
Proof.
  induction delays as [|ms delays IH]; intros attempts Hd Hms Hall Hlen; [by eexists _, _|].
  destruct attempts as [|[sent window] attempts]; [simpl in *; lia|].
  apply Forall_cons in Hms as [Hm Hms].
  apply Forall_cons in Hall as [[(ts & rs & Hsent & Hts) Hw] Hall]. simpl in Hsent, Hw. subst sent.
  destruct (IH attempts) as (t & r & Heq & Ht); [done|done|done|simpl in *; lia|].
  assert (∀ n, foldr Z.add (n + d) delays = foldr Z.add n delays + d) as Hfold.
  { intros n. clear. induction delays as [|x l IHl]; simpl; [lia|]. rewrite IHl. lia. }
  assert (Z.of_nat (length delays) * d ≤ foldr Z.add (Z.of_nat (length delays) * d) delays) as Hpos.
  { generalize (Z.of_nat (length delays) * d). clear -Hms. induction Hms; intros z; simpl; [lia|].
    specialize (IHHms z). lia. }
  pose proof (await_udp_bound server request window ms Hm Hw) as Hb.
  cbn [udp_attempts_timed length foldr]. rewrite Nat2Z.inj_succ, Z.mul_succ_l, Hfold.
  assert (0 ≤ Z.of_nat (length delays) * d) by (apply Z.mul_nonneg_nonneg; lia).
  destruct rs as [[]|e]; unfold try_await; simpl; [|by (eexists _, _; split; [done|lia])].
  destruct (await_udp_timed server request ms window) as [tw [res|]]; simpl in *.
  - eexists _, _. split; [done|lia].
  - rewrite Heq. simpl. eexists _, _. split; [done|lia].
Qed.

Lemma udp_listen_bound d e :
  0 ≤ d → (∀ a, ∃ t r, udp_bind a = At t r ∧ t ≤ d) →
  ∃ t r, Udp.listen e = At t r ∧ t ≤ d.
Proof.
  intros Hd Hbind. unfold Udp.listen.
  destruct (try_socket_addr e) as [addr|err]; unfold try_await, now; simpl;
    [|by (eexists _, _; split; [done|lia])].
  destruct (Hbind addr) as (t & [sock|err] & -> & Ht); simpl; eexists _, _; (split; [done|lia]).
Qed.

(** C38: a STUN query comes to an end.  Over TCP, TLS and QUIC it completes within
    five seconds, the connection and the handshake included, whatever the network
    and the server do.  Over UDP it completes within three and a half seconds
    more than its socket calls take.  Any other endpoint fails at once, as does a
    query without the configuration its transport needs. *)
Theorem stun_query_completes self d :
  match sc_server self with
  | Tcp _ _ | Tls _ _ | Quic _ _ => ∃ t r, discover env self = At t r ∧ t ≤ STREAM_TIMEOUT
  | Udp _ _ =>
      0 ≤ d → (∀ a, ∃ t r, udp_bind a = At t r ∧ t ≤ d) → Forall (attempt_ok d) (qv_udp env) →
      (3 ≤ length (qv_udp env))%nat →
      ∃ t r, discover env self = At t r ∧ t ≤ 4 * d + 3500
  | ep => discover env self = At 0 (Err (SUnsupportedEndpoint (EndpointText.to_string ep)))
  end ∧
  (∀ a p, sc_server self = Tls a p → sc_tls self = None →
    discover env self = At 0 (Err (SMissingConfig "tls"))) ∧
  (∀ a p, sc_server self = Quic a p → sc_quic self = None →
    discover env self = At 0 (Err (SMissingConfig "quic"))).
Proof.
  split_and!.
  - unfold discover. destruct (sc_server self) as [a p|a p|a p|a p|u|u|u|u|p] eqn:Hserver; try done;
      try apply timeout_try_bound.
    intros Hd Hbind Hatt Hlen. unfold discover_udp.
    destruct (try_socket_addr (sc_server self)) as [server|e];
      [|by (unfold try_await; simpl; eexists _, _; split; [done|lia])].
    set (request := StunMessage.binding_request _).
    destruct (udp_attempts_bound server request d UDP_RETRIES_MS (qv_udp env))
      as (t & r & Hatts & Ht); [done|by repeat constructor|done|done|].
    unfold try_await, now. cbn -[StunMessage.encode udp_attempts_timed Udp.listen].
    edestruct udp_listen_bound as (tb & [sock|e] & -> & Htb); [exact Hd|exact Hbind| |];
      cbn -[StunMessage.encode udp_attempts_timed]; [|by (eexists _, _; split; [done|lia])].
    destruct (StunMessage.encode request) as [bs|e]; cbn -[udp_attempts_timed];
      [|by (eexists _, _; split; [done|lia])].
    rewrite Hatts. simpl in Ht. eexists _, _. split; [done|lia].
  - intros a p Hs Ht. unfold discover, discover_tls. by rewrite Hs, Ht.
  - intros a p Hs Ht. unfold discover, discover_quic. by rewrite Hs, Ht.
Qed.

End queries.

(** ** Witnesses *)

#[local] Existing Instances unit_os unit_rustls unit_quinn.

Section witnesses.
Import StunServer.

Definition test_here : SocketAddr := mkSocketAddr (V4 [127; 0; 0; 1]) 3478.
Definition test_config : StunConfig :=
  mkStunConfig None (Some (Endpoint.new_tcp_addr test_here)) None None 1 None.
Definition test_socket : TcpSocket := mkTcpSocket (Ok test_source) (Ok test_here) (λ _, Ok ()).
Definition test_stream : ByteStream :=
  TcpByteStream test_socket (Endpoint.new_tcp_addr test_source) (Endpoint.new_tcp_addr test_here).
Definition test_loop : listener_loop := TcpLoop (mkTcpListener (Ok test_here) TcpConfig_default).
Definition test_full : StunServer :=
  mkStunServer test_config [LoopTask test_loop true; StreamTask test_stream true] 2.

(** A server for one connection that is refusing a second. *)
Lemma stun_server_limit_witness :
  ss_conns test_full = 2 ∧
  Z.of_nat (countb served (ss_tasks test_full)) ≤ 1 ∧
  ∃ st, rtc shutdown_step (drain [] test_full) st ∧ ss_tasks (st_server st) = [] ∧ ss_conns (st_server st) = 0.
Proof.
  assert (reachable test_config [] test_full) as Hr.
  { pose (s0 := mkStunServer test_config [LoopTask test_loop false] 0).
    pose (s1 := mkStunServer test_config [LoopTask test_loop false; StreamTask test_stream true] 1).
    apply (reach_turn test_config [] s1 test_full 0 (EAccept (AStream (Ok test_stream))));
      [|vm_compute; reflexivity].
    apply (reach_turn test_config [] s0 s1 0 (EAccept (AStream (Ok test_stream))));
      [|vm_compute; reflexivity].
    apply (reach_listen test_config test_loop [] (new test_config)).
    assert ((listeners test_config).2 = [test_loop]) as <- by (vm_compute; reflexivity).
    apply reach_new. }
  destruct (stun_server_limit test_config ltac:(vm_compute; congruence) ltac:(vm_compute; reflexivity)
    [] test_full Hr) as (Hc & Hs & _ & _ & (st & Hrun & _ & Ht & Hz) & _).
  split_and!; [exact Hc|exact Hs|]. exists st. split; [exact Hrun|]. split; [exact Ht|exact Hz].
Defined.

(** A stream that takes a byte at a time, and one that takes everything. *)
Definition test_request : list Z := msg_bytes (StunMessage.binding_request test_txn).
Definition test_client_io : exchange :=
  mkExchange [RData (take 5 test_reply); RData (drop 5 test_reply)] 40 (repeat (WRoom 1) 20) (Ok ()) 30.
Definition test_server_io : exchange :=
  mkExchange [RData (take 1 test_request); RData (drop 1 test_request)] 35
    (repeat (WRoom 64) 40) (Ok ()) 1.
Definition test_env : query_env := mkQueryEnv test_txn (λ _, test_client_io) [].

Lemma stun_stream_end_to_end_witness :
  StunClient.discover test_env (StunClient.new (Endpoint.new_tcp_addr test_here)) = At 70 (Ok test_source).
Proof.
  refine (proj2 (stun_stream_end_to_end test_env (StunClient.new (Endpoint.new_tcp_addr test_here)) 0
    (TcpByteStream (mkTcpSocket (Ok test_here) (Ok test_here) (λ _, Ok ()))
      (Endpoint.new_tcp_addr test_here) (Endpoint.new_tcp_addr test_here))
    test_stream (Endpoint.new_tcp_addr test_source) test_source None test_server_io
    [take 1 test_request; drop 1 test_request] [] [take 5 test_reply; drop 5 test_reply] []
    _ _ _ _ _ _ _ _ _ _ _ _ _ _ _ _));
    try (vm_compute; reflexivity).
  - vm_compute. repeat constructor; done.
  - done.
  - split_and!; [|vm_compute; lia|reflexivity]. vm_compute. repeat (constructor; [by eexists|]). constructor.
  - split_and!; [|vm_compute; lia|reflexivity]. vm_compute. repeat (constructor; [by eexists|]). constructor.
  - vm_compute. repeat constructor; done.
  - vm_compute. repeat constructor; done.
Defined.

(** A UDP query nobody answers. *)
Lemma stun_query_completes_witness :
  ∃ t r, StunClient.discover (mkQueryEnv test_txn (λ _, test_client_io)
      (repeat (At 2 (Ok ()), [(100, UData [1] test_source)]) 3))
    (StunClient.new (Endpoint.new_udp_addr test_here)) = At t r ∧ t ≤ 4 * 2 + 3500.
Proof.
  destruct (stun_query_completes (mkQueryEnv test_txn (λ _, test_client_io)
      (repeat (At 2 (Ok ()), [(100, UData [1] test_source)]) 3))
    (StunClient.new (Endpoint.new_udp_addr test_here)) 2) as [Hq _].
  apply Hq; [lia| | |simpl; lia].
  - intros a. eexists 0, _. split; [reflexivity|lia].
  - simpl. repeat constructor; simpl; try lia; eexists 2, _; split; [reflexivity|lia|reflexivity|lia|reflexivity|lia].
Defined.

End witnesses.
