(* ===== verification/Json.v ===== *)
(** * JSON values and JSON-RPC messages

    Models [jsonrpc/src/message.rs], [jsonrpc/src/error.rs] and the codec of
    [jsonrpc/src/codec.rs].  [Value] is the data model of serde_json; the
    [Serialize] and [Deserialize] implementations the source derives are
    written out with the attributes of each struct.  The JSON text syntax is
    serde_json's: printing a value and reading the first value of a byte
    string are parameters ([JsonText]) with their documented laws.

    The lemmas say which messages survive the wire; the one that does not is a
    [null] result, which the optional field of a response cannot tell from a
    missing one. *)

From Stdlib Require Import SpecFloat.
From S2P Require Import Prelude Codec.

Local Open Scope Z_scope.

(** ** Values *)

(** [NegInt p] is the number [- p]. *)
Inductive Number :=
| PosInt (u : Z)
| NegInt (p : positive)
| Float (f : spec_float).

Inductive Value :=
| VNull
| VBool (b : bool)
| VNumber (n : Number)
| VString (s : string)
| VArray (vs : list Value)
| VObject (m : gmap string Value).

#[local] Instance spec_float_eq_dec : EqDecision spec_float.
Proof. solve_decision. Defined.

#[export] Instance Number_eq_dec : EqDecision Number.
Proof. solve_decision. Defined.

#[export] Instance Value_eq_dec : EqDecision Value.
Proof.
  refine (fix go v v' :=
    let _ : EqDecision Value := @go in
    match v, v' with
    | VNull, VNull => left eq_refl
    | VBool b, VBool b' => cast_if (decide (b = b'))
    | VNumber n, VNumber n' => cast_if (decide (n = n'))
    | VString s, VString s' => cast_if (decide (s = s'))
    | VArray vs, VArray vs' => cast_if (decide (vs = vs'))
    | VObject m, VObject m' => cast_if (decide (m = m'))
    | _, _ => right _
    end); congruence.
Defined.

Class Serialize (T : Type) := to_value : T → Value.
Class Deserialize (T : Type) := from_value : Value → option T.

#[export] Instance Value_ser : Serialize Value := id.
#[export] Instance Value_de : Deserialize Value := Some.

#[export] Instance string_ser : Serialize string := VString.
#[export] Instance string_de : Deserialize string := λ v,
  match v with VString s => Some s | _ => None end.

(** Integers of a range [lo, hi), such as [u32] and [i32]. *)
Definition int_ser (z : Z) : Value :=
  VNumber (match z with Z.neg p => NegInt p | _ => PosInt z end).
Definition int_de (lo hi : Z) (v : Value) : option Z :=
  let in_range z := if (lo <=? z) && (z <? hi) then Some z else None in
  match v with
  | VNumber (PosInt z) => in_range z
  | VNumber (NegInt p) => in_range (Z.neg p)
  | _ => None
  end.

(** [Value == u32]. *)
Definition eq_u32 (v : Value) (id : Z) : bool :=
  match v with VNumber (PosInt z) => z =? id | _ => false end.

Definition u32_de : Value → option Z := int_de 0 (2 ^ 32).
Definition i32_de : Value → option Z := int_de (- 2 ^ 31) (2 ^ 31).

(** The fields of a struct: an object by name, or an array with one element per
    field, in order; [strict] is [deny_unknown_fields]. *)
Definition struct_fields (strict : bool) (names : list string) (v : Value) :
    option (gmap string Value) :=
  match v with
  | VObject m =>
      if strict && negb (bool_decide (dom m ⊆ list_to_set (C := gset string) names))
      then None else Some m
  | VArray vs =>
      if bool_decide (length vs = length names) then Some (list_to_map (zip names vs)) else None
  | _ => None
  end.

(** A field that must be there, and one of an [Option] type, which is [None]
    when missing and when [null]. *)
Definition field {T} (de : Value → option T) (m : gmap string Value) (k : string) : option T :=
  m !! k ≫= de.
Definition opt_field {T} (de : Value → option T) (m : gmap string Value) (k : string) :
    option (option T) :=
  match m !! k with
  | None | Some VNull => Some None
  | Some v => Some <$> de v
  end.

(** A field that [skip_serializing_if] leaves out when it is [None]. *)
Definition skip_none {T} (ser : T → Value) (k : string) (o : option T) (m : gmap string Value) :
    gmap string Value :=
  match o with Some x => <[k := ser x]> m | None => m end.

(** ** Messages *)

Definition JSONRPC_VERSION : string := "2.0".
Definition PARSE_ERROR_CODE : Z := -32700.
Definition INVALID_REQUEST_ERROR_CODE : Z := -32600.
Definition METHOD_NOT_FOUND_ERROR_CODE : Z := -32601.
Definition INVALID_PARAMS_ERROR_CODE : Z := -32602.
Definition INTERNAL_ERROR_CODE : Z := -32603.
Definition INTERNAL_ERROR_MSG : string := "Internal error".

Record Request := mkRequest {
  rq_jsonrpc : string;
  rq_id : Value;
  rq_method : string;
  rq_params : option Value;
}.

Record ErrorObj := mkErrorObj {
  code : Z;
  message : string;
  data : option Value;
}.

Record Response := mkResponse {
  rs_jsonrpc : string;
  rs_id : option Value;
  rs_result : option Value;
  rs_error : option ErrorObj;
}.

Record Notification := mkNotification {
  nt_jsonrpc : string;
  nt_method : string;
  nt_params : option Value;
}.

Record NotificationResult := mkNotificationResult {
  nr_result : option Value;
  subscription : Z;
}.

#[export] Instance Request_ser : Serialize Request := λ r,
  VObject (skip_none to_value "params" (rq_params r)
    (<["jsonrpc" := to_value (rq_jsonrpc r)]> (<["id" := rq_id r]>
      {["method" := to_value (rq_method r)]}))).
#[export] Instance Request_de : Deserialize Request := λ v,
  m ← struct_fields false ["jsonrpc"; "id"; "method"; "params"] v;
  jsonrpc ← field from_value m "jsonrpc"; id ← field from_value m "id";
  method ← field from_value m "method"; params ← opt_field from_value m "params";
  Some (mkRequest jsonrpc id method params).

#[export] Instance ErrorObj_ser : Serialize ErrorObj := λ e,
  VObject (skip_none to_value "data" (data e)
    (<["code" := int_ser (code e)]> {["message" := to_value (message e)]})).
#[export] Instance ErrorObj_de : Deserialize ErrorObj := λ v,
  m ← struct_fields false ["code"; "message"; "data"] v;
  code ← field i32_de m "code"; message ← field from_value m "message";
  data ← opt_field from_value m "data";
  Some (mkErrorObj code message data).

#[export] Instance Response_ser : Serialize Response := λ r,
  VObject (skip_none to_value "id" (rs_id r) (skip_none to_value "result" (rs_result r)
    (skip_none to_value "error" (rs_error r) {["jsonrpc" := to_value (rs_jsonrpc r)]}))).
#[export] Instance Response_de : Deserialize Response := λ v,
  m ← struct_fields true ["jsonrpc"; "id"; "result"; "error"] v;
  jsonrpc ← field from_value m "jsonrpc"; id ← opt_field from_value m "id";
  result ← opt_field from_value m "result"; error ← opt_field from_value m "error";
  Some (mkResponse jsonrpc id result error).

#[export] Instance Notification_ser : Serialize Notification := λ n,
  VObject (skip_none to_value "params" (nt_params n)
    (<["jsonrpc" := to_value (nt_jsonrpc n)]> {["method" := to_value (nt_method n)]})).
#[export] Instance Notification_de : Deserialize Notification := λ v,
  m ← struct_fields false ["jsonrpc"; "method"; "params"] v;
  jsonrpc ← field from_value m "jsonrpc"; method ← field from_value m "method";
  params ← opt_field from_value m "params";
  Some (mkNotification jsonrpc method params).

#[export] Instance NotificationResult_ser : Serialize NotificationResult := λ n,
  VObject (<["result" := from_option id VNull (nr_result n)]>
    {["subscription" := int_ser (subscription n)]}).
#[export] Instance NotificationResult_de : Deserialize NotificationResult := λ v,
  m ← struct_fields false ["result"; "subscription"] v;
  result ← opt_field from_value m "result"; subscription ← field u32_de m "subscription";
  Some (mkNotificationResult result subscription).

(** [Response::default]. *)
Definition default_response : Response := mkResponse JSONRPC_VERSION None None None.

(** ** Errors *)

Inductive jsonrpc_error :=
| JIO (k : io_kind)
| CallError (code : Z) (msg : string)
| SubscribeError (code : Z) (msg : string)
| JEncode (s : string)
| JDecode (s : string)
| JInvalidMsg (s : string)
| InvalidState (s : string)
| JBufferFull (s : string)
| ParseJSON
| JUnsupportedProtocol (s : string)
| TLSConfigRequired
| QUICConfigRequired
| HttpError (s : string)
| CloseConnection (s : string)
| SubscriptionNotFound (s : string)
| SubscriptionBufferFull
| SubscriptionClosed
| SubscriptionDuplicated (s : string)
| ClientDisconnected
| ChannelRecv
| ChannelSend
| WebSocket
| General (s : string)
| JKaryonCore (e : core_error)
| JKaryonNet (e : net_error).

Inductive RPCError :=
| CustomError (code : Z) (msg : string)
| InvalidParams (msg : string)
| InvalidRequest (msg : string)
| RParseError (msg : string)
| InternalError.

Definition to_response (e : RPCError) (id data : option Value) : Response :=
  let err :=
    match e with
    | RParseError msg => mkErrorObj PARSE_ERROR_CODE msg data
    | InvalidParams msg => mkErrorObj INVALID_PARAMS_ERROR_CODE msg data
    | InvalidRequest msg => mkErrorObj INVALID_REQUEST_ERROR_CODE msg data
    | CustomError code msg => mkErrorObj code msg data
    | InternalError => mkErrorObj INTERNAL_ERROR_CODE INTERNAL_ERROR_MSG data
    end in
  mkResponse JSONRPC_VERSION id None (Some err).

(** ** The codec *)

(** What a stream deserializer finds at the start of a byte string: a value
    and the offset after it, a value cut off by the end, malformed text, or
    nothing but white space. *)
Inductive json_item :=
| Item (v : Value) (offset : Z)
| CutOff
| Malformed
| NoItem.

Class JsonText := {
  to_json : Value → option (list Z);
  next_item : list Z → json_item;
}.

(** A value that marks its own end. *)
Definition delimited (v : Value) : Prop :=
  match v with VArray _ | VObject _ | VString _ => True | _ => False end.

Class JsonTextLaws `{JsonText} : Prop := {
  next_item_json v bs rest : delimited v → to_json v = Some bs →
    next_item (bs ++ rest) = Item v (len bs);
  next_item_cut v bs p q : delimited v → to_json v = Some bs → bs = p ++ q → q ≠ [] →
    next_item p = CutOff ∨ next_item p = NoItem;
}.

Module JsonCodec.
Section defs.
Context `{JsonText}.

Record t := new { max_size : Z }.

Definition encode (c : t) (src : Value) (dst : Buffer) : result net_error Z * Buffer :=
  match to_json src with
  | None => (Err (IO OtherIo), dst)
  | Some buf =>
      if len buf >? max_size c then (Err (BufferFull "Buffer size {} exceeds maximum {}"), dst)
      else (Ok (len buf), Buffer.extend_from_slice dst buf)
  end.

Definition decode (c : t) (src : Buffer) : result net_error (option (Z * Value)) :=
  if Buffer.len src >? max_size c then Err (BufferFull "Buffer size {} exceeds maximum {}")
  else
    match next_item (inner src) with
    | Item item offset => Ok (Some (offset, item))
    | CutOff => Ok None
    | Malformed => Err (IO OtherIo)
    | NoItem => Ok None
    end.

#[global] Instance codec : Codec t Value net_error :=
  {| Codec.encode := encode; Codec.decode := decode |}.

End defs.
End JsonCodec.

(** ** Round trips *)

(** What the wire makes of an optional value: [null] is no value. *)
Definition wire_opt (o : option Value) : option Value :=
  match o with Some VNull => None | _ => o end.

Definition wire_request (r : Request) : Request :=
  mkRequest (rq_jsonrpc r) (rq_id r) (rq_method r) (wire_opt (rq_params r)).
Definition wire_error (e : ErrorObj) : ErrorObj :=
  mkErrorObj (code e) (message e) (wire_opt (data e)).
Definition wire_response (r : Response) : Response :=
  mkResponse (rs_jsonrpc r) (wire_opt (rs_id r)) (wire_opt (rs_result r))
    (wire_error <$> rs_error r).
Definition wire_notification (n : Notification) : Notification :=
  mkNotification (nt_jsonrpc n) (nt_method n) (wire_opt (nt_params n)).
Definition wire_notification_result (n : NotificationResult) : NotificationResult :=
  mkNotificationResult (wire_opt (nr_result n)) (subscription n).

(** Error codes are [i32]. *)
Definition is_i32 (z : Z) : Prop := - 2 ^ 31 ≤ z < 2 ^ 31.

Definition Response_wf (r : Response) : Prop :=
  from_option (λ e, is_i32 (code e)) True (rs_error r).

Lemma int_roundtrip lo hi z : lo ≤ z < hi → int_de lo hi (int_ser z) = Some z.
Proof.
  intros Hz. assert ((lo <=? z) && (z <? hi) = true) as Hin by lia.
  unfold int_ser, int_de. destruct z; by rewrite Hin.
Qed.

#[local] Arguments int_de : simpl never.
#[local] Arguments int_ser : simpl never.

Lemma field_roundtrip {T} (de : Value → option T) (m : gmap string Value) k v x :
  m !! k = Some v → de v = Some x → field de m k = Some x.
Proof. unfold field. by intros ->. Qed.

Lemma opt_field_value (m : gmap string Value) k o :
  m !! k = o → opt_field from_value m k = Some (wire_opt o).
Proof. unfold opt_field. intros ->. by destruct o as [[]|]. Qed.

Lemma ErrorObj_roundtrip e : is_i32 (code e) → from_value (to_value e) = Some (wire_error e).
Proof.
  destruct e as [c msg d]. intros Hc. simpl in *.
  unfold from_value, to_value, ErrorObj_de, ErrorObj_ser. simpl.
  rewrite (opt_field_value _ "data" d) by (by destruct d).
  rewrite (field_roundtrip i32_de _ "code" (int_ser c) c); [by destruct d|by destruct d|].
  by apply int_roundtrip.
Qed.

Lemma Request_roundtrip r : from_value (to_value r) = Some (wire_request r).
Proof.
  destruct r as [j i m p]. unfold from_value, to_value, Request_de, Request_ser. simpl.
  rewrite (opt_field_value _ "params" p); by destruct p.
Qed.

Lemma Notification_roundtrip n : from_value (to_value n) = Some (wire_notification n).
Proof.
  destruct n as [j m p]. unfold from_value, to_value, Notification_de, Notification_ser. simpl.
  rewrite (opt_field_value _ "params" p); by destruct p.
Qed.

Lemma NotificationResult_roundtrip n :
  is_u32 (subscription n) → from_value (to_value n) = Some (wire_notification_result n).
Proof.
  destruct n as [r s]. simpl. intros Hs.
  unfold from_value, to_value, NotificationResult_de, NotificationResult_ser. simpl.
  rewrite (field_roundtrip u32_de _ "subscription" (int_ser s) s); [|done|by apply int_roundtrip].
  by destruct r as [[]|].
Qed.

Lemma Response_roundtrip r : Response_wf r → from_value (to_value r) = Some (wire_response r).
Proof.
  destruct r as [j i re e]. unfold Response_wf. simpl. intros He.
  unfold from_value, to_value, Response_de, Response_ser.
  cbn [rs_id rs_result rs_error rs_jsonrpc].
  set (m := skip_none to_value "id" i _). assert (struct_fields true
    ["jsonrpc"; "id"; "result"; "error"] (VObject m) = Some m) as -> by (by destruct i, re, e).
  unfold m. cbn [mbind option_bind].
  rewrite (opt_field_value _ "id" i), (opt_field_value _ "result" re) by (by destruct i, re, e).
  assert (∀ m : gmap string Value, m !! "error" = to_value <$> e →
    opt_field (from_value (T := ErrorObj)) m "error" = Some (wire_error <$> e)) as Herr.
  { intros m' Hm. unfold opt_field. rewrite Hm. destruct e as [e|]; [|done]. simpl.
    unfold to_value at 1, ErrorObj_ser at 1. change (VObject _) with (to_value e).
    by rewrite ErrorObj_roundtrip. }
  rewrite Herr by (by destruct i, re, e). by destruct i, re, e.
Qed.

Lemma wire_opt_Some v : v ≠ VNull → wire_opt (Some v) = Some v.
Proof. by destruct v. Qed.
