(* ===== verification/Ws.v ===== *)
(** * WebSocket connections

    Models [net/src/layers/ws.rs], message connections over the tungstenite
    library, and the WebSocket side of the JSON codec
    ([jsonrpc/src/codec.rs]).

    The library is a parameter: its handshakes are futures ([Tungstenite]), its
    streams give a script of events and take messages.  [WsFraming] is what a codec promises
    to a WebSocket connection; the JSON codec keeps it, and over such a codec a
    connection is a reliable ordered channel, whatever control messages come in
    between. *)

From S2P Require Import Prelude Codec Endpoint Framed Utf8 Timed Transports Json.

Local Open Scope Z_scope.
Local Open Scope timed_scope.

(** ** Messages *)

Inductive Message :=
| Text (s : list Z)
| Binary (b : list Z)
| Ping (b : list Z)
| Pong (b : list Z)
| Close.

(** The message type of the library; the content of a close frame and of a raw
    frame is not used. *)
Inductive TungMessage :=
| TText (t : list Z)
| TBinary (b : list Z)
| TPing (b : list Z)
| TPong (b : list Z)
| TClose
| TFrame.

Definition into_bytes (m : Message) : list Z :=
  match m with
  | Text s => s
  | Binary b => b
  | Ping b => b
  | Pong b => b
  | Close => []
  end.

Definition is_text (m : Message) : bool := match m with Text _ => true | _ => false end.
Definition is_binary (m : Message) : bool := match m with Binary _ => true | _ => false end.
Definition is_close (m : Message) : bool := match m with Close => true | _ => false end.

(** A text that is not UTF-8 becomes the empty one. *)
Definition from_tung (m : TungMessage) : Message :=
  match m with
  | TText t => Text (if valid_utf8 t then t else [])
  | TBinary b => Binary b
  | TPing b => Ping b
  | TPong b => Pong b
  | TClose => Close
  | TFrame => Close
  end.

Definition into_tung (m : Message) : TungMessage :=
  match m with
  | Text s => TText s
  | Binary b => TBinary b
  | Ping b => TPing b
  | Pong b => TPong b
  | Close => TClose
  end.

(** ** The layer *)

Definition DEFAULT_MAX_MSG_SIZE : Z := 4 * 1024 * 1024.

Record WebSocketConfig := mkWebSocketConfig {
  max_message_size : option Z;
  max_frame_size : option Z;
}.

(** The codec trait for WebSocket messages. *)
Class WsCodec (C M : Type) := {
  ws_encode : C → M → Message → result net_error Z * Message;
  ws_decode : C → Message → result net_error (option (Z * M));
}.

Record WsLayer (C : Type) := mkWsLayer {
  url : option string;
  codec : C;
  max_msg_size : Z;
}.
Arguments mkWsLayer {C} _ _ _.
Arguments url {C} _.
Arguments codec {C} _.
Arguments max_msg_size {C} _.

(** The library's handshakes, which give the two halves of its stream. *)
Class Tungstenite := {
  TungReceiver : Type;
  TungSender : Type;
  client_async : string → ByteStream → WebSocketConfig →
    timed (result () (TungReceiver * TungSender));
  accept_async : ByteStream → WebSocketConfig → timed (result () (TungReceiver * TungSender));
}.

Record WsReader `{Tungstenite} (C : Type) := mkWsReader {
  receiver : TungReceiver;
  r_codec : C;
  r_peer : option Endpoint;
  r_local : option Endpoint;
}.
Arguments mkWsReader {_ C} _ _ _ _.
Arguments receiver {_ C} _.
Arguments r_codec {_ C} _.
Arguments r_peer {_ C} _.
Arguments r_local {_ C} _.

Record WsWriter `{Tungstenite} (C : Type) := mkWsWriter {
  sender : TungSender;
  w_codec : C;
  w_peer : option Endpoint;
  w_local : option Endpoint;
}.
Arguments mkWsWriter {_ C} _ _ _ _.
Arguments sender {_ C} _.
Arguments w_codec {_ C} _.
Arguments w_peer {_ C} _.
Arguments w_local {_ C} _.

Record WsConn `{Tungstenite} (C : Type) := mkWsConn {
  reader : WsReader C;
  writer : WsWriter C;
}.
Arguments mkWsConn {_ C} _ _.
Arguments reader {_ C} _.
Arguments writer {_ C} _.

Module WsConn.
Section conn.
Context `{Tungstenite} {C : Type}.

Definition new (ws : TungReceiver * TungSender) (codec : C) (peer local : option Endpoint) : WsConn C :=
  mkWsConn (mkWsReader ws.1 codec peer local) (mkWsWriter ws.2 codec peer local).

Definition peer_endpoint (c : WsConn C) : option Endpoint := r_peer (reader c).
Definition local_endpoint (c : WsConn C) : option Endpoint := r_local (reader c).
Definition split (c : WsConn C) : WsReader C * WsWriter C := (reader c, writer c).

End conn.
End WsConn.

Module WsLayer.
Section layer.
Context {C : Type}.

Definition client (url : string) (codec : C) : WsLayer C :=
  mkWsLayer (Some url) codec DEFAULT_MAX_MSG_SIZE.
Definition server (codec : C) : WsLayer C := mkWsLayer None codec DEFAULT_MAX_MSG_SIZE.
Definition with_max_msg_size (l : WsLayer C) (size : Z) : WsLayer C :=
  mkWsLayer (url l) (codec l) size.
Definition config (l : WsLayer C) : WebSocketConfig :=
  mkWebSocketConfig (Some (max_msg_size l)) (Some (max_msg_size l)).

Context `{Tungstenite}.

#[global] Instance client_layer : ClientLayer (WsLayer C) ByteStream (WsConn C) := λ self stream,
  url ⇐ now (ok_or (url self) (MissingConfig "WS client layer requires a URL"));
  ws ⇐ map_err (λ _, IO OtherIo) <$> client_async url stream (config self);
  now (Ok (WsConn.new ws (codec self) (ByteStream.peer_endpoint stream)
    (ByteStream.local_endpoint stream))).

#[global] Instance server_layer : ServerLayer (WsLayer C) ByteStream (WsConn C) := λ self stream,
  ws ⇐ map_err (λ _, IO OtherIo) <$> accept_async stream (config self);
  now (Ok (WsConn.new ws (codec self) (ByteStream.peer_endpoint stream)
    (ByteStream.local_endpoint stream))).

End layer.
End WsLayer.

(** ** Messages on a connection *)

(** What [next] of the library's receiver gives: a message, an error, or the end
    of the stream. *)
Inductive ws_event :=
| WsNext (m : TungMessage)
| WsError
| WsEnd.

Section conn.
Context {C M : Type} `{WsCodec C M} (c : C).

(** [WsReader::recv_msg], on the events to come. *)
Fixpoint recv_msg (evs : list ws_event) : poll (result net_error M) * list ws_event :=
  match evs with
  | [] => (Pending, [])
  | WsEnd :: evs => (Ready (Err ConnectionClosed), evs)
  | WsError :: evs => (Ready (Err (IO OtherIo)), evs)
  | WsNext raw :: evs =>
      match ws_decode c (from_tung raw) with
      | Err e => (Ready (Err e), evs)
      | Ok (Some (_, item)) => (Ready (Ok item), evs)
      | Ok None => recv_msg evs
      end
  end.

(** [WsWriter::send_msg]: the result, and the messages the library sent, where
    [sent] says whether it could. *)
Definition send_msg (msg : M) (sent : result () ()) : result net_error () * list TungMessage :=
  match ws_encode c msg (Binary []) with
  | (Err e, _) => (Err e, [])
  | (Ok _, ws_msg) =>
      match sent with
      | Ok _ => (Ok (), [into_tung ws_msg])
      | Err _ => (Err (IO OtherIo), [])
      end
  end.

(** Calls in sequence. *)
Fixpoint recv_all (n : nat) (evs : list ws_event) :
    list (poll (result net_error M)) * list ws_event :=
  match n with
  | O => ([], evs)
  | S n =>
      let '(r, evs) := recv_msg evs in
      let '(rs, evs) := recv_all n evs in (r :: rs, evs)
  end.

Fixpoint send_all (ms : list (M * result () ())) : list (result net_error ()) * list TungMessage :=
  match ms with
  | [] => ([], [])
  | (m, sent) :: ms =>
      let '(r, out) := send_msg m sent in
      let '(rs, outs) := send_all ms in (r :: rs, out ++ outs)
  end.

End conn.

(** ** The JSON codec *)

Definition is_space (b : Z) : bool := bool_decide (b ∈ [32; 10; 13; 9]).

(** [serde_json::from_str]: one value, and then nothing but white space. *)
Definition from_str `{JsonText} (text : list Z) : option Value :=
  match next_item text with
  | Item v offset => if forallb is_space (drop (Z.to_nat offset) text) then Some v else None
  | _ => None
  end.

Section json.
Context `{JsonText}.

Definition json_encode (c : JsonCodec.t) (src : Value) (dst : Message) :
    result net_error Z * Message :=
  match to_json src with
  | None => (Err (IO OtherIo), dst)
  | Some json => (Ok (len json), Text json)
  end.

Definition json_decode (c : JsonCodec.t) (src : Message) : result net_error (option (Z * Value)) :=
  match src with
  | Text text =>
      if len text >? JsonCodec.max_size c
      then Err (BufferFull "Buffer size {} exceeds maximum {}")
      else
        match from_str text with
        | Some val => Ok (Some (len text, val))
        | None => Err (IO OtherIo)
        end
  | _ => Ok None
  end.

#[global] Instance json_ws_codec : WsCodec JsonCodec.t Value :=
  {| ws_encode := json_encode; ws_decode := json_decode |}.

End json.

(** ** What a connection needs of its codec *)

Definition control (m : Message) : bool :=
  match m with Ping _ | Pong _ | Close => true | _ => false end.

Class WsFraming {C M} `{WsCodec C M} (c c' : C) (valid : M → Prop) : Prop := {
  ws_framing_encode m : valid m →
    ∃ n w, ws_encode c m (Binary []) = (Ok n, w) ∧
      ws_decode c' (from_tung (into_tung w)) = Ok (Some (n, m));
  ws_framing_control w : control w = true → ws_decode c' w = Ok None;
}.

(** [String]s are UTF-8, those of [to_string] too. *)
Class JsonUtf8 `{JsonText} : Prop :=
  to_json_utf8 v bs : to_json v = Some bs → valid_utf8 bs = true.

(** The JSON codec of the receiver takes what fits it; the sender has no limit. *)
#[export] Instance json_ws_framing `{JsonTextLaws} `{!JsonUtf8} (c c' : JsonCodec.t) :
  WsFraming c c' (λ v, delimited v ∧ ∃ bs, to_json v = Some bs ∧ len bs ≤ JsonCodec.max_size c').
Proof.
  split.
  - intros v (Hd & bs & Hv & Hlen). exists (len bs), (Text bs). simpl. unfold json_encode. rewrite Hv.
    split; [done|]. rewrite (to_json_utf8 v bs Hv). unfold json_decode.
    replace (_ >? _) with false by lia.
    pose proof (next_item_json v bs [] Hd Hv) as Hn. rewrite app_nil_r in Hn.
    unfold from_str. rewrite Hn. unfold len. by rewrite Nat2Z.id, drop_all.
  - by intros [].
Qed.

(** ** A reliable ordered channel *)

(** Messages with others in between that carry no data. *)
Inductive interleaved : list TungMessage → list ws_event → Prop :=
| il_nil : interleaved [] []
| il_data m ms evs : interleaved ms evs → interleaved (m :: ms) (WsNext m :: evs)
| il_control m ms evs : control (from_tung m) = true → interleaved ms evs →
    interleaved ms (WsNext m :: evs).

Section channel.
Context {C M : Type} `{WsCodec C M} (c c' : C) (valid : M → Prop) `{!WsFraming c c' valid}.

Lemma send_all_valid ms :
  Forall valid ms →
  ∃ ws, send_all c ((λ m, (m, Ok ())) <$> ms) = ((λ _, Ok ()) <$> ms, ws) ∧
    Forall2 (λ w m, ∃ n, ws_decode c' (from_tung w) = Ok (Some (n, m))) ws ms.
Proof.
  induction 1 as [|m ms Hm _ (ws & Hws & IH)]; [by exists []; split; [|constructor]|].
  destruct (ws_framing_encode m Hm) as (n & w & Henc & Hdec).
  exists (into_tung w :: ws). rewrite !fmap_cons. cbn [send_all]. unfold send_msg. rewrite Henc, Hws.
  split; [done|]. constructor; [by exists n|done].
Qed.

Lemma recv_all_interleaved ws ms evs tail :
  Forall2 (λ w m, ∃ n, ws_decode c' (from_tung w) = Ok (Some (n, m))) ws ms →
  interleaved ws evs →
  ∃ ctl, recv_all c' (length ms) (evs ++ tail) = ((λ m, Ready (Ok m)) <$> ms, ctl ++ tail) ∧
    Forall (λ ev, ∃ m, ev = WsNext m ∧ control (from_tung m) = true) ctl.
Proof.
  intros Hws Hil. revert ms Hws. induction Hil as [|w ws evs Hil IH|w ws evs Hctl Hil IH]; intros ms Hws.
  - inversion Hws; subst. by exists [].
  - inversion Hws as [|? m ? ms' [n Hdec] Hrest]; subst.
    destruct (IH ms' Hrest) as (ctl & Hrec & Hctl). exists ctl. simpl. by rewrite Hdec, Hrec.
  - destruct (IH ms Hws) as (ctl & Hrec & Hall). destruct ms as [|m ms].
    + exists (WsNext w :: ctl). simpl in *. inversion Hrec as [Heq]. rewrite Heq.
      split; [done|]. constructor; [by eauto|done].
    + exists ctl. split; [|done]. simpl in *. by rewrite (ws_framing_control _ Hctl).
Qed.

Lemma recv_msg_end ctl tail :
  Forall (λ ev, ∃ m, ev = WsNext m ∧ control (from_tung m) = true) ctl →
  recv_msg c' (ctl ++ WsEnd :: tail) = (Ready (Err ConnectionClosed), tail).
Proof.
  induction 1 as [|ev ctl (m & -> & Hm) _ IH]; [done|]. simpl. by rewrite (ws_framing_control _ Hm).
Qed.

(** C30: A WebSocket connection is a reliable ordered channel.  Messages that the
    codec can carry are all sent; the receiver gets exactly them, in order,
    whatever pings, pongs and close messages come in between; and after the last
    one the end of the stream is [ConnectionClosed], not a message. *)
Theorem ws_channel ms ws evs tail :
  Forall valid ms →
  (send_all c ((λ m, (m, Ok ())) <$> ms)).2 = ws → interleaved ws evs →
  (send_all c ((λ m, (m, Ok ())) <$> ms)).1 = (λ _, Ok ()) <$> ms ∧
  ∃ rest, recv_all c' (length ms) (evs ++ WsEnd :: tail) = ((λ m, Ready (Ok m)) <$> ms, rest) ∧
    recv_msg c' rest = (Ready (Err ConnectionClosed), tail).
Proof.
  intros Hms Hsent Hil. destruct (send_all_valid ms Hms) as (ws' & Hws & Hdec).
  rewrite Hws in *. simpl in *. subst ws'. split; [done|].
  destruct (recv_all_interleaved ws ms evs (WsEnd :: tail) Hdec Hil) as (ctl & Hrec & Hctl).
  exists (ctl ++ WsEnd :: tail). split; [done|]. by apply recv_msg_end.
Qed.

End channel.

(** ** Messages that do not fit *)

(** The limit of the JSON codec is only on the receiving side of a WebSocket: a
    text above it is sent without an error, and [recv_msg] then fails. *)
Theorem ws_oversize `{JsonTextLaws} `{!JsonUtf8} (c c' : JsonCodec.t) v bs evs :
  to_json v = Some bs → JsonCodec.max_size c' < len bs →
  send_msg c v (Ok ()) = (Ok (), [TText bs]) ∧
  recv_msg c' (WsNext (TText bs) :: evs) =
    (Ready (Err (BufferFull "Buffer size {} exceeds maximum {}")), evs).
Proof.
  intros Hv Hlen. unfold send_msg. simpl. unfold json_encode. rewrite Hv. split; [done|].
  rewrite (to_json_utf8 v bs Hv). unfold json_decode. by replace (_ >? _) with true by lia.
Qed.

(** ** Witnesses *)

(** A syntax for the one value this needs, the empty array. *)
#[local] Instance brackets : JsonText := {|
  to_json v := if v is VArray [] then Some [91; 93] else None;
  next_item bs :=
    match bs with
    | [] => NoItem
    | [91] => CutOff
    | 91 :: 93 :: _ => Item (VArray []) 2
    | _ => Malformed
    end;
|}.

#[local] Instance brackets_laws : JsonTextLaws.
Proof.
  split.
  - intros v bs rest _. destruct v as [| | | |[]|]; simpl; try done. by intros [= <-].
  - intros v bs p q _. destruct v as [| | | |[]|]; simpl; try done. intros [= <-] Hpq Hq.
    destruct p as [|? [|? [|? ?]]]; simplify_eq/=; naive_solver.
Qed.

#[local] Instance brackets_utf8 : JsonUtf8.
Proof. intros v bs. destruct v as [| | | |[]|]; simpl; try done. by intros [= <-]. Qed.

Lemma ws_channel_witness :
  ∃ rest, recv_all (JsonCodec.new 8) 2
      [WsNext (TPing [1]); WsNext (TText [91; 93]); WsNext (TPong []); WsNext (TText [91; 93]);
       WsNext TClose; WsEnd] = ([Ready (Ok (VArray [])); Ready (Ok (VArray []))], rest) ∧
    recv_msg (JsonCodec.new 8) rest = (Ready (Err ConnectionClosed), []).
Proof.
  set (ev := [WsNext (TPing [1]); WsNext (TText [91; 93]); WsNext (TPong []); WsNext (TText [91; 93]);
    WsNext TClose]).
  refine (proj2 (ws_channel (JsonCodec.new 8) (JsonCodec.new 8) _ [VArray []; VArray []] _ ev [] _ eq_refl _)).
  - repeat constructor; exists [91; 93]; split; [reflexivity|vm_compute; discriminate|
      reflexivity|vm_compute; discriminate].
  - simpl. by repeat constructor.
Defined.
