(* ===== verification/JsonRpcServer.v ===== *)
(** * The JSON-RPC server

    Models [jsonrpc/src/server]: request checking and dispatch ([dispatch.rs]),
    subscription channels ([channel.rs]), the default notification encoder of
    [builder.rs], and the tasks that serve one message connection
    ([handle_message_conn] of [mod.rs]) as a step relation.

    Services are the user's code: a method is a function of its parameters (and,
    for subscriptions, of the connection's channel) that may never complete or
    may panic. *)

From S2P Require Import Prelude Codec Endpoint Framed Json.
From Stdlib Require Import Ascii.

Local Open Scope Z_scope.

Definition INVALID_REQUEST_ERROR_MSG : string := "Invalid request".
Definition FAILED_TO_PARSE_ERROR_MSG : string := "Failed to parse".
Definition METHOD_NOT_FOUND_ERROR_MSG : string := "Method not found".
Definition UNSUPPORTED_JSONRPC_VERSION : string := "Unsupported jsonrpc version".
Definition CHANNEL_SUBSCRIPTION_BUFFER_SIZE : nat := 100.
Definition MAX_CONCURRENT_REQUESTS : nat := 64.
Definition RESPONSE_QUEUE_SIZE : nat := 256.

(** ** Checking a request *)

Record NewRequest := mkNewRequest {
  srvc_name : string;
  method_name : string;
  req_msg : Request;
}.

Inductive SanityCheckResult :=
| NewReq (r : NewRequest)
| ErrRes (r : Response).

Definition err_response (id : option Value) (code : Z) (msg : string) : Response :=
  mkResponse JSONRPC_VERSION id None (Some (mkErrorObj code msg None)).

Definition err_res (id : option Value) (code : Z) (msg : string) : SanityCheckResult :=
  ErrRes (err_response id code msg).

Definition sanity_check (request : Value) : SanityCheckResult :=
  match from_value (T := Request) request with
  | None => err_res None PARSE_ERROR_CODE FAILED_TO_PARSE_ERROR_MSG
  | Some rpc_msg =>
      if negb (bool_decide (rq_jsonrpc rpc_msg = JSONRPC_VERSION))
      then err_res (Some (rq_id rpc_msg)) INVALID_REQUEST_ERROR_CODE UNSUPPORTED_JSONRPC_VERSION
      else
        match split_char "." (rq_method rpc_msg) with
        | srvc :: ((_ :: _) as rest) =>
            NewReq (mkNewRequest srvc (String.concat "." rest) rpc_msg)
        | _ => err_res (Some (rq_id rpc_msg)) INVALID_REQUEST_ERROR_CODE INVALID_REQUEST_ERROR_MSG
        end
  end.

Definition method_not_found (id : option Value) : Response :=
  err_response id METHOD_NOT_FOUND_ERROR_CODE METHOD_NOT_FOUND_ERROR_MSG.

(** ** Channels and subscriptions *)

Record NewNotification := mkNewNotification {
  nn_sub_id : Z;
  nn_result : Value;
  nn_method : string;
}.

(** The notification channel of the connection is part of its [Channel]: what
    it holds and whether it is open. *)
Record Channel := mkChannel {
  ch_buf : list NewNotification;
  ch_open : bool;
  ch_subs : gset Z;
  ch_peer : option Endpoint;
}.

(** A subscription refers to its channel, which it does not keep alive. *)
Record Subscription := mkSubscription {
  s_id : Z;
  s_method : string;
}.

Module Channel.

Definition new (peer : option Endpoint) : Channel := mkChannel [] true ∅ peer.

Definition set_subs (c : Channel) (subs : gset Z) : Channel :=
  mkChannel (ch_buf c) (ch_open c) subs (ch_peer c).

Definition new_subscription (c : Channel) (method : string) (sub_id : option Z) (random_32 : Z) :
    result jsonrpc_error Subscription * Channel :=
  let sub_id := from_option id random_32 sub_id in
  if bool_decide (sub_id ∈ ch_subs c) then (Err (SubscriptionDuplicated "{}"), c)
  else (Ok (mkSubscription sub_id method), set_subs c ({[sub_id]} ∪ ch_subs c)).

Definition remove_subscription (c : Channel) (id : Z) : result jsonrpc_error () * Channel :=
  if bool_decide (id ∈ ch_subs c) then (Ok (), set_subs c (ch_subs c ∖ {[id]}))
  else (Err (SubscriptionNotFound "{}"), c).

Definition close (c : Channel) : Channel :=
  mkChannel (ch_buf c) false (ch_subs c) (ch_peer c).

(** [async_channel::Sender::send], when it completes: [None] is a full channel. *)
Definition send (c : Channel) (nt : NewNotification) : option (result jsonrpc_error () * Channel) :=
  if negb (ch_open c) then Some (Err ChannelSend, c)
  else if (length (ch_buf c) <? CHANNEL_SUBSCRIPTION_BUFFER_SIZE)%nat
  then Some (Ok (), mkChannel (ch_buf c ++ [nt]) true (ch_subs c) (ch_peer c))
  else None.

(** [Receiver::recv], when it completes. *)
Definition recv (c : Channel) : option (result jsonrpc_error NewNotification * Channel) :=
  match ch_buf c with
  | nt :: rest => Some (Ok nt, mkChannel rest (ch_open c) (ch_subs c) (ch_peer c))
  | [] => if ch_open c then None else Some (Err ChannelRecv, c)
  end.

End Channel.

Definition still_subscribed (c : option Channel) (s : Subscription) : bool :=
  match c with
  | Some c => bool_decide (s_id s ∈ ch_subs c)
  | None => false
  end.

(** The notification [notify] sends, if the subscription is still there; sending
    it is a step of its own. *)
Definition notify_check (c : option Channel) (s : Subscription) (res : Value) :
    result jsonrpc_error NewNotification :=
  if still_subscribed c s then Ok (mkNewNotification (s_id s) res (s_method s))
  else Err (SubscriptionNotFound "{}").

Definition default_notification_encoder (nt : NewNotification) : Notification :=
  mkNotification JSONRPC_VERSION (nn_method nt)
    (Some (to_value (mkNotificationResult (Some (nn_result nt)) (nn_sub_id nt)))).

(** ** Dispatch *)

Definition RPCMethod : Type := Value → poll (result RPCError Value).
Definition PubSubRPCMethod : Type :=
  Channel → string → Value → poll (result RPCError Value) * Channel.

Definition RPCService : Type := string → option RPCMethod.
Definition PubSubRPCService : Type := string → option PubSubRPCMethod.

Inductive Handler :=
| HPubsub (m : PubSubRPCMethod)
| HRpc (m : RPCMethod)
| HNone.

Record ServerConfig := mkServerConfig {
  services : gmap string RPCService;
  pubsub_services : gmap string PubSubRPCService;
  notification_encoder : NewNotification → Notification;
}.

Definition resolve_handler (cfg : ServerConfig) (srvc_name method_name : string)
    (allow_pubsub : bool) : Handler :=
  match (if allow_pubsub
         then pubsub_services cfg !! srvc_name ≫= (λ s, s method_name) else None) with
  | Some method => HPubsub method
  | None =>
      match services cfg !! srvc_name ≫= (λ s, s method_name) with
      | Some method => HRpc method
      | None => HNone
      end
  end.

(** The response to the outcome of a method. *)
Definition outcome_response (id : option Value) (out : result RPCError Value) : Response :=
  match out with
  | Ok res => mkResponse JSONRPC_VERSION id (Some res) None
  | Err err => to_response err id None
  end.

Definition poll_map {A B} (f : A → B) (p : poll A) : poll B :=
  match p with
  | Pending => Pending
  | Ready a => Ready (f a)
  | Panicked => Panicked
  end.

Definition handle_request (cfg : ServerConfig) (channel : option Channel) (msg : Value) :
    poll Response * option Channel :=
  match sanity_check msg with
  | ErrRes res => (Ready res, channel)
  | NewReq req =>
      let id := Some (rq_id (req_msg req)) in
      let params := from_option (λ v, v) VNull (rq_params (req_msg req)) in
      match resolve_handler cfg (srvc_name req) (method_name req)
              (bool_decide (is_Some channel)) with
      | HPubsub method =>
          match channel with
          | None => (Panicked, None)
          | Some chan =>
              let '(out, chan) := method chan (rq_method (req_msg req)) params in
              (poll_map (outcome_response id) out, Some chan)
          end
      | HRpc method => (poll_map (outcome_response id) (method params), channel)
      | HNone => (Ready (method_not_found id), channel)
      end
  end.

(** ** A message connection *)

Inductive request_task :=
| Handling (msg : Value)
| Pushing (response : Response).

Inductive outgoing :=
| OutResponse (r : Response)
| OutNotification (n : Notification).

(** The reader and the writer task, the request tasks, the response queue, the
    channel with the [notify] calls that are past their check, and the history:
    the messages read and written, the notifications the channel took, and
    whether the writer stopped, a method panicked or a request task was
    cancelled. *)
Record conn := mkConn {
  reading : bool;
  writing : bool;
  requests : list request_task;
  queue : list Response;
  channel : Channel;
  notifying : list NewNotification;
  c_read : list Value;
  c_written : list outgoing;
  c_notified : list NewNotification;
  faulted : bool;
}.

Definition new_conn (peer : option Endpoint) : conn :=
  mkConn true true [] [] (Channel.new peer) [] [] [] [] false.

Section conn.
Context (cfg : ServerConfig).

(** The channel operations of the methods are steps of their own; where a
    method completes, [c0] is the channel as the method saw it.  A pending
    [select] branch is not preferred: its future may wait for a lock. *)
Inductive conn_step : conn → conn → Prop :=
(** [stream_reader_task]: a permit is free, a message arrives, *)
| step_read w rs q ch ns rd wr nt f msg :
    (length rs < MAX_CONCURRENT_REQUESTS)%nat →
    conn_step (mkConn true w rs q ch ns rd wr nt f)
      (mkConn true w (rs ++ [Handling msg]) q ch ns (rd ++ [msg]) wr nt f)
(** or it ends: an error, a timeout, the writer is done, or it is cancelled. *)
| step_read_end w rs q ch ns rd wr nt f :
    conn_step (mkConn true w rs q ch ns rd wr nt f)
      (mkConn false w rs q (Channel.close ch) ns rd wr nt f)
(** [request_task]: the handler returns, *)
| step_handled r w rs q ch ns rd wr nt f i msg c0 resp c1 :
    rs !! i = Some (Handling msg) → handle_request cfg (Some c0) msg = (Ready resp, c1) →
    conn_step (mkConn r w rs q ch ns rd wr nt f)
      (mkConn r w (<[i := Pushing resp]> rs) q ch ns rd wr nt f)
(** the response is queued, or dropped if the writer is gone; *)
| step_queued r w rs q ch ns rd wr nt f i resp :
    rs !! i = Some (Pushing resp) → (length q < RESPONSE_QUEUE_SIZE)%nat →
    conn_step (mkConn r w rs q ch ns rd wr nt f)
      (mkConn r w (delete i rs) (q ++ [resp]) ch ns rd wr nt f)
| step_dropped r rs q ch ns rd wr nt f i resp :
    rs !! i = Some (Pushing resp) →
    conn_step (mkConn r false rs q ch ns rd wr nt f)
      (mkConn r false (delete i rs) q ch ns rd wr nt f)
(** a request task panics with its method, or is cancelled. *)
| step_request_lost r w rs q ch ns rd wr nt f i t :
    rs !! i = Some t →
    conn_step (mkConn r w rs q ch ns rd wr nt f)
      (mkConn r w (delete i rs) q ch ns rd wr nt true)
(** Services subscribe, unsubscribe and notify. *)
| step_subscribe r w rs q ch ns rd wr nt f method id random :
    conn_step (mkConn r w rs q ch ns rd wr nt f)
      (mkConn r w rs q (Channel.new_subscription ch method id random).2 ns rd wr nt f)
| step_unsubscribe r w rs q ch ns rd wr nt f id :
    conn_step (mkConn r w rs q ch ns rd wr nt f)
      (mkConn r w rs q (Channel.remove_subscription ch id).2 ns rd wr nt f)
| step_notify r w rs q ch ns rd wr nt f s res n :
    notify_check (Some ch) s res = Ok n →
    conn_step (mkConn r w rs q ch ns rd wr nt f)
      (mkConn r w rs q ch (ns ++ [n]) rd wr nt f)
| step_notified r w rs q ch ns rd wr nt f i n ch' :
    ns !! i = Some n → Channel.send ch n = Some (Ok (), ch') →
    conn_step (mkConn r w rs q ch ns rd wr nt f)
      (mkConn r w rs q ch' (delete i ns) rd wr (nt ++ [n]) f)
| step_notify_end r w rs q ch ns rd wr nt f i n :
    ns !! i = Some n →
    conn_step (mkConn r w rs q ch ns rd wr nt f)
      (mkConn r w rs q ch (delete i ns) rd wr nt f)
(** [stream_writer_task] writes a response or a notification, *)
| step_write_response r rs resp q ch ns rd wr nt f :
    conn_step (mkConn r true rs (resp :: q) ch ns rd wr nt f)
      (mkConn r true rs q ch ns rd (wr ++ [OutResponse resp]) nt f)
| step_write_notification r rs q ch ns rd wr nt f n ch' :
    Channel.recv ch = Some (Ok n, ch') →
    conn_step (mkConn r true rs q ch ns rd wr nt f)
      (mkConn r true rs q ch' ns rd (wr ++ [OutNotification (notification_encoder cfg n)]) nt f)
(** or ends: the channel is closed, it is cancelled, or a write fails, and what
    it took is lost. *)
| step_write_end r rs q ch ns rd wr nt f :
    conn_step (mkConn r true rs q ch ns rd wr nt f)
      (mkConn r false rs q (Channel.close ch) ns rd wr nt true)
| step_write_response_failed r rs resp q ch ns rd wr nt f :
    conn_step (mkConn r true rs (resp :: q) ch ns rd wr nt f)
      (mkConn r false rs q (Channel.close ch) ns rd wr nt true)
| step_write_notification_failed r rs q ch ns rd wr nt f n ch' :
    Channel.recv ch = Some (Ok n, ch') →
    conn_step (mkConn r true rs q ch ns rd wr nt f)
      (mkConn r false rs q (Channel.close ch') ns rd wr nt true).

End conn.
