(* ===== verification/JsonRpcServerSpec.v ===== *)
(** * Correctness of the JSON-RPC server

    What a response says for every request, and that a connection answers
    every request it reads at most once, in its bounds, whatever the
    interleaving of its tasks. *)

From S2P Require Import Prelude Codec Endpoint Framed Json JsonRpcServer.
From Stdlib Require Import Ascii.

(** ** Method names *)

Fixpoint no_dot (s : string) : bool :=
  match s with
  | EmptyString => true
  | String c s => negb (bool_decide (c = "."%char)) && no_dot s
  end.

Lemma split_char_cons c s : ∃ w ws, split_char c s = w :: ws.
Proof.
  induction s as [|a s (w & ws & IH)]; simpl; [by eauto|].
  rewrite IH. case_decide; by eauto.
Qed.

Lemma concat_split_dot s : String.concat "." (split_char "." s) = s.
Proof.
  induction s as [|a s IH]; [done|]. cbn [split_char].
  destruct (split_char_cons "." s) as (w & ws & Hs). rewrite Hs in *.
  case_decide as Ha; [subst a|]; simpl in *; destruct ws; by rewrite <-IH.
Qed.

Lemma split_char_dot svc s :
  no_dot svc → split_char "." (svc +:+ String "." s) = svc :: split_char "." s.
Proof.
  induction svc as [|a svc IH]; simpl; [done|].
  intros [Ha Hs]%andb_prop_elim. rewrite decide_False by (by intros ->). by rewrite (IH Hs).
Qed.

(** A request for method [m] of service [svc] passes the check. *)
Lemma sanity_check_request r svc m :
  rq_jsonrpc r = JSONRPC_VERSION →
  no_dot svc → rq_method r = (svc +:+ String "." m)%string →
  sanity_check (to_value r) = NewReq (mkNewRequest svc m (wire_request r)).
Proof.
  intros Hv Hd Hm. unfold sanity_check. rewrite Request_roundtrip. simpl.
  rewrite bool_decide_true by done. simpl. rewrite Hm, split_char_dot by done.
  pose proof (concat_split_dot m) as Hc.
  destruct (split_char_cons "." m) as (w & ws & Hs). rewrite Hs in *. by rewrite Hc.
Qed.

(** ** Responses *)

Section spec.
Context (cfg : ServerConfig).

(** [resp] is a response of the server to [msg], for some state of the channel. *)
Definition answers (msg : Value) (resp : Response) : Prop :=
  ∃ c0 c1, handle_request cfg (Some c0) msg = (Ready resp, c1).

Definition response_ok (id : option Value) (r : Response) : Prop :=
  rs_jsonrpc r = JSONRPC_VERSION ∧ rs_id r = id ∧
  (is_Some (rs_result r) ↔ rs_error r = None).

Lemma err_response_ok id code msg : response_ok id (err_response id code msg).
Proof. split_and!; [done..|]. split; [by intros [? [=]]|done]. Qed.

Lemma outcome_response_ok id out : response_ok id (outcome_response id out).
Proof.
  destruct out as [v|e]; split_and!; simpl; done.
Qed.

Lemma sanity_check_cases msg :
  match sanity_check msg with
  | NewReq r => from_value msg = Some (req_msg r)
  | ErrRes r => response_ok (rq_id <$> from_value msg) r
  end.
Proof.
  unfold sanity_check. destruct (from_value msg) as [r|]; simpl; [|apply err_response_ok].
  case_bool_decide; simpl; [|apply err_response_ok].
  destruct (split_char "." (rq_method r)) as [|w [|w' ws]]; simpl;
    (apply err_response_ok || done).
Qed.

(** Every response has the version, the identifier of its request (none if the
    message is not a request), and either a result or an error. *)
Lemma answers_ok msg resp : answers msg resp → response_ok (rq_id <$> from_value msg) resp.
Proof.
  intros (c0 & c1 & H). unfold handle_request in H. pose proof (sanity_check_cases msg) as Hs.
  destruct (sanity_check msg) as [r|r]; [|by injection H as <- <-].
  rewrite Hs. simpl. destruct (resolve_handler _ _ _ _) as [m|m|].
  - destruct (m _ _ _) as [[|out|] c]; simplify_eq/=. apply outcome_response_ok.
  - destruct (m _) as [|out|]; simplify_eq/=. apply outcome_response_ok.
  - injection H as <- <-. apply err_response_ok.
Qed.

(** Without a channel no subscription method is resolved, so the [expect] of
    the source never fails. *)
Lemma handle_request_no_expect msg :
  (∀ srv m f v, services cfg !! srv = Some f → ∀ g, f m = Some g → g v ≠ Panicked) →
  (handle_request cfg None msg).1 ≠ Panicked.
Proof.
  intros Hm. unfold handle_request, resolve_handler. destruct (sanity_check msg) as [r|r]; [|done].
  rewrite bool_decide_false by (by intros [? ?]). simpl.
  destruct (services cfg !! srvc_name r) as [f|] eqn:Hf; simpl; [|done].
  destruct (f (method_name r)) as [g|] eqn:Hg; simpl; [|done].
  specialize (Hm _ _ _ (from_option (λ v, v) VNull (rq_params (req_msg r))) Hf _ Hg).
  by destruct (g _).
Qed.

(** ** The invariant of a connection *)

Definition task_for (msg : Value) (t : request_task) : Prop :=
  match t with
  | Handling msg' => msg' = msg
  | Pushing resp => answers msg resp
  end.

Definition responses (out : list outgoing) : list Response :=
  omap (λ o, match o with OutResponse r => Some r | _ => None end) out.
Definition notifications (out : list outgoing) : list Notification :=
  omap (λ o, match o with OutNotification n => Some n | _ => None end) out.

(** Every message read is with a request task, queued, answered or lost. *)
Definition accounted (rd : list Value) (rs : list request_task) (q wr : list Response)
    (f : bool) : Prop :=
  ∃ running queued answered lost,
    rd ≡ₚ running ++ queued ++ answered ++ lost ∧
    Forall2 task_for running rs ∧ Forall2 answers queued q ∧ Forall2 answers answered wr ∧
    (lost = [] ∨ f = true).

(** Every notification the channel took was written, in order, is still in the
    channel, or was lost with the writer. *)
Definition forwarded (nt : list NewNotification) (wr : list Notification)
    (buf : list NewNotification) (w : bool) : Prop :=
  ∃ sent lost, nt = sent ++ lost ++ buf ∧ wr = map (notification_encoder cfg) sent ∧
    (lost = [] ∨ w = false).

Record conn_inv (s : conn) : Prop := {
  inv_requests : length (requests s) ≤ MAX_CONCURRENT_REQUESTS;
  inv_queue : length (queue s) ≤ RESPONSE_QUEUE_SIZE;
  inv_channel : length (ch_buf (channel s)) ≤ CHANNEL_SUBSCRIPTION_BUFFER_SIZE;
  inv_writing : writing s = true ∨ faulted s = true;
  inv_forwarded : forwarded (c_notified s) (notifications (c_written s))
    (ch_buf (channel s)) (writing s);
  inv_accounted : accounted (c_read s) (requests s) (queue s) (responses (c_written s)) (faulted s);
}.

Lemma Forall2_delete_r {A B} (P : A → B → Prop) l k i y :
  Forall2 P l k → k !! i = Some y →
  ∃ x l', P x y ∧ l ≡ₚ x :: l' ∧ Forall2 P l' (delete i k).
Proof.
  intros Hall Hi. destruct (Forall2_lookup_r _ _ _ _ _ Hall Hi) as (x & Hx & Hxy).
  exists x, (delete i l). split_and!; [done|by apply delete_Permutation|by apply Forall2_delete].
Qed.

Lemma accounted_read rd rs q wr f msg :
  accounted rd rs q wr f → accounted (rd ++ [msg]) (rs ++ [Handling msg]) q wr f.
Proof.
  intros (ru & qu & an & lo & Hp & Hru & Hqu & Han & Hlo). exists (ru ++ [msg]), qu, an, lo.
  split_and!; [|by apply Forall2_app; [|constructor]|done..].
  rewrite Hp. solve_Permutation.
Qed.

Lemma accounted_handled rd rs q wr f i msg resp :
  rs !! i = Some (Handling msg) → answers msg resp →
  accounted rd rs q wr f → accounted rd (<[i := Pushing resp]> rs) q wr f.
Proof.
  intros Hi Hans (ru & qu & an & lo & Hp & Hru & Hqu & Han & Hlo). exists ru, qu, an, lo.
  split_and!; [done| |done..].
  destruct (Forall2_lookup_r _ _ _ _ _ Hru Hi) as (m & Hm & Heq). simpl in Heq. subst m.
  rewrite <-(list_insert_id ru i msg) by done. by apply Forall2_insert.
Qed.

Lemma accounted_queued rd rs q wr f i resp :
  rs !! i = Some (Pushing resp) →
  accounted rd rs q wr f → accounted rd (delete i rs) (q ++ [resp]) wr f.
Proof.
  intros Hi (ru & qu & an & lo & Hp & Hru & Hqu & Han & Hlo).
  destruct (Forall2_delete_r _ _ _ _ _ Hru Hi) as (m & ru' & Hm & Hperm & Hru').
  exists ru', (qu ++ [m]), an, lo. split_and!; [|done|by apply Forall2_app; [|constructor]|done..].
  rewrite Hp, Hperm. solve_Permutation.
Qed.

Lemma accounted_lost rd rs q wr f i t :
  rs !! i = Some t → accounted rd rs q wr f → accounted rd (delete i rs) q wr true.
Proof.
  intros Hi (ru & qu & an & lo & Hp & Hru & Hqu & Han & Hlo).
  destruct (Forall2_delete_r _ _ _ _ _ Hru Hi) as (m & ru' & Hm & Hperm & Hru').
  exists ru', qu, an, (m :: lo). split_and!; [|done..|by right].
  rewrite Hp, Hperm. solve_Permutation.
Qed.

Lemma accounted_pop rd rs resp q wr f :
  accounted rd rs (resp :: q) wr f →
  accounted rd rs q (wr ++ [resp]) f ∧ accounted rd rs q wr true.
Proof.
  intros (ru & qu & an & lo & Hp & Hru & Hqu & Han & Hlo).
  apply Forall2_cons_inv_r in Hqu as (m & qu' & Hm & Hqu & ->). split.
  - exists ru, qu', (an ++ [m]), lo. split_and!; [|done..|by apply Forall2_app; [|constructor]|done].
    rewrite Hp. solve_Permutation.
  - exists ru, qu', an, (m :: lo). split_and!; [|done..|by right]. rewrite Hp. solve_Permutation.
Qed.

Lemma accounted_fault rd rs q wr f : accounted rd rs q wr f → accounted rd rs q wr true.
Proof. intros (ru & qu & an & lo & Hp & ? & ? & ? & ?). exists ru, qu, an, lo. naive_solver. Qed.

Lemma forwarded_push nt wr buf w n : forwarded nt wr buf w → forwarded (nt ++ [n]) wr (buf ++ [n]) w.
Proof.
  intros (se & lo & -> & -> & Hlo). exists se, lo. by rewrite <-!(assoc_L (++)).
Qed.

Lemma forwarded_pop nt wr n buf :
  forwarded nt wr (n :: buf) true →
  forwarded nt (wr ++ [notification_encoder cfg n]) buf true ∧ forwarded nt wr buf false.
Proof.
  intros (se & lo & -> & -> & [->|[=]]). split.
  - exists (se ++ [n]), []. rewrite map_app. split_and!; [by rewrite <-(assoc_L (++))|done|by left].
  - exists se, [n]. split_and!; [done..|by right].
Qed.

Lemma forwarded_stop nt wr buf w : forwarded nt wr buf w → forwarded nt wr buf false.
Proof. intros (se & lo & -> & -> & ?). exists se, lo. naive_solver. Qed.

Lemma recv_cases ch n ch' :
  Channel.recv ch = Some (Ok n, ch') → ch_buf ch = n :: ch_buf ch'.
Proof.
  unfold Channel.recv. destruct (ch_buf ch); [by destruct (ch_open ch)|]. by intros [= -> <-].
Qed.

Lemma send_cases ch n ch' :
  Channel.send ch n = Some (Ok (), ch') →
  ch_buf ch' = ch_buf ch ++ [n] ∧ length (ch_buf ch') ≤ CHANNEL_SUBSCRIPTION_BUFFER_SIZE.
Proof.
  unfold Channel.send. destruct (ch_open ch); [|done].
  destruct (Nat.ltb_spec (length (ch_buf ch)) CHANNEL_SUBSCRIPTION_BUFFER_SIZE); [|done].
  intros [= <-]. simpl. rewrite length_app. split; [done|simpl; lia].
Qed.

Lemma subscribe_buf ch method id random :
  ch_buf (Channel.new_subscription ch method id random).2 = ch_buf ch.
Proof. unfold Channel.new_subscription. by case_bool_decide. Qed.

Lemma unsubscribe_buf ch id : ch_buf (Channel.remove_subscription ch id).2 = ch_buf ch.
Proof. unfold Channel.remove_subscription. by case_bool_decide. Qed.

Lemma responses_app a b : responses (a ++ b) = responses a ++ responses b.
Proof. apply omap_app. Qed.

Lemma notifications_app a b : notifications (a ++ b) = notifications a ++ notifications b.
Proof. apply omap_app. Qed.

Lemma length_delete_le {A} (l : list A) i : length (delete i l) ≤ length l.
Proof. rewrite delete_take_drop, length_app, length_take, length_drop. lia. Qed.

#[local] Hint Resolve accounted_read accounted_handled accounted_queued accounted_lost
  accounted_fault forwarded_push forwarded_stop : core.
#[local] Arguments MAX_CONCURRENT_REQUESTS : simpl never.
#[local] Arguments RESPONSE_QUEUE_SIZE : simpl never.
#[local] Arguments CHANNEL_SUBSCRIPTION_BUFFER_SIZE : simpl never.

Lemma conn_step_inv s s' : conn_inv s → conn_step cfg s s' → conn_inv s'.
Proof.
  intros [Hr Hq Hc Hw Hf Ha] Hstep; destruct Hstep; split; simpl in *;
    rewrite ?responses_app, ?notifications_app, ?app_nil_r, ?length_app, ?length_insert,
      ?subscribe_buf, ?unsubscribe_buf; simpl; rewrite ?app_nil_r;
    try match goal with H : Channel.recv _ = _ |- _ => apply recv_cases in H; rewrite H in * end;
    try match goal with H : Channel.send _ _ = _ |- _ => apply send_cases in H as [Hs1 Hs2] end;
    try match goal with |- context [length (delete ?i ?l)] =>
      pose proof (length_delete_le l i) end;
    simpl in *; rewrite ?Hs1; try (lia || done); eauto.
  - eapply accounted_handled; [done| |done]. by eexists _, _.
  - destruct Hw as [[=]| ->]. by eapply accounted_lost.
  - by rewrite <-Hs1.
  - by apply accounted_pop.
  - by apply forwarded_pop.
  - by eapply accounted_pop.
  - by eapply forwarded_pop.
Qed.

Lemma conn_inv_reachable peer s : rtc (conn_step cfg) (new_conn peer) s → conn_inv s.
Proof.
  assert (conn_inv (new_conn peer)) as Hnew.
  { split; simpl; [lia..|by left| |].
    - exists [], []. split_and!; [done..|by left].
    - exists [], [], [], []. split_and!; [done|constructor..|by left]. }
  intros Hrtc. revert Hnew. induction Hrtc; eauto using conn_step_inv.
Qed.

(** The server answers what it is asked.  Whatever the interleaving of the
    tasks of a connection, of its methods and of their subscriptions: at most
    64 requests are worked on and at most 256 responses wait; every response
    written is the server's answer to a request of its own, so that no request
    is answered twice, and carries its identifier and either a result or an
    error; as long as the writer runs, no method panics and no request is
    cancelled, every request read is answered or still in work.  Notifications
    leave in the order the channel took them. *)
Theorem server_conn_sound peer s :
  rtc (conn_step cfg) (new_conn peer) s →
  length (requests s) ≤ 64 ∧ length (queue s) ≤ 256 ∧
  (∃ answered open lost, c_read s ≡ₚ answered ++ open ++ lost ∧
    Forall2 (λ msg r, answers msg r ∧ response_ok (rq_id <$> from_value msg) r)
      answered (responses (c_written s)) ∧
    length open = length (requests s) + length (queue s) ∧
    (faulted s = false → lost = [])) ∧
  notifications (c_written s) `prefix_of` map (notification_encoder cfg) (c_notified s).
Proof.
  intros [Hr Hq _ _ (se & lo & Hnt & Hwr & _) (ru & qu & an & lost & Hp & Hru & Hqu & Han & Hlo)]
    %conn_inv_reachable.
  split_and!; [done..| |].
  - exists an, (ru ++ qu), lost. split_and!.
    + rewrite Hp. solve_Permutation.
    + eapply Forall2_impl; [done|]. intros m r Hm. split; [done|by apply answers_ok].
    + rewrite length_app. apply Forall2_length in Hru, Hqu. lia.
    + intros Hf. destruct Hlo as [?|?]; congruence.
  - rewrite Hnt, Hwr, map_app. by eexists.
Qed.

End spec.
