(* ===== verification/JsonRpcClient.v ===== *)
(** * The JSON-RPC client

    Models the multiplexed client of [jsonrpc/src/client]: the dispatcher of
    responses ([message_dispatcher.rs]), the subscriptions
    ([subscriptions.rs]), message handling and requests ([multiplexed.rs]),
    and the methods of [mod.rs] that finish a call.  The client with its calls
    and its background loop is a step relation.

    Channels of the async_channel crate are shared objects: a store maps a
    channel to what it holds, and a sender or receiver is a reference into it. *)

From S2P Require Import Prelude Codec Framed Json.

Local Open Scope Z_scope.

Definition OUTBOUND_BUFFER_SIZE : nat := 10.

(** ** Messages to the client *)

Inductive NewMsg :=
| MsgNotification (n : Notification)
| MsgResponse (r : Response).

(** An untagged enum takes the first variant that fits. *)
#[export] Instance NewMsg_de : Deserialize NewMsg := λ v,
  match from_value (T := Notification) v with
  | Some n => Some (MsgNotification n)
  | None => MsgResponse <$> from_value (T := Response) v
  end.

(** ** The dispatcher *)

(** The channel of one request: the response it holds, whether its sender is
    gone, and whether its receiver is there. *)
Record rchan := mkRchan {
  rc_buf : option Response;
  rc_closed : bool;
  rc_alive : bool;
}.

Record MessageDispatcher := mkDispatcher {
  chans : gmap Z nat;
  rchans : gmap nat rchan;
}.

Module MessageDispatcher.

Definition new : MessageDispatcher := mkDispatcher ∅ ∅.

(** A sender that is dropped closes its channel. *)
Definition drop_sender (o : option nat) (rs : gmap nat rchan) : gmap nat rchan :=
  match o with
  | Some c => alter (λ rc, mkRchan (rc_buf rc) true (rc_alive rc)) c rs
  | None => rs
  end.

(** [c] is the new channel; the sender it replaces is dropped. *)
Definition register (d : MessageDispatcher) (id : Z) (c : nat) : MessageDispatcher :=
  mkDispatcher (<[id := c]> (chans d))
    (<[c := mkRchan None false true]> (drop_sender (chans d !! id) (rchans d))).

Definition unregister (d : MessageDispatcher) (id : Z) : MessageDispatcher :=
  mkDispatcher (delete id (chans d)) (drop_sender (chans d !! id) (rchans d)).

Definition clear (d : MessageDispatcher) : MessageDispatcher :=
  mkDispatcher ∅
    (map_imap (λ c rc, Some (mkRchan (rc_buf rc)
      (rc_closed rc || bool_decide (c ∈ (map_to_list (chans d)).*2)) (rc_alive rc))) (rchans d)).

(** The channel has room for the one response it gets. *)
Definition dispatch (d : MessageDispatcher) (res : Response) :
    result jsonrpc_error () * MessageDispatcher :=
  match rs_id res with
  | None => (Err (JInvalidMsg "Response id is none"), d)
  | Some rid =>
      match u32_de rid with
      | None => (Err ParseJSON, d)
      | Some id =>
          match chans d !! id with
          | None => (Err (JInvalidMsg "Receive unknown message"), d)
          | Some c =>
              match rchans d !! c with
              | Some (mkRchan buf closed true) =>
                  (Ok (), mkDispatcher (delete id (chans d))
                    (<[c := mkRchan (Some res) true true]> (rchans d)))
              | _ => (Err ChannelSend, unregister d id)
              end
          end
      end
  end.

End MessageDispatcher.

(** ** Subscriptions *)

Record Subscription := mkSubscription {
  sub_buf : list Value;
  sub_closed : bool;
}.

Record Subscriptions := mkSubscriptions {
  subs : gmap Z nat;
  schans : gmap nat Subscription;
  sub_buffer_size : nat;
}.

Definition default_notification_decoder (nt : Notification) :
    result jsonrpc_error NotificationResult :=
  match nt_params nt with
  | Some p => ok_or (from_value p) ParseJSON
  | None => Err (JInvalidMsg "Invalid notification msg")
  end.

Module Subscriptions.

Definition new (sub_buffer_size : nat) : Subscriptions := mkSubscriptions ∅ ∅ sub_buffer_size.

(** [c] is the channel of the new subscription; the caller gets it too. *)
Definition subscribe (s : Subscriptions) (id : Z) (c : nat) : Subscriptions :=
  mkSubscriptions (<[id := c]> (subs s)) (<[c := mkSubscription [] false]> (schans s))
    (sub_buffer_size s).

Definition close_chan (c : nat) (m : gmap nat Subscription) : gmap nat Subscription :=
  alter (λ s, mkSubscription (sub_buf s) true) c m.

Definition clear (s : Subscriptions) : Subscriptions :=
  mkSubscriptions ∅ (foldr close_chan (schans s) (map_to_list (subs s)).*2) (sub_buffer_size s).

Definition unsubscribe (s : Subscriptions) (id : Z) : Subscriptions :=
  match subs s !! id with
  | Some c => mkSubscriptions (delete id (subs s)) (close_chan c (schans s)) (sub_buffer_size s)
  | None => s
  end.

(** [Subscription::notify]. *)
Definition notify_sub (size : nat) (s : Subscription) (val : Value) :
    result jsonrpc_error () * Subscription :=
  if bool_decide (length (sub_buf s) = size) then (Err SubscriptionBufferFull, s)
  else if sub_closed s then (Err ChannelSend, s)
  else (Ok (), mkSubscription (sub_buf s ++ [val]) false).

Definition notify (s : Subscriptions) (nt_res : NotificationResult) :
    result jsonrpc_error () * Subscriptions :=
  match subs s !! subscription nt_res ≫= (λ c, (c,.) <$> schans s !! c) with
  | Some (c, sub) =>
      let '(r, sub) := notify_sub (sub_buffer_size s) sub
        (from_option (λ v, v) (VString EmptyString) (nr_result nt_res)) in
      (r, mkSubscriptions (subs s) (<[c := sub]> (schans s)) (sub_buffer_size s))
  | None => (Err (JInvalidMsg "Unknown notification"), s)
  end.

(** [Subscription::recv], when it completes. *)
Definition recv (s : Subscription) : option (result jsonrpc_error Value * Subscription) :=
  match sub_buf s with
  | v :: rest => Some (Ok v, mkSubscription rest (sub_closed s))
  | [] => if sub_closed s then Some (Err SubscriptionClosed, s) else None
  end.

End Subscriptions.

Definition handle_mux_msg (decoder : Notification → result jsonrpc_error NotificationResult)
    (msg : Value) (d : MessageDispatcher) (s : Subscriptions) :
    result jsonrpc_error () * MessageDispatcher * Subscriptions :=
  match from_value (T := NewMsg) msg with
  | Some (MsgResponse res) => (MessageDispatcher.dispatch d res, s)
  | Some (MsgNotification nt) =>
      match decoder nt with
      | Ok nt_res => let '(r, s) := Subscriptions.notify s nt_res in (r, d, s)
      | Err e => (Err e, d, s)
      end
  | None => (Err (JInvalidMsg "Unexpected msg"), d, s)
  end.

(** ** Requests *)

Definition new_request (id : Z) (method : string) (params : Value) : Request :=
  mkRequest JSONRPC_VERSION (int_ser id) method (Some params).

(** The check of [send_request] on the response it waited for. *)
Definition check_response (id : Z) (response : Response) : result jsonrpc_error Response :=
  match rs_id response with
  | None => Err (JInvalidMsg "Missing response id")
  | Some resp_id =>
      if eq_u32 resp_id id then Ok response else Err (JInvalidMsg "Invalid response id")
  end.

(** The rest of [call], [subscribe] and [unsubscribe] after [send_request]. *)
Definition call_result {V} `{Deserialize V} (response : Response) : result jsonrpc_error V :=
  match rs_error response with
  | Some error => Err (CallError (code error) (message error))
  | None =>
      match rs_result response with
      | Some result => ok_or (from_value result) ParseJSON
      | None => Err (JInvalidMsg "Invalid response result")
      end
  end.

Definition subscribe_result (response : Response) : result jsonrpc_error Z :=
  match rs_error response with
  | Some error => Err (SubscribeError (code error) (message error))
  | None =>
      match rs_result response with
      | Some result => ok_or (u32_de result) ParseJSON
      | None => Err (JInvalidMsg "Invalid subscription id")
      end
  end.

Definition unsubscribe_result (response : Response) : result jsonrpc_error () :=
  match rs_error response with
  | Some error => Err (SubscribeError (code error) (message error))
  | None => Ok ()
  end.

(** ** The client *)

Inductive call_kind := KCall | KSubscribe | KUnsubscribe (sub_id : Z).

(** Where a call is: before it looks whether the client is disconnected, before
    it registers, before its request is in the outbound channel, waiting for
    the response, returned from [send_request], and at the end of [subscribe]
    and [unsubscribe].  [CDropped] is a call whose future was dropped. *)
Inductive call_pc :=
| CBegin
| CRegister
| CSend (c : nat)
| CWait (c : nat)
| CReturned (r : result jsonrpc_error Response)
| CSubscribed (sub_id : Z) (c : nat)
| CUnsubscribed (r : result jsonrpc_error ())
| CDropped.

Record call := mkCall {
  kind : call_kind;
  request_id : Z;
  request : Value;
  at_pc : call_pc;
}.

Definition move (p : call_pc) (c : call) : call :=
  mkCall (kind c) (request_id c) (request c) p.

(** The background task: the loop, then its callback in its steps. *)
Inductive io_state := IoRunning | IoEnded | IoDisconnected | IoSubsCleared | IoDone.

Record client := mkClient {
  disconnect : bool;
  dispatcher : MessageDispatcher;
  subscriptions : Subscriptions;
  outbound : list Value;
  io : io_state;
  calls : list call;
  sent : list Value;
  received : list Value;
}.

Definition new_client (sub_buffer_size : nat) : client :=
  mkClient false MessageDispatcher.new (Subscriptions.new sub_buffer_size) [] IoRunning [] [] [].

(** The channel a call has the receiver of. *)
Definition chan_of (p : call_pc) : option nat :=
  match p with CSend c | CWait c => Some c | _ => None end.

(** The receiver of a call that returns or is dropped is gone. *)
Definition drop_receiver (o : option nat) (d : MessageDispatcher) : MessageDispatcher :=
  match o with
  | Some c =>
      mkDispatcher (chans d) (alter (λ rc, mkRchan (rc_buf rc) (rc_closed rc) false) c (rchans d))
  | None => d
  end.

(** A receive that returns the response takes it out of the channel. *)
Definition take_response (c : nat) (d : MessageDispatcher) : MessageDispatcher :=
  mkDispatcher (chans d) (alter (λ rc, mkRchan None (rc_closed rc) false) c (rchans d)).

Section client.
Context (timeout : bool).
Context (decoder : Notification → result jsonrpc_error NotificationResult).

Inductive client_step : client → client → Prop :=
(** [send_request], with a random identifier, *)
| step_call x d s o i cs se re k id method params :
    is_u32 id →
    client_step (mkClient x d s o i cs se re)
      (mkClient x d s o i (cs ++ [mkCall k id (to_value (new_request id method params)) CBegin]) se re)
(** looks whether the client is disconnected, *)
| step_check d s o i cs se re n c :
    cs !! n = Some c → at_pc c = CBegin →
    client_step (mkClient false d s o i cs se re)
      (mkClient false d s o i (<[n := move CRegister c]> cs) se re)
| step_disconnected d s o i cs se re n c :
    cs !! n = Some c → at_pc c = CBegin →
    client_step (mkClient true d s o i cs se re)
      (mkClient true d s o i (<[n := move (CReturned (Err ClientDisconnected)) c]> cs) se re)
(** registers, *)
| step_register x d s o i cs se re n c ch :
    cs !! n = Some c → at_pc c = CRegister → rchans d !! ch = None →
    client_step (mkClient x d s o i cs se re)
      (mkClient x (MessageDispatcher.register d (request_id c) ch) s o i
        (<[n := move (CSend ch) c]> cs) se re)
(** sends (the client holds a receiver of the channel, which is never closed), *)
| step_send x d s o i cs se re n c ch :
    cs !! n = Some c → at_pc c = CSend ch → (length o < OUTBOUND_BUFFER_SIZE)%nat →
    client_step (mkClient x d s o i cs se re)
      (mkClient x d s (o ++ [request c]) i (<[n := move (CWait ch) c]> cs) se re)
(** waits, and returns the response, *)
| step_response x d s o i cs se re n c ch r cl al :
    cs !! n = Some c → at_pc c = CWait ch → rchans d !! ch = Some (mkRchan (Some r) cl al) →
    client_step (mkClient x d s o i cs se re)
      (mkClient x (take_response ch d) s o i
        (<[n := move (CReturned (check_response (request_id c) r)) c]> cs) se re)
(** or unregisters when the channel is closed or the time is over. *)
| step_recv_failed x d s o i cs se re n c ch al :
    cs !! n = Some c → at_pc c = CWait ch → rchans d !! ch = Some (mkRchan None true al) →
    client_step (mkClient x d s o i cs se re)
      (mkClient x (drop_receiver (Some ch) (MessageDispatcher.unregister d (request_id c))) s o i
        (<[n := move (CReturned (Err ChannelRecv)) c]> cs) se re)
| step_timeout x d s o i cs se re n c ch :
    cs !! n = Some c → at_pc c = CWait ch → timeout = true →
    client_step (mkClient x d s o i cs se re)
      (mkClient x (drop_receiver (Some ch) (MessageDispatcher.unregister d (request_id c))) s o i
        (<[n := move (CReturned (Err (JKaryonCore CoreTimeout))) c]> cs) se re)
(** [subscribe] and [unsubscribe] then change the subscriptions. *)
| step_subscribed x d s o i cs se re n c r id ch :
    cs !! n = Some c → kind c = KSubscribe → at_pc c = CReturned (Ok r) →
    subscribe_result r = Ok id → schans s !! ch = None →
    client_step (mkClient x d s o i cs se re)
      (mkClient x d (Subscriptions.subscribe s id ch) o i
        (<[n := move (CSubscribed id ch) c]> cs) se re)
| step_unsubscribed x d s o i cs se re n c r id :
    cs !! n = Some c → kind c = KUnsubscribe id → at_pc c = CReturned (Ok r) →
    client_step (mkClient x d s o i cs se re)
      (mkClient x d (Subscriptions.unsubscribe s id) o i
        (<[n := move (CUnsubscribed (unsubscribe_result r)) c]> cs) se re)
(** A subscriber receives. *)
| step_sub_recv x d s o i cs se re ch sub v sub' :
    schans s !! ch = Some sub → Subscriptions.recv sub = Some (Ok v, sub') →
    client_step (mkClient x d s o i cs se re)
      (mkClient x d (mkSubscriptions (subs s) (<[ch := sub']> (schans s)) (sub_buffer_size s))
        o i cs se re)
(** [run_io_loop] writes a request, *)
| step_io_write x d s v o cs se re :
    client_step (mkClient x d s (v :: o) IoRunning cs se re)
      (mkClient x d s o IoRunning cs (se ++ [v]) re)
(** handles a message; only a full subscription ends the loop, *)
| step_io_msg x d s o cs se re msg r d' s' :
    handle_mux_msg decoder msg d s = (r, d', s') →
    client_step (mkClient x d s o IoRunning cs se re)
      (mkClient x d' s' o
        (match r with Err SubscriptionBufferFull => IoEnded | _ => IoRunning end)
        cs se (re ++ [msg]))
(** or ends: reading fails, writing fails, or the client is stopped. *)
| step_io_end x d s o cs se re :
    client_step (mkClient x d s o IoRunning cs se re) (mkClient x d s o IoEnded cs se re)
| step_io_write_failed x d s v o cs se re :
    client_step (mkClient x d s (v :: o) IoRunning cs se re) (mkClient x d s o IoEnded cs se re)
(** Its callback. *)
| step_io_disconnect x d s o cs se re :
    client_step (mkClient x d s o IoEnded cs se re) (mkClient true d s o IoDisconnected cs se re)
| step_io_clear_subs x d s o cs se re :
    client_step (mkClient x d s o IoDisconnected cs se re)
      (mkClient x d (Subscriptions.clear s) o IoSubsCleared cs se re)
| step_io_clear_calls x d s o cs se re :
    client_step (mkClient x d s o IoSubsCleared cs se re)
      (mkClient x (MessageDispatcher.clear d) s o IoDone cs se re).

(** The future of a call is dropped by its caller. *)
Inductive call_drop : client → client → Prop :=
| step_drop x d s o i cs se re n c :
    cs !! n = Some c → at_pc c ∈ [CBegin; CRegister] ∨ is_Some (chan_of (at_pc c)) →
    call_drop (mkClient x d s o i cs se re)
      (mkClient x (drop_receiver (chan_of (at_pc c)) d) s o i (<[n := move CDropped c]> cs) se re).

End client.
