(* ===== verification/JsonRpcClientSpec.v ===== *)
(** * Correctness of the JSON-RPC client

    Whatever the server sends and the callers do, every call that returns a
    response returns one the server sent with the identifier of the call, no
    response is returned twice, a response that arrives for a call that waits is
    the one it returns, and a call that registered in time can always return.

    Three things a caller would expect do not hold, and are shown by runs (the first
    here, the others in JsonRpcExchange): a call that registers after the background
    task cleared the dispatcher waits for ever without a timeout; a
    call can wait for the outbound channel after the background task ended;
    and a notification that arrives between the response to a subscription and
    the registration of the subscription is lost. *)

From S2P Require Import Prelude Codec Framed Json JsonRpcServer JsonRpcServerSpec JsonRpcClient.

(** ** The dispatcher *)

(** The response belongs to the request [id]. *)
Definition for_request (id : Z) (r : Response) : Prop := rs_id r ≫= u32_de = Some id.

Definition chan_ok (d : MessageDispatcher) (id : Z) (ch : nat) : Prop :=
  ∃ b cl, rchans d !! ch = Some (mkRchan b cl true) ∧
    (cl = false → chans d !! id = Some ch) ∧ (∀ r, b = Some r → for_request id r).

(** [W n id ch]: call [n] of request [id] holds the receiver of [ch]. *)
Record disp_ok (d : MessageDispatcher) (W : nat → Z → nat → Prop) : Prop := {
  disp_registered id ch : chans d !! id = Some ch →
    ∃ al, rchans d !! ch = Some (mkRchan None false al);
  disp_inj id id' ch : chans d !! id = Some ch → chans d !! id' = Some ch → id = id';
  disp_waits n id ch : W n id ch → chan_ok d id ch;
  disp_own n m id id' ch : W n id ch → W m id' ch → n = m ∧ id = id';
}.

Lemma disp_ok_sub d (W W' : nat → Z → nat → Prop) :
  disp_ok d W → (∀ n id ch, W' n id ch → W n id ch) → disp_ok d W'.
Proof. intros [H1 H2 H3 H4] Hsub. split; eauto. Qed.

Lemma drop_sender_lookup o rs c :
  MessageDispatcher.drop_sender o rs !! c =
    (λ rc, mkRchan (rc_buf rc) (rc_closed rc || bool_decide (o = Some c)) (rc_alive rc)) <$> rs !! c.
Proof.
  destruct o as [c0|]; simpl.
  - destruct (decide (c0 = c)) as [->|Hne].
    + rewrite lookup_alter_eq. destruct (rs !! c) as [[]|]; simpl; [|done].
      by rewrite bool_decide_true, orb_true_r.
    + rewrite lookup_alter_ne by done. destruct (rs !! c) as [[]|]; simpl; [|done].
      rewrite bool_decide_false by congruence. by rewrite orb_false_r.
  - destruct (rs !! c) as [[]|]; simpl; by rewrite ?orb_false_r.
Qed.

Lemma disp_unregister d W id : disp_ok d W → disp_ok (MessageDispatcher.unregister d id) W.
Proof.
  intros [H1 H2 H3 H4]. split; simpl; [| | |done].
  - intros id' ch [Hne Hch]%lookup_delete_Some. destruct (H1 _ _ Hch) as [al Hal].
    exists al. rewrite drop_sender_lookup, Hal. simpl.
    rewrite bool_decide_false; [done|]. intros Hid. by eapply Hne, H2.
  - intros id1 id2 ch [_ ?]%lookup_delete_Some [_ ?]%lookup_delete_Some. by eapply H2.
  - intros n id' ch (b & cl & Hrc & Hcl & Hb)%H3. unfold chan_ok. simpl.
    rewrite drop_sender_lookup, Hrc. simpl. eexists b, _. split_and!; [done| |done].
    intros [-> Hne%bool_decide_eq_false]%orb_false_elim.
    rewrite lookup_delete_ne by (intros ->; naive_solver). by apply Hcl.
Qed.

Lemma disp_register d W n id ch :
  disp_ok d W → rchans d !! ch = None →
  disp_ok (MessageDispatcher.register d id ch)
    (λ n' id' ch', W n' id' ch' ∨ (n' = n ∧ id' = id ∧ ch' = ch)).
Proof.
  intros Hok Hfresh. destruct (disp_unregister _ _ id Hok) as [H1 H2 H3 H4]. simpl in *.
  assert (∀ id', delete id (chans d) !! id' ≠ Some ch) as Hno.
  { intros id' [al Hal]%H1. rewrite drop_sender_lookup, Hfresh in Hal. done. }
  split; simpl.
  - intros id' ch' [[-> ->]|[Hne Hch]]%lookup_insert_Some; [by rewrite lookup_insert_eq; eexists|].
    assert (delete id (chans d) !! id' = Some ch') as Hd by (by rewrite lookup_delete_ne).
    rewrite lookup_insert_ne by (intros ->; by eapply Hno). by apply H1 in Hd.
  - intros id1 id2 ch'. rewrite <-(insert_delete_eq (chans d)).
    rewrite !lookup_insert_Some. naive_solver.
  - intros n' id' ch' [HW|(-> & -> & ->)].
    + destruct (H3 _ _ _ HW) as (b & cl & Hrc & Hcl & Hb). simpl in *.
      exists b, cl. simpl. split_and!; [|intros Hc; specialize (Hcl Hc)|done].
      * rewrite lookup_insert_ne; [done|]. intros ->.
        by rewrite drop_sender_lookup, Hfresh in Hrc.
      * apply lookup_delete_Some in Hcl as [??]. by rewrite lookup_insert_ne.
    + exists None, false. simpl. rewrite !lookup_insert_eq. naive_solver.
  - assert (∀ n id, ¬ W n id ch) as HnoW.
    { intros n' id' (b & cl & Hrc & _)%H3. simpl in Hrc.
      by rewrite drop_sender_lookup, Hfresh in Hrc. }
    naive_solver.
Qed.

Lemma disp_clear d W : disp_ok d W → disp_ok (MessageDispatcher.clear d) W.
Proof.
  intros [H1 H2 H3 H4]. split; simpl; [by intros; simplify_map_eq..| |done].
  intros n id ch (b & cl & Hrc & Hcl & Hb)%H3. unfold chan_ok. simpl.
  rewrite map_lookup_imap, Hrc. simpl. eexists b, _. split_and!; [done| |done].
  intros [-> Hno%bool_decide_eq_false]%orb_false_elim. destruct Hno.
  apply list_elem_of_fmap. exists (id, ch). split; [done|].
  apply elem_of_map_to_list. by apply Hcl.
Qed.

Lemma disp_dispatch d W res r d' :
  disp_ok d W → MessageDispatcher.dispatch d res = (r, d') → disp_ok d' W.
Proof.
  intros Hok. unfold MessageDispatcher.dispatch.
  destruct (rs_id res) as [rid|] eqn:Hrid; [|by intros [= <- <-]].
  destruct (u32_de rid) as [id|] eqn:Hid; [|by intros [= <- <-]].
  destruct (chans d !! id) as [ch|] eqn:Hch; [|by intros [= <- <-]].
  destruct (rchans d !! ch) as [[b cl []]|] eqn:Hrc;
    intros [= <- <-]; [|by apply disp_unregister..].
  destruct (disp_unregister _ _ id Hok) as [H1 H2 _ _]. destruct Hok as [H1' H2' H3 H4].
  simpl in *. rewrite Hch in *. split; simpl; [|done| |done].
  - intros id' ch' Hch'. destruct (H1 _ _ Hch') as [al Hal].
    rewrite drop_sender_lookup in Hal. apply lookup_delete_Some in Hch' as [Hne Hch'].
    rewrite lookup_insert_ne by (intros <-; by eapply Hne, H2').
    destruct (rchans d !! ch') as [[b0 c0 a0]|]; [|done]. injection Hal as -> Hc _.
    apply orb_false_elim in Hc as [-> _]. by eexists.
  - intros n id' ch' HW. destruct (H3 _ _ _ HW) as (b' & cl' & Hrc' & Hcl & Hb). unfold chan_ok. simpl.
    destruct (decide (ch' = ch)) as [->|Hne].
    + exists (Some res), true. rewrite lookup_insert_eq. split_and!; [done..|].
      intros ? [= <-]. unfold for_request. rewrite Hrid. simpl. rewrite Hid. f_equal.
      destruct (H1' _ _ Hch) as [al Hal]. rewrite Hal in Hrc'. injection Hrc' as <- <- _.
      eapply H2'; [done|]. by apply Hcl.
    + exists b', cl'. rewrite lookup_insert_ne by done. split_and!; [done| |done].
      intros Hc. specialize (Hcl Hc). rewrite lookup_delete_ne; [done|]. intros ->. congruence.
Qed.

(** A call gives up its receiver. *)
Lemma disp_leave d (W : nat → Z → nat → Prop) ch (f : rchan → rchan) :
  (∀ rc, rc_closed (f rc) = rc_closed rc ∧ (rc_buf rc = None → rc_buf (f rc) = None)) →
  disp_ok d W → disp_ok (mkDispatcher (chans d) (alter f ch (rchans d)))
    (λ n id ch', W n id ch' ∧ ch' ≠ ch).
Proof.
  intros Hf [H1 H2 H3 H4]. split; simpl; [|done| |naive_solver].
  - intros id ch' Hch. destruct (H1 _ _ Hch) as [al Hal].
    destruct (decide (ch = ch')) as [->|Hne]; [|rewrite lookup_alter_ne by done; by eexists].
    rewrite lookup_alter_eq, Hal. simpl. destruct (Hf (mkRchan None false al)) as [Hc Hb].
    destruct (f _) as [b c a]. simpl in *. rewrite Hc, Hb by done. by eexists.
  - intros n id ch' [(b & cl & Hrc & ?)%H3 Hne]. exists b, cl. simpl.
    by rewrite lookup_alter_ne.
Qed.

(** ** Responses in flight *)

Definition held (rs : gmap nat rchan) : list Response :=
  omap (λ kb, kb.2) (map_to_list (rc_buf <$> rs)).

Definition responses_of (msgs : list Value) : list Response :=
  omap (λ v, match from_value (T := NewMsg) v with
             | Some (MsgResponse r) => Some r | _ => None end) msgs.

Definition returned (cs : list call) : list Response :=
  omap (λ c, match at_pc c with CReturned (Ok r) => Some r | _ => None end) cs.

Definition result_of (p : call_pc) : list Response :=
  match p with CReturned (Ok r) => [r] | _ => [] end.

Lemma returned_insert cs n c p :
  cs !! n = Some c →
  ∃ others, returned cs ≡ₚ result_of (at_pc c) ++ others ∧
    returned (<[n := move p c]> cs) ≡ₚ result_of p ++ others.
Proof.
  intros Hn. exists (returned (delete n cs)).
  assert (∀ c l, returned (c :: l) = result_of (at_pc c) ++ returned l) as Hcons.
  { intros [k id rq [| | | |[]| | |]] l; done. }
  split.
  - rewrite <-Hcons. unfold returned. by rewrite <-(delete_Permutation cs n c).
  - change (result_of p) with (result_of (at_pc (move p c))). rewrite <-Hcons. unfold returned.
    rewrite (delete_Permutation (<[n := move p c]> cs) n (move p c)).
    + by rewrite !delete_take_drop, take_insert_ge, drop_insert_lt by lia.
    + apply list_lookup_insert_eq. by eapply lookup_lt_Some.
Qed.

Lemma held_same rs rs' : rc_buf <$> rs = rc_buf <$> rs' → held rs = held rs'.
Proof. unfold held. by intros ->. Qed.

Lemma held_insert rs c rc :
  rs !! c = None → held (<[c := rc]> rs) ≡ₚ option_list (rc_buf rc) ++ held rs.
Proof.
  intros Hc. unfold held. rewrite fmap_insert, map_to_list_insert by (by rewrite lookup_fmap, Hc).
  simpl. by destruct (rc_buf rc).
Qed.

Lemma held_replace rs c rc rc' :
  rs !! c = Some rc →
  ∃ others, held rs ≡ₚ option_list (rc_buf rc) ++ others ∧
    held (<[c := rc']> rs) ≡ₚ option_list (rc_buf rc') ++ others.
Proof.
  intros Hc. exists (held (delete c rs)). split.
  - rewrite <-(insert_delete_id rs c rc) at 1 by done. apply held_insert, lookup_delete_eq.
  - rewrite <-insert_delete_eq. apply held_insert, lookup_delete_eq.
Qed.

Lemma held_drop_sender o rs : held (MessageDispatcher.drop_sender o rs) = held rs.
Proof.
  apply held_same, map_eq. intros c. rewrite !lookup_fmap, drop_sender_lookup.
  by destruct (rs !! c).
Qed.

Lemma held_clear d : held (rchans (MessageDispatcher.clear d)) = held (rchans d).
Proof.
  apply held_same, map_eq. intros c. simpl. rewrite !lookup_fmap, map_lookup_imap.
  by destruct (rchans d !! c).
Qed.

Lemma held_drop_receiver o d : held (rchans (drop_receiver o d)) = held (rchans d).
Proof.
  destruct o as [c|]; [|done]. apply held_same, map_eq. intros c'. simpl. rewrite !lookup_fmap.
  destruct (decide (c = c')) as [->|Hne]; [|by rewrite lookup_alter_ne].
  rewrite lookup_alter_eq. by destruct (rchans d !! c').
Qed.

(** Every response received was returned by one call, is held by one channel,
    or was discarded. *)
Definition delivered (msgs : list Value) (cs : list call) (rs : gmap nat rchan) : Prop :=
  ∃ rest, responses_of msgs ≡ₚ returned cs ++ held rs ++ rest.

Lemma delivered_dispatch msgs cs d msg res r d' :
  (∀ id ch, chans d !! id = Some ch → ∃ al, rchans d !! ch = Some (mkRchan None false al)) →
  from_value msg = Some (MsgResponse res) → MessageDispatcher.dispatch d res = (r, d') →
  delivered msgs cs (rchans d) → delivered (msgs ++ [msg]) cs (rchans d').
Proof.
  intros Hreg Hmsg Hdis [rest Hp].
  assert (responses_of (msgs ++ [msg]) ≡ₚ returned cs ++ held (rchans d) ++ res :: rest) as Hp'.
  { unfold responses_of in *. rewrite omap_app. simpl. rewrite Hmsg, Hp. solve_Permutation. }
  revert Hdis. unfold MessageDispatcher.dispatch.
  destruct (rs_id res) as [rid|]; [|by intros [= <- <-]; eexists].
  destruct (u32_de rid) as [id|]; [|by intros [= <- <-]; eexists].
  destruct (chans d !! id) as [ch|] eqn:Hch; [|by intros [= <- <-]; eexists].
  destruct (Hreg _ _ Hch) as [al Hal]. rewrite Hal.
  destruct al; intros [= <- <-]; simpl.
  - destruct (held_replace _ _ _ (mkRchan (Some res) true true) Hal) as (o & Ho & Ho').
    exists rest. rewrite Hp', Ho, Ho'. simpl. solve_Permutation.
  - exists (res :: rest). by rewrite held_drop_sender.
Qed.

(** ** The invariant of the client *)

Definition waits (cs : list call) (n : nat) (id : Z) (ch : nat) : Prop :=
  ∃ c, cs !! n = Some c ∧ request_id c = id ∧ chan_of (at_pc c) = Some ch.

(** What a call may return: a response with its identifier, or one of three
    errors; never the errors of a response with a wrong identifier. *)
Definition result_ok (id : Z) (r : result jsonrpc_error Response) : Prop :=
  match r with
  | Ok resp => for_request id resp
  | Err e => e ∈ [ClientDisconnected; ChannelRecv; JKaryonCore CoreTimeout]
  end.

Definition results_ok (cs : list call) : Prop :=
  ∀ n c r, cs !! n = Some c → at_pc c = CReturned r → result_ok (request_id c) r.

Record client_inv (s : client) : Prop := {
  cl_disp : disp_ok (dispatcher s) (waits (calls s));
  cl_delivered : delivered (received s) (calls s) (rchans (dispatcher s));
  cl_results : results_ok (calls s);
}.

Lemma waits_move cs n c p m id ch :
  cs !! n = Some c → waits (<[n := move p c]> cs) m id ch →
  (m = n ∧ id = request_id c ∧ chan_of p = Some ch) ∨ (m ≠ n ∧ waits cs m id ch).
Proof.
  intros Hn (c' & Hc' & <- & Hch). destruct (decide (m = n)) as [->|Hne].
  - rewrite list_lookup_insert_eq in Hc' by (by eapply lookup_lt_Some). simplify_eq. by left.
  - rewrite list_lookup_insert_ne in Hc' by done. right. split; [done|]. by eexists.
Qed.

Lemma disp_move d cs n c p :
  cs !! n = Some c → chan_of p = None ∨ chan_of p = chan_of (at_pc c) →
  disp_ok d (waits cs) → disp_ok d (waits (<[n := move p c]> cs)).
Proof.
  intros Hn Hp Hok. eapply disp_ok_sub; [done|].
  intros m id ch [(-> & -> & Hch)|[_ ?]]%waits_move; [|done..].
  destruct Hp as [Hp|Hp]; rewrite Hp in Hch; [done|]. by exists c.
Qed.

Lemma disp_move_leave d cs n c p ch f :
  (∀ rc, rc_closed (f rc) = rc_closed rc ∧ (rc_buf rc = None → rc_buf (f rc) = None)) →
  cs !! n = Some c → chan_of (at_pc c) = Some ch → chan_of p = None →
  disp_ok d (waits cs) →
  disp_ok (mkDispatcher (chans d) (alter f ch (rchans d))) (waits (<[n := move p c]> cs)).
Proof.
  intros Hf Hn Hch Hp Hok. eapply disp_ok_sub; [by apply disp_leave|].
  intros m id ch' [(-> & -> & ?)|[Hne Hw]]%waits_move; [congruence| |done].
  split; [done|]. intros ->. apply Hne. destruct Hok as [_ _ _ Hown].
  by eapply (Hown m n); [|exists c].
Qed.

Lemma results_move cs n c p :
  cs !! n = Some c → (∀ r, p = CReturned r → result_ok (request_id c) r) →
  results_ok cs → results_ok (<[n := move p c]> cs).
Proof.
  intros Hn Hp Hok m c' r Hm Hr. destruct (decide (m = n)) as [->|Hne].
  - rewrite list_lookup_insert_eq in Hm by (by eapply lookup_lt_Some). simplify_eq/=. by apply Hp.
  - rewrite list_lookup_insert_ne in Hm by done. by eapply Hok.
Qed.

Lemma delivered_move msgs cs rs n c p :
  cs !! n = Some c → result_of p = [] →
  delivered msgs cs rs → delivered msgs (<[n := move p c]> cs) rs.
Proof.
  intros Hn Hp [rest Hrest]. destruct (returned_insert cs n c p Hn) as (o & Ho & Ho').
  exists (result_of (at_pc c) ++ rest). rewrite Hrest, Ho, Ho', Hp. solve_Permutation.
Qed.

Lemma delivered_held msgs cs rs rs' :
  held rs' = held rs → delivered msgs cs rs → delivered msgs cs rs'.
Proof. intros Heq [rest Hrest]. exists rest. by rewrite Heq. Qed.

(** A call takes the response its channel holds: it has the identifier of the
    call, so the check succeeds. *)
Lemma for_request_check id r : for_request id r → check_response id r = Ok r.
Proof.
  unfold for_request, check_response, u32_de, int_de. destruct (rs_id r) as [v|]; simpl; [|done].
  destruct v as [| |[z|p|]| | |]; simpl; try done.
  destruct (_ && _); [|done]. intros [= ->]. by rewrite Z.eqb_refl.
Qed.

Lemma delivered_take msgs cs d n c ch r cl al :
  cs !! n = Some c → rchans d !! ch = Some (mkRchan (Some r) cl al) →
  delivered msgs cs (rchans d) →
  delivered msgs (<[n := move (CReturned (Ok r)) c]> cs) (rchans (take_response ch d)).
Proof.
  intros Hn Hch [rest Hrest].
  destruct (returned_insert cs n c (CReturned (Ok r)) Hn) as (o & Ho & Ho').
  destruct (held_replace _ _ _ (mkRchan None cl false) Hch) as (h & Hh & Hh').
  exists (result_of (at_pc c) ++ rest). simpl.
  replace (alter _ ch (rchans d)) with (<[ch := mkRchan None cl false]> (rchans d)).
  - rewrite Hrest, Ho, Ho', Hh, Hh'. simpl. solve_Permutation.
  - symmetry. apply map_eq. intros c'. destruct (decide (ch = c')) as [<-|Hne].
    + by rewrite lookup_alter_eq, lookup_insert_eq, Hch.
    + by rewrite lookup_alter_ne, lookup_insert_ne.
Qed.

Section inv.
Context (timeout : bool).
Context (decoder : Notification → result jsonrpc_error NotificationResult).

(** One step of the client, or a dropped call. *)
Definition any_step (s s' : client) : Prop := client_step timeout decoder s s' ∨ call_drop s s'.

Lemma inv_call x d s o i cs se re c :
  chan_of (at_pc c) = None → at_pc c = CBegin →
  client_inv (mkClient x d s o i cs se re) → client_inv (mkClient x d s o i (cs ++ [c]) se re).
Proof.
  intros Hc Hb [Hd [rest Hr] Hres]. simpl in *. split; simpl.
  - eapply disp_ok_sub; [done|]. intros n id ch (c' & Hc' & <- & Hch).
    apply lookup_snoc_Some in Hc' as [[_ ?]|[_ <-]]; [by eexists|congruence].
  - exists rest. rewrite Hr. unfold returned. rewrite omap_app. simpl. by rewrite Hb, app_nil_r.
  - intros n c' r [[_ ?]|[_ <-]]%lookup_snoc_Some Hr'; [by eapply Hres|congruence].
Qed.

(** A call moves without using the dispatcher. *)
Lemma inv_move x d s o i cs se re s' o' i' n c p :
  cs !! n = Some c → chan_of p = None ∨ chan_of p = chan_of (at_pc c) → result_of p = [] →
  (∀ r, p = CReturned r → result_ok (request_id c) r) →
  client_inv (mkClient x d s o i cs se re) →
  client_inv (mkClient x d s' o' i' (<[n := move p c]> cs) se re).
Proof.
  intros Hn Hp Hr Hok [Hd Hde Hres]. simpl in *.
  split; simpl; [by apply disp_move|by apply delivered_move|by apply results_move].
Qed.

Lemma inv_call_register x d s o i cs se re n c ch :
  cs !! n = Some c → at_pc c = CRegister → rchans d !! ch = None →
  client_inv (mkClient x d s o i cs se re) →
  client_inv (mkClient x (MessageDispatcher.register d (request_id c) ch) s o i
    (<[n := move (CSend ch) c]> cs) se re).
Proof.
  intros Hn Hp Hch [Hd Hde Hres]. simpl in *. split; simpl.
  - eapply disp_ok_sub; [by apply (disp_register _ (waits cs) n)|].
    intros m id ch' [(-> & -> & [= <-])|[_ ?]]%waits_move; [by right|by left|done].
  - apply delivered_move; [done..|]. destruct Hde as [rest Hr]. exists rest.
    rewrite held_insert, held_drop_sender; [done|]. by rewrite drop_sender_lookup, Hch.
  - by apply results_move.
Qed.

Lemma inv_response x d s o i cs se re n c ch r cl al :
  cs !! n = Some c → at_pc c = CWait ch → rchans d !! ch = Some (mkRchan (Some r) cl al) →
  client_inv (mkClient x d s o i cs se re) →
  client_inv (mkClient x (take_response ch d) s o i
    (<[n := move (CReturned (check_response (request_id c) r)) c]> cs) se re).
Proof.
  intros Hn Hp Hch [Hd Hde Hres]. simpl in *.
  assert (for_request (request_id c) r) as Hfor.
  { destruct Hd as [_ _ Hw _]. destruct (Hw n (request_id c) ch) as (b & ? & Hrc & _ & Hb).
    - exists c. by rewrite Hp.
    - rewrite Hch in Hrc. simplify_eq. by apply Hb. }
  rewrite for_request_check by done. split; simpl.
  - apply disp_move_leave; [done..|by rewrite Hp|done|done].
  - by eapply delivered_take.
  - apply results_move; [done| |done]. by intros ? [= <-].
Qed.

(** A call gives up, whatever it was waiting for. *)
Lemma inv_give_up x d s o i cs se re n c p (unreg : bool) :
  cs !! n = Some c → chan_of p = None → result_of p = [] →
  (∀ r, p = CReturned r → result_ok (request_id c) r) →
  client_inv (mkClient x d s o i cs se re) →
  client_inv (mkClient x (drop_receiver (chan_of (at_pc c))
      (if unreg then MessageDispatcher.unregister d (request_id c) else d)) s o i
    (<[n := move p c]> cs) se re).
Proof.
  intros Hn Hp Hr Hok [Hd Hde Hres]. simpl in *. set (d' := if unreg then _ else d).
  assert (disp_ok d' (waits cs)) as Hd' by (destruct unreg; [by apply disp_unregister|done]).
  assert (held (rchans d') = held (rchans d)) as Hh.
  { destruct unreg; [apply held_drop_sender|done]. }
  split; simpl; [|apply delivered_move; [done..|]|by apply results_move].
  - destruct (chan_of (at_pc c)) as [ch|] eqn:Hch; simpl.
    + by apply disp_move_leave.
    + by apply disp_move; [|left|].
  - eapply delivered_held; [|done]. by rewrite held_drop_receiver.
Qed.

Lemma inv_msg x d s o i cs se re msg r d' s' i' :
  handle_mux_msg decoder msg d s = (r, d', s') →
  client_inv (mkClient x d s o i cs se re) →
  client_inv (mkClient x d' s' o i' cs se (re ++ [msg])).
Proof.
  intros Hmsg [Hd Hde Hres]. simpl in *. unfold handle_mux_msg in Hmsg.
  assert (delivered (re ++ [msg]) cs (rchans d)) as Hde'.
  { destruct Hde as [rest Hr]. unfold delivered, responses_of in *. rewrite omap_app. simpl.
    destruct (from_value msg) as [[?|res]|]; rewrite ?app_nil_r; [by eexists| |by eexists].
    exists (res :: rest). rewrite Hr. solve_Permutation. }
  destruct (from_value msg) as [[nt|res]|] eqn:Hv; [|destruct (MessageDispatcher.dispatch d res)
    as [r0 d0] eqn:Hdis; injection Hmsg as <- <- <-|by simplify_eq].
  - destruct (decoder nt); [destruct (Subscriptions.notify _ _)|]; by simplify_eq.
  - split; simpl; [by eapply disp_dispatch| |done].
    by eapply delivered_dispatch; [apply Hd|..].
Qed.

(** The invariant speaks of the dispatcher, the calls and what was received. *)
Lemma inv_same s s' :
  dispatcher s' = dispatcher s → calls s' = calls s → received s' = received s →
  client_inv s → client_inv s'.
Proof. intros Hd Hc Hr [H1 H2 H3]. split; by rewrite ?Hd, ?Hc, ?Hr. Qed.

Lemma any_step_inv s s' : client_inv s → any_step s s' → client_inv s'.
Proof.
  intros Hinv [Hstep|Hstep]; [|destruct Hstep; by apply (inv_give_up _ _ _ _ _ _ _ _ _ _ _ false)].
  destruct Hstep as [
    |? s0 o i|? s0 o i| |? ? s0 o i cs se re n c ch Hn Hp|
    |? ? ? ? ? ? ? ? ? c ch ? ? Hp|? ? ? ? ? ? ? ? ? c ch ? Hp|? ? s0 o i|? ? s0 o i
    | | | | | | | |]; try (by eapply inv_same; [..|exact Hinv]).
  - by apply inv_call.
  - apply inv_move with s0 o i; try done. by left.
  - apply inv_move with s0 o i; try done; [by left|]. intros ? [= <-]. set_solver.
  - by apply inv_call_register.
  - apply inv_move with s0 o i; try done. right. by rewrite Hp.
  - by eapply inv_response.
  - replace (Some ch) with (chan_of (at_pc c)) by (by rewrite Hp).
    apply (inv_give_up _ _ _ _ _ _ _ _ _ _ _ true); try done. intros ? [= <-]. set_solver.
  - replace (Some ch) with (chan_of (at_pc c)) by (by rewrite Hp).
    apply (inv_give_up _ _ _ _ _ _ _ _ _ _ _ true); try done. intros ? [= <-]. set_solver.
  - apply inv_move with s0 o i; try done. by left.
  - apply inv_move with s0 o i; try done. by left.
  - by eapply inv_msg.
  - destruct Hinv as [Hd Hde Hres]. split; simpl; [by apply disp_clear| |done].
    eapply delivered_held; [apply held_clear|done].
Qed.

Lemma client_inv_reachable size s : rtc any_step (new_client size) s → client_inv s.
Proof.
  assert (client_inv (new_client size)) as Hnew.
  { split; simpl.
    - split; simpl; [by intros; simplify_map_eq..| |]; by intros * (? & ? & ?).
    - by exists [].
    - by intros n ? ? ?. }
  intros Hrtc. revert Hnew. induction Hrtc; eauto using any_step_inv.
Qed.

(** ** Calls that wait *)

(** A call can go on to return. *)
Definition can_return (s : client) (n : nat) : Prop :=
  ∃ s' c r, rtc (client_step timeout decoder) s s' ∧ calls s' !! n = Some c ∧ at_pc c = CReturned r.

Lemma moved (cs : list call) n c p : cs !! n = Some c → <[n := move p c]> cs !! n = Some (move p c).
Proof. intros Hn. apply list_lookup_insert_eq. by eapply lookup_lt_Some. Qed.

(** It returns at once when its channel holds its response or is closed. *)
Lemma ready_returns s n c ch rc :
  calls s !! n = Some c → at_pc c = CWait ch → rchans (dispatcher s) !! ch = Some rc →
  is_Some (rc_buf rc) ∨ rc_closed rc = true → can_return s n.
Proof.
  destruct s as [x d sb o i cs se re], rc as [[r|] cl al]; simpl; intros Hn Hp Hrc Hor.
  - eexists _, _, _. split_and!; [apply rtc_once; by eapply step_response|by apply moved|done].
  - destruct Hor as [ [? [=]] | -> ].
    eexists _, _, _. split_and!; [apply rtc_once; by eapply step_recv_failed|by apply moved|done].
Qed.

Definition closed (rs : gmap nat rchan) (ch : nat) : Prop :=
  ∃ rc, rs !! ch = Some rc ∧ rc_closed rc = true.

Lemma closed_returns s n c ch :
  calls s !! n = Some c → at_pc c = CWait ch → closed (rchans (dispatcher s)) ch → can_return s n.
Proof. intros Hn Hp (rc & Hrc & Hcl). eapply ready_returns; eauto. Qed.

(** The end of the background task closes the channels of the registered calls. *)
Lemma clear_closes d W n id ch :
  disp_ok d W → W n id ch → closed (rchans (MessageDispatcher.clear d)) ch.
Proof.
  intros Hok HW. destruct (disp_waits _ _ (disp_clear d W Hok) n id ch HW) as (b & cl & Hrc & Hcl & _).
  exists (mkRchan b cl true). split; [done|]. destruct cl; [done|]. by specialize (Hcl eq_refl).
Qed.

Lemma waits_at s n c ch :
  calls s !! n = Some c → chan_of (at_pc c) = Some ch → waits (calls s) n (request_id c) ch.
Proof. intros Hn Hp. by exists c. Qed.

Lemma io_finishes s n c ch :
  client_inv s → calls s !! n = Some c → at_pc c = CWait ch → io s ≠ IoDone → can_return s n.
Proof.
  intros [Hd _ _] Hn Hp Hio.
  assert (∃ x sb, rtc (client_step timeout decoder) s (mkClient x (MessageDispatcher.clear (dispatcher s)) sb
    (outbound s) IoDone (calls s) (sent s) (received s))) as (x & sb & Hrun).
  { destruct s as [x d sb o i cs se re]; simpl in *.
    destruct i; [..|done]; eexists _, _;
      repeat first [eapply rtc_l; [first [apply step_io_end|apply step_io_disconnect
        |apply step_io_clear_subs|apply step_io_clear_calls]|]|apply rtc_refl]. }
  match type of Hrun with rtc _ _ ?t => assert (can_return t n) as (s' & c' & r & Hrun' & ? & ?) end.
  { eapply closed_returns; [exact Hn|exact Hp|]. eapply clear_closes; [exact Hd|].
    eapply waits_at; [done|]. by rewrite Hp. }
  exists s', c', r. by split; [etrans|].
Qed.

Lemma timeout_returns s n c ch :
  calls s !! n = Some c → at_pc c = CWait ch → timeout = true → can_return s n.
Proof.
  destruct s as [x d sb o i cs se re]; simpl. intros Hn Hp Ht.
  eexists _, _, _. split_and!; [apply rtc_once; by eapply step_timeout|by apply moved|done].
Qed.

(** Calls that registered before the background task was over: once it is, their
    channels are closed. *)
Definition past (p : call_pc) : bool := match p with CBegin | CRegister => false | _ => true end.

Definition in_time (cs : list call) (i : io_state) (rs : gmap nat rchan) (n ch : nat) : Prop :=
  ∃ c, cs !! n = Some c ∧ past (at_pc c) = true ∧
    (chan_of (at_pc c) = Some ch → i = IoDone → closed rs ch).

Lemma in_time_move cs i rs rs' n ch m c p :
  cs !! m = Some c →
  (past (at_pc c) = true → past p = true ∧ (chan_of p = None ∨ chan_of p = chan_of (at_pc c))) →
  (closed rs ch → closed rs' ch) →
  in_time cs i rs n ch → in_time (<[m := move p c]> cs) i rs' n ch.
Proof.
  intros Hm Hp Hcl (c0 & Hn & Hpast & Hc). destruct (decide (m = n)) as [->|Hne].
  - rewrite Hm in Hn. injection Hn as <-. destruct (Hp Hpast) as [Hpast' Hch]. exists (move p c). split_and!; [by apply moved|done|].
    simpl. intros Hch' ->. apply Hcl, Hc; [|done]. destruct Hch as [Hch|Hch]; congruence.
  - exists c0. rewrite list_lookup_insert_ne by done. split_and!; [done..|]. auto.
Qed.

Lemma closed_drop_sender o rs ch : closed rs ch → closed (MessageDispatcher.drop_sender o rs) ch.
Proof.
  intros (rc & Hrc & Hcl). eexists. rewrite drop_sender_lookup, Hrc. split; [done|]. simpl. by rewrite Hcl.
Qed.

Lemma closed_alter f c rs ch :
  (∀ rc, rc_closed (f rc) = rc_closed rc) → closed rs ch → closed (alter f c rs) ch.
Proof.
  intros Hf (rc & Hrc & Hcl). destruct (decide (c = ch)) as [->|Hne].
  - exists (f rc). by rewrite lookup_alter_eq, Hrc, Hf.
  - exists rc. by rewrite lookup_alter_ne.
Qed.

Lemma closed_insert c rc rs ch : rs !! c = None → closed rs ch → closed (<[c := rc]> rs) ch.
Proof. intros Hc (rc' & Hrc & Hcl). exists rc'. rewrite lookup_insert_ne; [done|]. congruence. Qed.

Ltac pc_eq := match goal with H : at_pc _ = _ |- _ => rewrite H end.

Lemma in_time_step s s' n ch :
  client_inv s → any_step s s' → in_time (calls s) (io s) (rchans (dispatcher s)) n ch →
  in_time (calls s') (io s') (rchans (dispatcher s')) n ch.
Proof.
  intros Hinv Hs Hk. destruct Hs as [Hs|Hs].
  - destruct Hs; simpl in *; try done;
      try (destruct Hk as (c0 & ? & ? & ?); exists c0; by split_and!).
    + destruct Hk as (c0 & ? & ? & ?). exists c0. by rewrite lookup_app_l by (by eapply lookup_lt_Some).
    + eapply in_time_move; [done| |done|done]. by pc_eq.
    + eapply in_time_move; [done| |done|done]. by pc_eq.
    + eapply in_time_move; [done| | |done]; [by pc_eq|]. intros ?%(closed_drop_sender (chans d !! request_id c)).
      apply closed_insert; [|done]. rewrite drop_sender_lookup. by match goal with H : rchans d !! _ = None |- _ => rewrite H end.
    + eapply in_time_move; [done| |done|done]. pc_eq. by auto.
    + eapply in_time_move; [done| | |done]; [by auto|]. by apply closed_alter.
    + eapply in_time_move; [done| | |done]; [by auto|]. intros ?. by apply closed_alter, closed_drop_sender.
    + eapply in_time_move; [done| | |done]; [by auto|]. intros ?. by apply closed_alter, closed_drop_sender.
    + eapply in_time_move; [done| |done|done]. by auto.
    + eapply in_time_move; [done| |done|done]. by auto.
    + destruct Hk as (c0 & ? & ? & _). exists c0. split_and!; [done..|]. by destruct r as [|[]].
    + destruct Hk as (c0 & ? & ? & _). exists c0. split_and!; [done..|]. intros Hch _.
      eapply clear_closes; [apply (cl_disp _ Hinv)|]. by eapply (waits_at (mkClient x d s o IoSubsCleared cs se re)).
  - destruct Hs; simpl in *. eapply in_time_move; [done| | |done]; [by auto|].
    unfold drop_receiver. destruct (chan_of _); [by apply closed_alter|done].
Qed.

Lemma in_time_run s s' n ch :
  client_inv s → rtc any_step s s' → in_time (calls s) (io s) (rchans (dispatcher s)) n ch →
  client_inv s' ∧ in_time (calls s') (io s') (rchans (dispatcher s')) n ch.
Proof. intros Hinv Hrun. induction Hrun; eauto using any_step_inv, in_time_step. Qed.

Lemma in_time_returns s n c ch :
  client_inv s → in_time (calls s) (io s) (rchans (dispatcher s)) n ch →
  calls s !! n = Some c → at_pc c = CWait ch → can_return s n.
Proof.
  intros Hinv (c' & Hn' & _ & Hcl) Hn Hp. simplify_eq. rewrite Hp in Hcl. specialize (Hcl eq_refl).
  destruct (io s) eqn:Hio; [eapply io_finishes; [done..|by rewrite Hio]..|].
  eapply closed_returns; [done..|by apply Hcl].
Qed.

(** A response that arrives for a registered call is the one it returns. *)
Lemma response_returned s n c ch msg r :
  client_inv s → io s = IoRunning → calls s !! n = Some c → at_pc c = CWait ch →
  chans (dispatcher s) !! request_id c = Some ch →
  from_value msg = Some (MsgResponse r) → for_request (request_id c) r →
  ∃ s1 s2, client_step timeout decoder s s1 ∧ client_step timeout decoder s1 s2 ∧
    received s1 = received s ++ [msg] ∧ calls s2 !! n = Some (move (CReturned (Ok r)) c).
Proof.
  destruct s as [x d sb o i cs se re]; simpl. intros Hinv -> Hn Hp Hreg Hmsg Hfor.
  destruct (disp_waits _ _ (cl_disp _ Hinv) n (request_id c) ch) as (b & cl & Hrc & _);
    [apply waits_at; [done|by rewrite Hp]|]. simpl in *.
  set (d' := mkDispatcher (delete (request_id c) (chans d)) (<[ch := mkRchan (Some r) true true]> (rchans d))).
  assert (handle_mux_msg decoder msg d sb = (Ok (), d', sb)) as Hh.
  { unfold handle_mux_msg, MessageDispatcher.dispatch, for_request in *. rewrite Hmsg.
    destruct (rs_id r) as [v|]; simpl in Hfor; [|done]. by rewrite Hfor, Hreg, Hrc. }
  eexists _, _. split_and!; [by eapply step_io_msg| |done|].
  - eapply (step_response _ _ x d' _ _ _ cs _ _ n c ch r true true); [done..|apply lookup_insert_eq].
  - simpl. rewrite for_request_check by done. by apply moved.
Qed.

(** C13: Every caller gets its own response.  Whatever the server sends, in
    whatever order the calls proceed, and however the background task ends: a
    call that returns a response returns one that was received, with the
    identifier of its request; no received response is returned by two calls;
    any other outcome is a disconnected client, a closed channel or a timeout.
    The channel of a call that waits holds its response, or is closed, or is
    registered under its identifier, and then a response with this identifier
    that arrives is the one it returns.  A call that registered before the
    background task had cleared the dispatcher can return whenever it waits, and
    with a timeout every call that waits can. *)
Theorem client_calls_answered size s :
  rtc any_step (new_client size) s →
  (∀ n c r, calls s !! n = Some c → at_pc c = CReturned r → result_ok (request_id c) r) ∧
  returned (calls s) ⊆+ responses_of (received s) ∧
  (∀ n c ch, calls s !! n = Some c → at_pc c = CWait ch →
    (timeout = true → can_return s n) ∧
    ∃ rc, rchans (dispatcher s) !! ch = Some rc ∧
      (is_Some (rc_buf rc) ∨ rc_closed rc = true ∨
        chans (dispatcher s) !! request_id c = Some ch ∧
        ∀ msg r, io s = IoRunning → from_value msg = Some (MsgResponse r) → for_request (request_id c) r →
          ∃ s1 s2, client_step timeout decoder s s1 ∧ client_step timeout decoder s1 s2 ∧
            received s1 = received s ++ [msg] ∧ calls s2 !! n = Some (move (CReturned (Ok r)) c))) ∧
  (∀ n c ch s' c', calls s !! n = Some c → chan_of (at_pc c) = Some ch → io s ≠ IoDone →
    rtc any_step s s' → calls s' !! n = Some c' → at_pc c' = CWait ch → can_return s' n).
Proof.
  intros Hinv%client_inv_reachable. pose proof Hinv as [[_ _ Hw _] [rest Hr] Hres]. split_and!; [done| | |].
  - rewrite Hr. apply submseteq_inserts_r. done.
  - intros n c ch Hn Hp. split; [by eapply timeout_returns|].
    destruct (Hw n (request_id c) ch) as (b & cl & Hrc & Hcl & _); [exists c; by rewrite Hp|].
    eexists. split; [done|]. simpl. destruct cl; [by right; left|]. right; right.
    specialize (Hcl eq_refl). split; [done|]. intros. by eapply response_returned.
  - intros n c ch s' c' Hn Hch Hio Hrun Hn' Hp'.
    destruct (in_time_run s s' n ch) as [Hinv' Hk]; [done..| |by eapply in_time_returns].
    exists c. split_and!; [done|by destruct (at_pc c)|done].
Qed.

(** ** A call that registers too late *)

(** The steps without new calls. *)
Definition old_step (s s' : client) : Prop :=
  client_step timeout decoder s s' ∧ length (calls s') = length (calls s).

(** A call that registered after the background task was over. *)
Record late_call (s : client) (n : nat) (c : call) (ch : nat) : Prop := {
  late_inv : client_inv s;
  late_io : io s = IoDone;
  late_waits : calls s !! n = Some c ∧ at_pc c = CWait ch;
  late_registered : chans (dispatcher s) !! request_id c = Some ch;
  late_others m c' : calls s !! m = Some c' → m ≠ n → request_id c' ≠ request_id c;
}.

Lemma late_open s n c ch : late_call s n c ch → ∃ al, rchans (dispatcher s) !! ch = Some (mkRchan None false al).
Proof. intros [[[H1 _ _ _] _ _] _ _ Hreg _]. by apply H1 in Hreg. Qed.

(** Nothing the other calls do reaches its channel. *)
Lemma late_chans s s' n c ch :
  late_call s n c ch → timeout = false → old_step s s' →
  io s' = IoDone ∧ calls s' !! n = Some c ∧ chans (dispatcher s') !! request_id c = Some ch ∧
  (∀ m c', calls s' !! m = Some c' → m ≠ n → request_id c' ≠ request_id c).
Proof.
  intros Hl Ht [Hs Hlen]. pose proof (late_open _ _ _ _ Hl) as [al Hal].
  destruct Hl as [[Hd _ _] Hio [Hn Hp] Hreg Hoth].
  assert (∀ m c' p, calls s !! m = Some c' → at_pc c' ≠ at_pc c →
    <[m := move p c']> (calls s) !! n = Some c ∧ request_id c' ≠ request_id c ∧
    ∀ k c2, <[m := move p c']> (calls s) !! k = Some c2 → k ≠ n → request_id c2 ≠ request_id c) as Hmv.
  { intros m c' p Hm Hpc. assert (m ≠ n) as Hne by congruence.
    split_and!; [by rewrite list_lookup_insert_ne|by eapply Hoth|].
    intros k c2 [(-> & <- & _)|[_ Hk]]%list_lookup_insert_Some ?; simpl; by eapply Hoth. }
  destruct Hs; simpl in *; try done; simplify_eq/=;
    try (edestruct Hmv as (? & ? & ?); [done|congruence|by split_and!]).
  - rewrite length_app in Hlen. simpl in Hlen. lia.
  - edestruct (Hmv n0) as (? & ? & ?); [done|congruence|]. rewrite lookup_insert_ne by done. by split_and!.
  - edestruct (Hmv n0) as (? & ? & ?); [done|congruence|]. rewrite lookup_delete_ne by done. by split_and!.
Qed.

Lemma late_step s s' n c ch : late_call s n c ch → timeout = false → old_step s s' → late_call s' n c ch.
Proof.
  intros Hl Ht Hs. destruct (late_chans s s' n c ch Hl Ht Hs) as (? & ? & ? & ?).
  split; [|done|by split; [|apply Hl]|done|done]. eapply any_step_inv; [apply Hl|]. left. apply Hs.
Qed.

(** A call that registers too late waits for ever.  A call looks whether the client is
    disconnected before it registers.  When the background task ends and clears the
    dispatcher in between, nobody is left to close the channel of the call: without
    a timeout it waits in every continuation in which no new call takes its
    identifier. *)
Theorem client_late_call_waits size :
  timeout = false →
  ∃ s n c ch, rtc (client_step timeout decoder) (new_client size) s ∧ disconnect s = true ∧
    calls s !! n = Some c ∧ at_pc c = CWait ch ∧ ∀ s', rtc old_step s s' → calls s' !! n = Some c.
Proof.
  intros Ht. set (c0 := mkCall KCall 1 (to_value (new_request 1 "Calc.inc" VNull)) CBegin).
  assert (∃ s, rtc (client_step timeout decoder) (new_client size) s ∧ disconnect s = true ∧
    late_call s 0 (move (CWait 0) c0) 0) as (s & Hrun & Hx & Hl).
  { eexists. assert (∀ P Q : Prop, P → (P → Q) → P ∧ Q) as Hboth by tauto. apply Hboth.
    - eapply rtc_l; [by apply (step_call _ _ _ _ _ _ _ _ _ _ KCall 1 "Calc.inc" VNull)|]; simpl.
      eapply rtc_l; [by apply (step_check _ _ _ _ _ _ _ _ _ 0 c0)|]; simpl.
      eapply rtc_l; [apply step_io_end|]. eapply rtc_l; [apply step_io_disconnect|].
      eapply rtc_l; [apply step_io_clear_subs|]. eapply rtc_l; [apply step_io_clear_calls|].
      eapply rtc_l; [by apply (step_register _ _ _ _ _ _ _ _ _ _ 0 (move CRegister c0) 0)|]; simpl.
      apply rtc_once. apply (step_send _ _ _ _ _ _ _ _ _ _ 0 (move (CSend 0) c0) 0); [done..|vm_compute; lia].
    - intros Hrun. split; [done|]. split; [|done|done| |].
      + eapply (client_inv_reachable size), rtc_subrel; [|exact Hrun]. intros ? ?. by left.
      + apply lookup_insert_eq.
      + intros [|m] c'; simpl; [done|]. by rewrite lookup_nil. }
  exists s, 0, (move (CWait 0) c0), 0. split_and!; [done..|apply Hl|done|]. intros s' Hs.
  assert (late_call s' 0 (move (CWait 0) c0) 0) as Hl'; [|by apply Hl'].
  clear Hrun Hx. induction Hs as [|s1 s2 s3 Hs _ IH]; [done|]. by apply IH, (late_step s1).
Qed.


End inv.
