(* ===== verification/JsonRpcExchange.v ===== *)
(** * Calls between the JSON-RPC client and server

    A call through the wire format of both sides gives what the method of the
    server returned, its error, or the error for an unknown method, with one
    exception: a [null] result reaches the caller as a missing one.  Runs of
    the client then show where a call or a notification is lost, and the
    witnesses of the JSON-RPC theorems follow. *)

From S2P Require Import Prelude Codec Endpoint Framed Json.
From S2P Require Import JsonRpcServer JsonRpcServerSpec JsonRpcClient JsonRpcClientSpec.

Local Open Scope Z_scope.

(** ** Calls *)

Definition full_name (svc m : string) : string := (svc +:+ "." +:+ m)%string.

(** What the method [svc.m] gives, or the error of a method that is not there. *)
Definition method_outcome (cfg : ServerConfig) (svc m : string) (params : Value) :
    poll (result RPCError Value) :=
  match resolve_handler cfg svc m false with
  | HRpc method => method params
  | _ => Ready (Err (CustomError METHOD_NOT_FOUND_ERROR_CODE METHOD_NOT_FOUND_ERROR_MSG))
  end.

Definition error_of (e : RPCError) : ErrorObj :=
  from_option id (mkErrorObj 0 EmptyString None) (rs_error (to_response e None None)).

(** What the caller gets for it. *)
Definition caller_outcome {V} `{Deserialize V} (out : result RPCError Value) :
    result jsonrpc_error V :=
  match out with
  | Ok VNull => Err (JInvalidMsg "Invalid response result")
  | Ok v => ok_or (from_value v) ParseJSON
  | Err e => Err (CallError (code (error_of e)) (message (error_of e)))
  end.

Definition outcome_wf (out : result RPCError Value) : Prop :=
  match out with Err (CustomError c _) => is_i32 c | _ => True end.

(** A response is not taken for a notification. *)
Lemma NewMsg_response r :
  Response_wf r → from_value (to_value r) = Some (MsgResponse (wire_response r)).
Proof.
  intros Hr. unfold from_value at 1, NewMsg_de. rewrite Response_roundtrip by done.
  assert (from_value (T := Notification) (to_value r) = None) as ->; [|done].
  destruct r as [j i re e]. unfold from_value, Notification_de, to_value, Response_ser.
  by destruct i, re, e.
Qed.

Lemma outcome_response_wf id out : outcome_wf out → Response_wf (outcome_response id out).
Proof.
  unfold outcome_wf, Response_wf, is_i32. by destruct out as [v|[]].
Qed.

(** The server runs the method with the parameters of the caller. *)
Lemma handle_request_call cfg chan svc m id params :
  no_dot svc →
  resolve_handler cfg svc m (bool_decide (is_Some chan)) = resolve_handler cfg svc m false →
  (∀ g, resolve_handler cfg svc m false ≠ HPubsub g) →
  handle_request cfg chan (to_value (new_request id (full_name svc m) params)) =
    (poll_map (outcome_response (Some (int_ser id))) (method_outcome cfg svc m params), chan).
Proof.
  intros Hd Hres Hno. unfold handle_request, method_outcome.
  rewrite (sanity_check_request _ svc m) by done. cbn [srvc_name method_name].
  rewrite Hres. simpl. replace (from_option _ VNull (wire_opt (Some params))) with params
    by (by destruct params).
  destruct (resolve_handler cfg svc m false) as [g| |] eqn:Hh; [by destruct (Hno g)|done..].
Qed.

Lemma for_request_int id r : is_u32 id → rs_id r = Some (int_ser id) → for_request id r.
Proof. unfold for_request. intros Hid ->. by apply int_roundtrip. Qed.

(** C14: A call does what it says.  A call of a method goes through the request
    the client builds, the server's dispatch, the response on the wire and the
    client's checks; the caller gets the value the method returned, its error
    code and message, or the error for a method that is not there.  Only a
    [null] result does not arrive: the caller gets an error for it. *)
Theorem jsonrpc_call_exact {V} `{Deserialize V} cfg chan svc m id params out :
  is_u32 id → no_dot svc → outcome_wf out →
  resolve_handler cfg svc m (bool_decide (is_Some chan)) = resolve_handler cfg svc m false →
  method_outcome cfg svc m params = Ready out →
  ∃ resp r,
    handle_request cfg chan (to_value (new_request id (full_name svc m) params)) =
      (Ready resp, chan) ∧
    from_value (to_value resp) = Some (MsgResponse r) ∧ check_response id r = Ok r ∧
    call_result r = caller_outcome (V := V) out.
Proof.
  intros Hid Hd Hwf Hres Hout. set (resp := outcome_response (Some (int_ser id)) out).
  exists resp, (wire_response resp). split_and!.
  - rewrite handle_request_call, Hout by (done || unfold resolve_handler; simpl; by case_match).
    done.
  - by apply NewMsg_response, outcome_response_wf.
  - by apply for_request_check, for_request_int; [|destruct out as [v|[]]].
  - by destruct out as [[]|[]].
Qed.

(** ** Calls that wait forever *)

Section hangs.
Context (timeout : bool) (decoder : Notification → result jsonrpc_error NotificationResult).
Notation step := (client_step timeout decoder).

(** While the client is connected, a new call gets as far as its send. *)
Lemma new_call_sends s :
  disconnect s = false →
  ∃ s' n c ch, rtc step s s' ∧ calls s' !! n = Some c ∧ at_pc c = CSend ch ∧
    disconnect s' = false ∧ io s' = io s ∧ outbound s' = outbound s.
Proof.
  destruct s as [x d sb o i cs se re]. simpl. intros ->.
  set (c := mkCall KCall 0 (to_value (new_request 0 "m" VNull)) CBegin).
  set (n := length cs). set (ch := fresh (dom (rchans d))).
  assert (∀ c', (cs ++ [c']) !! n = Some c') as Hn.
  { intros c'. unfold n. by apply list_lookup_middle. }
  assert (∀ c' c'', <[n := c'']> (cs ++ [c']) = cs ++ [c'']) as Hins.
  { intros c' c''. unfold n. by rewrite insert_app_r_alt, Nat.sub_diag. }
  exists (mkClient false (MessageDispatcher.register d 0 ch) sb o i
    (cs ++ [move (CSend ch) c]) se re), n, (move (CSend ch) c), ch.
  split_and!; simpl; [|apply Hn|done..].
  eapply rtc_l; [apply (step_call _ _ _ _ _ _ _ _ _ _ KCall 0 "m" VNull); done|]. fold c.
  eapply rtc_l; [by eapply (step_check _ _ _ _ _ _ _ _ _ n c)|]. rewrite Hins.
  eapply rtc_l; [eapply (step_register _ _ _ _ _ _ _ _ _ _ n (move CRegister c) ch)|].
  - apply Hn.
  - done.
  - apply not_elem_of_dom, is_fresh.
  - rewrite Hins. apply rtc_refl.
Qed.

Lemma outbound_fills size k :
  (k ≤ OUTBOUND_BUFFER_SIZE)%nat →
  ∃ s, rtc step (new_client size) s ∧ disconnect s = false ∧ io s = IoRunning ∧
    length (outbound s) = k.
Proof.
  induction k as [|k IH]; intros Hk; [by exists (new_client size)|].
  destruct IH as (s & Hs & Hx & Hio & Hlen); [lia|].
  destruct (new_call_sends s Hx) as (s' & n & c & ch & Hs' & Hn & Hc & Hx' & Hio' & Ho).
  destruct s' as [x d sb o i cs se re]. simpl in *. subst.
  exists (mkClient false d sb (outbound s ++ [request c]) (io s) (<[n := move (CWait ch) c]> cs) se re).
  simpl. rewrite length_app. simpl. split_and!; [|done..|lia].
  etrans; [done|]. eapply rtc_r; [done|]. apply step_send; [done..|lia].
Qed.

(** Nobody takes a request out of the channel any more. *)
Lemma stuck_step s s' n c ch :
  io s = IoDone → length (outbound s) = OUTBOUND_BUFFER_SIZE →
  calls s !! n = Some c → at_pc c = CSend ch → step s s' →
  io s' = IoDone ∧ length (outbound s') = OUTBOUND_BUFFER_SIZE ∧ calls s' !! n = Some c.
Proof.
  intros Hio Ho Hn Hc Hstep.
  assert (∀ m (cs : list call) p c', cs !! m = Some c' → at_pc c' ≠ at_pc c → cs !! n = Some c →
    <[m := move p c']> cs !! n = Some c) as Hins.
  { intros m cs p c' Hm Hne Hc'. rewrite list_lookup_insert_ne; [done|]. naive_solver. }
  destruct Hstep; simpl in *; try done; split_and!; try done;
    try (apply Hins; congruence); try (exfalso; lia).
  by apply lookup_app_l_Some.
Qed.

(** A call can wait forever, whatever its timeout.  The timeout starts
    after the request is in the outbound channel, and nothing closes that
    channel: when the background task ends while the channel is full, a call
    that waits to send stays there, in every continuation. *)
Theorem client_send_hangs size :
  ∃ s n c ch, rtc step (new_client size) s ∧ disconnect s = true ∧
    calls s !! n = Some c ∧ at_pc c = CSend ch ∧
    ∀ s', rtc step s s' → calls s' !! n = Some c.
Proof.
  destruct (outbound_fills size OUTBOUND_BUFFER_SIZE) as (s & Hs & Hx & Hio & Hlen); [done|].
  destruct (new_call_sends s Hx) as (s' & n & c & ch & Hs' & Hn & Hc & Hx' & Hio' & Ho).
  destruct s' as [x d sb o i cs se re]. simpl in *. subst x i o. rewrite Hio in *.
  exists (mkClient true (MessageDispatcher.clear d) (Subscriptions.clear sb) (outbound s) IoDone cs se re),
    n, c, ch. split_and!; simpl; try done.
  - etrans; [done|]. etrans; [done|].
    eapply rtc_l; [apply step_io_end|]. eapply rtc_l; [apply step_io_disconnect|].
    eapply rtc_l; [apply step_io_clear_subs|]. eapply rtc_l; [apply step_io_clear_calls|].
    apply rtc_refl.
  - intros s2 Hrtc. remember (mkClient true _ _ _ _ _ _ _) as s1 eqn:Hs1.
    assert (io s1 = IoDone ∧ length (outbound s1) = OUTBOUND_BUFFER_SIZE ∧
      calls s1 !! n = Some c) as Hst by (by subst).
    clear Hs1. induction Hrtc as [|s1 s3 s2 Hst' _ IH]; [naive_solver|].
    apply IH. destruct Hst as (? & ? & ?). by eapply stuck_step.
Qed.

End hangs.

(** ** Early notifications *)

Definition grant : Value :=
  to_value (mkResponse JSONRPC_VERSION (Some (int_ser 1)) (Some (int_ser 7)) None).
Definition early : Value :=
  to_value (default_notification_encoder (mkNewNotification 7 (VBool true) "S.n")).

Definition sub_call (p : call_pc) : call :=
  mkCall KSubscribe 1 (to_value (new_request 1 "S.sub" VNull)) p.

(** The client before and after the notification, and when [subscribe] returned. *)
Definition granted : client :=
  mkClient false (mkDispatcher ∅ {[0%nat := mkRchan (Some (mkResponse JSONRPC_VERSION
      (Some (int_ser 1)) (Some (int_ser 7)) None)) true true]})
    (Subscriptions.new 5) [] IoRunning [sub_call (CWait 0)] [request (sub_call CBegin)] [grant].
Definition after_early : client :=
  mkClient false (dispatcher granted) (subscriptions granted) [] IoRunning (calls granted)
    (sent granted) [grant; early].
Definition subscribed : client :=
  mkClient false (mkDispatcher ∅ {[0%nat := mkRchan None true false]})
    (mkSubscriptions {[7 := 0%nat]} {[0%nat := mkSubscription [] false]} 5) [] IoRunning
    [sub_call (CSubscribed 7 0)] (sent granted) [grant; early].

Lemma client_early_run timeout :
  let step := client_step timeout default_notification_decoder in
  rtc step (new_client 5) granted ∧ step granted after_early ∧ rtc step after_early subscribed.
Proof.
  intros step. split_and!.
  - eapply rtc_l; [by apply (step_call _ _ _ _ _ _ _ _ _ _ KSubscribe 1 "S.sub" VNull)|]; simpl.
    eapply rtc_l; [by eapply (step_check _ _ _ _ _ _ _ _ _ 0%nat)|]; simpl.
    eapply rtc_l; [by eapply (step_register _ _ _ _ _ _ _ _ _ _ 0%nat _ 0%nat)|]; simpl.
    eapply rtc_l; [eapply (step_send _ _ _ _ _ _ _ _ _ _ 0%nat); [done..|vm_compute; lia]|]; simpl.
    eapply rtc_l; [apply step_io_write|]; simpl.
    apply rtc_once. by apply (step_io_msg _ _ false _ _ _ _ _ [] grant (Ok ())
      (dispatcher granted) (subscriptions granted)).
  - by apply (step_io_msg _ _ false _ _ _ _ _ [grant] early
      (Err (JInvalidMsg "Unknown notification")) (dispatcher granted) (subscriptions granted)).
  - set (r := mkResponse JSONRPC_VERSION (Some (int_ser 1)) (Some (int_ser 7)) None).
    set (c := sub_call (CReturned (Ok r))).
    assert (step after_early (mkClient false (dispatcher subscribed) (Subscriptions.new 5) []
      IoRunning [c] (sent granted) [grant; early])) as H1.
    { apply (step_response _ _ false (dispatcher granted) _ _ _ [sub_call (CWait 0)] _ _
        0%nat (sub_call (CWait 0)) 0%nat r true true); reflexivity. }
    eapply rtc_l; [exact H1|]. apply rtc_once.
    apply (step_subscribed _ _ false _ (Subscriptions.new 5) _ _ [c] _ _ 0%nat c r 7 0%nat);
      reflexivity.
Qed.

(** A notification can come too early.  The background task may handle a
    notification after the response that grants the subscription, but before
    the caller has registered the subscription: it is dropped as unknown, and
    the subscription the caller then holds never gets it. *)
Theorem client_early_notification_lost timeout :
  let step := client_step timeout default_notification_decoder in
  rtc step (new_client 5) granted ∧ step granted after_early ∧ rtc step after_early subscribed ∧
  received after_early = received granted ++ [early] ∧
  (∃ nt, from_value early = Some (MsgNotification nt) ∧
    default_notification_decoder nt = Ok (mkNotificationResult (Some (VBool true)) 7)) ∧
  handle_mux_msg default_notification_decoder early (dispatcher granted) (subscriptions granted) =
    (Err (JInvalidMsg "Unknown notification"), dispatcher granted, subscriptions granted) ∧
  schans (subscriptions subscribed) !! 0%nat = Some (mkSubscription [] false).
Proof.
  intros step. destruct (client_early_run timeout) as (? & ? & ?).
  split_and!; try done.
  exists (default_notification_encoder (mkNewNotification 7 (VBool true) "S.n")).
  split; vm_compute; reflexivity.
Qed.

(** ** The codec on a stream *)

Section codec.
Context `{JsonTextLaws} (c : JsonCodec.t) (v : Value) (text : list Z).
Hypothesis v_delimited : delimited v.
Hypothesis v_text : to_json v = Some text.

(** The JSON codec delimits messages, within its limit.  A complete message
    decodes to its value and its length whatever follows it, and a strict
    prefix of one asks for more, as long as the buffer is within the limit.
    The limit is on the buffer, not on the message: when one read brings a
    message within the limit and the start of the next one, and both together
    exceed it, the message is not delivered and the connection fails. *)
Theorem json_codec_limit :
  (∀ rest, len (text ++ rest) ≤ JsonCodec.max_size c →
    JsonCodec.decode c (mkBuffer (text ++ rest)) = Ok (Some (len text, v))) ∧
  (∀ p q, text = p ++ q → q ≠ [] → len p ≤ JsonCodec.max_size c →
    JsonCodec.decode c (mkBuffer p) = Ok None) ∧
  (∀ rest chunk pe le, text ≠ [] → len text ≤ JsonCodec.max_size c < len (text ++ rest) →
    ∃ r, FramedReader.recv_msg (FramedReader.mk c Buffer.new chunk pe le) [RData (text ++ rest)] =
      (Ready (Err (BufferFull "Buffer size {} exceeds maximum {}")), r, [])).
Proof.
  assert (∀ bs, len bs ≤ JsonCodec.max_size c → JsonCodec.decode c (mkBuffer bs) =
    match next_item bs with
    | Item item offset => Ok (Some (offset, item))
    | CutOff | NoItem => Ok None
    | Malformed => Err (IO OtherIo)
    end) as Hdec.
  { intros bs Hbs. unfold JsonCodec.decode, Buffer.len. simpl.
    replace (len bs >? _) with false by lia. by destruct (next_item bs). }
  assert (∀ p q, text = p ++ q → q ≠ [] → len p ≤ JsonCodec.max_size c →
    JsonCodec.decode c (mkBuffer p) = Ok None) as Hcut.
  { intros p q Hpq Hq Hp. rewrite Hdec by done.
    by destruct (next_item_cut v text p q) as [-> | ->]. }
  split_and!; [|done|].
  - intros rest Hlen. rewrite Hdec by done. by rewrite next_item_json with (v := v).
  - intros rest chunk pe le Hne [Hlo Hhi]. unfold FramedReader.recv_msg, FramedReader.try_decode.
    cbn [FramedReader.decoder FramedReader.buffer].
    change (decode c Buffer.new) with (JsonCodec.decode c (mkBuffer [])).
    pose proof (len_nonneg text) as Hnn.
    rewrite (Hcut [] text); [|done..|change (len []) with 0; lia].
    destruct text as [|b bs] eqn:Htext; [done|]. simpl FramedReader.recv_loop.
    unfold FramedReader.try_decode. cbn [FramedReader.decoder FramedReader.buffer
      FramedReader.set_buffer Buffer.extend_from_slice].
    change (decode c ?b) with (JsonCodec.decode c b). unfold JsonCodec.decode, Buffer.len.
    cbn [inner Buffer.new Buffer.extend_from_slice app] in *. replace (_ >? _) with true by lia.
    by eexists.
Qed.

End codec.

(** ** Witnesses *)

(** A syntax for the one value this needs, the empty object. *)
#[local] Instance braces : JsonText := {|
  to_json v := if v is VObject m then if decide (m = ∅) then Some [123; 125] else None else None;
  next_item bs :=
    match bs with
    | [] => NoItem
    | [123] => CutOff
    | 123 :: 125 :: _ => Item (VObject ∅) 2
    | _ => Malformed
    end;
|}.

#[local] Instance braces_laws : JsonTextLaws.
Proof.
  split.
  - intros v bs rest _. destruct v as [| | | | |m]; simpl; try done.
    case_decide; [|done]. by intros [= <-]; subst.
  - intros v bs p q _. destruct v as [| | | | |m]; simpl; try done.
    case_decide; [|done]. intros [= <-] Hpq Hq.
    destruct p as [|? [|? [|? ?]]]; simplify_eq/=; naive_solver.
Qed.

Lemma json_codec_limit_witness :
  JsonCodec.decode (JsonCodec.new 3) (mkBuffer [123; 125]) = Ok (Some (2, VObject ∅)) ∧
  ∃ r, FramedReader.recv_msg (FramedReader.mk (JsonCodec.new 3) Buffer.new 8 None None)
    [RData [123; 125; 123; 125]] =
    (Ready (Err (BufferFull "Buffer size {} exceeds maximum {}")), r, []).
Proof.
  destruct (json_codec_limit (JsonCodec.new 3) (VObject ∅) [123; 125]) as (H1 & _ & H3);
    [done|reflexivity|]. split.
  - apply (H1 []). vm_compute. by intros.
  - apply (H3 [123; 125]); [done|]. by vm_compute.
Defined.

(** A service with one method, which adds one. *)
Definition inc : RPCMethod := λ v,
  match u32_de v with
  | Some z => Ready (Ok (int_ser (z + 1)))
  | None => Ready (Err (InvalidParams "not a number"))
  end.

Definition calc : ServerConfig := mkServerConfig
  {["Calc" := λ m, if decide (m = "inc") then Some inc else None]} ∅ default_notification_encoder.

Lemma jsonrpc_call_exact_witness :
  ∃ resp r,
    handle_request calc None (to_value (new_request 5 (full_name "Calc" "inc") (int_ser 41))) =
      (Ready resp, None) ∧
    from_value (to_value resp) = Some (MsgResponse r) ∧ check_response 5 r = Ok r ∧
    call_result (V := Value) r = Ok (int_ser 42).
Proof.
  destruct (jsonrpc_call_exact (V := Value) calc None "Calc" "inc" 5 (int_ser 41)
    (Ok (int_ser 42))) as (resp & r & ? & ? & ? & Hr); [by unfold_u|exact I|exact I|reflexivity..|].
  exists resp, r. split_and!; [assumption..|]. rewrite Hr. reflexivity.
Defined.

Definition ask : Value := to_value (new_request 5 "Calc.inc" (int_ser 41)).
Definition told : Response :=
  mkResponse JSONRPC_VERSION (Some (int_ser 5)) (Some (int_ser 42)) None.

(** A connection that read one request and wrote its response. *)
Definition served : conn :=
  mkConn true true [] [] (Channel.new None) [] [ask] [OutResponse told] [] false.

Lemma served_reachable : rtc (conn_step calc) (new_conn None) served.
Proof.
  eapply rtc_l; [apply (step_read _ _ _ _ _ _ _ _ _ _ ask); vm_compute; lia|]. simpl.
  eapply rtc_l.
  { apply (step_handled _ _ _ _ _ _ _ _ _ _ _ 0%nat ask (Channel.new None) told
      (Some (Channel.new None))); [done|by vm_compute]. }
  simpl. eapply rtc_l; [apply (step_queued _ _ _ _ _ _ _ _ _ _ _ 0%nat told); [done|vm_compute; lia]|].
  simpl. apply rtc_once. apply (step_write_response _ _ [] told []).
Qed.

(** A client whose call returned the response it waited for. *)
Definition answer : Response := mkResponse JSONRPC_VERSION (Some (int_ser 1)) (Some (int_ser 7)) None.
Definition answered : client :=
  mkClient false (dispatcher subscribed) (Subscriptions.new 5) [] IoRunning
    [sub_call (CReturned (Ok answer))] (sent granted) [grant].

Lemma granted_reachable : rtc (any_step false default_notification_decoder) (new_client 5) granted.
Proof.
  destruct (client_early_run false) as [Hrun _]. eapply rtc_subrel; [|exact Hrun]. intros ? ?. by left.
Qed.

Lemma answered_reachable : rtc (any_step false default_notification_decoder) (new_client 5) answered.
Proof.
  eapply rtc_r; [apply granted_reachable|]. left.
  apply (step_response _ _ false (dispatcher granted) _ _ _ [sub_call (CWait 0)] _ _
    0%nat (sub_call (CWait 0)) 0%nat answer true true); reflexivity.
Qed.

Lemma client_calls_answered_witness :
  returned (calls answered) = [answer] ∧ [answer] ⊆+ responses_of (received answered) ∧
  for_request 1 answer ∧ can_return false default_notification_decoder granted 0.
Proof.
  destruct (client_calls_answered false default_notification_decoder 5 answered answered_reachable)
    as (Hok & Hret & _).
  destruct (client_calls_answered false default_notification_decoder 5 granted granted_reachable)
    as (_ & _ & _ & Hin).
  split; [reflexivity|]. split; [exact Hret|]. split.
  - exact (Hok 0%nat (sub_call (CReturned (Ok answer))) (Ok answer) eq_refl eq_refl).
  - apply (Hin 0%nat (sub_call (CWait 0)) 0%nat granted (sub_call (CWait 0))); try reflexivity. discriminate.
Defined.
