(* ===== verification/JsonRpcMacros.v ===== *)
(** * The service macros of JSON-RPC

    Models [jsonrpc/impl/src/lib.rs]: [rpc_impl] and [rpc_pubsub_impl], which turn
    an [impl] block into a service, with the checks that make them fail.

    The macros see syntax that the syn library has parsed; its types are reduced
    to what the macros look at.  What they generate is an [impl] block with one arm
    per function, and [get_method] is its meaning.  The theorems say which
    blocks are accepted, and that a request for a method of an accepted block
    runs the function that carries the name. *)

From S2P Require Import Prelude Codec Endpoint Framed Json JsonRpcServer JsonRpcServerSpec.
From Stdlib Require Import Ascii.

Local Open Scope Z_scope.

(** ** Syntax *)

Inductive FnArg := Receiver | Typed.
Inductive ReturnType := RDefault | RType.

Record Signature := mkSignature {
  ident : string;
  inputs : list FnArg;
  output : ReturnType;
}.

(** An argument of an attribute: [name], with a string literal if one follows, or
    something else. *)
Inductive nested_meta :=
| NName (value : option string)
| NOther.

(** An attribute of a function: its path if that is one identifier, and the list
    in parentheses if there is one. *)
Record Attribute := mkAttribute {
  attr_path : option string;
  attr_args : option (list nested_meta);
}.

Inductive ImplItem :=
| ImplFn (attrs : list Attribute) (sig : Signature)
| ImplOther.

(** The type of the block: a path, with its identifier if it is only that. *)
Inductive SynType :=
| TypePath (id : option string)
| OtherType.

Record ItemImpl := mkItemImpl {
  self_ty : SynType;
  items : list ImplItem;
}.

(** The argument of the macro. *)
Inductive Meta :=
| MPath
| MList
| MNameValue (is_name : bool) (value : option string).

Inductive macro_arg :=
| ArgEmpty
| ArgMeta (m : Meta)
| ArgInvalid.

(** A failed expansion: an error at the place it names, or a panic. *)
Inductive macro_error :=
| CompileError (msg : string)
| MacroPanic.

(** ** Expansion *)

Inductive ServiceKind := Rpc | PubSub.

Module ServiceKind.

Definition arity (k : ServiceKind) : nat :=
  match k with Rpc => 2 | PubSub => 4 end.

Definition arity_error (k : ServiceKind) : string :=
  match k with
  | Rpc => "requires `&self` and a parameter of type `serde_json::Value`"
  | PubSub => "requires `&self` and three parameters: `Arc<Channel>`, method: `String`, and `serde_json::Value`"
  end.

Definition unsupported_self_type_error (k : ServiceKind) : string :=
  match k with
  | Rpc => "Implementing the trait `RPCService` on this type is unsupported"
  | PubSub => "Implementing the trait `PubSubRPCService` on this type is unsupported"
  end.

End ServiceKind.

(** An arm of the generated match: the name and the function that is called. *)
Record arm := mkArm { arm_name : string; arm_ident : string }.

(** The generated block. *)
Record impl_block := mkImplBlock {
  ib_kind : ServiceKind;
  ib_name : string;
  ib_arms : list arm;
}.

Definition validate_method (method : Signature) : result macro_error () :=
  match inputs method with
  | [] => Err MacroPanic
  | Typed :: _ => Err (CompileError "requires `&self` parameter")
  | Receiver :: _ =>
      match output method with
      | RDefault => Err (CompileError "requires `Result<serde_json::Value, RPCError>` as return type")
      | RType => Ok ()
      end
  end.

(** The closure given to [parse_nested_meta], on each argument. *)
Fixpoint nested_names (name : option string) (metas : list nested_meta) :
    result macro_error (option string) :=
  match metas with
  | [] => Ok name
  | NName None :: _ => Err (CompileError "expected string literal")
  | NName (Some s) :: metas =>
      if decide (s = EmptyString) then Err (CompileError "Empty string")
      else nested_names (Some s) metas
  | NOther :: _ => Err (CompileError "Unexpected attribute")
  end.

(** The first [rpc_method] attribute of a function. *)
Fixpoint rpc_method_name (attrs : list Attribute) : result macro_error (option string) :=
  match attrs with
  | [] => Ok None
  | attr :: attrs =>
      if decide (attr_path attr = Some "rpc_method")
      then
        match attr_args attr with
        | None => Err (CompileError "expected attribute arguments in parentheses")
        | Some metas => nested_names None metas
        end
      else rpc_method_name attrs
  end.

Fixpoint collect_methods (items : list ImplItem) :
    result macro_error (list (option string * Signature)) :=
  match items with
  | [] => Ok []
  | ImplFn attrs sig :: items =>
      _ ← validate_method sig;
      name ← rpc_method_name attrs;
      rest ← collect_methods items;
      Ok ((name, sig) :: rest)
  | ImplOther :: _ => Err (CompileError "Unexpected item!")
  end.

Definition parse_struct_methods (items : list ImplItem) :
    result macro_error (list (option string * Signature)) :=
  match items with
  | [] => Err (CompileError "At least one method should be implemented")
  | _ => collect_methods items
  end.

Definition parse_service_name (attr : Meta) : result macro_error (option string) :=
  match attr with
  | MNameValue true (Some s) =>
      if decide (s = EmptyString) then Err (CompileError "Empty string") else Ok (Some s)
  | MNameValue true None => Ok None
  | MNameValue false _ => Err (CompileError "Unexpected attribute")
  | _ => Ok None
  end.

Definition require_ident (id : option string) : result macro_error string :=
  ok_or id (CompileError "expected this path to be an identifier").

Definition resolve_service_name (attr : macro_arg) (self_ty : option string) :
    result macro_error string :=
  match attr with
  | ArgEmpty => require_ident self_ty
  | ArgInvalid => Err (CompileError "expected a meta item")
  | ArgMeta m =>
      name ← parse_service_name m;
      match name with
      | Some name => Ok name
      | None => require_ident self_ty
      end
  end.

(** The name of a function in the service. *)
Definition rpc_name (m : option string * Signature) : string :=
  match m.1 with Some name => name | None => ident m.2 end.

Fixpoint dispatch_arms (k : ServiceKind) (methods : list (option string * Signature)) :
    result macro_error (list arm) :=
  match methods with
  | [] => Ok []
  | m :: methods =>
      if negb (length (inputs m.2) =? ServiceKind.arity k)%nat
      then Err (CompileError (ServiceKind.arity_error k))
      else
        arms ← dispatch_arms k methods;
        Ok (mkArm (rpc_name m) (ident m.2) :: arms)
  end.

Definition expand_service_impl (attr : macro_arg) (item : ItemImpl) (kind : ServiceKind) :
    result macro_error impl_block :=
  match self_ty item with
  | OtherType => Err (CompileError (ServiceKind.unsupported_self_type_error kind))
  | TypePath self_ty =>
      service_name ← resolve_service_name attr self_ty;
      methods ← parse_struct_methods (items item);
      arms ← dispatch_arms kind methods;
      Ok (mkImplBlock kind service_name arms)
  end.

Definition rpc_impl (attr : macro_arg) (item : ItemImpl) : result macro_error impl_block :=
  expand_service_impl attr item Rpc.
Definition rpc_pubsub_impl (attr : macro_arg) (item : ItemImpl) : result macro_error impl_block :=
  expand_service_impl attr item PubSub.

(** ** What the generated code means *)

(** The first arm with the name, in a [match] on a string. *)
Fixpoint match_name (name : string) (arms : list arm) : option string :=
  match arms with
  | [] => None
  | a :: arms => if decide (name = arm_name a) then Some (arm_ident a) else match_name name arms
  end.

(** The generated [get_method] and [get_pubsub_method], over the functions of the
    type by their identifiers. *)
Definition get_method (b : impl_block) (self : string → RPCMethod) : RPCService :=
  λ name, self <$> match_name name (ib_arms b).
Definition get_pubsub_method (b : impl_block) (self : string → PubSubRPCMethod) : PubSubRPCService :=
  λ name, self <$> match_name name (ib_arms b).

(** ** Accepted blocks *)

(** The function an item declares, with the name it has in the service. *)
Definition declares (k : ServiceKind) (it : ImplItem) (f : option string * Signature) : Prop :=
  ∃ attrs, it = ImplFn attrs f.2 ∧ rpc_method_name attrs = Ok f.1 ∧
    head (inputs f.2) = Some Receiver ∧ length (inputs f.2) = ServiceKind.arity k ∧
    output f.2 = RType.

Definition arm_of (f : option string * Signature) : arm := mkArm (rpc_name f) (ident f.2).

Lemma validate_method_Ok sig u :
  validate_method sig = Ok u ↔ head (inputs sig) = Some Receiver ∧ output sig = RType.
Proof. unfold validate_method. destruct u, (inputs sig) as [|[] ?], (output sig); simpl; naive_solver. Qed.

Lemma dispatch_arms_Ok k fns arms :
  dispatch_arms k fns = Ok arms ↔
  Forall (λ f, length (inputs f.2) = ServiceKind.arity k) fns ∧ arms = arm_of <$> fns.
Proof.
  revert arms. induction fns as [|f fns IH]; intros arms; simpl.
  - split; [by intros [= <-]|by intros [_ ->]].
  - rewrite Forall_cons. destruct (Nat.eqb_spec (length (inputs f.2)) (ServiceKind.arity k)); simpl.
    + rewrite result_bind_Ok. setoid_rewrite IH. split.
      * by intros (? & [? ->] & [= <-]).
      * intros [[_ Hf] ->]. eauto.
    + split; [done|by intros [[? _] _]].
Qed.

Lemma collect_methods_Ok items fns :
  collect_methods items = Ok fns ↔
  Forall2 (λ it f, ∃ attrs, it = ImplFn attrs f.2 ∧ rpc_method_name attrs = Ok f.1 ∧
    head (inputs f.2) = Some Receiver ∧ output f.2 = RType) items fns.
Proof.
  revert fns. induction items as [|[attrs sig|] items IH]; intros fns; simpl.
  - split; [by intros [= <-]; constructor|by inversion 1].
  - rewrite result_bind_Ok. setoid_rewrite result_bind_Ok. setoid_rewrite result_bind_Ok. split.
    + intros (u & [? ?]%validate_method_Ok & name & Hn & rest & Hr%IH & [= <-]).
      constructor; [by exists attrs|done].
    + inversion 1 as [|? [name sig'] ? rest (attrs' & Heq & Hn & Hh & Ho) Hrest]; subst.
      simplify_eq/=.
      exists (). split; [by apply validate_method_Ok|]. exists name. split; [done|].
      exists rest. split; [by apply IH|done].
  - split; [done|]. inversion 1 as [|? ? ? ? (? & ? & _)]. done.
Qed.

(** An accepted block, by its functions. *)
Lemma expand_Ok attr item k b :
  expand_service_impl attr item k = Ok b ↔
  ∃ id fns, self_ty item = TypePath id ∧ resolve_service_name attr id = Ok (ib_name b) ∧
    fns ≠ [] ∧ Forall2 (declares k) (items item) fns ∧
    b = mkImplBlock k (ib_name b) (arm_of <$> fns).
Proof.
  unfold expand_service_impl. destruct (self_ty item) as [id|]; [|naive_solver].
  assert (∀ fns, parse_struct_methods (items item) = Ok fns ↔
    fns ≠ [] ∧ collect_methods (items item) = Ok fns) as Hparse.
  { intros fns. unfold parse_struct_methods. destruct (items item) as [|it its] eqn:Hits.
    - split; [done|]. by intros [? [= <-]].
    - split; [|by intros []]. intros Hc. split; [|done]. intros ->.
      apply collect_methods_Ok in Hc. inversion Hc. }
  rewrite result_bind_Ok. setoid_rewrite result_bind_Ok. setoid_rewrite result_bind_Ok. split.
  - intros (name & Hn & fns & [Hne Hc]%Hparse & arms & [Ha ->]%dispatch_arms_Ok & [= <-]).
    exists id, fns. split_and!; [done..| |done]. apply collect_methods_Ok in Hc.
    clear -Hc Ha. induction Hc as [|it f its fns (attrs & -> & ? & ? & ?) _ IH]; [constructor|].
    apply Forall_cons in Ha as [Hf Ha]. constructor; [by exists attrs|by apply IH].
  - intros (id' & fns & [= <-] & Hn & Hne & Hf & ->). simpl in *. exists (ib_name b). split; [done|].
    exists fns. split.
    + apply Hparse. split; [done|]. apply collect_methods_Ok. eapply Forall2_impl; [exact Hf|].
      intros it f (attrs & ? & ? & ? & ? & ?). by exists attrs.
    + exists (arm_of <$> fns). split; [|done]. apply dispatch_arms_Ok. split; [|done].
      clear -Hf. induction Hf as [|it f its fns (attrs & _ & _ & _ & ? & _)]; by constructor.
Qed.

(** The function a name selects. *)
Fixpoint find_fn (name : string) (fns : list (option string * Signature)) :
    option (option string * Signature) :=
  match fns with
  | [] => None
  | f :: fns => if decide (name = rpc_name f) then Some f else find_fn name fns
  end.

Lemma match_name_find name fns :
  match_name name (arm_of <$> fns) = (λ f, ident f.2) <$> find_fn name fns.
Proof. induction fns as [|f fns IH]; simpl; [done|]. by case_decide. Qed.

Lemma find_fn_unique fns f :
  f ∈ fns → NoDup (rpc_name <$> fns) → find_fn (rpc_name f) fns = Some f.
Proof.
  intros Hf. induction Hf as [f fns|f g fns Hf IH]; rewrite fmap_cons, NoDup_cons; intros [Hn Hd]; simpl.
  - by rewrite decide_True.
  - rewrite decide_False; [by apply IH|]. intros Heq. apply Hn. rewrite <-Heq.
    by apply list_elem_of_fmap_2.
Qed.

(** A block fails to expand with a panic only where a function has no parameters
    at all. *)
Lemma expand_panic attr item k :
  expand_service_impl attr item k = Err MacroPanic →
  ∃ attrs sig, ImplFn attrs sig ∈ items item ∧ inputs sig = [].
Proof.
  assert (∀ its, collect_methods its = Err MacroPanic →
    ∃ attrs sig, ImplFn attrs sig ∈ its ∧ inputs sig = []) as Hc.
  { induction its as [|[attrs sig|] its IH]; simpl; [done| |done].
    destruct (validate_method sig) eqn:Hv; simpl.
    - assert (rpc_method_name attrs ≠ Err MacroPanic) as Hn.
      { clear. assert (∀ ms name, nested_names name ms ≠ Err MacroPanic)
          by (induction ms as [|[[]|] ms IH]; intros name; simpl; repeat case_decide; done || apply IH).
        induction attrs as [|a attrs IH]; simpl; [done|]. repeat case_match; done || by auto. }
      destruct (rpc_method_name attrs); simpl; [|intros [= ->]; done].
      destruct (collect_methods its); simpl; [done|]. intros [= ->].
      destruct IH as (? & ? & ? & ?); [done|]. eexists _, _. split; [by right|done].
    - intros [= ->]. exists attrs, sig. split; [by left|]. revert Hv. unfold validate_method.
      by repeat case_match. }
  unfold expand_service_impl. destruct (self_ty item) as [id|]; [|done].
  destruct (resolve_service_name attr id) as [name|e] eqn:Hr; simpl.
  - unfold parse_struct_methods. destruct (items item) as [|it its] eqn:Hi; [done|].
    destruct (collect_methods (it :: its)) as [fns|e] eqn:Hcm; simpl; [|intros [= ->]; by apply Hc].
    intros Hd. exfalso. revert Hd. clear. induction fns as [|f fns IH]; simpl; [done|].
    destruct (_ =? _)%nat; simpl; [|done]. destruct (dispatch_arms k fns); simpl in *; [done|].
    intros [= ->]. by apply IH.
  - intros [= ->]. exfalso. revert Hr. unfold resolve_service_name, parse_service_name, require_ident.
    by destruct attr as [|[| |[] []]|], id; simpl; repeat case_decide.
Qed.

(** No request names a service with a dot. *)
Lemma split_head_no_dot s w ws : split_char "." s = w :: ws → no_dot w.
Proof.
  revert w ws. induction s as [|c s IH]; simpl; intros w ws.
  - by intros [= <- <-].
  - destruct (split_char_cons "." s) as (w' & ws' & Hs). rewrite Hs. case_decide.
    + by intros [= <- <-].
    + intros [= <- <-]. simpl. rewrite bool_decide_false by done. by apply (IH w' ws').
Qed.

Lemma sanity_check_no_dot msg r : sanity_check msg = NewReq r → no_dot (srvc_name r).
Proof.
  unfold sanity_check, err_res. intros Hs. repeat case_match; simplify_eq/=.
  by eapply split_head_no_dot.
Qed.

Section dispatch.
Context (cfg : ServerConfig).

(** The response to a request for method [m] of the service of a block. *)
Definition block_response (fns : list (option string * Signature)) (self : string → RPCMethod)
    (r : Request) (m : string) : poll Response :=
  match find_fn m fns with
  | Some f =>
      poll_map (outcome_response (Some (rq_id r)))
        (self (ident f.2) (from_option id VNull (rq_params (wire_request r))))
  | None => Ready (method_not_found (Some (rq_id r)))
  end.

Lemma resolve_rpc svc m allow_pubsub f :
  pubsub_services cfg !! svc = None → services cfg !! svc = Some f →
  resolve_handler cfg svc m allow_pubsub = from_option HRpc HNone (f m).
Proof.
  intros Hp Hs. unfold resolve_handler, RPCService, PubSubRPCService in *. rewrite Hp, Hs. simpl. by destruct allow_pubsub, (f m).
Qed.

(** C32: services written with [rpc_impl].  The macro accepts exactly the blocks of
    a named type whose items are functions with [&self], one parameter and a
    return type; it panics only on a function without parameters.  A server that
    has the service answers a request [name.method] by the function that carries
    the method's name, given or its own, and the first one if several do, and
    with the method-not-found error if none does.  If the names are distinct every
    function is reached by its name.  A service whose name has a dot in it is
    reached by no request. *)
Theorem rpc_impl_dispatch :
  (∀ attr item, (∃ b, rpc_impl attr item = Ok b) ↔
    ∃ id name fns, self_ty item = TypePath id ∧ resolve_service_name attr id = Ok name ∧
      fns ≠ [] ∧ Forall2 (declares Rpc) (items item) fns) ∧
  (∀ attr item, rpc_impl attr item = Err MacroPanic →
    ∃ attrs sig, ImplFn attrs sig ∈ items item ∧ inputs sig = []) ∧
  (∀ attr item b self ch, rpc_impl attr item = Ok b →
    services cfg !! ib_name b = Some (get_method b self) → pubsub_services cfg !! ib_name b = None →
    ∃ fns, Forall2 (declares Rpc) (items item) fns ∧
      (∀ r m, rq_jsonrpc r = JSONRPC_VERSION → no_dot (ib_name b) →
        rq_method r = (ib_name b +:+ String "." m)%string →
        handle_request cfg ch (to_value r) = (block_response fns self r m, ch)) ∧
      (∀ f, f ∈ fns → NoDup (rpc_name <$> fns) →
        get_method b self (rpc_name f) = Some (self (ident f.2))) ∧
      (¬ no_dot (ib_name b) → ∀ msg req, sanity_check msg = NewReq req → srvc_name req ≠ ib_name b)).
Proof.
  split_and!; [|intros attr item; apply expand_panic|].
  - intros attr item. split.
    + intros (b & (id & fns & ? & ? & ? & ? & _)%expand_Ok). by exists id, (ib_name b), fns.
    + intros (id & name & fns & ? & ? & ? & ?). exists (mkImplBlock Rpc name (arm_of <$> fns)).
      apply expand_Ok. by exists id, fns.
  - intros attr item b self ch (id & fns & _ & _ & _ & Hf & Hb)%expand_Ok Hs Hp.
    exists fns. split_and!; [done| | |].
    + intros r m Hv Hd Hm. unfold handle_request. rewrite (sanity_check_request r (ib_name b) m) by done.
      cbn [srvc_name method_name req_msg]. rewrite (resolve_rpc _ m _ _ Hp Hs).
      unfold block_response, get_method. rewrite Hb. cbn [ib_arms]. rewrite match_name_find.
      by destruct (find_fn m fns).
    + intros f Hin Hnd. unfold get_method. rewrite Hb. cbn [ib_arms].
      by rewrite match_name_find, find_fn_unique.
    + intros Hdot msg req Hreq Heq. apply Hdot. rewrite <-Heq. by eapply sanity_check_no_dot.
Qed.

End dispatch.

(** A service with a renamed method. *)
Definition calc : ItemImpl :=
  mkItemImpl (TypePath (Some "Calc")) [
    ImplFn [] (mkSignature "ping" [Receiver; Typed] RType);
    ImplFn [mkAttribute (Some "rpc_method") (Some [NName (Some "math.add")])]
      (mkSignature "add" [Receiver; Typed] RType)].

Lemma rpc_impl_dispatch_witness :
  let b := mkImplBlock Rpc "Calc" [mkArm "ping" "ping"; mkArm "math.add" "add"] in
  let self := λ f v, Ready (Ok (if decide (f = "add") then VNumber (PosInt 5) else v)) in
  let cfg := mkServerConfig {["Calc" := get_method b self]} ∅ default_notification_encoder in
  rpc_impl ArgEmpty calc = Ok b ∧
  handle_request cfg None (to_value (mkRequest JSONRPC_VERSION (VNumber (PosInt 1)) "Calc.math.add" None)) =
    (Ready (mkResponse JSONRPC_VERSION (Some (VNumber (PosInt 1))) (Some (VNumber (PosInt 5))) None), None).
Proof.
  intros b self cfg. split; [reflexivity|].
  destruct (proj2 (proj2 (rpc_impl_dispatch cfg)) ArgEmpty calc b self None) as (fns & Hf & Hr & _);
    [reflexivity..|].
  rewrite (Hr _ "math.add") by reflexivity. unfold block_response.
  assert (fns = [(None, mkSignature "ping" [Receiver; Typed] RType);
    (Some "math.add", mkSignature "add" [Receiver; Typed] RType)]) as ->; [|reflexivity].
  unfold calc in Hf. simpl in Hf.
  inversion Hf as [|? [n1 s1] ? ? (a1 & H1 & H1' & _) Hf2]; subst.
  inversion Hf2 as [|? [n2 s2] ? ? (a2 & H2 & H2' & _) Hf3]; subst.
  inversion Hf3; subst. simpl in *. injection H1 as <- <-. injection H2 as <- <-.
  injection H1' as <-. injection H2' as <-. reflexivity.
Defined.
