(* ===== verification/JsonRpcErrors.v ===== *)
(** * Error responses of JSON-RPC

    Every way in which a request fails, from the value that arrives at the server
    to the error the caller gets: malformed requests, wrong versions, names that
    are not [service.method], unknown methods, and the errors of the methods
    themselves, each with its code. *)

From S2P Require Import Prelude Codec Endpoint Framed Json JsonRpcServer JsonRpcServerSpec JsonRpcMacros JsonRpcClient JsonRpcExchange.
From Stdlib Require Import Ascii.

Local Open Scope Z_scope.

(** The code and the text of a method's error. *)
Definition rpc_code (e : RPCError) : Z :=
  match e with
  | RParseError _ => -32700
  | InvalidParams _ => -32602
  | InvalidRequest _ => -32600
  | CustomError c _ => c
  | InternalError => -32603
  end.
Definition rpc_text (e : RPCError) : string :=
  match e with
  | RParseError m | InvalidParams m | InvalidRequest m | CustomError _ m => m
  | InternalError => INTERNAL_ERROR_MSG
  end.

Section errors.
Context (cfg : ServerConfig).

(** What the method of a request gives, with the channel after it. *)
Definition handler_outcome (ch : option Channel) (h : Handler) (r : Request) :
    option (poll (result RPCError Value) * option Channel) :=
  let params := from_option (λ v, v) VNull (rq_params r) in
  match h with
  | HNone => None
  | HRpc f => Some (f params, ch)
  | HPubsub g =>
      c ← ch; let '(out, c) := g c (rq_method r) params in Some (out, Some c)
  end.

(** The reasons for an error response: its identifier, code and text. *)
Inductive fails (ch : option Channel) (msg : Value) : option Value → Z → string → Prop :=
| fails_parse :
    from_value (T := Request) msg = None →
    fails ch msg None (-32700) "Failed to parse"
| fails_version r :
    from_value msg = Some r → rq_jsonrpc r ≠ JSONRPC_VERSION →
    fails ch msg (Some (rq_id r)) (-32600) "Unsupported jsonrpc version"
| fails_name r :
    from_value msg = Some r → rq_jsonrpc r = JSONRPC_VERSION → no_dot (rq_method r) →
    fails ch msg (Some (rq_id r)) (-32600) "Invalid request"
| fails_unknown r svc m :
    from_value msg = Some r → rq_jsonrpc r = JSONRPC_VERSION → no_dot svc →
    rq_method r = (svc +:+ String "." m)%string →
    resolve_handler cfg svc m (bool_decide (is_Some ch)) = HNone →
    fails ch msg (Some (rq_id r)) (-32601) "Method not found"
| fails_method r svc m e ch' :
    from_value msg = Some r → rq_jsonrpc r = JSONRPC_VERSION → no_dot svc →
    rq_method r = (svc +:+ String "." m)%string →
    handler_outcome ch (resolve_handler cfg svc m (bool_decide (is_Some ch))) r =
      Some (Ready (Err e), ch') →
    fails ch msg (Some (rq_id r)) (rpc_code e) (rpc_text e).

Lemma no_dot_split s : no_dot s → split_char "." s = [s].
Proof.
  induction s as [|c s IH]; [done|]. simpl. intros [Hc Hs]%andb_prop_elim. rewrite (IH Hs).
  by rewrite decide_False by (by intros ->).
Qed.

(** The check of a request, by its three outcomes. *)
Lemma sanity_check_spec msg r :
  from_value msg = Some r → rq_jsonrpc r = JSONRPC_VERSION →
  (no_dot (rq_method r) ∧
    sanity_check msg = err_res (Some (rq_id r)) (-32600) "Invalid request") ∨
  ∃ svc m, no_dot svc ∧ rq_method r = (svc +:+ String "." m)%string ∧
    sanity_check msg = NewReq (mkNewRequest svc m r).
Proof.
  intros Hr Hv. unfold sanity_check. rewrite Hr, bool_decide_true by done. simpl.
  pose proof (concat_split_dot (rq_method r)) as Hc.
  destruct (split_char_cons "." (rq_method r)) as (svc & ws & Hs). rewrite Hs in *.
  pose proof (split_head_no_dot _ _ _ Hs). destruct ws as [|w ws].
  - left. simpl in Hc. by rewrite <-Hc.
  - right. exists svc, (String.concat "." (w :: ws)). by rewrite <-Hc.
Qed.

Lemma sanity_check_named msg r svc m :
  from_value msg = Some r → rq_jsonrpc r = JSONRPC_VERSION → no_dot svc →
  rq_method r = (svc +:+ String "." m)%string → sanity_check msg = NewReq (mkNewRequest svc m r).
Proof.
  intros Hr Hv Hd Hm. unfold sanity_check. rewrite Hr, bool_decide_true by done. simpl.
  rewrite Hm, split_char_dot by done. pose proof (concat_split_dot m) as Hc.
  destruct (split_char_cons "." m) as (w & ws & Hw). rewrite Hw in *. by rewrite Hc.
Qed.

Lemma handle_request_outcome ch msg r svc m :
  sanity_check msg = NewReq (mkNewRequest svc m r) →
  handle_request cfg ch msg =
  match handler_outcome ch (resolve_handler cfg svc m (bool_decide (is_Some ch))) r with
  | Some (out, ch') => (poll_map (outcome_response (Some (rq_id r))) out, ch')
  | None => (Ready (method_not_found (Some (rq_id r))), ch)
  end.
Proof.
  intros Hs. unfold handle_request. rewrite Hs. cbn [srvc_name method_name req_msg].
  assert (ch = None → ∀ g, resolve_handler cfg svc m (bool_decide (is_Some ch)) ≠ HPubsub g) as Hno.
  { intros -> g. rewrite bool_decide_false by (by intros [? ?]). unfold resolve_handler. by case_match. }
  destruct (resolve_handler _ _ _ _) as [g|f|]; simpl; [|done..].
  destruct ch as [c|]; simpl; [|by destruct (Hno eq_refl g)]. by destruct (g _ _ _).
Qed.

Lemma fails_response ch msg id c t :
  fails ch msg id c t → ∃ ch', handle_request cfg ch msg = (Ready (err_response id c t), ch').
Proof.
  destruct 1 as [Hn|r Hr Hv|r Hr Hv Hd|r svc m Hr Hv Hd Hm Hh|r svc m e ch' Hr Hv Hd Hm Hh].
  - exists ch. unfold handle_request, sanity_check. by rewrite Hn.
  - exists ch. unfold handle_request, sanity_check. by rewrite Hr, bool_decide_false.
  - exists ch. unfold handle_request, sanity_check. rewrite Hr, bool_decide_true by done. simpl.
    by rewrite no_dot_split.
  - exists ch. pose proof (sanity_check_named _ _ _ _ Hr Hv Hd Hm) as Hs.
    by rewrite (handle_request_outcome _ _ _ _ _ Hs), Hh.
  - exists ch'. pose proof (sanity_check_named _ _ _ _ Hr Hv Hd Hm) as Hs.
    rewrite (handle_request_outcome _ _ _ _ _ Hs), Hh. by destruct e.
Qed.

Lemma response_fails ch msg resp ch' err :
  handle_request cfg ch msg = (Ready resp, ch') → rs_error resp = Some err →
  fails ch msg (rs_id resp) (code err) (message err).
Proof.
  intros Hh He. destruct (from_value (T := Request) msg) as [r|] eqn:Hr.
  2:{ unfold handle_request, sanity_check in Hh. rewrite Hr in Hh. simplify_eq/=. by apply fails_parse. }
  destruct (decide (rq_jsonrpc r = JSONRPC_VERSION)) as [Hv|Hv].
  2:{ unfold handle_request, sanity_check in Hh. rewrite Hr, bool_decide_false in Hh by done.
      simplify_eq/=. by apply fails_version. }
  destruct (sanity_check_spec msg r Hr Hv) as [[Hd Hs]|(svc & m & Hd & Hm & Hs)].
  - unfold handle_request in Hh. rewrite Hs in Hh. simplify_eq/=. by apply fails_name.
  - rewrite (handle_request_outcome _ _ _ _ _ Hs) in Hh.
    destruct (handler_outcome _ _ _) as [[out ch'']|] eqn:Ho.
    + destruct out as [|[v|e]|]; simplify_eq/=.
      destruct e; simplify_eq/=; by eapply fails_method in Ho.
    + injection Hh as <- <-. injection He as <-. eapply fails_unknown; [done..|].
      destruct (resolve_handler _ _ _ _) as [g|f|] eqn:Hres; simpl in Ho; [|done..].
      destruct ch as [c|]; simpl in Ho; [by destruct (g _ _ _)|].
      rewrite bool_decide_false in Hres by (by intros [? ?]). unfold resolve_handler in Hres.
      by case_match.
Qed.

(** C19: every error of JSON-RPC.  A request fails for one of five reasons, and the
    response says which: a value that is not a request object, another protocol
    version, a method name without a service, an unknown method, or an error of
    the method, with its code and text; the response carries the identifier of
    the request, except that of a value that is not a request.  There are no other
    error responses, and the caller of the method gets the code and the text. *)
Theorem rpc_error_responses :
  (∀ ch msg id c t, fails ch msg id c t →
    ∃ ch', handle_request cfg ch msg = (Ready (err_response id c t), ch')) ∧
  (∀ ch msg resp ch' err, handle_request cfg ch msg = (Ready resp, ch') → rs_error resp = Some err →
    fails ch msg (rs_id resp) (code err) (message err)) ∧
  (∀ V `(Deserialize V) id c t, is_i32 c →
    ∃ r, from_value (to_value (err_response id c t)) = Some (MsgResponse r) ∧
      rs_id r = wire_opt id ∧
      call_result (V := V) r = Err (CallError c t)).
Proof.
  split_and!; [apply fails_response|apply response_fails|].
  intros V ? id c t Hc. exists (wire_response (err_response id c t)).
  by split_and!; [apply NewMsg_response|..].
Qed.

End errors.

(** A server with one method that refuses its parameters. *)
Lemma rpc_error_responses_witness :
  let cfg := mkServerConfig
    {["Calc" := λ m, if decide (m = "div") then Some (λ _, Ready (Err (InvalidParams "zero"))) else None]}
    ∅ default_notification_encoder in
  let ask m := to_value (mkRequest JSONRPC_VERSION (VString "1") m None) in
  (∃ ch, handle_request cfg None (ask "Calc.div") =
    (Ready (err_response (Some (VString "1")) (-32602) "zero"), ch)) ∧
  (∃ ch, handle_request cfg None (ask "Calc.mod") =
    (Ready (err_response (Some (VString "1")) (-32601) "Method not found"), ch)) ∧
  (∃ ch, handle_request cfg None (ask "div") =
    (Ready (err_response (Some (VString "1")) (-32600) "Invalid request"), ch)) ∧
  ∃ ch, handle_request cfg None (VArray []) = (Ready (err_response None (-32700) "Failed to parse"), ch).
Proof.
  intros cfg ask. destruct (rpc_error_responses cfg) as [Hf _]. split_and!; apply Hf.
  - apply (fails_method cfg None (ask "Calc.div")
      (mkRequest JSONRPC_VERSION (VString "1") "Calc.div" None) "Calc" "div" (InvalidParams "zero") None);
      reflexivity.
  - apply (fails_unknown cfg None (ask "Calc.mod")
      (mkRequest JSONRPC_VERSION (VString "1") "Calc.mod" None) "Calc" "mod"); reflexivity.
  - apply (fails_name cfg None (ask "div") (mkRequest JSONRPC_VERSION (VString "1") "div" None));
      reflexivity.
  - apply fails_parse. reflexivity.
Defined.
