(* ===== verification/JsonRpcQuic.v ===== *)
(** * JSON-RPC over QUIC streams

    Models the QUIC backend of JSON-RPC, where every call and every
    subscription has a stream of its own: the server's task for one stream
    ([handle_quic_stream] and [handle_quic_subscription] of
    [jsonrpc/src/server/quic.rs]), the client's [call], [subscribe] and
    [subscription_stream_task] ([jsonrpc/src/client/quic_stream.rs]), and the
    [unsubscribe] of [jsonrpc/src/client/mod.rs] for this backend.

    A stream carries messages in order in both directions, as the framed
    connections do.  The streams of one connection, the client's tables and the
    subscribers are one step relation, in which every task may stop at any of
    its steps. *)

From S2P Require Import Prelude Codec Endpoint Framed Json.
From S2P Require Import JsonRpcServer JsonRpcServerSpec JsonRpcClient JsonRpcClientSpec JsonRpcExchange.

Local Open Scope Z_scope.

(** ** The server *)

(** What the server does with the first message of a stream. *)
Inductive quic_plan :=
| QReply (response : poll Response)
| QSubscribe (req : NewRequest) (method : PubSubRPCMethod).

Definition handle_quic_stream (cfg : ServerConfig) (msg : Value) : quic_plan :=
  match sanity_check msg with
  | ErrRes res => QReply (Ready res)
  | NewReq req =>
      match resolve_handler cfg (srvc_name req) (method_name req) true with
      | HPubsub method => QSubscribe req method
      | _ => QReply (handle_request cfg None (to_value (req_msg req))).1
      end
  end.

(** Where the task of a stream is: before the first message, in the method of a
    subscription, before its response is written, in the loop, in the handler of
    a message that came in the loop, before its last response is written, and
    after its end. *)
Inductive srv_pc :=
| SWaiting
| SMethod (req : NewRequest) (method : PubSubRPCMethod)
| SResponding (response : Response)
| SStreaming
| SHandling (msg : Value)
| SFinal (response : Response)
| SEnded.

(** The task, its channel once there is one, the [notify] calls that are past
    their check, and the notifications the channel took. *)
Record srv_task := mkSrv {
  s_pc : srv_pc;
  s_chan : option Channel;
  s_notifying : list NewNotification;
  s_notified : list NewNotification;
}.

Definition new_srv : srv_task := mkSrv SWaiting None [] [].

(** After the method of a subscription. *)
Definition subscription_pc (req : NewRequest) (out : result RPCError Value) : srv_pc :=
  let response := outcome_response (Some (rq_id (req_msg req))) out in
  match out with
  | Ok _ => SResponding response
  | Err _ => SFinal response
  end.

Section server.
Context (cfg : ServerConfig) (peer : option Endpoint).

(** [srv_step s i o s']: a step that reads [i] and writes [o].  Where a handler
    completes, [c0] is the channel as the handler saw it. *)
Inductive srv_step : srv_task → option Value → list Value → srv_task → Prop :=
(** [handle_quic_stream], *)
| srv_reply msg resp :
    handle_quic_stream cfg msg = QReply (Ready resp) →
    srv_step new_srv (Some msg) [] (mkSrv (SFinal resp) None [] [])
| srv_subscription msg req method :
    handle_quic_stream cfg msg = QSubscribe req method →
    srv_step new_srv (Some msg) [] (mkSrv (SMethod req method) (Some (Channel.new peer)) [] [])
(** [handle_quic_subscription], *)
| srv_method ch ns nt req method c0 out c1 :
    method c0 (rq_method (req_msg req)) (from_option (λ v, v) VNull (rq_params (req_msg req))) =
      (Ready out, c1) →
    srv_step (mkSrv (SMethod req method) ch ns nt) None [] (mkSrv (subscription_pc req out) ch ns nt)
| srv_respond ch ns nt resp :
    srv_step (mkSrv (SResponding resp) ch ns nt) None [to_value resp] (mkSrv SStreaming ch ns nt)
(** its loop, *)
| srv_notification ch ns nt n ch' :
    Channel.recv ch = Some (Ok n, ch') →
    srv_step (mkSrv SStreaming (Some ch) ns nt) None [to_value (notification_encoder cfg n)]
      (mkSrv SStreaming (Some ch') ns nt)
| srv_message ch ns nt msg :
    srv_step (mkSrv SStreaming ch ns nt) (Some msg) [] (mkSrv (SHandling msg) ch ns nt)
| srv_handled ch ns nt msg c0 resp c1 :
    handle_request cfg (Some c0) msg = (Ready resp, c1) →
    srv_step (mkSrv (SHandling msg) ch ns nt) None [] (mkSrv (SFinal resp) ch ns nt)
(** and the last response. *)
| srv_last ch ns nt resp :
    srv_step (mkSrv (SFinal resp) ch ns nt) None [to_value resp]
      (mkSrv SEnded (Channel.close <$> ch) ns nt)
(** The task ends: reading or writing fails, the channel is closed, a method
    panics, or it is cancelled.  A notification it took may be lost. *)
| srv_end pc ch ns nt :
    srv_step (mkSrv pc ch ns nt) None [] (mkSrv SEnded (Channel.close <$> ch) ns nt)
| srv_write_failed ch ns nt n ch' :
    Channel.recv ch = Some (Ok n, ch') →
    srv_step (mkSrv SStreaming (Some ch) ns nt) None []
      (mkSrv SEnded (Some (Channel.close ch')) ns nt)
(** The service uses the channel. *)
| srv_new_subscription pc ch ns nt method id random :
    srv_step (mkSrv pc (Some ch) ns nt) None []
      (mkSrv pc (Some (Channel.new_subscription ch method id random).2) ns nt)
| srv_remove_subscription pc ch ns nt id :
    srv_step (mkSrv pc (Some ch) ns nt) None []
      (mkSrv pc (Some (Channel.remove_subscription ch id).2) ns nt)
| srv_notify pc ch ns nt s res n :
    is_u32 (s_id s) → notify_check (Some ch) s res = Ok n →
    srv_step (mkSrv pc (Some ch) ns nt) None [] (mkSrv pc (Some ch) (ns ++ [n]) nt)
| srv_notified pc ch ns nt i n ch' :
    ns !! i = Some n → Channel.send ch n = Some (Ok (), ch') →
    srv_step (mkSrv pc (Some ch) ns nt) None []
      (mkSrv pc (Some ch') (delete i ns) (nt ++ [n]))
| srv_notify_end pc ch ns nt i :
    srv_step (mkSrv pc ch ns nt) None [] (mkSrv pc ch (delete i ns) nt).

End server.

(** ** The client *)

Definition decode_notification (decoder : Notification → result jsonrpc_error NotificationResult)
    (msg : Value) : result jsonrpc_error NotificationResult :=
  match from_value (T := Notification) msg with
  | Some nt => decoder nt
  | None => Err ParseJSON
  end.

Inductive stream_kind := QCall | QSub.

(** Where the client is on a stream: waiting for the response, returned from
    [call], before the subscription is in the table, in
    [subscription_stream_task] with its two channels, after the end of it, or
    returned from [subscribe] with an error. *)
Inductive cli_pc :=
| QWait (k : stream_kind)
| QReturned (r : result jsonrpc_error Response)
| QRegistering (id : Z) (u : nat)
| QStreaming (c u : nat)
| QStopped (c : nat)
| QFailed (e : jsonrpc_error).

(** A stream: the request that opened it, the server's task, the messages under
    way in both directions, the client's part, and what the subscriber got. *)
Record qstream := mkStream {
  st_request : Value;
  st_srv : srv_task;
  st_up : list Value;
  st_down : list Value;
  st_cli : cli_pc;
  st_got : list Value;
}.

(** The channel that carries the unsubscribe request to the task of a
    subscription: what it holds, whether its sender is gone, and whether its
    receiver is there. *)
Record uchan := mkUchan {
  u_buf : option Value;
  u_closed : bool;
  u_alive : bool;
}.

(** The client and its streams.  [q_unsubscribing] has the calls of
    [unsubscribe] that are before their last step. *)
Record quic := mkQuic {
  q_disconnect : bool;
  q_subs : Subscriptions;
  q_unsub_chans : gmap Z nat;
  q_uchans : gmap nat uchan;
  q_unsubscribing : list Z;
  q_streams : list qstream;
}.

Definition new_quic (sub_buffer_size : nat) : quic :=
  mkQuic false (Subscriptions.new sub_buffer_size) ∅ ∅ [] [].

Definition drop_unsub_sender (o : option nat) (us : gmap nat uchan) : gmap nat uchan :=
  match o with
  | Some u => alter (λ uc, mkUchan (u_buf uc) true (u_alive uc)) u us
  | None => us
  end.

Definition drop_unsub_receiver (u : nat) (us : gmap nat uchan) : gmap nat uchan :=
  alter (λ uc, mkUchan (u_buf uc) (u_closed uc) false) u us.

(** [ch.send] on the sender taken out of the table, which is then dropped. *)
Definition send_unsub (o : option nat) (request : Value) (us : gmap nat uchan) : gmap nat uchan :=
  match o with
  | Some u =>
      alter (λ uc, mkUchan (if u_alive uc then Some request else u_buf uc) true (u_alive uc)) u us
  | None => us
  end.

(** What [subscription_stream_task] does with a message: the subscription after
    it, and whether the loop goes on. *)
Definition on_stream_msg (decoder : Notification → result jsonrpc_error NotificationResult)
    (size : nat) (msg : Value) (sub : JsonRpcClient.Subscription) :
    JsonRpcClient.Subscription * bool :=
  match decode_notification decoder msg with
  | Err _ => (sub, true)
  | Ok nt_res =>
      let val := from_option (λ v, v) (VString EmptyString) (nr_result nt_res) in
      match Subscriptions.notify_sub size sub val with
      | (Ok _, sub) => (sub, true)
      | (Err _, sub) => (sub, false)
      end
  end.

Definition set_schan (s : Subscriptions) (c : nat) (sub : JsonRpcClient.Subscription) :
    Subscriptions :=
  mkSubscriptions (subs s) (<[c := sub]> (schans s)) (sub_buffer_size s).

Section system.
Context (cfg : ServerConfig) (peer : option Endpoint).
Context (decoder : Notification → result jsonrpc_error NotificationResult).

Inductive quic_step : quic → quic → Prop :=
(** [call] or [subscribe] opens a stream and writes its request, with a random
    identifier. *)
| q_open sb uc us un sts k id method params :
    is_u32 id →
    let request := to_value (new_request id method params) in
    quic_step (mkQuic false sb uc us un sts)
      (mkQuic false sb uc us un (sts ++ [mkStream request new_srv [request] [] (QWait k) []]))
(** The server's task of a stream. *)
| q_server x sb uc us un sts i rq s inp up down out s' c g :
    sts !! i = Some (mkStream rq s (option_list inp ++ up) down c g) →
    srv_step cfg peer s inp out s' →
    quic_step (mkQuic x sb uc us un sts)
      (mkQuic x sb uc us un (<[i := mkStream rq s' up (down ++ out) c g]> sts))
(** [call] gets the response, *)
| q_call_response x sb uc us un sts i rq s up msg down g :
    sts !! i = Some (mkStream rq s up (msg :: down) (QWait QCall) g) →
    quic_step (mkQuic x sb uc us un sts)
      (mkQuic x sb uc us un
        (<[i := mkStream rq s up down (QReturned (ok_or (from_value msg) ParseJSON)) g]> sts))
(** [subscribe] gets a response that grants the subscription, and puts a new
    channel in the table, *)
| q_granted x sb uc us un sts i rq s up msg down g r id u :
    sts !! i = Some (mkStream rq s up (msg :: down) (QWait QSub) g) →
    from_value msg = Some r → subscribe_result r = Ok id → us !! u = None →
    quic_step (mkQuic x sb uc us un sts)
      (mkQuic x sb (<[id := u]> uc)
        (<[u := mkUchan None false true]> (drop_unsub_sender (uc !! id) us)) un
        (<[i := mkStream rq s up down (QRegistering id u) g]> sts))
(** or one that does not; *)
| q_refused x sb uc us un sts i rq s up msg down g e :
    sts !! i = Some (mkStream rq s up (msg :: down) (QWait QSub) g) →
    match from_value msg with Some r => subscribe_result r = Err e | None => e = ParseJSON end →
    quic_step (mkQuic x sb uc us un sts)
      (mkQuic x sb uc us un (<[i := mkStream rq s up down (QFailed e) g]> sts))
(** reading fails; *)
| q_read_failed x sb uc us un sts i rq s up down g k e :
    sts !! i = Some (mkStream rq s up down (QWait k) g) →
    quic_step (mkQuic x sb uc us un sts)
      (mkQuic x sb uc us un (<[i := mkStream rq s up down (QFailed (JKaryonNet e)) g]> sts))
(** the subscription is in the table, and the task starts. *)
| q_registered x sb uc us un sts i rq s up down g id u c :
    sts !! i = Some (mkStream rq s up down (QRegistering id u) g) → schans sb !! c = None →
    quic_step (mkQuic x sb uc us un sts)
      (mkQuic x (Subscriptions.subscribe sb id c) uc us un
        (<[i := mkStream rq s up down (QStreaming c u) g]> sts))
(** [subscription_stream_task] takes a message, *)
| q_message x sb uc us un sts i rq s up msg down g c u sub sub' :
    sts !! i = Some (mkStream rq s up (msg :: down) (QStreaming c u) g) →
    schans sb !! c = Some sub →
    on_stream_msg decoder (sub_buffer_size sb) msg sub = (sub', true) →
    quic_step (mkQuic x sb uc us un sts)
      (mkQuic x (set_schan sb c sub') uc us un
        (<[i := mkStream rq s up down (QStreaming c u) g]> sts))
| q_message_last x sb uc us un sts i rq s up msg down g c u sub sub' :
    sts !! i = Some (mkStream rq s up (msg :: down) (QStreaming c u) g) →
    schans sb !! c = Some sub →
    on_stream_msg decoder (sub_buffer_size sb) msg sub = (sub', false) →
    quic_step (mkQuic x sb uc us un sts)
      (mkQuic x (set_schan sb c sub') uc (drop_unsub_receiver u us) un
        (<[i := mkStream rq s up down (QStopped c) g]> sts))
(** takes the unsubscribe request, which it writes, *)
| q_forward x sb uc us un sts i rq s up down g c u req cl al :
    sts !! i = Some (mkStream rq s up down (QStreaming c u) g) →
    us !! u = Some (mkUchan (Some req) cl al) →
    quic_step (mkQuic x sb uc us un sts)
      (mkQuic x sb uc (drop_unsub_receiver u us) un
        (<[i := mkStream rq s (up ++ [req]) down (QStopped c) g]> sts))
(** sees that nobody can send one any more, *)
| q_unsub_closed x sb uc us un sts i rq s up down g c u al :
    sts !! i = Some (mkStream rq s up down (QStreaming c u) g) →
    us !! u = Some (mkUchan None true al) →
    quic_step (mkQuic x sb uc us un sts)
      (mkQuic x sb uc (drop_unsub_receiver u us) un
        (<[i := mkStream rq s up down (QStopped c) g]> sts))
(** or ends: reading or writing fails, or it is cancelled. *)
| q_task_end x sb uc us un sts i rq s up down g c u :
    sts !! i = Some (mkStream rq s up down (QStreaming c u) g) →
    quic_step (mkQuic x sb uc us un sts)
      (mkQuic x sb uc (drop_unsub_receiver u us) un
        (<[i := mkStream rq s up down (QStopped c) g]> sts))
(** [unsubscribe] in its two steps. *)
| q_unsubscribe x sb uc us un sts id method rid :
    is_u32 rid →
    quic_step (mkQuic x sb uc us un sts)
      (mkQuic x sb (delete id uc)
        (send_unsub (uc !! id) (to_value (new_request rid method (int_ser id))) us)
        (un ++ [id]) sts)
| q_unsubscribed x sb uc us un sts i id :
    un !! i = Some id →
    quic_step (mkQuic x sb uc us un sts)
      (mkQuic x (Subscriptions.unsubscribe sb id) uc us (delete i un) sts)
(** A subscriber receives. *)
| q_recv x sb uc us un sts i rq s up down cl g c sub v sub' :
    sts !! i = Some (mkStream rq s up down cl g) →
    cl = QStopped c ∨ (∃ u, cl = QStreaming c u) →
    schans sb !! c = Some sub → Subscriptions.recv sub = Some (Ok v, sub') →
    quic_step (mkQuic x sb uc us un sts)
      (mkQuic x (set_schan sb c sub') uc us un
        (<[i := mkStream rq s up down cl (g ++ [v])]> sts)).

End system.
