(* ===== verification/JsonRpcQuicSpec.v ===== *)
(** * Correctness of JSON-RPC over QUIC streams

    A subscriber gets the results its service sent, in order and without gaps,
    whatever the interleaving of the tasks; a call gets the outcome of its
    method.  A run then shows how one subscription silences another. *)

From S2P Require Import Prelude Codec Endpoint Framed Json.
From S2P Require Import JsonRpcServer JsonRpcServerSpec JsonRpcClient JsonRpcClientSpec JsonRpcExchange.
From S2P Require Import JsonRpcQuic.

Local Open Scope Z_scope.

(** What the encoder of the server and the decoder of the client promise each
    other: a notification arrives with its result and its subscription. *)
Class NotificationCodec (enc : NewNotification → Notification)
    (dec : Notification → result jsonrpc_error NotificationResult) : Prop :=
  notification_codec n : is_u32 (nn_sub_id n) →
    decode_notification dec (to_value (enc n)) =
      Ok (mkNotificationResult (wire_opt (Some (nn_result n))) (nn_sub_id n)).

#[export] Instance default_codec :
  NotificationCodec default_notification_encoder default_notification_decoder.
Proof.
  intros n Hn. unfold decode_notification. rewrite Notification_roundtrip. simpl.
  unfold default_notification_decoder. simpl. by rewrite NotificationResult_roundtrip.
Qed.

(** A subscriber sees [null] as the empty string. *)
Definition arrives (v : Value) : Value :=
  from_option (λ v, v) (VString EmptyString) (wire_opt (Some v)).

Lemma Response_no_notification dec r : ∃ e, decode_notification dec (to_value (T := Response) r) = Err e.
Proof.
  exists ParseJSON. unfold decode_notification.
  assert (from_value (T := Notification) (to_value r) = None) as ->; [|done].
  destruct r as [j i re e]. unfold from_value, Notification_de, to_value, Response_ser.
  by destruct i, re, e.
Qed.

Section spec.
Context (cfg : ServerConfig) (peer : option Endpoint).
Context (decoder : Notification → result jsonrpc_error NotificationResult).
Context `{!NotificationCodec (notification_encoder cfg) decoder}.
Notation step := (quic_step cfg peer decoder).

(** ** The flow of notifications *)

(** The value a message of the stream has for the subscriber. *)
Definition delivered (msg : Value) : option Value :=
  match decode_notification decoder msg with
  | Ok r => Some (from_option (λ v, v) (VString EmptyString) (nr_result r))
  | Err _ => None
  end.

Lemma delivered_response (r : Response) : delivered (to_value r) = None.
Proof. unfold delivered. by destruct (Response_no_notification decoder r) as [e ->]. Qed.

Lemma delivered_notification n :
  is_u32 (nn_sub_id n) → delivered (to_value (notification_encoder cfg n)) = Some (arrives (nn_result n)).
Proof. intros Hn. unfold delivered. by rewrite notification_codec. Qed.

Definition values (ns : list NewNotification) : list Value := (arrives ∘ nn_result) <$> ns.

(** The notifications that wait in the channel of a stream. *)
Definition channel_buf (s : srv_task) : list NewNotification := from_option ch_buf [] (s_chan s).

(** The values that wait for the subscriber. *)
Definition sub_waiting (m : gmap nat JsonRpcClient.Subscription) (p : cli_pc) : list Value :=
  match p with
  | QStreaming c _ | QStopped c => from_option sub_buf [] (m !! c)
  | _ => []
  end.

Definition sub_chan (p : cli_pc) : option nat :=
  match p with QStreaming c _ | QStopped c => Some c | _ => None end.

Definition listening (p : cli_pc) : Prop :=
  match p with QWait _ | QRegistering _ _ | QStreaming _ _ => True | _ => False end.

(** Everything the channel took is with the subscriber, on its way, or still
    there; after the end of a task the rest is lost. *)
Definition flow (s : srv_task) (down got : list Value) (p : cli_pc) : Prop :=
  ∃ mid, values (s_notified s) = got ++ mid ∧
    (listening p → ∃ rest, mid = omap delivered down ++ rest ∧
      (s_pc s ≠ SEnded → rest = values (channel_buf s))).

(** The first message of the server is a response. *)
Definition response_first (s : srv_task) (down : list Value) (p : cli_pc) : Prop :=
  ∀ k, p = QWait k →
    match down with
    | [] => s_pc s ≠ SStreaming
    | msg :: _ => delivered msg = None
    end.

Definition ids_ok (s : srv_task) : Prop :=
  Forall (λ n, is_u32 (nn_sub_id n)) (s_notifying s ++ channel_buf s).

Definition stream_ok (m : gmap nat JsonRpcClient.Subscription) (st : qstream) : Prop :=
  ids_ok (st_srv st) ∧ response_first (st_srv st) (st_down st) (st_cli st) ∧
  flow (st_srv st) (st_down st) (st_got st ++ sub_waiting m (st_cli st)) (st_cli st) ∧
  (∀ c, sub_chan (st_cli st) = Some c → is_Some (m !! c)).

(** What a step of the server's task does with the notifications: it writes
    those it takes out of the channel, it ends, or the channel takes one. *)
Inductive srv_effect (s : srv_task) (out : list Value) (s' : srv_task) : Prop :=
| effect_write :
    s_notified s' = s_notified s → (s_pc s = SEnded → s_pc s' = SEnded ∧ out = []) →
    values (channel_buf s) = omap delivered out ++ values (channel_buf s') →
    srv_effect s out s'
| effect_end :
    s_notified s' = s_notified s → s_pc s' = SEnded → omap delivered out = [] →
    srv_effect s out s'
| effect_push n :
    s_notified s' = s_notified s ++ [n] → s_pc s' = s_pc s → out = [] →
    channel_buf s' = channel_buf s ++ [n] → srv_effect s out s'.

Ltac channel_facts :=
  try match goal with H : Channel.recv _ = _ |- _ => apply recv_cases in H end;
  try match goal with H : Channel.send _ _ = _ |- _ => apply send_cases in H as [? _] end;
  unfold ids_ok, channel_buf, values in *; simpl in *;
  rewrite ?subscribe_buf, ?unsubscribe_buf in *.

Lemma ids_ok_step s inp out s' :
  ids_ok s → srv_step cfg peer s inp out s' → ids_ok s'.
Proof.
  intros Hok Hs. destruct Hs; channel_facts; try done; try (by destruct ch);
    rewrite ?Forall_app in Hok; destruct_and?; rewrite ?Forall_app; split_and!; try done;
    try (by apply Forall_delete).
  - rewrite H in *. by apply Forall_cons in H1 as [_ ?].
  - rewrite H in *. by apply Forall_cons in H1 as [_ ?].
  - unfold notify_check in *. case_match; [|done]. simplify_eq/=. by rewrite Forall_singleton.
  - rewrite H0, Forall_app, Forall_singleton. split; [done|]. by eapply Forall_lookup_1 in H1.
Qed.

Lemma srv_step_effect s inp out s' :
  ids_ok s → srv_step cfg peer s inp out s' → srv_effect s out s'.
Proof.
  intros Hok Hs. destruct Hs; channel_facts.
  all: try (by apply effect_write; channel_facts).
  all: try (by apply effect_end).
  - apply effect_write; simpl; rewrite ?delivered_response; done.
  - apply effect_write; channel_facts; [done..|].
    match goal with H : ch_buf ch = _ |- _ => rewrite H in * end.
    apply Forall_app in Hok as [_ [Hn _]%Forall_cons]. by rewrite delivered_notification.
  - apply effect_end; simpl; by rewrite ?delivered_response.
  - by eapply effect_push.
Qed.

Lemma ended_dec s : s_pc s = SEnded ∨ s_pc s ≠ SEnded.
Proof. destruct (s_pc s); by auto. Qed.

(** The flow goes on under the steps of the server's task, *)
Lemma flow_server s inp out s' down got p :
  ids_ok s → srv_step cfg peer s inp out s' → flow s down got p → flow s' (down ++ out) got p.
Proof.
  intros Hok Hs (mid & Hmid & Hlisten).
  destruct (srv_step_effect _ _ _ _ Hok Hs) as [Hnt Hend Hbuf|Hnt Hend Hout|n Hnt Hpc -> Hbuf];
    unfold flow; rewrite Hnt.
  - exists mid. split; [done|]. intros (rest & -> & Hrest)%Hlisten. rewrite omap_app.
    destruct (ended_dec s) as [He|He].
    + exists rest. destruct (Hend He) as [? ->]. by rewrite app_nil_r.
    + exists (values (channel_buf s')). by rewrite (Hrest He), Hbuf, app_assoc.
  - exists mid. split; [done|]. intros (rest & -> & _)%Hlisten. exists rest.
    by rewrite omap_app, Hout, app_nil_r.
  - exists (mid ++ values [n]). unfold values in *. rewrite fmap_app, Hmid, app_assoc.
    split; [done|]. intros (rest & -> & Hrest)%Hlisten. exists (rest ++ values [n]).
    rewrite app_nil_r, app_assoc, Hpc, Hbuf, fmap_app. split; [done|].
    by intros ->%Hrest.
Qed.

Lemma response_first_server s inp out s' down p :
  srv_step cfg peer s inp out s' → response_first s down p → response_first s' (down ++ out) p.
Proof.
  intros Hs Hfirst k Hp. specialize (Hfirst k Hp). destruct down as [|msg down]; [|done].
  destruct Hs; simpl in *; try done; by rewrite ?delivered_response || (by destruct out).
Qed.

(** and under those of the client. *)
Lemma flow_skip s msg down got p p' :
  delivered msg = None → (listening p' → listening p) → flow s (msg :: down) got p → flow s down got p'.
Proof.
  intros Hmsg Hp (mid & Hmid & Hlisten). exists mid. split; [done|].
  intros (rest & -> & Hrest)%Hp%Hlisten. exists rest. simpl. by rewrite Hmsg.
Qed.

Lemma flow_deliver s msg v down got c u :
  delivered msg = Some v → flow s (msg :: down) got (QStreaming c u) →
  flow s down (got ++ [v]) (QStreaming c u).
Proof.
  intros Hmsg (mid & Hmid & Hlisten). destruct Hlisten as (rest & -> & Hrest); [done|].
  simpl in *. rewrite Hmsg in *. exists (omap delivered down ++ rest).
  split; [by rewrite Hmid, <-app_assoc|]. intros _. by exists rest.
Qed.

Lemma flow_stop s down down' got p p' : ¬ listening p' → flow s down got p → flow s down' got p'.
Proof. intros Hp (mid & Hmid & _). by exists mid. Qed.

(** ** The invariant *)

Definition distinct_chans (sts : list qstream) : Prop :=
  ∀ i j st st' c, sts !! i = Some st → sts !! j = Some st' →
    sub_chan (st_cli st) = Some c → sub_chan (st_cli st') = Some c → i = j.

Definition quic_inv (q : quic) : Prop :=
  (∀ i st, q_streams q !! i = Some st → stream_ok (schans (q_subs q)) st) ∧
  distinct_chans (q_streams q).

Lemma stream_ok_ext m m' st :
  (∀ c, sub_chan (st_cli st) = Some c → sub_buf <$> m' !! c = sub_buf <$> m !! c) →
  stream_ok m st → stream_ok m' st.
Proof.
  intros Hext (Hids & Hfirst & Hflow & Hm). split_and!; [done..| |].
  - replace (sub_waiting m' (st_cli st)) with (sub_waiting m (st_cli st)); [done|].
    unfold sub_waiting. destruct (st_cli st) as [| | |c u|c|]; try done;
      specialize (Hext c eq_refl); by destruct (m !! c), (m' !! c); simplify_eq/=.
  - intros c Hc. specialize (Hext c Hc). destruct (Hm c Hc) as [sub Hsub].
    rewrite Hsub in Hext. by destruct (m' !! c).
Qed.

(** A stream changes, with at most its own channel. *)
Lemma quic_inv_update q q' i st st' :
  quic_inv q → q_streams q !! i = Some st → q_streams q' = <[i := st']> (q_streams q) →
  stream_ok (schans (q_subs q')) st' →
  (∀ c, sub_chan (st_cli st') ≠ Some c →
    sub_buf <$> schans (q_subs q') !! c = sub_buf <$> schans (q_subs q) !! c) →
  (∀ c, sub_chan (st_cli st') = Some c →
    sub_chan (st_cli st) = Some c ∨ schans (q_subs q) !! c = None) →
  quic_inv q'.
Proof.
  intros [Hok Hd] Hi Hq' Hst' Hext Hnew. unfold quic_inv. rewrite Hq'.
  assert (∀ j stj c, i ≠ j → q_streams q !! j = Some stj → sub_chan (st_cli stj) = Some c →
    sub_chan (st_cli st') ≠ Some c) as Hother.
  { intros j stj c Hij Hj Hc Hc'. destruct (Hnew c Hc') as [Hc''|Hnone].
    - by apply Hij, (Hd i j st stj c).
    - destruct (Hok j stj Hj) as (_ & _ & _ & Hm). destruct (Hm c Hc) as [? ?]. congruence. }
  split.
  - intros j stj [(-> & <- & _)|[Hij Hj]]%list_lookup_insert_Some; [done|].
    apply (stream_ok_ext (schans (q_subs q))); [|by apply (Hok j)].
    intros c Hc. by apply Hext, (Hother j stj).
  - intros j k stj stk c Hj Hk Hcj Hck.
    apply list_lookup_insert_Some in Hj as [(-> & -> & _)|[Hij Hj]];
      apply list_lookup_insert_Some in Hk as [(-> & -> & _)|[Hik Hk]]; try done.
    + by destruct (Hother k stk c Hik Hk Hck).
    + by destruct (Hother j stj c Hij Hj Hcj).
    + by apply (Hd j k stj stk c).
Qed.

Lemma quic_inv_same q q' :
  quic_inv q → q_streams q' = q_streams q →
  (∀ c, sub_buf <$> schans (q_subs q') !! c = sub_buf <$> schans (q_subs q) !! c) → quic_inv q'.
Proof.
  intros [Hok Hd] Hq' Hext. unfold quic_inv. rewrite Hq'. split; [|done].
  intros i st Hi. apply (stream_ok_ext (schans (q_subs q))); [by intros c _|by apply (Hok i)].
Qed.

Lemma quic_inv_open x sb uc us un sts k request :
  quic_inv (mkQuic x sb uc us un sts) →
  quic_inv (mkQuic x sb uc us un (sts ++ [mkStream request new_srv [request] [] (QWait k) []])).
Proof.
  intros [Hok Hd]. unfold distinct_chans in Hd. split; simpl in *.
  - intros i st [Hi|[_ [_ <-]%list_lookup_singleton_Some]]%lookup_app_Some; [by apply (Hok i)|].
    split_and!; simpl; try done; [by apply Forall_nil|]. exists []. split; [done|]. intros _. by exists [].
  - intros i j st st' c Hi Hj Hc Hc'.
    apply lookup_app_Some in Hi as [Hi|[_ [_ <-]%list_lookup_singleton_Some]]; [|done].
    apply lookup_app_Some in Hj as [Hj|[_ [_ <-]%list_lookup_singleton_Some]]; [|done].
    by apply (Hd i j st st' c).
Qed.

(** The task of a subscription puts what a message delivers in the buffer. *)
Lemma on_stream_msg_cases size msg sub sub' go :
  on_stream_msg decoder size msg sub = (sub', go) →
  (delivered msg = None ∧ sub' = sub ∧ go = true) ∨
  (∃ v, delivered msg = Some v ∧ go = true ∧ sub_buf sub' = sub_buf sub ++ [v]) ∨
  (go = false ∧ sub' = sub).
Proof.
  unfold on_stream_msg, delivered. destruct (decode_notification decoder msg) as [r|e]; [|naive_solver].
  unfold Subscriptions.notify_sub. repeat case_match; naive_solver.
Qed.

Lemma unsubscribe_sub_buf sb id c :
  sub_buf <$> schans (Subscriptions.unsubscribe sb id) !! c = sub_buf <$> schans sb !! c.
Proof.
  unfold Subscriptions.unsubscribe. destruct (subs sb !! id) as [c'|]; [|done]. simpl.
  unfold Subscriptions.close_chan. destruct (decide (c = c')) as [->|Hne].
  - rewrite lookup_alter_eq. by destruct (schans sb !! c').
  - by rewrite lookup_alter_ne.
Qed.

(** A stream changes with the contents of its channel. *)
Lemma quic_inv_channel q q' i st st' c sub :
  quic_inv q → q_streams q !! i = Some st → q_streams q' = <[i := st']> (q_streams q) →
  schans (q_subs q') = <[c := sub]> (schans (q_subs q)) →
  sub_chan (st_cli st') = Some c → sub_chan (st_cli st) = Some c ∨ schans (q_subs q) !! c = None →
  ids_ok (st_srv st') → response_first (st_srv st') (st_down st') (st_cli st') →
  flow (st_srv st') (st_down st') (st_got st' ++ sub_buf sub) (st_cli st') →
  quic_inv q'.
Proof.
  intros Hinv Hi Hq' Hm Hc Hold Hids Hfirst Hflow.
  apply (quic_inv_update q q' i st st'); rewrite ?Hm; try done.
  - split_and!; try done.
    + replace (sub_waiting _ _) with (sub_buf sub); [done|].
      destruct (st_cli st'); simplify_eq/=; by rewrite lookup_insert_eq.
    + intros c' Hc'. rewrite Hc in Hc'. simplify_eq. rewrite lookup_insert_eq. by eexists.
  - intros c' Hc'. rewrite lookup_insert_ne; [done|congruence].
  - intros c' Hc'. rewrite Hc in Hc'. by simplify_eq.
Qed.

Ltac stream_case Hinv :=
  match goal with H : ?sts !! ?i = Some (mkStream _ _ _ _ _ _) |- _ =>
    destruct (proj1 Hinv _ _ H) as (Hids & Hfirst & Hflow & Hm); simpl in *;
    eapply quic_inv_update; [exact Hinv|exact H|reflexivity|..]; simpl; try (by auto);
    try (split_and!; simpl; try done)
  end.

Lemma quic_step_inv q q' : quic_inv q → step q q' → quic_inv q'.
Proof.
  intros Hinv Hstep. destruct Hstep.
  all: try (by apply quic_inv_open).
  all: try (stream_case Hinv; eapply flow_stop; [by intros []|exact Hflow]).
  - stream_case Hinv; [by eapply ids_ok_step|by eapply response_first_server|by eapply flow_server].
  - stream_case Hinv. apply (flow_skip _ msg _ _ (QWait QSub)); [exact (Hfirst QSub eq_refl)|done|done].
  - destruct (proj1 Hinv _ _ H) as (Hids & _ & Hflow & _).
    eapply (quic_inv_channel _ _ i); [done|exact H|done|done|done|by right|done|done|exact Hflow].
  - destruct (proj1 Hinv _ _ H) as (Hids & _ & Hflow & _). simpl in Hflow. rewrite H0 in Hflow.
    eapply (quic_inv_channel _ _ i); [done|exact H|done|done|done|by left|done..|]. simpl.
    destruct (on_stream_msg_cases _ _ _ _ _ H1) as [(? & -> & _)|[(v & ? & _ & ->)|[? _]]]; [| |done].
    + by eapply flow_skip.
    + rewrite app_assoc. by eapply flow_deliver.
  - destruct (proj1 Hinv _ _ H) as (Hids & _ & Hflow & _). simpl in Hflow. rewrite H0 in Hflow.
    eapply (quic_inv_channel _ _ i); [done|exact H|done|done|done|by left|done..|]. simpl.
    destruct (on_stream_msg_cases _ _ _ _ _ H1) as [(_ & _ & ?)|[(? & _ & ? & _)|[_ ->]]]; [done..|].
    eapply flow_stop; [by intros []|exact Hflow].
  - by apply (quic_inv_same _ _ Hinv).
  - apply (quic_inv_same _ _ Hinv); [done|]. intros c. apply unsubscribe_sub_buf.
  - destruct (proj1 Hinv _ _ H) as (Hids & Hfirst & Hflow & _). simpl in Hfirst, Hflow.
    assert (sub_chan cl = Some c) as Hcl by (by destruct H0 as [->|[u ->]]).
    assert (sub_waiting (schans sb) cl = sub_buf sub) as Hw
      by (destruct cl; simplify_eq/=; by rewrite H1).
    rewrite Hw in Hflow.
    eapply (quic_inv_channel _ _ i); [done|exact H|done|done|done|by left|done..|]. simpl.
    unfold Subscriptions.recv in H2. destruct (sub_buf sub); [by destruct (sub_closed sub)|].
    simplify_eq/=. by rewrite <-app_assoc.
Qed.

Lemma quic_inv_reachable size q : rtc step (new_quic size) q → quic_inv q.
Proof.
  intros Hrtc. remember (new_quic size) as q0 eqn:Hq0.
  assert (quic_inv q0) as Hinv by (subst; split; [intros i st Hi|intros i j st st' c Hi]; done).
  clear Hq0. induction Hrtc; [done|]. by eapply IHHrtc, quic_step_inv.
Qed.

(** C15: A subscriber over QUIC gets what its service sent.  At every moment of
    every run, on every stream, what the subscriber took, with what waits in
    its buffer, is a prefix of the results that the services sent on the
    stream's channel, in their order and without gaps; while both tasks of the
    stream run, the rest is exactly what is on the wire and in the channel. *)
Theorem quic_subscription_exact size q i st :
  rtc step (new_quic size) q → q_streams q !! i = Some st →
  let got := st_got st ++ sub_waiting (schans (q_subs q)) (st_cli st) in
  got `prefix_of` values (s_notified (st_srv st)) ∧
  (listening (st_cli st) → s_pc (st_srv st) ≠ SEnded →
    values (s_notified (st_srv st)) =
      got ++ omap delivered (st_down st) ++ values (channel_buf (st_srv st))).
Proof.
  intros Hq Hi got. destruct (proj1 (quic_inv_reachable _ _ Hq) i st Hi) as (_ & _ & Hflow & _).
  destruct Hflow as (mid & Hmid & Hlisten). split; [by exists mid|].
  intros (rest & -> & Hrest)%Hlisten Hpc. by rewrite Hmid, (Hrest Hpc).
Qed.

End spec.

(** ** Runs on the last stream *)

Section last.
Context (cfg : ServerConfig) (peer : option Endpoint).
Context (decoder : Notification → result jsonrpc_error NotificationResult).
Context (x : bool) (un : list Z) (sts : list qstream) (rq : Value).
Notation step := (quic_step cfg peer decoder).

Lemma lookup_last (st : qstream) : (sts ++ [st]) !! length sts = Some st.
Proof. by apply list_lookup_middle. Qed.

Lemma insert_last (st st' : qstream) : <[length sts := st']> (sts ++ [st]) = sts ++ [st'].
Proof. by rewrite insert_app_r_alt, Nat.sub_diag. Qed.

Lemma last_server sb uc us s inp up down out s' c g :
  srv_step cfg peer s inp out s' →
  step (mkQuic x sb uc us un (sts ++ [mkStream rq s (option_list inp ++ up) down c g]))
    (mkQuic x sb uc us un (sts ++ [mkStream rq s' up (down ++ out) c g])).
Proof.
  intros Hs. rewrite <-(insert_last (mkStream rq s (option_list inp ++ up) down c g) (mkStream rq s' up _ c g)).
  eapply q_server; [apply lookup_last|done].
Qed.

Lemma last_granted sb uc us s up msg r id u c :
  from_value msg = Some r → subscribe_result r = Ok id → us !! u = None → schans sb !! c = None →
  rtc step (mkQuic x sb uc us un (sts ++ [mkStream rq s up [msg] (QWait QSub) []]))
    (mkQuic x (Subscriptions.subscribe sb id c) (<[id := u]> uc)
      (<[u := mkUchan None false true]> (drop_unsub_sender (uc !! id) us)) un
      (sts ++ [mkStream rq s up [] (QStreaming c u) []])).
Proof.
  intros Hmsg Hr Hu Hc. eapply rtc_l.
  { eapply q_granted; [apply lookup_last|done..]. }
  rewrite insert_last. eapply rtc_l; [|apply rtc_refl].
  rewrite <-(insert_last (mkStream rq s up [] (QRegistering id u) []) (mkStream rq s up [] (QStreaming c u) [])).
  eapply q_registered; [apply lookup_last|done].
Qed.

End last.

(** ** Calls *)

(** The server's answer to a request of a method that is not a subscription. *)
Lemma handle_quic_stream_call cfg svc m id params :
  no_dot svc → (∀ g, resolve_handler cfg svc m true ≠ HPubsub g) →
  handle_quic_stream cfg (to_value (new_request id (full_name svc m) params)) =
    QReply (poll_map (outcome_response (Some (int_ser id))) (method_outcome cfg svc m params)).
Proof.
  intros Hd Hno. unfold handle_quic_stream.
  rewrite (sanity_check_request _ svc m) by done. cbn [srvc_name method_name req_msg].
  set (r := wire_request _).
  assert (handle_request cfg None (to_value r) =
    (poll_map (outcome_response (Some (int_ser id))) (method_outcome cfg svc m params), None)) as Hr.
  { unfold handle_request, method_outcome. rewrite (sanity_check_request r svc m) by done.
    cbn [srvc_name method_name req_msg]. unfold r, wire_request. simpl.
    replace (from_option _ VNull (wire_opt (wire_opt (Some params)))) with params by (by destruct params).
    unfold resolve_handler. simpl. by destruct (services cfg !! svc ≫= _). }
  destruct (resolve_handler cfg svc m true) as [g| |] eqn:Hh; [by destruct (Hno g)|by rewrite Hr..].
Qed.

Section calls.
Context (cfg : ServerConfig) (peer : option Endpoint).
Context (decoder : Notification → result jsonrpc_error NotificationResult).
Context (svc m : string) (id : Z) (params : Value) (out : result RPCError Value).
Hypothesis id_u32 : is_u32 id.
Hypothesis svc_no_dot : no_dot svc.
Hypothesis not_pubsub : ∀ g, resolve_handler cfg svc m true ≠ HPubsub g.
Hypothesis method_out : method_outcome cfg svc m params = Ready out.
Hypothesis out_wf : outcome_wf out.
Notation step := (quic_step cfg peer decoder).

Let rq : Value := to_value (new_request id (full_name svc m) params).
Let resp : Response := outcome_response (Some (int_ser id)) out.

(** Where a call is. *)
Definition call_state (s : srv_task) (up down : list Value) (p : cli_pc) : Prop :=
  match p with
  | QWait QCall =>
      (s = new_srv ∧ up = [rq] ∧ down = []) ∨ (s_pc s = SFinal resp ∧ down = []) ∨
      (s_pc s = SEnded ∧ (down = [] ∨ down = [to_value resp]))
  | QReturned r => r = Ok (wire_response resp)
  | _ => True
  end.

Definition calls_inv (q : quic) : Prop :=
  ∀ i st, q_streams q !! i = Some st → st_request st = rq →
    call_state (st_srv st) (st_up st) (st_down st) (st_cli st).

Lemma answer_rq : handle_quic_stream cfg rq = QReply (Ready resp).
Proof. unfold rq. by rewrite handle_quic_stream_call, method_out. Qed.

Lemma call_state_server s inp up down o s' p :
  call_state s (option_list inp ++ up) down p → srv_step cfg peer s inp o s' →
  call_state s' up (down ++ o) p.
Proof.
  intros Hc Hs. destruct p as [[]| | | | |]; try done.
  destruct Hc as [(-> & Hup & ->)|[[Hpc ->]|[Hpc Hdown]]].
  - inversion Hs; subst; simplify_eq/=; try (right; right; by auto).
    + rewrite answer_rq in *. simplify_eq. by auto.
    + by rewrite answer_rq in *.
    + left. by destruct i.
  - destruct Hs; simplify_eq/=; by auto.
  - right. right. destruct Hs; simplify_eq/=; rewrite ?app_nil_r; by auto.
Qed.

Lemma calls_step_inv q q' : calls_inv q → step q q' → calls_inv q'.
Proof.
  intros Hinv Hstep j st. destruct Hstep; simpl.
  all: try (intros [(-> & <- & _)|[_ Hj]]%list_lookup_insert_Some; [|by apply (Hinv j)];
    simpl; intros Hrq; pose proof (Hinv _ _ H Hrq) as Hc; simpl in Hc).
  all: try done.
  all: try (by apply (Hinv j)).
  - intros [Hj|[_ [_ <-]%list_lookup_singleton_Some]]%lookup_app_Some; [by apply (Hinv j)|].
    simpl. intros Hrq. unfold request in *. rewrite Hrq. destruct k; by auto.
  - by eapply call_state_server.
  - destruct Hc as [(_ & _ & ?)|[[_ ?]|[_ [?|Hd]]]]; try done. simplify_eq.
    by rewrite Response_roundtrip by (by apply outcome_response_wf).
Qed.

Lemma calls_inv_reachable size q : rtc step (new_quic size) q → calls_inv q.
Proof.
  intros Hrtc. remember (new_quic size) as q0 eqn:Hq0.
  assert (calls_inv q0) as Hinv by (subst; intros i st Hi; done).
  clear Hq0. induction Hrtc; [done|]. by eapply IHHrtc, calls_step_inv.
Qed.

(** The run of a call on a new stream. *)
Lemma call_runs q :
  q_disconnect q = false →
  ∃ q' st, rtc step q q' ∧ q_streams q' !! length (q_streams q) = Some st ∧
    st_request st = rq ∧ st_cli st = QReturned (Ok (wire_response resp)).
Proof.
  destruct q as [x sb uc us un sts]. simpl. intros ->.
  set (s1 := mkSrv (SFinal resp) None [] []). set (s2 := mkSrv SEnded None [] []).
  set (st := mkStream rq s2 [] [] (QReturned (Ok (wire_response resp))) []).
  exists (mkQuic false sb uc us un (sts ++ [st])), st. split_and!; [|by apply lookup_last|done..].
  eapply rtc_l; [by apply (q_open _ _ _ _ _ _ _ _ QCall id (full_name svc m) params)|].
  eapply rtc_l; [apply (last_server _ _ _ _ _ _ _ _ _ _ new_srv (Some rq) [] [] [] s1);
    apply srv_reply, answer_rq|].
  eapply rtc_l; [apply (last_server _ _ _ _ _ _ _ _ _ _ s1 None [] [] [to_value resp] s2);
    apply srv_last|].
  eapply rtc_l; [apply (q_call_response _ _ _ _ _ _ _ _ _ (length sts) rq s2 [] (to_value resp) [] []);
    apply lookup_last|].
  rewrite insert_last, Response_roundtrip by (by apply outcome_response_wf). apply rtc_refl.
Qed.

(** A call over QUIC does what it says.  In every run, a call that returned
    got the outcome of its method, as in a call over one connection, whatever
    the other streams do; and a call that is made can return. *)
Theorem quic_call_exact {V} `{Deserialize V} size q :
  rtc step (new_quic size) q →
  (∀ i st r, q_streams q !! i = Some st →
    st_request st = to_value (new_request id (full_name svc m) params) → st_cli st = QReturned r →
    ∃ resp, r = Ok resp ∧ call_result resp = caller_outcome (V := V) out) ∧
  (q_disconnect q = false → ∃ q' i st r, rtc step q q' ∧ q_streams q' !! i = Some st ∧
    st_request st = to_value (new_request id (full_name svc m) params) ∧ st_cli st = QReturned r).
Proof.
  intros Hq. split.
  - intros i st r Hi Hrq Hcli. pose proof (calls_inv_reachable _ _ Hq i st Hi Hrq) as Hc.
    rewrite Hcli in Hc. simpl in Hc. exists (wire_response resp). split; [done|].
    by destruct out as [[]|[]].
  - intros (q' & st & Hq' & Hi & Hrq & Hcli)%call_runs. by eauto 10.
Qed.

End calls.

(** ** Subscriptions with one identifier *)

(** A service whose subscriptions all have the identifier 7. *)
Definition watch : PubSubRPCMethod := λ ch method _,
  (Ready (Ok (int_ser 7)), (Channel.new_subscription ch method (Some 7) 0).2).

Definition feed : ServerConfig := mkServerConfig ∅
  {["Feed" := λ m, if decide (m = "watch") then Some watch else None]} default_notification_encoder.

Notation feed_step := (quic_step feed None default_notification_decoder).

Definition watch_request (k : Z) : Value := to_value (new_request k "Feed.watch" VNull).
Definition watch_chan : Channel :=
  (Channel.new_subscription (Channel.new None) "Feed.watch" (Some 7) 0).2.
Definition watching (k : Z) (c u : nat) : qstream :=
  mkStream (watch_request k) (mkSrv SStreaming (Some watch_chan) [] []) [] [] (QStreaming c u) [].

(** A subscription in every step, from opening the stream to the task. *)
Lemma watch_run sb uc us un sts k c u :
  is_u32 k → us !! u = None → schans sb !! c = None →
  rtc feed_step (mkQuic false sb uc us un sts)
    (mkQuic false (Subscriptions.subscribe sb 7 c) (<[7 := u]> uc)
      (<[u := mkUchan None false true]> (drop_unsub_sender (uc !! 7) us)) un (sts ++ [watching k c u])).
Proof.
  intros Hk Hu Hc. set (rq := watch_request k).
  set (req := mkNewRequest "Feed" "watch" (wire_request (new_request k "Feed.watch" VNull))).
  set (resp := outcome_response (Some (int_ser k)) (Ok (int_ser 7))).
  set (s1 := mkSrv (SMethod req watch) (Some (Channel.new None)) [] []).
  set (s2 := mkSrv (SMethod req watch) (Some watch_chan) [] []).
  set (s3 := mkSrv (SResponding resp) (Some watch_chan) [] []).
  set (s4 := mkSrv SStreaming (Some watch_chan) [] []).
  assert (handle_quic_stream feed rq = QSubscribe req watch) as Hplan.
  { unfold handle_quic_stream, rq, watch_request.
    by rewrite (sanity_check_request _ "Feed" "watch") by done. }
  eapply rtc_l; [by apply (q_open _ _ _ _ _ _ _ _ QSub k "Feed.watch" VNull)|].
  eapply rtc_l; [apply (last_server _ _ _ _ _ _ _ _ _ _ new_srv (Some rq) [] [] [] s1);
    by apply srv_subscription|].
  eapply rtc_l; [apply (last_server _ _ _ _ _ _ _ _ _ _ s1 None [] [] [] s2);
    apply srv_new_subscription|].
  eapply rtc_l; [apply (last_server _ _ _ _ _ _ _ _ _ _ s2 None [] [] [] s3);
    by apply (srv_method _ _ _ _ _ req watch (Channel.new None) (Ok (int_ser 7)) watch_chan)|].
  eapply rtc_l; [apply (last_server _ _ _ _ _ _ _ _ _ _ s3 None [] [] [to_value resp] s4);
    apply srv_respond|].
  apply (last_granted _ _ _ _ _ _ _ _ _ _ s4 [] (to_value resp) (wire_response resp)); [|done..].
  by apply Response_roundtrip, outcome_response_wf.
Qed.

(** Two subscribers; then the task of the first sees its channel closed. *)
Definition two_watching : quic :=
  mkQuic false (Subscriptions.subscribe (Subscriptions.subscribe (Subscriptions.new 5) 7 0%nat) 7 1%nat)
    {[7 := 1%nat]} {[0%nat := mkUchan None true true; 1%nat := mkUchan None false true]} []
    [watching 1 0 0; watching 2 1 1].
Definition one_silenced : quic :=
  mkQuic false (q_subs two_watching) (q_unsub_chans two_watching)
    (drop_unsub_receiver 0 (q_uchans two_watching)) []
    [mkStream (watch_request 1) (st_srv (watching 1 0 0)) [] [] (QStopped 0) []; watching 2 1 1].

Lemma two_watching_run : rtc feed_step (new_quic 5) two_watching.
Proof.
  etrans; [by apply (watch_run _ _ _ _ _ 1 0 0)|].
  etrans; [by apply (watch_run _ _ _ _ _ 2 1 1)|]. apply reflexive_eq.
  unfold two_watching. f_equal; vm_compute; reflexivity.
Qed.

(** Nobody fills or closes the channel of a subscription that is out of the
    table and whose task ended. *)
Definition silenced (c : nat) (q : quic) : Prop :=
  schans (q_subs q) !! c = Some (mkSubscription [] false) ∧
  (∀ id, subs (q_subs q) !! id ≠ Some c) ∧
  Forall (λ st, ∀ u, st_cli st ≠ QStreaming c u) (q_streams q).

Lemma silenced_step cfg peer decoder c q q' :
  silenced c q → quic_step cfg peer decoder q q' → silenced c q'.
Proof.
  intros (Hc & Hsubs & Hsts) Hstep. unfold silenced in *. destruct Hstep; simpl in *.
  all: try match goal with H : ?l !! _ = Some (mkStream _ _ _ _ _ _) |- _ =>
    pose proof (Forall_lookup_1 _ _ _ _ Hsts H) as Hold; simpl in Hold end.
  all: split_and!; try done; try (by apply Forall_insert).
  - apply Forall_app. by rewrite Forall_singleton.
  - rewrite lookup_insert_ne; [done|congruence].
  - intros id'. rewrite lookup_insert_Some. intros [[_ ->]|[_ ?]]; [congruence|by eapply Hsubs].
  - apply Forall_insert; [done|]. intros ? [= ->]. congruence.
  - rewrite lookup_insert_ne; [done|]. intros ->. by eapply Hold.
  - rewrite lookup_insert_ne; [done|]. intros ->. by eapply Hold.
  - unfold Subscriptions.unsubscribe, Subscriptions.close_chan.
    destruct (subs sb !! id) as [c'|] eqn:Hid; [|done]. simpl.
    rewrite lookup_alter_ne; [done|]. intros ->. by eapply Hsubs.
  - intros id'. unfold Subscriptions.unsubscribe. destruct (subs sb !! id) as [c'|] eqn:Hid; [|done].
    simpl. intros [_ ?]%lookup_delete_Some. by eapply Hsubs.
  - rewrite lookup_insert_ne; [done|]. intros ->. by simplify_eq/=.
Qed.

(** Subscriptions of different streams can silence each other.  The server
    chooses identifiers per stream, the client keeps one table for all of them:
    when a second subscription gets an identifier that is in use, the task of
    the first one ends, although nobody unsubscribed and the server goes on;
    its subscriber then waits in every continuation, and the channel is not
    even closed. *)
Theorem quic_subscription_silenced :
  rtc feed_step (new_quic 5) two_watching ∧ feed_step two_watching one_silenced ∧
  q_unsubscribing one_silenced = [] ∧
  (∃ st, q_streams one_silenced !! 0%nat = Some st ∧ st_cli st = QStopped 0 ∧
    s_pc (st_srv st) = SStreaming) ∧
  ∀ q, rtc feed_step one_silenced q →
    ∃ sub, schans (q_subs q) !! 0%nat = Some sub ∧ Subscriptions.recv sub = None.
Proof.
  split_and!; [apply two_watching_run| |done|by eexists|].
  - by apply (q_unsub_closed _ _ _ false (q_subs two_watching) _ (q_uchans two_watching) []
      [watching 1 0 0; watching 2 1 1] 0 _ _ [] [] [] 0 0 true).
  - intros q Hq. exists (mkSubscription [] false). split; [|done].
    assert (silenced 0 one_silenced) as Hs.
    { split_and!; [done| |by repeat constructor].
      intros id. vm_compute. intros ?. by repeat case_match. }
    induction Hq as [|q1 q2 q3 Hstep _ IH]; [by destruct Hs|]. by eapply IH, silenced_step.
Qed.

(** ** Witnesses *)

Definition tick (b : bool) : NewNotification := mkNewNotification 7 (VBool b) "Feed.watch".

(** A subscriber took one result, and the next one is on the wire. *)
Definition ticked : qstream :=
  mkStream (watch_request 1) (mkSrv SStreaming (Some watch_chan) [] [tick true; tick false]) []
    [to_value (default_notification_encoder (tick false))] (QStreaming 0 0) [VBool true].
Definition after_ticks : quic :=
  mkQuic false (Subscriptions.subscribe (Subscriptions.new 5) 7 0%nat) {[7 := 0%nat]}
    {[0%nat := mkUchan None false true]} [] [ticked].

(** The service sends a result, and the server writes it. *)
Lemma tick_run sb uc us un nt down g c u b :
  rtc feed_step
    (mkQuic false sb uc us un [mkStream (watch_request 1) (mkSrv SStreaming (Some watch_chan) [] nt)
      [] down (QStreaming c u) g])
    (mkQuic false sb uc us un [mkStream (watch_request 1)
      (mkSrv SStreaming (Some watch_chan) [] (nt ++ [tick b])) []
      (down ++ [to_value (default_notification_encoder (tick b))]) (QStreaming c u) g]).
Proof.
  set (ch := mkChannel [tick b] true (ch_subs watch_chan) None).
  eapply rtc_l.
  { apply (last_server _ _ _ _ _ [] _ _ _ _ _ None [] down []
      (mkSrv SStreaming (Some watch_chan) [tick b] nt)).
    by apply (srv_notify _ _ _ _ [] nt (JsonRpcServer.mkSubscription 7 "Feed.watch") (VBool b)). }
  rewrite app_nil_r. eapply rtc_l.
  { apply (last_server _ _ _ _ _ [] _ _ _ _ _ None [] down []
      (mkSrv SStreaming (Some ch) [] (nt ++ [tick b]))).
    by apply (srv_notified _ _ _ _ [tick b] nt 0). }
  rewrite app_nil_r. eapply rtc_l; [|apply rtc_refl].
  apply (last_server _ _ _ _ _ [] _ _ _ _ _ None [] down
    [to_value (default_notification_encoder (tick b))]
    (mkSrv SStreaming (Some watch_chan) [] (nt ++ [tick b]))).
  by apply (srv_notification feed None ch [] (nt ++ [tick b]) (tick b) watch_chan).
Qed.

Lemma after_ticks_run : rtc feed_step (new_quic 5) after_ticks.
Proof.
  etrans; [by apply (watch_run _ _ _ _ _ 1 0 0)|]. etrans; [apply (tick_run _ _ _ _ [] [] [] _ _ true)|].
  eapply rtc_l; [eapply (q_message _ _ _ _ _ _ _ _ _ 0%nat); [reflexivity..|]; vm_compute; reflexivity|].
  eapply rtc_l; [eapply (q_recv _ _ _ _ _ _ _ _ _ 0%nat _ _ _ _ _ _ 0%nat);
    [reflexivity|right; by eexists|reflexivity..]|].
  etrans; [apply (tick_run _ _ _ _ [tick true] [] _ _ _ false)|]. apply reflexive_eq.
  unfold after_ticks. f_equal; vm_compute; reflexivity.
Qed.

Lemma quic_subscription_exact_witness :
  values (s_notified (st_srv ticked)) = [VBool true] ++ [VBool false] ++ [].
Proof.
  destruct (quic_subscription_exact feed None default_notification_decoder 5 after_ticks 0 ticked
    after_ticks_run eq_refl) as [_ H]. apply H; [exact I|discriminate].
Defined.

Lemma quic_call_exact_witness :
  ∃ q i st r resp, rtc (quic_step calc None default_notification_decoder) (new_quic 5) q ∧
    q_streams q !! i = Some st ∧ st_cli st = QReturned r ∧ r = Ok resp ∧
    call_result (V := Value) resp = Ok (int_ser 42).
Proof.
  assert (is_u32 5) as Hid by (by unfold_u).
  pose proof (quic_call_exact (V := Value) calc None default_notification_decoder "Calc" "inc" 5
    (int_ser 41) (Ok (int_ser 42)) Hid I (λ g, ltac:(discriminate)) eq_refl I 5) as H.
  destruct (H (new_quic 5) (rtc_refl _ _)) as [_ Hrun].
  destruct (Hrun eq_refl) as (q & i & st & r & Hq & Hi & Hrq & Hr).
  destruct (H q Hq) as [Hret _]. destruct (Hret i st r Hi Hrq Hr) as (resp & Hok & Hres).
  exists q, i, st, r, resp. split_and!; assumption.
Defined.
