(* ===== verification/JsonRpcHttp.v ===== *)
(** * JSON-RPC over HTTP

    Models the HTTP backends of JSON-RPC: the request handlers of
    [jsonrpc/src/server/http] for HTTP/1.1 and HTTP/2 ([h1h2.rs]) and HTTP/3
    ([h3.rs]), the client's calls of [jsonrpc/src/client/http], and the body
    helpers of [jsonrpc/src/codec.rs].

    The HTTP libraries are parameters: the class [Http] has the header values
    they take and how a body of hyper arrives, and the data frames of an HTTP/3
    stream are a script of events.  The codec is any codec of JSON values; [BodyCodec] is what a body
    needs of it. *)

From S2P Require Import Prelude Codec Endpoint Framed Utf8 Json.
From S2P Require Import JsonRpcServer JsonRpcServerSpec JsonRpcClient JsonRpcClientSpec JsonRpcExchange.
From S2P Require Import JsonRpcQuic JsonRpcQuicSpec.
From Stdlib Require Import Ascii.

Local Open Scope Z_scope.

(** ** Messages in bodies *)

Definition DEFAULT_CONTENT_TYPE : string := "application/json".

Section body.
Context {C : Type} `{Codec C Value net_error} (codec : C).

Definition encode_msg (msg : Value) : result jsonrpc_error (list Z) :=
  match encode codec msg Buffer.new with
  | (Ok _, buf) => Ok (inner buf)
  | (Err e, _) => Err (JKaryonNet e)
  end.

Definition decode_body (body : list Z) : result jsonrpc_error Value :=
  match decode codec (Buffer.from_slice body) with
  | Ok (Some (_, msg)) => Ok msg
  | Ok None => Err (JInvalidMsg "Incomplete message")
  | Err e => Err (JKaryonNet e)
  end.

End body.

(** ** Requests and responses *)

Inductive Method := POST | OtherMethod.

Definition OK : Z := 200.
Definition BAD_REQUEST : Z := 400.
Definition METHOD_NOT_ALLOWED : Z := 405.
Definition PAYLOAD_TOO_LARGE : Z := 413.
Definition INTERNAL_SERVER_ERROR : Z := 500.

Record http_response := mkHttpResponse {
  hr_status : Z;
  hr_content_type : string;
  hr_body : list Z;
}.

Record http_request := mkHttpRequest {
  hq_method : Method;
  hq_content_type : string;
  hq_host : option string;
  hq_body : list Z;
}.

(** What collecting a body gives, within a limit or without one. *)
Inductive collected :=
| Collected (body : list Z)
| LengthLimitError
| BodyError.

(** The header values that are valid, the requests that can be built, and bodies
    as hyper hands them over: [sent bs] is the body that arrives for the bytes
    [bs]. *)
Class Http := {
  header_ok : string → bool;
  request_ok : http_request → bool;
  body : Type;
  sent : list Z → body;
  size_hint_upper : body → option Z;
  collect : option Z → body → collected;
}.

Class HttpLaws `{Http} : Prop := {
  header_default : header_ok DEFAULT_CONTENT_TYPE = true;
  hint_sent bs n : size_hint_upper (sent bs) = Some n → n = len bs;
  collect_sent bs limit : from_option (λ n, len bs ≤ n) True limit →
    collect limit (sent bs) = Collected bs;
  collect_limited b n bs : collect (Some n) b = Collected bs →
    collect None b = Collected bs ∧ len bs ≤ n;
}.

(** ** The server *)

Definition MAX_HTTP_BODY_SIZE : Z := 1024 * 1024.

(** The texts of the source, with double quotes for single ones. *)
Fixpoint quoted (s : string) : string :=
  match s with
  | EmptyString => EmptyString
  | String c s => String (if bool_decide (c = "'"%char) then ascii_of_nat 34 else c) (quoted s)
  end.

Definition ERR_METHOD_NOT_ALLOWED : string := quoted
  "{'jsonrpc':'2.0','error':{'code':-32600,'message':'Only POST method is accepted'},'id':null}".
Definition ERR_BODY_TOO_LARGE : string := quoted
  "{'jsonrpc':'2.0','error':{'code':-32600,'message':'Request body too large'},'id':null}".
Definition ERR_READ_BODY : string := quoted
  "{'jsonrpc':'2.0','error':{'code':-32700,'message':'Failed to read request body'},'id':null}".
Definition ERR_ENCODE_RESPONSE : string := quoted
  "{'jsonrpc':'2.0','error':{'code':-32603,'message':'Failed to encode response'},'id':null}".

(** A header value that is not valid makes [unwrap] panic. *)
Definition json_response_bytes `{Http} (status : Z) (content_type : string) (body : list Z) :
    poll http_response :=
  if header_ok content_type then Ready (mkHttpResponse status content_type body) else Panicked.

Definition json_response `{Http} (status : Z) (body : string) : poll http_response :=
  json_response_bytes status DEFAULT_CONTENT_TYPE (bytes_of body).

Definition parse_error_response : Response :=
  mkResponse JSONRPC_VERSION None None
    (Some (mkErrorObj PARSE_ERROR_CODE FAILED_TO_PARSE_ERROR_MSG None)).

Section server.
Context `{Http} {C : Type} `{Codec C Value net_error} (codec : C).
Context (cfg : ServerConfig) (content_type : string).

Definition encode_response (resp : Response) : result jsonrpc_error (list Z) :=
  encode_msg codec (to_value resp).

Definition encode_hyper_response (resp : Response) : poll http_response :=
  match encode_response resp with
  | Ok body => json_response_bytes OK content_type body
  | Err _ => json_response INTERNAL_SERVER_ERROR ERR_ENCODE_RESPONSE
  end.

Definition handle_hyper_request (method : Method) (b : body) : poll http_response :=
  match method with
  | OtherMethod => json_response METHOD_NOT_ALLOWED ERR_METHOD_NOT_ALLOWED
  | POST =>
      if from_option (λ n, n >? MAX_HTTP_BODY_SIZE) false (size_hint_upper b)
      then json_response PAYLOAD_TOO_LARGE ERR_BODY_TOO_LARGE
      else
        match collect (Some MAX_HTTP_BODY_SIZE) b with
        | LengthLimitError => json_response PAYLOAD_TOO_LARGE ERR_BODY_TOO_LARGE
        | BodyError => json_response BAD_REQUEST ERR_READ_BODY
        | Collected body =>
            let response :=
              match decode_body codec body with
              | Ok msg => (handle_request cfg None msg).1
              | Err _ => Ready parse_error_response
              end in
            match response with
            | Ready response => encode_hyper_response response
            | Pending => Pending
            | Panicked => Panicked
            end
        end
  end.

(** ** HTTP/3 *)

(** What [recv_data] gives: data, the end of the stream, or an error. *)
Inductive h3_event :=
| HData (chunk : list Z)
| HEnd
| HError.

(** The loop of the two readers, with the limit of one of them. *)
Fixpoint frames_next (limit : option Z) (buf : Buffer) (evs : list h3_event) :
    poll (result jsonrpc_error (option Value)) * Buffer * list h3_event :=
  match decode codec buf with
  | Err e => (Ready (Err (JKaryonNet e)), buf, evs)
  | Ok (Some (n, msg)) =>
      match Buffer.advance buf n with
      | Some buf => (Ready (Ok (Some msg)), buf, evs)
      | None => (Panicked, buf, evs)
      end
  | Ok None =>
      if from_option (λ n, Buffer.len buf >? n) false limit
      then (Ready (Err (JBufferFull "request body too large")), buf, evs)
      else
        match evs with
        | [] => (Pending, buf, [])
        | HData chunk :: evs => frames_next limit (Buffer.extend_from_slice buf chunk) evs
        | HEnd :: evs => (Ready (Ok None), buf, evs)
        | HError :: evs => (Ready (Err (HttpError "{}")), buf, evs)
        end
  end.

(** [BodyReader::next]. *)
Definition body_next (buf : Buffer) (evs : list h3_event) :=
  frames_next (Some MAX_HTTP_BODY_SIZE) buf evs.

(** What the handler does: it sends a response, fails without one, or serves a
    subscription with what is left of the request body. *)
Inductive h3_action :=
| H3Send (response : http_response)
| H3Fail (e : jsonrpc_error)
| H3Subscription (req : NewRequest) (method : PubSubRPCMethod) (buf : Buffer) (evs : list h3_event).

Definition h3_send (status : Z) (content_type : string) (body : list Z) : h3_action :=
  if header_ok content_type then H3Send (mkHttpResponse status content_type body)
  else H3Fail (HttpError "{}").

Definition h3_respond (resp : Response) : h3_action :=
  match encode_response resp with
  | Ok body => h3_send OK content_type body
  | Err e => H3Fail e
  end.

Definition handle_h3_request (method : Method) (evs : list h3_event) : poll h3_action :=
  match method with
  | OtherMethod => Ready (h3_send METHOD_NOT_ALLOWED DEFAULT_CONTENT_TYPE (bytes_of ERR_METHOD_NOT_ALLOWED))
  | POST =>
      match body_next Buffer.new evs with
      | (Pending, _, _) => Pending
      | (Panicked, _, _) => Panicked
      | (Ready (Err (JBufferFull _)), _, _) =>
          Ready (h3_send PAYLOAD_TOO_LARGE DEFAULT_CONTENT_TYPE (bytes_of ERR_BODY_TOO_LARGE))
      | (Ready (Err (HttpError err)), _, _) => Ready (H3Fail (HttpError err))
      | (Ready (Ok None), _, _) | (Ready (Err _), _, _) => Ready (h3_respond parse_error_response)
      | (Ready (Ok (Some msg)), buf, evs) =>
          match sanity_check msg with
          | ErrRes res => Ready (h3_respond res)
          | NewReq req =>
              match resolve_handler cfg (srvc_name req) (method_name req) true with
              | HPubsub method => Ready (H3Subscription req method buf evs)
              | _ => poll_map h3_respond (handle_request cfg None (to_value (req_msg req))).1
              end
          end
      end
  end.

End server.

(** ** The client *)

Record HttpConfig := mkHttpConfig {
  http2 : bool;
  host : option string;
  content_type : string;
}.

Section client.
Context `{Http} {C : Type} `{Codec C Value net_error} (codec : C).
Context (config : HttpConfig).

(** HTTP/2 has no [Host] header. *)
Definition build_request (msg : Value) : result jsonrpc_error http_request :=
  match encode_msg codec msg with
  | Ok body =>
      let req := mkHttpRequest POST (content_type config)
                   (if http2 config then None else host config) body in
      if request_ok req then Ok req else Err (HttpError "{}")
  | Err e => Err e
  end.

Definition response_of (v : Value) : result jsonrpc_error Response := ok_or (from_value v) ParseJSON.

Definition parse_response (status : Z) (b : body) : result jsonrpc_error Response :=
  if negb (status =? OK) then Err (HttpError "HTTP error: {}")
  else
    match collect None b with
    | Collected body =>
        match decode_body codec body with
        | Ok v => response_of v
        | Err e => Err e
        end
    | _ => Err (HttpError "{}")
    end.

(** [h1::send] and [h2::send], where [request] is the exchange of the HTTP
    library, the connection it needs and its errors. *)
Definition hyper_send (request : http_request → poll (result jsonrpc_error (Z * body)))
    (msg : Value) : poll (result jsonrpc_error Response) :=
  match build_request msg with
  | Err e => Ready (Err e)
  | Ok req =>
      poll_map (λ r, match r with
        | Ok (status, b) => parse_response status b
        | Err e => Err e
        end) (request req)
  end.

(** The loop of [H3Reader::next] has no limit. *)
Definition next_response (buf : Buffer) (evs : list h3_event) :
    poll (result jsonrpc_error Response) * Buffer * list h3_event :=
  let '(r, buf, evs) := frames_next codec None buf evs in
  (poll_map (λ r, match r with
    | Ok (Some msg) => response_of msg
    | Ok None => Err (HttpError "H3 stream closed before response")
    | Err e => Err e
    end) r, buf, evs).

(** [start_request]. *)
Definition start_request (msg : Value) : result jsonrpc_error http_request :=
  match encode_msg codec msg with
  | Ok body =>
      let req := mkHttpRequest POST (content_type config) None body in
      if request_ok req then Ok req else Err (HttpError "{}")
  | Err e => Err e
  end.

(** [read_response]: the status is checked before the reader exists. *)
Definition read_response (status : Z) : result jsonrpc_error Buffer :=
  if negb (status =? OK) then Err (HttpError "HTTP/3 error: {}") else Ok Buffer.new.

(** [h3::send], where [request] gives the status and the events of the response. *)
Definition h3_send_request (request : http_request → poll (result jsonrpc_error (Z * list h3_event)))
    (msg : Value) : poll (result jsonrpc_error Response) :=
  match start_request msg with
  | Err e => Ready (Err e)
  | Ok req =>
      match request req with
      | Pending => Pending
      | Panicked => Panicked
      | Ready (Err e) => Ready (Err e)
      | Ready (Ok (status, evs)) =>
          match read_response status with
          | Err e => Ready (Err e)
          | Ok buf => (next_response buf evs).1.1
          end
      end
  end.

End client.

(** [http_call]: [expired] says whether the timeout, if there is one, comes
    first. *)
Definition http_call (timeout : option Z) (expired : bool)
    (send_request : Value → poll (result jsonrpc_error Response))
    (id : Z) (method : string) (params : Value) : poll (result jsonrpc_error Response) :=
  let msg := to_value (new_request id method params) in
  match timeout with
  | Some _ => if expired then Ready (Err (JKaryonCore CoreTimeout)) else send_request msg
  | None => send_request msg
  end.

(** ** Bodies round trip *)

(** What a body needs of a codec: a whole encoding decodes to its message, and a
    strict prefix of one asks for more. *)
Class BodyCodec {C} `{Codec C Value net_error} (codec : C) (valid : Value → Prop)
    (frame : Value → list Z) : Prop := {
  body_encode m : valid m → ∃ n, encode codec m Buffer.new = (Ok n, mkBuffer (frame m));
  body_decode m : valid m → decode codec (mkBuffer (frame m)) = Ok (Some (len (frame m), m));
  body_partial m p q : valid m → frame m = p ++ q → q ≠ [] → decode codec (mkBuffer p) = Ok None;
}.

(** The codec of a framed connection can encode bodies. *)
#[export] Instance framing_body {C} `{Codec C Value net_error} (codec : C) valid frame :
  Framing codec valid frame → BodyCodec codec valid frame.
Proof.
  intros F. split.
  - intros m Hm. destruct (framing_encode m Buffer.new Hm) as [n Hn]. by exists n.
  - intros m Hm. rewrite <-(framing_decode m [] Hm). by rewrite app_nil_r.
  - apply framing_partial.
Qed.

(** So can the JSON codec, for values that end by themselves and fit. *)
Definition json_frame `{JsonText} (v : Value) : list Z := from_option id [] (to_json v).
Definition json_valid `{JsonText} (c : JsonCodec.t) (v : Value) : Prop :=
  delimited v ∧ is_Some (to_json v) ∧ len (json_frame v) ≤ JsonCodec.max_size c.

#[export] Instance json_body `{JsonTextLaws} (c : JsonCodec.t) :
  BodyCodec c (json_valid c) json_frame.
Proof.
  split.
  - intros m (_ & [text Ht] & Hlen). unfold json_frame in *. simpl. unfold JsonCodec.encode.
    rewrite Ht in *. simpl in *. replace (_ >? _) with false by lia. by eexists.
  - intros m (Hd & [text Ht] & Hlen). unfold json_frame in *. simpl. unfold JsonCodec.decode, Buffer.len.
    rewrite Ht in *. simpl in *. replace (_ >? _) with false by lia.
    pose proof (next_item_json m text [] Hd Ht) as Hn. by rewrite app_nil_r in Hn; rewrite Hn.
  - intros m p q (Hd & [text Ht] & Hlen) Hpq Hq. unfold json_frame in *. simpl.
    unfold JsonCodec.decode, Buffer.len. rewrite Ht in *. simpl in *. subst text.
    rewrite len_app in Hlen. pose proof (len_nonneg q). simpl. replace (_ >? _) with false by lia.
    by destruct (next_item_cut m (p ++ q) p q Hd Ht eq_refl Hq) as [-> | ->].
Qed.

Section roundtrip.
Context {C : Type} `{Codec C Value net_error} (codec : C).
Context (valid : Value → Prop) (frame : Value → list Z) `{!BodyCodec codec valid frame}.

Lemma encode_msg_valid m : valid m → encode_msg codec m = Ok (frame m).
Proof. intros Hm. unfold encode_msg. by destruct (body_encode m Hm) as [n ->]. Qed.

Lemma decode_body_valid m : valid m → decode_body codec (frame m) = Ok m.
Proof. intros Hm. unfold decode_body, Buffer.from_slice. simpl. by rewrite body_decode. Qed.

(** However the body is cut into data frames, a reader finds its message. *)
Lemma frames_next_chunks limit m p chunks tail :
  valid m → p ++ concat chunks = frame m → from_option (λ n, len (frame m) ≤ n) True limit →
  ∃ evs, frames_next codec limit (mkBuffer p) ((HData <$> chunks) ++ tail) =
    (Ready (Ok (Some m)), Buffer.new, evs).
Proof.
  intros Hm. revert p. induction chunks as [|chunk chunks IH]; intros p Hp Hlimit; simpl in Hp.
  - rewrite app_nil_r in Hp. subst p. exists tail.
    assert (Buffer.advance (mkBuffer (frame m)) (len (frame m)) = Some Buffer.new) as Ha.
    { rewrite <-(app_nil_r (frame m)) at 1. by apply Buffer.advance_app. }
    destruct tail; simpl; by rewrite body_decode, Ha by done.
  - destruct (decide (chunk ++ concat chunks = [])) as [Hnil|Hne].
    + rewrite Hnil, app_nil_r in Hp. subst p. eexists. simpl. rewrite body_decode by done.
      rewrite <-(app_nil_r (frame m)) at 1. by rewrite Buffer.advance_app.
    + destruct (IH (p ++ chunk)) as [evs Hevs]; [by rewrite <-app_assoc|done|].
      exists evs. simpl. rewrite (body_partial m p (chunk ++ concat chunks)) by done.
      replace (from_option _ false limit) with false; [done|].
      destruct limit as [n|]; [|done]. simpl in *. unfold Buffer.len. simpl.
      assert (len p ≤ len (frame m))
        by (rewrite <-Hp, len_app; pose proof (len_nonneg (chunk ++ concat chunks)); lia).
      lia.
Qed.

End roundtrip.

(** ** Limits *)

Section limits.
Context `{HttpLaws} {C : Type} `{Codec C Value net_error} (codec : C) (content_type : string).

(** The size of a request body is bounded.  Over HTTP/1.1 and HTTP/2 a body
    above the limit is refused, whatever the services are: none of them sees
    it.  Over HTTP/3 the buffer never exceeds the limit by more than the data of
    one read, however long the body is. *)
Theorem http_body_limit k :
  (∀ b, (∀ bs, collect None b = Collected bs → MAX_HTTP_BODY_SIZE < len bs) →
    ∃ resp, hr_status resp ∈ [PAYLOAD_TOO_LARGE; BAD_REQUEST] ∧
      ∀ cfg, handle_hyper_request codec cfg content_type POST b = Ready resp) ∧
  (∀ evs buf r buf' evs', Forall (λ ev, ∀ c, ev = HData c → len c ≤ k) evs →
    Buffer.len buf ≤ MAX_HTTP_BODY_SIZE + k → body_next codec buf evs = (r, buf', evs') →
    (∀ m, r ≠ Ready (Ok (Some m))) → Buffer.len buf' ≤ MAX_HTTP_BODY_SIZE + k).
Proof.
  split.
  - intros b Hb. unfold handle_hyper_request, json_response, json_response_bytes. rewrite header_default.
    destruct (from_option _ false _); [eexists; split; [|done]; set_solver|].
    destruct (collect (Some _) b) as [bs| |] eqn:Hc; [|eexists; split; [|done]; set_solver..].
    apply collect_limited in Hc as [Hc Hlen]. specialize (Hb bs Hc). lia.
  - unfold body_next. induction evs as [|ev evs IH]; intros buf r buf' evs' Hk Hbuf Hr Hm; simpl in Hr.
    + destruct (decode codec buf) as [[[n msg]|]|e]; [| |by simplify_eq].
      * destruct (Buffer.advance buf n); simplify_eq; [by destruct (Hm msg)|done].
      * destruct (Buffer.len buf >? MAX_HTTP_BODY_SIZE); by simplify_eq.
    + apply Forall_cons in Hk as [Hev Hk].
      destruct (decode codec buf) as [[[n msg]|]|e]; [| |by simplify_eq].
      { destruct (Buffer.advance buf n); simplify_eq; [by destruct (Hm msg)|done]. }
      destruct (Buffer.len buf >? MAX_HTTP_BODY_SIZE) eqn:Hlen; [by simplify_eq|].
      destruct ev as [chunk| |]; [|by simplify_eq..]. eapply IH; [done| |done|done].
      specialize (Hev chunk eq_refl). unfold Buffer.len in *. simpl. rewrite len_app. lia.
Qed.

End limits.

(** ** Calls *)

(** The server of HTTP/3 plans as the server of QUIC streams does. *)
Lemma h3_plan `{Http} {C} `{Codec C Value net_error} (codec : C) cfg ct evs msg buf evs' :
  body_next codec Buffer.new evs = (Ready (Ok (Some msg)), buf, evs') →
  handle_h3_request codec cfg ct POST evs =
    match handle_quic_stream cfg msg with
    | QReply response => poll_map (h3_respond codec ct) response
    | QSubscribe req method => Ready (H3Subscription req method buf evs')
    end.
Proof.
  intros Hnext. unfold handle_h3_request, handle_quic_stream. rewrite Hnext.
  destruct (sanity_check msg) as [req|res]; [|done].
  by destruct (resolve_handler cfg (srvc_name req) (method_name req) true).
Qed.

Section calls.
Context `{HttpLaws} {C : Type} `{Codec C Value net_error} (client_codec server_codec : C).
Context (valid : Value → Prop) (frame : Value → list Z).
Context `{!BodyCodec client_codec valid frame} `{!BodyCodec server_codec valid frame}.
Context (config : HttpConfig) (cfg : ServerConfig) (ct : string).
Context (cut : list Z → list (list Z)).
Hypothesis cut_concat : ∀ bs, concat (cut bs) = bs.

(** The client and the server of one exchange: the HTTP library delivers bodies
    whole, the HTTP/3 library in any pieces. *)
Definition hyper_exchange (req : http_request) : poll (result jsonrpc_error (Z * body)) :=
  poll_map (λ r, Ok (hr_status r, sent (hr_body r)))
    (handle_hyper_request server_codec cfg ct (hq_method req) (sent (hq_body req))).

Definition h3_stream (bs : list Z) : list h3_event := (HData <$> cut bs) ++ [HEnd].

Definition h3_exchange (req : http_request) : poll (result jsonrpc_error (Z * list h3_event)) :=
  poll_map (λ a, match a with
    | H3Send r => Ok (hr_status r, h3_stream (hr_body r))
    | _ => Err (HttpError "H3 recv: {}")
    end) (handle_h3_request server_codec cfg ct (hq_method req) (h3_stream (hq_body req))).

Context (svc m : string) (id : Z) (params : Value) (out : result RPCError Value).
Let rq : Value := to_value (new_request id (full_name svc m) params).
Let resp : Response := outcome_response (Some (int_ser id)) out.

Hypothesis svc_no_dot : no_dot svc.
Hypothesis not_pubsub : ∀ g, resolve_handler cfg svc m true ≠ HPubsub g.
Hypothesis method_out : method_outcome cfg svc m params = Ready out.
Hypothesis out_wf : outcome_wf out.
Hypothesis rq_valid : valid rq.
Hypothesis rq_size : len (frame rq) ≤ MAX_HTTP_BODY_SIZE.
Hypothesis resp_valid : valid (to_value resp).
Hypothesis ct_ok : header_ok ct = true.
Hypothesis config_ok : ∀ h bs, request_ok (mkHttpRequest POST (content_type config) h bs) = true.

Lemma response_of_resp : response_of (to_value resp) = Ok (wire_response resp).
Proof. unfold response_of. by rewrite Response_roundtrip by (by apply outcome_response_wf). Qed.

Lemma hyper_call : hyper_send client_codec config hyper_exchange rq = Ready (Ok (wire_response resp)).
Proof.
  unfold hyper_send, build_request. rewrite (encode_msg_valid _ valid frame) by done. rewrite config_ok.
  unfold hyper_exchange, handle_hyper_request. cbn [hq_method hq_body].
  replace (from_option _ false (size_hint_upper (sent (frame rq)))) with false.
  2: { destruct (size_hint_upper _) as [n|] eqn:Hn; [|done]. apply hint_sent in Hn as ->. simpl. lia. }
  rewrite collect_sent, (decode_body_valid _ valid frame) by done. unfold rq at 1.
  rewrite handle_request_call by (done || unfold resolve_handler; simpl; by case_match).
  rewrite method_out. simpl. fold resp. unfold encode_hyper_response, encode_response.
  rewrite (encode_msg_valid _ valid frame) by done. unfold json_response_bytes. rewrite ct_ok. simpl.
  unfold parse_response. simpl. rewrite collect_sent, (decode_body_valid _ valid frame) by done.
  by rewrite response_of_resp.
Qed.

Lemma h3_call : h3_send_request client_codec config h3_exchange rq = Ready (Ok (wire_response resp)).
Proof.
  unfold h3_send_request, start_request. rewrite (encode_msg_valid _ valid frame) by done. rewrite config_ok.
  unfold h3_exchange. cbn [hq_method hq_body].
  destruct (frames_next_chunks server_codec valid frame (Some MAX_HTTP_BODY_SIZE) rq [] (cut (frame rq)) [HEnd])
    as [evs Hevs]; [done|by rewrite cut_concat|done|].
  rewrite (h3_plan _ _ _ _ rq Buffer.new evs) by exact Hevs.
  unfold rq at 1. rewrite handle_quic_stream_call, method_out by done. simpl. fold resp.
  unfold h3_respond, encode_response. rewrite (encode_msg_valid _ valid frame) by done.
  unfold h3_send. rewrite ct_ok. simpl. unfold next_response.
  destruct (frames_next_chunks client_codec valid frame None (to_value resp) []
    (cut (frame (to_value resp))) [HEnd]) as [evs' Hevs']; [done|by rewrite cut_concat|done|].
  unfold h3_stream, Buffer.new. rewrite Hevs'. simpl. by rewrite response_of_resp.
Qed.

(** C16: A call over HTTP does what it says.  Over HTTP/1.1, HTTP/2 and HTTP/3, a
    call whose messages fit goes through the encoding, the request, the
    server's dispatch, the response and the client's checks, and gives the
    caller the outcome of the method, however the data of the HTTP/3 streams is
    cut; only a timeout can come first. *)
Theorem http_call_exact {V} `{Deserialize V} timeout expired send :
  send = hyper_send client_codec config hyper_exchange ∨
    send = h3_send_request client_codec config h3_exchange →
  ∃ r, http_call timeout expired send id (full_name svc m) params = Ready r ∧
    (r = Err (JKaryonCore CoreTimeout) ∧ is_Some timeout ∧ expired = true ∨
     ∃ resp, r = Ok resp ∧ call_result resp = caller_outcome (V := V) out).
Proof.
  intros Hsend. assert (send rq = Ready (Ok (wire_response resp))) as Hcall
    by (destruct Hsend as [-> | ->]; [apply hyper_call|apply h3_call]).
  assert (call_result (wire_response resp) = caller_outcome (V := V) out) as Hres
    by (by destruct out as [[]|[]]).
  unfold http_call. fold rq. rewrite Hcall.
  destruct timeout as [t|]; [destruct expired|]; eexists; split; [done|by left|done| |done|]; by eauto.
Qed.

End calls.

(** ** Witnesses *)

(** A library that hands bodies over as they are. *)
#[local] Instance plain_http : Http := {|
  header_ok _ := true;
  request_ok _ := true;
  body := list Z;
  sent bs := bs;
  size_hint_upper bs := Some (len bs);
  collect limit bs :=
    if from_option (λ n, len bs <=? n) true limit then Collected bs else LengthLimitError;
|}.

#[local] Instance plain_http_laws : HttpLaws.
Proof.
  split; simpl; [done|by intros ? ? [= <-]| |].
  - intros bs [n|] Hn; [|done]. simpl in *. by replace (len bs <=? n) with true by lia.
  - intros b n bs. destruct (Z.leb_spec (len b) n); [|done]. by intros [= <-].
Qed.

(** A codec of two messages, a request and its response. *)
Definition toy_frame (v : Value) : list Z :=
  match v with
  | VObject m => if m !! "method" is Some _ then [1; 0] else [2; 0]
  | _ => []
  end.
Definition toy_decode (bs : list Z) : result net_error (option (Z * Value)) :=
  match bs with
  | [1; 0] => Ok (Some (2, ask))
  | [2; 0] => Ok (Some (2, to_value told))
  | _ => Ok None
  end.
Definition toy_valid (v : Value) : Prop := v = ask ∨ v = to_value told.

#[local] Instance toy_codec : Codec () Value net_error := {|
  Codec.encode _ v dst := (Ok 2, Buffer.extend_from_slice dst (toy_frame v));
  Codec.decode _ src := toy_decode (inner src);
|}.

#[local] Instance toy_body : BodyCodec () toy_valid toy_frame.
Proof.
  split.
  - intros m _. by exists 2.
  - intros m [-> | ->]; reflexivity.
  - intros m p q Hm Hpq Hq. assert (∃ x, toy_frame m = [x; 0]) as [x Hx]
      by (destruct Hm as [-> | ->]; [by exists 1|by exists 2]).
    rewrite Hx in Hpq. destruct p as [|? [|? [|? ?]]]; simplify_eq/=; try done.
    unfold toy_decode. repeat case_match; by simplify_eq.
Qed.

Definition bytewise (bs : list Z) : list (list Z) := (λ b, [b]) <$> bs.

Lemma bytewise_concat bs : concat (bytewise bs) = bs.
Proof. induction bs as [|b bs IH]; [done|]. simpl. by f_equal. Qed.

Definition toy_config : HttpConfig := mkHttpConfig false None DEFAULT_CONTENT_TYPE.

(** A call over HTTP/3 with the data byte by byte. *)
Lemma http_call_exact_witness :
  ∃ r, http_call None false (h3_send_request () toy_config
      (h3_exchange () calc DEFAULT_CONTENT_TYPE bytewise)) 5 (full_name "Calc" "inc") (int_ser 41) =
    Ready (Ok r) ∧ call_result (V := Value) r = Ok (int_ser 42).
Proof.
  destruct (http_call_exact () () toy_valid toy_frame toy_config calc DEFAULT_CONTENT_TYPE bytewise
    bytewise_concat "Calc" "inc" 5 (int_ser 41) (Ok (int_ser 42)) I (λ g, ltac:(discriminate))
    eq_refl I (or_introl eq_refl) ltac:(vm_compute; discriminate) (or_intror eq_refl) eq_refl
    (λ _ _, eq_refl) (V := Value) None false _ (or_intror eq_refl)) as (r & Hr & Hout).
  destruct Hout as [(_ & [? ?] & _)|(resp & -> & Hres)]; [discriminate|].
  exists resp. split; assumption.
Defined.

Lemma large_body : ∃ b : list Z, MAX_HTTP_BODY_SIZE < len b.
Proof.
  exists (replicate (Z.to_nat (MAX_HTTP_BODY_SIZE + 1)) 0).
  unfold len. rewrite length_replicate, Z2Nat.id; unfold MAX_HTTP_BODY_SIZE; lia.
Qed.

Lemma http_body_limit_witness :
  ∃ (b : list Z) resp, hr_status resp ∈ [PAYLOAD_TOO_LARGE; BAD_REQUEST] ∧
    ∀ cfg, handle_hyper_request () cfg DEFAULT_CONTENT_TYPE POST b = Ready resp.
Proof.
  destruct large_body as [b Hb]. exists b. apply (http_body_limit () DEFAULT_CONTENT_TYPE 1).
  intros bs [= <-]. exact Hb.
Defined.
