(* ===== verification/JsonRpcH3.v ===== *)
(** * Subscriptions over HTTP/3

    Models the subscriptions of the HTTP/3 backend: [handle_h3_subscription] of
    [jsonrpc/src/server/http/h3.rs], [subscribe] and [subscription_task] of
    [jsonrpc/src/client/http/h3.rs], and [h3_subscribe] and [h3_unsubscribe] of
    [jsonrpc/src/client/http/mod.rs].

    Every subscription is an HTTP/3 request whose body stays open.  The two
    bodies are streams of bytes, which the readers of both sides take in any
    pieces, and a reader that is polled in a [select] keeps what it has read when
    the other future wins.  A write may be cut anywhere when its task ends.  Apart from reading
    and writing, the server's task is the one of QUIC streams.

    The theorem is that these subscriptions refine those over QUIC streams, which
    carry whole messages. *)

From S2P Require Import Prelude Codec Endpoint Framed Json.
From S2P Require Import JsonRpcServer JsonRpcServerSpec JsonRpcClient JsonRpcClientSpec JsonRpcExchange.
From S2P Require Import JsonRpcQuic JsonRpcQuicSpec JsonRpcHttp.

Local Open Scope Z_scope.

(** A request: the message that opened it, the server's task and its
    [BodyReader], the bytes under way to the server, the status and the bytes of
    the response, the client's part and its [H3Reader], which exists once the
    headers are there, and what the subscriber got. *)
Record h3_stream := mkH3 {
  h_request : Value;
  h_srv : srv_task;
  h_body : Buffer;
  h_up : list Z;
  h_status : option Z;
  h_down : list Z;
  h_cli : cli_pc;
  h_reader : option Buffer;
  h_got : list Value;
}.

(** The data of what [recv_data] gives. *)
Definition data_of (evs : list h3_event) : list Z :=
  concat ((λ ev, match ev with HData chunk => chunk | HEnd | HError => [] end) <$> evs).

(** A task that ends drops its receiver. *)
Definition end_task (s : srv_task) : srv_task :=
  mkSrv SEnded (Channel.close <$> s_chan s) (s_notifying s) (s_notified s).

(** ** The server *)

Section server.
Context `{Http} {C : Type} `{Codec C Value net_error} (codec : C).
Context (cfg : ServerConfig) (content_type : string) (peer : option Endpoint).

(** The headers that go out with the first data. *)
Definition sent_status (st : option Z) : option Z :=
  match st with
  | Some st => Some st
  | None => if header_ok content_type then Some OK else None
  end.

Inductive h3_server : h3_stream → h3_stream → Prop :=
(** [handle_h3_request] has the first message: a subscription, *)
| hs_subscription rq evs up req method buf evs' c rd g :
    handle_h3_request codec cfg content_type POST evs = Ready (H3Subscription req method buf evs') →
    h3_server (mkH3 rq new_srv Buffer.new (data_of evs ++ up) None [] c rd g)
      (mkH3 rq (mkSrv (SMethod req method) (Some (Channel.new peer)) [] []) buf
        (data_of evs' ++ up) None [] c rd g)
(** or something it answers at once, as far as it can write the body. *)
| hs_reply rq evs up resp p c rd g :
    handle_h3_request codec cfg content_type POST evs = Ready (H3Send resp) →
    p `prefix_of` hr_body resp →
    h3_server (mkH3 rq new_srv Buffer.new (data_of evs ++ up) None [] c rd g)
      (mkH3 rq (end_task new_srv) Buffer.new up (Some (hr_status resp)) p c rd g)
(** [handle_h3_subscription]: steps that neither read nor write, the end of the
    task among them; *)
| hs_inner rq s s' b up st down c rd g :
    srv_step cfg peer s None [] s' →
    h3_server (mkH3 rq s b up st down c rd g) (mkH3 rq s' b up st down c rd g)
(** the headers before the response; *)
| hs_headers rq resp ch ns nt b up down c rd g :
    header_ok content_type = true →
    h3_server (mkH3 rq (mkSrv (SResponding resp) ch ns nt) b up None down c rd g)
      (mkH3 rq (mkSrv (SResponding resp) ch ns nt) b up (Some OK) down c rd g)
(** responses and notifications, *)
| hs_write rq s m s' body b up st st' down c rd g :
    srv_step cfg peer s None [m] s' → encode_msg codec m = Ok body → sent_status st = Some st' →
    h3_server (mkH3 rq s b up st down c rd g) (mkH3 rq s' b up (Some st') (down ++ body) c rd g)
(** the last of which may get out in part; *)
| hs_write_cut rq s m s' body p b up st st' down c rd g :
    srv_step cfg peer s None [m] s' → encode_msg codec m = Ok body → sent_status st = Some st' →
    p `prefix_of` body →
    h3_server (mkH3 rq s b up st down c rd g)
      (mkH3 rq (end_task s') b up (Some st') (down ++ p) c rd g)
(** reading from the request body, which may stop before a message is complete, *)
| hs_reading rq ch ns nt b evs up st down c rd g b' evs' :
    body_next codec b evs = (Pending, b', evs') →
    h3_server (mkH3 rq (mkSrv SStreaming ch ns nt) b (data_of evs ++ up) st down c rd g)
      (mkH3 rq (mkSrv SStreaming ch ns nt) b' (data_of evs' ++ up) st down c rd g)
(** and the message it waits for. *)
| hs_message rq ch ns nt b evs up st down c rd g msg b' evs' :
    body_next codec b evs = (Ready (Ok (Some msg)), b', evs') →
    h3_server (mkH3 rq (mkSrv SStreaming ch ns nt) b (data_of evs ++ up) st down c rd g)
      (mkH3 rq (mkSrv (SHandling msg) ch ns nt) b' (data_of evs' ++ up) st down c rd g).

End server.

(** ** The client *)

(** The client's tables and its requests. *)
Record h3 := mkH3Client {
  hc_subs : Subscriptions;
  hc_unsub_chans : gmap Z nat;
  hc_uchans : gmap nat uchan;
  hc_unsubscribing : list Z;
  hc_streams : list h3_stream;
}.

Definition new_h3 (sub_buffer_size : nat) : h3 :=
  mkH3Client (Subscriptions.new sub_buffer_size) ∅ ∅ [] [].

Section client.
Context `{Http} {C : Type} `{Codec C Value net_error} (codec : C) (config : HttpConfig).
Context (decoder : Notification → result jsonrpc_error NotificationResult).

(** [h3::subscribe]: the headers of the response, its first message, or neither.
    An outcome [None] is a reader that waits for more. *)
Inductive h3_subscribe_read : h3_stream → option (result jsonrpc_error Response) → h3_stream → Prop :=
| hr_headers rq s b up st down g buf :
    read_response st = Ok buf →
    h3_subscribe_read (mkH3 rq s b up (Some st) down (QWait QSub) None g) None
      (mkH3 rq s b up (Some st) down (QWait QSub) (Some buf) g)
| hr_bad_status rq s b up st down g e :
    read_response st = Err e →
    h3_subscribe_read (mkH3 rq s b up (Some st) down (QWait QSub) None g) (Some (Err e))
      (mkH3 rq s b up (Some st) down (QWait QSub) None g)
| hr_no_headers rq s b up st down g :
    h3_subscribe_read (mkH3 rq s b up st down (QWait QSub) None g)
      (Some (Err (HttpError "H3 recv: {}"))) (mkH3 rq s b up st down (QWait QSub) None g)
| hr_reading rq s b up st down g buf evs buf' evs' :
    next_response codec buf evs = (Pending, buf', evs') →
    h3_subscribe_read (mkH3 rq s b up st (data_of evs ++ down) (QWait QSub) (Some buf) g) None
      (mkH3 rq s b up st (data_of evs' ++ down) (QWait QSub) (Some buf') g)
| hr_response rq s b up st down g buf evs buf' evs' r :
    next_response codec buf evs = (Ready r, buf', evs') →
    h3_subscribe_read (mkH3 rq s b up st (data_of evs ++ down) (QWait QSub) (Some buf) g) (Some r)
      (mkH3 rq s b up st (data_of evs' ++ down) (QWait QSub) (Some buf') g).

(** [subscription_task] takes a message or waits for the rest of one. *)
Inductive h3_task_read : h3_stream → option Value → h3_stream → Prop :=
| ht_reading rq s b up st down c u g buf evs buf' evs' :
    frames_next codec None buf evs = (Pending, buf', evs') →
    h3_task_read (mkH3 rq s b up st (data_of evs ++ down) (QStreaming c u) (Some buf) g) None
      (mkH3 rq s b up st (data_of evs' ++ down) (QStreaming c u) (Some buf') g)
| ht_message rq s b up st down c u g buf evs buf' evs' msg :
    frames_next codec None buf evs = (Ready (Ok (Some msg)), buf', evs') →
    h3_task_read (mkH3 rq s b up st (data_of evs ++ down) (QStreaming c u) (Some buf) g) (Some msg)
      (mkH3 rq s b up st (data_of evs' ++ down) (QStreaming c u) (Some buf') g).

Definition set_cli (st : h3_stream) (c : cli_pc) : h3_stream :=
  mkH3 (h_request st) (h_srv st) (h_body st) (h_up st) (h_status st) (h_down st) c (h_reader st) (h_got st).

(** It writes the unsubscribe request on the stream and ends. *)
Definition forward_unsub (st : h3_stream) (c : nat) (bytes : list Z) : h3_stream :=
  mkH3 (h_request st) (h_srv st) (h_body st) (h_up st ++ bytes) (h_status st) (h_down st)
    (QStopped c) (h_reader st) (h_got st).

Context (cfg : ServerConfig) (content_type : string) (peer : option Endpoint) (server_codec : C).

Inductive h3_step : h3 → h3 → Prop :=
(** [h3_subscribe] sends a request, *)
| h_open sb uc us un sts id method params req :
    is_u32 id →
    let request := to_value (new_request id method params) in
    start_request codec config request = Ok req →
    h3_step (mkH3Client sb uc us un sts)
      (mkH3Client sb uc us un
        (sts ++ [mkH3 request new_srv Buffer.new (hq_body req) None [] (QWait QSub) None []]))
(** which the server handles, *)
| h_server sb uc us un sts i st st' :
    sts !! i = Some st → h3_server server_codec cfg content_type peer st st' →
    h3_step (mkH3Client sb uc us un sts) (mkH3Client sb uc us un (<[i := st']> sts))
(** and reads the response, *)
| h_reading sb uc us un sts i st st' :
    sts !! i = Some st → h3_subscribe_read st None st' →
    h3_step (mkH3Client sb uc us un sts) (mkH3Client sb uc us un (<[i := st']> sts))
(** which grants the subscription *)
| h_granted sb uc us un sts i st st' r id u :
    sts !! i = Some st → h3_subscribe_read st (Some (Ok r)) st' →
    subscribe_result r = Ok id → us !! u = None →
    h3_step (mkH3Client sb uc us un sts)
      (mkH3Client sb (<[id := u]> uc)
        (<[u := mkUchan None false true]> (drop_unsub_sender (uc !! id) us)) un
        (<[i := set_cli st' (QRegistering id u)]> sts))
(** or not; *)
| h_refused sb uc us un sts i st st' r e :
    sts !! i = Some st → h3_subscribe_read st (Some r) st' →
    match r with Ok r => subscribe_result r = Err e | Err e' => e = e' end →
    h3_step (mkH3Client sb uc us un sts)
      (mkH3Client sb uc us un (<[i := set_cli st' (QFailed e)]> sts))
(** it registers the subscription and starts its task. *)
| h_registered sb uc us un sts i st id u c :
    sts !! i = Some st → h_cli st = QRegistering id u → schans sb !! c = None →
    h3_step (mkH3Client sb uc us un sts)
      (mkH3Client (Subscriptions.subscribe sb id c) uc us un
        (<[i := set_cli st (QStreaming c u)]> sts))
(** [subscription_task] reads, *)
| h_task_reading sb uc us un sts i st st' :
    sts !! i = Some st → h3_task_read st None st' →
    h3_step (mkH3Client sb uc us un sts) (mkH3Client sb uc us un (<[i := st']> sts))
(** takes a message, *)
| h_message sb uc us un sts i st st' msg c u sub sub' go :
    sts !! i = Some st → h3_task_read st (Some msg) st' → h_cli st = QStreaming c u →
    schans sb !! c = Some sub →
    on_stream_msg decoder (sub_buffer_size sb) msg sub = (sub', go) →
    h3_step (mkH3Client sb uc us un sts)
      (mkH3Client (set_schan sb c sub') uc (if go : bool then us else drop_unsub_receiver u us) un
        (<[i := if go then st' else set_cli st' (QStopped c)]> sts))
(** takes the unsubscribe request, which it writes as far as it can, *)
| h_forward sb uc us un sts i st c u req cl al body p :
    sts !! i = Some st → h_cli st = QStreaming c u → us !! u = Some (mkUchan (Some req) cl al) →
    encode_msg codec req = Ok body → p `prefix_of` body →
    h3_step (mkH3Client sb uc us un sts)
      (mkH3Client sb uc (drop_unsub_receiver u us) un (<[i := forward_unsub st c p]> sts))
(** or ends: nobody can send the request any more, reading fails, the request
    cannot be encoded, or it is cancelled. *)
| h_task_end sb uc us un sts i st c u :
    sts !! i = Some st → h_cli st = QStreaming c u →
    h3_step (mkH3Client sb uc us un sts)
      (mkH3Client sb uc (drop_unsub_receiver u us) un (<[i := set_cli st (QStopped c)]> sts))
(** [h3_unsubscribe] in its two steps. *)
| h_unsubscribe sb uc us un sts id method rid :
    is_u32 rid →
    h3_step (mkH3Client sb uc us un sts)
      (mkH3Client sb (delete id uc)
        (send_unsub (uc !! id) (to_value (new_request rid method (int_ser id))) us)
        (un ++ [id]) sts)
| h_unsubscribed sb uc us un sts i id :
    un !! i = Some id →
    h3_step (mkH3Client sb uc us un sts)
      (mkH3Client (Subscriptions.unsubscribe sb id) uc us (delete i un) sts)
(** A subscriber receives. *)
| h_recv sb uc us un sts i rq s b up st down cl rd g c sub v sub' :
    sts !! i = Some (mkH3 rq s b up st down cl rd g) →
    cl = QStopped c ∨ (∃ u, cl = QStreaming c u) →
    schans sb !! c = Some sub → Subscriptions.recv sub = Some (Ok v, sub') →
    h3_step (mkH3Client sb uc us un sts)
      (mkH3Client (set_schan sb c sub') uc us un
        (<[i := mkH3 rq s b up st down cl rd (g ++ [v])]> sts)).

End client.

(** ** Messages in streams of bytes *)

(** What the subscriptions need of a codec: a message it encodes has a frame, a
    frame decodes to its message whatever follows, a part of a frame is not a
    message, and nothing is none.  A codec may refuse any buffer. *)
Class FrameCodec {C} `{Codec C Value net_error} (codec : C) (valid : Value → Prop)
    (frame : Value → list Z) : Prop := {
  frame_encode o n b : encode codec (VObject o) Buffer.new = (Ok n, b) →
    valid (VObject o) ∧ inner b = frame (VObject o);
  frame_whole m rest n m' : valid m →
    decode codec (mkBuffer (frame m ++ rest)) = Ok (Some (n, m')) → n = len (frame m) ∧ m' = m;
  frame_partial m p q n m' : valid m → frame m = p ++ q → q ≠ [] →
    decode codec (mkBuffer p) ≠ Ok (Some (n, m'));
  frame_nothing n m : decode codec Buffer.new ≠ Ok (Some (n, m));
}.

(** The iterator of serde_json gives nothing on no input. *)
Class JsonBlank `{JsonText} : Prop := next_item_blank : next_item [] = NoItem.

(** The JSON codecs of the two sides may have different limits. *)
#[export] Instance json_frames `{JsonTextLaws} `{!JsonBlank} (c : JsonCodec.t) :
  FrameCodec c (λ v, delimited v ∧ is_Some (to_json v)) json_frame.
Proof.
  split.
  - intros o n b. simpl. unfold JsonCodec.encode, json_frame.
    destruct (to_json (VObject o)) as [text|] eqn:Ht; [|done].
    destruct (_ >? _); [done|]. intros [= <- <-]. split; [|done]. split; [done|by eexists].
  - intros m rest n m' (Hd & text & Ht). unfold json_frame. rewrite Ht. simpl. unfold JsonCodec.decode.
    destruct (_ >? _); [done|]. simpl. rewrite (next_item_json m text rest) by done.
    by intros [= <- <-].
  - intros m p q n m' (Hd & text & Ht) Hpq Hq. unfold json_frame in Hpq. rewrite Ht in Hpq. simpl in *.
    unfold JsonCodec.decode. destruct (_ >? _); [done|]. simpl.
    by destruct (next_item_cut m text p q Hd Ht Hpq Hq) as [-> | ->].
  - intros n m. simpl. unfold JsonCodec.decode. destruct (_ >? _); [done|]. simpl.
    by rewrite next_item_blank.
Qed.

Section wire.
Context {C : Type} `{Codec C Value net_error} (valid : Value → Prop) (frame : Value → list Z).

(** Bytes that are messages, and the start of one if its writer has ended. *)
Definition carries (bytes : list Z) (ended : Prop) (msgs : list Value) : Prop :=
  ∃ tail, bytes = concat (frame <$> msgs) ++ tail ∧ Forall valid msgs ∧
    (tail = [] ∨ ended ∧ ∃ m q, valid m ∧ frame m = tail ++ q ∧ q ≠ []).

Lemma carries_mono bytes (e e' : Prop) msgs : (e → e') → carries bytes e msgs → carries bytes e' msgs.
Proof. intros He (tail & ? & ? & Ht). exists tail. naive_solver. Qed.

Lemma carries_nil e : carries [] e [].
Proof. exists []. split_and!; [done|by apply Forall_nil|by left]. Qed.

Lemma carries_exact bytes msgs : carries bytes False msgs → bytes = concat (frame <$> msgs).
Proof. intros (tail & -> & _ & [->|[[] _]]). by rewrite app_nil_r. Qed.

Lemma carries_app bytes e msgs m :
  carries bytes False msgs → valid m → carries (bytes ++ frame m) e (msgs ++ [m]).
Proof.
  intros Hc Hm. pose proof (carries_exact _ _ Hc) as ->. destruct Hc as (_ & _ & Hv & _). exists [].
  rewrite fmap_app, concat_app, app_nil_r. simpl. rewrite app_nil_r. split_and!; [done| |by left].
  by apply Forall_app_2; [|apply Forall_singleton].
Qed.

Lemma carries_cut bytes (e : Prop) msgs m p q :
  carries bytes False msgs → valid m → frame m = p ++ q → q ≠ [] → e → carries (bytes ++ p) e msgs.
Proof.
  intros Hc Hm Hp Hq He. pose proof (carries_exact _ _ Hc) as ->. destruct Hc as (_ & _ & Hv & _).
  exists p. split_and!; [done..|]. right. split; [done|]. by exists m, q.
Qed.

Context (codec : C) `{!FrameCodec codec valid frame}.

(** A message a reader decodes is the next one. *)
Lemma decode_carries p w e msgs n m :
  carries (p ++ w) e msgs → decode codec (mkBuffer p) = Ok (Some (n, m)) →
  ∃ ms rest, msgs = m :: ms ∧ n = len (frame m) ∧ p = frame m ++ rest ∧ carries (rest ++ w) e ms.
Proof.
  intros (tail & Hb & Hv & Ht) Hd. destruct msgs as [|m0 ms].
  - exfalso. simpl in Hb. destruct Ht as [->|(_ & m0 & q & Hm0 & Hf & Hq)].
    + apply app_eq_nil in Hb as [-> _]. by apply (frame_nothing n m).
    + apply (frame_partial m0 p (w ++ q) n m); [done| |by intros [_ ?]%app_eq_nil|done].
      by rewrite Hf, <-Hb, app_assoc.
  - apply Forall_cons in Hv as [Hm0 Hv]. simpl in Hb. rewrite <-app_assoc in Hb.
    apply app_eq_inv in Hb as [(k & Hp & Hk)|(k & Hp & Hk)].
    + subst p. exists ms, k.
      destruct (frame_whole m0 k n m Hm0 Hd) as [-> ->]. split_and!; [done..|]. exists tail.
      by split.
    + destruct k as [|x k].
      * rewrite app_nil_r in Hp. subst p. rewrite <-(app_nil_r (frame m0)) in Hd.
        destruct (frame_whole m0 [] n m Hm0 Hd) as [-> ->]. exists ms, [].
        rewrite app_nil_r. split_and!; [done..|]. exists tail. simpl in *. by split.
      * by destruct (frame_partial m0 p (x :: k) n m).
Qed.

Lemma advance_frame m rest :
  Buffer.advance (mkBuffer (frame m ++ rest)) (len (frame m)) = Some (mkBuffer rest).
Proof. by apply Buffer.advance_app. Qed.

(** However the data comes, the readers give the messages in their order, or fail. *)
Lemma frames_next_carries limit evs : ∀ buf w e msgs r buf' evs',
  carries (inner buf ++ data_of evs ++ w) e msgs →
  frames_next codec limit buf evs = (r, buf', evs') →
  (r = Pending ∧ carries (inner buf' ++ data_of evs' ++ w) e msgs) ∨
  (∃ m ms, r = Ready (Ok (Some m)) ∧ msgs = m :: ms ∧ carries (inner buf' ++ data_of evs' ++ w) e ms) ∨
  (∃ x, r = Ready (Err x)) ∨ r = Ready (Ok None).
Proof.
  assert (∀ p w e msgs n m, carries (p ++ w) e msgs →
    decode codec (mkBuffer p) = Ok (Some (n, m)) →
    ∃ ms buf, msgs = m :: ms ∧ carries (inner buf ++ w) e ms ∧ Buffer.advance (mkBuffer p) n = Some buf)
    as Hmsg.
  { intros p w e msgs n m Hc Hd.
    destruct (decode_carries p w e msgs n m Hc Hd) as (ms & rest & -> & -> & -> & Hc').
    exists ms, (mkBuffer rest). by rewrite advance_frame. }
  induction evs as [|ev evs IH]; intros [p] w e msgs r buf' evs' Hc Hr; cbn [inner] in Hc; simpl in Hr;
    destruct (decode codec (mkBuffer p)) as [[[n m]|]|x] eqn:Hd.
  1,4: destruct (Hmsg _ _ _ _ _ _ Hc Hd) as (ms & buf & -> & Hc' & Ha); rewrite Ha in Hr;
    injection Hr as <- <- <-; right; left; by exists m, ms.
  2,4: injection Hr as <- <- <-; by eauto.
  - destruct (from_option _ _ _); injection Hr as <- <- <-; [by eauto|by left].
  - destruct (from_option _ _ _); [injection Hr as <- <- <-; by eauto|].
    destruct ev as [chunk| |]; [|injection Hr as <- <- <-; by eauto..].
    apply (IH _ w e msgs) in Hr; [done|]. simpl. unfold data_of in Hc. simpl in Hc.
    by rewrite <-!app_assoc in *.
Qed.

End wire.

(** ** The refinement *)

Lemma srv_writes cfg peer s m s' :
  srv_step cfg peer s None [m] s' →
  s_pc s ≠ SEnded ∧ (∃ o, m = VObject o) ∧ srv_step cfg peer s None [] (end_task s').
Proof.
  intros Hs. remember None as inp eqn:Hi. remember [m] as out eqn:Ho.
  destruct Hs; simplify_eq/=; (split_and!; [done|by eexists|]).
  - apply srv_end.
  - by eapply srv_write_failed.
  - destruct ch; apply srv_end.
Qed.

Lemma srv_ended cfg peer s inp s' :
  srv_step cfg peer s inp [] s' → s_pc s = SEnded → s_pc s' = SEnded.
Proof. intros Hs. by destruct Hs; simpl. Qed.

(** What the first message of a request leads to, as over QUIC, or an answer to a
    request that was not understood. *)
Lemma handle_h3_cases `{Http} {C} `{Codec C Value net_error} (codec : C) cfg ct evs a :
  handle_h3_request codec cfg ct POST evs = Ready a →
  (∃ msg buf evs', body_next codec Buffer.new evs = (Ready (Ok (Some msg)), buf, evs') ∧
    match handle_quic_stream cfg msg with
    | QReply response => poll_map (h3_respond codec ct) response = Ready a
    | QSubscribe req method => a = H3Subscription req method buf evs'
    end) ∨
  a = h3_respond codec ct parse_error_response ∨ (∃ e, a = H3Fail e) ∨
  (∃ body, a = H3Send (mkHttpResponse PAYLOAD_TOO_LARGE DEFAULT_CONTENT_TYPE body)).
Proof.
  destruct (body_next codec Buffer.new evs) as [[[|[[msg|]|e]|] buf] evs'] eqn:Hn.
  1: by unfold handle_h3_request; rewrite Hn.
  - rewrite (h3_plan codec cfg ct evs msg buf evs') by done. intros Ha. left.
    exists msg, buf, evs'. split; [done|]. destruct (handle_quic_stream cfg msg); [done|by simplify_eq].
  - unfold handle_h3_request. rewrite Hn. naive_solver.
  - unfold handle_h3_request. rewrite Hn. unfold h3_send. destruct e; try naive_solver.
    destruct (header_ok _); naive_solver.
  - unfold handle_h3_request. by rewrite Hn.
Qed.

Lemma h3_respond_send `{Http} {C} `{Codec C Value net_error} (codec : C) ct r resp :
  h3_respond codec ct r = H3Send resp →
  hr_status resp = OK ∧ encode_msg codec (to_value r) = Ok (hr_body resp).
Proof.
  unfold h3_respond, encode_response, h3_send. destruct (encode_msg _ _) as [body|]; [|done].
  destruct (header_ok ct); [|done]. by intros [= <-].
Qed.

(** A message that grants no subscription. *)
Definition refusing (m : Value) : Prop :=
  ∀ r, from_value m = Some r → ∃ e, subscribe_result r = Err e.

Lemma parse_error_refusing : refusing (to_value parse_error_response).
Proof. intros r Hr. vm_compute in Hr. injection Hr as <-. by eexists. Qed.

Section rel.
Context (valid : Value → Prop) (frame : Value → list Z).

(** The client writes no more. *)
Definition client_done (c : cli_pc) : Prop :=
  match c with QStopped _ | QFailed _ => True | _ => False end.

(** Errors may differ. *)
Definition cli_rel (c c' : cli_pc) : Prop :=
  match c with QFailed _ => ∃ e, c' = QFailed e | _ => c' = c end.

(** The bytes the client has not decoded. *)
Definition unread (st : h3_stream) : list Z := from_option inner [] (h_reader st) ++ h_down st.

(** The messages on the way to the client.  A server that did not understand the
    request has ended with a status or a message that refuses it. *)
Definition down_rel (st : h3_stream) (msgs : list Value) : Prop :=
  (∃ z, h_status st = Some z ∧ z ≠ OK ∧ h_reader st = None ∧ s_pc (h_srv st) = SEnded) ∨
  carries valid frame (unread st) (s_pc (h_srv st) = SEnded) msgs ∨
  (msgs = [] ∧ s_pc (h_srv st) = SEnded ∧ h_cli st = QWait QSub ∧
   ∃ msgs', carries valid frame (unread st) True msgs' ∧ Forall refusing msgs').

Definition stream_rel (st : h3_stream) (q : qstream) : Prop :=
  st_request q = h_request st ∧ st_srv q = h_srv st ∧ st_got q = h_got st ∧
  cli_rel (h_cli st) (st_cli q) ∧
  (s_pc (h_srv st) ≠ SEnded →
    carries valid frame (inner (h_body st) ++ h_up st) (client_done (h_cli st)) (st_up q)) ∧
  (h_status st = None → h_reader st = None ∧ st_down q = [] ∧ (listening (h_cli st) → h_cli st = QWait QSub)) ∧
  (listening (h_cli st) → down_rel st (st_down q)).

(** The requests that wait for the tasks of subscriptions. *)
Definition uchans_ok (us : gmap nat uchan) : Prop :=
  map_Forall (λ _ uc, ∀ r, u_buf uc = Some r → ∃ o, r = VObject o) us.

(** The tables are the same. *)
Definition h3_rel (h : h3) (q : quic) : Prop :=
  ∃ sts, q = mkQuic false (hc_subs h) (hc_unsub_chans h) (hc_uchans h) (hc_unsubscribing h) sts ∧
    Forall2 stream_rel (hc_streams h) sts ∧ uchans_ok (hc_uchans h).

Lemma uchans_alter f u us :
  (∀ uc r, u_buf (f uc) = Some r → (∃ o, r = VObject o) ∨ u_buf uc = Some r) →
  uchans_ok us → uchans_ok (alter f u us).
Proof.
  intros Hf Hok v uc Hv r Hr. apply lookup_alter_Some in Hv as [(<- & uc' & Hv & ->)|[_ Hv]].
  - destruct (Hf uc' r Hr) as [|Hr']; [done|]. by apply (Hok u uc').
  - by apply (Hok v uc).
Qed.

Lemma uchans_sender o us : uchans_ok us → uchans_ok (drop_unsub_sender o us).
Proof. destruct o; [|done]. apply uchans_alter. by right. Qed.

Lemma uchans_receiver u us : uchans_ok us → uchans_ok (drop_unsub_receiver u us).
Proof. apply uchans_alter. by right. Qed.

Lemma uchans_send o us (r : Request) : uchans_ok us → uchans_ok (send_unsub o (to_value r) us).
Proof.
  destruct o; [|done]. apply uchans_alter. intros [b cl al] r' Hr. simpl in Hr.
  destruct al; [left|by right]. injection Hr as <-. by eexists.
Qed.

Lemma uchans_new u us : uchans_ok us → uchans_ok (<[u := mkUchan None false true]> us).
Proof. intros Hok. apply map_Forall_insert_2; [by intros|done]. Qed.

End rel.

(** *** The server *)

Section simulation.
Context `{Http} {C : Type} `{Codec C Value net_error} (codec server_codec : C).
Context (valid : Value → Prop) (frame : Value → list Z).
Context `{!FrameCodec codec valid frame} `{!FrameCodec server_codec valid frame}.
Context (config : HttpConfig) (decoder : Notification → result jsonrpc_error NotificationResult).
Context (cfg : ServerConfig) (ct : string) (peer : option Endpoint).
Notation rel := (stream_rel valid frame).
Notation carries := (carries valid frame).

(** The steps of the server's task of a stream of QUIC. *)
Inductive qsrv : qstream → qstream → Prop :=
| qsrv_step rq s inp up down out s' c g :
    srv_step cfg peer s inp out s' →
    qsrv (mkStream rq s (option_list inp ++ up) down c g) (mkStream rq s' up (down ++ out) c g).

Lemma qsrv_inner rq s up down s' c g :
  srv_step cfg peer s None [] s' → qsrv (mkStream rq s up down c g) (mkStream rq s' up down c g).
Proof. intros Hs. rewrite <-(app_nil_r down) at 2. by apply (qsrv_step rq s None up). Qed.

Lemma encode_msg_frame (c : C) `{!FrameCodec c valid frame} o body :
  encode_msg c (VObject o) = Ok body → valid (VObject o) ∧ body = frame (VObject o).
Proof.
  unfold encode_msg. destruct (encode c (VObject o) Buffer.new) as [[n|] b] eqn:He; [|done].
  intros [= <-]. by apply (frame_encode o n b).
Qed.

(** Nothing refuses or has gone wrong before the end. *)
Lemma down_rel_running st msgs :
  down_rel valid frame st msgs → s_pc (h_srv st) ≠ SEnded → carries (unread st) False msgs.
Proof.
  intros [(z & _ & _ & _ & ?)|[Hc|(_ & ? & _)]] Hpc; [done| |done]. by eapply carries_mono.
Qed.

Lemma down_rel_inner st st' msgs :
  unread st' = unread st → h_status st' = h_status st → h_reader st' = h_reader st →
  h_cli st' = h_cli st → (s_pc (h_srv st) = SEnded → s_pc (h_srv st') = SEnded) →
  down_rel valid frame st msgs → down_rel valid frame st' msgs.
Proof.
  intros Hu Hs Hr Hc Hpc. unfold down_rel. rewrite Hu, Hs, Hr, Hc.
  intros [(z & ? & ? & ? & ?)|[Hc'|(-> & ? & ? & ?)]]; [left; by eauto 6|right; left|right; right].
  - by eapply carries_mono.
  - split_and!; auto.
Qed.

Lemma srv_end_task s : srv_step cfg peer s None [] (end_task s).
Proof. destruct s. apply srv_end. Qed.

Definition set_srv (st : h3_stream) (s : srv_task) (b : Buffer) (up : list Z) : h3_stream :=
  mkH3 (h_request st) s b up (h_status st) (h_down st) (h_cli st) (h_reader st) (h_got st).

Lemma sim_inner st q s' :
  rel st q → srv_step cfg peer (h_srv st) None [] s' →
  ∃ q', rtc qsrv q q' ∧ rel (set_srv st s' (h_body st) (h_up st)) q'.
Proof.
  intros (Hrq & Hsrv & Hg & Hcli & Hup & Hst & Hdown) Hs.
  destruct q as [rq s0 up down c g]; simpl in *; subst s0. eexists.
  split; [apply rtc_once, qsrv_inner, Hs|]. split_and!; simpl; try done.
  - intros Hpc. apply Hup. intros He. by apply Hpc, (srv_ended _ _ _ _ _ Hs).
  - intros Hl. apply (down_rel_inner st); [done..|exact (srv_ended _ _ _ _ _ Hs)|by apply Hdown].
Qed.

(** A message is written whole, *)
Definition set_down (st : h3_stream) (s : srv_task) (z : Z) (p : list Z) : h3_stream :=
  mkH3 (h_request st) s (h_body st) (h_up st) (Some z) (h_down st ++ p) (h_cli st) (h_reader st) (h_got st).

Lemma sim_write st q m s' body z :
  rel st q → srv_step cfg peer (h_srv st) None [m] s' → encode_msg server_codec m = Ok body →
  ∃ q', rtc qsrv q q' ∧ rel (set_down st s' z body) q'.
Proof.
  intros (Hrq & Hsrv & Hg & Hcli & Hup & _ & Hdown) Hs He.
  destruct (srv_writes _ _ _ _ _ Hs) as (Hpc & (o & ->) & _).
  apply encode_msg_frame in He as [Hv ->]; [|done].
  destruct q as [rq s0 up down c g]; simpl in *; subst s0. eexists. split.
  { apply rtc_once. by apply (qsrv_step rq (h_srv st) None up down [VObject o]). }
  split_and!; simpl; try done; [by auto|].
  intros Hl. right; left. unfold unread. simpl. rewrite app_assoc.
  apply carries_app; [|done]. apply (down_rel_running st); [by apply Hdown|done].
Qed.

(** or in part before the task ends. *)
Lemma sim_write_cut st q m s' body p z :
  rel st q → srv_step cfg peer (h_srv st) None [m] s' → encode_msg server_codec m = Ok body →
  p `prefix_of` body → ∃ q', rtc qsrv q q' ∧ rel (set_down st (end_task s') z p) q'.
Proof.
  intros Hrel Hs He [k Hp]. destruct (decide (k = [])) as [->|Hk].
  - rewrite app_nil_r in Hp. subst p. destruct (sim_write st q m s' body z Hrel Hs He) as (q1 & Hq1 & Hrel1).
    destruct (sim_inner _ _ (end_task s') Hrel1 (srv_end_task s')) as (q2 & Hq2 & Hrel2).
    exists q2. split; [by etrans|done].
  - destruct Hrel as (Hrq & Hsrv & Hg & Hcli & Hup & _ & Hdown).
    destruct (srv_writes _ _ _ _ _ Hs) as (Hpc & (o & ->) & Hend).
    apply encode_msg_frame in He as [Hv ->]; [|done].
    destruct q as [rq s0 up down c g]; simpl in *; subst s0.
    eexists. split; [apply rtc_once, qsrv_inner, Hend|]. split_and!; simpl; try done.
    intros Hl. right; left. unfold unread. simpl. rewrite app_assoc.
    eapply carries_cut; [apply (down_rel_running st); [by apply Hdown|done]|done..].
Qed.

(** Nobody reads after the end. *)
Lemma rel_ended st q b up :
  s_pc (h_srv st) = SEnded → rel st q → rel (set_srv st (h_srv st) b up) q.
Proof.
  intros Hpc (Hrq & Hsrv & Hg & Hcli & Hup & Hst & Hdown). split_and!; simpl; try done.
Qed.

(** The first message: a reader at its start finds it, *)
Lemma first_message st q evs up msg buf evs' :
  rel st q → h_srv st = new_srv → h_body st = Buffer.new → h_up st = data_of evs ++ up →
  body_next server_codec Buffer.new evs = (Ready (Ok (Some msg)), buf, evs') →
  ∃ ups, st_up q = msg :: ups ∧
    carries (inner buf ++ data_of evs' ++ up) (client_done (h_cli st)) ups.
Proof.
  intros (_ & _ & _ & _ & Hup & _) Hsrv Hbuf Heq Hn. rewrite Hsrv, Hbuf, Heq in Hup.
  destruct (frames_next_carries valid frame server_codec _ _ _ _ _ _ _ _ _ (Hup ltac:(done)) Hn)
    as [[? _]|[(m & ms & [= <-] & ? & ?)|[[? ?]|?]]]; [done| |done..].
  by exists ms.
Qed.

(** the server acts on it as over QUIC, *)
Lemma sim_plan st q evs up msg buf evs' s' :
  rel st q → h_srv st = new_srv → h_body st = Buffer.new → h_up st = data_of evs ++ up →
  h_status st = None →
  body_next server_codec Buffer.new evs = (Ready (Ok (Some msg)), buf, evs') →
  srv_step cfg peer new_srv (Some msg) [] s' →
  ∃ q', rtc qsrv q q' ∧ rel (set_srv st s' buf (data_of evs' ++ up)) q'.
Proof.
  intros Hrel Hsrv Hbuf Heq Hst Hn Hs.
  destruct (first_message _ _ _ _ _ _ _ Hrel Hsrv Hbuf Heq Hn) as (ups & Hups & Hc).
  destruct Hrel as (Hrq & Hsrv' & Hg & Hcli & Hup & Hst' & Hdown).
  destruct q as [rq s0 up0 down c g]; simpl in *; subst s0 up0. rewrite Hsrv in *. eexists. split.
  { apply rtc_once. apply (qsrv_step rq new_srv (Some msg) ups down [] s'). exact Hs. }
  rewrite app_nil_r. split_and!; simpl; try done.
  intros Hl. apply (down_rel_inner st); [done..| |by apply Hdown]. by rewrite Hsrv.
Qed.

(** or answers a request it does not understand. *)
Lemma sim_refuse st q up z p :
  rel st q → h_srv st = new_srv → h_status st = None → h_down st = [] →
  z ≠ OK ∨ (∃ msgs, carries p True msgs ∧ Forall refusing msgs) →
  ∃ q', rtc qsrv q q' ∧ rel (mkH3 (h_request st) (end_task new_srv) Buffer.new up (Some z) p
    (h_cli st) (h_reader st) (h_got st)) q'.
Proof.
  intros (Hrq & Hsrv & Hg & Hcli & Hup & Hst & Hdown) Hnew Hnone Hdn Hp.
  destruct (Hst Hnone) as (Hrd & Hqd & Hwait).
  destruct q as [rq s0 ups down c g]; simpl in *; subst s0. rewrite Hnew in *. eexists.
  split; [apply rtc_once, qsrv_inner, (srv_end_task new_srv)|]. split_and!; simpl; try done.
  intros Hl. destruct Hp as [Hz|Hp]; [left; by exists z|right; right].
  split_and!; [done..|by apply Hwait|]. unfold unread. simpl. by rewrite Hrd.
Qed.

Lemma sim_reply st q evs up resp p :
  rel st q → h_srv st = new_srv → h_body st = Buffer.new → h_up st = data_of evs ++ up →
  h_status st = None → h_down st = [] →
  handle_h3_request server_codec cfg ct POST evs = Ready (H3Send resp) → p `prefix_of` hr_body resp →
  ∃ q', rtc qsrv q q' ∧ rel (mkH3 (h_request st) (end_task new_srv) Buffer.new up
    (Some (hr_status resp)) p (h_cli st) (h_reader st) (h_got st)) q'.
Proof.
  intros Hrel Hsrv Hbuf Heq Hst Hdn Ha Hp.
  apply handle_h3_cases in Ha as [(msg & buf & evs' & Hn & Hplan)|[Ha|[(e & ?)|(body & [= ->])]]]; [| |done|].
  - destruct (handle_quic_stream cfg msg) as [response|] eqn:Hq; [|done].
    destruct response as [|r|]; simplify_eq/=. apply h3_respond_send in Hplan as [-> He].
    destruct (sim_plan st q evs up msg buf evs' (mkSrv (SFinal r) None [] [])) as (q1 & Hq1 & Hrel1);
      [done..|by apply srv_reply|].
    destruct (sim_write_cut _ q1 (to_value r) (end_task new_srv) (hr_body resp) p OK Hrel1)
      as (q2 & Hq2 & Hrel2); [apply srv_last|done..|].
    exists q2. split; [by etrans|]. apply (rel_ended _ _ Buffer.new up) in Hrel2; [|done].
    unfold set_srv, set_down in Hrel2. simpl in Hrel2. by rewrite Hdn in Hrel2.
  - symmetry in Ha. apply h3_respond_send in Ha as [-> He].
    apply encode_msg_frame in He as [Hv He]; [|done].
    apply sim_refuse; [done..|right]. rewrite He in Hp. destruct Hp as [k Hp].
    destruct (decide (k = [])) as [->|Hk].
    + rewrite app_nil_r in Hp. subst p. exists [to_value parse_error_response]. split.
      * apply (carries_app valid frame [] True [] _ (carries_nil valid frame False) Hv).
      * apply Forall_singleton, parse_error_refusing.
    + exists []. split; [|by apply Forall_nil].
      by apply (carries_cut valid frame [] True [] _ _ _ (carries_nil valid frame False) Hv Hp).
  - apply sim_refuse; [done..|by left].
Qed.

(** In the loop, the reader of the request body finds the messages of the client. *)
Lemma sim_body st q ch ns nt evs up r buf evs' :
  rel st q → h_srv st = mkSrv SStreaming ch ns nt → h_up st = data_of evs ++ up →
  body_next server_codec (h_body st) evs = (r, buf, evs') →
  match r with
  | Pending => ∃ q', rtc qsrv q q' ∧ rel (set_srv st (h_srv st) buf (data_of evs' ++ up)) q'
  | Ready (Ok (Some msg)) => ∃ q', rtc qsrv q q' ∧
      rel (set_srv st (mkSrv (SHandling msg) ch ns nt) buf (data_of evs' ++ up)) q'
  | _ => True
  end.
Proof.
  intros (Hrq & Hsrv & Hg & Hcli & Hup & Hst & Hdown) Hs Heq Hn.
  destruct q as [rq s0 ups down c g]; simpl in *; subst s0. rewrite Hs, Heq in Hup.
  destruct (frames_next_carries valid frame server_codec _ _ _ _ _ _ _ _ _ (Hup ltac:(done)) Hn)
    as [[-> Hc]|[(m & ms & -> & -> & Hc)|[[? ->]| ->]]]; [| |done..].
  - eexists. split; [apply rtc_refl|]. by split_and!.
  - eexists. split.
    { apply rtc_once. apply (qsrv_step rq (h_srv st) (Some m) ms down []).
      rewrite Hs. apply srv_message. }
    rewrite app_nil_r. split_and!; simpl; try done.
    intros Hl. apply (down_rel_inner st); [done..| |by apply Hdown]. by rewrite Hs.
Qed.

Lemma sim_server st st' q :
  rel st q → h3_server server_codec cfg ct peer st st' → ∃ q', rtc qsrv q q' ∧ rel st' q'.
Proof.
  intros Hrel Hs. destruct Hs as
    [rq evs up req method buf evs' c rd g Ha|rq evs up resp p c rd g Ha Hp|rq s s' b up st down c rd g Hs
    |rq resp ch ns nt b up down c rd g Hct|rq s m s' body b up st st' down c rd g Hs He Hst
    |rq s m s' body p b up st st' down c rd g Hs He Hst Hp|rq ch ns nt b evs up st down c rd g b' evs' Hn
    |rq ch ns nt b evs up st down c rd g msg b' evs' Hn].
  - apply handle_h3_cases in Ha as [(msg & buf' & evs'' & Hn & Hplan)|[Ha|[(e & ?)|(body & ?)]]]; [| |done..].
    + destruct (handle_quic_stream cfg msg) as [response|] eqn:Hq.
      * destruct response as [|r|]; simplify_eq/=. unfold h3_respond, h3_send in Hplan. by repeat case_match.
      * simplify_eq. eapply (sim_plan _ q evs up msg) in Hrel; [exact Hrel|done..|by apply srv_subscription].
    + unfold h3_respond, h3_send in Ha. by repeat case_match.
  - by apply (sim_reply _ q evs up) with (resp := resp) (p := p) in Hrel.
  - by apply (sim_inner _ q s') in Hrel.
  - exists q. split; [apply rtc_refl|]. destruct Hrel as (Hrq & Hsrv & Hg & Hcli & Hup & Hst & Hdown).
    split_and!; simpl in *; try done. intros Hl. right; left.
    eapply carries_mono; [|apply (down_rel_running _ _ (Hdown Hl))]; done.
  - by apply (sim_write _ q m s' body st') in Hrel.
  - by apply (sim_write_cut _ q m s' body p st') in Hrel.
  - by apply (sim_body _ q ch ns nt evs up) with (r := Pending) (buf := b') (evs' := evs') in Hrel.
  - by apply (sim_body _ q ch ns nt evs up) with (r := Ready (Ok (Some msg))) (buf := b') (evs' := evs') in Hrel.
Qed.

(** *** The client *)

Definition set_qcli (q : qstream) (c : cli_pc) : qstream :=
  mkStream (st_request q) (st_srv q) (st_up q) (st_down q) c (st_got q).

(** The client's reader takes what the server wrote. *)
Lemma sim_reader st q buf evs down r buf' evs' st' :
  rel st q → listening (h_cli st) → h_reader st = Some buf → h_down st = data_of evs ++ down →
  frames_next codec None buf evs = (r, buf', evs') →
  st' = mkH3 (h_request st) (h_srv st) (h_body st) (h_up st) (h_status st) (data_of evs' ++ down)
    (h_cli st) (Some buf') (h_got st) →
  match r with
  | Pending => rel st' q
  | Ready (Ok (Some m)) =>
      (∃ ms, st_down q = m :: ms ∧ ∀ c,
        rel (set_cli st' c) (mkStream (st_request q) (st_srv q) (st_up q) ms c (st_got q))) ∨
      (h_cli st = QWait QSub ∧ refusing m)
  | _ => True
  end.
Proof.
  intros (Hrq & Hsrv & Hg & Hcli & Hup & Hst & Hdown) Hl Hrd Hdn Hn ->.
  assert (unread st = inner buf ++ data_of evs ++ down) as Hu by (unfold unread; by rewrite Hrd, Hdn).
  assert (h_status st ≠ None) as Hnone by (intros Hs; destruct (Hst Hs) as (? & _); congruence).
  destruct (Hdown Hl) as [(z & _ & _ & ? & _)|[Hc|(Hnil & Hpc & Hwait & msgs & Hc & Href)]];
    [congruence| |]; rewrite Hu in Hc;
    destruct (frames_next_carries valid frame codec _ _ _ _ _ _ _ _ _ Hc Hn)
      as [[-> Hc']|[(m & ms & -> & Hms & Hc')|[[? ->]| ->]]]; try done.
  - split_and!; simpl; try done. intros _. by right; left.
  - left. exists ms. split; [done|]. intros c. split_and!; simpl; try done.
    + destruct c; simpl; by eauto.
    + intros Hpc. eapply carries_mono; [|by apply Hup]. by destruct (h_cli st).
    + intros _. by right; left.
  - split_and!; simpl; try done. intros _. right; right. split_and!; try done. by exists msgs.
  - right. split; [done|]. subst msgs. by apply Forall_cons in Href as [? _].
Qed.

(** The client stops listening. *)
Lemma rel_stop st st' q c' :
  rel st q → h_request st' = h_request st → h_srv st' = h_srv st → h_body st' = h_body st →
  h_up st' = h_up st → h_got st' = h_got st → h_status st' = h_status st →
  (h_reader st = None → h_reader st' = None) → client_done (h_cli st') → cli_rel (h_cli st') c' →
  rel st' (set_qcli q c').
Proof.
  intros (Hrq & Hsrv & Hg & Hcli & Hup & Hst & Hdown) E1 E2 E3 E4 E5 E6 E7 Hd Hc.
  unfold stream_rel. rewrite E1, E2, E3, E4, E5, E6. split_and!; simpl; try done.
  - intros Hpc. eapply carries_mono; [|by apply Hup]. done.
  - intros (Hr & Hq & _)%Hst. split_and!; [by apply E7|done|]. by destruct (h_cli st').
  - by destruct (h_cli st').
Qed.

Lemma read_waits st o st' :
  h3_subscribe_read codec st o st' → h_cli st = QWait QSub ∧ h_cli st' = QWait QSub.
Proof. by intros []. Qed.

Lemma sim_reading st q st' : rel st q → h3_subscribe_read codec st None st' → rel st' q.
Proof.
  intros Hrel Hr. remember None as o eqn:Ho. destruct Hr as [???????? Hr| | |rq s b up st down g buf evs buf' evs' Hn|]; try done.
  - destruct Hrel as (Hrq & Hsrv & Hg & Hcli & Hup & Hst & Hdown). simpl in *.
    unfold read_response in Hr. destruct (negb (st =? OK)) eqn:Hz; [done|]. injection Hr as <-.
    apply negb_false_iff, Z.eqb_eq in Hz as ->. split_and!; simpl; try done.
    intros Hl. destruct (Hdown Hl) as [(z & [= <-] & Hz & _)|[?|?]]; [by destruct Hz|by right; left|by right; right].
  - unfold next_response in Hn. destruct (frames_next codec None buf evs) as [[r b1] e1] eqn:Hf.
    destruct r; simplify_eq/=.
    exact (sim_reader _ q buf evs down _ buf' evs' _ Hrel I eq_refl eq_refl Hf eq_refl).
Qed.

Lemma sim_refused st q r st' e :
  rel st q → h3_subscribe_read codec st (Some r) st' →
  ∃ e', rel (set_cli st' (QFailed e)) (set_qcli q (QFailed (JKaryonNet e'))).
Proof.
  intros Hrel Hr. exists (IO OtherIo). remember (Some r) as o eqn:Ho.
  destruct Hr; try done; by apply (rel_stop _ _ _ _ Hrel); simpl; eauto.
Qed.

Lemma sim_granted st q r st' id u :
  rel st q → h3_subscribe_read codec st (Some (Ok r)) st' → subscribe_result r = Ok id →
  ∃ rq s up msg down g, q = mkStream rq s up (msg :: down) (QWait QSub) g ∧ from_value msg = Some r ∧
    rel (set_cli st' (QRegistering id u)) (mkStream rq s up down (QRegistering id u) g).
Proof.
  intros Hrel Hr Hid. remember (Some (Ok r)) as o eqn:Ho.
  destruct Hr as [| | | |rq s b up st down g buf evs buf' evs' r' Hn]; simplify_eq.
  unfold next_response in Hn. destruct (frames_next codec None buf evs) as [[x b1] e1] eqn:Hf.
  destruct x as [|[[m|]|]|]; simplify_eq/=. unfold response_of in *.
  destruct (from_value m) as [r'|] eqn:Hm; simplify_eq/=.
  pose proof (sim_reader _ q buf evs down _ buf' evs' _ Hrel I eq_refl eq_refl Hf eq_refl)
    as [(ms & Hms & Hrel')|[_ Href]].
  - destruct q as [rq' s' up' down' c g']; simpl in *; subst down'.
    assert (c = QWait QSub) as -> by (by destruct Hrel as (_ & _ & _ & ? & _)).
    exists rq', s', up', m, ms, g'. split_and!; [done..|]. apply Hrel'.
  - destruct (Href r Hm) as [e He]. congruence.
Qed.

(** *** The system *)

Notation qstep := (quic_step cfg peer decoder).
Notation hstep := (h3_step codec config decoder cfg ct peer server_codec).

Lemma qsrv_lift x sb uc us un q q' :
  rtc qsrv q q' → ∀ sts i, sts !! i = Some q →
  rtc qstep (mkQuic x sb uc us un sts) (mkQuic x sb uc us un (<[i := q']> sts)).
Proof.
  induction 1 as [q|q1 q2 q3 H12 _ IH]; intros sts i Hi; [by rewrite list_insert_id|].
  destruct H12 as [rq s inp up down out s' c g Hs].
  eapply rtc_l; [by eapply q_server|].
  rewrite <-(list_insert_insert_eq sts i q3 (mkStream rq s' up (down ++ out) c g)). apply IH.
  apply list_lookup_insert_eq. by eapply lookup_lt_Some.
Qed.

(** A step of one stream, with the tables before and after it. *)
Lemma sim_at sb uc us un sb' uc' us' un' hs sts i st st' :
  Forall2 rel hs sts → uchans_ok us' → hs !! i = Some st →
  (∀ q, sts !! i = Some q → rel st q → ∃ q',
    rtc qstep (mkQuic false sb uc us un sts) (mkQuic false sb' uc' us' un' (<[i := q']> sts)) ∧ rel st' q') →
  ∃ q', rtc qstep (mkQuic false sb uc us un sts) q' ∧
    h3_rel valid frame (mkH3Client sb' uc' us' un' (<[i := st']> hs)) q'.
Proof.
  intros Hall Hus Hi Hsim. destruct (Forall2_lookup_l _ _ _ _ _ Hall Hi) as (q & Hq & Hrel).
  destruct (Hsim q Hq Hrel) as (q' & Hq' & Hrel'). eexists. split; [exact Hq'|].
  exists (<[i := q']> sts). split_and!; [done| |done]. by apply Forall2_insert.
Qed.

(** The same where nothing happens over QUIC. *)
Lemma sim_stutter sb uc us un hs sts i st st' :
  Forall2 rel hs sts → uchans_ok us → hs !! i = Some st → (∀ q, rel st q → rel st' q) →
  ∃ q', rtc qstep (mkQuic false sb uc us un sts) q' ∧
    h3_rel valid frame (mkH3Client sb uc us un (<[i := st']> hs)) q'.
Proof.
  intros Hall Hus Hi Hsim. eapply sim_at; [done..|]. intros q Hq Hrel. exists q.
  rewrite list_insert_id by done. split; [apply rtc_refl|by apply Hsim].
Qed.

Lemma sim_open h q id method params req sb uc us un hs :
  h = mkH3Client sb uc us un hs → h3_rel valid frame h q → is_u32 id →
  let request := to_value (new_request id method params) in
  start_request codec config request = Ok req →
  ∃ q', rtc qstep q q' ∧ h3_rel valid frame (mkH3Client sb uc us un
    (hs ++ [mkH3 request new_srv Buffer.new (hq_body req) None [] (QWait QSub) None []])) q'.
Proof.
  intros -> (sts & -> & Hall & Hus) Hid request Hreq. eexists.
  split; [apply rtc_once; by apply q_open with (k := QSub) (method := method) (params := params) (id := id)|].
  eexists. split_and!; [reflexivity| |done]. apply Forall2_app; [done|]. apply Forall2_cons. split; [|done].
  unfold start_request in Hreq. destruct (encode_msg codec request) as [body|] eqn:He; [|done].
  destruct (request_ok _); [|done]. injection Hreq as <-. apply encode_msg_frame in He as [Hv ->]; [|done].
  split_and!; simpl; try done.
  - intros _. apply (carries_app valid frame [] _ [] _ (carries_nil valid frame False) Hv).
  - intros _. right; left. apply carries_nil.
Qed.

Lemma sim_task_reading st q st' : rel st q → h3_task_read codec st None st' → rel st' q.
Proof.
  intros Hrel Hr. remember None as o eqn:Ho.
  destruct Hr as [rq s b up st down c u g buf evs buf' evs' Hn|]; [|done].
  exact (sim_reader _ q buf evs down _ buf' evs' _ Hrel I eq_refl eq_refl Hn eq_refl).
Qed.

Lemma sim_task_message st q st' msg c u :
  rel st q → h3_task_read codec st (Some msg) st' → h_cli st = QStreaming c u →
  h_cli st' = QStreaming c u ∧
  ∃ rq s up ms g, q = mkStream rq s up (msg :: ms) (QStreaming c u) g ∧
    ∀ c', rel (set_cli st' c') (mkStream rq s up ms c' g).
Proof.
  intros Hrel Hr Hc. remember (Some msg) as o eqn:Ho.
  destruct Hr as [|rq s b up st down c0 u0 g buf evs buf' evs' m Hn]; simplify_eq/=.
  pose proof (sim_reader _ q buf evs down _ buf' evs' _ Hrel I eq_refl eq_refl Hn eq_refl)
    as [(ms & Hms & Hrel')|[? _]]; [|done].
  split; [done|]. destruct Hrel as (_ & _ & _ & Hcli & _). destruct q as [rq' s' up' ? ? g']; simpl in *; subst.
  by exists rq', s', up', ms, g'.
Qed.

Lemma sim_streaming st q id u c :
  rel st q → h_cli st = QRegistering id u →
  rel (set_cli st (QStreaming c u)) (set_qcli q (QStreaming c u)).
Proof.
  intros (Hrq & Hsrv & Hg & Hcli & Hup & Hst & Hdown) Hc. rewrite Hc in *. split_and!; simpl; try done.
  - intros Hs. by destruct (Hst Hs) as (_ & _ & Hl); discriminate Hl.
  - intros _. destruct (Hdown I) as [?|[?|(_ & _ & Hq & _)]]; [by left|by right; left|]. congruence.
Qed.

(** The client's last message, whole or in part. *)
Lemma sim_forward st q c u o body p :
  rel st q → h_cli st = QStreaming c u → encode_msg codec (VObject o) = Ok body → p `prefix_of` body →
  rel (forward_unsub st c p) (set_qcli q (QStopped c)) ∨
  rel (forward_unsub st c p)
    (mkStream (st_request q) (st_srv q) (st_up q ++ [VObject o]) (st_down q) (QStopped c) (st_got q)).
Proof.
  intros (Hrq & Hsrv & Hg & Hcli & Hup & Hst & Hdown) Hc He [k Hp].
  apply encode_msg_frame in He as [Hv ->]; [|done]. rewrite Hc in *.
  assert (h_status st ≠ None) as Hn by (intros Hs; destruct (Hst Hs) as (_ & _ & Hl); by discriminate Hl).
  destruct (decide (k = [])) as [->|Hk]; [right|left]; split_and!; simpl; try done.
  - intros Hpc. rewrite app_assoc, <-(app_nil_r p), <-Hp. apply carries_app; auto.
  - intros Hpc. rewrite app_assoc. eapply carries_cut; [by apply Hup|done..].
Qed.

(** The stream over QUIC has the client's state. *)
Lemma rel_cli st q c (sts : list qstream) i :
  rel st q → sts !! i = Some q → h_cli st = c → (∀ e, c ≠ QFailed e) →
  sts !! i = Some (mkStream (st_request q) (st_srv q) (st_up q) (st_down q) c (st_got q)).
Proof.
  intros (_ & _ & _ & Hcli & _) -> <- Hc. destruct q as [rq s up down c g]; simpl in *. do 2 f_equal.
  by destruct (h_cli st); try done; edestruct Hc.
Qed.

Lemma sim_recv rq s b up st down cl rd g v c q :
  rel (mkH3 rq s b up st down cl rd g) q → sub_chan cl = Some c →
  rel (mkH3 rq s b up st down cl rd (g ++ [v]))
    (mkStream (st_request q) (st_srv q) (st_up q) (st_down q) cl (g ++ [v])).
Proof.
  intros (Hrq & Hsrv & Hg & Hcli & Hup & Hst & Hdown) Hc. split_and!; simpl in *; try done.
  by destruct cl.
Qed.

(** The client and its server, in step with QUIC. *)
Lemma sim_step h h' q : h3_rel valid frame h q → hstep h h' → ∃ q', rtc qstep q q' ∧ h3_rel valid frame h' q'.
Proof.
  intros Hh Hs. destruct Hs as [| | |sb uc us un sts i st st' r id u Hi Hr Hid Hu
    |sb uc us un sts i st st' r e Hi Hr He|sb uc us un sts i st id u c Hi Hc Hch|
    |sb uc us un sts i st st' msg c u sub sub' go Hi Hr Hc Hch Hmsg
    |sb uc us un sts i st c u req cl al body p Hi Hc Hu He Hp|sb uc us un sts i st c u Hi Hc| |
    |sb uc us un sts i rq s b up st down cl rd g c sub v sub' Hi Hcl Hch Hv];
    [by eapply sim_open|destruct Hh as (sts' & -> & Hall & Hus); simpl in Hall, Hus..].
  - eapply sim_at; [done..|]. intros q Hq Hrel.
    match goal with H : h3_server _ _ _ _ _ _ |- _ => destruct (sim_server _ _ q Hrel H) as (q' & Hq' & Hrel') end.
    exists q'. split; [by apply (qsrv_lift _ _ _ _ _ _ _ Hq')|done].
  - eapply sim_stutter; [done..|]. intros q Hrel. by eapply sim_reading.
  - eapply sim_at; [done|by apply uchans_new, uchans_sender|done|]. intros q Hq Hrel.
    destruct (sim_granted _ q r st' id u Hrel) as (rq & s & up & msg & down & g & -> & Hm & Hrel'); [done..|].
    eexists. split; [by apply rtc_once; eapply q_granted|exact Hrel'].
  - eapply sim_at; [done..|]. intros q Hq Hrel.
    destruct (sim_refused _ q r st' e Hrel) as (e' & Hrel'); [done|].
    destruct (read_waits _ _ _ Hr) as [Hw _]. eapply rel_cli in Hq; [|done..].
    eexists. split; [apply rtc_once; by eapply q_read_failed|exact Hrel'].
  - eapply sim_at; [done..|]. intros q Hq Hrel. eapply rel_cli in Hq; [|done..].
    eexists. split; [by apply rtc_once; eapply q_registered|]. by apply (sim_streaming _ q id).
  - eapply sim_stutter; [done..|]. intros q Hrel. by eapply sim_task_reading.
  - eapply sim_at; [done|by destruct go; [|apply uchans_receiver]|done|]. intros q Hq Hrel.
    destruct (sim_task_message _ q st' msg c u Hrel Hr Hc) as (Hc' & rq & s & up & ms & g & -> & Hrel').
    destruct go; (eexists; split; [apply rtc_once; by (eapply q_message || eapply q_message_last)|]).
    + specialize (Hrel' (QStreaming c u)). rewrite <-Hc' in Hrel' at 1. by destruct st'.
    + apply Hrel'.
  - destruct (Hus u _ Hu req eq_refl) as [o ->].
    eapply sim_at; [done|by apply uchans_receiver|done|]. intros q Hq Hrel.
    eapply rel_cli in Hq; [|done..].
    destruct (sim_forward _ q c u o body p Hrel Hc He Hp) as [Hrel'|Hrel'].
    + eexists. split; [apply rtc_once; by eapply q_task_end|exact Hrel'].
    + eexists. split; [apply rtc_once; by eapply q_forward|exact Hrel'].
  - eapply sim_at; [done|by apply uchans_receiver|done|]. intros q Hq Hrel. pose proof Hrel as Hrel'.
    eapply rel_cli in Hq; [|done..]. eexists. split; [apply rtc_once; by eapply q_task_end|].
    by apply (rel_stop _ _ _ _ Hrel).
  - eexists. split; [apply rtc_once; by apply q_unsubscribe|]. exists sts'.
    split_and!; [done..|by apply uchans_send].
  - eexists. split; [apply rtc_once; by eapply q_unsubscribed|]. by exists sts'.
  - assert (sub_chan cl = Some c) as Hsc by (by destruct Hcl as [->|[u ->]]).
    eapply sim_at; [done..|]. intros q Hq Hrel. pose proof Hrel as (_ & _ & Hg & _).
    eapply rel_cli in Hq; [|done|done|by destruct cl]. simpl in Hg. rewrite Hg in Hq.
    eexists. split; [apply rtc_once; by eapply q_recv|]. by apply sim_recv with (c := c).
Qed.

Lemma sim_run size h :
  rtc hstep (new_h3 size) h → ∃ q, rtc qstep (new_quic size) q ∧ h3_rel valid frame h q.
Proof.
  assert (∀ h1 h2 q1, rtc hstep h1 h2 → h3_rel valid frame h1 q1 →
    ∃ q2, rtc qstep q1 q2 ∧ h3_rel valid frame h2 q2) as Hsim.
  { intros h1 h2 q1 Hrun. revert q1. induction Hrun as [h1|h1 h2 h3 Hs _ IH]; intros q1 Hrel.
    - exists q1. by split; [apply rtc_refl|].
    - destruct (sim_step _ _ _ Hrel Hs) as (q2 & Hq2 & Hrel2).
      destruct (IH q2 Hrel2) as (q3 & Hq3 & Hrel3). exists q3. by split; [etrans|]. }
  intros Hrun. apply (Hsim _ _ _ Hrun). exists []. split_and!; [done..|apply map_Forall_empty].
Qed.

Context `{!NotificationCodec (notification_encoder cfg) decoder}.

Lemma rel_waiting st q m : rel st q → sub_waiting m (st_cli q) = sub_waiting m (h_cli st).
Proof.
  intros (_ & _ & _ & Hcli & _). unfold cli_rel in Hcli.
  destruct (h_cli st); try (by rewrite Hcli). by destruct Hcli as [? ->].
Qed.

(** C17: Subscriptions over HTTP/3 refine those over QUIC streams.  However the
    bytes of the two bodies are cut into reads, wherever a task is stopped in the
    middle of a read or of a write, and with any limits of the codecs, every run
    of the client and its server is a run of the QUIC backend, which carries whole
    messages.  So what a subscriber took, with what waits for it, is a prefix of
    what its service sent, in order and without gaps; while both tasks run, the
    rest is exactly the messages in the bytes that the client has not decoded and
    the notifications in the channel. *)
Theorem h3_subscription_refines size h :
  rtc hstep (new_h3 size) h →
  ∃ q, rtc qstep (new_quic size) q ∧ h3_rel valid frame h q ∧
    ∀ i st, hc_streams h !! i = Some st →
      let got := h_got st ++ sub_waiting (schans (hc_subs h)) (h_cli st) in
      got `prefix_of` values (s_notified (h_srv st)) ∧
      (∀ c u, h_cli st = QStreaming c u → s_pc (h_srv st) ≠ SEnded →
        ∃ msgs, unread st = concat (frame <$> msgs) ∧
          values (s_notified (h_srv st)) =
            got ++ omap (delivered decoder) msgs ++ values (channel_buf (h_srv st))).
Proof.
  intros Hrun. destruct (sim_run size h Hrun) as (q & Hq & Hrel). exists q. split_and!; [done..|].
  intros i st Hi got. pose proof Hrel as (sts & -> & Hall & _).
  destruct (Forall2_lookup_l _ _ _ _ _ Hall Hi) as (s & Hs & Hst).
  destruct (proj1 (quic_inv_reachable cfg peer decoder size _ Hq) i s Hs) as (_ & _ & (mid & Hmid & Hl) & _).
  simpl in Hmid, Hl. pose proof Hst as (_ & Hsrv & Hg & Hcli & _ & _ & Hdown).
  rewrite (rel_waiting st s) in Hmid by done. rewrite Hsrv, Hg in *. split; [by exists mid|].
  intros c u Hc Hpc. rewrite Hc in Hcli, Hdown. simpl in Hcli. rewrite Hcli in Hl.
  destruct (Hl I) as (rest & -> & Hrest). rewrite (Hrest Hpc) in Hmid.
  exists (st_down s). split; [|exact Hmid]. apply (carries_exact valid frame).
  by apply down_rel_running; [apply Hdown|].
Qed.

End simulation.

(** ** Witness *)

(** A codec of the messages of a list, by their place in it. *)
Definition place (K : list Value) (m : Value) : option nat := fst <$> list_find (m =.) K.
Definition place_frame (K : list Value) (m : Value) : list Z := [Z.of_nat (from_option id O (place K m)); 0].

#[local] Instance places : Codec (list Value) Value net_error := {|
  Codec.encode K m dst :=
    match place K m with
    | Some _ => (Ok 2, Buffer.extend_from_slice dst (place_frame K m))
    | None => (Err (IO OtherIo), dst)
    end;
  Codec.decode K src :=
    match inner src with
    | i :: _ :: _ => match K !! Z.to_nat i with Some m => Ok (Some (2, m)) | None => Err (IO OtherIo) end
    | _ => Ok None
    end;
|}.

#[local] Instance places_frames K : FrameCodec K (λ m, is_Some (place K m)) (place_frame K).
Proof.
  split; simpl.
  - intros o n b. destruct (place K (VObject o)) eqn:Hp; [|done]. intros [= <- <-]. by eauto.
  - intros m rest n m' [i Hi]. unfold place_frame. rewrite Hi. simpl. rewrite Nat2Z.id.
    unfold place in Hi. apply fmap_Some in Hi as ([j x] & Hf & ->).
    apply list_find_Some in Hf as (Hj & <- & _). simpl. rewrite Hj. by intros [= <- <-].
  - intros m p q n m' _ Hpq Hq. unfold place_frame in Hpq.
    destruct p as [|? [|? p]]; [done..|]. destruct p; by simplify_eq/=.
  - done.
Qed.

(** A subscriber of the feed gets a result, byte by byte. *)
Definition watch_response : Response := outcome_response (Some (int_ser 1)) (Ok (int_ser 7)).
Definition watch_messages : list Value :=
  [watch_request 1; to_value watch_response; to_value (default_notification_encoder (tick true))].

#[local] Existing Instance plain_http.

Notation feed3_step := (h3_step watch_messages toy_config default_notification_decoder
  feed DEFAULT_CONTENT_TYPE None watch_messages).

Definition watched : h3_stream :=
  mkH3 (watch_request 1) (mkSrv SStreaming (Some watch_chan) [] [tick true]) Buffer.new [] (Some OK) []
    (QStreaming 0 0) (Some Buffer.new) [VBool true].

Definition after_watch : h3 :=
  mkH3Client (Subscriptions.subscribe (Subscriptions.new 5) 7 0%nat) {[7 := 0%nat]}
    {[0%nat := mkUchan None false true]} [] [watched].

Lemma one_server sb uc us un st st' :
  h3_server watch_messages feed DEFAULT_CONTENT_TYPE None st st' →
  feed3_step (mkH3Client sb uc us un [st]) (mkH3Client sb uc us un [st']).
Proof. by apply (h_server _ _ _ _ _ _ _ sb uc us un [st] 0). Qed.

(** The server's side: the request byte by byte, the method and its response. *)
Lemma watch_served sb uc us un :
  rtc feed3_step
    (mkH3Client sb uc us un [mkH3 (watch_request 1) new_srv Buffer.new [0; 0] None [] (QWait QSub) None []])
    (mkH3Client sb uc us un [mkH3 (watch_request 1) (mkSrv SStreaming (Some watch_chan) [] []) Buffer.new []
      (Some OK) [1; 0] (QWait QSub) None []]).
Proof.
  set (req := mkNewRequest "Feed" "watch" (wire_request (new_request 1 "Feed.watch" VNull))).
  eapply rtc_l; [apply one_server;
    apply (hs_subscription _ _ _ _ (watch_request 1) [HData [0]; HData [0]] [] req watch Buffer.new []);
    reflexivity|].
  eapply rtc_l; [apply one_server; eapply hs_inner; apply (srv_new_subscription _ _ _ _ _ _ "Feed.watch" (Some 7) 0)|].
  eapply rtc_l; [apply one_server; eapply hs_inner;
    by apply (srv_method _ _ _ _ _ req watch (Channel.new None) (Ok (int_ser 7)) watch_chan)|].
  eapply rtc_l; [apply one_server; by apply hs_headers|].
  eapply rtc_l; [apply one_server; eapply hs_write; [apply srv_respond|vm_compute; reflexivity|reflexivity]|].
  apply reflexive_eq. reflexivity.
Qed.

(** The client's side: the response in two reads. *)
Lemma watch_granted s :
  rtc feed3_step
    (mkH3Client (Subscriptions.new 5) ∅ ∅ [] [mkH3 (watch_request 1) s Buffer.new [] (Some OK) [1; 0] (QWait QSub) None []])
    (mkH3Client (Subscriptions.subscribe (Subscriptions.new 5) 7 0%nat) {[7 := 0%nat]}
      {[0%nat := mkUchan None false true]} []
      [mkH3 (watch_request 1) s Buffer.new [] (Some OK) [] (QStreaming 0 0) (Some Buffer.new) []]).
Proof.
  eapply rtc_l; [eapply (h_reading _ _ _ _ _ _ _ _ _ _ _ _ 0); [reflexivity|by apply hr_headers]|].
  eapply rtc_l; [eapply (h_reading _ _ _ _ _ _ _ _ _ _ _ _ 0); [reflexivity|]|].
  { apply (hr_reading _ _ _ _ _ _ [0] _ Buffer.new [HData [1]] (mkBuffer [1]) []). reflexivity. }
  eapply rtc_l; [eapply (h_granted _ _ _ _ _ _ _ _ _ _ _ _ 0 _ _ (wire_response watch_response) 7 0%nat);
    [reflexivity| |reflexivity..]|].
  { apply (hr_response _ _ _ _ _ _ [] _ (mkBuffer [1]) [HData [0]] Buffer.new []). vm_compute. reflexivity. }
  eapply rtc_l; [eapply (h_registered _ _ _ _ _ _ _ _ _ _ _ _ 0 _ 7 0%nat 0%nat); reflexivity|].
  apply reflexive_eq. reflexivity.
Qed.

Lemma after_watch_run : rtc feed3_step (new_h3 5) after_watch.
Proof.
  eapply rtc_l.
  { eapply (h_open _ _ _ _ _ _ _ _ _ _ _ [] 1 "Feed.watch" VNull); [by unfold_u|vm_compute; reflexivity]. }
  etrans; [apply watch_served|]. etrans; [apply watch_granted|].
  set (ch := mkChannel [tick true] true (ch_subs watch_chan) None).
  eapply rtc_l; [apply one_server; eapply hs_inner;
    by apply (srv_notify _ _ _ _ _ _ (JsonRpcServer.mkSubscription 7 "Feed.watch") (VBool true))|].
  eapply rtc_l; [apply one_server; eapply hs_inner; by apply (srv_notified _ _ _ _ [tick true] [] 0 (tick true) ch)|].
  eapply rtc_l; [apply one_server; eapply hs_write;
    [by apply (srv_notification feed None ch _ _ (tick true) watch_chan)|vm_compute; reflexivity|reflexivity]|].
  eapply rtc_l; [eapply (h_task_reading _ _ _ _ _ _ _ _ _ _ _ _ 0); [reflexivity|]|].
  { apply (ht_reading _ _ _ _ _ _ [0] _ _ _ Buffer.new [HData [2]] (mkBuffer [2]) []). reflexivity. }
  eapply rtc_l; [eapply (h_message _ _ _ _ _ _ _ _ _ _ _ _ 0 _ _ (to_value (default_notification_encoder (tick true))));
    [reflexivity| |reflexivity..]|].
  { apply (ht_message _ _ _ _ _ _ [] _ _ _ (mkBuffer [2]) [HData [0]] Buffer.new []). vm_compute. reflexivity. }
  eapply rtc_l; [eapply (h_recv _ _ _ _ _ _ _ _ _ _ _ _ 0); [reflexivity|right; by eexists|reflexivity..]|].
  apply reflexive_eq. unfold after_watch. f_equal; vm_compute; reflexivity.
Qed.

Lemma h3_subscription_refines_witness :
  ∃ q, rtc feed_step (new_quic 5) q ∧ values (s_notified (h_srv watched)) = [VBool true] ++ [] ++ [].
Proof.
  destruct (h3_subscription_refines watch_messages watch_messages (λ m, is_Some (place watch_messages m))
    (place_frame watch_messages) toy_config default_notification_decoder feed DEFAULT_CONTENT_TYPE None
    5 after_watch after_watch_run) as (q & Hq & _ & Hst).
  exists q. split; [exact Hq|].
  destruct (Hst 0%nat watched eq_refl) as [_ Hall].
  destruct (Hall 0%nat 0%nat eq_refl ltac:(discriminate)) as (msgs & Hu & Hv).
  destruct msgs as [|m msgs]; [exact Hv|discriminate Hu].
Defined.
