(* ===== verification/JsonRpcServerSystem.v ===== *)
(** * A whole JSON-RPC server

    Models how [jsonrpc/src/server] puts its tasks together: [start_block] accepts
    connections of the server's backend and spawns a task for each; a stream is
    upgraded and becomes a message connection; a QUIC connection is accepted
    ([handle_quic_incoming], [handle_quic_conn]) and has a task for each of its
    streams; an HTTP connection is served by hyper over TCP ([http/h1h2.rs]) or by
    h3 over QUIC ([http/h3.rs]) with a task for each request.  [shutdown] is an
    instance of [Lifecycle], and so is [Client::stop].

    The states of the connections are those of the other files, and their steps are
    steps of the server.  The theorems: each connection, stream and request makes a
    run of its own, whatever the others do; and what outlives a shutdown. *)

From S2P Require Import Prelude Codec Endpoint Framed Json TaskGroup Lifecycle.
From S2P Require Import JsonRpcServer JsonRpcServerSpec JsonRpcClient JsonRpcClientSpec JsonRpcExchange.
From S2P Require Import JsonRpcQuic JsonRpcQuicSpec JsonRpcHttp JsonRpcH3.

Local Open Scope nat_scope.

(** The backends, and whether an HTTP server has a QUIC endpoint too. *)
Inductive backend_kind := StreamBackend | QuicBackend | HttpBackend (h3 : bool).

(** A request of an HTTP/3 connection: its headers are being read, it is handled,
    or its task is over. *)
Inductive h3_task :=
| H3Resolving
| H3Handling (method : Method) (st : h3_stream)
| H3Over.

(** A connection.  A stream is being upgraded, a message connection, or over; a QUIC
    connection is in its handshake, or accepts streams and has a task for each; an
    HTTP connection over TCP has its responses; one over QUIC is in the QUIC
    handshake, in that of HTTP/3, or accepts requests. *)
Inductive server_conn :=
| SUpgrading
| SMessage (c : conn)
| SQuicIncoming
| SQuic (peer : option Endpoint) (accepting : bool) (streams : list srv_task)
| SHttp (serving : bool) (responses : list http_response)
| SH3Incoming
| SH3Setup (peer : option Endpoint)
| SH3 (peer : option Endpoint) (accepting : bool) (requests : list h3_task)
| SClosed.

(** [accepting_conns] is [start_block], until it is cancelled. *)
Record server := mkServer {
  accepting_conns : bool;
  server_conns : list server_conn;
}.

Definition new_server : server := mkServer true [].

Section system.
Context `{Http} {C : Type} `{Codec C Value net_error} (codec : C).
Context (cfg : ServerConfig) (content_type : string) (kind : backend_kind).

(** What the accept loop of a backend spawns a task for. *)
Definition accepts (c : server_conn) : bool :=
  match kind, c with
  | StreamBackend, SUpgrading => true
  | QuicBackend, SQuicIncoming => true
  | HttpBackend _, SHttp true [] => true
  | HttpBackend true, SH3Incoming => true
  | _, _ => false
  end.

(** A request before its first byte. *)
Definition fresh_request (st : h3_stream) : Prop :=
  h_srv st = new_srv ∧ h_body st = Buffer.new ∧ h_status st = None ∧ h_down st = [].

(** [AsyncAcceptor::handle], then [handle_message_conn]. *)
Inductive stream_conn_step : server_conn → server_conn → Prop :=
| sc_upgraded peer :
    stream_conn_step SUpgrading (SMessage (new_conn peer))
| sc_upgrade_failed :
    stream_conn_step SUpgrading SClosed
| sc_message c c' :
    conn_step cfg c c' → stream_conn_step (SMessage c) (SMessage c').

(** The connections of [server/quic.rs]. *)
Inductive quic_conn_step : server_conn → server_conn → Prop :=
(** [handle_quic_incoming] and [handle_quic_conn]. *)
| sc_quic_handshake peer :
    quic_conn_step SQuicIncoming (SQuic peer true [])
| sc_quic_failed :
    quic_conn_step SQuicIncoming SClosed
(** [quic_accept_streams_task] and [quic_handle_stream_task]. *)
| sc_quic_stream peer sts :
    quic_conn_step (SQuic peer true sts) (SQuic peer true (sts ++ [new_srv]))
| sc_quic_lost peer sts :
    quic_conn_step (SQuic peer true sts) (SQuic peer false sts)
| sc_quic_task peer a sts i s inp out s' :
    sts !! i = Some s → srv_step cfg peer s inp out s' →
    quic_conn_step (SQuic peer a sts) (SQuic peer a (<[i := s']> sts)).

(** [serve_conn] over TCP: hyper calls the service for every request. *)
Inductive hyper_conn_step : server_conn → server_conn → Prop :=
| sc_http_request rs method b resp :
    handle_hyper_request codec cfg content_type method b = Ready resp →
    hyper_conn_step (SHttp true rs) (SHttp true (rs ++ [resp]))
| sc_http_closed rs :
    hyper_conn_step (SHttp true rs) (SHttp false rs).

(** The connections of [server/http/h3.rs]. *)
Inductive h3_conn_step : server_conn → server_conn → Prop :=
(** [serve_incoming_task] and [serve_conn] over QUIC. *)
| sc_h3_handshake peer :
    h3_conn_step SH3Incoming (SH3Setup peer)
| sc_h3_failed :
    h3_conn_step SH3Incoming SClosed
| sc_h3_connection peer :
    h3_conn_step (SH3Setup peer) (SH3 peer true [])
| sc_h3_setup_failed peer :
    h3_conn_step (SH3Setup peer) SClosed
| sc_h3_accept peer rs :
    h3_conn_step (SH3 peer true rs) (SH3 peer true (rs ++ [H3Resolving]))
| sc_h3_lost peer rs :
    h3_conn_step (SH3 peer true rs) (SH3 peer false rs)
(** [handle_request_task]. *)
| sc_h3_resolved peer a rs i method st :
    rs !! i = Some H3Resolving → fresh_request st →
    h3_conn_step (SH3 peer a rs) (SH3 peer a (<[i := H3Handling method st]> rs))
| sc_h3_not_resolved peer a rs i :
    rs !! i = Some H3Resolving →
    h3_conn_step (SH3 peer a rs) (SH3 peer a (<[i := H3Over]> rs))
| sc_h3_task peer a rs i st st' :
    rs !! i = Some (H3Handling POST st) → h3_server codec cfg content_type peer st st' →
    h3_conn_step (SH3 peer a rs) (SH3 peer a (<[i := H3Handling POST st']> rs))
| sc_h3_refused peer a rs i st resp p :
    rs !! i = Some (H3Handling OtherMethod st) →
    handle_h3_request codec cfg content_type OtherMethod [] = Ready (H3Send resp) →
    p `prefix_of` hr_body resp →
    h3_conn_step (SH3 peer a rs) (SH3 peer a (<[i := H3Handling OtherMethod
      (mkH3 (h_request st) (end_task new_srv) Buffer.new (h_up st) (Some (hr_status resp)) p
        (h_cli st) (h_reader st) (h_got st))]> rs))
| sc_h3_ended peer a rs i method st :
    rs !! i = Some (H3Handling method st) →
    h3_conn_step (SH3 peer a rs) (SH3 peer a (<[i := H3Over]> rs)).

Inductive server_conn_step (c c' : server_conn) : Prop :=
| sc_stream : stream_conn_step c c' → server_conn_step c c'
| sc_quic : quic_conn_step c c' → server_conn_step c c'
| sc_hyper : hyper_conn_step c c' → server_conn_step c c'
| sc_h3 : h3_conn_step c c' → server_conn_step c c'.

Inductive server_step : server → server → Prop :=
| server_accepts_conn cs c :
    accepts c = true → server_step (mkServer true cs) (mkServer true (cs ++ [c]))
| server_conn_moves a cs i c c' :
    cs !! i = Some c → server_conn_step c c' → server_step (mkServer a cs) (mkServer a (<[i := c']> cs))
| server_stops cs :
    server_step (mkServer true cs) (mkServer false cs).

(** ** Theorems *)

(** The tasks of a stream and of a request, on their own. *)
Definition stream_run (peer : option Endpoint) : srv_task → srv_task → Prop :=
  rtc (λ s s', ∃ inp out, srv_step cfg peer s inp out s').

Definition request_ok (peer : option Endpoint) (t : h3_task) : Prop :=
  match t with
  | H3Handling POST st => ∃ st0, fresh_request st0 ∧ rtc (h3_server codec cfg content_type peer) st0 st
  | _ => True
  end.

(** What a connection has done is what a connection of its kind does alone. *)
Definition conn_ok (c : server_conn) : Prop :=
  match c with
  | SMessage c => kind = StreamBackend ∧ ∃ peer, rtc (conn_step cfg) (new_conn peer) c
  | SQuic peer _ sts => kind = QuicBackend ∧ Forall (stream_run peer new_srv) sts
  | SHttp _ resps => (∃ h3, kind = HttpBackend h3) ∧
      Forall (λ r, ∃ method b, handle_hyper_request codec cfg content_type method b = Ready r) resps
  | SH3 peer _ rs => kind = HttpBackend true ∧ Forall (request_ok peer) rs
  | SH3Setup _ | SH3Incoming => kind = HttpBackend true
  | SUpgrading => kind = StreamBackend
  | SQuicIncoming => kind = QuicBackend
  | SClosed => True
  end.

Lemma Forall_insert_ok {A} (P : A → Prop) l i x : Forall P l → P x → Forall P (<[i := x]> l).
Proof. intros. by apply Forall_insert. Qed.

Lemma accepts_ok c : accepts c = true → conn_ok c.
Proof. unfold accepts, conn_ok. destruct kind as [| |[]], c as [| | | |[] []| | | |]; naive_solver. Qed.

(** The connection has the backend's kind still, and a new or changed task did a run. *)
Ltac conn_ok := intros [Hk Hall]; split; [done|]; first [apply Forall_app; split; [done|]|apply Forall_insert_ok; [done|]].

Lemma stream_step_ok c c' : stream_conn_step c c' → conn_ok c → conn_ok c'.
Proof.
  intros Hs. destruct Hs as [peer| |c c' Hs]; cbn; [|done|].
  - intros Hk. split; [done|]. by exists peer.
  - intros [Hk [peer Hr]]. split; [done|]. exists peer. by eapply rtc_r.
Qed.

Lemma quic_step_ok c c' : quic_conn_step c c' → conn_ok c → conn_ok c'.
Proof.
  intros Hs. destruct Hs as [peer| |peer sts|peer sts|peer a sts i s inp out s' Hi Hs]; cbn; try done.
  - conn_ok. by repeat constructor.
  - conn_ok. rewrite Forall_lookup in Hall. eapply rtc_r; [by eapply Hall|]. by exists inp, out.
Qed.

Lemma hyper_step_ok c c' : hyper_conn_step c c' → conn_ok c → conn_ok c'.
Proof. intros Hs. destruct Hs as [rs m b resp Hr|rs]; cbn; [|done]. conn_ok. constructor; [by eauto|done]. Qed.

Lemma h3_step_ok c c' : h3_conn_step c c' → conn_ok c → conn_ok c'.
Proof.
  intros Hs. destruct Hs as [peer| |peer|peer|peer rs|peer rs|peer a rs i m st Hi Hf|peer a rs i Hi
    |peer a rs i st st' Hi Hs|peer a rs i st resp p Hi Hr Hp|peer a rs i m st Hi]; cbn; try done; conn_ok; try done.
  - by repeat constructor.
  - destruct m; [|done]. by exists st.
  - rewrite Forall_lookup in Hall. destruct (Hall i _ Hi) as (st0 & Hf & Hr).
    exists st0. split; [done|]. by eapply rtc_r.
Qed.

Lemma conn_step_ok c c' : server_conn_step c c' → conn_ok c → conn_ok c'.
Proof. intros []; eauto using stream_step_ok, quic_step_ok, hyper_step_ok, h3_step_ok. Qed.

Lemma server_reachable s : rtc server_step new_server s → Forall conn_ok (server_conns s).
Proof.
  assert (Forall conn_ok (server_conns new_server)) as Hnew by constructor.
  intros Hr. revert Hnew. induction Hr as [|s s1 s2 Hs _ IH]; [done|]. intros Hok. apply IH. clear IH s2.
  destruct Hs as [cs c Hc|a cs i c c' Hi Hs|cs]; cbn in *; [| |done].
  - apply Forall_app. split; [done|]. constructor; [by apply accepts_ok|done].
  - apply Forall_insert_ok; [done|]. eapply conn_step_ok; [exact Hs|]. rewrite Forall_lookup in Hok. by eapply Hok.
Qed.

(** A connection's run, in a server that has only accepted it. *)
Lemma message_conn_run peer x :
  kind = StreamBackend → rtc (conn_step cfg) (new_conn peer) x →
  rtc server_step new_server (mkServer true [SMessage x]).
Proof.
  intros Hk Hr. eapply rtc_l; [apply (server_accepts_conn [] SUpgrading); by unfold accepts; rewrite Hk|].
  eapply rtc_l; [by apply (server_conn_moves _ _ 0 SUpgrading), sc_stream, (sc_upgraded peer)|].
  change (<[0:=SMessage (new_conn peer)]> ([] ++ [SUpgrading])) with [SMessage (new_conn peer)].
  induction Hr as [|x y z Hs _ IH]; [apply rtc_refl|]. eapply rtc_l; [|exact IH].
  apply (server_conn_moves true [SMessage x] 0 (SMessage x) (SMessage y)); [done|by apply sc_stream, sc_message].
Qed.

(** C12: the connections of a server do not disturb one another.  In every run of a
    server, whatever its connections meet and in whatever order its tasks run, each
    message connection has made a run of its own from its beginning, each stream of a
    QUIC connection and each request of an HTTP/3 connection too, and each response of
    an HTTP connection is the handler's to some request; and a server only has
    connections of its backend.  So what is proved of one connection holds of all of
    them at once: every message connection works on at most 64 requests and holds at
    most 256 responses; every response written on it is the answer to a request that
    was read from it, no request is answered twice, and as long as its writer runs, no
    method panics and no request is cancelled, every request is answered or in work;
    its notifications leave in order. *)
Theorem server_isolates s i c :
  rtc server_step new_server s → server_conns s !! i = Some c →
  conn_ok c ∧
  ∀ x, c = SMessage x →
    length (JsonRpcServer.requests x) ≤ 64 ∧ length (queue x) ≤ 256 ∧
    (∃ answered open lost, c_read x ≡ₚ answered ++ open ++ lost ∧
      Forall2 (λ msg r, answers cfg msg r ∧ response_ok (rq_id <$> from_value msg) r)
        answered (responses (c_written x)) ∧
      length open = length (JsonRpcServer.requests x) + length (queue x) ∧
      (faulted x = false → lost = [])) ∧
    notifications (c_written x) `prefix_of` map (notification_encoder cfg) (c_notified x).
Proof.
  intros Hr Hi. pose proof (server_reachable s Hr) as Hall. rewrite Forall_lookup in Hall.
  pose proof (Hall i c Hi) as Hc. split; [done|].
  intros x ->. destruct Hc as [_ [peer Hx]]. by eapply server_conn_sound.
Qed.

End system.

#[local] Existing Instances plain_http toy_codec.

Lemma server_isolates_witness :
  rtc (server_step () calc DEFAULT_CONTENT_TYPE StreamBackend) new_server (mkServer true [SMessage served]) ∧
  responses (c_written served) ≠ [] ∧ length (JsonRpcServer.requests served) ≤ 64.
Proof.
  assert (rtc (server_step () calc DEFAULT_CONTENT_TYPE StreamBackend) new_server (mkServer true [SMessage served])) as Hr
    by exact (message_conn_run () calc DEFAULT_CONTENT_TYPE StreamBackend None served eq_refl served_reachable).
  split; [exact Hr|]. split; [done|].
  destruct (server_isolates () calc DEFAULT_CONTENT_TYPE StreamBackend _ 0 (SMessage served) Hr eq_refl) as [_ Hx].
  exact (proj1 (Hx served eq_refl)).
Defined.

(** ** Shutting down *)

(** The tasks of a server that [start] runs, by the function that is spawned.  All are
    in its one task group, those that hyper spawns through [HyperExecutor] included. *)
Inductive server_task :=
| TStartBlock
| TStreamHandle | TStreamReader | TStreamWriter | TRequest
| TQuicIncoming | TQuicAcceptStreams | TQuicHandleStream
| THttpServe | THyper
| TH3ServeIncoming | TH3HandleRequest.

(** [hyper] are the tasks in which hyper hands a future to its executor. *)
Definition server_layout (hyper : list server_task) : layout () server_task := {|
  group_of _ := ();
  spawners t :=
    match t with
    | TStartBlock => []
    | TStreamHandle | TQuicIncoming | THttpServe | TH3ServeIncoming => [TStartBlock]
    | TStreamReader | TStreamWriter => [TStreamHandle]
    | TRequest => [TStreamReader]
    | TQuicAcceptStreams => [TQuicIncoming]
    | TQuicHandleStream => [TQuicAcceptStreams]
    | THyper => hyper
    | TH3HandleRequest => [TH3ServeIncoming]
    end;
  root t := match t with TStartBlock => true | _ => false end;
  late _ := false;
  order := [()];
|}.

(** The tasks of a client: the loop of the multiplexed connection, the tasks of
    subscriptions over QUIC and HTTP/3, those that drive HTTP connections, and those
    of hyper.  [init] spawns the loop; the calls of the application spawn the others,
    hyper's too when the application's task runs hyper. *)
Inductive client_task := TBackgroundLoop | TQuicSubscription | TH3Subscription | TDriver | TClientHyper.

(** [calls] says whether calls of the application go on once [stop] is called: a call
    spawns its tasks when its connection is there or its request was answered. *)
Definition client_layout (calls : bool) (hyper : list client_task) : layout () client_task := {|
  group_of _ := ();
  spawners t := match t with TClientHyper => hyper | _ => [] end;
  root _ := true;
  late t := match t with TBackgroundLoop => false | _ => calls end;
  order := [()];
|}.

(** [Server::shutdown] or [Client::stop] has returned. *)
Definition shut_down {T} (L : layout () T) (s : system () T) : Prop :=
  rtc (sys_step L) new_system s ∧ stop s = StopNext 1.

(** With one group, what outlives the shutdown is what some task or call spawns. *)
Lemma one_group {T} (L : layout () T) :
  order L = [()] → (∀ t, spawnable L t) →
  (∀ t, (∃ s id, shut_down L s ∧ running L s t id) ↔ spawners L t ≠ [] ∨ late L t = true) ∧
  (∀ s t id, shut_down L s → spawners L t = [] → late L t = false → bodies s () !! id = Some t → task_over (groups s ()) id) ∧
  (∀ s, rtc (sys_step L) new_system s → stop s ≠ StopNotCalled →
    ∃ s', rtc (sys_step L) s s' ∧ shut_down L s').
Proof.
  intros Ho Hsp. destruct (shutdown_exact L Hsp) as (Hrun & Hover & Hret). rewrite Ho in *. cbn [length] in *.
  assert (∀ t, stopped L 1 t = true ↔ spawners L t = [] ∧ late L t = false) as Hst.
  { intros t. cbn. rewrite Ho. by destruct (group_of L t), (spawners L t), (late L t); cbn; split; intros; destruct_and?. }
  split_and!.
  - intros t. transitivity (stopped L 1 t = false).
    2: { rewrite <-not_true_iff_false, (Hst t). destruct (spawners L t), (late L t); (split; [intros Hno|by intros [?|?] [? ?]]);
        [by right|by destruct Hno|by left..]. }
    rewrite <-(Hrun t).
    split; [intros (s & id & [? ?] & ?)|intros (s & id & ? & ? & ?)]; by exists s, id.
  - intros s t id [Hr Hs] Hsp0 Hl Hid. specialize (Hover s t id Hr Hs (proj2 (Hst t) (conj Hsp0 Hl))).
    destruct (group_of L t). by apply Hover.
  - intros s Hr Hs. destruct (Hret s Hr Hs) as (s' & Hr' & Hs'). exists s'. split; [done|]. split; [by etrans|done].
Qed.

Lemma server_spawnable hyper t : THttpServe ∈ hyper → spawnable (server_layout hyper) t.
Proof.
  intros Hh. set (L := server_layout hyper).
  assert (∀ p t, p ∈ spawners L t → spawnable L p → spawnable L t) as by_ by (intros; by eapply spawnable_by).
  assert (spawnable L TStartBlock) as H0 by (apply spawnable_root; by left).
  assert (spawnable L TStreamHandle) by (apply (by_ TStartBlock); [by left|done]).
  assert (spawnable L TStreamReader) by (apply (by_ TStreamHandle); [by left|done]).
  assert (spawnable L TQuicIncoming) by (apply (by_ TStartBlock); [by left|done]).
  assert (spawnable L TQuicAcceptStreams) by (apply (by_ TQuicIncoming); [by left|done]).
  assert (spawnable L THttpServe) by (apply (by_ TStartBlock); [by left|done]).
  assert (spawnable L TH3ServeIncoming) by (apply (by_ TStartBlock); [by left|done]).
  destruct t; try done.
  - apply (by_ TStreamHandle); [by left|done].
  - apply (by_ TStreamReader); [by left|done].
  - apply (by_ TQuicAcceptStreams); [by left|done].
  - by apply (by_ THttpServe).
  - apply (by_ TH3ServeIncoming); [by left|done].
Qed.

(** C29: shutting down a JSON-RPC server and stopping a client.  When
    [Server::shutdown] has returned, the accept loop has ended, but each of the other
    tasks, of connections, streams and requests, can still be running: a task that is
    being cancelled can spawn it into the group after [cancel] has emptied it.  When
    [Client::stop] has returned, the background loop has ended; if no call was in
    progress when it was called and none was made since, so have the tasks of
    subscriptions and connections, those aside that hyper's own tasks hand to the
    executor; a call in progress can leave any of them.  Both can always return. *)
Theorem rpc_shutdown_exact hyper calls hyper' :
  THttpServe ∈ hyper →
  (∀ t, (∃ s id, shut_down (server_layout hyper) s ∧ running (server_layout hyper) s t id) ↔ t ≠ TStartBlock) ∧
  (∀ t, (∃ s id, shut_down (client_layout calls hyper') s ∧ running (client_layout calls hyper') s t id) ↔
    t ≠ TBackgroundLoop ∧ (calls = true ∨ t = TClientHyper ∧ hyper' ≠ [])) ∧
  (∀ s t id, shut_down (client_layout calls hyper') s →
    t = TBackgroundLoop ∨ calls = false ∧ t ≠ TClientHyper →
    bodies s () !! id = Some t → task_over (groups s ()) id) ∧
  (∀ s, rtc (sys_step (server_layout hyper)) new_system s → stop s ≠ StopNotCalled →
    ∃ s', rtc (sys_step (server_layout hyper)) s s' ∧ shut_down (server_layout hyper) s') ∧
  (∀ s, rtc (sys_step (client_layout calls hyper')) new_system s → stop s ≠ StopNotCalled →
    ∃ s', rtc (sys_step (client_layout calls hyper')) s s' ∧ shut_down (client_layout calls hyper') s').
Proof.
  intros Hh. destruct (one_group (server_layout hyper)) as (Hrun & _ & Hret); [done|by intros; apply server_spawnable|].
  destruct (one_group (client_layout calls hyper')) as (Hrun' & Hover & Hret');
    [done|by intros; apply spawnable_root; left|].
  split_and!; [| | |done|done].
  - assert (hyper ≠ []) by (intros ->; by apply not_elem_of_nil in Hh).
    intros t. rewrite (Hrun t). destruct t; cbn; (split; [by intros [?|?]|try (intros _; by left)]). done.
  - intros t. rewrite (Hrun' t). destruct t; cbn; intuition congruence.
  - intros s t id Hs [->|[-> Ht]]; apply Hover; try done; by destruct t.
Qed.

Lemma rpc_shutdown_exact_witness :
  THttpServe ∈ [THttpServe] ∧
  ((∃ s id, shut_down (server_layout [THttpServe]) s ∧ running (server_layout [THttpServe]) s TStreamReader id) ↔
    TStreamReader ≠ TStartBlock) ∧
  ((∃ s id, shut_down (client_layout true [TDriver]) s ∧ running (client_layout true [TDriver]) s TQuicSubscription id) ↔
    TQuicSubscription ≠ TBackgroundLoop ∧ (true = true ∨ TQuicSubscription = TClientHyper ∧ [TDriver] ≠ [])).
Proof.
  split; [by left|]. split; apply (rpc_shutdown_exact [THttpServe] true [TDriver]); by left.
Defined.
