(* ===== verification/JsonRpcSetup.v ===== *)
(** * Building JSON-RPC servers and clients

    Models [jsonrpc/src/server/builder.rs], the backends, acceptors and accept
    loops of [server/mod.rs], [server/acceptor.rs], [server/http/mod.rs] and
    [h1h2.rs], and [client/builder.rs] with the backends that [Client::init] and
    [client/multiplexed.rs], [quic_stream.rs] and [http] make, with all default
    features on.

    Building gives a backend and, for a client, a connection; the connection is a
    stack of layers over a socket.  What an accepted or dialed connection does
    afterwards is in [JsonRpcServer], [JsonRpcClient], [JsonRpcQuic] and
    [JsonRpcHttp]. *)

From S2P Require Import JsonRpcHttp.
From S2P Require Import Prelude Codec Endpoint Framed Message Version Backoff Utf8 IpText EndpointText Timed Transports QuicTransport Json Ws JsonRpcServer JsonRpcClient.

Local Open Scope Z_scope.
Local Open Scope timed_scope.

Definition ACCEPT_BACKOFF_BASE : Z := 10.
Definition ACCEPT_BACKOFF_MAX : Z := 1000.
Definition DEFAULT_HANDSHAKE_TIMEOUT : Z := 10000.
Definition DEFAULT_TIMEOUT : Z := 3000.
Definition DEFAULT_MAX_SUBSCRIPTION_BUFFER_SIZE : Z := 20000.
Definition DEFAULT_MAX_BUFFER_SIZE : Z := 4 * 1024 * 1024.

Definition JsonCodec_default : JsonCodec.t := JsonCodec.new DEFAULT_MAX_BUFFER_SIZE.

(** ** The server's configuration and builder *)

Record ServerHttpConfig := mkServerHttpConfig { sh_content_type : string }.

(** [ServerConfig]; the part the request handling uses is [JsonRpcServer]'s. *)
Record Setup `{Quinn} := mkSetup {
  endpoint : Endpoint;
  tcp_config : TcpConfig;
  tls_config : option ServerTlsConfig;
  quic_config : option ServerQuicConfig;
  handlers : ServerConfig;
  read_timeout : option Z;
  handshake_timeout : Z;
  http_config : ServerHttpConfig;
}.
Arguments mkSetup {_ _} _ _ _ _ _ _ _ _.

Record ServerBuilder `{Quinn} (B W Ex : Type) := mkServerBuilder {
  config : Setup;
  byte_codec : B;
  ws_codec : W;
  executor : option Ex;
}.
Arguments mkServerBuilder {_ _ B W Ex} _ _ _ _.
Arguments config {_ _ B W Ex} _.
Arguments byte_codec {_ _ B W Ex} _.
Arguments ws_codec {_ _ B W Ex} _.
Arguments executor {_ _ B W Ex} _.

Module ServerBuilder.
Section builder.
Context `{Quinn} {B W Ex : Type}.

Definition with_setup (b : ServerBuilder B W Ex) (c : Setup) : ServerBuilder B W Ex :=
  mkServerBuilder c (byte_codec b) (ws_codec b) (executor b).

Definition new_with_codec `{EndpointText.ToEndpoint A} (e : A) (codec : B) :
    result jsonrpc_error (ServerBuilder B JsonCodec.t Ex) :=
  e ← map_err JKaryonNet (EndpointText.to_endpoint e);
  Ok (mkServerBuilder
    (mkSetup e TcpConfig_default None None (mkServerConfig ∅ ∅ default_notification_encoder)
      None DEFAULT_HANDSHAKE_TIMEOUT (mkServerHttpConfig DEFAULT_CONTENT_TYPE))
    codec JsonCodec_default None).

Definition service (b : ServerBuilder B W Ex) (name : string) (s : RPCService) : ServerBuilder B W Ex :=
  let c := config b in
  let h := handlers c in
  with_setup b (mkSetup (endpoint c) (tcp_config c) (tls_config c) (quic_config c)
    (mkServerConfig (<[name := s]> (services h)) (pubsub_services h) (notification_encoder h))
    (read_timeout c) (handshake_timeout c) (http_config c)).

Definition pubsub_service (b : ServerBuilder B W Ex) (name : string) (s : PubSubRPCService) :
    ServerBuilder B W Ex :=
  let c := config b in
  let h := handlers c in
  with_setup b (mkSetup (endpoint c) (tcp_config c) (tls_config c) (quic_config c)
    (mkServerConfig (services h) (<[name := s]> (pubsub_services h)) (notification_encoder h))
    (read_timeout c) (handshake_timeout c) (http_config c)).

Definition unsupported (b : ServerBuilder B W Ex) : jsonrpc_error :=
  JUnsupportedProtocol (EndpointText.to_string (endpoint (config b))).

Definition set_tcp_config (b : ServerBuilder B W Ex) (v : TcpConfig) :
    result jsonrpc_error (ServerBuilder B W Ex) :=
  let c := config b in
  match endpoint c with
  | Tcp _ _ | Tls _ _ | Ws _ | Wss _ =>
      Ok (with_setup b (mkSetup (endpoint c) v (tls_config c) (quic_config c) (handlers c)
        (read_timeout c) (handshake_timeout c) (http_config c)))
  | _ => Err (unsupported b)
  end.

Definition set_tls_config (b : ServerBuilder B W Ex) (v : ServerTlsConfig) :
    result jsonrpc_error (ServerBuilder B W Ex) :=
  let c := config b in
  match endpoint c with
  | Tls _ _ | Wss _ =>
      Ok (with_setup b (mkSetup (endpoint c) (tcp_config c) (Some v) (quic_config c) (handlers c)
        (read_timeout c) (handshake_timeout c) (http_config c)))
  | _ => Err (JUnsupportedProtocol ("Invalid tls config for endpoint: " +:+ EndpointText.to_string (endpoint c)))
  end.

Definition set_quic_config (b : ServerBuilder B W Ex) (v : ServerQuicConfig) :
    result jsonrpc_error (ServerBuilder B W Ex) :=
  let c := config b in
  match endpoint c with
  | Quic _ _ | Http _ =>
      Ok (with_setup b (mkSetup (endpoint c) (tcp_config c) (tls_config c) (Some v) (handlers c)
        (read_timeout c) (handshake_timeout c) (http_config c)))
  | _ => Err (JUnsupportedProtocol ("Invalid quic config for endpoint: " +:+ EndpointText.to_string (endpoint c)))
  end.

Definition set_http_config (b : ServerBuilder B W Ex) (v : ServerHttpConfig) :
    result jsonrpc_error (ServerBuilder B W Ex) :=
  let c := config b in
  match endpoint c with
  | Http _ =>
      Ok (with_setup b (mkSetup (endpoint c) (tcp_config c) (tls_config c) (quic_config c)
        (handlers c) (read_timeout c) (handshake_timeout c) v))
  | _ => Err (JUnsupportedProtocol ("Invalid http config for endpoint: " +:+ EndpointText.to_string (endpoint c)))
  end.

Definition with_executor (b : ServerBuilder B W Ex) (ex : Ex) : ServerBuilder B W Ex :=
  mkServerBuilder (config b) (byte_codec b) (ws_codec b) (Some ex).

Definition set_read_timeout (b : ServerBuilder B W Ex) (duration : Z) : ServerBuilder B W Ex :=
  let c := config b in
  with_setup b (mkSetup (endpoint c) (tcp_config c) (tls_config c) (quic_config c) (handlers c)
    (Some duration) (handshake_timeout c) (http_config c)).

Definition set_handshake_timeout (b : ServerBuilder B W Ex) (duration : Z) : ServerBuilder B W Ex :=
  let c := config b in
  with_setup b (mkSetup (endpoint c) (tcp_config c) (tls_config c) (quic_config c) (handlers c)
    (read_timeout c) duration (http_config c)).

Definition with_notification_encoder (b : ServerBuilder B W Ex)
    (encoder : NewNotification → Notification) : ServerBuilder B W Ex :=
  let c := config b in
  let h := handlers c in
  with_setup b (mkSetup (endpoint c) (tcp_config c) (tls_config c) (quic_config c)
    (mkServerConfig (services h) (pubsub_services h) encoder)
    (read_timeout c) (handshake_timeout c) (http_config c)).

Definition with_ws_codec {W2} (b : ServerBuilder B W Ex) (ws_codec : W2) : ServerBuilder B W2 Ex :=
  mkServerBuilder (config b) (byte_codec b) ws_codec (executor b).

End builder.

Definition new `{Quinn} {Ex} `{EndpointText.ToEndpoint A} (e : A) :
    result jsonrpc_error (ServerBuilder JsonCodec.t JsonCodec.t Ex) :=
  new_with_codec e JsonCodec_default.

End ServerBuilder.

(** ** Listeners and acceptors *)

Inductive StreamListener :=
| TcpSL (l : TcpListener)
| UnixSL (l : UnixListener).

(** The sockets that come in. *)
Record incoming := mkIncomingSockets {
  tcp_in : timed (result io_kind TcpSocket);
  unix_in : timed (result io_kind UnixSocket);
}.

Module StreamListener.

Definition accept (l : StreamListener) (i : incoming) : timed (result net_error ByteStream) :=
  match l with
  | TcpSL l => Tcp.accept l (tcp_in i)
  | UnixSL l => UnixSock.accept l (unix_in i)
  end.

Definition local_endpoint (l : StreamListener) : result net_error Endpoint :=
  match l with
  | TcpSL l => Tcp.local_endpoint l
  | UnixSL l => UnixSock.local_endpoint l
  end.

End StreamListener.

Record StreamAcceptor `{Rustls} (B : Type) := mkStreamAcceptor {
  sa_listener : StreamListener;
  sa_codec : B;
  sa_tls : option TlsLayer;
  sa_timeout : Z;
}.
Arguments mkStreamAcceptor {_ B} _ _ _ _.
Arguments sa_listener {_ B} _.
Arguments sa_codec {_ B} _.
Arguments sa_tls {_ B} _.
Arguments sa_timeout {_ B} _.

Record WsAcceptor `{Rustls} (W : Type) := mkWsAcceptor {
  wa_listener : StreamListener;
  wa_layer : WsLayer W;
  wa_tls : option TlsLayer;
  wa_timeout : Z;
}.
Arguments mkWsAcceptor {_ W} _ _ _ _.
Arguments wa_listener {_ W} _.
Arguments wa_layer {_ W} _.
Arguments wa_tls {_ W} _.
Arguments wa_timeout {_ W} _.

(** What is given to [handle_message_conn]. *)
Inductive message_conn `{Tungstenite} (B W : Type) :=
| MFramed (stream : ByteStream) (codec : B) (peer : option Endpoint)
| MWs (conn : WsConn W) (peer : option Endpoint).
Arguments MFramed {_ B W} _ _ _.
Arguments MWs {_ B W} _ _.

(** [AsyncAcceptor]. *)
Inductive AsyncAcceptor `{Rustls} (B W : Type) :=
| AStream (a : StreamAcceptor B)
| AWs (a : WsAcceptor W).
Arguments AStream {_ B W} _.
Arguments AWs {_ B W} _.

Section acceptors.
Context `{Os} `{Rustls} `{Tungstenite} `{UrlCrate} {B W : Type}.

Definition stream_accept (a : StreamAcceptor B) (i : incoming) :
    timed (result jsonrpc_error ByteStream) :=
  map_err JKaryonNet <$> StreamListener.accept (sa_listener a) i.

Definition stream_handle (a : StreamAcceptor B) (stream : ByteStream) :
    timed (result jsonrpc_error (message_conn B W)) :=
  stream ⇐
    match sa_tls a with
    | Some layer => timeout_try JKaryonCore JKaryonNet (sa_timeout a) (server_handshake layer stream)
    | None => now (Ok stream)
    end;
  now (Ok (MFramed stream (sa_codec a) (ByteStream.peer_endpoint stream))).

Definition stream_local_endpoint (a : StreamAcceptor B) : result jsonrpc_error Endpoint :=
  ep ← map_err JKaryonNet (StreamListener.local_endpoint (sa_listener a));
  match sa_tls a with
  | Some _ =>
      addr ← map_err JKaryonNet (Endpoint.addr parse_ip ep);
      port ← map_err JKaryonNet (Endpoint.port ep);
      Ok (Tls addr port)
  | None => Ok ep
  end.

Definition ws_accept (a : WsAcceptor W) (i : incoming) : timed (result jsonrpc_error ByteStream) :=
  map_err JKaryonNet <$> StreamListener.accept (wa_listener a) i.

Definition ws_upgrade (a : WsAcceptor W) (stream : ByteStream) :
    timed (result jsonrpc_error (WsConn W)) :=
  stream ⇐
    match wa_tls a with
    | Some layer => map_err JKaryonNet <$> server_handshake layer stream
    | None => now (Ok stream)
    end;
  map_err JKaryonNet <$> server_handshake (wa_layer a) stream.

Definition ws_handle (a : WsAcceptor W) (stream : ByteStream) :
    timed (result jsonrpc_error (message_conn B W)) :=
  conn ⇐ timeout_try JKaryonCore id (wa_timeout a) (ws_upgrade a stream);
  now (Ok (MWs conn (WsConn.peer_endpoint conn))).

Definition ws_local_endpoint (a : WsAcceptor W) : result jsonrpc_error Endpoint :=
  inner ← map_err JKaryonNet (StreamListener.local_endpoint (wa_listener a));
  addr ← map_err JKaryonNet (try_socket_addr inner);
  let scheme := match wa_tls a with Some _ => "wss" | None => "ws" end in
  map_err JKaryonNet (EndpointText.from_str (scheme +:+ "://" +:+ socket_addr_to_string addr +:+ "/")).

Definition acceptor_accept (a : AsyncAcceptor B W) (i : incoming) :
    timed (result jsonrpc_error ByteStream) :=
  match a with AStream a => stream_accept a i | AWs a => ws_accept a i end.

Definition acceptor_handle (a : AsyncAcceptor B W) (stream : ByteStream) :
    timed (result jsonrpc_error (message_conn B W)) :=
  match a with AStream a => stream_handle a stream | AWs a => ws_handle a stream end.

Definition acceptor_local_endpoint (a : AsyncAcceptor B W) : result jsonrpc_error Endpoint :=
  match a with AStream a => stream_local_endpoint a | AWs a => ws_local_endpoint a end.

End acceptors.

(** ** The HTTP server *)

Record HttpServer (B : Type) := mkHttpServer {
  hs_tcp : Listening SocketAddr;
  hs_codec : B;
  hs_quic : option QuicEndpoint;
}.
Arguments mkHttpServer {B} _ _ _.
Arguments hs_tcp {B} _.
Arguments hs_codec {B} _.
Arguments hs_quic {B} _.

Module HttpServer.
Section server.
Context `{Os} `{Quinn} `{UrlCrate} {B : Type}.

Definition new (e : Endpoint) (codec : B) : timed (result jsonrpc_error (HttpServer B)) :=
  addr ⇐ now (map_err JKaryonNet (try_socket_addr e));
  tcp_listener ⇐ map_err JIO <$> tcp_bind addr;
  now (Ok (mkHttpServer tcp_listener codec None)).

Definition new_h3 (e : Endpoint) (quic_config : ServerQuicConfig) (codec : B) :
    timed (result jsonrpc_error (HttpServer B)) :=
  addr ⇐ now (map_err JKaryonNet (try_socket_addr e));
  tcp_listener ⇐ map_err JIO <$> tcp_bind addr;
  actual_addr ⇐ now (map_err JIO tcp_listener);
  quic_endpoint ⇐ now (map_err JKaryonNet
    (QuicEndpoint.listen (Endpoint.new_quic_addr actual_addr) quic_config));
  now (Ok (mkHttpServer tcp_listener codec (Some quic_endpoint))).

Definition local_endpoint (s : HttpServer B) : result jsonrpc_error Endpoint :=
  addr ← map_err JIO (hs_tcp s);
  map_err (λ _, HttpError "{}") (EndpointText.from_str ("http://" +:+ socket_addr_to_string addr +:+ "/")).

End server.
End HttpServer.

(** ** Backends *)

Inductive ServerBackend `{Rustls} (B W : Type) :=
| BStream (a : AsyncAcceptor B W)
| BQuic (e : QuicEndpoint)
| BHttp (s : HttpServer B).
Arguments BStream {_ B W} _.
Arguments BQuic {_ B W} _.
Arguments BHttp {_ B W} _.

Record Server `{Quinn} (B W : Type) := mkServer {
  backend : ServerBackend B W;
  setup : Setup;
}.
Arguments mkServer {_ _ B W} _ _.
Arguments backend {_ _ B W} _.
Arguments setup {_ _ B W} _.

Section backend.
Context `{Os} `{Quinn} `{UrlCrate} {B W Ex : Type}.

Definition create_backend (c : Setup) (byte_codec : B) (ws_codec : W) :
    timed (result jsonrpc_error (ServerBackend B W)) :=
  let bind := map_err JKaryonNet <$> Tcp.bind (endpoint c) (tcp_config c) in
  match endpoint c with
  | Http _ =>
      http_server ⇐
        match quic_config c with
        | Some quic_cfg => HttpServer.new_h3 (endpoint c) quic_cfg byte_codec
        | None => HttpServer.new (endpoint c) byte_codec
        end;
      now (Ok (BHttp http_server))
  | Quic _ _ =>
      match quic_config c with
      | Some conf =>
          quic_endpoint ⇐ now (map_err JKaryonNet (QuicEndpoint.listen (endpoint c) conf));
          now (Ok (BQuic quic_endpoint))
      | None => now (Err QUICConfigRequired)
      end
  | Tcp _ _ =>
      listener ⇐ bind;
      now (Ok (BStream (AStream
        (mkStreamAcceptor (TcpSL listener) byte_codec None (handshake_timeout c)))))
  | Tls _ _ =>
      tls_config ⇐ now (ok_or (tls_config c) TLSConfigRequired);
      listener ⇐ bind;
      now (Ok (BStream (AStream (mkStreamAcceptor (TcpSL listener) byte_codec
        (Some (TlsLayer.server tls_config)) (handshake_timeout c)))))
  | Ws _ =>
      listener ⇐ bind;
      now (Ok (BStream (AWs (mkWsAcceptor (TcpSL listener) (WsLayer.server ws_codec) None
        (handshake_timeout c)))))
  | Wss _ =>
      tls_config ⇐ now (ok_or (tls_config c) TLSConfigRequired);
      listener ⇐ bind;
      now (Ok (BStream (AWs (mkWsAcceptor (TcpSL listener) (WsLayer.server ws_codec)
        (Some (TlsLayer.server tls_config)) (handshake_timeout c)))))
  | Unix _ =>
      listener ⇐ now (map_err JKaryonNet (UnixSock.bind (endpoint c)));
      now (Ok (BStream (AStream
        (mkStreamAcceptor (UnixSL listener) byte_codec None (handshake_timeout c)))))
  | _ => now (Err (JUnsupportedProtocol (EndpointText.to_string (endpoint c))))
  end.

(** [Server::init], without the task group. *)
Definition server_init (c : Setup) (byte_codec : B) (ws_codec : W) :
    timed (result jsonrpc_error (Server B W)) :=
  backend ⇐ create_backend c byte_codec ws_codec;
  now (Ok (mkServer backend c)).

Definition server_build (b : ServerBuilder B W Ex) : timed (result jsonrpc_error (Server B W)) :=
  server_init (config b) (byte_codec b) (ws_codec b).

Definition local_endpoint (s : Server B W) : result jsonrpc_error Endpoint :=
  match backend s with
  | BStream acceptor => acceptor_local_endpoint acceptor
  | BQuic e => map_err JKaryonNet (QuicEndpoint.local_endpoint e)
  | BHttp s => HttpServer.local_endpoint s
  end.

End backend.

(** ** The accept loops *)

(** What a turn of a loop does: a task for the connection, or a pause. *)
Inductive accept_act (A : Type) :=
| Spawn (a : A)
| Pause (ms : Z).
Arguments Spawn {A} _.
Arguments Pause {A} _.

Definition accept_backoff : Backoff := Backoff.new ACCEPT_BACKOFF_BASE ACCEPT_BACKOFF_MAX.

Section accept.
Context (checks : bool).

(** One turn, on what the accept gave; [None] is a panic. *)
Definition accept_turn {E A} (b : Backoff) (out : result E A) : option (accept_act A * Backoff) :=
  match out with
  | Ok a => Some (Spawn a, Backoff.reset b)
  | Err _ => '(d, b) ← Backoff.sleep checks b; Some (Pause d, b)
  end.

Fixpoint accept_turns {E A} (b : Backoff) (outs : list (result E A)) :
    option (list (accept_act A) * Backoff) :=
  match outs with
  | [] => Some ([], b)
  | out :: outs =>
      '(act, b) ← accept_turn b out;
      '(acts, b) ← accept_turns b outs;
      Some (act :: acts, b)
  end.

(** The loops of the backends, which have no other way out. *)
Definition accept_loop_stream (outs : list (result jsonrpc_error ByteStream)) :=
  fst <$> accept_turns accept_backoff outs.
Definition accept_loop_quic (outs : list (result net_error QuicIncoming)) :=
  fst <$> accept_turns accept_backoff outs.
Definition accept_loop_http (outs : list (result io_kind (TcpSocket * SocketAddr))) :=
  fst <$> accept_turns accept_backoff outs.

(** [accept_tcp] and [accept_h3] as futures, where the accept gives [out]: what
    they do when they complete, and the backoff, which changes with the accept,
    before the pause. *)
Definition accept_branch {E A} (b : Backoff) (out : timed (result E A)) :
    option (timed (accept_act A) * Backoff) :=
  match out with
  | Never => Some (Never, b)
  | At t out =>
      '(act, b) ← accept_turn b out;
      Some (match act with Spawn a => At t (Spawn a) | Pause d => At (t + d) (Pause d) end, b)
  end.

(** Whether an accept that gives [out] has failed by the time [t], or before it. *)
Definition failed_by {E A} (out : timed (result E A)) (t : Z) : bool :=
  match out with At t' (Err _) => t' <=? t | _ => false end.
Definition failed_before {E A} (out : timed (result E A)) (t : Z) : bool :=
  match out with At t' (Err _) => t' <? t | _ => false end.

(** A turn of the loop of a server for HTTP/3, which runs both until one of them
    completes and drops the other. *)
Definition http3_turn {E E' A A'} (tcp_b quic_b : Backoff) (tcp : timed (result E A))
    (quic : timed (result E' A')) :
    option (timed (Either (accept_act A) (accept_act A')) * Backoff * Backoff) :=
  '(f1, tcp_b') ← accept_branch tcp_b tcp;
  '(f2, quic_b') ← accept_branch quic_b quic;
  let r := select f1 f2 in
  Some (match r with
        | Never => (r, tcp_b, quic_b)
        | At t (Left _) => (r, tcp_b', if failed_before quic t then quic_b' else quic_b)
        | At t (Right _) => (r, if failed_by tcp t then tcp_b' else tcp_b, quic_b')
        end).

End accept.

(** ** The client *)

Record ClientSetup `{Quinn} := mkClientSetup {
  c_endpoint : Endpoint;
  c_tcp_config : TcpConfig;
  c_tls_config : option ClientTlsConfig;
  c_quic_config : option ClientQuicConfig;
  c_http_config : HttpConfig;
  c_timeout : option Z;
  c_subscription_buffer : Z;
  c_decoder : Notification → result jsonrpc_error NotificationResult;
}.
Arguments mkClientSetup {_ _} _ _ _ _ _ _ _ _.

Record ClientBuilder `{Quinn} (B W Ex : Type) := mkClientBuilder {
  inner : ClientSetup;
  cb_byte_codec : B;
  cb_ws_codec : W;
  cb_executor : option Ex;
}.
Arguments mkClientBuilder {_ _ B W Ex} _ _ _ _.
Arguments inner {_ _ B W Ex} _.
Arguments cb_byte_codec {_ _ B W Ex} _.
Arguments cb_ws_codec {_ _ B W Ex} _.
Arguments cb_executor {_ _ B W Ex} _.

Definition HttpConfig_default : HttpConfig := mkHttpConfig false None DEFAULT_CONTENT_TYPE.

Module ClientBuilder.
Section builder.
Context `{Quinn} {B W Ex : Type}.

Definition with_setup (b : ClientBuilder B W Ex) (c : ClientSetup) : ClientBuilder B W Ex :=
  mkClientBuilder c (cb_byte_codec b) (cb_ws_codec b) (cb_executor b).

Definition new_with_codec `{EndpointText.ToEndpoint A} (e : A) (codec : B) :
    result jsonrpc_error (ClientBuilder B JsonCodec.t Ex) :=
  e ← map_err JKaryonNet (EndpointText.to_endpoint e);
  Ok (mkClientBuilder
    (mkClientSetup e TcpConfig_default None None HttpConfig_default (Some DEFAULT_TIMEOUT)
      DEFAULT_MAX_SUBSCRIPTION_BUFFER_SIZE default_notification_decoder)
    codec JsonCodec_default None).

Definition set_timeout (b : ClientBuilder B W Ex) (timeout : Z) : ClientBuilder B W Ex :=
  let c := inner b in
  with_setup b (mkClientSetup (c_endpoint c) (c_tcp_config c) (c_tls_config c) (c_quic_config c)
    (c_http_config c) (Some timeout) (c_subscription_buffer c) (c_decoder c)).

Definition set_max_subscription_buffer_size (b : ClientBuilder B W Ex) (size : Z) :
    ClientBuilder B W Ex :=
  let c := inner b in
  with_setup b (mkClientSetup (c_endpoint c) (c_tcp_config c) (c_tls_config c) (c_quic_config c)
    (c_http_config c) (c_timeout c) size (c_decoder c)).

Definition with_notification_decoder (b : ClientBuilder B W Ex)
    (decoder : Notification → result jsonrpc_error NotificationResult) : ClientBuilder B W Ex :=
  let c := inner b in
  with_setup b (mkClientSetup (c_endpoint c) (c_tcp_config c) (c_tls_config c) (c_quic_config c)
    (c_http_config c) (c_timeout c) (c_subscription_buffer c) decoder).

Definition set_tcp_config (b : ClientBuilder B W Ex) (v : TcpConfig) :
    result jsonrpc_error (ClientBuilder B W Ex) :=
  let c := inner b in
  match c_endpoint c with
  | Tcp _ _ | Tls _ _ | Ws _ | Wss _ =>
      Ok (with_setup b (mkClientSetup (c_endpoint c) v (c_tls_config c) (c_quic_config c)
        (c_http_config c) (c_timeout c) (c_subscription_buffer c) (c_decoder c)))
  | _ => Err (JUnsupportedProtocol (EndpointText.to_string (c_endpoint c)))
  end.

Definition set_tls_config (b : ClientBuilder B W Ex) (v : ClientTlsConfig) :
    result jsonrpc_error (ClientBuilder B W Ex) :=
  let c := inner b in
  match c_endpoint c with
  | Tls _ _ | Wss _ =>
      Ok (with_setup b (mkClientSetup (c_endpoint c) (c_tcp_config c) (Some v) (c_quic_config c)
        (c_http_config c) (c_timeout c) (c_subscription_buffer c) (c_decoder c)))
  | _ => Err (JUnsupportedProtocol ("Invalid tls config for endpoint: " +:+ EndpointText.to_string (c_endpoint c)))
  end.

Definition set_quic_config (b : ClientBuilder B W Ex) (v : ClientQuicConfig) :
    result jsonrpc_error (ClientBuilder B W Ex) :=
  let c := inner b in
  match c_endpoint c with
  | Quic _ _ | Http _ =>
      Ok (with_setup b (mkClientSetup (c_endpoint c) (c_tcp_config c) (c_tls_config c) (Some v)
        (c_http_config c) (c_timeout c) (c_subscription_buffer c) (c_decoder c)))
  | _ => Err (JUnsupportedProtocol ("Invalid quic config for endpoint: " +:+ EndpointText.to_string (c_endpoint c)))
  end.

Definition set_http_config (b : ClientBuilder B W Ex) (v : HttpConfig) :
    result jsonrpc_error (ClientBuilder B W Ex) :=
  let c := inner b in
  match c_endpoint c with
  | Http _ =>
      Ok (with_setup b (mkClientSetup (c_endpoint c) (c_tcp_config c) (c_tls_config c)
        (c_quic_config c) v (c_timeout c) (c_subscription_buffer c) (c_decoder c)))
  | _ => Err (JUnsupportedProtocol ("Invalid http config for endpoint: " +:+ EndpointText.to_string (c_endpoint c)))
  end.

Definition with_ws_codec {W2} (b : ClientBuilder B W Ex) (ws_codec : W2) : ClientBuilder B W2 Ex :=
  mkClientBuilder (inner b) (cb_byte_codec b) ws_codec (cb_executor b).

Definition with_executor (b : ClientBuilder B W Ex) (ex : Ex) : ClientBuilder B W Ex :=
  mkClientBuilder (inner b) (cb_byte_codec b) (cb_ws_codec b) (Some ex).

End builder.

Definition new `{Quinn} {Ex} `{EndpointText.ToEndpoint A} (e : A) :
    result jsonrpc_error (ClientBuilder JsonCodec.t JsonCodec.t Ex) :=
  new_with_codec e JsonCodec_default.

End ClientBuilder.

Inductive HttpTransport :=
| H1 (endpoint : Endpoint)
| H2 (endpoint : Endpoint)
| H3 (conn : QuicConn).

Record HttpClientBackend := mkHttpClientBackend {
  hb_inner : HttpTransport;
  hb_config : HttpConfig;
}.

(** The state of the backends is in [JsonRpcClient], [JsonRpcQuic] and
    [JsonRpcHttp]; the capacity of the subscriptions goes into it. *)
Inductive ClientBackend :=
| Multiplexed (subscription_buffer : Z)
| QuicStream (quic_conn : QuicConn) (subscription_buffer : Z)
| HttpBackend (http_backend : HttpClientBackend) (subscription_buffer : Z).

Record Client `{Quinn} `{Tungstenite} (B W : Type) := mkClient {
  cl_setup : ClientSetup;
  cl_backend : ClientBackend;
  cl_codec : B;
  cl_conn : option (message_conn B W);
}.
Arguments mkClient {_ _ _ B W} _ _ _ _.
Arguments cl_setup {_ _ _ B W} _.
Arguments cl_backend {_ _ _ B W} _.
Arguments cl_codec {_ _ _ B W} _.
Arguments cl_conn {_ _ _ B W} _.

(** The handshakes of the HTTP libraries. *)
Class HttpHandshakes := {
  h2_handshake : TcpSocket → timed (result string ());
  h3_client_new : QConnection → timed (result string ());
}.

Section client.
Context `{Os} `{Quinn} `{Tungstenite} `{HttpHandshakes} {B W Ex : Type}.

Definition connect_byte (c : ClientSetup) (codec : B) : timed (result jsonrpc_error (message_conn B W)) :=
  let tcp := map_err JKaryonNet <$> Tcp.connect (c_endpoint c) (c_tcp_config c) in
  match c_endpoint c with
  | Tcp _ _ =>
      stream ⇐ tcp;
      now (Ok (MFramed stream codec (ByteStream.peer_endpoint stream)))
  | Tls _ _ =>
      stream ⇐ tcp;
      tls_config ⇐ now (ok_or (c_tls_config c) TLSConfigRequired);
      tls_stream ⇐ map_err JKaryonNet <$> client_handshake (TlsLayer.client tls_config) stream;
      now (Ok (MFramed tls_stream codec (ByteStream.peer_endpoint tls_stream)))
  | Unix _ =>
      stream ⇐ map_err JKaryonNet <$> UnixSock.connect (c_endpoint c);
      now (Ok (MFramed stream codec (ByteStream.peer_endpoint stream)))
  | _ => now (Err (JUnsupportedProtocol (EndpointText.to_string (c_endpoint c))))
  end.

Definition connect_ws (c : ClientSetup) (codec : W) : timed (result jsonrpc_error (message_conn B W)) :=
  let tcp := map_err JKaryonNet <$> Tcp.connect (c_endpoint c) (c_tcp_config c) in
  let layer := WsLayer.client (EndpointText.to_string (c_endpoint c)) codec in
  match c_endpoint c with
  | Ws _ =>
      stream ⇐ tcp;
      conn ⇐ map_err JKaryonNet <$> client_handshake layer stream;
      now (Ok (MWs conn (WsConn.peer_endpoint conn)))
  | Wss _ =>
      stream ⇐ tcp;
      tls_config ⇐ now (ok_or (c_tls_config c) TLSConfigRequired);
      tls_stream ⇐ map_err JKaryonNet <$> client_handshake (TlsLayer.client tls_config) stream;
      conn ⇐ map_err JKaryonNet <$> client_handshake layer tls_stream;
      now (Ok (MWs conn (WsConn.peer_endpoint conn)))
  | _ => now (Err (JUnsupportedProtocol (EndpointText.to_string (c_endpoint c))))
  end.

(** [build_byte_backend] and [build_ws_backend]. *)
Definition build_byte_backend (c : ClientSetup) (codec : B) :
    timed (result jsonrpc_error (ClientBackend * message_conn B W)) :=
  conn ⇐ connect_byte c codec;
  now (Ok (Multiplexed (c_subscription_buffer c), conn)).
Definition build_ws_backend (c : ClientSetup) (codec : W) :
    timed (result jsonrpc_error (ClientBackend * message_conn B W)) :=
  conn ⇐ connect_ws c codec;
  now (Ok (Multiplexed (c_subscription_buffer c), conn)).

(** [quic_stream::build_backend]. *)
Definition build_quic_backend (c : ClientSetup) : timed (result jsonrpc_error ClientBackend) :=
  quic_config ⇐ now (ok_or (c_quic_config c) QUICConfigRequired);
  quic_conn ⇐ map_err JKaryonNet <$> QuicEndpoint.dial (c_endpoint c) quic_config;
  now (Ok (QuicStream quic_conn (c_subscription_buffer c))).

(** [h2::connect] and [h3::connect]. *)
Definition h2_connect (e : Endpoint) : timed (result jsonrpc_error ()) :=
  addr ⇐ now (map_err JKaryonNet (try_socket_addr e));
  stream ⇐ map_err JIO <$> tcp_connect addr;
  map_err HttpError <$> h2_handshake stream.

Definition h3_connect (e : Endpoint) (quic_config : ClientQuicConfig) :
    timed (result jsonrpc_error QuicConn) :=
  addr ⇐ now (map_err JKaryonNet (try_socket_addr e));
  quic_conn ⇐ map_err JKaryonNet <$> QuicEndpoint.dial (Endpoint.new_quic_addr addr) quic_config;
  _ ⇐ map_err (λ _, HttpError "H3 handshake: {}") <$> h3_client_new (qc_inner quic_conn);
  now (Ok quic_conn).

Definition new_h1 (e : Endpoint) (config : HttpConfig) : HttpClientBackend :=
  mkHttpClientBackend (H1 e) config.
Definition new_h2 (e : Endpoint) (config : HttpConfig) : timed (result jsonrpc_error HttpClientBackend) :=
  _ ⇐ h2_connect e;
  now (Ok (mkHttpClientBackend (H2 e) config)).
Definition new_h3 (e : Endpoint) (quic_config : ClientQuicConfig) (config : HttpConfig) :
    timed (result jsonrpc_error HttpClientBackend) :=
  conn ⇐ h3_connect e quic_config;
  now (Ok (mkHttpClientBackend (H3 conn) config)).

(** [http::build_backend]. *)
Definition build_http_backend (c : ClientSetup) : timed (result jsonrpc_error ClientBackend) :=
  http_backend ⇐
    match c_quic_config c with
    | Some qc => new_h3 (c_endpoint c) qc (c_http_config c)
    | None =>
        if http2 (c_http_config c) then new_h2 (c_endpoint c) (c_http_config c)
        else now (Ok (new_h1 (c_endpoint c) (c_http_config c)))
    end;
  now (Ok (HttpBackend http_backend (c_subscription_buffer c))).

(** [Client::init], without the task group. *)
Definition client_init (c : ClientSetup) (byte_codec : B) (ws_codec : W) :
    timed (result jsonrpc_error (Client B W)) :=
  match c_endpoint c with
  | Http _ =>
      backend ⇐ build_http_backend c;
      now (Ok (mkClient c backend byte_codec None))
  | Quic _ _ =>
      backend ⇐ build_quic_backend c;
      now (Ok (mkClient c backend byte_codec None))
  | Ws _ | Wss _ =>
      '(backend, conn) ⇐ build_ws_backend c ws_codec;
      now (Ok (mkClient c backend byte_codec (Some conn)))
  | _ =>
      '(backend, conn) ⇐ build_byte_backend c byte_codec;
      now (Ok (mkClient c backend byte_codec (Some conn)))
  end.

Definition client_build (b : ClientBuilder B W Ex) : timed (result jsonrpc_error (Client B W)) :=
  client_init (inner b) (cb_byte_codec b) (cb_ws_codec b).

End client.
