(* ===== verification/JsonRpcSetupSpec.v ===== *)
(** * A client and its server agree

    The endpoint a server reports leads a client to it: the client resolves it to
    the address the server is bound to and puts the same layers on the connection
    as the server does on its side, for every kind of endpoint.  The accept loops
    hand every connection to a task and pause between failures. *)

From S2P Require Import JsonRpcHttp.
From Stdlib Require Import Ascii.
From S2P Require Import Prelude Codec Endpoint Framed Message Version Backoff Utf8 IpText EndpointText Timed Transports QuicTransport Json Ws JsonRpcServer JsonRpcClient JsonRpcSetup.

Local Open Scope Z_scope.
Local Open Scope timed_scope.

(** ** Documented behaviour of the libraries *)

(** For the special schemes the URL standard keeps an IPv4 host, puts an IPv6
    host in brackets, and drops a port only if it is the scheme's default. *)
Class UrlSpecialLaws `{UrlCrate} : Prop :=
  url_parse_special sch a :
    sch ∈ ["http"; "ws"; "wss"]%string → ip_wf (ip a) → is_u16 (sport a) →
    ∃ u, url_parse (sch +:+ "://" +:+ socket_addr_to_string a +:+ "/")%string = Ok u ∧
      scheme u = sch ∧ port_or_known_default u = Some (sport a) ∧
      match ip a with
      | V4 o => host_str u = Some (ipv4_to_string o)
      | V6 _ => ∃ h, host_str u = Some ("[" +:+ h)%string
      end.

(** A QUIC endpoint is bound to the address asked for, as a TCP listener is. *)
Class QuinnLaws `{Quinn} : Prop :=
  endpoint_server_addr cfg a l : endpoint_server cfg a = Ok l →
    ∃ a', l = Ok a' ∧ ip a' = ip a ∧ is_u16 (sport a') ∧ sport a' ≠ 0 ∧
      (sport a ≠ 0 → sport a' = sport a).

(** ** Endpoints of bound sockets *)

(** [bound] is what a socket asked to bind to [a] is bound to. *)
Definition bound_at (a bound : SocketAddr) : Prop :=
  ip bound = ip a ∧ is_u16 (sport bound) ∧ sport bound ≠ 0 ∧ (sport a ≠ 0 → sport bound = sport a).

Definition is_ipv4 (a : SocketAddr) : bool := negb (is_ipv6 a).

(** An endpoint that leads to a socket address: it has it, or is a URL with it. *)
Definition leads_to (e : Endpoint) (a : SocketAddr) : Prop :=
  Endpoint.port e = Ok (sport a) ∧
  (if is_url e && is_ipv6 a then ∃ h, Endpoint.addr parse_ip e = Ok (Domain ("[" +:+ h)%string)
   else Endpoint.addr parse_ip e = Ok (Ip (ip a))).

Section leads.
Context `{Os}.

Lemma leads_resolves e a :
  leads_to e a → is_url e && is_ipv6 a = false →
  try_socket_addr e = Ok a ∧ resolve_endpoint e = At 0 (Ok a).
Proof.
  intros [Hp Ha] Hno. rewrite Hno in Ha. destruct a as [i p]. simpl in *. split.
  - unfold try_socket_addr, Endpoint.to_socket_addr.
    destruct e as [ad q|ad q|ad q|ad q|u|u|u|u|]; simpl in *; simplify_eq; try done; rewrite Ha; simpl;
      by rewrite Hp.
  - unfold resolve_endpoint. rewrite Hp, Ha. done.
Qed.

End leads.

Section url.
Context `{UrlSpecialLaws}.

Lemma special_endpoint sch a :
  sch ∈ ["http"; "ws"; "wss"]%string → ip_wf (ip a) → is_u16 (sport a) →
  ∃ e, EndpointText.from_str (sch +:+ "://" +:+ socket_addr_to_string a +:+ "/")%string = Ok e ∧
    scheme_of e = sch ∧ is_url e = true ∧ leads_to e a.
Proof.
  intros Hsch Hwf Hp. destruct (url_parse_special sch a Hsch Hwf Hp) as (u & Hu & Hs & Hport & Hhost).
  assert (∀ e, e = Http u ∨ e = Ws u ∨ e = Wss u → leads_to e a ∧ is_url e = true) as Hlead.
  { intros e He. assert (Endpoint.port e = Ok (sport a)) as HP by (destruct_or! He; subst; simpl; by rewrite Hport).
    assert (is_url e = true) as Hurl by (by destruct_or! He; subst).
    assert (Endpoint.addr parse_ip e = Endpoint.url_to_addr parse_ip u) as HA by (by destruct_or! He; subst).
    split; [|done]. split; [done|]. rewrite HA, Hurl. unfold Endpoint.url_to_addr, is_ipv6. simpl.
    destruct (ip a) as [o|o].
    - rewrite Hhost. simpl. destruct Hwf. by rewrite parse_ip_ipv4.
    - destruct Hhost as [h ->]. simpl. exists h. by rewrite bracket_no_ip. }
  unfold EndpointText.from_str. rewrite Hu. simpl. unfold Endpoint.from_url. rewrite Hs.
  apply list_elem_of_In in Hsch as [<-|[<-|[<-|[]]]]; simpl; eexists;
    (split; [done|]); (split; [done|]); apply and_comm, Hlead; eauto.
Qed.

End url.

(** ** The endpoint of a server *)

Section server.
Context `{OsLaws} `{QuinnLaws} `{UrlSpecialLaws} {B W : Type}.

Lemma tcp_bind_bound e cfg t l :
  Tcp.bind e cfg = At t (Ok l) →
  ∃ a bound, try_socket_addr e = Ok a ∧ bound_at a bound ∧ tl_inner l = Ok bound.
Proof.
  unfold Tcp.bind. intros Hb. inv_timed.
  match goal with H : tcp_bind ?a = _ |- _ => destruct (tcp_bind_addr _ _ _ H) as (b & -> & ? & ? & ? & ?) end.
  by eexists _, b.
Qed.

(** Takes the bound address of a listener from its [bind]. *)
Ltac take_bind a b Ha Hb Hl :=
  match goal with H : Tcp.bind _ _ = _ |- _ =>
    destruct (tcp_bind_bound _ _ _ _ H) as (a & b & Ha & Hb & Hl) end.

Lemma quic_listen_bound e cfg q :
  QuicEndpoint.listen e cfg = Ok q →
  ∃ a bound, try_socket_addr e = Ok a ∧ bound_at a bound ∧ qe_local q = Endpoint.new_quic_addr bound.
Proof.
  unfold QuicEndpoint.listen. intros Hl.
  apply result_bind_Ok in Hl as (a & Ha & Hl). apply result_bind_Ok in Hl as (sc & _ & Hl).
  apply result_bind_Ok in Hl as (l & Hs & Hl). apply map_err_Ok in Hs.
  destruct (endpoint_server_addr _ _ _ Hs) as (b & -> & ? & ? & ? & ?). simpl in Hl. injection Hl as <-.
  by exists a, b.
Qed.

Lemma http_server_bound (e : Endpoint) (cfg : option ServerQuicConfig) (codec : B) t s :
  match cfg with
  | Some qc => HttpServer.new_h3 e qc codec
  | None => HttpServer.new e codec
  end = At t (Ok s) →
  ∃ a bound, try_socket_addr e = Ok a ∧ bound_at a bound ∧ hs_tcp s = Ok bound ∧
    hs_codec s = codec ∧
    (is_Some cfg ↔ is_Some (hs_quic s)) ∧ (∀ q, hs_quic s = Some q → qe_local q = Endpoint.new_quic_addr bound).
Proof.
  intros Hs. destruct cfg as [qc|]; [unfold HttpServer.new_h3 in Hs|unfold HttpServer.new in Hs];
    inv_timed; match goal with H : tcp_bind ?a = _ |- _ => destruct (tcp_bind_addr _ _ _ H) as (b & ? & ? & ? & ? & ?) end;
    simplify_eq/=; eexists _, b; split_and!; try done; simplify_eq/=.
  - intros q [= <-].
    match goal with H : QuicEndpoint.listen _ _ = _ |- _ =>
      destruct (quic_listen_bound _ _ _ H) as (a' & b' & Ha' & (Hi & _ & _ & Hport) & ->) end.
    cbn in Ha'. injection Ha' as <-. cbn in *.
    destruct b' as [i' p'], b as [i p]; simpl in *; subst. by rewrite Hport.
Qed.

Lemma bound_wf a bound : bound_at a bound → ip_wf (ip a) → ip_wf (ip bound) ∧ is_u16 (sport bound).
Proof. by intros (-> & ? & _) ?. Qed.

Lemma tcp_reports l bound :
  tl_inner l = Ok bound → Tcp.local_endpoint l = Ok (Endpoint.new_tcp_addr bound).
Proof. unfold Tcp.local_endpoint. by intros ->. Qed.

(** A listener under an optional TLS layer. *)
Lemma stream_reports (l : TcpListener) (codec : B) tls timeout bound :
  tl_inner l = Ok bound →
  ∃ e, stream_local_endpoint (mkStreamAcceptor (TcpSL l) codec tls timeout) = Ok e ∧
    scheme_of e = (match tls with Some _ => "tls" | None => "tcp" end)%string ∧ leads_to e bound.
Proof.
  intros Hl. unfold stream_local_endpoint. simpl. rewrite (tcp_reports _ _ Hl). simpl.
  by destruct tls; eexists.
Qed.

Lemma ws_reports (l : TcpListener) (layer : WsLayer W) tls timeout bound :
  tl_inner l = Ok bound → ip_wf (ip bound) → is_u16 (sport bound) →
  ∃ e, ws_local_endpoint (mkWsAcceptor (TcpSL l) layer tls timeout) = Ok e ∧
    scheme_of e = (match tls with Some _ => "wss" | None => "ws" end)%string ∧ leads_to e bound.
Proof.
  intros Hl Hwf Hp. unfold ws_local_endpoint. simpl. rewrite (tcp_reports _ _ Hl). simpl.
  destruct bound as [i p]. cbn [try_socket_addr Endpoint.to_socket_addr Endpoint.new_tcp_addr ip sport
    Endpoint.resolve map_err mbind result_bind].
  destruct (special_endpoint (match tls with Some _ => "wss" | None => "ws" end)%string (mkSocketAddr i p))
    as (e & He & Hs & _ & Hl'); [destruct tls; set_solver|done..|].
  exists e. by destruct tls; rewrite He.
Qed.

(** What a server is bound to, and how it says so. *)
Lemma server_reports c (bc : B) (wc : W) t s :
  server_init c bc wc = At t (Ok s) →
  (∀ a, try_socket_addr (endpoint c) = Ok a → ip_wf (ip a)) →
  ∃ e, local_endpoint s = Ok e ∧ scheme_of e = scheme_of (endpoint c) ∧
    match endpoint c with
    | Unix p => e = Unix p
    | _ => ∃ a bound, try_socket_addr (endpoint c) = Ok a ∧ bound_at a bound ∧ leads_to e bound
    end.
Proof.
  unfold server_init, create_backend, local_endpoint. intros Hs Hwf. inv_timed. simpl.
  destruct (endpoint c) as [ad p|ad p|ad p|ad p|u|u|u|u|path] eqn:He; inv_timed; simpl.
  - take_bind a b Ha Hb Hl. destruct (stream_reports _ bc None (handshake_timeout c) b Hl) as (e & ? & ? & ?).
    exists e. eauto 10.
  - match goal with H : tls_config c = Some ?x |- _ => rename x into conf end. take_bind a b Ha Hb Hl.
    destruct (stream_reports _ bc (Some (TlsLayer.server conf)) (handshake_timeout c) b Hl) as (e & ? & ? & ?).
    exists e. eauto 10.
  - destruct (quic_config c) as [qc|]; inv_timed. simpl.
    match goal with H : QuicEndpoint.listen _ _ = _ |- _ =>
      destruct (quic_listen_bound _ _ _ H) as (a & b & ? & ? & Hq) end.
    unfold QuicEndpoint.local_endpoint. rewrite Hq. simpl. eexists. split; [done|]. split; [done|].
    exists a, b. by destruct b.
  - match goal with H : match quic_config c with _ => _ end = _ |- _ =>
      destruct (http_server_bound _ _ _ _ _ H) as (a & b & Ha & Hb & Hl & _) end.
    destruct (bound_wf a b Hb (Hwf a Ha)). unfold HttpServer.local_endpoint. rewrite Hl.
    destruct (special_endpoint "http" b) as (e & He' & Hsch & _ & Hlead); [set_solver|done..|].
    exists e. cbn [mbind result_bind map_err].
    change (EndpointText.from_str _) with
      (EndpointText.from_str ("http" +:+ "://" +:+ socket_addr_to_string b +:+ "/")).
    rewrite He'. eauto 10.
  - take_bind a b Ha Hb Hl. destruct (bound_wf a b Hb (Hwf a Ha)).
    destruct (ws_reports _ (WsLayer.server wc) None (handshake_timeout c) b Hl) as (e & ? & ? & ?); [done..|].
    exists e. eauto 10.
  - match goal with H : tls_config c = Some ?x |- _ => rename x into conf end.
    take_bind a b Ha Hb Hl. destruct (bound_wf a b Hb (Hwf a Ha)).
    destruct (ws_reports _ (WsLayer.server wc) (Some (TlsLayer.server conf)) (handshake_timeout c) b Hl)
      as (e & ? & ? & ?); [done..|].
    exists e. eauto 10.
  - match goal with H : UnixSock.bind _ = _ |- _ => rename H into Hb end.
    unfold UnixSock.bind in Hb. simpl in Hb. apply result_bind_Ok in Hb as (l & Hl%map_err_Ok & [= <-]).
    apply unix_bind_addr in Hl as ->. simpl. by eexists.
Qed.

End server.

(** ** Layers *)

(** The layers a message connection of an endpoint has, and whether there is a
    WebSocket on top. *)
Definition stack_of (e : Endpoint) : option (list layer * bool) :=
  match e with
  | Tcp _ _ => Some ([LTcp], false)
  | Tls _ _ => Some ([LTcp; LTls], false)
  | Ws _ => Some ([LTcp], true)
  | Wss _ => Some ([LTcp; LTls], true)
  | Unix _ => Some ([LUnix], false)
  | _ => None
  end.

Lemma stack_of_scheme e e' : scheme_of e = scheme_of e' → stack_of e = stack_of e'.
Proof. by destruct e, e'. Qed.

Section stacks.
Context `{Os} `{Quinn} `{Tungstenite} `{HttpHandshakes} `{UrlCrate} {B W : Type}.

Inductive server_over : message_conn B W → list layer * bool → Prop :=
| so_framed s codec p : server_over (MFramed s codec p) (layers s, false)
| so_ws (l : WsLayer W) s t conn p :
    server_handshake l s = At t (Ok conn) → server_over (MWs conn p) (layers s, true).

Inductive client_over : message_conn B W → list layer * bool → Prop :=
| co_framed s codec p : client_over (MFramed s codec p) (layers s, false)
| co_ws (l : WsLayer W) s t conn p :
    client_handshake l s = At t (Ok conn) → client_over (MWs conn p) (layers s, true).

(** The codecs of a connection. *)
Definition carries (bc : B) (wc : W) (m : message_conn B W) : Prop :=
  match m with
  | MFramed _ codec _ => codec = bc
  | MWs conn _ => r_codec (reader conn) = wc ∧ w_codec (writer conn) = wc
  end.

Lemma timeout_try_Ok {E F A} core (from : E → F) delay (f : timed (result E A)) t a :
  timeout_try core from delay f = At t (Ok a) → f = At t (Ok a) ∧ t < delay.
Proof.
  unfold timeout_try. destruct (timeout_cases delay f) as [(t' & r & -> & Ht & ->)|[_ ->]]; simpl; [|done].
  intros [= <- Hr]. by apply map_err_Ok in Hr as ->.
Qed.

Lemma tcp_accept_layers l i t s : Tcp.accept l i = At t (Ok s) → layers s = [LTcp].
Proof. unfold Tcp.accept. intros Hs. inv_timed. by eapply tcp_stream_layers. Qed.

Lemma tcp_connect_layers e cfg t s : Tcp.connect e cfg = At t (Ok s) → layers s = [LTcp].
Proof. unfold Tcp.connect. intros Hs. inv_timed. by eapply tcp_stream_layers. Qed.

Lemma tls_server_layers l t s s' :
  server_handshake (l : TlsLayer) s = At t (Ok s') → layers s' = layers s ++ [LTls].
Proof. unfold server_handshake, TlsLayer.server_layer. intros Hs. by inv_timed. Qed.

Lemma tls_client_layers l t s s' :
  client_handshake (l : TlsLayer) s = At t (Ok s') → layers s' = layers s ++ [LTls].
Proof. unfold client_handshake, TlsLayer.client_layer. intros Hs. by inv_timed. Qed.

Lemma ws_server_codec (l : WsLayer W) t s conn :
  server_handshake l s = At t (Ok conn) → r_codec (reader conn) = codec l ∧ w_codec (writer conn) = codec l.
Proof. unfold server_handshake, WsLayer.server_layer. intros Hs. by inv_timed. Qed.

Lemma ws_client_codec (l : WsLayer W) t s conn :
  client_handshake l s = At t (Ok conn) → r_codec (reader conn) = codec l ∧ w_codec (writer conn) = codec l.
Proof. unfold client_handshake, WsLayer.client_layer. intros Hs. by inv_timed. Qed.

(** The server's side. *)
Lemma stream_handle_over (a : StreamAcceptor B) raw t (m : message_conn B W) :
  stream_handle a raw = At t (Ok m) →
  (∃ s p, m = MFramed s (sa_codec a) p ∧
    layers s = layers raw ++ (match sa_tls a with Some _ => [LTls] | None => [] end)).
Proof.
  unfold stream_handle. intros Hm. inv_timed. eexists _, _. split; [done|].
  destruct (sa_tls a) as [l|].
  - match goal with H : timeout_try _ _ _ _ = _ |- _ => apply timeout_try_Ok in H as [H _] end.
    by eapply tls_server_layers.
  - inv_timed. by rewrite app_nil_r.
Qed.

Lemma ws_handle_over (a : WsAcceptor W) raw t (m : message_conn B W) :
  ws_handle a raw = At t (Ok m) →
  ∃ s conn p t', m = MWs conn p ∧ server_handshake (wa_layer a) s = At t' (Ok conn) ∧
    layers s = layers raw ++ (match wa_tls a with Some _ => [LTls] | None => [] end).
Proof.
  unfold ws_handle. intros Hm. inv_timed.
  match goal with H : timeout_try _ _ _ _ = _ |- _ => apply timeout_try_Ok in H as [H _] end.
  unfold ws_upgrade in *. inv_timed. eexists _, _, _, _. split; [done|]. split; [done|].
  destruct (wa_tls a) as [l|]; inv_timed; [by eapply tls_server_layers|by rewrite app_nil_r].
Qed.

Definition listener_layers (l : StreamListener) : list layer :=
  match l with TcpSL _ => [LTcp] | UnixSL _ => [LUnix] end.
Definition tls_layers (tls : option TlsLayer) : list layer :=
  match tls with Some _ => [LTls] | None => [] end.

Lemma accept_layers l i t s :
  map_err JKaryonNet <$> StreamListener.accept l i = At t (Ok s) → layers s = listener_layers l.
Proof.
  intros Hs. inv_timed. destruct l; simpl in *; [by eapply tcp_accept_layers|].
  unfold UnixSock.accept in Hs. by inv_timed.
Qed.

Lemma acceptor_over (a : AsyncAcceptor B W) i raw t1 t2 m :
  acceptor_accept a i = At t1 (Ok raw) → acceptor_handle a raw = At t2 (Ok m) →
  match a with
  | AStream a => server_over m (listener_layers (sa_listener a) ++ tls_layers (sa_tls a), false) ∧
      ∀ wc, carries (sa_codec a) wc m
  | AWs a => server_over m (listener_layers (wa_listener a) ++ tls_layers (wa_tls a), true) ∧
      ∀ bc, carries bc (codec (wa_layer a)) m
  end.
Proof.
  destruct a as [a|a]; simpl; intros Hr%accept_layers Hh; rewrite <-Hr.
  - apply stream_handle_over in Hh as (s & p & -> & Hl). unfold tls_layers. rewrite <-Hl. by split; [constructor|].
  - apply ws_handle_over in Hh as (s & conn & p & t' & -> & Hc & Hl). unfold tls_layers. rewrite <-Hl.
    split; [by econstructor|]. intros bc. by apply ws_server_codec in Hc.
Qed.

Lemma server_stack c (bc : B) (wc : W) t s a i raw t1 t2 m :
  server_init c bc wc = At t (Ok s) → backend s = BStream a →
  acceptor_accept a i = At t1 (Ok raw) → acceptor_handle a raw = At t2 (Ok m) →
  ∃ k, stack_of (endpoint c) = Some k ∧ server_over m k ∧ carries bc wc m.
Proof.
  unfold server_init, create_backend. intros Hs Hb Hacc Hh. inv_timed.
  cbn [backend] in Hb. subst.
  pose proof (acceptor_over _ _ _ _ _ _ Hacc Hh) as Hm.
  destruct (endpoint c) as [ad p|ad p|ad p|ad p|u|u|u|u|path] eqn:He, (quic_config c);
    inv_timed; simplify_eq/=; destruct Hm as [Hm Hc]; by eauto 10.
Qed.

(** The client's side. *)
Lemma framed_over s (c : B) p ls : layers s = ls → client_over (MFramed s c p) (ls, false).
Proof. intros <-. constructor. Qed.

Lemma ws_over (l : WsLayer W) s t conn p ls :
  client_handshake l s = At t (Ok conn) → layers s = ls →
  client_over (MWs conn p) (ls, true) ∧ ∀ bc, carries bc (codec l) (MWs conn p).
Proof.
  intros Hc <-. split; [by econstructor|]. intros bc. by apply ws_client_codec in Hc.
Qed.

Lemma tls_over_tcp l e cfg t t' s s' :
  Tcp.connect e cfg = At t (Ok s) → client_handshake (l : TlsLayer) s = At t' (Ok s') →
  layers s' = [LTcp; LTls].
Proof. intros Hs%tcp_connect_layers ->%tls_client_layers. by rewrite Hs. Qed.

Lemma client_conn_over cc (bc : B) (wc : W) t (m : message_conn B W) k :
  stack_of (c_endpoint cc) = Some k →
  (if k.2 then connect_ws cc wc else connect_byte cc bc) = At t (Ok m) →
  client_over m k ∧ carries bc wc m.
Proof.
  unfold connect_ws, connect_byte. intros Hk Hm.
  destruct (c_endpoint cc) as [ad p|ad p|ad p|ad p|u|u|u|u|path] eqn:He; try discriminate Hk;
    injection Hk as <-; cbn [snd] in Hm; inv_timed.
  - split; [|done]. apply framed_over. by eapply tcp_connect_layers.
  - split; [|done]. apply framed_over. by eapply tls_over_tcp.
  - edestruct ws_over as [Ho Hc]; [done|by eapply tcp_connect_layers|]. split; [done|apply Hc].
  - edestruct ws_over as [Ho Hc]; [done|by eapply tls_over_tcp|]. split; [done|apply Hc].
  - split; [|done]. apply framed_over. unfold UnixSock.connect in *. by inv_timed.
Qed.

Lemma client_stack cc (bc : B) (wc : W) t cl k :
  client_init cc bc wc = At t (Ok cl) → stack_of (c_endpoint cc) = Some k →
  ∃ m, cl_conn cl = Some m ∧ client_over m k ∧ carries bc wc m.
Proof.
  unfold client_init. intros Hc Hk.
  assert (∃ t b m, (if k.2 then build_ws_backend cc wc else build_byte_backend cc bc) = At t (Ok (b, m)) ∧
    cl_conn cl = Some m) as (t' & b & m & Hb & Hcl).
  { destruct (c_endpoint cc) as [ad p|ad p|ad p|ad p|u|u|u|u|path] eqn:He; try discriminate Hk;
      injection Hk as <-; apply try_await_Ok in Hc as (t1 & [b m] & t2 & ? & Hc & _);
      apply now_Ok in Hc as [_ [= <-]]; by eauto. }
  exists m. split; [done|]. unfold build_ws_backend, build_byte_backend in Hb.
  assert (∃ t, (if k.2 then connect_ws cc wc else connect_byte cc bc) = At t (Ok m)) as [t'' Hm].
  { destruct (k.2); inv_timed; simplify_eq; by eauto. }
  by eapply client_conn_over.
Qed.

(** Clients that have no message connection. *)
Lemma client_other cc (bc : B) (wc : W) t cl :
  client_init cc bc wc = At t (Ok cl) →
  match c_endpoint cc with
  | Quic _ _ => ∃ conn n, cl_backend cl = QuicStream conn n
  | Http _ => ∃ hb n, cl_backend cl = HttpBackend hb n ∧
      (is_Some (c_quic_config cc) ↔ ∃ conn, hb_inner hb = H3 conn)
  | _ => True
  end.
Proof.
  unfold client_init, build_quic_backend, build_http_backend, new_h3, new_h2. intros Hc.
  destruct (c_endpoint cc) eqn:He; try done; inv_timed; [by eauto|].
  eexists _, _. split; [done|].
  destruct (c_quic_config cc); [|destruct (http2 _)]; inv_timed; naive_solver.
Qed.

End stacks.

(** ** Agreement *)

Section agreement.
Context `{OsLaws} `{QuinnLaws} `{UrlSpecialLaws} `{Tungstenite} `{HttpHandshakes} {B W : Type}.

(** The kinds of backends a server and a client of the same endpoint have. *)
Lemma server_backend_kind c (bc : B) (wc : W) t s :
  server_init c bc wc = At t (Ok s) →
  match backend s with
  | BStream _ => is_Some (stack_of (endpoint c))
  | BQuic _ => ∃ a p, endpoint c = Quic a p
  | BHttp hs => (∃ u, endpoint c = Http u) ∧ hs_codec hs = bc ∧
      (is_Some (quic_config c) ↔ is_Some (hs_quic hs))
  end.
Proof.
  unfold server_init, create_backend. intros Hs. inv_timed. simpl.
  destruct (endpoint c) as [ad p|ad p|ad p|ad p|u|u|u|u|path] eqn:He; inv_timed; try by eauto.
  - destruct (quic_config c); inv_timed. by eauto.
  - match goal with H : match quic_config c with _ => _ end = _ |- _ =>
      destruct (http_server_bound _ _ _ _ _ H) as (a & b & _ & _ & _ & Hc & Hq & _) end.
    eauto.
Qed.

(** C18: a client finds its server and speaks its protocol.  A server that was
    built reports an endpoint of the kind it was configured with, at the address it
    is bound to; unless it is a URL with an IPv6 address, which turns into a domain
    in brackets, the endpoint resolves to that address without a lookup.  Every
    client that is built from the endpoint has the backend the server serves; on a
    message connection it puts the same layers on its stream as the server puts on
    what it accepts, TCP or Unix, TLS and WebSocket; on top, each side uses the codec
    it was built with, which is up to the caller to choose alike; over HTTP a client speaks HTTP/3 exactly if it has a QUIC
    configuration, and the server if it has one. *)
Theorem client_reaches_server c (bc : B) (wc : W) t s :
  server_init c bc wc = At t (Ok s) →
  (∀ a, try_socket_addr (endpoint c) = Ok a → ip_wf (ip a)) →
  ∃ e, local_endpoint s = Ok e ∧ scheme_of e = scheme_of (endpoint c) ∧
    match endpoint c with
    | Unix p => e = Unix p
    | _ => ∃ a bound, try_socket_addr (endpoint c) = Ok a ∧ bound_at a bound ∧ leads_to e bound ∧
        (is_url e && is_ipv6 bound = false →
          try_socket_addr e = Ok bound ∧ resolve_endpoint e = At 0 (Ok bound))
    end ∧
    ∀ cc (bc' : B) (wc' : W) t' cl, c_endpoint cc = e → client_init cc bc' wc' = At t' (Ok cl) →
      match backend s with
      | BStream a => ∃ k m', cl_conn cl = Some m' ∧ client_over m' k ∧ carries bc' wc' m' ∧
          ∀ i raw t1 t2 m, acceptor_accept a i = At t1 (Ok raw) → acceptor_handle a raw = At t2 (Ok m) →
            server_over m k ∧ carries bc wc m
      | BQuic _ => ∃ conn n, cl_backend cl = QuicStream conn n
      | BHttp hs => ∃ hb n, cl_backend cl = HttpBackend hb n ∧ hs_codec hs = bc ∧
          (is_Some (c_quic_config cc) ↔ ∃ conn, hb_inner hb = H3 conn) ∧
          (is_Some (quic_config c) ↔ is_Some (hs_quic hs))
      end.
Proof.
  intros Hs Hwf. destruct (server_reports c bc wc t s Hs Hwf) as (e & He & Hsch & Haddr).
  exists e. split; [done|]. split; [done|]. split.
  { destruct (endpoint c); try done; destruct Haddr as (sa & bnd & ? & ? & Hl); exists sa, bnd;
      (split_and!; [done..|]); by apply leads_resolves. }
  intros cc bc' wc' t' cl Hcc Hcl. pose proof (server_backend_kind c bc wc t s Hs) as Hk.
  pose proof (client_other cc bc' wc' t' cl Hcl) as Ho. rewrite Hcc in Ho.
  destruct (backend s) as [a|q|hs] eqn:Hb.
  - destruct Hk as [k Hk]. destruct (client_stack cc bc' wc' t' cl k Hcl) as (m' & ? & ? & ?).
    { rewrite Hcc. rewrite <-Hk. by apply stack_of_scheme. }
    exists k, m'. split_and!; [done..|]. intros i raw t1 t2 m Hacc Hh.
    destruct (server_stack c bc wc t s a i raw t1 t2 m Hs Hb Hacc Hh) as (k' & Hk' & ?). naive_solver.
  - destruct Hk as (a & p & Hk). rewrite Hk in Hsch. by destruct e.
  - destruct Hk as ((u & Hk) & ? & ?). rewrite Hk in Hsch. destruct e; try done.
    destruct Ho as (hb & n & ? & ?). by exists hb, n.
Qed.

End agreement.

(** QUIC ignores the codec a server or client was built with. *)
Lemma quic_ignores_codec `{Os} `{Quinn} `{UrlCrate} {B W : Type} c a p (bc bc' : B) (wc : W) :
  endpoint c = Quic a p → create_backend c bc wc = create_backend c bc' wc.
Proof. unfold create_backend. by intros ->. Qed.

(** ** Accepting *)

(** What the turns of a loop do, with [i] failures before. *)
Fixpoint expected_acts {E A} (i : nat) (outs : list (result E A)) : list (accept_act A) :=
  match outs with
  | [] => []
  | Ok a :: outs => Spawn a :: expected_acts 0 outs
  | Err _ :: outs => Pause (delay_of ACCEPT_BACKOFF_BASE ACCEPT_BACKOFF_MAX i) :: expected_acts (S i) outs
  end.

Lemma accept_base_range : 0 < ACCEPT_BACKOFF_BASE < 2 ^ 64.
Proof. by vm_compute. Qed.
Lemma accept_max_range : 0 ≤ ACCEPT_BACKOFF_MAX ≤ 2 ^ 63.
Proof. by vm_compute. Qed.

Lemma after_reset i b :
  after ACCEPT_BACKOFF_BASE ACCEPT_BACKOFF_MAX i b →
  after ACCEPT_BACKOFF_BASE ACCEPT_BACKOFF_MAX 0 (Backoff.reset b).
Proof. intros (Hb & Hm & _). unfold after, Backoff.reset. simpl. split_and!; [done..|lia]. Qed.

Lemma accept_turns_acts {E A} checks (outs : list (result E A)) i b :
  after ACCEPT_BACKOFF_BASE ACCEPT_BACKOFF_MAX i b →
  fst <$> accept_turns checks b outs = Some (expected_acts i outs).
Proof.
  revert i b. induction outs as [|[a|e] outs IH]; intros i b Hb; [done|..].
  - specialize (IH 0%nat (Backoff.reset b) (after_reset i b Hb)). simpl.
    by destruct (accept_turns checks (Backoff.reset b) outs) as [[acts b']|]; simplify_eq/=.
  - destruct (sleep_after checks _ _ accept_base_range accept_max_range i b Hb) as (b1 & Hs & Hb1).
    specialize (IH (S i) b1 Hb1). simpl. rewrite Hs. simpl.
    by destruct (accept_turns checks b1 outs) as [[acts b']|]; simplify_eq/=.
Qed.

Definition accept_after (b : Backoff) : Prop := ∃ i, after ACCEPT_BACKOFF_BASE ACCEPT_BACKOFF_MAX i b.

Lemma accept_branch_spec {E A} checks b (out : timed (result E A)) :
  accept_after b →
  ∃ f b', accept_branch checks b out = Some (f, b') ∧ accept_after b' ∧
    match out with
    | Never => f = Never
    | At t (Ok a) => f = At t (Spawn a)
    | At t (Err _) => ∃ d, f = At (t + d) (Pause d) ∧ ACCEPT_BACKOFF_BASE ≤ d ≤ ACCEPT_BACKOFF_MAX
    end.
Proof.
  intros (i & Hb). destruct out as [|t [a|e]]; simpl.
  - eexists _, _. split_and!; [done|by exists i|done].
  - eexists _, _. split_and!; [done| |done]. exists 0%nat. by apply (after_reset i).
  - destruct (sleep_after checks _ _ accept_base_range accept_max_range i b Hb) as (b1 & -> & Hb1).
    eexists _, _. split_and!; [done|by exists (S i)|]. eexists. split; [done|].
    assert (1 ≤ 2 ^ Z.of_nat i) by (apply (Z.pow_le_mono_r 2 0); lia).
    unfold delay_of. pose proof accept_base_range.
    assert (ACCEPT_BACKOFF_BASE ≤ ACCEPT_BACKOFF_MAX) by (by vm_compute). nia.
Qed.

(** C28: the accept loops of the server never stop and lose no connection.  Whatever
    the accepts give, in debug and release builds, the loops of the stream, QUIC and
    HTTP backends hand every accepted connection to a task, in order, and after the
    [i]-th failure in a row wait [min (10 * 2^i, 1000)] milliseconds.  A turn of the
    HTTP/3 loop, which drops one of two accepts, completes when one of the sockets
    does something, starts only what was accepted, drops no connection that was
    accepted before it completed, and leaves both backoffs fit for the next turn. *)
Theorem server_accepts checks :
  (∀ outs, accept_loop_stream checks outs = Some (expected_acts 0 outs)) ∧
  (∀ outs, accept_loop_quic checks outs = Some (expected_acts 0 outs)) ∧
  (∀ outs, accept_loop_http checks outs = Some (expected_acts 0 outs)) ∧
  accept_after accept_backoff ∧
  ∀ tcp_b quic_b (tcp : timed (result io_kind (TcpSocket * SocketAddr)))
    (quic : timed (result net_error QuicIncoming)),
    accept_after tcp_b → accept_after quic_b →
    ∃ r tcp_b' quic_b', http3_turn checks tcp_b quic_b tcp quic = Some (r, tcp_b', quic_b') ∧
      accept_after tcp_b' ∧ accept_after quic_b' ∧
      (r = Never ↔ tcp = Never ∧ quic = Never) ∧
      (∀ t a, r = At t (Left (Spawn a)) → tcp = At t (Ok a)) ∧
      (∀ t a, r = At t (Right (Spawn a)) → quic = At t (Ok a)) ∧
      (∀ t a, tcp = At t (Ok a) → r = At t (Left (Spawn a)) ∨ ∃ t' x, r = At t' (Right x) ∧ t' < t) ∧
      (∀ t a, quic = At t (Ok a) → r = At t (Right (Spawn a)) ∨ ∃ t' x, r = At t' (Left x) ∧ t' ≤ t).
Proof.
  assert (after ACCEPT_BACKOFF_BASE ACCEPT_BACKOFF_MAX 0 accept_backoff) as Hnew
    by apply after_new.
  split_and!; [intros outs; by apply accept_turns_acts..|by exists 0%nat|].
  intros tcp_b quic_b tcp quic Ht Hq.
  destruct (accept_branch_spec checks tcp_b tcp Ht) as (f1 & b1 & E1 & H1 & C1).
  destruct (accept_branch_spec checks quic_b quic Hq) as (f2 & b2 & E2 & H2 & C2).
  unfold http3_turn. rewrite E1, E2. simpl. pose proof accept_base_range.
  destruct tcp as [|t1 [a1|e1]], quic as [|t2 [a2|e2]]; simplify_eq/=;
    repeat match goal with H : ∃ d, _ ∧ _ |- _ => destruct H as (? & -> & ?) end; simpl;
    repeat case_match; simplify_eq/=;
    eexists _, _, _; (split; [done|]); split_and!; naive_solver (auto; lia).
Qed.

(** *** Libraries for the witnesses *)

(** A port that was not asked for. *)
Definition bound_port (a : SocketAddr) : option SocketAddr :=
  if sport a =? 0 then Some (mkSocketAddr (ip a) 40000)
  else if between 1 65535 (sport a) then Some a else None.

Lemma bound_port_laws a a' :
  bound_port a = Some a' →
  ip a' = ip a ∧ is_u16 (sport a') ∧ sport a' ≠ 0 ∧ (sport a ≠ 0 → sport a' = sport a).
Proof.
  unfold bound_port. destruct (Z.eqb_spec (sport a) 0) as [->|Hz]; [by intros [= <-]|].
  unfold between. case_match eqn:Hb; [|done]. intros [= <-]. unfold_u. split_and!; try done; lia.
Qed.

Definition bind_any (a : SocketAddr) : result io_kind (Listening SocketAddr) :=
  match bound_port a with Some a' => Ok (Ok a') | None => Err AddrNotAvailable end.

#[local] Instance local_os : Os := {|
  lookup_host _ _ := Ok [];
  lookup_host_async _ _ := now (Ok []);
  tcp_connect a := At 3 (Ok (mkTcpSocket (Ok a) (Ok a) (λ _, Ok ())));
  tcp_bind a := now (bind_any a);
  unix_connect p := now (Ok (mkUnixSocket (Ok (Some p)) (Ok None)));
  unix_bind p := Ok (Ok (Some p));
  udp_bind a := now (Ok (mkUdpSocket (Ok a) (Ok a) (λ _ _, Never) Never));
  udp_connect s _ := now (Ok s);
|}.

#[local] Instance local_os_laws : OsLaws.
Proof.
  split; simpl.
  - intros a t l. unfold bind_any. destruct (bound_port a) as [a'|] eqn:Hb; [|done].
    intros [= <- <-]. exists a'. split; [done|by apply bound_port_laws].
  - by intros a t s a' [= <- <-] [= <-].
  - by intros p l [= <-].
Qed.

#[local] Existing Instance unit_rustls.

#[local] Instance local_quinn : Quinn := {|
  PrivateKey := (); QServerCrypto := (); QClientCrypto := ();
  with_single_cert _ _ := Ok ();
  quic_server_config _ := Ok ();
  add_root store cert := Ok (cert :: store);
  with_root_certificates _ := Ok ();
  quic_client_config _ := Ok ();
  transport_default := mkTransportConfig 100 100 1250000 (2 ^ 62 - 1) None (Some 30000) (Some 1250000);
  endpoint_server _ a := bind_any a;
  endpoint_client a := bind_any a;
  quinn_connect _ _ a _ := Ok (now (Ok (mkQConnection a None None)));
  c_open_bi _ := now (Ok 0); c_accept_bi _ := now (Ok 1);
  c_open_uni _ := now (Ok 2); c_accept_uni _ := now (Ok 3);
  c_send_datagram _ _ := Ok ();
  c_read_datagram _ := Never;
|}.

#[local] Instance local_quinn_laws : QuinnLaws.
Proof.
  intros cfg a l. simpl. unfold bind_any. destruct (bound_port a) as [a'|] eqn:Hb; [|done].
  intros [= <-]. exists a'. split; [done|by apply bound_port_laws].
Qed.

#[local] Instance local_tungstenite : Tungstenite := {|
  TungReceiver := (); TungSender := ();
  client_async _ _ _ := At 5 (Ok (tt, tt));
  accept_async _ _ := At 5 (Ok (tt, tt));
|}.

#[local] Instance local_handshakes : HttpHandshakes := {|
  h2_handshake _ := At 2 (Ok ());
  h3_client_new _ := At 2 (Ok ());
|}.

Lemma port_without c p : is_u16 p → authority_char c = false → without c (print_u64 p) = true.
Proof. intros Hp Hc. apply authority_without; [|done]. apply plain_authority. by apply (print_u64_plain 16). Qed.

#[local] Instance read_url_special : @UrlSpecialLaws read_url.
Proof.
  intros sch a Hsch Hip Hp. unfold url_parse.
  assert (without ":"%char sch = true) as Hc by (set_unfold in Hsch; by destruct_or!; subst).
  destruct a as [[o|o] p]; unfold socket_addr_to_string; cbn [ip sport] in *.
  - destruct Hip as [Hl Ho].
    destruct (read_host_port (ipv4_to_string o) p) as [Hr Hau]; [by apply ipv4_text_plain|done|].
    rewrite (read_url_authority sch (ipv4_to_string o +:+ ":" +:+ print_u64 p) "/");
      [|done|by apply authority_without|by right|done].
    rewrite Hr. by eexists.
  - destruct (ipv6_text o Hip) as [Hall _].
    rewrite (read_url_authority sch ("[" +:+ ipv6_to_string o +:+ "]:" +:+ print_u64 p) "/");
      [rewrite read_brackets by done; eexists; split_and!; eauto|done| |by right|done].
    unfold without. rewrite !str_all_app. change (str_all _ "[" && ?x) with x.
    change (str_all _ "]:" && ?x) with x. apply andb_true_intro; split; [by apply authority_without|].
    by apply port_without.
Qed.

(** A WebSocket server over TLS on any port of the local host, and a client of the
    endpoint it reports, which is built from its text. *)
Definition wss_endpoint : Endpoint :=
  Wss (mkUrl "wss" (Some "127.0.0.1") (Some 0) "/" "wss://127.0.0.1:0/")%string.

Definition wss_setup : Setup :=
  mkSetup wss_endpoint TcpConfig_default (Some (mkServerTlsConfig tt)) None
    (mkServerConfig ∅ ∅ default_notification_encoder) None DEFAULT_HANDSHAKE_TIMEOUT
    (mkServerHttpConfig DEFAULT_CONTENT_TYPE).

Definition wss_client (e : Endpoint) : ClientSetup :=
  mkClientSetup e TcpConfig_default (Some (mkClientTlsConfig tt "localhost")) None HttpConfig_default
    (Some DEFAULT_TIMEOUT) DEFAULT_MAX_SUBSCRIPTION_BUFFER_SIZE default_notification_decoder.

#[local] Existing Instance read_url.

Definition wss_reported : Endpoint :=
  Wss (mkUrl "wss" (Some "127.0.0.1") (Some 40000) "/" "wss://127.0.0.1:40000/")%string.

Definition reports (f : timed (result jsonrpc_error (Server nat nat))) : option (Endpoint * bool) :=
  match f with
  | At _ (Ok s) =>
      match local_endpoint s, backend s with
      | Ok e, BStream _ => Some (e, true)
      | Ok e, _ => Some (e, false)
      | Err _, _ => None
      end
  | _ => None
  end.

Lemma client_reaches_server_witness :
  ∃ t s, server_init wss_setup 1%nat 2%nat = At t (Ok s) ∧
    local_endpoint s = Ok wss_reported ∧ scheme_of wss_reported = scheme_of wss_endpoint ∧
    resolve_endpoint wss_reported = At 0 (Ok (mkSocketAddr (V4 [127; 0; 0; 1]) 40000)) ∧
    ∃ t' cl, client_init (wss_client wss_reported) 1%nat 2%nat = At t' (Ok cl) ∧
      ∃ k m', cl_conn cl = Some m' ∧ client_over m' k ∧ carries 1%nat 2%nat m'.
Proof.
  assert (reports (server_init wss_setup 1%nat 2%nat) = Some (wss_reported, true)) as Hr by (vm_compute; reflexivity).
  destruct (server_init wss_setup 1%nat 2%nat) as [|t [s|]] eqn:Hs; [discriminate Hr| |discriminate Hr].
  exists t, s. split; [reflexivity|].
  destruct (client_reaches_server wss_setup 1%nat 2%nat t s Hs) as (e & He & Hsch & Ha & Hcl).
  { intros a Ha. vm_compute in Ha. injection Ha as <-. by repeat constructor. }
  unfold reports in Hr. rewrite He in Hr |- *.
  destruct (backend s) as [a| |]; [injection Hr as ->|discriminate Hr..].
  split; [reflexivity|]. split; [exact Hsch|]. split.
  - destruct Ha as (a' & bound & _ & _ & [Hp Had] & Hres).
    destruct bound as [[o|o] p]; [|by destruct Had as [h [=]]].
    injection Hp as <-. injection Had as <-. by apply Hres.
  - assert (∃ t' cl, client_init (wss_client wss_reported) 1%nat 2%nat = At t' (Ok cl)) as (t' & cl & Hc).
    { assert (match client_init (wss_client wss_reported) 1%nat 2%nat with
              | At _ (Ok _) => true | _ => false end = true) by (vm_compute; reflexivity).
      repeat case_match; try discriminate. eauto. }
    exists t', cl. split; [exact Hc|].
    destruct (Hcl (wss_client wss_reported) 1%nat 2%nat t' cl) as (k & m' & Hm & Ho & Hk & _);
      [reflexivity|exact Hc|]. by exists k, m'.
Defined.

(** Two failures and a connection, and a QUIC connection that comes in while the TCP
    socket waits after a failure. *)
Lemma server_accepts_witness :
  let peer := mkSocketAddr (V4 [127; 0; 0; 2]) 7 in
  let socket := mkTcpSocket (Ok peer) (Ok peer) (λ _, Ok ()) in
  let conn := mkQuicIncoming (mkIncoming peer Never) (Quic (Ip (ip peer)) 9000) in
  accept_loop_http true [Err AddrNotAvailable; Err AddrNotAvailable; Ok (socket, peer)] =
    Some [Pause 10; Pause 20; Spawn (socket, peer)] ∧
  ∃ tcp_b quic_b,
    http3_turn (E' := net_error) (A := TcpSocket * SocketAddr) true accept_backoff accept_backoff
      (At 1 (Err AddrNotAvailable)) (At 5 (Ok conn)) =
      Some (At 5 (Right (Spawn conn)), tcp_b, quic_b) ∧ accept_after tcp_b ∧ accept_after quic_b.
Proof.
  intros peer socket conn. destruct (server_accepts true) as (_ & _ & Hh & Hn & Hturn). split.
  - rewrite Hh. reflexivity.
  - destruct (Hturn accept_backoff accept_backoff (At 1 (Err AddrNotAvailable)) (At 5 (Ok conn)) Hn Hn)
      as (r & tb & qb & Hr & Ht & Hq & _ & _ & _ & _ & Hlast).
    exists tb, qb. split; [|by split].
    destruct (Hlast 5 conn eq_refl) as [->|(t' & x & -> & Ht')]; [exact Hr|].
    vm_compute in Hr. discriminate Hr.
Defined.
