(* ===== verification/JsonRpcApi.v ===== *)
(** * The methods of a JSON-RPC client

    Models [Client::call], [subscribe] and [unsubscribe] of
    [jsonrpc/src/client/mod.rs], with all default features on: which backend a call
    goes to, by the client that [client_init] built, and what the caller gets.  The
    exchanges of the backends are those of [JsonRpcClient], [JsonRpcQuic],
    [JsonRpcHttp] and [JsonRpcH3]; here they are what they answer.

    The theorem: whether subscriptions work is decided by the configuration, and
    where they do not, nothing is asked of the server. *)

From S2P Require Import JsonRpcHttp.
From S2P Require Import Prelude Codec Endpoint Framed Timed Transports QuicTransport Json Ws JsonRpcServer JsonRpcClient.
From S2P Require Import JsonRpcSetup JsonRpcSetupSpec.

Local Open Scope Z_scope.

Notation answer := (poll (result jsonrpc_error Response)).

Definition and_then {A} (f : Response → result jsonrpc_error A) (p : answer) : poll (result jsonrpc_error A) :=
  poll_map (λ r, match r with Ok r => f r | Err e => Err e end) p.

(** The exchanges of a client: [multiplexed::send_request], and opening a stream for
    a request over QUIC, hyper and h3. *)
Record exchanges `{JsonRpcHttp.Http} := mkExchanges {
  ex_mux : Z → string → Value → answer;
  ex_quic : Z → string → Value → answer;
  ex_hyper : http_request → poll (result jsonrpc_error (Z * body));
  ex_h3 : http_request → poll (result jsonrpc_error (Z * list h3_event));
}.

Section api.
Context `{JsonRpcHttp.Http} `{Quinn} `{Tungstenite} {B W : Type} `{Codec B Value net_error}.
Implicit Types (c : Client B W) (hb : HttpClientBackend).
Context (ex : exchanges).

(** [HttpClientBackend::send_request]. *)
Definition http_send_request hb (codec : B) (msg : Value) : answer :=
  match hb_inner hb with
  | H1 _ | H2 _ => hyper_send codec (hb_config hb) (ex_hyper ex) msg
  | H3 _ => h3_send_request codec (hb_config hb) (ex_h3 ex) msg
  end.

(** [HttpClientBackend::subscribe_h3]; [h3::subscribe] reads the response as
    [h3::send] does. *)
Definition subscribe_h3 hb (codec : B) (msg : Value) : answer :=
  match hb_inner hb with
  | H3 _ => h3_send_request codec (hb_config hb) (ex_h3 ex) msg
  | _ => Ready (Err (JUnsupportedProtocol "subscribe_h3 requires HTTP/3"))
  end.

(** [id] is the random identifier, [expired] says whether the timeout of an HTTP
    call comes first. *)
Definition call {V} `{Deserialize V} c (expired : bool) (id : Z) (method : string) (params : Value) :
    poll (result jsonrpc_error V) :=
  and_then call_result
    match cl_backend c with
    | HttpBackend hb _ =>
        http_call (c_timeout (cl_setup c)) expired (http_send_request hb (cl_codec c)) id method params
    | QuicStream _ _ => ex_quic ex id method params
    | Multiplexed _ => ex_mux ex id method params
    end.

(** The identifier of the new subscription. *)
Definition subscribe c (id : Z) (method : string) (params : Value) : poll (result jsonrpc_error Z) :=
  and_then subscribe_result
    match cl_backend c with
    | HttpBackend hb _ => subscribe_h3 hb (cl_codec c) (to_value (new_request id method params))
    | QuicStream _ _ => ex_quic ex id method params
    | Multiplexed _ => ex_mux ex id method params
    end.

(** Over QUIC and HTTP the request goes to the task of the subscription, when there
    is one, and nobody waits for the response. *)
Definition unsubscribe c (id : Z) (method : string) (sub_id : Z) : poll (result jsonrpc_error ()) :=
  match cl_backend c with
  | HttpBackend _ _ | QuicStream _ _ => Ready (Ok ())
  | Multiplexed _ => and_then unsubscribe_result (ex_mux ex id method (int_ser sub_id))
  end.

End api.

(** ** Theorem *)

Section built.
Context `{Os} `{JsonRpcHttp.Http} `{Quinn} `{Tungstenite} `{HttpHandshakes} {B W : Type} `{Codec B Value net_error}.

(** What a client is made of. *)
Lemma client_built cc (bc : B) (wc : W) t cl :
  client_init cc bc wc = At t (Ok cl) →
  cl_setup cl = cc ∧ cl_codec cl = bc ∧
  match c_endpoint cc with
  | Quic _ _ => ∃ conn n, cl_backend cl = QuicStream conn n
  | Http _ => ∃ inner n, cl_backend cl = HttpBackend (mkHttpClientBackend inner (c_http_config cc)) n ∧
      (is_Some (c_quic_config cc) ↔ ∃ conn, inner = H3 conn)
  | _ => ∃ n, cl_backend cl = Multiplexed n
  end.
Proof.
  unfold client_init, build_quic_backend, build_http_backend, build_ws_backend, build_byte_backend, new_h3, new_h2.
  intros Hc. destruct (c_endpoint cc) eqn:He; inv_timed; inv_timed; (split_and!; [done..|]); try by eauto.
  destruct (c_quic_config cc); [|destruct (http2 _)]; inv_timed; eexists _, _; (split; [done|]); naive_solver.
Qed.

(** The configuration decides what the methods of a client do.  Over HTTP, a call is
    sent with the codec and the timeout of the configuration; with a QUIC
    configuration a subscription is asked for over HTTP/3, and without one
    [subscribe] fails before anything is sent, whatever the server would answer,
    although [unsubscribe] reports success.  Clients of QUIC endpoints use a stream
    for each call, and all others the one connection. *)
Theorem client_api {V} `{Deserialize V} cc (bc : B) (wc : W) t cl ex expired id method params sub_id :
  client_init cc bc wc = At t (Ok cl) →
  let msg := to_value (new_request id method params) in
  let over p :=
    call (V := V) ex cl expired id method params = and_then call_result p ∧
    subscribe ex cl id method params = and_then subscribe_result p in
  match c_endpoint cc with
  | Http _ =>
      call (V := V) ex cl expired id method params = and_then call_result
        (http_call (c_timeout cc) expired
          (match c_quic_config cc with
           | Some _ => h3_send_request bc (c_http_config cc) (ex_h3 ex)
           | None => hyper_send bc (c_http_config cc) (ex_hyper ex)
           end) id method params) ∧
      subscribe ex cl id method params =
        match c_quic_config cc with
        | Some _ => and_then subscribe_result (h3_send_request bc (c_http_config cc) (ex_h3 ex) msg)
        | None => Ready (Err (JUnsupportedProtocol "subscribe_h3 requires HTTP/3"))
        end ∧
      unsubscribe ex cl id method sub_id = Ready (Ok ())
  | Quic _ _ => over (ex_quic ex id method params) ∧ unsubscribe ex cl id method sub_id = Ready (Ok ())
  | _ => over (ex_mux ex id method params) ∧
      unsubscribe ex cl id method sub_id = and_then unsubscribe_result (ex_mux ex id method (int_ser sub_id))
  end.
Proof.
  intros (Hs & Hb & Hk)%client_built. unfold call, subscribe, unsubscribe. rewrite Hs, Hb. cbn zeta.
  destruct (c_endpoint cc); try by destruct Hk as [n ->].
  - by destruct Hk as (conn & n & ->).
  - destruct Hk as (inner & n & -> & Hq). unfold http_send_request, subscribe_h3. cbn [hb_inner hb_config].
    destruct (c_quic_config cc) as [qc|].
    + destruct (proj1 Hq) as [conn ->]; [by eauto|done].
    + destruct inner as [e|e|conn]; [done..|]. destruct (proj2 Hq) as [? ?]; [by eauto|done].
Qed.

End built.
