(* ===== verification/Socks5.v ===== *)
(** * The SOCKS5 layer

    Models [net/src/layers/proxy/socks5.rs]: the client's handshake with a
    SOCKS5 proxy over a byte stream.

    The proxy is what the stream gives: the bytes to come and how they end, and
    where writing fails, if it does.  The request is read back with the grammar
    of RFC 1928, and the handshake takes exactly the proxy's reply off the
    stream, so that the tunnel starts where the reply ends. *)

From S2P Require Import Prelude Codec Framed Utf8 IpText.

Local Open Scope Z_scope.

(** ** The stream *)

Inductive stream_end := EndOpen | EndEof | EndErr (k : io_kind).

(** The bytes to come with their end, the bytes written, and after how many more
    bytes writing or flushing fails. *)
Record proxy := mkProxy {
  p_in : list Z;
  p_end : stream_end;
  p_out : list Z;
  p_fail : option (nat * io_kind);
}.

Definition io (A : Type) : Type := proxy → poll (result net_error A) * proxy.

#[global] Instance io_ret : MRet io := λ A a p, (Ready (Ok a), p).
#[global] Instance io_bind : MBind io := λ A B f m p,
  match m p with
  | (Ready (Ok a), p) => f a p
  | (Ready (Err e), p) => (Ready (Err e), p)
  | (Pending, p) => (Pending, p)
  | (Panicked, p) => (Panicked, p)
  end.

Definition io_err {A} (e : net_error) : io A := λ p, (Ready (Err e), p).

(** [AsyncReadExt::read_exact]. *)
Definition read_exact (n : nat) : io (list Z) := λ p,
  if (n <=? length (p_in p))%nat
  then (Ready (Ok (take n (p_in p))), mkProxy (drop n (p_in p)) (p_end p) (p_out p) (p_fail p))
  else
    (match p_end p with
     | EndOpen => Pending
     | EndEof => Ready (Err (IO UnexpectedEof))
     | EndErr k => Ready (Err (IO k))
     end, mkProxy [] (p_end p) (p_out p) (p_fail p)).

(** [AsyncWriteExt::write_all] and [flush]. *)
Definition write_all (bs : list Z) : io () := λ p,
  match p_fail p with
  | Some (n, k) =>
      if (n <=? length bs)%nat
      then (Ready (Err (IO k)), mkProxy (p_in p) (p_end p) (p_out p ++ take n bs) (p_fail p))
      else (Ready (Ok ()), mkProxy (p_in p) (p_end p) (p_out p ++ bs) (Some ((n - length bs)%nat, k)))
  | None => (Ready (Ok ()), mkProxy (p_in p) (p_end p) (p_out p ++ bs) None)
  end.

Arguments read_exact : simpl never.
Arguments write_all : simpl never.

(** ** The layer *)

Definition SOCKS5_VERSION : Z := 5.
Definition NO_AUTH : Z := 0.
Definition CMD_CONNECT : Z := 1.
Definition ATYPE_IPV4 : Z := 1.
Definition ATYPE_DOMAIN : Z := 3.
Definition ATYPE_IPV6 : Z := 4.
Definition REPLY_SUCCESS : Z := 0.

(** The host is its bytes. *)
Record Socks5Layer := mkSocks5Layer {
  target_host : list Z;
  target_port : Z;
}.

Definition connect_request (l : Socks5Layer) (host_len : Z) : list Z :=
  [SOCKS5_VERSION; CMD_CONNECT; 0] ++
  match parse_ipv4 (target_host l) with
  | Some ip => ATYPE_IPV4 :: ip
  | None =>
      match parse_ipv6 (target_host l) with
      | Some ip => ATYPE_IPV6 :: ip
      | None => ATYPE_DOMAIN :: host_len :: target_host l
      end
  end ++ u16_to_be (target_port l).

(** The bound address of the reply is skipped. *)
Definition skip_bound (atype : Z) : io () :=
  if atype =? ATYPE_IPV4 then _ ← read_exact 6; mret tt
  else if atype =? ATYPE_DOMAIN then
    b ← read_exact 1; _ ← read_exact (Z.to_nat (nth 0 b 0 + 2)); mret tt
  else if atype =? ATYPE_IPV6 then _ ← read_exact 18; mret tt
  else io_err (Socks5 "unknown address type in reply: {}").

Definition handshake (l : Socks5Layer) : io () :=
  let host_len := len (target_host l) in
  if negb ((0 <? host_len) && (host_len <=? 255)) then io_err (Socks5 "invalid host length: {}")
  else
    _ ← write_all [SOCKS5_VERSION; 1; NO_AUTH];
    resp ← read_exact 2;
    if negb (nth 0 resp 0 =? SOCKS5_VERSION) || negb (nth 1 resp 0 =? NO_AUTH)
    then io_err (Socks5 "server rejected auth method")
    else
      _ ← write_all (connect_request l host_len);
      reply ← read_exact 4;
      if negb (nth 0 reply 0 =? SOCKS5_VERSION) then io_err (Socks5 "invalid reply version")
      else if negb (nth 1 reply 0 =? REPLY_SUCCESS) then io_err (Socks5 "connect failed (code {})")
      else skip_bound (nth 3 reply 0).

(** ** The grammar of RFC 1928 *)

Inductive target :=
| TIpv4 (octets : list Z)
| TDomain (host : list Z)
| TIpv6 (octets : list Z).

(** [n] bytes and a port. *)
Definition address_port (n : nat) (bs : list Z) : option (list Z * Z) :=
  match drop n bs with
  | [hi; lo] => Some (take n bs, u16_from_be hi lo)
  | _ => None
  end.

Definition parse_connect (bs : list Z) : option (target * Z) :=
  match bs with
  | version :: cmd :: rsv :: atype :: bs =>
      if bool_decide ([version; cmd; rsv] = [5; 1; 0]) then
        if atype =? 1 then '(a, port) ← address_port 4 bs; Some (TIpv4 a, port)
        else if atype =? 3 then
          match bs with
          | n :: bs => '(a, port) ← address_port (Z.to_nat n) bs; Some (TDomain a, port)
          | [] => None
          end
        else if atype =? 4 then '(a, port) ← address_port 16 bs; Some (TIpv6 a, port)
        else None
      else None
  | _ => None
  end.

(** The bytes after a reply's address type. *)
Inductive bound_address : Z → list Z → Prop :=
| bound_ipv4 bs : length bs = 6%nat → bound_address 1 bs
| bound_domain n bs : length bs = Z.to_nat (n + 2) → bound_address 3 (n :: bs)
| bound_ipv6 bs : length bs = 18%nat → bound_address 4 bs.

(** What the layer asks for. *)
Definition requested (l : Socks5Layer) : target :=
  match parse_ipv4 (target_host l), parse_ipv6 (target_host l) with
  | Some ip, _ => TIpv4 ip
  | None, Some ip => TIpv6 ip
  | None, None => TDomain (target_host l)
  end.

(** ** Steps of the stream *)

Lemma io_bind_Ok {A B} (m : io A) (f : A → io B) p b p' :
  (m ≫= f) p = (Ready (Ok b), p') →
  ∃ a p1, m p = (Ready (Ok a), p1) ∧ f a p1 = (Ready (Ok b), p').
Proof.
  unfold mbind, io_bind. destruct (m p) as [[|[a|e]|] p1]; naive_solver.
Qed.

Lemma read_exact_Ok n inp e out f a p' :
  read_exact n (mkProxy inp e out f) = (Ready (Ok a), p') ↔
  ∃ rest, inp = a ++ rest ∧ length a = n ∧ p' = mkProxy rest e out f.
Proof.
  unfold read_exact. simpl. split.
  - destruct (Nat.leb_spec n (length inp)); [|by destruct e]. intros [= <- <-].
    exists (drop n inp). by rewrite take_drop, length_take_le.
  - intros (rest & -> & <- & ->). rewrite length_app.
    replace (length a <=? _)%nat with true by (symmetry; apply Nat.leb_le; lia).
    by rewrite take_app_length, drop_app_length.
Qed.

Lemma skip_bound_Ok atype inp e out f p' :
  skip_bound atype (mkProxy inp e out f) = (Ready (Ok ()), p') ↔
  ∃ b rest, bound_address atype b ∧ inp = b ++ rest ∧ p' = mkProxy rest e out f.
Proof.
  unfold skip_bound. split.
  - destruct (Z.eqb_spec atype ATYPE_IPV4) as [->|H4].
    { intros (a & p1 & (rest & -> & Ha & ->)%read_exact_Ok & [= <-])%io_bind_Ok.
      exists a, rest. by split; [constructor|]. }
    destruct (Z.eqb_spec atype ATYPE_DOMAIN) as [->|H3].
    { intros (a & p1 & (r1 & -> & Ha & ->)%read_exact_Ok & Hp)%io_bind_Ok.
      apply io_bind_Ok in Hp as (b & p2 & (rest & -> & Hb & ->)%read_exact_Ok & [= <-]).
      destruct a as [|n [|]]; try done. exists (n :: b), rest. by split; [constructor|]. }
    destruct (Z.eqb_spec atype ATYPE_IPV6) as [->|H6]; [|done].
    intros (a & p1 & (rest & -> & Ha & ->)%read_exact_Ok & [= <-])%io_bind_Ok.
    exists a, rest. by split; [constructor|].
  - intros (b & rest & Hb & -> & ->). unfold mbind, io_bind.
    destruct Hb as [bs Hbs|n bs Hbs|bs Hbs]; simpl.
    + by rewrite (proj2 (read_exact_Ok 6 (bs ++ rest) e out f bs _)) by eauto.
    + rewrite drop_0. by rewrite (proj2 (read_exact_Ok (Z.to_nat (n + 2)) (bs ++ rest) e out f bs _)) by eauto.
    + by rewrite (proj2 (read_exact_Ok 18 (bs ++ rest) e out f bs _)) by eauto.
Qed.

(** ** The handshake *)

Section handshake.
Context (l : Socks5Layer).
Hypothesis host_len : 0 < len (target_host l) ≤ 255.

(** The grammar reads the request back. *)
Lemma connect_request_parses :
  parse_connect (connect_request l (len (target_host l))) = Some (requested l, target_port l).
Proof.
  assert (∀ (n : nat) a, length a = n →
    address_port n (a ++ u16_to_be (target_port l)) = Some (a, target_port l)) as Hap.
  { intros n a <-. unfold address_port. rewrite drop_app_length, take_app_length. simpl.
    by rewrite u16_be_roundtrip. }
  unfold connect_request, requested, parse_connect. simpl.
  destruct (parse_ipv4 (target_host l)) as [ip|] eqn:H4; simpl.
  { apply parse_ipv4_length in H4. by rewrite Hap. }
  destruct (parse_ipv6 (target_host l)) as [ip|] eqn:H6; simpl.
  { apply parse_ipv6_length in H6. by rewrite Hap. }
  by rewrite Hap by (unfold len; lia).
Qed.

Lemma handshake_steps inp e p' :
  handshake l (mkProxy inp e [] None) = (Ready (Ok ()), p') ↔
  ∃ rsv atype b rest, inp = [5; 0] ++ [5; 0; rsv; atype] ++ b ++ rest ∧ bound_address atype b ∧
    p' = mkProxy rest e ([5; 1; 0] ++ connect_request l (len (target_host l))) None.
Proof.
  unfold handshake. replace (_ && _) with true by (symmetry; apply andb_true_iff; lia). simpl negb. cbv iota.
  split.
  - intros (? & p1 & [= <- <-] & (resp & p2 & Hr & H)%io_bind_Ok)%io_bind_Ok.
    apply read_exact_Ok in Hr as (r1 & -> & Hresp & ->).
    destruct resp as [|v [|a [|]]]; try done. simpl in H.
    destruct (Z.eqb_spec v SOCKS5_VERSION) as [->|]; [|done].
    destruct (Z.eqb_spec a NO_AUTH) as [->|]; [|done]. simpl in H.
    apply io_bind_Ok in H as (? & p3 & [= <- <-] & (reply & p4 & Hr & H)%io_bind_Ok).
    apply read_exact_Ok in Hr as (r2 & -> & Hreply & ->).
    destruct reply as [|v [|c [|rsv [|atype [|]]]]]; try done. simpl in H.
    destruct (Z.eqb_spec v SOCKS5_VERSION) as [->|]; [|done].
    destruct (Z.eqb_spec c REPLY_SUCCESS) as [->|]; [|done]. simpl in H.
    apply skip_bound_Ok in H as (b & rest & Hb & -> & ->). by exists rsv, atype, b, rest.
  - intros (rsv & atype & b & rest & -> & Hb & ->).
    transitivity (skip_bound atype (mkProxy (b ++ rest) e
      ([5; 1; 0] ++ connect_request l (len (target_host l))) None)); [done|].
    apply skip_bound_Ok. by exists b, rest.
Qed.

End handshake.

(** C40: The SOCKS5 handshake opens the tunnel that was asked for.  A host whose
    length does not fit is refused before anything is written.  Otherwise, over
    a stream that takes the writes, the handshake succeeds exactly when the
    proxy accepts the method and grants the connection with a well-formed
    reply; the request then is the one that RFC 1928 reads as the target's host
    and port, and exactly the reply was taken off the stream. *)
Theorem socks5_tunnel l inp e rest out :
  (¬ 0 < len (target_host l) ≤ 255 →
    ∀ p, handshake l p = (Ready (Err (Socks5 "invalid host length: {}")), p)) ∧
  (0 < len (target_host l) ≤ 255 →
    handshake l (mkProxy inp e [] None) = (Ready (Ok ()), mkProxy rest e out None) ↔
    (∃ rsv atype b, inp = [5; 0] ++ [5; 0; rsv; atype] ++ b ++ rest ∧ bound_address atype b) ∧
    ∃ req, out = [5; 1; 0] ++ req ∧ req = connect_request l (len (target_host l)) ∧
      parse_connect req = Some (requested l, target_port l)).
Proof.
  split.
  - intros Hlen p. unfold handshake. by replace (_ && _) with false by lia.
  - intros Hlen. rewrite handshake_steps by done. split.
    + intros (rsv & atype & b & r & -> & Hb & [= <- ->]). split; [by eauto 10|].
      eexists. split_and!; [done..|]. by apply connect_request_parses.
    + intros [(rsv & atype & b & -> & Hb) (req & -> & -> & _)]. by eauto 10.
Qed.

(** ** Runs *)

Lemma socks5_tunnel_witness :
  handshake (mkSocks5Layer (bytes_of "example.com") 443)
    (mkProxy [5; 0; 5; 0; 0; 1; 10; 0; 0; 1; 4; 56; 22; 3] EndOpen [] None) =
  (Ready (Ok ()), mkProxy [22; 3] EndOpen
    ([5; 1; 0] ++ connect_request (mkSocks5Layer (bytes_of "example.com") 443) 11) None).
Proof.
  apply (socks5_tunnel (mkSocks5Layer (bytes_of "example.com") 443));
    [vm_compute; split; [reflexivity|discriminate]|].
  split.
  - exists 0, 1, [10; 0; 0; 1; 4; 56]. split; [reflexivity|]. apply bound_ipv4. reflexivity.
  - eexists. split; [reflexivity|]. split; [reflexivity|]. vm_compute. reflexivity.
Defined.
